(* ===== verification/_CoqProject ===== *)
-Q . S2P
Prelude.v
Strs.v
Json.v
F64.v
Types.v
Canonical.v
Extern.v
Format.v
Request.v
Validation.v
Project.v
Queries.v
History.v
FileHistory.v
Evidence.v
Glob.v
Policy.v
Protection.v
Authority.v
StoreIndex.v
Snapshot.v
Public.v
Person.v
Screens.v
Diff.v
Probes.v
Utf8.v
Patches.v
MonitorTypes.v
MonitorMatches.v
MonitorOutput.v
MonitorPolicy.v
MonitorQueue.v
MonitorSteps.v
MonitorHistory.v
Monitor.v
MonitorStore.v
MonitorDelivery.v
Deliveries.v
