(* ===== verification/Prelude.v ===== *)
(** * A verification of the layr version store and of monitored commands

    Layr keeps a project as a log of signed records. Every machine appends its own records;
    copies of the log meet in object stores, and every reader folds the records it has into the
    same project: states, lines, refs, a queue, settings and evidence about states. Trees and file
    data are separate objects with signed headers. Persons ask for operations by signed requests
    that a machine applies and records. Policies, protection rules and overlay authorities are
    read from the same log and decide who may do what.

    The runtime of Studio starts commands for its agents and watches them. The record of such a
    command says whether it is to be approved, started, stopped, restarted or reported; the bytes it
    writes go through a durable queue to a log file and to the record, which counts the patterns
    the agent waits for and wakes the agent. Everything may stop at any time and is done again.

    This library models the crates that carry this logic as Rocq functions, and proves what the rest
    of the system relies on: [layr-model] and [layr-store]
    (both under [src/workspaces/runtime/apps/layr/crates/]), and the monitor modules of
    [runtime-services] with their part of [runtime-schema] and [runtime-store] (under
    [src/workspaces/runtime/packages/]). One file models one part, in the order of the imports:

    - [Prelude]: results ([anyhow::Result]), loops with early exit, stable sorting, ordered maps,
      total orders as classes, machine integers as [Z] with their bounds; the tactic [inv_ok] and
      the hint databases [layr] and [serde].
    - [Strs]: Rust strings as UTF-8 bytes, splitting, decimal numbers, characters.
    - [Json]: [serde_json::Value], and the readers and writers that [serde] derives, including
      that a struct may be read from an array, aliases, defaults and unknown fields.
    - [Types] ([types.rs]): the record types and their JSON form.
    - [Canonical] ([canonical.rs]): canonical JSON.
    - [Extern]: code outside of the two crates, as classes: UUIDs, hexadecimal and base64, ed25519,
      age, SHA-256 and HMAC, the JSON text reader and printer, Unicode case mapping. The laws that some
      theorems use are classes of their own ([UuidSpec], [EncodingsSpec], [CryptoSpec], [KeyTextSpec]); concrete
      instances show that they can hold.
    - [Format] ([format.rs], [paths.rs], [keys.rs], [record.rs], [reader.rs]): object names, trees,
      headers, signatures and the reader. zstd is a parameter.
    - [Request] ([request.rs], [person.rs]): requests, signed and sealed envelopes.
    - [Validation] ([validation.rs], [release.rs], [operations.rs]): what every record must satisfy.
    - [Project] ([lib.rs], [Project::from_records] and [derive]): the fold of the log.
    - [Queries] ([lib.rs], [operations.rs], [release.rs], [overlays.rs], [epochs.rs]): what the
      project answers, and [Model], the collection of projects.
    - [History] ([lib.rs]: [ancestors], [merge_base], [log], [open_changes]).
    - [FileHistory] ([history.rs]): [file_history] and [blame].
    - [Evidence] ([lib.rs]): revocation, checks, approvals of users and of persons.
    - [Glob], [Policy] ([policy.rs]): patterns, roles, rules and access decisions.
    - [Protection] ([protection.rs]): who approved, which checks passed, whether a merge is allowed.
    - [Authority] ([authority.rs]): the key managers of overlays.
    - [StoreIndex] ([layr-store/src/index.rs]): index objects, their names, checks, sealing and
      opening, and the choice of the newest snapshot.
    - [Snapshot] ([layr-model/src/index.rs]): snapshots of a log and their reconciliation with the
      signed lines, changed paths, skip graphs, and history and blame over them.
    - [Public] ([public.rs], [session.rs], slots of [keys.rs]): public stores, the writers that one
      can trust in them, and session proofs.
    - [Person] ([person.rs]): pins of vaults, the sealed index of pins, invites.
    - [F64]: double-precision floats, for the files that compute with them.
    - [Screens] ([screenshots.rs]): the inventory of screens, changed pixels and their regions.
    - [Diff] ([diff.rs], [interdiff.rs]): patches of files, and the comparison of two versions of a
      change by their patches.
    - [Probes] ([probes.rs]): definitions and stored results of probes, and the comparison of files,
      JSON values and metrics.
    - [Utf8]: UTF-8 in pieces, as [from_utf8] and [from_utf8_lossy] cut it.
    - [Patches]: a reader of unified diffs, written from the format alone, and what it makes of the
      text that [Diff] prints.
    - [MonitorTypes] ([monitor_record.rs]): the record of a monitored command.
    - [MonitorMatches] ([monitor_matches.rs]): decoding output, counting patterns, output events;
      [MonitorOutput]: what the output fields of a record mean, and that they stay sound.
    - [MonitorPolicy] ([monitor_policy.rs]): every decision on a command. JSON schemas are the class
      [Schemas], name-based UUIDs the class [UuidV5].
    - [MonitorQueue] ([monitor_event_queue.rs], [monitor_output.rs]): the durable queue and the
      delivery of output to log and record.
    - [MonitorSteps] ([monitor_runtime.rs], [monitor_driver.rs], [shell_policy.rs],
      [monitor_runtime_wiring.rs]): transactions on a record, as a step relation, with the protocol
      of their effects; [MonitorHistory]: the output of whole runs, and what each transaction leaves
      alone; [Monitor]: what the owner of a command can rely on.
    - [MonitorStore] ([monitor_runtime.rs] and the store's table): all commands of a server,
      creation, limits and restarts.
    - [MonitorDelivery]: a record with its log, queue and consumer as a machine whose moves may stop
      anywhere, and its invariant; [Deliveries]: what delivery guarantees.

    ** What the theorems show

    - The log: a project depends on the set of its records only (not on arrival order or
      repetition); its records are strictly ordered; its states, lines, refs, queue, ref history and
      evidence are what the records of the log say last; another machine never moves a line that
      it does not own.
    - Records: reading inverts writing; a valid record names only UUIDs, safe names and paths that
      stay inside their directories, and keeps cache and derived states out of history.
    - Bytes: canonical JSON is injective and fails on fractions only; the fast tree writer agrees
      with it; trees parse exactly when they are sound and canonical; object names parse exactly
      when they are printed names; signatures of headers and requests verify what was signed.
    - Authority: a person's attestation in an attest record is bound to that person's signed
      request; counted person approvals are authentic when evidence has its usual form; managers of
      an overlay come from a signed chain; revocation is by the owner only; a protected merge is
      allowed exactly when the requirements of its rule are met; rules combine to the strictest in
      every setting but the list of approvers, whose combination is stated as it is; access decisions
      are exact.
    - Walks: ancestry, logs, merge bases, open changes, file histories and blame end and give
      exactly what they should, blame with a row for every line; the glob loop decides the meaning of
      patterns.
    - Indexes: a snapshot is believed only if it is the one that the signed lines give, and a
      snapshot that was honestly taken is accepted; skip graphs lead where walking would; the
      newest snapshot has read the most of every machine, in whatever order they are listed.
    - Keys: the writers of a public store are exactly those that its creator vouches for; manifests,
      indexes and the pins of a person are authentic when they open.
    - Screens: the counts of a comparison are exact, and its few boxes cover every changed pixel,
      stay inside the canvas and are tight.
    - Patches: the text of a patch, read as a unified diff, turns the old file into the new one (for
      files that are not UTF-8: as they are shown), quoted paths read back, and an interdiff lists exactly the paths at which two versions differ.
    - Probes: the differences of two JSON values are exactly the places where they part, as JSON
      pointers that read back; a stored result is one
      that an unrevoked check record gives.
    - Monitored commands, whatever the order of transactions: a command is run once; stall notices
      and output events are not repeated; the byte count is that of the complete streams, the pattern
      counts are those of the bytes that arrived while the owner was active, and the tail is the end
      of the text, however chunks are cut; a chunk is always taken; events report matches that were
      counted; an ended command stays ended, and of its record only the queue and a few marks still
      change, with three named exceptions. Over the store, a
      repeated request creates nothing, at most 64 commands are active, and a replacement is started
      only after the outcome of what it replaces. Over the queue, queued bytes are taken once and in order
      and nothing queued is refused, if outputs are queued behind outputs only.
    - These theorems exhibit behaviour that contradicts what the code or a comment intends: an
      output queued behind a probe is refused by the log ([output_behind_probe_refused]), one
      generation of activity can wake its agent twice ([quiet_notice_repeated]), bytes around a gap
      that was not searched can match together ([unsearched_gap_matches]), a cache state can
      become a parent when it arrives later ([auxiliary_parent_accepted]), and a person approval
      can be forged from another person's refused request ([person_approval_forged]) or recorded
      without any signature ([person_approval_unsigned]); and a rule that lists approvers weakens one
      that asks for maintainers when both apply ([listed_approvers_replace_maintainers]).

    ** Fuel

    Loops that are not structural run on fuel: graph walks on the number of queued states plus all
    parents that are still to come ([pending_by]), the glob loop on the square of its input
    ([glob_fuel]), the settling of manager changes on their number, the loop over trust
    records on the number of registered machines, the check of a skip graph on the number of states,
    the search for an ancestor on the 64 bits of the distance, the walk over an area of pixels on the
    size of the mask, the joining of regions on their number, and the decoding and cutting of output
    on its number of bytes. For each of them a lemma shows
    that the fuel suffices ([ancestors_go_ends], [log_go_ends], [history_go_ends], [traverse_ends],
    [glob_go_ends], [trust_loop_ends], [checked_go_total], [ancestor_go_complete], [flood_spec],
    [absorb_spec], [insert_go_spec], [decode_loop_final], [decode_loop_more],
    [str_chunks_lookup]), so the results are those of the loops.

    ** What is not modelled

    Transports, file systems, key files, key generation, paper backups, zstd and the decoding of
    images are I/O or third-party code; so are the tokenizers and line diffs behind the comparison
    of screen structures, which is left out with the reports that join it with probe results. The line
    diff of patches and of blame is a parameter, with what it promises as a class ([SimilarSpec]). Error values keep the format string of a message, not the values that
    are printed into it. [usize] counters and lengths of in-memory data are natural numbers: they
    are bounded by memory, and no modelled code computes with them near their limits. Integers that
    come from outside keep their width and are checked against it.

    Of monitored commands, these are left out: the processes and their log files but for their
    content (permissions, links and locks), the replies to HTTP inputs, the files of result
    receipts, rules, the rows of events and views that a transaction also writes, and the paging of the
    periodic tick. Their refusals only undo a transaction, and [step] relates committed transactions.
    What a transaction reads from elsewhere (the owner's row, whether its workspace admits a command,
    whether a stop is eligible) is an argument of it. The rest of the runtime (HTTP, databases,
    providers, user interfaces) is I/O around these parts. *)

From stdpp Require Export base tactics list strings gmap sets.
From Stdlib Require Export ZArith Lia.
From Stdlib Require Export Sorted Permutation.

(** ** Fallible code

    [anyhow::Result<A>]: [Err] carries the format string of the [bail!], [ensure!] or
    [context] call that produced it, without the values it interpolates. *)

Inductive result (A : Type) : Type :=
| Ok (a : A)
| Err (msg : string).
Arguments Ok {A} a.
Arguments Err {A} msg.

#[export] Instance result_ret : MRet result := λ A, Ok.
#[export] Instance result_bind : MBind result :=
  λ A B f r, match r with Ok a => f a | Err e => Err e end.
#[export] Instance result_fmap : FMap result :=
  λ A B f r, match r with Ok a => Ok (f a) | Err e => Err e end.
#[export] Instance result_eq_dec {A} `{EqDecision A} : EqDecision (result A).
Proof. solve_decision. Defined.

Definition is_ok {A} (r : result A) : bool :=
  match r with Ok _ => true | Err _ => false end.
(** [Option::context]. *)
Definition ctx {A} (msg : string) (o : option A) : result A :=
  match o with Some a => Ok a | None => Err msg end.
(** [Result::ok]. *)
Definition ok {A} (r : result A) : option A :=
  match r with Ok a => Some a | Err _ => None end.
(** [ensure!(b, msg)]. *)
Definition ensure (b : bool) (msg : string) : result () :=
  if b then Ok tt else Err msg.
(** [if b { bail!(msg) }]. *)
Definition bail_if (b : bool) (msg : string) : result () :=
  if b then Err msg else Ok tt.
(** [if b { c?; }]. *)
Definition when (b : bool) (c : result ()) : result () := if b then c else Ok ().

(** [for x in l { state = f(state, x)?; }]. *)
Fixpoint foldM {S A} (f : S → A → result S) (s : S) (l : list A) : result S :=
  match l with
  | [] => Ok s
  | x :: l => s' ← f s x; foldM f s' l
  end.
(** [for x in l { f(x)?; }]. *)
Definition for_each {A} (f : A → result ()) (l : list A) : result () :=
  foldM (λ _, f) tt l.
(** [l.iter().map(f).collect::<Result<Vec<_>>>()]. *)
Fixpoint collect {A B} (f : A → result B) (l : list A) : result (list B) :=
  match l with
  | [] => Ok []
  | x :: l => y ← f x; ys ← collect f l; Ok (y :: ys)
  end.

(** ** Total orders, as Rust's [Ord] *)

Class Cmp (A : Type) := cmp : A → A → comparison.
#[export] Hint Mode Cmp ! : typeclass_instances.

Class CmpSpec (A : Type) `{Cmp A} : Prop := {
  cmp_eq (x y : A) : cmp x y = Eq ↔ x = y;
  cmp_antisym (x y : A) : cmp y x = CompOpp (cmp x y);
  cmp_trans (x y z : A) : cmp x y = Lt → cmp y z = Lt → cmp x z = Lt
}.
#[export] Hint Mode CmpSpec ! - : typeclass_instances.

#[export] Instance string_cmp : Cmp string := String.compare.
#[export] Instance Z_cmp : Cmp Z := Z.compare.
#[export] Instance nat_cmp : Cmp nat := Nat.compare.
#[export] Instance prod_cmp {A B} `{Cmp A, Cmp B} : Cmp (A * B) :=
  λ x y, match cmp x.1 y.1 with Eq => cmp x.2 y.2 | c => c end.

(** [a <= b] and [a < b] of an [Ord] type. *)
Definition cle {A} `{Cmp A} (x y : A) : bool :=
  match cmp x y with Gt => false | _ => true end.
Definition clt {A} `{Cmp A} (x y : A) : bool :=
  match cmp x y with Lt => true | _ => false end.

(** ** Sorting

    [slice::sort_by] is stable, so it is a function of its input; [sort_by leb] is that
    function for the comparison [leb a b := a <= b]. *)

Section sort_by.
Context {A : Type} (leb : A → A → bool).

Fixpoint sort_insert (x : A) (l : list A) : list A :=
  match l with
  | [] => [x]
  | y :: l' => if leb x y then x :: l else y :: sort_insert x l'
  end.

Definition sort_by (l : list A) : list A := foldr sort_insert [] l.
End sort_by.

(** The entries of a [BTreeMap] in key order: the iteration order of the source. *)
Definition entries {K V} `{Countable K} `{Cmp K} (m : gmap K V) : list (K * V) :=
  sort_by (λ a b, cle a.1 b.1) (map_to_list m).
Definition values {K V} `{Countable K} `{Cmp K} (m : gmap K V) : list V :=
  (entries m).*2.
Definition keys {K V} `{Countable K} `{Cmp K} (m : gmap K V) : list K :=
  (entries m).*1.
(** The elements of a [BTreeSet] in order. *)
Definition members {K} `{Countable K} `{Cmp K} (s : gset K) : list K :=
  sort_by cle (elements s).

(** [iter().enumerate()]. *)
Definition enumerate {A} (l : list A) : list (nat * A) := zip (seq 0 (length l)) l.
(** [iter().find(p)]. *)
Fixpoint find {A} (p : A → bool) (l : list A) : option A :=
  match l with
  | [] => None
  | x :: l => if p x then Some x else find p l
  end.
(** [iter().find_map(f)]. *)
Fixpoint find_map {A B} (f : A → option B) (l : list A) : option B :=
  match l with
  | [] => None
  | x :: l => match f x with Some b => Some b | None => find_map f l end
  end.
(** [iter().position(p)]. *)
Fixpoint position {A} (p : A → bool) (l : list A) : option nat :=
  match l with
  | [] => None
  | x :: l => if p x then Some 0 else S <$> position p l
  end.
Definition filter_map {A B} (f : A → option B) (l : list A) : list B := omap f l.
(** [Option::is_none_or] and [Option::is_some_and]. *)
Definition is_none_or {A} (o : option A) (p : A → bool) : bool :=
  match o with None => true | Some a => p a end.
Definition is_some_and {A} (o : option A) (p : A → bool) : bool :=
  match o with None => false | Some a => p a end.
Definition is_some {A} (o : option A) : bool :=
  match o with None => false | Some _ => true end.
Definition is_none {A} (o : option A) : bool := negb (is_some o).
Definition unwrap_or {A} (o : option A) (d : A) : A := default d o.
(** [Option::or_else]. *)
Definition or_else {A} (o o' : option A) : option A :=
  match o with Some a => Some a | None => o' end.
Definition filterb {A} (p : A → bool) (l : list A) : list A := List.filter p l.

(** Boolean equality at any decidable type, Rust's [==]. *)
Definition eqb {A} `{EqDecision A} (x y : A) : bool := bool_decide (x = y).
Infix "==" := eqb (at level 70, no associativity) : stdpp_scope.
Definition memb {A} `{EqDecision A} (x : A) (l : list A) : bool := bool_decide (x ∈ l).

#[global] Arguments eqb : simpl never.
#[global] Arguments memb : simpl never.

(** Machine integers kept as [Z]. *)
Definition u32_max : Z := 2 ^ 32 - 1.
Definition u64_max : Z := 2 ^ 64 - 1.
Definition i64_max : Z := 2 ^ 63 - 1.
Definition i64_min : Z := - 2 ^ 63.
Definition in_u32 (z : Z) : bool := (0 <=? z)%Z && (z <=? u32_max)%Z.
Definition in_u64 (z : Z) : bool := (0 <=? z)%Z && (z <=? u64_max)%Z.
Definition in_i64 (z : Z) : bool := (i64_min <=? z)%Z && (z <=? i64_max)%Z.

(** * Lemmas *)

Create HintDb layr discriminated.
Create Rewrite HintDb layr.
Create Rewrite HintDb serde.

(** ** Results *)

Lemma bind_ok {A B} (f : A → result B) (r : result A) b :
  r ≫= f = Ok b ↔ ∃ a, r = Ok a ∧ f a = Ok b.
Proof. destruct r; naive_solver. Qed.
Lemma ensure_ok b msg u : ensure b msg = Ok u ↔ b = true.
Proof. destruct b, u; naive_solver. Qed.
Lemma bail_if_ok b msg u : bail_if b msg = Ok u ↔ b = false.
Proof. destruct b, u; naive_solver. Qed.
Lemma ctx_ok {A} msg (o : option A) a : ctx msg o = Ok a ↔ o = Some a.
Proof. destruct o; naive_solver. Qed.
Lemma ok_some {A} (r : result A) a : ok r = Some a ↔ r = Ok a.
Proof. destruct r; naive_solver. Qed.
Lemma is_ok_true {A} (r : result A) : is_ok r = true ↔ ∃ a, r = Ok a.
Proof. destruct r; naive_solver. Qed.

Lemma eqb_true {A} `{EqDecision A} (x y : A) : (x == y) = true ↔ x = y.
Proof. apply bool_decide_eq_true. Qed.
Lemma eqb_false {A} `{EqDecision A} (x y : A) : (x == y) = false ↔ x ≠ y.
Proof. apply bool_decide_eq_false. Qed.
Lemma eqb_eq {A} `{EqDecision A} (x y : A) : (x == y) = true → x = y.
Proof. apply eqb_true. Qed.
Lemma eqb_ne {A} `{EqDecision A} (x y : A) : (x == y) = false → x ≠ y.
Proof. apply eqb_false. Qed.
Lemma eqb_refl {A} `{EqDecision A} (x : A) : (x == x) = true.
Proof. by apply eqb_true. Qed.
Lemma memb_true {A} `{EqDecision A} (x : A) l : memb x l = true ↔ x ∈ l.
Proof. apply bool_decide_eq_true. Qed.
Lemma memb_false {A} `{EqDecision A} (x : A) l : memb x l = false ↔ x ∉ l.
Proof. apply bool_decide_eq_false. Qed.
#[export] Hint Rewrite @bind_ok @ensure_ok @bail_if_ok @ctx_ok @ok_some @is_ok_true
  @eqb_true @eqb_false @memb_true @memb_false
  @andb_true_iff @andb_false_iff @orb_true_iff @orb_false_iff @negb_true_iff @negb_false_iff : layr.

Lemma forallb_elem {A} (p : A → bool) l : forallb p l = true ↔ ∀ x, x ∈ l → p x = true.
Proof. rewrite forallb_forall. by setoid_rewrite list_elem_of_In. Qed.
Lemma existsb_elem {A} (p : A → bool) l : existsb p l = true ↔ ∃ x, x ∈ l ∧ p x = true.
Proof. rewrite existsb_exists. by setoid_rewrite list_elem_of_In. Qed.
Lemma existsb_elem_false {A} (p : A → bool) l :
  existsb p l = false ↔ ∀ x, x ∈ l → p x = false.
Proof.
  rewrite <-not_true_iff_false, existsb_elem. split.
  - intros Hn x Hx. apply not_true_iff_false. naive_solver.
  - intros Hf (x & Hx & Hp). rewrite Hf in Hp; done.
Qed.
Lemma elem_of_filterb {A} (p : A → bool) l x : x ∈ filterb p l ↔ x ∈ l ∧ p x = true.
Proof. unfold filterb. by rewrite !list_elem_of_In, filter_In. Qed.

Lemma Forall2_impl_elem {A B} (P Q : A → B → Prop) l k :
  Forall2 P l k → (∀ x y, x ∈ l → P x y → Q x y) → Forall2 Q l k.
Proof.
  induction 1 as [|x y l k Hxy Hl IH]; intros HPQ; constructor.
  - apply HPQ; [left|done].
  - apply IH. intros. apply HPQ; [by right|done].
Qed.

(** [inv_ok]: take apart every hypothesis of the form [... = Ok _] or [... = Some _] built
    from the monads, and the boolean conditions it leaves. *)
Ltac inv_ok_step :=
  match goal with
  | H : _ ≫= _ = Ok _ |- _ => apply bind_ok in H as (? & ? & ?)
  | H : mbind _ _ = Ok _ |- _ => apply bind_ok in H as (? & ? & ?)
  | u : () |- _ => destruct u
  | H : ensure _ _ = Ok _ |- _ => apply ensure_ok in H
  | H : bail_if _ _ = Ok _ |- _ => apply bail_if_ok in H
  | H : ctx _ _ = Ok _ |- _ => apply ctx_ok in H
  | H : mret _ = Ok _ |- _ => injection H as H
  | H : Ok _ = Ok _ |- _ => injection H as H
  | H : Err _ = Ok _ |- _ => discriminate H
  | H : andb _ _ = true |- _ => apply andb_true_iff in H as [? ?]
  | H : orb _ _ = false |- _ => apply orb_false_iff in H as [? ?]
  | H : negb _ = true |- _ => apply negb_true_iff in H
  | H : negb _ = false |- _ => apply negb_false_iff in H
  | H : eqb _ _ = true |- _ => apply eqb_eq in H
  | H : eqb _ _ = false |- _ => apply eqb_ne in H
  | H : _ ≫= _ = Some _ |- _ => apply bind_Some in H as (? & ? & ?)
  | H : mbind _ _ = Some _ |- _ => apply bind_Some in H as (? & ? & ?)
  | H : Some _ = Some _ |- _ => injection H as H
  | H : None = Some _ |- _ => discriminate H
  | H : (let '(_, _) := ?x in _) = Ok _ |- _ => destruct x as [? ?]
  | H : (let '(_, _) := ?x in _) = Some _ |- _ => destruct x as [? ?]
  | H : (if ?b then None else _) = Some _ |- _ => destruct b eqn:?; [discriminate H|]
  | H : (if ?b then _ else None) = Some _ |- _ => destruct b eqn:?; [|discriminate H]
  | H : (if ?b then Err _ else _) = Ok _ |- _ => destruct b eqn:?; [discriminate H|]
  | H : (if ?b then _ else Err _) = Ok _ |- _ => destruct b eqn:?; [|discriminate H]
  end.
Ltac inv_ok := repeat inv_ok_step; simplify_eq.

(** Reduce the monads and nothing else. *)
Ltac rsimpl := cbn [mbind mret fmap result_bind result_ret result_fmap option_bind option_ret
  option_fmap option_map bail_if ensure ctx].

(** [lia] with division and remainder by constants. *)
Ltac div_lia := Z.to_euclidean_division_equations; lia.

(** ** Loops in the result monad *)

Section loops.
Context {S A : Type}.

Lemma foldM_app (f : S → A → result S) s l k :
  foldM f s (l ++ k) = s' ← foldM f s l; foldM f s' k.
Proof.
  revert s. induction l as [|x l IH]; intros s; simpl; [done|].
  destruct (f s x); simpl; auto.
Qed.

(** An invariant of the loop body is an invariant of the loop. *)
Lemma foldM_inv (P : S → Prop) (f : S → A → result S) s l s' :
  P s → (∀ s x s', x ∈ l → P s → f s x = Ok s' → P s') → foldM f s l = Ok s' → P s'.
Proof.
  revert s. induction l as [|x l IH]; intros s Hs Hf; simpl; intros; inv_ok; [done|].
  eapply IH; [|by intros; eapply Hf; [right|..]|done].
  by eapply Hf; [left|..].
Qed.

Lemma foldM_ext (f g : S → A → result S) s l :
  (∀ s x, x ∈ l → f s x = g s x) → foldM f s l = foldM g s l.
Proof.
  revert s. induction l as [|x l IH]; intros s Hfg; simpl; [done|].
  rewrite Hfg by left. destruct (g s x); simpl; [|done].
  apply IH. intros. apply Hfg. by right.
Qed.
End loops.

Lemma for_each_ok {A} (f : A → result ()) l u :
  for_each f l = Ok u ↔ Forall (λ x, f x = Ok tt) l.
Proof.
  destruct u. unfold for_each. induction l as [|x l IH]; simpl; [by split|].
  rewrite bind_ok, Forall_cons, <-IH.
  split; [intros ([] & ? & ?)|intros [??]; exists tt]; done.
Qed.
Lemma collect_ok {A B} (f : A → result B) l k :
  collect f l = Ok k ↔ Forall2 (λ x y, f x = Ok y) l k.
Proof.
  revert k. induction l as [|x l IH]; intros k; simpl.
  - split; [by intros [= <-]|by inversion 1].
  - rewrite bind_ok. split.
    + intros (y & ? & (ys & ?%IH & [= <-])%bind_ok). by constructor.
    + inversion 1 as [|? y ? ys ? Hys]; subst. exists y. split; [done|].
      apply bind_ok. exists ys. by rewrite IH.
Qed.
#[export] Hint Rewrite @for_each_ok @collect_ok : layr.
Lemma elem_of_collect {A B} (f : A → result B) l k y :
  collect f l = Ok k → y ∈ k ↔ ∃ x, x ∈ l ∧ f x = Ok y.
Proof.
  intros Hk%collect_ok. induction Hk as [|x z l k Hx Hk IH]; [set_solver|].
  rewrite elem_of_cons, IH. setoid_rewrite elem_of_cons. naive_solver congruence.
Qed.

(** ** Orders *)

#[export] Instance string_cmp_spec : CmpSpec string.
Proof.
  split; unfold cmp, string_cmp.
  - intros x y. split; [apply String.compare_eq_iff|intros ->].
    induction y as [|a y IH]; [done|]. simpl.
    unfold Ascii.compare. by rewrite N.compare_refl.
  - intros x y. apply String.compare_antisym.
  - intros x y z Hxy Hyz.
    assert (String.le x z) as Hle.
    { etrans; [|by unfold String.le, String.leb; rewrite Hyz].
      by unfold String.le, String.leb; rewrite Hxy. }
    unfold String.le, String.leb in Hle.
    destruct (String.compare x z) eqn:E; [|done|done].
    apply String.compare_eq_iff in E as ->.
    rewrite String.compare_antisym, Hyz in Hxy. done.
Qed.

#[export] Instance Z_cmp_spec : CmpSpec Z.
Proof.
  split; unfold cmp, Z_cmp.
  - intros x y. apply Z.compare_eq_iff.
  - intros x y. apply Z.compare_antisym.
  - intros x y z. rewrite !Z.compare_lt_iff. lia.
Qed.

#[export] Instance prod_cmp_spec {A B} `{CmpSpec A, CmpSpec B} : CmpSpec (A * B).
Proof.
  split; unfold cmp, prod_cmp.
  - intros [x1 x2] [y1 y2]; simpl. pose proof (cmp_eq x1 y1). pose proof (cmp_eq x2 y2).
    destruct (cmp x1 y1); naive_solver.
  - intros [x1 x2] [y1 y2]; simpl. rewrite (cmp_antisym x1 y1), (cmp_antisym x2 y2).
    by destruct (cmp x1 y1).
  - intros [x1 x2] [y1 y2] [z1 z2]; simpl.
    destruct (cmp x1 y1) eqn:E1; [apply cmp_eq in E1 as ->| |done].
    + destruct (cmp y1 z1) eqn:E2; [|done..]. apply cmp_trans.
    + intros _. destruct (cmp y1 z1) eqn:E2; [apply cmp_eq in E2 as <-| |done].
      * by rewrite E1.
      * intros _. by rewrite (cmp_trans _ _ _ E1 E2).
Qed.

Section cle.
Context {A : Type} `{CmpSpec A}.
Implicit Types x y z : A.

Lemma cmp_refl x : cmp x x = Eq.
Proof. by apply cmp_eq. Qed.
Lemma cmp_gt x y : cmp x y = Gt ↔ cmp y x = Lt.
Proof. rewrite (cmp_antisym x y). destruct (cmp x y); naive_solver. Qed.
Lemma clt_cmp x y : clt x y = true ↔ cmp x y = Lt.
Proof. unfold clt. destruct (cmp x y); naive_solver. Qed.
Lemma cle_refl x : cle x x = true.
Proof. unfold cle. by rewrite cmp_refl. Qed.
Lemma cle_total x y : cle x y = true ∨ cle y x = true.
Proof. unfold cle. rewrite (cmp_antisym x y). destruct (cmp x y); auto. Qed.
Lemma cle_antisym x y : cle x y = true → cle y x = true → x = y.
Proof.
  unfold cle. rewrite (cmp_antisym x y). destruct (cmp x y) eqn:E; [|done..].
  by apply cmp_eq in E.
Qed.
Lemma cle_trans x y z : cle x y = true → cle y z = true → cle x z = true.
Proof.
  unfold cle. destruct (cmp x y) eqn:E1; [apply cmp_eq in E1 as ->; done| |done].
  destruct (cmp y z) eqn:E2; [apply cmp_eq in E2 as <-; by rewrite E1| |done].
  by rewrite (cmp_trans _ _ _ E1 E2).
Qed.
Lemma cle_false x y : cle x y = false → cle y x = true.
Proof. destruct (cle_total x y); congruence. Qed.
Lemma clt_cle x y : clt x y = negb (cle y x).
Proof. unfold clt, cle. rewrite (cmp_antisym x y). by destruct (cmp x y). Qed.
End cle.
#[export] Hint Resolve cle_refl cle_total : layr.

(** ** Sorting *)

Section sort_facts.
Context {A : Type} (leb : A → A → bool).
Local Abbreviation le := (λ a b, leb a b = true).

Lemma sort_insert_perm x l : sort_insert leb x l ≡ₚ x :: l.
Proof.
  induction l as [|y l IH]; simpl; [done|]. destruct (leb x y); [done|].
  rewrite IH. by rewrite Permutation_swap.
Qed.
Lemma sort_by_perm l : sort_by leb l ≡ₚ l.
Proof. induction l as [|x l IH]; simpl; [done|]. by rewrite sort_insert_perm, IH. Qed.
Lemma elem_of_sort_by x l : x ∈ sort_by leb l ↔ x ∈ l.
Proof. by rewrite sort_by_perm. Qed.
Lemma length_sort_by l : length (sort_by leb l) = length l.
Proof. by rewrite sort_by_perm. Qed.
Lemma NoDup_sort_by l : NoDup l → NoDup (sort_by leb l).
Proof. by rewrite sort_by_perm. Qed.

(** Order facts need [leb] to be a total preorder on the elements that occur. *)
Context (P : A → Prop).
Context (Htot : ∀ x y, P x → P y → le x y ∨ le y x).
Context (Htrans : ∀ x y z, P x → P y → P z → le x y → le y z → le x z).

Lemma sort_insert_sorted x l :
  P x → Forall P l → StronglySorted le l → StronglySorted le (sort_insert leb x l).
Proof.
  intros Hx Hl. induction 1 as [|y l Hs IH Hy]; simpl.
  { repeat constructor. }
  apply Forall_cons in Hl as [HPy HPl].
  destruct (leb x y) eqn:E.
  - constructor; [by constructor|]. constructor; [done|].
    rewrite Forall_forall in Hy, HPl |- *. intros z Hz. eauto.
  - constructor; [by apply IH|]. rewrite sort_insert_perm. constructor; [|done].
    destruct (Htot x y) as [?|?]; [done..|congruence|done].
Qed.

Lemma sort_by_sorted l : Forall P l → StronglySorted le (sort_by leb l).
Proof.
  induction l as [|x l IH]; intros Hl; simpl; [constructor|].
  apply Forall_cons in Hl as [? ?].
  apply sort_insert_sorted; [done| |by apply IH]. by rewrite sort_by_perm.
Qed.

(** Two sorted permutations of each other are equal when ties are equal. *)
Lemma sorted_perm_unique l k :
  Forall P l → (∀ x y, P x → P y → le x y → le y x → x = y) →
  StronglySorted le l → StronglySorted le k → l ≡ₚ k → l = k.
Proof.
  intros Hl Hanti Hsl. revert k Hl.
  induction Hsl as [|x l Hs IH Hx]; intros k Hl Hsk Hp.
  { by apply Permutation_nil_l in Hp. }
  destruct Hsk as [|y k Hsk Hy]; [by apply Permutation_nil_r in Hp|].
  assert (Forall P (y :: k)) as Hk by (by rewrite <-Hp).
  assert (x = y) as <-.
  { assert (x ∈ y :: k) as Hxin by (rewrite <-Hp; left).
    assert (y ∈ x :: l) as Hyin by (rewrite Hp; left).
    apply elem_of_cons in Hxin as [|Hxin]; [done|].
    apply elem_of_cons in Hyin as [|Hyin]; [done|].
    rewrite Forall_forall in Hx, Hy, Hl, Hk.
    apply Hanti; [apply Hl; left|apply Hk; left|by apply Hx|by apply Hy]. }
  f_equal. apply IH; [by apply Forall_cons in Hl as [??]|done|].
  by apply Permutation_cons_inv in Hp.
Qed.

Lemma sort_by_unique l k :
  Forall P l → (∀ x y, P x → P y → le x y → le y x → x = y) →
  l ≡ₚ k → sort_by leb l = sort_by leb k.
Proof.
  intros Hl Hanti Hp. apply sorted_perm_unique; [by rewrite sort_by_perm|done|..].
  - by apply sort_by_sorted.
  - apply sort_by_sorted. by rewrite <-Hp.
  - by rewrite !sort_by_perm.
Qed.

(** A sorted list is left alone. *)
Lemma sort_by_id l : StronglySorted le l → sort_by leb l = l.
Proof using.
  induction 1 as [|x l Hs IH Hx]; simpl; [done|]. rewrite IH.
  destruct Hx as [|y l Hxy]; simpl; [done|]. by rewrite Hxy.
Qed.
End sort_facts.

(** Stability: elements that tie with [x] keep their relative order. *)
Lemma sort_by_stable {A} `{CmpSpec K} (key : A → K) (k : K) `{EqDecision K} l :
  filterb (λ a, key a == k) (sort_by (λ a b, cle (key a) (key b)) l) =
  filterb (λ a, key a == k) l.
Proof.
  induction l as [|x l IH]; simpl; [done|]. rewrite <-IH. clear IH.
  generalize (sort_by (λ a b, cle (key a) (key b)) l) as s.
  induction s as [|y s IHs]; simpl; [done|].
  destruct (cle (key x) (key y)) eqn:E; simpl; [done|]. rewrite IHs. simpl.
  destruct (key x == k) eqn:Ex, (key y == k) eqn:Ey; try done.
  apply eqb_eq in Ex, Ey. rewrite Ex, Ey, cle_refl in E. done.
Qed.

Section entries.
Context {K V : Type} `{Countable K} `{!Cmp K} `{!CmpSpec K}.
Implicit Types (m : gmap K V) (k : K) (v : V).

Lemma entries_perm m : entries m ≡ₚ map_to_list m.
Proof. apply sort_by_perm. Qed.
Lemma elem_of_entries m k v : (k, v) ∈ entries m ↔ m !! k = Some v.
Proof. by rewrite entries_perm, elem_of_map_to_list. Qed.
Lemma NoDup_keys m : NoDup (keys m).
Proof. unfold keys. rewrite entries_perm. apply NoDup_fst_map_to_list. Qed.
Lemma elem_of_keys m k : k ∈ keys m ↔ is_Some (m !! k).
Proof.
  unfold keys. rewrite list_elem_of_fmap. split.
  - intros ([? v] & -> & Hv). exists v. by apply elem_of_entries.
  - intros [v Hv]. exists (k, v). by rewrite elem_of_entries.
Qed.
Lemma elem_of_values m v : v ∈ values m ↔ ∃ k, m !! k = Some v.
Proof.
  unfold values. rewrite list_elem_of_fmap. split.
  - intros ([k ?] & -> & Hv). exists k. by apply elem_of_entries.
  - intros [k Hv]. exists (k, v). by rewrite elem_of_entries.
Qed.
Lemma entries_sorted m :
  StronglySorted (λ a b, cle a.1 b.1 = true) (entries m).
Proof.
  apply (sort_by_sorted _ (λ _, True)); [| |by apply Forall_true].
  - intros. apply cle_total.
  - intros ??? _ _ _. apply cle_trans.
Qed.
Lemma list_to_map_entries m : list_to_map (entries m) = m.
Proof.
  rewrite <-(list_to_map_to_list m) at 2. apply list_to_map_proper.
  - apply NoDup_keys.
  - apply entries_perm.
Qed.
(** The entries are the only sorted listing of a map. *)
Lemma entries_list_to_map (l : list (K * V)) :
  StronglySorted (λ a b, clt a.1 b.1 = true) l → entries (list_to_map l) = l.
Proof.
  intros Hl.
  assert (NoDup l.*1) as Hnd.
  { induction Hl as [|[k v] l Hs IH Hx]; simpl; [constructor|]. constructor; [|done].
    intros ([k' v'] & -> & Hin)%list_elem_of_fmap. rewrite Forall_forall in Hx.
    specialize (Hx _ Hin). simpl in Hx. apply clt_cmp in Hx.
    by rewrite cmp_refl in Hx. }
  unfold entries. etrans; [|apply sort_by_id].
  - apply (sort_by_unique _ (λ x, x ∈ map_to_list (list_to_map l : gmap K V))).
    + intros. apply cle_total.
    + intros ??? _ _ _. apply cle_trans.
    + by apply Forall_forall.
    + intros [k1 v1] [k2 v2] H1%elem_of_map_to_list H2%elem_of_map_to_list Hle1 Hle2.
      simpl in *. pose proof (cle_antisym _ _ Hle1 Hle2) as ->. congruence.
    + by apply map_to_list_to_map.
  - clear Hnd. induction Hl as [|x l Hs IH Hx]; constructor; [done|].
    eapply Forall_impl; [done|]. intros y Hy. apply clt_cmp in Hy.
    unfold cle. by rewrite Hy.
Qed.
End entries.

(** Sorted by distinct keys is sorted strictly. *)
Lemma sorted_strict {A K} `{CmpSpec K} (key : A → K) l :
  StronglySorted (λ a b, cle (key a) (key b) = true) l → NoDup (key <$> l) →
  StronglySorted (λ a b, clt (key a) (key b) = true) l.
Proof.
  induction 1 as [|a l Hs IH Hf]; csimpl; intros Hnd; [constructor|].
  apply NoDup_cons in Hnd as [Ha Hnd]. constructor; [auto|].
  rewrite Forall_forall in Hf |- *. intros b Hb. rewrite clt_cle.
  destruct (cle (key b) (key a)) eqn:E; [|done]. destruct Ha.
  rewrite (cle_antisym _ _ (Hf b Hb) E). by apply list_elem_of_fmap_2.
Qed.
Lemma entries_strict {K V} `{Countable K} `{CmpSpec K} (m : gmap K V) :
  StronglySorted (λ a b, clt a.1 b.1 = true) (entries m).
Proof. apply (sorted_strict fst); [apply entries_sorted|apply NoDup_keys]. Qed.

(** ** Folds with their prefix *)

Lemma foldM_prefix_inv {S A} (P : list A → S → Prop) (f : S → A → result S) s l s' :
  P [] s →
  (∀ pre x post s s', l = pre ++ x :: post → P pre s → f s x = Ok s' → P (pre ++ [x]) s') →
  foldM f s l = Ok s' → P l s'.
Proof.
  intros H0 Hstep.
  assert (∀ pre post s, l = pre ++ post → P pre s → foldM f s post = Ok s' → P l s') as Hgen.
  { intros pre post. revert pre. induction post as [|x post IH]; intros pre s1 -> Hp Hf; simpl in Hf.
    - simplify_eq. by rewrite app_nil_r.
    - apply bind_ok in Hf as (s2 & Hx & Hf). apply (IH (pre ++ [x]) s2); [|by eauto|done].
      by rewrite <-app_assoc. }
  by apply (Hgen []).
Qed.
Lemma enumerate_snoc {A} (l : list A) x : enumerate (l ++ [x]) = enumerate l ++ [(length l, x)].
Proof.
  unfold enumerate. rewrite length_app. simpl. rewrite seq_app, zip_with_app by (by rewrite length_seq).
  done.
Qed.
Lemma foldM_enumerate_inv {S A} (P : list A → S → Prop) (f : S → nat * A → result S) s l s' :
  P [] s →
  (∀ pre x s s', P pre s → f s (length pre, x) = Ok s' → P (pre ++ [x]) s') →
  foldM f s (enumerate l) = Ok s' → P l s'.
Proof.
  intros H0 Hstep. revert s'. induction l as [|x l IH] using rev_ind; intros s' Hf.
  - unfold enumerate in Hf. simpl in Hf. by simplify_eq.
  - rewrite enumerate_snoc, foldM_app in Hf. apply bind_ok in Hf as (s1 & Hl & Hx).
    simpl in Hx. apply bind_ok in Hx as (s2 & Hx & [= ->]). eauto.
Qed.
Lemma list_to_map_snoc_fresh {A} (l : list (string * A)) k v :
  k ∉ l.*1 →
  list_to_map (l ++ [(k, v)]) = <[k := v]> (list_to_map l : gmap string A).
Proof.
  intros Hk. rewrite list_to_map_app. simpl. induction l as [|[k' v'] l IH]; csimpl.
  - by rewrite map_empty_union.
  - apply not_elem_of_cons in Hk as [Hne Hk]. rewrite <-insert_union_l, IH by done.
    by apply insert_insert_ne.
Qed.

Lemma find_some {A} (f : A → bool) l x : find f l = Some x → x ∈ l ∧ f x = true.
Proof.
  induction l as [|y l IH]; simpl; [done|]. destruct (f y) eqn:E.
  - intros [= ->]. split; [left|done].
  - intros [? ?]%IH. split; [by right|done].
Qed.
Lemma find_none {A} (f : A → bool) l x : find f l = None → x ∈ l → f x = false.
Proof.
  induction l as [|y l IH]; simpl; [set_solver|]. destruct (f y) eqn:E; [done|].
  intros Hn [->|Hx]%elem_of_cons; auto.
Qed.
Lemma position_some {A} (f : A → bool) l i : position f l = Some i → ∃ x, l !! i = Some x ∧ f x = true.
Proof.
  revert i. induction l as [|y l IH]; intros i; simpl; [done|]. destruct (f y) eqn:E.
  - intros [= <-]. eauto.
  - intros (j & Hj & ->)%fmap_Some. by apply IH.
Qed.
Lemma position_none {A} (f : A → bool) l : position f l = None ↔ Forall (λ x, f x = false) l.
Proof.
  induction l as [|y l IH]; simpl; [by split|]. rewrite Forall_cons. destruct (f y).
  - split; [done|by intros []].
  - rewrite fmap_None, IH. naive_solver.
Qed.
Lemma filterb_sublist {A} (f : A → bool) l : sublist (filterb f l) l.
Proof. induction l as [|x l IH]; simpl; [constructor|]. destruct (f x); by constructor. Qed.
Lemma NoDup_filterb {A} (f : A → bool) l : NoDup l → NoDup (filterb f l).
Proof. intros Hl. eapply sublist_NoDup; [done|apply filterb_sublist]. Qed.

Lemma clt_imp_cle {A} `{CmpSpec A} (x y : A) : clt x y = true → cle x y = true.
Proof. unfold clt, cle. by destruct (cmp x y). Qed.
Lemma StronglySorted_snoc_cle {A} (R : A → A → Prop) l x :
  StronglySorted R l → (∀ y, y ∈ l → R y x) → StronglySorted R (l ++ [x]).
Proof.
  induction 1 as [|y l Hl IH Hy]; intros Hx; simpl; [by repeat constructor|]. constructor.
  - apply IH. intros z Hz. apply Hx. by right.
  - apply Forall_app. split; [done|]. constructor; [apply Hx; left|done].
Qed.
Lemma StronglySorted_sublist {A} (R : A → A → Prop) l k :
  sublist l k → StronglySorted R k → StronglySorted R l.
Proof.
  induction 1 as [|x l k Hl IH|x l k Hl IH]; [done| |]; intros [Hs Hf]%StronglySorted_inv; [|by apply IH].
  constructor; [by apply IH|]. rewrite Forall_forall in Hf |- *. eauto using elem_of_sublist.
Qed.
Lemma sorted_NoDup {A K} `{CmpSpec K} (key : A → K) l :
  StronglySorted (λ a b, clt (key a) (key b) = true) l → NoDup (key <$> l).
Proof.
  induction 1 as [|a l _ IH Ha]; csimpl; constructor; [|done].
  intros (b & E & Hb)%list_elem_of_fmap. rewrite Forall_forall in Ha. specialize (Ha b Hb).
  by rewrite E, clt_cle, cle_refl in Ha.
Qed.
Lemma members_strict (s : gset string) : StronglySorted (λ a b, clt a b = true) (members s).
Proof.
  apply (sorted_strict id).
  - apply (sort_by_sorted _ (λ _, True)); [intros; apply cle_total|intros; by eapply cle_trans|].
    by apply Forall_true.
  - rewrite list_fmap_id. unfold members. rewrite sort_by_perm. apply NoDup_elements.
Qed.
Lemma entries_empty {V} : entries (∅ : gmap string V) = [].
Proof. unfold entries. by rewrite map_to_list_empty. Qed.
Lemma entries_singleton {V} (k : string) (v : V) : entries {[k := v]} = [(k, v)].
Proof. unfold entries. by rewrite map_to_list_singleton. Qed.

(** A loop whose body succeeds at every element reaches its end. *)
Lemma foldM_progress {S A} (P : list A → S → Prop) (f : S → A → result S) s l :
  P [] s →
  (∀ pre x post s, l = pre ++ x :: post → P pre s → ∃ s', f s x = Ok s' ∧ P (pre ++ [x]) s') →
  ∃ s', foldM f s l = Ok s' ∧ P l s'.
Proof.
  intros H0 Hstep.
  assert (∀ pre post s, l = pre ++ post → P pre s → ∃ s', foldM f s post = Ok s' ∧ P l s') as Hgen.
  { intros pre post. revert pre. induction post as [|x post IH]; intros pre s1 E Hp; simpl.
    - exists s1. split; [done|]. by rewrite E, app_nil_r.
    - destruct (Hstep pre x post s1 E Hp) as (s2 & Hx & Hp2). rewrite Hx. rsimpl.
      apply (IH (pre ++ [x])); [|done]. by rewrite <-app_assoc. }
  by apply (Hgen []).
Qed.
(** Two strictly sorted lists with the same elements are equal. *)
Lemma sorted_ext {A} `{CmpSpec A} (l k : list A) :
  StronglySorted (λ a b, clt a b = true) l → StronglySorted (λ a b, clt a b = true) k →
  (∀ x, x ∈ l ↔ x ∈ k) → l = k.
Proof.
  intros Hl Hk Hin. apply (sorted_perm_unique cle (λ _, True)).
  - by apply Forall_true.
  - intros x y _ _. apply cle_antisym.
  - clear -Hl H0. induction Hl as [|x l _ IH Hx]; constructor; [exact IH|].
    eapply Forall_impl; [exact Hx|]. intros y. apply clt_imp_cle.
  - clear -Hk H0. induction Hk as [|x l _ IH Hx]; constructor; [exact IH|].
    eapply Forall_impl; [exact Hx|]. intros y. apply clt_imp_cle.
  - apply NoDup_Permutation.
    + apply NoDup_ListNoDup. apply (sorted_NoDup id) in Hl. by rewrite list_fmap_id in Hl.
    + apply NoDup_ListNoDup. apply (sorted_NoDup id) in Hk. by rewrite list_fmap_id in Hk.
    + intros x. by rewrite <-!list_elem_of_In.
Qed.
