(* ===== verification/Strs.v ===== *)
(** The parts of Rust's [str], [char] and integer formatting that the modelled code uses.

    A Rust [String] is its UTF-8 bytes: a [string] here, byte by byte. [str] comparison is
    byte-wise, which is [String.compare]. Code points appear only where the source calls
    [chars]: [utf8_chars] decodes them. *)

From S2P Require Import Prelude.
From Stdlib Require Ascii.
Export Stdlib.Strings.Ascii (ascii(..), N_of_ascii, ascii_of_N, N_ascii_bounded, N_ascii_embedding, ascii_N_embedding).
Export (notations) Stdlib.Strings.Ascii.

(** ** Bytes *)

Definition byte_val (a : ascii) : Z := Z.of_N (N_of_ascii a).
Definition byte_of (z : Z) : ascii := ascii_of_N (Z.to_N z).

Definition byte_between (lo hi : Z) (a : ascii) : bool :=
  (lo <=? byte_val a)%Z && (byte_val a <=? hi)%Z.
Definition is_ascii_digit : ascii → bool := byte_between 48 57.
Definition is_ascii_lowercase : ascii → bool := byte_between 97 122.
Definition is_ascii_uppercase : ascii → bool := byte_between 65 90.
Definition is_ascii_alphabetic (a : ascii) : bool :=
  is_ascii_lowercase a || is_ascii_uppercase a.
Definition is_ascii_alphanumeric (a : ascii) : bool :=
  is_ascii_alphabetic a || is_ascii_digit a.
Definition is_ascii_hexdigit (a : ascii) : bool :=
  is_ascii_digit a || byte_between 97 102 a || byte_between 65 70 a.
(** [b.is_ascii_digit() || (b'a'..=b'f').contains(&b)]. *)
Definition is_lower_hex (a : ascii) : bool := is_ascii_digit a || byte_between 97 102 a.

(** ** Strings *)

Fixpoint all_bytes (p : ascii → bool) (s : string) : bool :=
  match s with "" => true | String a s => p a && all_bytes p s end.
Definition any_byte (p : ascii → bool) (s : string) : bool :=
  negb (all_bytes (λ a, negb (p a)) s).
Definition str_len (s : string) : Z := Z.of_nat (String.length s).
Definition is_empty (s : string) : bool := s == "".

Fixpoint strip_prefix (p s : string) : option string :=
  match p, s with
  | "", _ => Some s
  | String a p, String b s => if Ascii.eqb a b then strip_prefix p s else None
  | String _ _, "" => None
  end.
Definition starts_with (p s : string) : bool := is_some (strip_prefix p s).
Fixpoint strip_suffix (p s : string) : option string :=
  if p == s then Some ""
  else match s with "" => None | String a s => String a <$> strip_suffix p s end.
Definition ends_with (p s : string) : bool := is_some (strip_suffix p s).
(** [s.contains(sub)]. *)
Fixpoint contains_str (sub s : string) : bool :=
  starts_with sub s || match s with "" => false | String _ s => contains_str sub s end.
(** [s.split_once(sub)] with a string. *)
Fixpoint split_once_str (sub s : string) : option (string * string) :=
  match strip_prefix sub s with
  | Some r => Some ("", r)
  | None =>
      match s with
      | "" => None
      | String a s => '(p, r) ← split_once_str sub s; Some (String a p, r)
      end
  end.
(** [s.split(pred).next()]: the text before the first byte that satisfies the predicate. *)
Fixpoint before (p : ascii → bool) (s : string) : string :=
  match s with "" => "" | String a s => if p a then "" else String a (before p s) end.
Definition has_byte (c : ascii) (s : string) : bool := any_byte (Ascii.eqb c) s.
(** [s.split_once(c)] and [s.rsplit_once(c)] for an ASCII [c]. *)
Fixpoint split_once (c : ascii) (s : string) : option (string * string) :=
  match s with
  | "" => None
  | String a s => if Ascii.eqb a c then Some ("", s)
                  else prod_map (String a) id <$> split_once c s
  end.
Fixpoint rsplit_once (c : ascii) (s : string) : option (string * string) :=
  match s with
  | "" => None
  | String a s =>
      match rsplit_once c s with
      | Some (x, y) => Some (String a x, y)
      | None => if Ascii.eqb a c then Some ("", s) else None
      end
  end.
(** [s.split(c)]: always at least one piece. *)
Fixpoint split_go (c : ascii) (s : string) : string * list string :=
  match s with
  | "" => ("", [])
  | String a s => let '(h, t) := split_go c s in
                  if Ascii.eqb a c then ("", h :: t) else (String a h, t)
  end.
Definition split (c : ascii) (s : string) : list string :=
  let '(h, t) := split_go c s in h :: t.
(** [s.trim_end_matches(c)]. *)
Fixpoint trim_end_matches (c : ascii) (s : string) : string :=
  match s with
  | "" => ""
  | String a s =>
      match trim_end_matches c s with
      | "" => if Ascii.eqb a c then "" else String a ""
      | t => String a t
      end
  end.
Fixpoint rep (n : nat) (a : ascii) : string :=
  match n with O => "" | S n => String a (rep n a) end.
(** [pieces.join(sep)]. *)
Fixpoint join (sep : string) (l : list string) : string :=
  match l with [] => "" | [x] => x | x :: l => x +:+ sep +:+ join sep l end.

(** ** Decimal numbers *)

Definition digit (d : Z) : ascii := byte_of (48 + d).
Fixpoint digits (fuel : nat) (n : Z) (acc : string) : string :=
  let acc' := String (digit (n mod 10)) acc in
  match fuel with
  | O => acc'
  | S fuel => if (n <? 10)%Z then acc' else digits fuel (n / 10) acc'
  end.
(** [n.to_string()] of an unsigned and of a signed integer. *)
Definition dec (n : Z) : string := digits (Z.to_nat (Z.log2 n)) n "".
Definition sdec (n : Z) : string := if (n <? 0)%Z then "-" +:+ dec (- n) else dec n.
(** [format!("{n:0w}")]. *)
Definition dec_pad (w : nat) (n : Z) : string :=
  rep (w - String.length (dec n)) "0" +:+ dec n.
Fixpoint dec_val (acc : Z) (s : string) : Z :=
  match s with "" => acc | String a s => dec_val (10 * acc + (byte_val a - 48)) s end.
(** [s.parse::<uN>()] on a nonempty string of ASCII digits, [max] the type's maximum. *)
Definition parse_uint (max : Z) (s : string) : option Z :=
  let v := dec_val 0 s in if (v <=? max)%Z then Some v else None.

(** ** UTF-8 *)

Definition is_cont (a : ascii) : bool := byte_between 128 191 a.
Definition cont_val (a : ascii) : Z := byte_val a - 128.
(** [s.chars()], [None] when the bytes are not UTF-8 (then they are no Rust string). *)
Fixpoint utf8_chars (s : string) : option (list Z) :=
  match s with
  | "" => Some []
  | String a s1 =>
      if byte_between 0 127 a then cons (byte_val a) <$> utf8_chars s1
      else if byte_between 194 223 a then
        match s1 with
        | String b s2 =>
            if is_cont b
            then cons ((byte_val a - 192) * 64 + cont_val b)%Z <$> utf8_chars s2
            else None
        | _ => None
        end
      else if byte_between 224 239 a then
        match s1 with
        | String b (String c s3) =>
            let v := ((byte_val a - 224) * 4096 + cont_val b * 64 + cont_val c)%Z in
            if is_cont b && is_cont c && (2048 <=? v)%Z &&
               negb ((55296 <=? v)%Z && (v <=? 57343)%Z)
            then cons v <$> utf8_chars s3 else None
        | _ => None
        end
      else if byte_between 240 244 a then
        match s1 with
        | String b (String c (String d s4)) =>
            let v := ((byte_val a - 240) * 262144 + cont_val b * 4096
                      + cont_val c * 64 + cont_val d)%Z in
            if is_cont b && is_cont c && is_cont d && (65536 <=? v)%Z && (v <=? 1114111)%Z
            then cons v <$> utf8_chars s4 else None
        | _ => None
        end
      else None
  end.
Definition chars (s : string) : list Z := default [] (utf8_chars s).
(** The UTF-8 bytes of a code point. *)
Definition encode_utf8 (v : Z) : string :=
  if (v <? 128)%Z then String (byte_of v) ""
  else if (v <? 2048)%Z then
    String (byte_of (192 + v / 64)) (String (byte_of (128 + v mod 64)) "")
  else if (v <? 65536)%Z then
    String (byte_of (224 + v / 4096)) (String (byte_of (128 + v / 64 mod 64))
      (String (byte_of (128 + v mod 64)) ""))
  else
    String (byte_of (240 + v / 262144)) (String (byte_of (128 + v / 4096 mod 64))
      (String (byte_of (128 + v / 64 mod 64)) (String (byte_of (128 + v mod 64)) ""))).

(** [char::is_control] (category Cc) and [char::is_whitespace] (White_Space). *)
Definition is_control (v : Z) : bool :=
  ((0 <=? v)%Z && (v <=? 31)%Z) || ((127 <=? v)%Z && (v <=? 159)%Z).
Definition is_whitespace (v : Z) : bool :=
  ((9 <=? v)%Z && (v <=? 13)%Z) || ((8192 <=? v)%Z && (v <=? 8202)%Z) ||
  memb v [32; 133; 160; 5760; 8232; 8233; 8239; 8287; 12288]%Z.
Fixpoint drop_while {A} (p : A → bool) (l : list A) : list A :=
  match l with [] => [] | x :: l' => if p x then drop_while p l' else l end.
(** [s.trim()]. *)
Definition str_trim (s : string) : string :=
  join "" (encode_utf8 <$>
    reverse (drop_while is_whitespace (reverse (drop_while is_whitespace (chars s))))).
(** [s.trim().is_empty()]. *)
Definition trim_is_empty (s : string) : bool := forallb is_whitespace (chars s).

(** The second byte that may follow the first byte of a three- or four-byte character. *)
Definition second3 (a b : ascii) : bool :=
  (byte_val a =? 224)%Z && byte_between 160 191 b
  || byte_between 225 236 a && is_cont b
  || (byte_val a =? 237)%Z && byte_between 128 159 b
  || byte_between 238 239 a && is_cont b.
Definition second4 (a b : ascii) : bool :=
  (byte_val a =? 240)%Z && byte_between 144 191 b
  || byte_between 241 243 a && is_cont b
  || (byte_val a =? 244)%Z && byte_between 128 143 b.
(** U+FFFD in UTF-8. *)
Definition replacement (s : string) : string :=
  String (byte_of 239) (String (byte_of 191) (String (byte_of 189) s)).
(** [String::from_utf8_lossy]: every longest broken piece becomes one replacement character. *)
Fixpoint from_utf8_lossy (s : string) : string :=
  match s with
  | "" => ""
  | String a s1 =>
      if byte_between 0 127 a then String a (from_utf8_lossy s1)
      else if byte_between 194 223 a then
        match s1 with
        | String b s2 =>
            if is_cont b then String a (String b (from_utf8_lossy s2)) else replacement (from_utf8_lossy s1)
        | "" => replacement ""
        end
      else if byte_between 224 239 a then
        match s1 with
        | String b s2 =>
            if second3 a b then
              match s2 with
              | String c s3 =>
                  if is_cont c then String a (String b (String c (from_utf8_lossy s3)))
                  else replacement (from_utf8_lossy s2)
              | "" => replacement ""
              end
            else replacement (from_utf8_lossy s1)
        | "" => replacement ""
        end
      else if byte_between 240 244 a then
        match s1 with
        | String b s2 =>
            if second4 a b then
              match s2 with
              | String c s3 =>
                  if is_cont c then
                    match s3 with
                    | String d s4 =>
                        if is_cont d then String a (String b (String c (String d (from_utf8_lossy s4))))
                        else replacement (from_utf8_lossy s3)
                    | "" => replacement ""
                    end
                  else replacement (from_utf8_lossy s2)
              | "" => replacement ""
              end
            else replacement (from_utf8_lossy s1)
        | "" => replacement ""
        end
      else replacement (from_utf8_lossy s1)
  end.

(** * Lemmas *)

Ltac str_simpl := repeat change (String ?c ?a +:+ ?b) with (String c (a +:+ b));
  repeat change ("" +:+ ?a) with a.

Lemma str_app_cons c (a b : string) : String c a +:+ b = String c (a +:+ b).
Proof. done. Qed.
Lemma str_app_nil_l (a : string) : "" +:+ a = a.
Proof. done. Qed.
Lemma str_app_assoc (a b c : string) : (a +:+ b) +:+ c = a +:+ (b +:+ c).
Proof. induction a as [|x a IH]; [done|]. by rewrite !str_app_cons, IH. Qed.
Lemma str_app_nil_r (a : string) : a +:+ "" = a.
Proof. induction a as [|x a IH]; [done|]. by rewrite !str_app_cons, IH. Qed.
Lemma str_length_app (a b : string) :
  String.length (a +:+ b) = String.length a + String.length b.
Proof. induction a as [|x a IH]; [done|]. rewrite str_app_cons. simpl. by rewrite IH. Qed.
#[export] Hint Rewrite str_app_assoc str_app_nil_r str_app_cons str_app_nil_l
  str_length_app : layr.
(** Equal-length heads of equal strings are equal. *)
Lemma str_app_inj_len (a b c d : string) :
  a +:+ b = c +:+ d → String.length a = String.length c → a = c ∧ b = d.
Proof.
  revert c. induction a as [|x a IH]; intros [|y c] Heq Hlen; try done.
  rewrite !str_app_cons in Heq. injection Heq as -> Heq. simpl in Hlen.
  destruct (IH c) as [-> ->]; auto.
Qed.

Lemma byte_val_range a : (0 <= byte_val a < 256)%Z.
Proof. unfold byte_val. pose proof (N_ascii_bounded a). lia. Qed.
Lemma byte_val_of z : (0 <= z < 256)%Z → byte_val (byte_of z) = z.
Proof. intros. unfold byte_val, byte_of. rewrite N_ascii_embedding; lia. Qed.
Lemma byte_of_val a : byte_of (byte_val a) = a.
Proof. unfold byte_val, byte_of. by rewrite N2Z.id, ascii_N_embedding. Qed.
#[export] Instance byte_val_inj : Inj (=) (=) byte_val.
Proof. intros a b Hab. by rewrite <-(byte_of_val a), Hab, byte_of_val. Qed.
Lemma byte_between_true lo hi a :
  byte_between lo hi a = true ↔ (lo <= byte_val a <= hi)%Z.
Proof. unfold byte_between. rewrite andb_true_iff, !Z.leb_le. lia. Qed.
Lemma byte_between_false lo hi a :
  byte_between lo hi a = false ↔ ¬ (lo <= byte_val a <= hi)%Z.
Proof. rewrite <-byte_between_true. by destruct (byte_between lo hi a). Qed.

Lemma all_bytes_app p a b : all_bytes p (a +:+ b) = all_bytes p a && all_bytes p b.
Proof.
  induction a as [|x a IH]; [done|]. rewrite str_app_cons. simpl.
  by rewrite IH, andb_assoc.
Qed.
Lemma all_bytes_impl (p q : ascii → bool) s :
  (∀ a, p a = true → q a = true) → all_bytes p s = true → all_bytes q s = true.
Proof. intros Hpq. induction s as [|x a IH]; simpl; intros; inv_ok; [done|].
  rewrite (Hpq x), IH by done. done. Qed.
#[export] Hint Rewrite all_bytes_app : layr.
Lemma has_byte_app c a b : has_byte c (a +:+ b) = has_byte c a || has_byte c b.
Proof. unfold has_byte, any_byte. by rewrite all_bytes_app, negb_andb. Qed.
Lemma has_byte_cons c a s : has_byte c (String a s) = Ascii.eqb c a || has_byte c s.
Proof. unfold has_byte, any_byte. simpl. rewrite negb_andb. by destruct (Ascii.eqb c a). Qed.
(** A byte that a string of allowed bytes may not contain. *)
Lemma all_bytes_no_byte p c s :
  all_bytes p s = true → p c = false → has_byte c s = false.
Proof.
  intros Hs Hc. unfold has_byte, any_byte. apply negb_false_iff.
  eapply all_bytes_impl; [|done]. intros a Ha.
  destruct (Ascii.eqb_spec c a) as [<-|]; [congruence|done].
Qed.

Lemma strip_prefix_some p s r : strip_prefix p s = Some r ↔ s = p +:+ r.
Proof.
  revert s. induction p as [|a p IH]; intros [|b s]; simpl;
    rewrite ?str_app_cons, ?str_app_nil_l; [naive_solver congruence..|].
  destruct (Ascii.eqb_spec a b) as [->|]; [rewrite IH|]; naive_solver congruence.
Qed.
Lemma strip_prefix_app p r : strip_prefix p (p +:+ r) = Some r.
Proof. by apply strip_prefix_some. Qed.
Lemma starts_with_true p s : starts_with p s = true ↔ ∃ r, s = p +:+ r.
Proof.
  unfold starts_with. setoid_rewrite <-strip_prefix_some.
  destruct (strip_prefix p s); naive_solver.
Qed.
Lemma strip_suffix_some p s r : strip_suffix p s = Some r ↔ s = r +:+ p.
Proof.
  revert r. induction s as [|b s IH]; intros r; simpl;
    (destruct (p == _) eqn:Hp; [apply eqb_eq in Hp|apply eqb_ne in Hp]).
  - subst. split; [by intros [= <-]|]. destruct r; [done|by rewrite str_app_cons].
  - split; [done|]. destruct r; [by rewrite str_app_nil_l|by rewrite str_app_cons].
  - subst. split; [by intros [= <-]|]. destruct r as [|c r]; [done|].
    intros Hlen%(f_equal String.length). rewrite str_length_app in Hlen. simpl in Hlen. lia.
  - rewrite fmap_Some. setoid_rewrite IH. split.
    + intros (r' & -> & ->). by rewrite str_app_cons.
    + destruct r as [|c r]; [by rewrite str_app_nil_l|]. rewrite str_app_cons.
      intros [= -> ->]. eauto.
Qed.
Lemma strip_suffix_app p r : strip_suffix p (r +:+ p) = Some r.
Proof. by apply strip_suffix_some. Qed.
Lemma ends_with_true p s : ends_with p s = true ↔ ∃ r, s = r +:+ p.
Proof.
  unfold ends_with. setoid_rewrite <-strip_suffix_some.
  destruct (strip_suffix p s); naive_solver.
Qed.
Lemma contains_str_true sub s :
  contains_str sub s = true ↔ ∃ a b, s = a +:+ sub +:+ b.
Proof.
  induction s as [|x s IH]; simpl; rewrite orb_true_iff, starts_with_true.
  - split; [intros [[r ?]|?]; [by exists "", r|done]|]. intros (a & b & H).
    left. exists b. destruct a; [done|by rewrite str_app_cons in H].
  - rewrite IH. split.
    + intros [[r ?]|(a & b & ->)]; [by exists "", r|]. by exists (String x a), b.
    + intros ([|y a] & b & H); [left; eauto|]. rewrite str_app_cons in H.
      injection H as -> ->. eauto.
Qed.

Lemma split_once_some c s a b :
  split_once c s = Some (a, b) ↔ s = a +:+ String c b ∧ has_byte c a = false.
Proof.
  revert a b. induction s as [|x s IH]; intros a b; simpl.
  { split; [done|intros [H _]]. destruct a; [done|by rewrite str_app_cons in H]. }
  destruct (Ascii.eqb_spec x c) as [->|Hne].
  - split; [by intros [= <- <-]|]. intros [H Ha].
    destruct a as [|y a]; [rewrite str_app_nil_l in H; naive_solver|].
    rewrite str_app_cons in H. injection H as <- _.
    rewrite has_byte_cons, Ascii.eqb_refl in Ha. done.
  - rewrite fmap_Some. split.
    + intros ([a' b'] & [-> ?]%IH & [= -> ->]). rewrite str_app_cons, has_byte_cons.
      split; [done|]. rewrite orb_false_iff. split; [by apply Ascii.eqb_neq|done].
    + intros [H Ha]. destruct a as [|y a].
      { rewrite str_app_nil_l in H. naive_solver. }
      rewrite str_app_cons in H. injection H as <- ->.
      rewrite has_byte_cons, orb_false_iff in Ha. exists (a, b).
      split; [|done]. apply IH. tauto.
Qed.
Lemma split_once_app c a b :
  has_byte c a = false → split_once c (a +:+ String c b) = Some (a, b).
Proof. intros. by apply split_once_some. Qed.
Lemma split_once_sep c a b :
  has_byte c a = false → split_once c (a +:+ String c "" +:+ b) = Some (a, b).
Proof. rewrite str_app_cons, str_app_nil_l. apply split_once_app. Qed.
Lemma rsplit_once_none c s : rsplit_once c s = None ↔ has_byte c s = false.
Proof.
  induction s as [|x s IH]; simpl; [done|]. rewrite has_byte_cons, orb_false_iff, <-IH.
  destruct (rsplit_once c s) as [[]|]; [naive_solver|].
  destruct (Ascii.eqb_spec x c) as [->|]; [rewrite Ascii.eqb_refl; naive_solver|].
  rewrite Ascii.eqb_neq. naive_solver.
Qed.
Lemma rsplit_once_some c s a b :
  rsplit_once c s = Some (a, b) ↔ s = a +:+ String c b ∧ has_byte c b = false.
Proof.
  revert a b. induction s as [|x s IH]; intros a b; simpl.
  { split; [done|intros [H _]]. destruct a; [done|by rewrite str_app_cons in H]. }
  destruct (rsplit_once c s) as [[a' b']|] eqn:E.
  - destruct (proj1 (IH a' b') eq_refl) as [Hs Hb]. split.
    + intros [= <- <-]. by rewrite Hs.
    + intros [H Hb']. destruct a as [|y a].
      * rewrite str_app_nil_l in H. injection H as -> ->.
        apply rsplit_once_none in Hb'. congruence.
      * rewrite str_app_cons in H. injection H as -> H.
        assert (Some (a', b') = Some (a, b)) as [= -> ->]; [|done].
        by apply IH.
  - apply rsplit_once_none in E. destruct (Ascii.eqb_spec x c) as [->|Hne].
    + split; [by intros [= <- <-]|]. intros [H Hb]. destruct a as [|y a].
      * rewrite str_app_nil_l in H. naive_solver.
      * rewrite str_app_cons in H. injection H as -> ->.
        rewrite has_byte_app, has_byte_cons, Ascii.eqb_refl, orb_true_r in E. done.
    + split; [done|]. intros [H Hb]. destruct a as [|y a].
      * rewrite str_app_nil_l in H. naive_solver.
      * rewrite str_app_cons in H. injection H as -> ->.
        rewrite has_byte_app, has_byte_cons, Ascii.eqb_refl, orb_true_r in E. done.
Qed.

Lemma split_cons c s : split c s = (split_go c s).1 :: (split_go c s).2.
Proof. unfold split. by destruct (split_go c s). Qed.
(** Joining the pieces of a split gives the string back. *)
Lemma join_split c s : join (String c "") (split c s) = s.
Proof.
  rewrite split_cons. induction s as [|x s IH]; simpl; [done|].
  destruct (split_go c s) as [h t]; simpl in *.
  destruct (Ascii.eqb_spec x c) as [->|]; simpl; [by rewrite IH|].
  rewrite <-IH. by destruct t.
Qed.
(** No piece of a split contains the separator. *)
Lemma split_no_sep c s : Forall (λ p, has_byte c p = false) (split c s).
Proof.
  rewrite split_cons. induction s as [|x s IH]; simpl; [by repeat constructor|].
  destruct (split_go c s) as [h t]; simpl in *.
  destruct (Ascii.eqb_spec x c) as [->|Hne]; simpl; [by constructor|].
  apply Forall_cons in IH as [? ?]. constructor; [|done].
  rewrite has_byte_cons, orb_false_iff. split; [|done].
  by apply Ascii.eqb_neq.
Qed.

(** ** Decimal numbers *)

Lemma digit_val d : (0 <= d < 10)%Z → byte_val (digit d) = (48 + d)%Z.
Proof. intros. unfold digit. apply byte_val_of. lia. Qed.
Lemma dec_val_app a s t : dec_val a (s +:+ t) = dec_val (dec_val a s) t.
Proof. revert a. induction s as [|x s IH]; intros a; [done|]. rewrite str_app_cons. apply IH. Qed.
Lemma dec_val_digits fuel n acc :
  (0 <= n < 2 ^ (Z.of_nat fuel + 1))%Z → dec_val 0 (digits fuel n acc) = dec_val n acc.
Proof.
  revert n acc. induction fuel as [|fuel IH]; intros n acc Hn.
  - change (2 ^ (Z.of_nat 0 + 1))%Z with 2%Z in Hn. simpl.
    rewrite Z.mod_small, digit_val by lia. f_equal. lia.
  - simpl. destruct (Z.ltb_spec n 10).
    + simpl. rewrite Z.mod_small, digit_val by lia. f_equal. lia.
    + rewrite IH; simpl.
      * rewrite digit_val by (apply Z.mod_pos_bound; lia). f_equal.
        pose proof (Z.div_mod n 10). lia.
      * split; [apply Z.div_pos; lia|].
        replace (Z.of_nat (S fuel) + 1)%Z with (Z.of_nat fuel + 1 + 1)%Z in Hn by lia.
        rewrite (Z.pow_add_r 2 (Z.of_nat fuel + 1) 1) in Hn by lia.
        apply Z.div_lt_upper_bound; lia.
Qed.
Lemma dec_val_dec n : (0 <= n)%Z → dec_val 0 (dec n) = n.
Proof.
  intros. unfold dec. rewrite dec_val_digits; [done|]. split; [done|].
  rewrite Z2Nat.id by apply Z.log2_nonneg.
  destruct (Z.eq_dec n 0) as [->|]; [done|].
  pose proof (Z.log2_spec n). lia.
Qed.
Lemma dec_inj n m : (0 <= n)%Z → (0 <= m)%Z → dec n = dec m → n = m.
Proof. intros ?? H. by rewrite <-(dec_val_dec n), H, dec_val_dec. Qed.
Lemma digit_is_digit d : (0 <= d < 10)%Z → is_ascii_digit (digit d) = true.
Proof. intros. unfold is_ascii_digit. rewrite byte_between_true, digit_val; lia. Qed.
Lemma digits_all_digit fuel n acc :
  all_bytes is_ascii_digit acc = true → all_bytes is_ascii_digit (digits fuel n acc) = true.
Proof.
  revert n acc. induction fuel as [|fuel IH]; intros n acc Hacc; simpl.
  all: assert (is_ascii_digit (digit (n mod 10)) = true) as Hd
    by (apply digit_is_digit, Z.mod_pos_bound; lia).
  - by rewrite Hd, Hacc.
  - destruct (n <? 10)%Z; [simpl; by rewrite Hd, Hacc|]. apply IH. simpl. by rewrite Hd.
Qed.
Lemma dec_all_digit n : all_bytes is_ascii_digit (dec n) = true.
Proof. by apply digits_all_digit. Qed.
Lemma digits_length fuel n acc k :
  (0 <= n < 10 ^ Z.of_nat (S k))%Z →
  String.length (digits fuel n acc) ≤ S k + String.length acc.
Proof.
  revert n acc k. induction fuel as [|fuel IH]; intros n acc k Hn; simpl; [lia|].
  destruct (Z.ltb_spec n 10); simpl; [lia|].
  destruct k as [|k]; [change (10 ^ Z.of_nat 1)%Z with 10%Z in Hn; lia|].
  etrans; [apply (IH _ _ k)|simpl; lia]. split; [apply Z.div_pos; lia|].
  rewrite (Nat2Z.inj_succ (S k)), Z.pow_succ_r in Hn by lia.
  apply Z.div_lt_upper_bound; lia.
Qed.
Lemma dec_length n k : (0 <= n < 10 ^ Z.of_nat (S k))%Z → String.length (dec n) ≤ S k.
Proof. intros. unfold dec. etrans; [by apply (digits_length _ _ _ k)|simpl; lia]. Qed.
Lemma rep_length n a : String.length (rep n a) = n.
Proof. induction n; simpl; auto. Qed.
Lemma rep_all_bytes p n a : p a = true → all_bytes p (rep n a) = true.
Proof. intros Ha. induction n; simpl; [done|]. by rewrite Ha. Qed.
Lemma dec_val_rep0 n : dec_val 0 (rep n "0") = 0%Z.
Proof. induction n as [|n IH]; [done|]. exact IH. Qed.
Lemma dec_pad_length n k :
  (0 <= n < 10 ^ Z.of_nat (S k))%Z → String.length (dec_pad (S k) n) = S k.
Proof.
  intros Hn. unfold dec_pad. rewrite str_length_app, rep_length.
  pose proof (dec_length n k Hn). lia.
Qed.
Lemma dec_pad_all_digit w n : all_bytes is_ascii_digit (dec_pad w n) = true.
Proof. unfold dec_pad. rewrite all_bytes_app, dec_all_digit, rep_all_bytes; done. Qed.
(** Parsing a printed number gives it back when it fits the type. *)
Lemma parse_uint_dec_pad max w n :
  (0 <= n <= max)%Z → parse_uint max (dec_pad w n) = Some n.
Proof.
  intros Hn. unfold parse_uint, dec_pad.
  rewrite dec_val_app, dec_val_rep0, dec_val_dec by lia.
  destruct (Z.leb_spec n max); [done|lia].
Qed.
(** Digit texts of one length are told apart by their values. *)
Lemma dec_val_inj a a' s t :
  String.length s = String.length t →
  all_bytes is_ascii_digit s = true → all_bytes is_ascii_digit t = true →
  dec_val a s = dec_val a' t → a = a' ∧ s = t.
Proof.
  revert a a' t. induction s as [|c s IH]; intros a a' [|c' t] Hl Hs Ht; try done.
  simpl in *. apply andb_true_iff in Hs as [Hc Hs], Ht as [Hc' Ht].
  apply byte_between_true in Hc, Hc'. intros Hv.
  apply IH in Hv as [Hv ->]; [|lia|done|done].
  assert (byte_val c = byte_val c') as Hcc by lia. split; [lia|].
  f_equal. by rewrite <-(byte_of_val c), Hcc, byte_of_val.
Qed.
Lemma dec_val_bound a s :
  all_bytes is_ascii_digit s = true → (0 <= a)%Z →
  (0 <= dec_val a s < (a + 1) * 10 ^ Z.of_nat (String.length s))%Z.
Proof.
  revert a. induction s as [|c s IH]; intros a Hs Ha; [simpl; lia|].
  simpl in Hs. apply andb_true_iff in Hs as [Hc Hs]. apply byte_between_true in Hc.
  cbn [dec_val String.length]. rewrite Nat2Z.inj_succ, Z.pow_succ_r by lia.
  pose proof (IH (10 * a + (byte_val c - 48))%Z Hs ltac:(lia)). nia.
Qed.
(** A text of [w] digits is the padded print of the number it parses to. *)
Lemma dec_pad_parse max w s n :
  String.length s = S w → all_bytes is_ascii_digit s = true →
  parse_uint max s = Some n → s = dec_pad (S w) n ∧ (0 <= n <= max)%Z ∧ (n < 10 ^ Z.of_nat (S w))%Z.
Proof.
  intros Hl Hs. unfold parse_uint. destruct (Z.leb_spec (dec_val 0 s) max); [|done].
  intros [= <-]. pose proof (dec_val_bound 0 s Hs ltac:(lia)) as Hb. rewrite Hl in Hb.
  split; [|lia]. apply (dec_val_inj 0 0).
  - rewrite dec_pad_length; lia.
  - done.
  - apply dec_pad_all_digit.
  - unfold dec_pad. rewrite dec_val_app, dec_val_rep0, dec_val_dec; lia.
Qed.
Lemma str_len_nat s n : (str_len s =? Z.of_nat n)%Z = true ↔ String.length s = n.
Proof. unfold str_len. rewrite Z.eqb_eq. lia. Qed.
Lemma contains_app_l sub a b : contains_str sub b = true → contains_str sub (a +:+ b) = true.
Proof.
  rewrite !contains_str_true. intros (p & q & ->). exists (a +:+ p), q. by rewrite str_app_assoc.
Qed.
(** Every piece of a split occurs in the string. *)
Lemma split_contains c s p : p ∈ split c s → contains_str p s = true.
Proof.
  rewrite contains_str_true. intros (i & Hi)%list_elem_of_lookup.
  rewrite <-(join_split c s). generalize dependent i. generalize (split c s). intros l i Hi.
  revert i Hi. induction l as [|x l IH]; intros i Hi; [done|]. destruct i as [|i]; simpl in Hi.
  - simplify_eq. exists "". destruct l; simpl; [exists ""; by rewrite str_app_nil_r|]. by eexists.
  - destruct (IH i Hi) as (a & b & E). destruct l as [|y l]; [done|].
    cbn [join]. cbn [join] in E. rewrite E. exists (x +:+ String c a), b.
    by rewrite !str_app_assoc, str_app_cons.
Qed.

(** ** Searching for a text *)

Lemma before_bytes p s : all_bytes (λ a, negb (p a)) (before p s) = true.
Proof. induction s as [|a s IH]; simpl; [done|]. destruct (p a) eqn:E; simpl; [done|]. by rewrite E. Qed.
Lemma before_id p s : all_bytes (λ a, negb (p a)) s = true → before p s = s.
Proof.
  induction s as [|a s IH]; simpl; [done|]. intros [Ha Hs]%andb_true_iff.
  apply negb_true_iff in Ha. by rewrite Ha, IH.
Qed.
Lemma strip_prefix_none_app sub p q q' :
  String.length sub ≤ String.length p →
  strip_prefix sub (p +:+ q) = None → strip_prefix sub (p +:+ q') = None.
Proof.
  revert p. induction sub as [|x sub IH]; intros p Hl; [done|]. destruct p as [|y p]; simpl in *; [lia|].
  destruct (Ascii.eqb _ _); [|done]. apply IH. lia.
Qed.
Lemma split_once_str_eq sub s :
  split_once_str sub s =
  match strip_prefix sub s with
  | Some r => Some ("", r)
  | None => match s with
            | "" => None
            | String a s => '(p, r) ← split_once_str sub s; Some (String a p, r)
            end
  end.
Proof. by destruct s. Qed.
Lemma split_once_str_some sub s a b :
  split_once_str sub s = Some (a, b) →
  s = a +:+ sub +:+ b ∧ ∀ b', split_once_str sub (a +:+ sub +:+ b') = Some (a, b').
Proof.
  revert a b. induction s as [|x s IH]; intros a b; rewrite split_once_str_eq.
  - destruct (strip_prefix sub "") as [r|] eqn:E; [|done]. intros [= <- <-].
    apply strip_prefix_some in E. split; [done|]. intros b'.
    rewrite split_once_str_eq, str_app_nil_l, strip_prefix_app. done.
  - destruct (strip_prefix sub (String x s)) as [r|] eqn:E.
    { intros [= <- <-]. apply strip_prefix_some in E. split; [done|]. intros b'.
      rewrite split_once_str_eq, str_app_nil_l, strip_prefix_app. done. }
    intros ([p r] & Hp & [= <- <-])%bind_Some. destruct (IH _ _ Hp) as [-> Hb].
    rewrite !str_app_cons. split; [done|]. intros b'. rewrite str_app_cons, split_once_str_eq.
    replace (strip_prefix sub (String x (p +:+ sub +:+ b'))) with (@None string).
    { by rewrite Hb. }
    symmetry. rewrite <-str_app_cons, <-str_app_assoc.
    apply (strip_prefix_none_app _ _ r); [rewrite str_app_cons; simpl; rewrite str_length_app; lia|].
    by rewrite str_app_assoc, str_app_cons.
Qed.
Lemma split_once_str_none sub s : split_once_str sub s = None ↔ contains_str sub s = false.
Proof.
  induction s as [|x s IH]; rewrite split_once_str_eq; simpl; unfold starts_with.
  - destruct (strip_prefix sub ""); [done|]. done.
  - destruct (strip_prefix sub (String x s)); [done|]. simpl. rewrite <-IH.
    destruct (split_once_str sub s) as [[]|]; done.
Qed.
Lemma contains_suffix sub a b : contains_str sub (a +:+ b) = false → contains_str sub b = false.
Proof.
  destruct (contains_str sub b) eqn:E; [|done]. by rewrite contains_app_l.
Qed.
