(* ===== verification/Json.v ===== *)
(** JSON values as [serde_json::Value] has them, and the behaviour of derived
    [Serialize]/[Deserialize] implementations that the record types rely on.

    [serde_json] is built without [preserve_order]: an object is a [BTreeMap], here its
    entries in key order. A number is an integer in the range of [i64] or [u64], or a float;
    a float is kept as a token, up to [==]; the file [F64] gives tokens their meaning. *)

From S2P Require Import Prelude Strs.

Inductive json : Type :=
| JNull
| JBool (b : bool)
| JInt (z : Z)
| JFloat (f : Z)
| JString (s : string)
| JArray (l : list json)
| JObject (m : list (string * json)).

Section json_ind.
Variable P : json → Prop.
Hypothesis HNull : P JNull.
Hypothesis HBool : ∀ b, P (JBool b).
Hypothesis HInt : ∀ z, P (JInt z).
Hypothesis HFloat : ∀ f, P (JFloat f).
Hypothesis HString : ∀ s, P (JString s).
Hypothesis HArray : ∀ l, Forall P l → P (JArray l).
Hypothesis HObject : ∀ m, Forall (λ kv, P kv.2) m → P (JObject m).

Fixpoint json_ind' (j : json) : P j :=
  match j with
  | JNull => HNull
  | JBool b => HBool b
  | JInt z => HInt z
  | JFloat f => HFloat f
  | JString s => HString s
  | JArray l =>
      HArray l ((fix go l : Forall P l :=
        match l with
        | [] => List.Forall_nil P
        | x :: l => @List.Forall_cons _ P x _ (json_ind' x) (go l)
        end) l)
  | JObject m =>
      HObject m ((fix go m : Forall (λ kv, P kv.2) m :=
        match m with
        | [] => List.Forall_nil (λ kv : string * json, P kv.2)
        | kv :: m => @List.Forall_cons _ (λ kv : string * json, P kv.2) kv _ (json_ind' kv.2) (go m)
        end) m)
  end.
End json_ind.

Fixpoint json_eqb (a b : json) : bool :=
  match a, b with
  | JNull, JNull => true
  | JBool x, JBool y => Bool.eqb x y
  | JInt x, JInt y => (x =? y)%Z
  | JFloat x, JFloat y => (x =? y)%Z
  | JString x, JString y => String.eqb x y
  | JArray x, JArray y =>
      (fix go x y := match x, y with
        | [], [] => true
        | a :: x, b :: y => json_eqb a b && go x y
        | _, _ => false
        end) x y
  | JObject x, JObject y =>
      (fix go x y := match x, y with
        | [], [] => true
        | (k, a) :: x, (k', b) :: y => String.eqb k k' && json_eqb a b && go x y
        | _, _ => false
        end) x y
  | _, _ => false
  end.

Lemma json_eqb_spec a b : json_eqb a b = true ↔ a = b.
Proof.
  revert b. induction a as [| | | | |l IH|m IH] using json_ind'; intros []; simpl;
    try (split; congruence).
  - rewrite Bool.eqb_true_iff. naive_solver.
  - rewrite Z.eqb_eq. naive_solver.
  - rewrite Z.eqb_eq. naive_solver.
  - rewrite String.eqb_eq. naive_solver.
  - transitivity (l = l0); [|naive_solver]. revert l0.
    induction IH as [|x l Hx Hl IHl]; intros [|y k]; try (split; congruence).
    rewrite andb_true_iff, Hx, IHl. naive_solver.
  - transitivity (m = m0); [|naive_solver]. revert m0.
    induction IH as [|[k x] m Hx Hm IHm]; intros [|[k' y] m']; try (split; congruence).
    simpl in Hx. rewrite !andb_true_iff, String.eqb_eq, Hx, IHm. naive_solver.
Qed.

#[export] Instance json_eq_dec : EqDecision json.
Proof.
  intros a b. refine (cast_if (decide (json_eqb a b = true))); by rewrite <-json_eqb_spec.
Defined.

(** ** Accessors of [Value] *)

Definition jobj := list (string * json).

(** [map.get(k)]. *)
Fixpoint jlookup {A} (k : string) (m : list (string * A)) : option A :=
  match m with
  | [] => None
  | (k', v) :: m => if String.eqb k k' then Some v else jlookup k m
  end.
(** [v.get(k)] with a string key. *)
Definition get (v : json) (k : string) : option json :=
  match v with JObject m => jlookup k m | _ => None end.
(** [v[k]]: null when there is no such member. *)
Definition at_key (v : json) (k : string) : json := default JNull (get v k).
Notation "v .[ k ]" := (at_key v k) (at level 1, left associativity, format "v .[ k ]")
  : stdpp_scope.

Definition as_str (v : json) : option string := match v with JString s => Some s | _ => None end.
Definition as_bool (v : json) : option bool := match v with JBool b => Some b | _ => None end.
Definition as_array (v : json) : option (list json) :=
  match v with JArray l => Some l | _ => None end.
Definition as_object (v : json) : option jobj := match v with JObject m => Some m | _ => None end.
Definition as_i64 (v : json) : option Z :=
  match v with JInt z => if in_i64 z then Some z else None | _ => None end.
Definition as_u64 (v : json) : option Z :=
  match v with JInt z => if in_u64 z then Some z else None | _ => None end.
Definition is_null (v : json) : bool := v == JNull.
Definition is_string (v : json) : bool := is_some (as_str v).
Definition is_object (v : json) : bool := is_some (as_object v).
(** [v == "text"] and [v == true]: comparison of a [Value] with a primitive. *)
Definition is_str (v : json) (s : string) : bool := as_str v == Some s.
Definition is_bool (v : json) (b : bool) : bool := as_bool v == Some b.

(** [map.insert(k, v)] on a [BTreeMap]. *)
Fixpoint jinsert (k : string) (v : json) (m : jobj) : jobj :=
  match m with
  | [] => [(k, v)]
  | (k', v') :: m' =>
      match cmp k k' with
      | Lt => (k, v) :: m
      | Eq => (k, v) :: m'
      | Gt => (k', v') :: jinsert k v m'
      end
  end.
(** [v[k] = x]: null becomes an object. (On any other value the source panics; the modelled
    code assigns members of objects only.) *)
Definition set_key (v : json) (k : string) (x : json) : json :=
  match v with
  | JObject m => JObject (jinsert k x m)
  | JNull => JObject [(k, x)]
  | _ => v
  end.

(** ** Derived [Deserialize] *)

(** Reading into a [Value]: objects are sorted maps and the last duplicate wins. *)
Fixpoint value_of (j : json) : json :=
  match j with
  | JArray l => JArray (value_of <$> l)
  | JObject m =>
      JObject (foldl (λ acc kv, jinsert kv.1 (value_of kv.2) acc) [] m)
  | _ => j
  end.

(** A JSON tree that is a [Value]. *)
Definition is_value (j : json) : bool := value_of j == j.

Definition de_value (j : json) : result json := Ok (value_of j).
Definition de_string (j : json) : result string :=
  match j with JString s => Ok s | _ => Err "invalid type, expected a string" end.
Definition de_bool (j : json) : result bool :=
  match j with JBool b => Ok b | _ => Err "invalid type, expected a boolean" end.
Definition de_int (inr : Z → bool) (j : json) : result Z :=
  match j with
  | JInt z => if inr z then Ok z else Err "invalid value, integer out of range"
  | _ => Err "invalid type, expected an integer"
  end.
Definition de_u32 := de_int in_u32.
Definition de_u64 := de_int in_u64.
Definition de_i64 := de_int in_i64.
Definition de_option {A} (d : json → result A) (j : json) : result (option A) :=
  match j with JNull => Ok None | _ => Some <$> d j end.
Definition de_vec {A} (d : json → result A) (j : json) : result (list A) :=
  match j with JArray l => collect d l | _ => Err "invalid type, expected a sequence" end.
(** The last of two members with one name wins. *)
Definition de_map {A} (d : json → result A) (j : json) : result (gmap string A) :=
  match j with
  | JObject m => (λ l, list_to_map (reverse l)) <$> collect (λ kv, pair kv.1 <$> d kv.2) m
  | _ => Err "invalid type, expected a map"
  end.

(** A struct is read from an object by name, or from an array by position. [names] are its
    fields in order; [alias] maps the accepted alternative names to them; [deny] is
    [deny_unknown_fields]. A field must not occur twice; other members may. *)
Record fields := Fields { f_seq : bool; f_map : jobj }.

Definition de_struct (names : list string) (alias : list (string * string)) (deny : bool)
    (j : json) : result fields :=
  match j with
  | JObject m =>
      let m' := (λ kv : string * json, (default kv.1 (jlookup kv.1 alias), kv.2)) <$> m in
      ensure (bool_decide (NoDup (filterb (λ k, memb k names) m'.*1))) "duplicate field";;
      bail_if (deny && existsb (λ kv, negb (memb kv.1 names)) m') "unknown field";;
      Ok (Fields false m')
  | JArray l =>
      ensure (length l <=? length names)%nat "invalid length";;
      Ok (Fields true (zip names l))
  | _ => Err "invalid type, expected a struct"
  end.
(** A required field. *)
Definition f_req {A} (d : json → result A) (f : fields) (k : string) : result A :=
  match jlookup k (f_map f) with Some j => d j | None => Err "missing field" end.
(** An [Option] field without [#[serde(default)]]: absent in an object means [None]. *)
Definition f_opt {A} (d : json → result A) (f : fields) (k : string) : result (option A) :=
  match jlookup k (f_map f) with
  | Some j => de_option d j
  | None => if f_seq f then Err "invalid length" else Ok None
  end.
(** A field with [#[serde(default)]]. *)
Definition f_def {A} (d : json → result A) (a : A) (f : fields) (k : string) : result A :=
  match jlookup k (f_map f) with Some j => d j | None => Ok a end.

(** ** Derived [Serialize], through [serde_json::to_value]

    [None] is a field that [skip_serializing_if] leaves out. *)

Definition ser_struct (l : list (string * option json)) : json :=
  JObject (sort_by (λ a b, cle a.1 b.1) (omap (λ kv, pair kv.1 <$> kv.2) l)).
Definition ser_map {A} (e : A → json) (m : gmap string A) : json :=
  JObject (prod_map id e <$> entries m).
(** [BTreeMap::is_empty]. *)
Definition map_is_empty {A} (m : gmap string A) : bool := bool_decide (m = ∅).
Definition ser_option {A} (e : A → json) (o : option A) : json :=
  match o with Some a => e a | None => JNull end.

(** * Lemmas *)

Lemma jlookup_elem {A} k v (m : list (string * A)) : jlookup k m = Some v → (k, v) ∈ m.
Proof.
  induction m as [|[k' v'] m IH]; simpl; [done|].
  destruct (String.eqb_spec k k') as [->|]; [intros [= ->]; left|right; auto].
Qed.
Lemma jlookup_none {A} k (m : list (string * A)) : jlookup k m = None ↔ k ∉ m.*1.
Proof.
  induction m as [|[k' v'] m IH]; csimpl; [set_solver|].
  destruct (String.eqb_spec k k') as [->|]; [set_solver|].
  rewrite IH. set_solver.
Qed.
Lemma jlookup_some {A} k v (m : list (string * A)) :
  NoDup m.*1 → jlookup k m = Some v ↔ (k, v) ∈ m.
Proof.
  intros Hnd. split; [apply jlookup_elem|].
  induction m as [|[k' v'] m IH]; csimpl; [set_solver|].
  apply NoDup_cons in Hnd as [Hk' Hnd]. rewrite elem_of_cons. intros [[= <- <-]|Hin].
  - by rewrite String.eqb_refl.
  - destruct (String.eqb_spec k k') as [->|]; [|auto].
    exfalso. apply Hk', list_elem_of_fmap. by exists (k', v).
Qed.
Lemma jlookup_perm {A} k (m m' : list (string * A)) :
  NoDup m.*1 → m ≡ₚ m' → jlookup k m = jlookup k m'.
Proof.
  intros Hnd Hp. apply option_eq. intros v.
  rewrite !jlookup_some by (by rewrite <-?Hp). by rewrite Hp.
Qed.

Lemma jlookup_present {A} k (l : list (string * option A)) :
  NoDup l.*1 →
  jlookup k (omap (λ kv, pair kv.1 <$> kv.2) l) = mjoin (jlookup k l).
Proof.
  induction l as [|[k' [v|]] l IH]; csimpl; intros Hnd; [done|..];
    apply NoDup_cons in Hnd as [Hk' Hnd]; rewrite ?IH by done.
  - by destruct (String.eqb_spec k k').
  - destruct (String.eqb_spec k k') as [->|]; [|done].
    apply jlookup_none in Hk'. by rewrite Hk'.
Qed.
Lemma present_keys {A} (l : list (string * option A)) :
  sublist (omap (λ kv, pair kv.1 <$> kv.2) l).*1 l.*1.
Proof. induction l as [|[k [v|]] l IH]; csimpl; by constructor. Qed.

(** What a struct writes, it reads back field by field. *)
Lemma de_struct_ser names alias deny (l : list (string * option json)) :
  NoDup l.*1 →
  forallb (λ k, memb k names && is_none (jlookup k alias)) l.*1 = true →
  ∃ m, de_struct names alias deny (ser_struct l) = Ok (Fields false m) ∧
       ∀ k, jlookup k m = mjoin (jlookup k l).
Proof.
  intros Hnd Hok. rewrite forallb_elem in Hok.
  set (m := sort_by (λ a b, cle a.1 b.1) (omap (λ kv, pair kv.1 <$> kv.2) l)).
  assert (m ≡ₚ omap (λ kv, pair kv.1 <$> kv.2) l) as Hp by apply sort_by_perm.
  assert (NoDup m.*1) as Hndm.
  { rewrite Hp. eapply sublist_NoDup; [done|apply present_keys]. }
  assert (∀ kv, kv ∈ m → memb kv.1 names = true ∧ jlookup kv.1 alias = None) as Hin.
  { intros kv Hkv. assert (kv.1 ∈ l.*1) as [? Hal]%Hok%andb_true_iff.
    { eapply elem_of_sublist; [|apply present_keys]. apply list_elem_of_fmap.
      exists kv. by rewrite <-Hp. }
    by destruct (jlookup kv.1 alias). }
  assert ((λ kv : string * json, (default kv.1 (jlookup kv.1 alias), kv.2)) <$> m = m) as Hm.
  { clear -Hin. induction m as [|[k v] m IH]; csimpl; [done|].
    destruct (Hin (k, v)) as [_ Hk]; [left|]. simpl in Hk. rewrite Hk. simpl.
    rewrite IH; [done|]. intros. apply Hin. by right. }
  exists m. split.
  - unfold de_struct, ser_struct. fold m. rewrite Hm.
    rewrite bool_decide_eq_true_2 by (by apply NoDup_filterb). simpl.
    replace (existsb _ m) with false; [by rewrite andb_false_r|].
    symmetry. apply existsb_elem_false. intros kv Hkv.
    by rewrite (proj1 (Hin _ Hkv)).
  - intros k. unfold m. rewrite (jlookup_perm _ _ _ Hndm Hp).
    by apply jlookup_present.
Qed.

Lemma alias_nil (m : jobj) :
  (λ kv : string * json, (default kv.1 (jlookup kv.1 []), kv.2)) <$> m = m.
Proof. induction m as [|[k v] m IH]; csimpl; [done|]. f_equal. exact IH. Qed.
Lemma de_struct_object names deny (m : jobj) f :
  de_struct names [] deny (JObject m) = Ok f → f = Fields false m.
Proof. unfold de_struct. rewrite alias_nil. intros H. by inv_ok. Qed.
(** A struct reads members in any order, each under its own name. *)
Lemma de_struct_fields names deny (m : jobj) :
  NoDup m.*1 → forallb (λ k, memb k names) m.*1 = true →
  de_struct names [] deny (JObject m) = Ok (Fields false m).
Proof.
  intros Hnd Hok. unfold de_struct.
  rewrite alias_nil, bool_decide_eq_true_2 by (by apply NoDup_filterb). simpl.
  replace (existsb _ m) with false; [by rewrite andb_false_r|].
  symmetry. apply existsb_elem_false. intros kv Hkv. rewrite forallb_elem in Hok.
  rewrite Hok; [done|]. by apply list_elem_of_fmap_2.
Qed.

Lemma collect_map_ser {A} (e : A → json) (d : json → result A) (l : list A) :
  (∀ a, a ∈ l → d (e a) = Ok a) → collect d (e <$> l) = Ok l.
Proof.
  intros Hl. apply collect_ok. induction l as [|a l IH]; csimpl; constructor.
  - apply Hl. left.
  - apply IH. intros. apply Hl. by right.
Qed.
Lemma de_map_ser {A} (e : A → json) (d : json → result A) (m : gmap string A) :
  (∀ k a, m !! k = Some a → d (e a) = Ok a) → de_map d (ser_map e m) = Ok m.
Proof.
  intros Hm. unfold de_map, ser_map.
  assert (collect (λ kv : string * json, pair kv.1 <$> d kv.2) (prod_map id e <$> entries m)
          = Ok (entries m)) as ->.
  { apply collect_ok.
    assert (∀ k a, (k, a) ∈ entries m → d (e a) = Ok a) as Hall.
    { intros k a ?%elem_of_entries. eauto. }
    clear Hm. induction (entries m) as [|[k a] l IH]; csimpl; constructor; csimpl.
    - by rewrite (Hall k a) by left.
    - apply IH. intros. eapply Hall. by right. }
  simpl. f_equal. transitivity (list_to_map (entries m) : gmap string A); [|apply list_to_map_entries].
  apply list_to_map_proper; [|by rewrite reverse_Permutation].
  rewrite reverse_Permutation. apply NoDup_keys.
Qed.
Lemma de_option_ser {A} (e : A → json) (d : json → result A) (o : option A) :
  (∀ a, o = Some a → d (e a) = Ok a ∧ e a ≠ JNull) →
  de_option d (ser_option e o) = Ok o.
Proof.
  destruct o as [a|]; simpl; [|done]. intros Ha. destruct (Ha a eq_refl) as [Hd He].
  unfold de_option. rewrite Hd. by destruct (e a).
Qed.

Lemma jlookup_jinsert k v m k' :
  jlookup k' (jinsert k v m) = if String.eqb k' k then Some v else jlookup k' m.
Proof.
  induction m as [|[k0 v0] m IH]; simpl; [done|].
  destruct (cmp k k0) eqn:E; simpl.
  - apply cmp_eq in E as ->. by destruct (String.eqb_spec k' k0).
  - done.
  - rewrite IH. destruct (String.eqb_spec k' k0) as [->|]; [|done].
    destruct (String.eqb_spec k0 k) as [->|]; [|done]. by rewrite cmp_refl in E.
Qed.

(** A [Value] is not changed by reading it again. *)
Lemma jinsert_last k v (m : jobj) :
  (∀ kv, kv ∈ m → clt kv.1 k = true) → jinsert k v m = m ++ [(k, v)].
Proof.
  induction m as [|[k0 v0] m IH]; intros Hm; simpl; [done|].
  pose proof (Hm (k0, v0) ltac:(left)) as Hk. apply clt_cmp, cmp_gt in Hk. simpl in Hk. rewrite Hk.
  f_equal. apply IH. intros. apply Hm. by right.
Qed.
Lemma jinsert_sorted k v (m : jobj) :
  StronglySorted (λ a b, clt a.1 b.1 = true) m → StronglySorted (λ a b, clt a.1 b.1 = true) (jinsert k v m).
Proof.
  induction 1 as [|[k0 v0] m Hs IH Hx]; simpl; [by repeat constructor|].
  rewrite Forall_forall in Hx. destruct (cmp k k0) eqn:E.
  - apply cmp_eq in E as ->. constructor; [done|]. by apply Forall_forall.
  - assert (clt k k0 = true) as Hlt by (by apply clt_cmp).
    constructor; [constructor; [done|by apply Forall_forall]|]. constructor; [done|].
    apply Forall_forall. intros kv Hkv. apply clt_cmp. apply (cmp_trans _ k0); [done|].
    by apply clt_cmp, (Hx kv).
  - constructor; [done|]. apply Forall_forall. intros kv Hkv.
    assert (kv.1 = k ∨ kv ∈ m) as [-> |Hin].
    { clear -Hkv. induction m as [|[k1 v1] m IH]; simpl in Hkv.
      - apply list_elem_of_singleton in Hkv as ->. by left.
      - destruct (cmp k k1) eqn:E; rewrite !elem_of_cons in Hkv; rewrite elem_of_cons;
          try apply cmp_eq in E as ->; naive_solver. }
    + by apply clt_cmp, cmp_gt.
    + by apply Hx.
Qed.
Definition value_step (acc : jobj) (kv : string * json) : jobj := jinsert kv.1 (value_of kv.2) acc.
Lemma value_members_sorted m acc :
  StronglySorted (λ a b, clt a.1 b.1 = true) acc →
  StronglySorted (λ a b, clt a.1 b.1 = true) (foldl value_step acc m).
Proof.
  revert acc. induction m as [|kv m IH]; intros acc Hacc; simpl; [done|]. by apply IH, jinsert_sorted.
Qed.
Lemma value_members_elem m acc kv :
  kv ∈ foldl value_step acc m → kv ∈ acc ∨ ∃ kw, kw ∈ m ∧ kv.2 = value_of kw.2.
Proof.
  revert acc. induction m as [|kw m IH]; intros acc; simpl; [auto|]. intros [Hin|(k & ? & ?)]%IH.
  - assert (kv = (kw.1, value_of kw.2) ∨ kv ∈ acc) as [->|]; [|set_solver|set_solver].
    unfold value_step in Hin. clear -Hin. induction acc as [|[k1 v1] acc IH]; simpl in Hin.
    + by apply list_elem_of_singleton in Hin; left.
    + destruct (cmp kw.1 k1) eqn:E; rewrite !elem_of_cons in Hin; rewrite elem_of_cons; naive_solver.
  - right. exists k. split; [by right|done].
Qed.
Lemma value_members_id acc m :
  StronglySorted (λ a b, clt a.1 b.1 = true) (acc ++ m) → (∀ kv, kv ∈ m → value_of kv.2 = kv.2) →
  foldl value_step acc m = acc ++ m.
Proof.
  revert acc. induction m as [|[k v] m IH]; intros acc Hs Hm; simpl; [by rewrite app_nil_r|].
  pose proof (Hm (k, v) ltac:(left)) as Hv. unfold value_step at 2. simpl in Hv |- *. rewrite Hv.
  rewrite jinsert_last, IH; [by rewrite <-app_assoc|by rewrite <-app_assoc| |].
  - intros. apply Hm. by right.
  - intros kv Hkv. clear -Hs Hkv. induction acc as [|x acc IH]; [set_solver|]. simpl in Hs.
    inversion Hs as [|?? Hs' Hx]; subst. apply elem_of_cons in Hkv as [->|Hkv]; [|by apply IH].
    apply (proj1 (Forall_forall _ _) Hx (k, v)). set_solver.
Qed.
Lemma value_of_idem j : value_of (value_of j) = value_of j.
Proof.
  induction j as [| | | | |l IH|m IH] using json_ind'; try done.
  - simpl. f_equal. rewrite <-list_fmap_compose. apply list_fmap_ext. intros i x Hx. simpl.
    rewrite Forall_forall in IH. apply IH. by eapply list_elem_of_lookup_2.
  - change (value_of (JObject m)) with (JObject (foldl value_step [] m)).
    change (value_of (JObject ?m)) with (JObject (foldl value_step [] m)). f_equal.
    apply (value_members_id []); simpl.
    + apply value_members_sorted. constructor.
    + intros kv [?|(kw & Hkw & ->)]%value_members_elem; [set_solver|].
      rewrite Forall_forall in IH. by apply IH.
Qed.
Lemma value_of_is_value j : is_value (value_of j) = true.
Proof. apply eqb_true, value_of_idem. Qed.
