(* ===== verification/F64.v ===== *)
(** IEEE 754 double-precision numbers, for the few places where the code computes with [f64]:
    shares of pixels, metrics and thresholds of probes, times of monitors. The arithmetic is that of the Standard
    Library's executable specification of floats, at 53 bits of precision. *)

From Stdlib Require Export SpecFloat.
From S2P Require Import Prelude Json.

Definition f64 : Type := spec_float.
#[export] Instance f64_eq_dec : EqDecision f64.
Proof. unfold f64. solve_decision. Defined.

(** [z as f64]. *)
Definition f64_of_Z (z : Z) : f64 := binary_normalize 53 1024 z 0 false.
Definition f64_div : f64 → f64 → f64 := SFdiv 53 1024.
Definition f64_mul : f64 → f64 → f64 := SFmul 53 1024.
Definition f64_sub : f64 → f64 → f64 := SFsub 53 1024.
Definition f64_add : f64 → f64 → f64 := SFadd 53 1024.
Definition f64_abs : f64 → f64 := SFabs.
(** [==], [<] and [<=], all false on a NaN. *)
Definition f64_eq : f64 → f64 → bool := SFeqb.
Definition f64_lt : f64 → f64 → bool := SFltb.
Definition f64_le : f64 → f64 → bool := SFleb.
Definition is_finite (x : f64) : bool :=
  match x with S754_zero _ | S754_finite _ _ _ => true | _ => false end.
Definition is_nan (x : f64) : bool := match x with S754_nan => true | _ => false end.
(** [x.max(y)] and [x.min(y)]: the other number when one is a NaN. *)
Definition f64_max (x y : f64) : f64 :=
  if is_nan x then y else if is_nan y then x else if f64_lt x y then y else x.
Definition f64_min (x y : f64) : f64 :=
  if is_nan x then y else if is_nan y then x else if f64_lt y x then y else x.
(** [x as u64]: towards zero, saturating, a NaN being zero. *)
Definition f64_to_u64 (x : f64) : Z :=
  match x with
  | S754_finite false m e =>
      Z.min u64_max (if (0 <=? e)%Z then Z.pos m * 2 ^ e else Z.pos m / 2 ^ (- e))
  | S754_infinity false => u64_max
  | _ => 0%Z
  end.
(** [x.round()]: to the nearest integer, halves away from zero. *)
Definition f64_round (x : f64) : f64 :=
  match x with
  | S754_finite s m e =>
      if (0 <=? e)%Z then x else
      let n := ((Z.pos m + 2 ^ (- e - 1)) / 2 ^ (- e))%Z in
      binary_normalize 53 1024 (if s then - n else n)%Z 0 s
  | _ => x
  end.

(** The token of a number in a JSON value: its bits, with one zero, since [Value] compares
    numbers with [==]. *)
Definition f64_token (x : f64) : Z :=
  match x with
  | S754_finite s m e =>
      ((if s then 2 ^ 63 else 0) +
       (if Z.pos m <? 2 ^ 52 then Z.pos m else (e + 1075) * 2 ^ 52 + (Z.pos m - 2 ^ 52)))%Z
  | S754_zero _ => 0%Z
  | S754_infinity s => ((if s then 2 ^ 63 else 0) + 2047 * 2 ^ 52)%Z
  | S754_nan => (2047 * 2 ^ 52 + 1)%Z
  end.
Definition f64_of_token (t : Z) : f64 :=
  let s := (2 ^ 63 <=? t)%Z in
  let b := if s then (t - 2 ^ 63)%Z else t in
  let e := (b / 2 ^ 52)%Z in
  let m := (b mod 2 ^ 52)%Z in
  if (e =? 2047)%Z then (if (m =? 0)%Z then S754_infinity s else S754_nan)
  else if (e =? 0)%Z then (if (m =? 0)%Z then S754_zero s else S754_finite s (Z.to_pos m) (-1074))
  else S754_finite s (Z.to_pos (m + 2 ^ 52)) (e - 1075).
(** [v.as_f64()]. *)
Definition as_f64 (v : json) : option f64 :=
  match v with JInt z => Some (f64_of_Z z) | JFloat t => Some (f64_of_token t) | _ => None end.
(** [json!(x)]: a number that is not finite becomes null. *)
Definition f64_value (x : f64) : json := if is_finite x then JFloat (f64_token x) else JNull.

(** * Properties *)

Lemma digits2_bounds m : (2 ^ (Z.pos (digits2_pos m) - 1) <= Z.pos m < 2 ^ Z.pos (digits2_pos m))%Z.
Proof.
  induction m as [m IH|m IH|]; cbn [digits2_pos]; [| |lia];
    rewrite Pos2Z.inj_succ; rewrite Z.pow_succ_r by lia;
    replace (Z.succ (Z.pos (digits2_pos m)) - 1)%Z with (Z.succ (Z.pos (digits2_pos m) - 1))%Z by lia;
    rewrite Z.pow_succ_r by lia; lia.
Qed.

(** A number comes back from its token, apart from the sign of zero. *)
Lemma f64_token_inv x :
  valid_binary 53 1024 x = true → is_finite x = true → x ≠ S754_zero true →
  f64_of_token (f64_token x) = x.
Proof.
  destruct x as [s|s| |s m e]; intros Hv Hf Hz; [by destruct s|done|done|]. clear Hf Hz.
  simpl in Hv. unfold bounded, canonical_mantissa, fexp, emin in Hv.
  apply andb_true_iff in Hv as [He%Z.eqb_eq Hm%Z.leb_le].
  pose proof (digits2_bounds m) as [Hlo Hhi]. set (d := Z.pos (digits2_pos m)) in *.
  assert (d <= 53)%Z by lia.
  assert (Z.pos m < 2 ^ 53)%Z by (eapply Z.lt_le_trans; [done|]; apply Z.pow_le_mono_r; lia).
  unfold f64_of_token, f64_token.
  set (u := (if Z.pos m <? 2 ^ 52 then Z.pos m else (e + 1075) * 2 ^ 52 + (Z.pos m - 2 ^ 52))%Z).
  destruct (Z.ltb_spec (Z.pos m) (2 ^ 52)) as [Hs|Hs].
  - assert (e = -1074)%Z as -> by (destruct (Z.eq_dec d 53) as [->|]; lia).
    destruct s; subst u;
      [destruct (Z.leb_spec (2 ^ 63) (2 ^ 63 + Z.pos m)); [|lia]
      |destruct (Z.leb_spec (2 ^ 63) (0 + Z.pos m)); [lia|]];
      [replace (2 ^ 63 + Z.pos m - 2 ^ 63)%Z with (Z.pos m) by lia|rewrite Z.add_0_l];
      rewrite Z.div_small, Z.mod_small by lia; cbn [Z.eqb]; done.
  - assert (d = 53)%Z as Hd.
    { destruct (Z.lt_ge_cases d 53); [|lia]. exfalso.
      assert (2 ^ d <= 2 ^ 52)%Z by (apply Z.pow_le_mono_r; lia). lia. }
    assert (u / 2 ^ 52 = e + 1075)%Z as Hq by (subst u; div_lia).
    assert (u mod 2 ^ 52 = Z.pos m - 2 ^ 52)%Z as Hr by (subst u; div_lia).
    assert (0 <= u < 2 ^ 63)%Z as Hu by (subst u; lia).
    destruct s;
      [destruct (Z.leb_spec (2 ^ 63) (2 ^ 63 + u)); [|lia]
      |destruct (Z.leb_spec (2 ^ 63) (0 + u)); [lia|]];
      [replace (2 ^ 63 + u - 2 ^ 63)%Z with u by lia|rewrite Z.add_0_l];
      rewrite Hq, Hr;
      destruct (Z.eqb_spec (e + 1075) 2047); try lia; destruct (Z.eqb_spec (e + 1075) 0); try lia;
      f_equal; lia.
Qed.
