(* ===== verification/Types.v ===== *)
(** Records of the operation log and the objects they describe
    ([layr-model/src/types.rs]), with the JSON form their derived serde implementations give
    them. [X_to_value] is [serde_json::to_value], [X_from_value] is
    [serde_json::from_value::<X>]; [X_wf] says that every integer fits its Rust type and
    that JSON data is a [Value]. *)

From S2P Require Import Prelude Strs Json.

Record Author := mkAuthor {
  au_name : string; au_email : string; au_uid : Z; au_session : option string }.
#[export] Instance Author_eq_dec : EqDecision Author.
Proof. solve_decision. Defined.

Record Conflict := mkConflict {
  cf_path : string; cf_kind : string;
  cf_base : option string; cf_ours : option string; cf_theirs : option string }.
#[export] Instance Conflict_eq_dec : EqDecision Conflict.
Proof. solve_decision. Defined.

Inductive StateKind := Commit | Auto | Stash | Import_ | Cache | Derived.
#[export] Instance StateKind_eq_dec : EqDecision StateKind.
Proof. solve_decision. Defined.

Definition auxiliary (k : StateKind) : bool :=
  match k with Cache | Derived => true | _ => false end.

Record StateRec := mkStateRec {
  st_id : string;
  st_kind : StateKind;
  st_change_id : option string;
  st_derived_from : option string;
  st_context : option string;
  st_parents : list string;
  st_line : option string;
  st_subvol : string;
  st_author : Author;
  st_message : string;
  st_time : Z;
  st_running : bool;
  st_conflicts : list Conflict;
  st_caches : gmap string string;
  st_cache_by : option Z;
  st_cache_shared : bool;
  st_cache_platform : option string }.
#[export] Instance StateRec_eq_dec : EqDecision StateRec.
Proof. solve_decision. Defined.

Definition REF_PREFIXES : list string :=
  ["env/"; "release/"; "pins/"; "holds/"; "leases/"; "caches/"; "derived/"].
Definition ref_namespace (name : string) : bool :=
  existsb (λ p, starts_with p name) REF_PREFIXES.
Definition RESERVED_PREFIXES : list string :=
  ["env/"; "release/"; "pins/"; "holds/"; "leases/"; "caches/"; "derived/";
   "changes/"; "views/"; "attestations/"].
Definition reserved_revision (name : string) : bool :=
  existsb (λ p, starts_with p name) RESERVED_PREFIXES.

Record RefState := mkRefState {
  rs_name : string; rs_target : string; rs_expires_at : option Z }.
#[export] Instance RefState_eq_dec : EqDecision RefState.
Proof. solve_decision. Defined.

Record RefChange := mkRefChange {
  rc_name : string; rc_before : option RefState; rc_after : option RefState }.
#[export] Instance RefChange_eq_dec : EqDecision RefChange.
Proof. solve_decision. Defined.

Record QueueEntry := mkQueueEntry {
  qe_id : string; qe_into : string; qe_target_line : string; qe_state : string;
  qe_change_id : option string; qe_added_by : Z; qe_time : Z; qe_status : string;
  qe_attempts : Z; qe_result : option string; qe_reason : option string;
  qe_probes : option json }.
#[export] Instance QueueEntry_eq_dec : EqDecision QueueEntry.
Proof. solve_decision. Defined.

Record QueueChange := mkQueueChange {
  qc_id : string; qc_before : option QueueEntry; qc_after : option QueueEntry }.
#[export] Instance QueueChange_eq_dec : EqDecision QueueChange.
Proof. solve_decision. Defined.

Definition ATTESTATION_KINDS : list string :=
  ["check"; "approval"; "origin"; "import"; "quarantine"; "revoke"].

Record Subject := mkSubject { su_kind : string; su_id : string }.
#[export] Instance Subject_eq_dec : EqDecision Subject.
Proof. solve_decision. Defined.

Record Attestation := mkAttestation {
  at_format : Z; at_attestation_id : string; at_subject : Subject;
  at_change_id : option string; at_kind : string; at_payload_digest : string;
  at_payload_ref : option string; at_signer : string; at_time : Z }.
#[export] Instance Attestation_eq_dec : EqDecision Attestation.
Proof. solve_decision. Defined.

(** The pointers of a line at one time. *)
Record LineState := mkLineState {
  ls_name : string; ls_head : string; ls_owner : Z; ls_machine : string }.
#[export] Instance LineState_eq_dec : EqDecision LineState.
Proof. solve_decision. Defined.

Record LineChange := mkLineChange {
  lc_before : option LineState; lc_after : option LineState;
  lc_working_before : option string; lc_working_after : option string }.
#[export] Instance LineChange_eq_dec : EqDecision LineChange.
Proof. solve_decision. Defined.

Record Actor := mkActor { ac_uid : Z; ac_name : string; ac_session : option string }.
#[export] Instance Actor_eq_dec : EqDecision Actor.
Proof. solve_decision. Defined.

Record LogRecord := mkRecord {
  r_id : string; r_machine : string; r_seq : Z; r_time : Z; r_op : string;
  r_project : string; r_actor : Actor; r_states : list StateRec;
  r_lines : gmap string LineChange; r_data : json }.
#[export] Instance LogRecord_eq_dec : EqDecision LogRecord.
Proof. solve_decision. Defined.

Definition Record_new (op : string) : LogRecord :=
  mkRecord "" "" 0 0 op "" (mkActor 0 "" None) [] ∅ JNull.

Record Line := mkLine {
  ln_id : string; ln_name : string; ln_head : string; ln_owner : Z; ln_machine : string }.
#[export] Instance Line_eq_dec : EqDecision Line.
Proof. solve_decision. Defined.

Record Comment := mkComment {
  cm_id : string; cm_change_id : string; cm_version : string; cm_path : option string;
  cm_line : option Z; cm_text : string; cm_reply_to : option string }.
#[export] Instance Comment_eq_dec : EqDecision Comment.
Proof. solve_decision. Defined.

(** ** Serialization *)

(** [skip_serializing_if = "Option::is_none"]. *)
Definition some_string (o : option string) : option json := JString <$> o.
Definition some_int (o : option Z) : option json := JInt <$> o.

Definition Author_to_value (a : Author) : json :=
  ser_struct [("name", Some (JString (au_name a))); ("email", Some (JString (au_email a)));
    ("uid", Some (JInt (au_uid a))); ("session", some_string (au_session a))].
Definition Author_from_value (j : json) : result Author :=
  f ← de_struct ["name"; "email"; "uid"; "session"] [("agent", "session")] false j;
  name ← f_req de_string f "name"; email ← f_req de_string f "email";
  uid ← f_def de_u32 0%Z f "uid"; session ← f_def (de_option de_string) None f "session";
  Ok (mkAuthor name email uid session).

Definition Conflict_to_value (c : Conflict) : json :=
  ser_struct [("path", Some (JString (cf_path c))); ("kind", Some (JString (cf_kind c)));
    ("base", some_string (cf_base c)); ("ours", some_string (cf_ours c));
    ("theirs", some_string (cf_theirs c))].
Definition Conflict_from_value (j : json) : result Conflict :=
  f ← de_struct ["path"; "kind"; "base"; "ours"; "theirs"] [] false j;
  path ← f_req de_string f "path"; kind ← f_req de_string f "kind";
  base ← f_def (de_option de_string) None f "base";
  ours ← f_def (de_option de_string) None f "ours";
  theirs ← f_def (de_option de_string) None f "theirs";
  Ok (mkConflict path kind base ours theirs).

Definition StateKind_name (k : StateKind) : string :=
  match k with
  | Commit => "commit" | Auto => "auto" | Stash => "stash" | Import_ => "import"
  | Cache => "cache" | Derived => "derived"
  end.
(** A unit variant is its name, or an object with the name and a null. *)
Definition de_variant {A} (table : list (string * A)) (j : json) : result A :=
  match j with
  | JString s => ctx "unknown variant" (jlookup s table)
  | JObject [(s, JNull)] => ctx "unknown variant" (jlookup s table)
  | _ => Err "invalid type, expected an enum"
  end.
Definition StateKind_from_value : json → result StateKind :=
  de_variant [("commit", Commit); ("auto", Auto); ("stash", Stash); ("import", Import_);
              ("cache", Cache); ("derived", Derived)].

Definition StateRec_to_value (s : StateRec) : json :=
  ser_struct [("id", Some (JString (st_id s)));
    ("kind", Some (JString (StateKind_name (st_kind s))));
    ("change_id", some_string (st_change_id s));
    ("derived_from", some_string (st_derived_from s));
    ("context", some_string (st_context s));
    ("parents", Some (JArray (JString <$> st_parents s)));
    ("line", some_string (st_line s));
    ("subvol", Some (JString (st_subvol s)));
    ("author", Some (Author_to_value (st_author s)));
    ("message", Some (JString (st_message s)));
    ("time", Some (JInt (st_time s)));
    ("running", if st_running s then Some (JBool true) else None);
    ("conflicts", if st_conflicts s is [] then None
                  else Some (JArray (Conflict_to_value <$> st_conflicts s)));
    ("layers", if map_is_empty (st_caches s) then None
               else Some (ser_map JString (st_caches s)));
    ("layer_by", some_int (st_cache_by s));
    ("layer_shared", if st_cache_shared s then Some (JBool true) else None);
    ("layer_platform", some_string (st_cache_platform s))].
Definition StateRec_from_value (j : json) : result StateRec :=
  f ← de_struct ["id"; "kind"; "change_id"; "derived_from"; "context"; "parents"; "line";
        "subvol"; "author"; "message"; "time"; "running"; "conflicts"; "layers"; "layer_by";
        "layer_shared"; "layer_platform"]
      [("caches", "layers"); ("cache_by", "layer_by"); ("cache_shared", "layer_shared");
       ("cache_platform", "layer_platform")] false j;
  id ← f_req de_string f "id"; kind ← f_req StateKind_from_value f "kind";
  change_id ← f_def (de_option de_string) None f "change_id";
  derived_from ← f_def (de_option de_string) None f "derived_from";
  context ← f_def (de_option de_string) None f "context";
  parents ← f_def (de_vec de_string) [] f "parents";
  line ← f_def (de_option de_string) None f "line";
  subvol ← f_req de_string f "subvol"; author ← f_req Author_from_value f "author";
  message ← f_def de_string "" f "message"; time ← f_req de_i64 f "time";
  running ← f_def de_bool false f "running";
  conflicts ← f_def (de_vec Conflict_from_value) [] f "conflicts";
  caches ← f_def (de_map de_string) ∅ f "layers";
  cache_by ← f_def (de_option de_u32) None f "layer_by";
  cache_shared ← f_def de_bool false f "layer_shared";
  cache_platform ← f_def (de_option de_string) None f "layer_platform";
  Ok (mkStateRec id kind change_id derived_from context parents line subvol author message
        time running conflicts caches cache_by cache_shared cache_platform).

Definition RefState_to_value (r : RefState) : json :=
  ser_struct [("name", Some (JString (rs_name r))); ("target", Some (JString (rs_target r)));
    ("expires_at", some_int (rs_expires_at r))].
Definition RefState_from_value (j : json) : result RefState :=
  f ← de_struct ["name"; "target"; "expires_at"] [] false j;
  name ← f_req de_string f "name"; target ← f_req de_string f "target";
  expires_at ← f_def (de_option de_i64) None f "expires_at";
  Ok (mkRefState name target expires_at).
Definition RefChange_to_value (r : RefChange) : json :=
  ser_struct [("name", Some (JString (rc_name r)));
    ("before", Some (ser_option RefState_to_value (rc_before r)));
    ("after", Some (ser_option RefState_to_value (rc_after r)))].
Definition RefChange_from_value (j : json) : result RefChange :=
  f ← de_struct ["name"; "before"; "after"] [] false j;
  name ← f_req de_string f "name"; before ← f_opt RefState_from_value f "before";
  after ← f_opt RefState_from_value f "after";
  Ok (mkRefChange name before after).

Definition QueueEntry_to_value (q : QueueEntry) : json :=
  ser_struct [("id", Some (JString (qe_id q))); ("into", Some (JString (qe_into q)));
    ("target_line", Some (JString (qe_target_line q)));
    ("state", Some (JString (qe_state q))); ("change_id", some_string (qe_change_id q));
    ("added_by", Some (JInt (qe_added_by q))); ("time", Some (JInt (qe_time q)));
    ("status", Some (JString (qe_status q))); ("attempts", Some (JInt (qe_attempts q)));
    ("result", some_string (qe_result q)); ("reason", some_string (qe_reason q));
    ("probes", qe_probes q)].
Definition QueueEntry_from_value (j : json) : result QueueEntry :=
  f ← de_struct ["id"; "into"; "target_line"; "state"; "change_id"; "added_by"; "time";
        "status"; "attempts"; "result"; "reason"; "probes"] [] false j;
  id ← f_req de_string f "id"; into ← f_req de_string f "into";
  target_line ← f_req de_string f "target_line"; state ← f_req de_string f "state";
  change_id ← f_def (de_option de_string) None f "change_id";
  added_by ← f_req de_u32 f "added_by"; time ← f_req de_i64 f "time";
  status ← f_req de_string f "status"; attempts ← f_def de_u32 0%Z f "attempts";
  res ← f_def (de_option de_string) None f "result";
  reason ← f_def (de_option de_string) None f "reason";
  probes ← f_def (de_option de_value) None f "probes";
  Ok (mkQueueEntry id into target_line state change_id added_by time status attempts res
        reason probes).
Definition QueueChange_to_value (q : QueueChange) : json :=
  ser_struct [("id", Some (JString (qc_id q)));
    ("before", Some (ser_option QueueEntry_to_value (qc_before q)));
    ("after", Some (ser_option QueueEntry_to_value (qc_after q)))].
Definition QueueChange_from_value (j : json) : result QueueChange :=
  f ← de_struct ["id"; "before"; "after"] [] false j;
  id ← f_req de_string f "id"; before ← f_opt QueueEntry_from_value f "before";
  after ← f_opt QueueEntry_from_value f "after";
  Ok (mkQueueChange id before after).

Definition Subject_to_value (s : Subject) : json :=
  ser_struct [("kind", Some (JString (su_kind s))); ("id", Some (JString (su_id s)))].
Definition Subject_from_value (j : json) : result Subject :=
  f ← de_struct ["kind"; "id"] [] false j;
  kind ← f_req de_string f "kind"; id ← f_req de_string f "id"; Ok (mkSubject kind id).
Definition Attestation_to_value (a : Attestation) : json :=
  ser_struct [("format", Some (JInt (at_format a)));
    ("attestation_id", Some (JString (at_attestation_id a)));
    ("subject", Some (Subject_to_value (at_subject a)));
    ("change_id", some_string (at_change_id a)); ("kind", Some (JString (at_kind a)));
    ("payload_digest", Some (JString (at_payload_digest a)));
    ("payload_ref", some_string (at_payload_ref a));
    ("signer", Some (JString (at_signer a))); ("time", Some (JInt (at_time a)))].
Definition Attestation_from_value (j : json) : result Attestation :=
  f ← de_struct ["format"; "attestation_id"; "subject"; "change_id"; "kind";
        "payload_digest"; "payload_ref"; "signer"; "time"] [] false j;
  format ← f_req de_u32 f "format"; id ← f_req de_string f "attestation_id";
  subject ← f_req Subject_from_value f "subject";
  change_id ← f_def (de_option de_string) None f "change_id";
  kind ← f_req de_string f "kind"; digest ← f_req de_string f "payload_digest";
  ref ← f_def (de_option de_string) None f "payload_ref";
  signer ← f_req de_string f "signer"; time ← f_req de_i64 f "time";
  Ok (mkAttestation format id subject change_id kind digest ref signer time).

Definition LineState_to_value (l : LineState) : json :=
  ser_struct [("name", Some (JString (ls_name l))); ("head", Some (JString (ls_head l)));
    ("owner", Some (JInt (ls_owner l))); ("machine", Some (JString (ls_machine l)))].
Definition LineState_from_value (j : json) : result LineState :=
  f ← de_struct ["name"; "head"; "owner"; "machine"] [] false j;
  name ← f_req de_string f "name"; head ← f_req de_string f "head";
  owner ← f_req de_u32 f "owner"; machine ← f_req de_string f "machine";
  Ok (mkLineState name head owner machine).
Definition LineChange_to_value (l : LineChange) : json :=
  ser_struct [("before", Some (ser_option LineState_to_value (lc_before l)));
    ("after", Some (ser_option LineState_to_value (lc_after l)));
    ("working_before", some_string (lc_working_before l));
    ("working_after", some_string (lc_working_after l))].
Definition LineChange_from_value (j : json) : result LineChange :=
  f ← de_struct ["before"; "after"; "working_before"; "working_after"] [] false j;
  before ← f_opt LineState_from_value f "before";
  after ← f_opt LineState_from_value f "after";
  working_before ← f_def (de_option de_string) None f "working_before";
  working_after ← f_def (de_option de_string) None f "working_after";
  Ok (mkLineChange before after working_before working_after).

Definition Actor_to_value (a : Actor) : json :=
  ser_struct [("uid", Some (JInt (ac_uid a))); ("name", Some (JString (ac_name a)));
    ("session", some_string (ac_session a))].
Definition Actor_from_value (j : json) : result Actor :=
  f ← de_struct ["uid"; "name"; "session"] [("agent", "session")] false j;
  uid ← f_req de_u32 f "uid"; name ← f_req de_string f "name";
  session ← f_def (de_option de_string) None f "session";
  Ok (mkActor uid name session).

Definition Record_to_value (r : LogRecord) : json :=
  ser_struct [("id", Some (JString (r_id r))); ("machine", Some (JString (r_machine r)));
    ("seq", Some (JInt (r_seq r))); ("time", Some (JInt (r_time r)));
    ("op", Some (JString (r_op r))); ("project", Some (JString (r_project r)));
    ("actor", Some (Actor_to_value (r_actor r)));
    ("states", if r_states r is [] then None
               else Some (JArray (StateRec_to_value <$> r_states r)));
    ("lines", if map_is_empty (r_lines r) then None
              else Some (ser_map LineChange_to_value (r_lines r)));
    ("data", if r_data r is JNull then None else Some (r_data r))].
Definition Record_from_value (j : json) : result LogRecord :=
  f ← de_struct ["id"; "machine"; "seq"; "time"; "op"; "project"; "actor"; "states";
        "lines"; "data"] [] false j;
  id ← f_req de_string f "id"; machine ← f_req de_string f "machine";
  seq ← f_req de_u64 f "seq"; time ← f_req de_i64 f "time"; op ← f_req de_string f "op";
  project ← f_req de_string f "project"; actor ← f_req Actor_from_value f "actor";
  states ← f_def (de_vec StateRec_from_value) [] f "states";
  lines ← f_def (de_map LineChange_from_value) ∅ f "lines";
  data ← f_def de_value JNull f "data";
  Ok (mkRecord id machine seq time op project actor states lines data).

Definition Comment_from_value (j : json) : result Comment :=
  f ← de_struct ["id"; "change_id"; "version"; "path"; "line"; "text"; "reply_to"] [] true j;
  id ← f_req de_string f "id"; change_id ← f_req de_string f "change_id";
  version ← f_req de_string f "version";
  path ← f_def (de_option de_string) None f "path";
  line ← f_def (de_option de_u32) None f "line"; text ← f_req de_string f "text";
  reply_to ← f_def (de_option de_string) None f "reply_to";
  Ok (mkComment id change_id version path line text reply_to).

(** ** Values that Rust can hold: integers in range, JSON members sorted and without repetition *)

Definition opt_in {A} (p : A → bool) (o : option A) : bool := is_none_or o p.
Definition Author_wf (a : Author) : bool := in_u32 (au_uid a).
Definition StateRec_wf (s : StateRec) : bool :=
  Author_wf (st_author s) && in_i64 (st_time s) && opt_in in_u32 (st_cache_by s).
Definition RefState_wf (r : RefState) : bool := opt_in in_i64 (rs_expires_at r).
Definition RefChange_wf (r : RefChange) : bool :=
  opt_in RefState_wf (rc_before r) && opt_in RefState_wf (rc_after r).
Definition QueueEntry_wf (q : QueueEntry) : bool :=
  in_u32 (qe_added_by q) && in_i64 (qe_time q) && in_u32 (qe_attempts q) &&
  negb (qe_probes q == Some JNull) && opt_in is_value (qe_probes q).
Definition QueueChange_wf (q : QueueChange) : bool :=
  opt_in QueueEntry_wf (qc_before q) && opt_in QueueEntry_wf (qc_after q).
Definition Attestation_wf (a : Attestation) : bool := in_u32 (at_format a) && in_i64 (at_time a).
Definition LineState_wf (l : LineState) : bool := in_u32 (ls_owner l).
Definition LineChange_wf (l : LineChange) : bool :=
  opt_in LineState_wf (lc_before l) && opt_in LineState_wf (lc_after l).
Definition Record_wf (r : LogRecord) : bool :=
  in_u64 (r_seq r) && in_i64 (r_time r) && in_u32 (ac_uid (r_actor r)) &&
  forallb StateRec_wf (r_states r) && forallb (λ kv, LineChange_wf kv.2) (entries (r_lines r)) &&
  is_value (r_data r).

(** ** Round trips *)

(** Reduce the decoder of a struct applied to its encoding to its fields. *)
Ltac de_ser :=
  match goal with
  | |- context [de_struct ?n ?a ?d (ser_struct ?l)] =>
      let m := fresh "m" in let E := fresh "E" in let Hm := fresh "Hm" in
      destruct (de_struct_ser n a d l) as (m & E & Hm);
      [by apply (bool_decide_unpack _); vm_compute|by vm_compute|];
      rewrite E; clear E; unfold mbind, result_bind; cbv beta iota;
      unfold f_req, f_opt, f_def; cbn [f_map f_seq]; rewrite !Hm; clear Hm; clear m
  end.
Ltac fields_simpl :=
  cbn [jlookup String.eqb Ascii.eqb Bool.eqb mjoin option_join de_string de_bool].

Lemma de_int_in inr z : inr z = true → de_int inr (JInt z) = Ok z.
Proof. intros Hz. simpl. by rewrite Hz. Qed.
Lemma de_value_id j : is_value j = true → de_value j = Ok j.
Proof. unfold de_value. by intros ->%eqb_eq. Qed.
Lemma de_option_value j :
  Some j ≠ Some JNull → is_value j = true → de_option de_value j = Ok (Some j).
Proof. intros Hj Hv. unfold de_option. rewrite de_value_id by done. by destruct j. Qed.
Lemma def_some_string o :
  match some_string o with Some j => de_option de_string j | None => Ok None end = Ok o.
Proof. by destruct o. Qed.
Lemma def_some_int inr o :
  opt_in inr o = true →
  match some_int o with Some j => de_option (de_int inr) j | None => Ok None end = Ok o.
Proof. destruct o as [z|]; simpl; [intros ->|]; done. Qed.
Lemma de_vec_ser {A} (e : A → json) (d : json → result A) l :
  Forall (λ a, d (e a) = Ok a) l → de_vec d (JArray (e <$> l)) = Ok l.
Proof. intros Hl. apply collect_map_ser. by apply Forall_forall. Qed.
Lemma ser_struct_not_null l : ser_struct l ≠ JNull.
Proof. done. Qed.
#[export] Hint Rewrite de_int_in @def_some_string def_some_int using done : serde.

Ltac roundtrip :=
  unfold de_u32, de_u64, de_i64; de_ser; fields_simpl; autorewrite with serde; try done.

Lemma Author_roundtrip a : Author_wf a = true → Author_from_value (Author_to_value a) = Ok a.
Proof. intros Hwf. destruct a. unfold Author_from_value, Author_to_value. roundtrip. Qed.
Lemma Conflict_roundtrip c : Conflict_from_value (Conflict_to_value c) = Ok c.
Proof. destruct c. unfold Conflict_from_value, Conflict_to_value. roundtrip. Qed.
Lemma StateKind_roundtrip k : StateKind_from_value (JString (StateKind_name k)) = Ok k.
Proof. by destruct k. Qed.
Lemma Subject_roundtrip s : Subject_from_value (Subject_to_value s) = Ok s.
Proof. destruct s. unfold Subject_from_value, Subject_to_value. roundtrip. Qed.
Lemma Actor_roundtrip a :
  in_u32 (ac_uid a) = true → Actor_from_value (Actor_to_value a) = Ok a.
Proof. intros Hwf. destruct a. unfold Actor_from_value, Actor_to_value. roundtrip. Qed.
Lemma LineState_roundtrip l :
  LineState_wf l = true → LineState_from_value (LineState_to_value l) = Ok l.
Proof. intros Hwf. destruct l. unfold LineState_from_value, LineState_to_value. roundtrip. Qed.
Lemma RefState_roundtrip r :
  RefState_wf r = true → RefState_from_value (RefState_to_value r) = Ok r.
Proof. intros Hwf. destruct r. unfold RefState_from_value, RefState_to_value. roundtrip. Qed.
#[export] Hint Rewrite Author_roundtrip Conflict_roundtrip StateKind_roundtrip
  Subject_roundtrip Actor_roundtrip LineState_roundtrip RefState_roundtrip using done : serde.

(** An [Option] of a struct that round-trips. *)
Lemma opt_roundtrip {A} (wf : A → bool) (e : A → json) (d : json → result A) o :
  (∀ a, wf a = true → d (e a) = Ok a) → (∀ a, e a ≠ JNull) → opt_in wf o = true →
  de_option d (ser_option e o) = Ok o.
Proof. intros Hrt Hnn Ho. apply de_option_ser. intros a ->. auto. Qed.

Lemma LineChange_roundtrip l :
  LineChange_wf l = true → LineChange_from_value (LineChange_to_value l) = Ok l.
Proof.
  intros [Hb Ha]%andb_true_iff. destruct l.
  unfold LineChange_from_value, LineChange_to_value. roundtrip.
  rewrite !(opt_roundtrip LineState_wf) by (done || apply LineState_roundtrip).
  by autorewrite with serde.
Qed.
Lemma RefChange_roundtrip r :
  RefChange_wf r = true → RefChange_from_value (RefChange_to_value r) = Ok r.
Proof.
  intros [Hb Ha]%andb_true_iff. destruct r.
  unfold RefChange_from_value, RefChange_to_value. roundtrip.
  by rewrite !(opt_roundtrip RefState_wf) by (done || apply RefState_roundtrip).
Qed.
Lemma QueueEntry_roundtrip q :
  QueueEntry_wf q = true → QueueEntry_from_value (QueueEntry_to_value q) = Ok q.
Proof.
  unfold QueueEntry_wf. intros Hwf. inv_ok. destruct q as [???????????[p|]]; simpl in *.
  all: unfold QueueEntry_from_value, QueueEntry_to_value; roundtrip.
  cbn [qe_probes]. by rewrite (de_option_value p).
Qed.
Lemma QueueChange_roundtrip q :
  QueueChange_wf q = true → QueueChange_from_value (QueueChange_to_value q) = Ok q.
Proof.
  intros [Hb Ha]%andb_true_iff. destruct q.
  unfold QueueChange_from_value, QueueChange_to_value. roundtrip.
  by rewrite !(opt_roundtrip QueueEntry_wf) by (done || apply QueueEntry_roundtrip).
Qed.
Lemma Attestation_roundtrip a :
  Attestation_wf a = true → Attestation_from_value (Attestation_to_value a) = Ok a.
Proof.
  intros [Hf Ht]%andb_true_iff. destruct a; simpl in *.
  unfold Attestation_from_value, Attestation_to_value. roundtrip.
Qed.

Lemma def_map {A} (e : A → json) (d : json → result A) (m : gmap string A) :
  (∀ k a, m !! k = Some a → d (e a) = Ok a) →
  match (if map_is_empty m then None else Some (ser_map e m)) with
  | Some j => de_map d j | None => Ok ∅ end = Ok m.
Proof.
  intros Hm. unfold map_is_empty. case_bool_decide as Hd; [by rewrite Hd|].
  by apply de_map_ser.
Qed.
Lemma def_vec {A} (e : A → json) (d : json → result A) (l : list A) :
  Forall (λ a, d (e a) = Ok a) l →
  match (match l with [] => None | _ => Some (JArray (e <$> l)) end) with
  | Some j => de_vec d j | None => Ok [] end = Ok l.
Proof. intros Hl. destruct l; [done|]. by apply de_vec_ser. Qed.
Lemma def_true (b : bool) :
  match (if b then Some (JBool true) else None) with
  | Some j => de_bool j | None => Ok false end = Ok b.
Proof. by destruct b. Qed.

Lemma def_value j :
  is_value j = true →
  match (match j with JNull => None | _ => Some j end) with
  | Some j => de_value j | None => Ok JNull end = Ok j.
Proof. intros Hj. destruct j; try done; by apply de_value_id. Qed.

Lemma StateRec_roundtrip s :
  StateRec_wf s = true → StateRec_from_value (StateRec_to_value s) = Ok s.
Proof.
  unfold StateRec_wf. intros Hwf. inv_ok.
  unfold StateRec_from_value, StateRec_to_value. roundtrip.
  rewrite de_vec_ser by (by apply Forall_true). autorewrite with serde.
  rewrite def_true, def_vec by (apply Forall_true, Conflict_roundtrip).
  rewrite def_map by done. autorewrite with serde. rewrite def_true. autorewrite with serde.
  by destruct s.
Qed.

Lemma Record_from_to (r : LogRecord) :
  Record_wf r = true → Record_from_value (Record_to_value r) = Ok r.
Proof.
  unfold Record_wf. intros Hwf. inv_ok.
  unfold Record_from_value, Record_to_value. roundtrip.
  rewrite def_vec, def_map, def_value.
  - by destruct r.
  - done.
  - intros k l Hl. apply LineChange_roundtrip.
    match goal with H : forallb _ (entries _) = true |- _ => rewrite forallb_elem in H;
      apply (H (k, l)) end. by apply elem_of_entries.
  - apply Forall_forall. intros s Hs. apply StateRec_roundtrip.
    match goal with H : forallb StateRec_wf _ = true |- _ => rewrite forallb_elem in H;
      by apply H end.
Qed.
Lemma Record_to_value_inj r r' :
  Record_wf r = true → Record_wf r' = true → Record_to_value r = Record_to_value r' → r = r'.
Proof.
  intros Hr Hr' E. apply (f_equal Record_from_value) in E.
  rewrite !Record_from_to in E by done. congruence.
Qed.

(** What is read from JSON is something that Rust can hold. *)
Lemma de_int_ok inr j z : de_int inr j = Ok z → inr z = true.
Proof. destruct j; simpl; try done. destruct (inr z0) eqn:E; [|done]. by intros [= <-]. Qed.
Lemma f_req_ok {A} (d : json → result A) (P : A → Prop) f k a :
  (∀ j a, d j = Ok a → P a) → f_req d f k = Ok a → P a.
Proof. unfold f_req. destruct (jlookup k (f_map f)); [eauto|done]. Qed.
Lemma f_def_ok {A} (d : json → result A) (P : A → Prop) a0 f k a :
  (∀ j a, d j = Ok a → P a) → P a0 → f_def d a0 f k = Ok a → P a.
Proof. unfold f_def. destruct (jlookup k (f_map f)); [eauto|by intros ?? [= <-]]. Qed.
Lemma de_option_ok {A} (d : json → result A) (wf : A → bool) j o :
  (∀ j a, d j = Ok a → wf a = true) → de_option d j = Ok o → opt_in wf o = true.
Proof.
  intros Hd. unfold de_option. assert (Some <$> d j = Ok o → opt_in wf o = true) as H.
  { destruct (d j) eqn:E; simpl; [|done]. intros [= <-]. simpl. eauto. }
  destruct j; [by intros [= <-]|done..].
Qed.
Lemma f_opt_ok {A} (d : json → result A) (wf : A → bool) f k o :
  (∀ j a, d j = Ok a → wf a = true) → f_opt d f k = Ok o → opt_in wf o = true.
Proof.
  intros Hd. unfold f_opt. destruct (jlookup k (f_map f)); [by apply de_option_ok|].
  destruct (f_seq f); [done|by intros [= <-]].
Qed.
Lemma de_vec_ok {A} (d : json → result A) (wf : A → bool) j l :
  (∀ j a, d j = Ok a → wf a = true) → de_vec d j = Ok l → forallb wf l = true.
Proof.
  intros Hd. destruct j as [| | | | |js|]; simpl; try done. intros Hl%collect_ok.
  apply forallb_elem. intros a Ha. induction Hl as [|x y js l Hx Hl IH]; [set_solver|].
  apply elem_of_cons in Ha as [->|]; eauto.
Qed.
Lemma de_map_ok {A} (d : json → result A) (P : A → Prop) j (m : gmap string A) k a :
  (∀ j a, d j = Ok a → P a) → de_map d j = Ok m → m !! k = Some a → P a.
Proof.
  intros Hd. destruct j as [| | | | | |o]; simpl; try done.
  destruct (collect _ o) as [l|] eqn:E; simpl; [|done]. intros [= <-] Hk.
  apply elem_of_list_to_map_2 in Hk. rewrite elem_of_reverse in Hk. apply collect_ok in E.
  induction E as [|x y o l Hx E IH]; [set_solver|]. apply elem_of_cons in Hk as [<-|]; [|auto].
  destruct (d x.2) eqn:Ed; simpl in Hx; [|done]. injection Hx as _ ->. eauto.
Qed.

Lemma Author_from_wf j a : Author_from_value j = Ok a → Author_wf a = true.
Proof.
  unfold Author_from_value. intros H. inv_ok.
  eapply (f_def_ok _ (λ z, in_u32 z = true)); [| |eassumption]; [intros ??; apply de_int_ok|done].
Qed.
Lemma StateRec_from_wf j s : StateRec_from_value j = Ok s → StateRec_wf s = true.
Proof.
  unfold StateRec_from_value. intros H. inv_ok. unfold StateRec_wf. simpl. rewrite !andb_true_iff. split; [split|].
  - eapply (f_req_ok _ (λ a, Author_wf a = true)); [|eassumption]. apply Author_from_wf.
  - eapply (f_req_ok _ (λ z, in_i64 z = true)); [|eassumption]. intros ??. apply de_int_ok.
  - eapply (f_def_ok _ (λ o, opt_in in_u32 o = true)); [| |eassumption]; [|done].
    intros ??. apply de_option_ok. intros ??. apply de_int_ok.
Qed.
Lemma LineState_from_wf j l : LineState_from_value j = Ok l → LineState_wf l = true.
Proof.
  unfold LineState_from_value. intros H. inv_ok.
  eapply (f_req_ok _ (λ z, in_u32 z = true)); [|eassumption]. intros ??. apply de_int_ok.
Qed.
Lemma LineChange_from_wf j l : LineChange_from_value j = Ok l → LineChange_wf l = true.
Proof.
  unfold LineChange_from_value. intros H. inv_ok. unfold LineChange_wf. simpl. apply andb_true_iff.
  split; (eapply f_opt_ok; [|eassumption]; apply LineState_from_wf).
Qed.
Lemma Actor_from_wf j a : Actor_from_value j = Ok a → in_u32 (ac_uid a) = true.
Proof.
  unfold Actor_from_value. intros H. inv_ok.
  eapply (f_req_ok _ (λ z, in_u32 z = true)); [|eassumption]. intros ??. apply de_int_ok.
Qed.
Lemma Record_from_wf j r : Record_from_value j = Ok r → Record_wf r = true.
Proof.
  unfold Record_from_value. intros H. inv_ok. unfold Record_wf. simpl. rewrite !andb_true_iff.
  split; [split; [split; [split; [split|]|]|]|].
  - eapply (f_req_ok _ (λ z, in_u64 z = true)); [|eassumption]. intros ??. apply de_int_ok.
  - eapply (f_req_ok _ (λ z, in_i64 z = true)); [|eassumption]. intros ??. apply de_int_ok.
  - eapply (f_req_ok _ (λ a, in_u32 (ac_uid a) = true)); [|eassumption]. apply Actor_from_wf.
  - eapply (f_def_ok _ (λ l, forallb StateRec_wf l = true)); [| |eassumption]; [|done].
    intros ??. apply de_vec_ok, StateRec_from_wf.
  - eapply (f_def_ok _ (λ m, forallb (λ kv, LineChange_wf kv.2) (entries m) = true)); [| |eassumption]; [|done].
    intros j' m Hm. apply forallb_elem. intros [k a] Hk%elem_of_entries.
    by eapply (de_map_ok _ (λ l, LineChange_wf l = true)); [apply LineChange_from_wf|..].
  - eapply (f_def_ok _ (λ v, is_value v = true)); [| |eassumption]; [|done].
    intros ?? [= <-]. apply value_of_is_value.
Qed.

(** Reading back a written record gives the record: [from_value] is a left inverse of
    [to_value] on every record that Rust can hold, through all renamed, aliased,
    defaulted and skipped fields. *)
Theorem Record_roundtrip (r : LogRecord) :
  Record_wf r = true → Record_from_value (Record_to_value r) = Ok r.
Proof. apply Record_from_to. Qed.

(** A record with a state, a line change and data. *)
Definition sample_state : StateRec :=
  mkStateRec "s" Commit (Some "c") None None ["p"] (Some "l") "v" (mkAuthor "a" "e" 7 None) "m" 5
    true [mkConflict "f" "edit" (Some "b") None None] {["x" := "y"]} (Some 3%Z) false None.
Definition sample_record : LogRecord :=
  mkRecord "i" "m" 1 2 "commit" "p" (mkActor 1 "u" (Some "w")) [sample_state]
    {["l" := mkLineChange None (Some (mkLineState "main" "s" 1 "m")) None (Some "w")]}
    (JObject [("k", JInt 3)]).
