(* ===== verification/Canonical.v ===== *)
(** Canonical JSON of the vault ([layr-store/src/canonical.rs]): the bytes that trees,
    indexes and audiences are signed and hashed over. *)

From S2P Require Import Prelude Strs Json.

(** ** Definitions *)

Definition hex_digit (d : Z) : ascii := if (d <? 10)%Z then byte_of (48 + d) else byte_of (87 + d).
(** [format!("\\u{unit:04x}")]. *)
Definition unicode_escape (unit : Z) : string :=
  String "\" (String "u" (String (hex_digit (unit / 4096)) (String (hex_digit (unit / 256 mod 16))
    (String (hex_digit (unit / 16 mod 16)) (String (hex_digit (unit mod 16)) ""))))).
(** [char::encode_utf16]. *)
Definition encode_utf16 (c : Z) : list Z :=
  if (c <? 65536)%Z then [c]
  else [55296 + (c - 65536) / 1024; 56320 + (c - 65536) mod 1024]%Z.
Definition quote : ascii := byte_of 34.
Definition backslash : ascii := byte_of 92.
Definition esc2 (a : ascii) : string := String backslash (String a "").

(** One iteration of the loop of [string]. *)
Definition escape_char (c : Z) : string :=
  if (c =? 34)%Z then esc2 quote
  else if (c =? 92)%Z then esc2 backslash
  else if (c =? 10)%Z then esc2 "n"
  else if (c =? 13)%Z then esc2 "r"
  else if (c =? 9)%Z then esc2 "t"
  else if (c =? 8)%Z then esc2 "b"
  else if (c =? 12)%Z then esc2 "f"
  else if (32 <=? c)%Z && (c <=? 126)%Z then String (byte_of c) ""
  else join "" (unicode_escape <$> encode_utf16 c).
(** [string]: a JSON string as Python writes it with [ensure_ascii]. *)
Definition json_string (text : string) : string :=
  String quote (join "" (escape_char <$> chars text) +:+ String quote "").

(** [write]: the text that it appends to [out]. *)
Fixpoint write (v : json) : result string :=
  match v with
  | JNull => Ok "null"
  | JBool b => Ok (if b then "true" else "false")
  | JInt n => Ok (sdec n)
  | JFloat _ => Err "the vault format has no fractional numbers: {n}"
  | JString s => Ok (json_string s)
  | JArray items =>
      ts ← (fix go items := match items with
        | [] => Ok []
        | x :: items => t ← write x; ts ← go items; Ok (t :: ts)
        end) items;
      Ok ("[" +:+ join "," ts +:+ "]")
  | JObject m =>
      kts ← (fix go m := match m with
        | [] => Ok []
        | (k, x) :: m => t ← write x; kts ← go m; Ok ((k, t) :: kts)
        end) m;
      Ok ("{" +:+ join "," ((λ kt : string * string, json_string kt.1 +:+ ":" +:+ kt.2) <$>
                            sort_by (λ a b, cle a.1 b.1) kts) +:+ "}")
  end.
Definition canonical (v : json) : result string := write v.

(** ** UTF-8 *)

Lemma join_nil_cons x l : join "" (x :: l) = x +:+ join "" l.
Proof. destruct l; simpl; [by rewrite str_app_nil_r|done]. Qed.

Lemma byte_of_eq z a : z = byte_val a → byte_of z = a.
Proof. intros ->. apply byte_of_val. Qed.
Lemma is_cont_true a : is_cont a = true ↔ (128 <= byte_val a <= 191)%Z.
Proof. apply byte_between_true. Qed.

Lemma encode1 a : byte_between 0 127 a = true → encode_utf8 (byte_val a) = String a "".
Proof.
  rewrite byte_between_true. intros. unfold encode_utf8.
  destruct (Z.ltb_spec (byte_val a) 128); [by rewrite byte_of_val|lia].
Qed.
Lemma encode2 a b :
  byte_between 194 223 a = true → is_cont b = true →
  encode_utf8 ((byte_val a - 192) * 64 + cont_val b) = String a (String b "").
Proof.
  rewrite byte_between_true, is_cont_true. unfold encode_utf8, cont_val. intros.
  destruct (Z.ltb_spec ((byte_val a - 192) * 64 + (byte_val b - 128)) 128); [lia|].
  destruct (Z.ltb_spec ((byte_val a - 192) * 64 + (byte_val b - 128)) 2048); [|lia].
  f_equal; [|f_equal]; apply byte_of_eq; div_lia.
Qed.
Lemma encode3 a b c (v := ((byte_val a - 224) * 4096 + cont_val b * 64 + cont_val c)%Z) :
  byte_between 224 239 a = true → is_cont b = true → is_cont c = true → (2048 <= v)%Z →
  encode_utf8 v = String a (String b (String c "")).
Proof.
  rewrite byte_between_true, !is_cont_true. subst v. unfold encode_utf8, cont_val. intros.
  set (v := ((byte_val a - 224) * 4096 + (byte_val b - 128) * 64 + (byte_val c - 128))%Z) in *.
  destruct (Z.ltb_spec v 128); [lia|]. destruct (Z.ltb_spec v 2048); [lia|].
  destruct (Z.ltb_spec v 65536); [|lia].
  f_equal; [|f_equal; [|f_equal]]; apply byte_of_eq; subst v; div_lia.
Qed.
Lemma encode4 a b c d
    (v := ((byte_val a - 240) * 262144 + cont_val b * 4096 + cont_val c * 64 + cont_val d)%Z) :
  byte_between 240 244 a = true → is_cont b = true → is_cont c = true → is_cont d = true →
  (65536 <= v)%Z → encode_utf8 v = String a (String b (String c (String d ""))).
Proof.
  rewrite byte_between_true, !is_cont_true. subst v. unfold encode_utf8, cont_val. intros.
  set (v := ((byte_val a - 240) * 262144 + (byte_val b - 128) * 4096
             + (byte_val c - 128) * 64 + (byte_val d - 128))%Z) in *.
  destruct (Z.ltb_spec v 128); [lia|]. destruct (Z.ltb_spec v 2048); [lia|].
  destruct (Z.ltb_spec v 65536); [lia|].
  f_equal; [|f_equal; [|f_equal; [|f_equal]]]; apply byte_of_eq; subst v; div_lia.
Qed.

(** A Unicode scalar value. *)
Definition scalar (c : Z) : Prop :=
  (0 <= c <= 1114111)%Z ∧ ¬ (55296 <= c <= 57343)%Z.

(** Decoding yields scalar values and loses nothing: encoding them gives the bytes back. *)
Lemma utf8_chars_spec s l :
  utf8_chars s = Some l → join "" (encode_utf8 <$> l) = s ∧ Forall scalar l.
Proof.
  remember (String.length s) as n eqn:Hn.
  assert (String.length s <= n) as Hle by lia. clear Hn. revert s l Hle.
  induction n as [|n IH]; intros s l Hle Hs;
    (destruct s as [|a s]; [simpl in Hs; by simplify_eq|]); simpl in Hle; [lia|].
  assert (∀ k v s' l', utf8_chars s' = Some l' → String.length s' <= n →
    encode_utf8 v = k → scalar v → k +:+ s' = String a s → l = v :: l' →
    join "" (encode_utf8 <$> l) = String a s ∧ Forall scalar l) as Hstep.
  { intros k v s' l' Hs' Hl <- Hv <- ->. destruct (IH _ _ Hl Hs') as [IH1 IH2].
    rewrite fmap_cons, join_nil_cons, IH1. split; [done|]. by constructor. }
  simpl in Hs.
  destruct (byte_between 0 127 a) eqn:E1.
  { apply fmap_Some in Hs as (l' & Hs & ->).
    eapply (Hstep (String a "") (byte_val a) s l'); eauto using encode1; [lia|].
    apply byte_between_true in E1. unfold scalar. lia. }
  destruct (byte_between 194 223 a) eqn:E2.
  { destruct s as [|b s]; [done|]. destruct (is_cont b) eqn:Eb; [|done].
    apply fmap_Some in Hs as (l' & Hs & ->). simpl in Hle.
    eapply (Hstep (String a (String b ""))); eauto using encode2; [lia|].
    apply byte_between_true in E2. apply is_cont_true in Eb. unfold scalar, cont_val. lia. }
  destruct (byte_between 224 239 a) eqn:E3.
  { destruct s as [|b [|c s]]; [done..|].
    destruct (is_cont b) eqn:Eb; [|done]. destruct (is_cont c) eqn:Ec; [|done].
    match type of Hs with (if ?c then _ else _) = _ => destruct c eqn:Ev end; [|done].
    apply fmap_Some in Hs as (l' & Hs & ->). simpl in Hle, Ev.
    apply andb_true_iff in Ev as [Ev1%Z.leb_le Ev2].
    eapply (Hstep (String a (String b (String c "")))); eauto using encode3; [lia|].
    apply byte_between_true in E3. apply is_cont_true in Eb, Ec. unfold scalar, cont_val in *.
    apply negb_true_iff, andb_false_iff in Ev2. rewrite !Z.leb_gt in Ev2. lia. }
  destruct (byte_between 240 244 a) eqn:E4; [|done].
  destruct s as [|b [|c [|d s]]]; [done..|].
  destruct (is_cont b) eqn:Eb; [|done]. destruct (is_cont c) eqn:Ec; [|done].
  destruct (is_cont d) eqn:Ed; [|done].
  match type of Hs with (if ?c then _ else _) = _ => destruct c eqn:Ev end; [|done].
  apply fmap_Some in Hs as (l' & Hs & ->). simpl in Hle, Ev.
  apply andb_true_iff in Ev as [Ev1%Z.leb_le Ev2%Z.leb_le].
  eapply (Hstep (String a (String b (String c (String d ""))))); eauto using encode4; [lia|].
  unfold scalar, cont_val in *. lia.
Qed.
Definition utf8_valid (s : string) : bool := is_some (utf8_chars s).
Lemma chars_inj s s' :
  utf8_valid s = true → utf8_valid s' = true → chars s = chars s' → s = s'.
Proof.
  unfold utf8_valid, chars. destruct (utf8_chars s) as [l|] eqn:E; [|done].
  destruct (utf8_chars s') as [l'|] eqn:E'; [|done]. simpl. intros _ _ ->.
  apply utf8_chars_spec in E as [<- _]. by apply utf8_chars_spec in E' as [<- _].
Qed.

(** ** Strings are uniquely decodable *)

Definition hex_val (a : ascii) : Z :=
  if byte_between 48 57 a then byte_val a - 48 else byte_val a - 87.
Definition unhex4 (s : string) : option (Z * string) :=
  match s with
  | String a (String b (String c (String d s))) =>
      Some (hex_val a * 4096 + hex_val b * 256 + hex_val c * 16 + hex_val d, s)%Z
  | _ => None
  end.
(** The first character of an escaped string and what follows it. *)
Definition unescape1 (s : string) : option (Z * string) :=
  match s with
  | String a s1 =>
      if Ascii.eqb a backslash then
        match s1 with
        | String b s2 =>
            if Ascii.eqb b "n" then Some (10%Z, s2) else if Ascii.eqb b "r" then Some (13%Z, s2)
            else if Ascii.eqb b "t" then Some (9%Z, s2) else if Ascii.eqb b "b" then Some (8%Z, s2)
            else if Ascii.eqb b "f" then Some (12%Z, s2)
            else if Ascii.eqb b "u" then
              '(u, s3) ← unhex4 s2;
              if (55296 <=? u)%Z && (u <=? 56319)%Z then
                match s3 with
                | String _ (String _ s4) =>
                    '(w, s5) ← unhex4 s4;
                    Some (65536 + (u - 55296) * 1024 + (w - 56320), s5)%Z
                | _ => None
                end
              else Some (u, s3)
            else Some (byte_val b, s2)
        | "" => None
        end
      else Some (byte_val a, s1)
  | "" => None
  end.

Lemma hex_val_digit d : (0 <= d < 16)%Z → hex_val (hex_digit d) = d.
Proof.
  intros Hd. unfold hex_val, hex_digit. destruct (Z.ltb_spec d 10).
  - assert (byte_between 48 57 (byte_of (48 + d)) = true) as ->.
    { apply byte_between_true. rewrite byte_val_of; lia. }
    rewrite byte_val_of; lia.
  - assert (byte_between 48 57 (byte_of (87 + d)) = false) as ->.
    { apply byte_between_false. rewrite byte_val_of; lia. }
    rewrite byte_val_of; lia.
Qed.
Lemma unhex4_escape u r :
  (0 <= u < 65536)%Z →
  unicode_escape u +:+ r = String "\" (String "u" (String (hex_digit (u / 4096))
    (String (hex_digit (u / 256 mod 16)) (String (hex_digit (u / 16 mod 16))
      (String (hex_digit (u mod 16)) r))))) ∧
  unhex4 (String (hex_digit (u / 4096)) (String (hex_digit (u / 256 mod 16))
    (String (hex_digit (u / 16 mod 16)) (String (hex_digit (u mod 16)) r)))) = Some (u, r).
Proof.
  intros Hu. split; [done|]. unfold unhex4. rewrite !hex_val_digit by div_lia.
  do 2 f_equal. div_lia.
Qed.

Lemma unescape1_escape c r : scalar c → unescape1 (escape_char c +:+ r) = Some (c, r).
Proof.
  intros [Hc Hs]. unfold escape_char.
  repeat match goal with
  | |- context [(c =? ?k)%Z] => destruct (Z.eqb_spec c k) as [->|]; [reflexivity|]
  end.
  destruct ((32 <=? c)%Z && (c <=? 126)%Z) eqn:Ep.
  { apply andb_true_iff in Ep as [?%Z.leb_le ?%Z.leb_le]. rewrite str_app_cons.
    unfold unescape1. destruct (Ascii.eqb_spec (byte_of c) backslash) as [Hb|].
    - apply (f_equal byte_val) in Hb. rewrite byte_val_of in Hb by lia. done.
    - by rewrite byte_val_of by lia. }
  clear Ep. unfold encode_utf16. destruct (Z.ltb_spec c 65536).
  - rewrite fmap_cons, join_nil_cons. simpl (join "" (_ <$> [])). rewrite str_app_nil_r.
    destruct (unhex4_escape c r) as [-> Hx]; [lia|]. unfold unescape1.
    change (Ascii.eqb "\" backslash) with true. cbv iota. change (Ascii.eqb "u" "u") with true.
    repeat match goal with |- context [Ascii.eqb "u" ?k] =>
      change (Ascii.eqb "u" k) with false end. cbv iota. rewrite Hx. simpl.
    assert ((55296 <=? c)%Z && (c <=? 56319)%Z = false) as ->; [|done].
    apply andb_false_iff. rewrite !Z.leb_gt. lia.
  - set (hi := (55296 + (c - 65536) / 1024)%Z). set (lo := (56320 + (c - 65536) mod 1024)%Z).
    assert (55296 <= hi <= 56319)%Z by (unfold hi; div_lia).
    assert (0 <= lo < 65536)%Z by (unfold lo; div_lia).
    rewrite !fmap_cons, !join_nil_cons. simpl (join "" (_ <$> [])).
    rewrite str_app_nil_r, str_app_assoc.
    destruct (unhex4_escape hi (unicode_escape lo +:+ r)) as [-> Hx]; [lia|].
    destruct (unhex4_escape lo r) as [Ey Hy]; [lia|]. rewrite Ey in Hx |- *.
    unfold unescape1.
    change (Ascii.eqb "\" backslash) with true. cbv iota. change (Ascii.eqb "u" "u") with true.
    repeat match goal with |- context [Ascii.eqb "u" ?k] =>
      change (Ascii.eqb "u" k) with false end. cbv iota. rewrite Hx. simpl.
    assert ((55296 <=? hi)%Z && (hi <=? 56319)%Z = true) as ->.
    { rewrite andb_true_iff, !Z.leb_le. lia. }
    unfold unhex4 in Hy. injection Hy as Hy. simpl. rewrite Hy. do 2 f_equal. unfold hi, lo. div_lia.
Qed.
Lemma escape_char_head c : scalar c → ∃ a t, escape_char c = String a t ∧ a ≠ quote.
Proof.
  intros [Hc Hs]. unfold escape_char.
  repeat match goal with
  | |- context [if (c =? ?k)%Z then _ else _] =>
      destruct (Z.eqb_spec c k); [by do 2 eexists|]
  end.
  destruct ((32 <=? c)%Z && (c <=? 126)%Z) eqn:Ep.
  - apply andb_true_iff in Ep as [?%Z.leb_le ?%Z.leb_le]. do 2 eexists. split; [done|].
    intros Hb%(f_equal byte_val). rewrite byte_val_of in Hb by lia. by apply n.
  - unfold encode_utf16. destruct (c <? 65536)%Z; by do 2 eexists.
Qed.
Lemma escaped_inj l l' r r' :
  Forall scalar l → Forall scalar l' →
  join "" (escape_char <$> l) +:+ String quote r =
  join "" (escape_char <$> l') +:+ String quote r' → l = l' ∧ r = r'.
Proof.
  intros Hl. revert l'. induction Hl as [|c l Hc Hl IH]; intros l' Hl'.
  - destruct Hl' as [|c' l' Hc' Hl']; [by intros [= ->]|].
    destruct (escape_char_head c' Hc') as (a & t & E & Ha).
    rewrite fmap_cons, join_nil_cons, E. intros [= <-]. done.
  - destruct Hl' as [|c' l' Hc' Hl'].
    + destruct (escape_char_head c Hc) as (a & t & E & Ha).
      rewrite fmap_cons, join_nil_cons, E. intros [= ->]. done.
    + rewrite !fmap_cons, !join_nil_cons, !str_app_assoc.
      intros H%(f_equal unescape1). rewrite !unescape1_escape in H by done.
      injection H as -> H. destruct (IH l') as [-> ->]; done.
Qed.
Lemma chars_scalar s : Forall scalar (chars s).
Proof.
  unfold chars. destruct (utf8_chars s) eqn:E; [|by constructor].
  by apply utf8_chars_spec in E as [_ ?].
Qed.
Lemma json_string_inj s s' r r' :
  utf8_valid s = true → utf8_valid s' = true →
  json_string s +:+ r = json_string s' +:+ r' → s = s' ∧ r = r'.
Proof.
  intros Hs Hs'. unfold json_string. rewrite !str_app_cons, !str_app_assoc. intros [= H].
  apply escaped_inj in H as [H ->]; [|apply chars_scalar..].
  split; [by apply chars_inj|done].
Qed.

(** ** The writer is injective *)

(** What may follow a value in canonical text, a line break of a header line included. *)
Definition delim (r : string) : Prop :=
  match r with
  | "" => True
  | String a _ => a = ","%char ∨ a = "]"%char ∨ a = "}"%char ∨ a = "010"%char
  end.
Definition no_digit_head (r : string) : Prop :=
  match r with "" => True | String a _ => is_ascii_digit a = false end.
Lemma delim_no_digit r : delim r → no_digit_head r.
Proof. destruct r as [|a r]; [done|]. by intros [->|[->|[->| ->]]]. Qed.

Lemma digits_span a b r r' :
  all_bytes is_ascii_digit a = true → all_bytes is_ascii_digit b = true →
  no_digit_head r → no_digit_head r' → a +:+ r = b +:+ r' → a = b ∧ r = r'.
Proof.
  revert b. induction a as [|x a IH]; intros [|y b] Ha Hb Hr Hr'; simpl in Ha, Hb; inv_ok.
  - done.
  - rewrite str_app_nil_l, str_app_cons. intros ->. simpl in Hr. congruence.
  - rewrite str_app_nil_l, str_app_cons. intros <-. simpl in Hr'. congruence.
  - rewrite !str_app_cons. intros [= -> H']. destruct (IH b) as [-> ->]; done.
Qed.
Lemma digits_head fuel n acc : ∃ a t, digits fuel n acc = String a t ∧ is_ascii_digit a = true.
Proof.
  revert n acc. induction fuel as [|fuel IH]; intros n acc; simpl.
  all: assert (is_ascii_digit (digit (n mod 10)) = true) by (apply digit_is_digit; div_lia).
  - by do 2 eexists.
  - destruct (n <? 10)%Z; [by do 2 eexists|apply IH].
Qed.
Lemma dec_head n : ∃ a t, dec n = String a t ∧ is_ascii_digit a = true.
Proof. apply digits_head. Qed.
Lemma sdec_inj z z' r r' :
  delim r → delim r' → sdec z +:+ r = sdec z' +:+ r' → z = z' ∧ r = r'.
Proof.
  intros Hr%delim_no_digit Hr'%delim_no_digit. unfold sdec.
  destruct (dec_head z) as (a & t & Ez & Ha), (dec_head z') as (a' & t' & Ez' & Ha').
  destruct (Z.ltb_spec z 0), (Z.ltb_spec z' 0); rewrite ?str_app_cons, ?str_app_nil_l.
  - intros [= H']. apply digits_span in H' as [H' ->]; try apply dec_all_digit; try done.
    apply dec_inj in H'; [|lia..]. split; [lia|done].
  - rewrite Ez'. intros [= <-]. done.
  - rewrite Ez. intros [= ->]. done.
  - intros H'. apply digits_span in H' as [H' ->]; try apply dec_all_digit; try done.
    apply dec_inj in H'; [|lia..]. done.
Qed.

Lemma write_str s : write (JString s) = Ok (json_string s).
Proof. done. Qed.
Lemma write_int z : write (JInt z) = Ok (sdec z).
Proof. done. Qed.
Lemma write_array l :
  write (JArray l) = ts ← collect write l; Ok ("[" +:+ join "," ts +:+ "]").
Proof.
  simpl. f_equal. induction l as [|x l IH]; simpl; [done|].
  destruct (write x); simpl; [|done]. by rewrite IH.
Qed.
Lemma write_object m :
  write (JObject m) =
    kts ← collect (λ kx, pair kx.1 <$> write kx.2) m;
    Ok ("{" +:+ join "," ((λ kt : string * string, json_string kt.1 +:+ ":" +:+ kt.2) <$>
                          sort_by (λ a b, cle a.1 b.1) kts) +:+ "}").
Proof.
  simpl. f_equal.
  induction m as [|[k x] m IH]; simpl; [done|]. destruct (write x); simpl; [|done].
  by rewrite IH.
Qed.

(** Values as [serde_json] builds them: strings are UTF-8, object keys strictly increase. *)
Inductive jwf : json → Prop :=
| jwf_null : jwf JNull
| jwf_bool b : jwf (JBool b)
| jwf_int z : jwf (JInt z)
| jwf_float f : jwf (JFloat f)
| jwf_string s : utf8_valid s = true → jwf (JString s)
| jwf_array l : Forall jwf l → jwf (JArray l)
| jwf_object m :
    StronglySorted (λ a b, clt a.1 b.1 = true) m →
    Forall (λ kv, utf8_valid kv.1 = true ∧ jwf kv.2) m → jwf (JObject m).

(** The text of one member of an object, and of all of them in order. *)
Definition member (kt : string * string) : string := json_string kt.1 +:+ ":" +:+ kt.2.
Lemma write_object_sorted m :
  StronglySorted (λ a b, clt a.1 b.1 = true) m →
  write (JObject m) =
    kts ← collect (λ kx, pair kx.1 <$> write kx.2) m;
    Ok ("{" +:+ join "," (member <$> kts) +:+ "}").
Proof.
  intros Hm. rewrite write_object.
  destruct (collect _ m) as [kts|e] eqn:E; [|done]. simpl.
  rewrite sort_by_id; [done|]. apply collect_ok in E.
  assert (Forall2 (λ (kx : string * json) (kt : string * string), kx.1 = kt.1) m kts) as Hk.
  { eapply Forall2_impl; [done|]. intros [k x] [k' t]; simpl.
    destruct (write x); simpl; congruence. }
  clear E. induction Hk as [|[k x] [k' t] m kts Hkt Hk IH]; [constructor|].
  simpl in Hkt. subst k'. inversion Hm as [|?? Hm' Hx]; subst.
  constructor; [by apply IH|]. clear IH Hm Hm'.
  induction Hk as [|[k1 x1] [k2 t2] m kts Hkt Hk IH]; constructor.
  - simpl in *. subst k2. apply Forall_cons in Hx as [Hx _]. simpl in Hx.
    apply clt_cmp in Hx. unfold cle. by rewrite Hx.
  - apply IH. by apply Forall_cons in Hx as [_ ?].
Qed.

(** Texts of list items separated by commas, closed by [close]. *)
Lemma items_inj {A} (P : A → string → Prop) (close : ascii) (l l' : list A) ts ts' r r' :
  close = "]"%char ∨ close = "}"%char →
  (∀ x t, P x t → ∃ a t', t = String a t' ∧ a ≠ close ∧ a ≠ ","%char) →
  Forall (λ x, ∀ x' t t' r r', P x t → P x' t' → delim r → delim r' →
               t +:+ r = t' +:+ r' → x = x' ∧ r = r') l →
  Forall2 P l ts → Forall2 P l' ts' →
  join "," ts +:+ String close r = join "," ts' +:+ String close r' → l = l' ∧ r = r'.
Proof.
  intros Hclose Hhead Hinj Hl. revert l' ts'.
  assert (∀ s, delim (String close s)) as Hdc by (intros; simpl; tauto).
  assert (∀ s, delim (String "," s)) as Hdd by (intros; simpl; tauto).
  assert (close ≠ ","%char) as Hne by naive_solver congruence.
  induction Hl as [|x t l ts Hx Hl IH]; intros l' ts' Hl'; destruct Hl' as [|x' t' l' ts' Hx' Hl'].
  - by intros [= ->].
  - destruct (Hhead _ _ Hx') as (a & s & -> & ? & ?).
    destruct ts'; intros [= ]; congruence.
  - destruct (Hhead _ _ Hx) as (a & s & -> & ? & ?).
    destruct ts; intros [= ]; congruence.
  - apply Forall_cons in Hinj as [Hxinj Hinj].
    destruct Hl as [|y u l ts Hy Hl], Hl' as [|y' u' l' ts' Hy' Hl'].
    + simpl. intros H'. destruct (Hxinj x' t t' _ _ Hx Hx' (Hdc _) (Hdc _) H') as [-> [= ->]]; done.
    + simpl. rewrite !str_app_assoc, !str_app_cons, str_app_nil_l. intros H'.
      destruct (Hxinj x' t t' _ _ Hx Hx' (Hdc _) (Hdd _) H') as [_ ?]. congruence.
    + simpl. rewrite !str_app_assoc, !str_app_cons, str_app_nil_l. intros H'.
      destruct (Hxinj x' t t' _ _ Hx Hx' (Hdd _) (Hdc _) H') as [_ ?]. congruence.
    + cbn [join]. rewrite !str_app_assoc, !str_app_cons, str_app_nil_l. intros H'.
      destruct (Hxinj x' t t' _ _ Hx Hx' (Hdd _) (Hdd _) H') as [-> [= H'']].
      destruct (IH Hinj (y' :: l') (u' :: ts')) as [-> ->]; [by constructor| |done].
      exact H''.
Qed.

(** The first byte of a written value tells its kind and is never a delimiter. *)
Definition kind_of (v : json) : Z :=
  match v with
  | JNull => 0 | JBool true => 1 | JBool false => 2 | JInt _ => 3 | JFloat _ => 4
  | JString _ => 5 | JArray _ => 6 | JObject _ => 7
  end.
Definition head_kind (a : ascii) : Z :=
  if Ascii.eqb a "n" then 0 else if Ascii.eqb a "t" then 1 else if Ascii.eqb a "f" then 2
  else if is_ascii_digit a || Ascii.eqb a "-" then 3 else if Ascii.eqb a quote then 5
  else if Ascii.eqb a "[" then 6 else if Ascii.eqb a "{" then 7 else 8.
Lemma digit_head_kind a : is_ascii_digit a = true → head_kind a = 3%Z.
Proof.
  intros Ha. unfold head_kind. rewrite Ha. simpl.
  destruct (Ascii.eqb_spec a "n") as [->|]; [done|].
  destruct (Ascii.eqb_spec a "t") as [->|]; [done|].
  by destruct (Ascii.eqb_spec a "f") as [->|].
Qed.
Lemma write_head v t : write v = Ok t → ∃ a t', t = String a t' ∧ head_kind a = kind_of v.
Proof.
  destruct v as [|[]|z| | |l|m]; intros H; try (simpl in H; simplify_eq; by do 2 eexists).
  - simpl in H. simplify_eq. unfold sdec. destruct (z <? 0)%Z; [by do 2 eexists|].
    destruct (dec_head z) as (a & t & -> & Ha). exists a, t. split; [done|].
    by apply digit_head_kind.
  - rewrite write_array in H. inv_ok. by do 2 eexists.
  - rewrite write_object in H. inv_ok. by do 2 eexists.
Qed.
Lemma write_head_close v t a s :
  write v = Ok t → t = String a s → a ≠ "]"%char ∧ a ≠ "}"%char ∧ a ≠ ","%char.
Proof.
  intros (a' & t' & -> & Hk)%write_head [= -> ->].
  repeat split; intros ->; by destruct v as [|[]| | | | |].
Qed.

(** Appended to a delimiter-led rest, a written value is recovered uniquely. *)
Lemma write_inj_rest v v' t t' r r' :
  jwf v → jwf v' → write v = Ok t → write v' = Ok t' → delim r → delim r' →
  t +:+ r = t' +:+ r' → v = v' ∧ r = r'.
Proof.
  revert v' t t' r r'. induction v as [|b|z|f|s|l IH|m IH] using json_ind';
    intros v' t t' r r' Hwf Hwf' Ht Ht' Hr Hr' Heq.
  all: destruct (write_head _ _ Ht) as (a & u & Ea & Ka), (write_head _ _ Ht') as (a' & u' & Ea' & Ka').
  all: assert (a = a') as <- by (subst t t'; rewrite !str_app_cons in Heq; congruence).
  all: rewrite Ka in Ka'; clear Ka Ea Ea'.
  all: destruct v' as [|b'|z'|f'|s'|l'|m'];
    try (exfalso; by repeat match goal with b : bool |- _ => destruct b end).
  - simpl in *. by simplify_eq.
  - destruct b, b'; try done; simpl in *; by simplify_eq.
  - simpl in *. simplify_eq. apply sdec_inj in Heq as [-> ->]; done.
  - injection Ht as <-. injection Ht' as <-. inversion Hwf; inversion Hwf'; subst.
    destruct (json_string_inj s s' r r') as [-> ->]; done.
  - rewrite write_array in Ht, Ht'. inv_ok.
    rewrite !str_app_assoc, !str_app_cons, !str_app_nil_l in Heq.
    inversion Hwf as [| | | | |? Hl|]; inversion Hwf' as [| | | | |? Hl'|]; subst.
    rewrite Forall_forall in IH, Hl, Hl'.
    repeat match goal with H : collect _ _ = Ok _ |- _ => apply collect_ok in H end.
    destruct (items_inj (λ x t, jwf x ∧ write x = Ok t) "]" l l' x0 x r r') as [-> ->];
      [by left|..|done|done].
    + intros y t [_ Hy]. destruct (write_head _ _ Hy) as (a0 & t0 & -> & _).
      destruct (write_head_close _ _ _ _ Hy eq_refl) as (? & ? & ?). eauto 6.
    + apply Forall_forall. intros y Hy y' t t' s s' [??] [??]. eauto.
    + eapply Forall2_impl_elem; [done|]. naive_solver.
    + eapply Forall2_impl_elem; [done|]. naive_solver.
  - inversion Hwf as [| | | | | |? Hs Hm]; inversion Hwf' as [| | | | | |? Hs' Hm']; subst.
    rewrite write_object_sorted in Ht, Ht' by done. inv_ok.
    rewrite !str_app_assoc, !str_app_cons, !str_app_nil_l in Heq.
    rewrite Forall_forall in IH, Hm, Hm'.
    repeat match goal with H : collect _ _ = Ok _ |- _ => apply collect_ok in H end.
    destruct (items_inj (λ kx t, (utf8_valid kx.1 = true ∧ jwf kx.2) ∧
        ∃ u, write kx.2 = Ok u ∧ t = member (kx.1, u)) "}" m m' (member <$> x0)
        (member <$> x) r r') as [-> ->]; [by right|..|done|done].
    + intros [k y] t (_ & u0 & _ & ->). by do 2 eexists.
    + apply Forall_forall. intros [k y] Hy [k' y'] t t' s s'
        ([? ?] & w & ? & ->) ([? ?] & w' & ? & ->) ?? Heq'. simpl in *.
      unfold member in Heq'. simpl in Heq'. rewrite !str_app_assoc in Heq'.
      apply json_string_inj in Heq' as [-> Heq']; [|done..].
      rewrite !str_app_cons, !str_app_nil_l in Heq'. injection Heq' as Heq'.
      pose proof (IH (k', y) Hy y' w w' s s') as IHy. simpl in IHy. naive_solver.
    + apply Forall2_fmap_r. eapply Forall2_impl_elem; [done|].
      intros [k y] [k' u0] Hin Hw; simpl in *. destruct (write y) as [w|] eqn:Ew; [|done].
      simpl in Hw. simplify_eq. split; [by apply (Hm (k', y))|eauto].
    + apply Forall2_fmap_r. eapply Forall2_impl_elem; [done|].
      intros [k y] [k' u0] Hin Hw; simpl in *. destruct (write y) as [w|] eqn:Ew; [|done].
      simpl in Hw. simplify_eq. split; [by apply (Hm' (k', y))|eauto].
Qed.

Lemma canonical_inj v v' t :
  jwf v → jwf v' → canonical v = Ok t → canonical v' = Ok t → v = v'.
Proof.
  intros Hv Hv' Ht Ht'. destruct (write_inj_rest v v' t t "" ""); done.
Qed.

(** What the derived serializers write is well formed. *)
Lemma jwf_ser_struct l :
  NoDup l.*1 →
  Forall (λ kv, match kv.2 with Some v => utf8_valid kv.1 = true ∧ jwf v | None => True end) l →
  jwf (ser_struct l).
Proof.
  intros Hnd Hl. set (k := omap (λ kv : string * option json, pair kv.1 <$> kv.2) l).
  constructor.
  - apply (sorted_strict fst).
    + apply (sort_by_sorted _ (λ _, True)); [intros; apply cle_total|intros; by eapply cle_trans|].
      by apply Forall_true.
    + rewrite sort_by_perm. eapply sublist_NoDup; [done|apply present_keys].
  - rewrite sort_by_perm. apply Forall_forall. intros [x v] Hx.
    apply list_elem_of_omap in Hx as ([y [w|]] & Hy & Hw); simplify_eq/=.
    by apply (proj1 (Forall_forall _ _) Hl _ Hy).
Qed.
Lemma jwf_ser_map {A} (e : A → json) (m : gmap string A) :
  (∀ k a, m !! k = Some a → utf8_valid k = true ∧ jwf (e a)) → jwf (ser_map e m).
Proof.
  intros Hm. constructor.
  - pose proof (entries_strict m) as Hs. induction Hs as [|a l Hs IH Hf]; csimpl; constructor.
    + apply IH.
    + rewrite Forall_fmap. by eapply Forall_impl.
  - rewrite Forall_fmap. apply Forall_forall. intros [k a] Hk%elem_of_entries. by apply Hm.
Qed.
Lemma write_ser_map {A} (e : A → json) (w : A → string) (m : gmap string A) :
  (∀ k a, m !! k = Some a → write (e a) = Ok (w a)) →
  write (ser_map e m) =
    Ok ("{" +:+ join "," ((λ ka, json_string ka.1 +:+ ":" +:+ w ka.2) <$> entries m) +:+ "}").
Proof.
  intros Hm. unfold ser_map. rewrite write_object_sorted.
  - replace (collect _ _) with (Ok (prod_map id w <$> entries m)).
    { simpl. by rewrite <-list_fmap_compose. }
    symmetry. apply collect_ok. rewrite Forall2_fmap. apply Forall2_same_length_lookup_2; [done|].
    intros i [k a] ? Ha Hb. rewrite Ha in Hb. injection Hb as <-. simpl.
    rewrite (Hm k a); [done|]. apply elem_of_entries. by eapply list_elem_of_lookup_2.
  - pose proof (entries_strict m) as Hs. induction Hs as [|a l Hs IH Hf]; csimpl; constructor.
    + apply IH.
    + rewrite Forall_fmap. by eapply Forall_impl.
Qed.

(** No fractional number occurs at any depth. *)
Fixpoint no_float (v : json) : bool :=
  match v with
  | JFloat _ => false
  | JArray l => forallb no_float l
  | JObject m => forallb (λ kv, no_float kv.2) m
  | _ => true
  end.
Lemma write_total v : is_ok (write v) = no_float v.
Proof.
  induction v as [| | | | |l IH|m IH] using json_ind'; try done.
  - rewrite write_array. cbn [no_float]. induction IH as [|x l Hx _ IHl]; [done|]. simpl.
    rewrite <-Hx. destruct (write x); simpl; [|done]. rewrite <-IHl. by destruct (collect write l).
  - rewrite write_object. cbn [no_float]. induction IH as [|[k x] m Hx _ IHm]; [done|]. simpl in *.
    rewrite <-Hx. destruct (write x); simpl; [|done]. rewrite <-IHm. by destruct (collect _ m).
Qed.

(** C34. Canonical JSON determines its value: it fails exactly on values with a fractional number at
    some depth, and two well-formed values with the same canonical bytes are the same value, so a
    signature or a digest over the bytes is one over the value. *)
Theorem canonical_injective v :
  is_ok (canonical v) = no_float v ∧
  ∀ v' t, jwf v → jwf v' → canonical v = Ok t → canonical v' = Ok t → v = v'.
Proof. split; [apply write_total|]. intros v' t. apply canonical_inj. Qed.
Lemma canonical_injective_witness :
  JArray [JString "a"; JInt (-3)] = JArray [JString "a"; JInt (-3)].
Proof.
  apply (proj2 (canonical_injective _) _ (String "[" (json_string "a" +:+ ",-3]")));
    [repeat constructor|repeat constructor|by vm_compute|by vm_compute].
Defined.
