(* ===== verification/Extern.v ===== *)
(** Interfaces of the third-party code the repository calls: UUIDs, signatures, encryption,
    digests, the text encodings and JSON text. Each is a class of operations; what the
    repository relies on is a second class of laws, or a hypothesis of the one theorem that
    needs it. An instance of every class closes the file, so that the definitions compute on
    concrete inputs. *)

From S2P Require Import Prelude Strs Json.

(** ** The crate [uuid] *)

Class Uuid := {
  uuid : Type;
  (** [Uuid::parse_str]. *)
  uuid_parse : string → option uuid;
  (** [u.to_string()] and [u.hyphenated().to_string()]. *)
  uuid_text : uuid → string;
  (** [u.get_version_num()]. *)
  uuid_version : uuid → Z }.

Definition uuid_byte (a : ascii) : bool := is_lower_hex a || Ascii.eqb "-" a.

(** The hyphenated form has 36 lowercase hexadecimal digits and hyphens, and is read back. *)
Class UuidSpec (U : Uuid) : Prop := {
  uuid_text_len u : String.length (uuid_text u) = 36;
  uuid_text_bytes u : all_bytes uuid_byte (uuid_text u) = true;
  uuid_parse_text u : uuid_parse (uuid_text u) = Some u }.

(** ** The crates [base64] and [hex] *)

Class Encodings := {
  base64_encode : string → string;
  base64_decode : string → option string;
  hex_encode : string → string;
  hex_decode : string → option string }.

Class EncodingsSpec (E : Encodings) : Prop := {
  base64_decode_encode b : base64_decode (base64_encode b) = Some b;
  hex_decode_encode b : hex_decode (hex_encode b) = Some b;
  hex_encode_len b : String.length (hex_encode b) = 2 * String.length b;
  hex_encode_bytes b : all_bytes is_lower_hex (hex_encode b) = true }.

(** ** The crates [ed25519_dalek], [age] and [sha2] *)

Class Crypto := {
  SigningKey : Type;
  VerifyingKey : Type;
  (** [SigningKey::verifying_key]. *)
  verifying_key : SigningKey → VerifyingKey;
  (** [key.sign(data).to_bytes()]. *)
  ed_sign : SigningKey → string → string;
  (** [key.verify(data, &Signature::from_slice(sig)?)] succeeds. *)
  ed_verify : VerifyingKey → string → string → bool;
  (** [VerifyingKey::from_bytes]. *)
  verifying_key_from : string → option VerifyingKey;
  (** [Recipient::from_str(text).is_ok()]. *)
  recipient_ok : string → bool;
  (** [age::encrypt] to a recipient; the first argument is the randomness it draws. *)
  age_encrypt : string → string → string → string;
  (** [age::decrypt] with an identity. *)
  age_decrypt : string → string → option string;
  (** [Sha256::digest]. *)
  sha256 : string → string }.

Class CryptoSpec (C : Crypto) : Prop := {
  ed_sign_len k d : String.length (ed_sign k d) = 64;
  ed_verify_sign k d : ed_verify (verifying_key k) d (ed_sign k d) = true;
  sha256_len d : String.length (sha256 d) = 32 }.

(** [similar::DiffOp]: a step of a line diff, with the ranges of lines it covers. *)
Inductive DiffOp :=
| Equal (old_index new_index len : nat)
| Delete (old_index old_len new_index : nat)
| Insert (old_index new_index new_len : nat)
| Replace (old_index old_len new_index new_len : nat).
(** [similar::TextDiff::from_lines(old, new).unified_diff().header(a, b).to_string()]. *)
Class TextDiff := unified_diff : string → string → string → string → string.

(** Keys as bytes and as text ([ed25519_dalek], [age], [hmac], [bech32]). *)
Class KeyText (C : Crypto) := {
  (** [VerifyingKey::to_bytes]. *)
  verifying_key_bytes : VerifyingKey → string;
  (** [SigningKey::from_bytes]. *)
  signing_key_from : string → SigningKey;
  (** [Identity::from_str(text)] and [to_public().to_string()]. *)
  identity_recipient : string → option string;
  (** [Hmac<Sha256>] of a key and data. *)
  hmac_sha256 : string → string → string;
  (** [bech32::decode]: the prefix and the data. *)
  bech32_decode : string → option (string * string) }.

Class KeyTextSpec (C : Crypto) (K : KeyText C) : Prop := {
  verifying_key_bytes_from b k : verifying_key_from b = Some k → verifying_key_bytes k = b;
  hmac_len k d : String.length (hmac_sha256 k d) = 32 }.

(** ** The crate [serde_json] on text

    [json_parse] gives the members of every object in the order of the text, duplicates
    included; a typed reader sees them in this form. [json_raw] gives the members of the
    outermost object, or the items of the outermost array, with the exact text of each value,
    as [RawValue] keeps it. [json_print] is [to_string] and [to_vec]: members are printed in
    the order they have in the value. *)

Inductive raw := RawObject (m : list (string * string)) | RawArray (l : list string).

Class JsonText := {
  json_parse : string → result json;
  json_raw : string → result raw;
  json_print : json → string }.

(** A struct of raw fields; as [de_struct]. *)
Definition raw_struct (names : list string) (deny : bool) (r : raw)
    : result (list (string * string)) :=
  match r with
  | RawObject m =>
      ensure (bool_decide (NoDup (filterb (λ k, memb k names) m.*1))) "duplicate field";;
      bail_if (deny && existsb (λ kv, negb (memb kv.1 names)) m) "unknown field";;
      Ok m
  | RawArray l =>
      ensure (length l <=? length names)%nat "invalid length";;
      Ok (zip names l)
  end.

Lemma raw_struct_fields names deny m :
  NoDup m.*1 → forallb (λ k, memb k names) m.*1 = true →
  raw_struct names deny (RawObject m) = Ok m.
Proof.
  intros Hnd Hok. unfold raw_struct. rewrite bool_decide_eq_true_2 by (by apply NoDup_filterb). simpl.
  replace (existsb _ m) with false; [by rewrite andb_false_r|].
  symmetry. apply existsb_elem_false. intros kv Hkv. rewrite forallb_elem in Hok.
  rewrite Hok; [done|]. by apply list_elem_of_fmap_2.
Qed.

(** ** Unicode case mapping, [str::to_lowercase] *)
Class Unicode := to_lowercase : string → string.

(** ** Concrete instances *)

(** The shape of the hyphenated form: groups of 8, 4, 4, 4 and 12 digits. *)
Definition hyphenated (s : string) : bool :=
  all_bytes uuid_byte s &&
  (String.length <$> split "-" s == [8; 4; 4; 4; 12]).

(** UUIDs as their hyphenated texts; only that form is parsed. *)
Definition uuid_plain : Uuid := {|
  uuid := { s : string | hyphenated s = true };
  uuid_parse s :=
    match decide (hyphenated s = true) with left H => Some (exist _ s H) | right _ => None end;
  uuid_text u := proj1_sig u;
  uuid_version u := dec_val 0 (String.substring 14 1 (proj1_sig u)) |}.

Lemma split_lengths c s :
  String.length s + 1 = sum_list (S ∘ String.length <$> split c s).
Proof.
  unfold split. induction s as [|a s IH]; [done|]. simpl.
  destruct (split_go c s) as [p ps]. simpl in *. destruct (Ascii.eqb _ _); simpl in *; lia.
Qed.
Lemma hyphenated_len s : hyphenated s = true → String.length s = 36.
Proof.
  unfold hyphenated. intros [_ H%eqb_eq]%andb_true_iff.
  pose proof (split_lengths "-" s) as Hs.
  rewrite (list_fmap_compose String.length S), H in Hs. simpl in Hs. lia.
Qed.
#[export] Instance uuid_plain_spec : UuidSpec uuid_plain.
Proof.
  split.
  - intros [u Hu]. by apply hyphenated_len.
  - intros [u Hu]. simpl. by apply andb_true_iff in Hu as [? _].
  - intros [u Hu]. simpl. destruct (decide (hyphenated u = true)) as [H|]; [|done].
    do 2 f_equal. apply proof_irrel.
Qed.

Definition hex_char (d : Z) : ascii := if (d <? 10)%Z then byte_of (48 + d) else byte_of (87 + d).
Definition hex_val (a : ascii) : option Z :=
  if is_ascii_digit a then Some (byte_val a - 48)%Z
  else if byte_between 97 102 a then Some (byte_val a - 87)%Z
  else if byte_between 65 70 a then Some (byte_val a - 55)%Z else None.
Fixpoint hex_text (s : string) : string :=
  match s with
  | "" => ""
  | String a s => String (hex_char (byte_val a / 16)) (String (hex_char (byte_val a mod 16)) (hex_text s))
  end.
Fixpoint hex_bytes (s : string) : option string :=
  match s with
  | "" => Some ""
  | String a (String b s) =>
      x ← hex_val a; y ← hex_val b; r ← hex_bytes s; Some (String (byte_of (16 * x + y)) r)
  | _ => None
  end.
(** Hexadecimal text for both encodings. *)
Definition encodings_hex : Encodings := {|
  base64_encode := hex_text; base64_decode := hex_bytes;
  hex_encode := hex_text; hex_decode := hex_bytes |}.

Lemma hex_char_spec d : (0 <= d < 16)%Z → hex_val (hex_char d) = Some d ∧ is_lower_hex (hex_char d) = true.
Proof.
  intros Hd. assert (∃ n, (n < 16)%nat ∧ d = Z.of_nat n) as (n & Hn & ->).
  { exists (Z.to_nat d). lia. }
  do 16 (destruct n as [|n]; [by vm_compute|]). lia.
Qed.
Lemma hex_bytes_text s : hex_bytes (hex_text s) = Some s.
Proof.
  induction s as [|a s IH]; [done|]. cbn [hex_text hex_bytes].
  pose proof (byte_val_range a).
  rewrite (proj1 (hex_char_spec (byte_val a / 16) ltac:(div_lia))).
  rewrite (proj1 (hex_char_spec (byte_val a mod 16) ltac:(div_lia))).
  simpl. rewrite IH. simpl. do 2 f_equal. rewrite <-Z_div_mod_eq_full. apply byte_of_val.
Qed.
#[export] Instance encodings_hex_spec : EncodingsSpec encodings_hex.
Proof.
  split; simpl.
  - apply hex_bytes_text.
  - apply hex_bytes_text.
  - intros b. induction b as [|a b IH]; simpl; [done|]. rewrite IH. lia.
  - intros b. induction b as [|a b IH]; [done|]. cbn [hex_text all_bytes].
    pose proof (byte_val_range a).
    rewrite (proj2 (hex_char_spec (byte_val a / 16) ltac:(div_lia))).
    by rewrite (proj2 (hex_char_spec (byte_val a mod 16) ltac:(div_lia))).
Qed.

(** The first [n] bytes of a text, padded. *)
Fixpoint fit (n : nat) (s : string) : string :=
  match n, s with
  | 0, _ => ""
  | S n, "" => String "." (fit n "")
  | S n, String a s => String a (fit n s)
  end.
(** A transparent signature, cipher and digest: they satisfy the laws, not the secrecy. *)
Definition crypto_plain : Crypto := {|
  SigningKey := string; VerifyingKey := string; verifying_key := id;
  ed_sign k d := fit 64 (k +:+ d); ed_verify k d s := s == fit 64 (k +:+ d);
  verifying_key_from b := Some b; recipient_ok r := starts_with "age1" r;
  age_encrypt _ r d := r +:+ ":" +:+ d;
  age_decrypt i c := strip_prefix (i +:+ ":") c;
  sha256 := fit 32 |}.
Lemma fit_len n s : String.length (fit n s) = n.
Proof. revert s. induction n as [|n IH]; intros []; simpl; auto. Qed.
#[export] Instance crypto_plain_spec : CryptoSpec crypto_plain.
Proof. split; intros; [apply (fit_len 64)|apply eqb_refl|apply (fit_len 32)]. Qed.

Definition key_text_plain : KeyText crypto_plain := {|
  verifying_key_bytes := id : @VerifyingKey crypto_plain → string;
  signing_key_from := id : string → @SigningKey crypto_plain;
  identity_recipient i := if starts_with "AGE-SECRET-KEY-1" i then Some ("age1" +:+ i) else None;
  hmac_sha256 k d := fit 32 (k +:+ d);
  bech32_decode i := (λ d, ("AGE-SECRET-KEY-", d)) <$> strip_prefix "AGE-SECRET-KEY-1" i |}.
#[export] Instance key_text_plain_spec : KeyTextSpec crypto_plain key_text_plain.
Proof. split; [by intros b k [= ->]|intros; apply (fit_len 32)]. Qed.

(** JSON text known from a table. *)
Definition text_table (table : list (string * json)) (raws : list (string * raw))
    (print : json → string) : JsonText := {|
  json_parse s := ctx "expected value" (jlookup s table);
  json_raw s := ctx "expected value" (jlookup s raws);
  json_print := print |}.

(** Case mapping of the ASCII letters. *)
Fixpoint ascii_lowercase (s : string) : string :=
  match s with
  | "" => ""
  | String a s => String (if is_ascii_uppercase a then byte_of (byte_val a + 32) else a)
                         (ascii_lowercase s)
  end.
