(* ===== verification/Format.v ===== *)
(** The encrypted store's object format: names, paths, trees and their signed headers
    ([layr-store/src/format.rs], [paths.rs], [keys.rs] and [reader.rs]). *)

From S2P Require Import Prelude Strs Json Canonical Types Extern.

(** ** Paths ([std::path] on Unix, [paths.rs]) *)

Inductive Component := RootDir | CurDir | ParentDir | Normal (s : string).

(** The component of a piece between slashes; [first] is a piece that nothing precedes. *)
Definition component (first : bool) (piece : string) : option Component :=
  if is_empty piece then None
  else if piece == "." then (if first then Some CurDir else None)
  else if piece == ".." then Some ParentDir
  else Some (Normal piece).
(** [Path::components]: a leading slash is the root; empty pieces and the [.] pieces after
    the first piece are skipped. *)
Definition components (path : string) : list Component :=
  match split "/" path with
  | [] => []
  | p :: ps =>
      (if starts_with "/" path then [RootDir] else []) ++
      option_list (component true p) ++ filter_map (component false) ps
  end.
(** [Path::parent] of a path of normal components. *)
Definition parent (path : string) : option string :=
  if is_empty path then None
  else Some (match rsplit_once "/" path with Some (p, _) => p | None => "" end).
(** [p.parent()] until there is none: each parent is shorter. *)
Fixpoint parents_go (fuel : nat) (path : string) : list string :=
  match fuel, parent path with
  | S fuel, Some p => p :: parents_go fuel p
  | _, _ => []
  end.
Definition parents (path : string) : list string := parents_go (String.length path) path.

Definition check_rel (path : string) : result () :=
  if is_empty path then Ok ()
  else for_each (λ c, match c with Normal _ => Ok () | _ => Err "invalid path: {path}" end)
         (components path).

Definition safe_path (path : string) : bool :=
  negb (is_empty path) &&
  negb (any_byte (λ a, Ascii.eqb a "\" || Ascii.eqb a "000") path) &&
  negb (existsb (λ s, is_empty s || (s == ".") || (s == "..")) (split "/" path)) &&
  is_ok (check_rel path).

(** ** Names of objects *)

Section names.
Context `{Uuid}.

Definition is_uuid (s : string) : bool :=
  (str_len s =? 36)%Z &&
  match uuid_parse s with Some u => uuid_text u == s | None => false end.

Definition release_file (key : string) : bool :=
  is_some_and (s ← strip_prefix "files/" key; strip_suffix ".age" s) is_uuid.

Definition valid_attempt (attempt : string) : bool :=
  (str_len attempt =? 8)%Z && all_bytes (λ b, is_ascii_digit b || byte_between 97 102 b) attempt.

Definition tree_name (state attempt : string) : string :=
  "states/" +:+ state +:+ "/" +:+ attempt +:+ ".tree.age".
Definition data_name (state attempt : string) (part : Z) : string :=
  "states/" +:+ state +:+ "/" +:+ attempt +:+ "." +:+ dec_pad 4 part +:+ ".data.age".
Definition parse_tree_name (key : string) : option (string * string) :=
  rest ← strip_prefix "states/" key;
  '(state, rest) ← split_once "/" rest;
  attempt ← strip_suffix ".tree.age" rest;
  if is_uuid state && valid_attempt attempt then Some (state, attempt) else None.
Definition parse_data_name (key : string) : option (string * string * Z) :=
  rest ← strip_prefix "states/" key;
  '(state, rest) ← split_once "/" rest;
  rest ← strip_suffix ".data.age" rest;
  '(attempt, part) ← split_once "." rest;
  if negb (is_uuid state) || negb (valid_attempt attempt) || negb (str_len part =? 4)%Z
     || negb (all_bytes is_ascii_digit part)
  then None
  else part ← parse_uint u32_max part; Some (state, attempt, part).

Definition segment_name (machine : string) (first last : Z) : string :=
  "records/" +:+ machine +:+ "/" +:+ dec_pad 20 first +:+ "-" +:+ dec_pad 20 last +:+ ".age".
Definition parse_segment_name (key : string) : option (string * Z * Z) :=
  rest ← strip_prefix "records/" key;
  '(machine, range) ← split_once "/" rest;
  range ← strip_suffix ".age" range;
  '(first, last) ← split_once "-" range;
  if negb (is_uuid machine) || negb (str_len first =? 20)%Z || negb (str_len last =? 20)%Z
     || negb (all_bytes is_ascii_digit first) || negb (all_bytes is_ascii_digit last)
  then None
  else
    first ← parse_uint u64_max first;
    last ← parse_uint u64_max last;
    if (0 <? first)%Z && (first <=? last)%Z then Some (machine, first, last) else None.
End names.

(** ** Trees *)

Definition RELEASE_FILE_LIMIT : Z := Z.shiftl 512 20.
Definition RELEASE_OBJECT_LIMIT : Z :=
  RELEASE_FILE_LIMIT + (RELEASE_FILE_LIMIT / 65536 + 1) * 16 + 4096.
Definition MAX_FILE_DELTAS : nat := 16.
Definition MAX_PARTS : Z := 10000.

Record Link := mkLink {
  lk_state : string; lk_attempt : string; lk_part : Z; lk_start : Z; lk_len : Z;
  lk_kind : string }.
Record Entry := mkEntry {
  en_mode : string; en_size : Z; en_hash : string; en_links : list Link }.
Record Tree := mkTree { t_files : gmap string Entry }.
#[export] Instance Link_eq_dec : EqDecision Link.
Proof. solve_decision. Defined.
#[export] Instance Entry_eq_dec : EqDecision Entry.
Proof. solve_decision. Defined.
#[export] Instance Tree_eq_dec : EqDecision Tree.
Proof. solve_decision. Defined.

Definition Link_object (l : Link) : string := data_name (lk_state l) (lk_attempt l) (lk_part l).

Definition Link_to_value (l : Link) : json :=
  JArray [JString (lk_state l); JString (lk_attempt l); JInt (lk_part l); JInt (lk_start l);
          JInt (lk_len l); JString (lk_kind l)].
Definition Link_from_value (j : json) : result Link :=
  match j with
  | JArray [a; b; c; d; e; f] =>
      a ← de_string a; b ← de_string b; c ← de_u32 c; d ← de_u64 d; e ← de_u64 e;
      f ← de_string f; Ok (mkLink a b c d e f)
  | _ => Err "invalid type, expected tuple struct Link with 6 elements"
  end.
Definition Entry_to_value (e : Entry) : json :=
  JArray [JString (en_mode e); JInt (en_size e); JString (en_hash e);
          JArray (Link_to_value <$> en_links e)].
Definition Entry_from_value (j : json) : result Entry :=
  match j with
  | JArray [a; b; c; d] =>
      a ← de_string a; b ← de_u64 b; c ← de_string c; d ← de_vec Link_from_value d;
      Ok (mkEntry a b c d)
  | _ => Err "invalid type, expected tuple struct Entry with 4 elements"
  end.
Definition Tree_to_value (t : Tree) : json :=
  ser_struct [("files", Some (ser_map Entry_to_value (t_files t)))].
Definition Tree_from_value (j : json) : result Tree :=
  f ← de_struct ["files"] [] false j;
  files ← f_req (de_map Entry_from_value) f "files";
  Ok (mkTree files).

(** [Tree::canonical]: the three nested loops of the typed writer. *)
Definition write_link (l : Link) : string :=
  "[" +:+ json_string (lk_state l) +:+ "," +:+ json_string (lk_attempt l) +:+
  "," +:+ dec (lk_part l) +:+ "," +:+ dec (lk_start l) +:+ "," +:+ dec (lk_len l) +:+
  "," +:+ json_string (lk_kind l) +:+ "]".
Definition write_file (pe : string * Entry) : string :=
  json_string pe.1 +:+ ":[" +:+ json_string (en_mode pe.2) +:+ "," +:+ dec (en_size pe.2) +:+
  "," +:+ json_string (en_hash pe.2) +:+ ",[" +:+ join "," (write_link <$> en_links pe.2) +:+ "]]".
Definition Tree_canonical (t : Tree) : string :=
  "{" +:+ String quote ("files" +:+ String quote (":{" +:+
    join "," (write_file <$> entries (t_files t)) +:+ "}}")).

Section tree.
Context `{Uuid, Encodings, JsonText}.

(** The checks of one link of a chain of [n] links. *)
Definition check_link (n : nat) (il : nat * Link) : result () :=
  bail_if (negb (is_uuid (lk_state il.2)) || negb (valid_attempt (lk_attempt il.2))
           || (MAX_PARTS <=? lk_part il.2)%Z || (lk_len il.2 =? 0)%Z) "invalid frame address";;
  let expected := if (il.1 + 1 =? n)%nat then "full" else "delta" in
  bail_if (negb (lk_kind il.2 == expected)) "file chain must end with one full frame";;
  ensure (in_u64 (lk_start il.2 + lk_len il.2)) "frame range overflow".

Definition check_entry (t : Tree) (pe : string * Entry) : result () :=
  let '(path, entry) := pe in
  bail_if (negb (safe_path path)) "unsafe tree path {path:?}";;
  bail_if (negb (memb (en_mode entry) ["100644"; "100755"; "120000"])) "invalid file mode";;
  bail_if (negb (str_len (en_hash entry) =? 64)%Z || is_none (hex_decode (en_hash entry)))
    "invalid SHA-256";;
  bail_if ((length (en_links entry) =? 0)%nat || (MAX_FILE_DELTAS + 1 <? length (en_links entry))%nat)
    "invalid file chain length";;
  for_each (check_link (length (en_links entry))) (enumerate (en_links entry));;
  for_each (λ p, bail_if (is_some (t_files t !! p)) "tree path has a file parent: {path}")
    (parents path).

Definition Tree_parse (bytes : string) : result Tree :=
  j ← json_parse bytes;
  tree ← Tree_from_value j;
  bail_if (negb (Tree_canonical tree == bytes)) "noncanonical tree";;
  for_each (check_entry tree) (entries (t_files tree));;
  Ok tree.
End tree.

(** ** Signatures ([keys.rs], [record.rs]) *)

Section keys.
Context `{Encodings, Crypto, JsonText}.

Definition sign_bytes (data : string) (key : SigningKey) : string :=
  base64_encode (ed_sign key data).
Definition verify_bytes (data signature : string) (key : VerifyingKey) : result () :=
  sig ← ctx "invalid base64" (base64_decode signature);
  bail_if (negb (str_len sig =? 64)%Z) "bad signature: {e}";;
  ensure (ed_verify key data sig) "signature does not verify".
Definition valid_recipient (recipient : string) : bool := recipient_ok recipient.
Definition encrypt (coin recipient data : string) : result string :=
  ensure (recipient_ok (str_trim recipient)) "not an age recipient: {e}";;
  Ok (age_encrypt coin (str_trim recipient) data).
Definition decrypt (identity data : string) : result string :=
  ctx "cannot decrypt" (age_decrypt (str_trim identity) data).

(** The fields [r] and [s] of a record line; [r] keeps its exact text. *)
Definition parse_bytes (line : string) (key : option VerifyingKey) : result string :=
  m ← (j ← json_raw line; raw_struct ["r"; "s"] false j);
  r ← ctx "missing field `r`" (jlookup "r" m);
  s ← ctx "missing field `s`" (jlookup "s" m);
  s ← (j ← json_parse s; de_string j);
  match key with
  | Some key => verify_bytes r s key
  | None => Ok ()
  end;;
  Ok r.
Definition verify_line (line : string) (key : VerifyingKey) : result string :=
  parse_bytes line (Some key).
Definition machine_key (record : string) : result VerifyingKey :=
  record ← json_parse record;
  text ← ctx "machine record without key" (as_str (value_of record).["data"].["public_key"]);
  bytes ← ctx "invalid hex" (hex_decode text);
  bail_if (negb (str_len bytes =? 32)%Z) "bad key length";;
  ctx "bad key" (verifying_key_from bytes).
End keys.

(** ** Tree headers *)

Definition DOMAIN : string := "layr/store/v2/tree" +:+ String "000" "".

Record BtrfsIdentity := mkBtrfs { bt_uuid : string; bt_transid : Z }.
Record Header := mkHeader {
  h_v : Z; h_state : string; h_attempt : string; h_tree : string;
  h_base : option (string * string); h_parts : Z; h_machine : string;
  h_btrfs : option BtrfsIdentity; h_sig : string }.

Definition BtrfsIdentity_to_value (b : BtrfsIdentity) : json :=
  ser_struct [("uuid", Some (JString (bt_uuid b))); ("transid", Some (JInt (bt_transid b)))].
Definition BtrfsIdentity_from_value (j : json) : result BtrfsIdentity :=
  f ← de_struct ["uuid"; "transid"] [] true j;
  uuid ← f_req de_string f "uuid"; transid ← f_req de_u64 f "transid";
  Ok (mkBtrfs uuid transid).
Definition pair_to_value (p : string * string) : json := JArray [JString p.1; JString p.2].
Definition pair_from_value (j : json) : result (string * string) :=
  match j with
  | JArray [a; b] => a ← de_string a; b ← de_string b; Ok (a, b)
  | _ => Err "invalid type, expected a tuple of size 2"
  end.
Definition Header_to_value (h : Header) : json :=
  ser_struct [("v", Some (JInt (h_v h))); ("state", Some (JString (h_state h)));
    ("attempt", Some (JString (h_attempt h))); ("tree", Some (JString (h_tree h)));
    ("base", Some (ser_option pair_to_value (h_base h))); ("parts", Some (JInt (h_parts h)));
    ("machine", Some (JString (h_machine h)));
    ("btrfs", BtrfsIdentity_to_value <$> h_btrfs h);
    ("sig", if is_empty (h_sig h) then None else Some (JString (h_sig h)))].
Definition Header_from_value (j : json) : result Header :=
  f ← de_struct ["v"; "state"; "attempt"; "tree"; "base"; "parts"; "machine"; "btrfs"; "sig"]
        [] true j;
  v ← f_req de_u32 f "v"; state ← f_req de_string f "state";
  attempt ← f_req de_string f "attempt"; tree ← f_req de_string f "tree";
  base ← f_opt pair_from_value f "base"; parts ← f_req de_u32 f "parts";
  machine ← f_req de_string f "machine";
  btrfs ← f_def (de_option BtrfsIdentity_from_value) None f "btrfs";
  sig ← f_def de_string "" f "sig";
  Ok (mkHeader v state attempt tree base parts machine btrfs sig).

Definition with_sig (h : Header) (sig : string) : Header :=
  mkHeader (h_v h) (h_state h) (h_attempt h) (h_tree h) (h_base h) (h_parts h) (h_machine h)
    (h_btrfs h) sig.
Definition signed_bytes (h : Header) (tree : string) : result string :=
  c ← canonical (Header_to_value (with_sig h ""));
  Ok (DOMAIN +:+ c +:+ String "010" tree).

Section header.
Context `{Uuid, Encodings, Crypto, JsonText}.

Definition Header_sign (h : Header) (tree : string) (key : SigningKey) : result Header :=
  b ← signed_bytes h tree;
  Ok (with_sig h (sign_bytes b key)).
(** The checks of [Header::verify] before the signature. *)
Definition Header_check (h : Header) : result () :=
  bail_if (negb (h_v h =? 2)%Z) "unsupported tree format {}";;
  bail_if (negb (is_uuid (h_state h)) || negb (is_uuid (h_machine h))
           || negb (valid_attempt (h_attempt h)) || (MAX_PARTS <? h_parts h)%Z)
    "invalid tree header";;
  bail_if (is_some_and (h_btrfs h) (λ i, negb (is_uuid (bt_uuid i)) || (bt_transid i =? 0)%Z))
    "invalid btrfs tree identity";;
  match h_base h with
  | None => ensure (h_tree h == "full") "invalid tree base"
  | Some (state, attempt) =>
      ensure ((h_tree h == "delta") && is_uuid state && valid_attempt attempt) "invalid tree base"
  end.
Definition Header_verify (h : Header) (tree : string) (key : VerifyingKey) : result () :=
  Header_check h;;
  b ← signed_bytes h tree;
  verify_bytes b (h_sig h) key.

Definition split_tree (object : string) : result (Header * string) :=
  '(line, rest) ← ctx "tree has no header line" (split_once "010" object);
  bail_if (16384 <? str_len line)%Z "tree header exceeds 16 KiB";;
  j ← json_parse line;
  h ← Header_from_value j;
  Ok (h, rest).
End header.

(** ** The reader ([reader.rs]) *)

(** [zst::decompress_with_limit]: the frame, its raw dictionary and the size limit. *)
Class Zst := zst_decompress : string → option string → Z → result string.
(** [zst::LIMIT] on a 64-bit target. *)
Definition ZST_LIMIT : Z := Z.shiftl 4 30.

(** [slice.get(start..end)]. *)
Definition str_get (s : string) (start stop : Z) : option string :=
  if (start <=? stop)%Z && (stop <=? str_len s)%Z
  then Some (String.substring (Z.to_nat start) (Z.to_nat (stop - start)) s) else None.

Section reader.
Context `{Uuid, Encodings, Crypto, JsonText, Zst}.

Definition read_tree (identity object : string) (base : option string) (key : VerifyingKey)
    : result (Header * string * Tree) :=
  plain ← decrypt identity object;
  '(header, frame) ← split_tree plain;
  base ← (if h_tree header == "full" then Ok None
          else if h_tree header == "delta" then
            Some <$> ctx "delta tree has no base bytes" base
          else Err "invalid tree kind");
  bytes ← zst_decompress frame base ZST_LIMIT;
  Header_verify header bytes key;;
  tree ← Tree_parse bytes;
  Ok (header, bytes, tree).

(** One turn of the loop of [file], from the full frame back to the newest delta. *)
Definition read_link (identity : string) (entry : Entry) (parts : gmap string string)
    (data : string) (il : nat * Link) : result string :=
  let '(index, link) := il in
  let expected := if (index + 1 =? length (en_links entry))%nat then "full" else "delta" in
  bail_if (negb (lk_kind link == expected)) "file chain must end with one full frame";;
  object ← ctx "missing data part {name}" (parts !! Link_object link);
  plain ← decrypt identity object;
  bail_if (negb (in_u64 (lk_start link + lk_len link))) "frame range overflow";;
  frame ← ctx "frame is outside its part"
    (str_get plain (lk_start link) (lk_start link + lk_len link));
  let limit := if (index =? 0)%nat then en_size entry else ZST_LIMIT in
  zst_decompress frame (if lk_kind link == "delta" then Some data else None) limit.

Definition read_file (identity : string) (entry : Entry) (parts : gmap string string)
    : result string :=
  bail_if ((length (en_links entry) =? 0)%nat || (MAX_FILE_DELTAS + 1 <? length (en_links entry))%nat)
    "invalid file chain length";;
  data ← foldM (read_link identity entry parts) "" (reverse (enumerate (en_links entry)));
  bail_if (negb (str_len data =? en_size entry)%Z
           || negb (hex_encode (sha256 data) == en_hash entry))
    "file size or SHA-256 does not match its tree";;
  Ok data.
End reader.

(** * Properties *)

(** ** Names of objects *)

(** Read the parsed pieces of a name back into its text. *)
Ltac name_inv :=
  repeat match goal with
  | H : strip_prefix _ _ = Some _ |- _ => apply strip_prefix_some in H
  | H : strip_suffix _ _ = Some _ |- _ => apply strip_suffix_some in H
  | H : split_once _ _ = Some _ |- _ => apply split_once_some in H as [H _]
  end; simplify_eq; rewrite ?str_app_assoc, ?str_app_cons, ?str_app_nil_l.

(** The text that [n] was parsed from is its print in [w] digits. *)
Ltac pad_inv n w :=
  match goal with H : parse_uint ?max ?s = Some n |- _ =>
    destruct (dec_pad_parse max (Nat.pred w) s n) as (-> & ? & ?);
      [by apply (str_len_nat _ w)|done|done|clear H] end.

Section name_facts.
Context `{HU : Uuid}.

Lemma is_uuid_len s : is_uuid s = true → String.length s = 36.
Proof. unfold is_uuid. intros [Hs _]%andb_true_iff. by apply (str_len_nat s 36) in Hs. Qed.
Lemma is_uuid_bytes `{!UuidSpec HU} s : is_uuid s = true → all_bytes uuid_byte s = true.
Proof.
  unfold is_uuid. intros [_ Hs]%andb_true_iff. destruct (uuid_parse s) as [u|]; [|done].
  apply eqb_eq in Hs as <-. apply uuid_text_bytes.
Qed.
Lemma is_uuid_no_byte `{!UuidSpec HU} c s :
  uuid_byte c = false → is_uuid s = true → has_byte c s = false.
Proof. intros Hc Hs%is_uuid_bytes. by apply (all_bytes_no_byte uuid_byte). Qed.
Lemma is_uuid_text `{!UuidSpec HU} u : is_uuid (uuid_text u) = true.
Proof.
  unfold is_uuid. apply andb_true_iff. split.
  - apply (str_len_nat _ 36), uuid_text_len.
  - by rewrite uuid_parse_text, eqb_refl.
Qed.
Lemma valid_attempt_spec a :
  valid_attempt a = true ↔ String.length a = 8 ∧ all_bytes is_lower_hex a = true.
Proof. unfold valid_attempt. rewrite andb_true_iff. by rewrite (str_len_nat a 8). Qed.
Lemma valid_attempt_no_byte c a :
  is_lower_hex c = false → valid_attempt a = true → has_byte c a = false.
Proof. intros Hc [_ Ha]%valid_attempt_spec. by apply (all_bytes_no_byte is_lower_hex). Qed.

Context `{!UuidSpec HU}.

Lemma parse_tree_name_iff key s a :
  parse_tree_name key = Some (s, a) ↔
  key = tree_name s a ∧ is_uuid s = true ∧ valid_attempt a = true.
Proof.
  unfold parse_tree_name, tree_name. split.
  - intros Hp. inv_ok.
    name_inv. done.
  - intros (-> & Hs & Ha). rewrite strip_prefix_app. simpl.
    rewrite split_once_sep by (by apply is_uuid_no_byte). simpl.
    rewrite strip_suffix_app. simpl. by rewrite Hs, Ha.
Qed.
Lemma parse_data_name_iff key s a n :
  parse_data_name key = Some (s, a, n) ↔
  key = data_name s a n ∧ is_uuid s = true ∧ valid_attempt a = true ∧ (0 <= n < 10000)%Z.
Proof.
  unfold parse_data_name, data_name. split.
  - intros Hp. inv_ok. pad_inv n 4. name_inv. repeat split; try done. lia.
  - intros (-> & Hs & Ha & Hn). rewrite strip_prefix_app. simpl.
    rewrite split_once_sep by (by apply is_uuid_no_byte). simpl.
    rewrite <-(str_app_assoc "."), <-(str_app_assoc a), strip_suffix_app. simpl.
    rewrite split_once_sep by (by apply valid_attempt_no_byte). simpl.
    rewrite Hs, Ha, dec_pad_all_digit. rewrite (proj2 (str_len_nat _ 4)).
    + simpl. by rewrite parse_uint_dec_pad by (unfold u32_max; lia).
    + apply dec_pad_length. lia.
Qed.
Lemma parse_segment_name_iff key m a b :
  parse_segment_name key = Some (m, a, b) ↔
  key = segment_name m a b ∧ is_uuid m = true ∧ (0 < a <= b)%Z ∧ (b <= u64_max)%Z.
Proof.
  unfold parse_segment_name, segment_name. split.
  - intros Hp. inv_ok.
    pad_inv a 20. pad_inv b 20. name_inv. repeat split; try done; lia.
  - intros (-> & Hs & Hn & Hb). rewrite strip_prefix_app. simpl.
    rewrite split_once_sep by (by apply is_uuid_no_byte). simpl.
    rewrite <-(str_app_assoc "-"), <-(str_app_assoc (dec_pad 20 a)), strip_suffix_app. simpl.
    rewrite split_once_sep
      by (apply (all_bytes_no_byte is_ascii_digit); [apply dec_pad_all_digit|done]). simpl.
    rewrite Hs, !dec_pad_all_digit. unfold u64_max in Hb.
    rewrite !(proj2 (str_len_nat _ 20)) by (apply dec_pad_length; lia). simpl.
    rewrite !parse_uint_dec_pad by (unfold u64_max; lia). simpl.
    rewrite (proj2 (Z.ltb_lt _ _)), (proj2 (Z.leb_le _ _)) by lia. done.
Qed.
End name_facts.

(** ** Paths *)

Definition normal_piece (s : string) : bool :=
  negb (is_empty s || (s == ".") || (s == "..")).

Lemma component_normal first s :
  normal_piece s = true → component first s = Some (Normal s).
Proof.
  unfold normal_piece, component. intros H. inv_ok.
  repeat match goal with H : ?b = false |- context [if ?b then _ else _] => rewrite H end.
  destruct (eqb_false s ".") as [_ E1]; destruct (eqb_false s "..") as [_ E2].
  by rewrite E1, E2.
Qed.
(** The components of a path of normal pieces are its pieces. *)
Lemma components_normal p :
  forallb normal_piece (split "/" p) = true → components p = Normal <$> split "/" p.
Proof.
  unfold components. rewrite split_cons. intros Hp. rewrite forallb_elem in Hp.
  assert (starts_with "/" p = false) as ->.
  { destruct (starts_with "/" p) eqn:E; [|done]. apply starts_with_true in E as [r ->].
    specialize (Hp ""). rewrite str_app_cons in Hp. simpl in Hp.
    rewrite str_app_nil_l in Hp. destruct (split_go "/" r). discriminate Hp. left. }
  simpl. rewrite component_normal by (apply Hp; left). simpl. f_equal.
  assert (∀ s, s ∈ (split_go "/" p).2 → normal_piece s = true) as Ht.
  { intros. apply Hp. by right. }
  clear Hp. revert Ht. generalize (split_go "/" p).2. intros l.
  unfold filter_map. induction l as [|s l IH]; intros Ht; csimpl; [done|].
  rewrite component_normal by (apply Ht; left). f_equal. apply IH. intros. apply Ht. by right.
Qed.
Lemma safe_path_iff p :
  safe_path p = true ↔
  has_byte "\" p = false ∧ has_byte "000" p = false ∧ forallb normal_piece (split "/" p) = true.
Proof.
  assert (any_byte (λ a, Ascii.eqb a "\" || Ascii.eqb a "000") p
          = has_byte "\" p || has_byte "000" p) as E.
  { unfold has_byte, any_byte. rewrite <-negb_andb. f_equal.
    induction p as [|a p IH]; [done|]. cbn [all_bytes]. rewrite IH.
    rewrite (Ascii.eqb_sym a "\"), (Ascii.eqb_sym a "000"), negb_orb.
    destruct (negb (Ascii.eqb "\" a)), (negb (Ascii.eqb "000" a)), (all_bytes (λ a, negb (Ascii.eqb "\" a)) p); done. }
  assert (negb (existsb (λ s, is_empty s || (s == ".") || (s == "..")) (split "/" p))
          = forallb normal_piece (split "/" p)) as E'.
  { induction (split "/" p) as [|x l IH]; simpl; [done|]. by rewrite negb_orb, IH. }
  unfold safe_path. rewrite E, E', !andb_true_iff, !negb_true_iff, orb_false_iff.
  split; [tauto|]. intros (? & ? & Hn). repeat split; try done.
  - destruct p; [done|]. done.
  - unfold check_rel. destruct (is_empty p); [done|]. rewrite components_normal by done.
    apply is_ok_true. exists tt. apply for_each_ok, Forall_fmap, Forall_true. done.
Qed.

Lemma parent_slash p r : has_byte "/" r = false → parent (p +:+ String "/" r) = Some p.
Proof.
  intros Hr. unfold parent. destruct (rsplit_once_some "/" (p +:+ String "/" r) p r) as [_ ->]; [|done].
  by destruct p.
Qed.
Lemma parents_prefix fuel p r :
  String.length (p +:+ String "/" r) ≤ fuel → p ∈ parents_go fuel (p +:+ String "/" r).
Proof.
  revert r. induction fuel as [|fuel IH]; intros r.
  { rewrite str_length_app. simpl. lia. }
  intros Hl. simpl. destruct (rsplit_once "/" r) as [[r1 r2]|] eqn:E.
  - apply rsplit_once_some in E as [-> Hr2].
    rewrite <-str_app_cons, <-str_app_assoc, parent_slash by done. right.
    apply IH. rewrite !str_length_app in *. simpl in *. rewrite str_length_app in Hl. simpl in Hl. lia.
  - apply rsplit_once_none in E. rewrite parent_slash by done. left.
Qed.
Lemma parents_inv fuel p q :
  p ∈ parents_go fuel q → p = "" ∨ ∃ r, q = p +:+ String "/" r.
Proof.
  revert q. induction fuel as [|fuel IH]; intros q; simpl; [set_solver|].
  unfold parent at 1. destruct (is_empty q) eqn:Eq; [set_solver|].
  destruct (rsplit_once "/" q) as [[a b]|] eqn:E.
  - apply rsplit_once_some in E as [-> Hb]. rewrite elem_of_cons. intros [->|Hp]; [eauto|].
    apply IH in Hp as [->|[r ->]]; [by left|]. right. exists (r +:+ String "/" b).
    by rewrite str_app_assoc, str_app_cons.
  - rewrite elem_of_cons. intros [->|Hp]; [by left|].
    apply IH in Hp as [->|[r Hr]]; [by left|]. destruct p; [by left|]. by rewrite str_app_cons in Hr.
Qed.

(** ** Trees *)

Definition Link_wf (l : Link) : bool :=
  in_u32 (lk_part l) && in_u64 (lk_start l) && in_u64 (lk_len l).
Definition Entry_wf (e : Entry) : bool := in_u64 (en_size e) && forallb Link_wf (en_links e).
(** Every integer of the tree fits its Rust type. *)
Definition Tree_wf (t : Tree) : bool := forallb Entry_wf (values (t_files t)).

Lemma in_u64_pos z : in_u64 z = true → (0 <= z)%Z.
Proof. unfold in_u64. lia. Qed.
Lemma in_u32_pos z : in_u32 z = true → (0 <= z)%Z.
Proof. unfold in_u32. lia. Qed.
Lemma sdec_pos z : (0 <= z)%Z → sdec z = dec z.
Proof. unfold sdec. by destruct (Z.ltb_spec z 0); [lia|]. Qed.

Lemma write_link_value l : Link_wf l = true → write (Link_to_value l) = Ok (write_link l).
Proof.
  unfold Link_wf. intros Hl. inv_ok. unfold Link_to_value. rewrite write_array.
  cbn [collect write mbind result_bind]. f_equal. unfold write_link. cbn [join].
  rewrite !sdec_pos by eauto using in_u64_pos, in_u32_pos.
  by rewrite !str_app_assoc.
Qed.
Lemma write_entry_value p e :
  Entry_wf e = true →
  ∃ w, write (Entry_to_value e) = Ok w ∧ write_file (p, e) = json_string p +:+ ":" +:+ w.
Proof.
  unfold Entry_wf. intros He. inv_ok. unfold Entry_to_value. rewrite write_array.
  cbn [collect]. rewrite !write_str, write_int, write_array.
  assert (collect write (Link_to_value <$> en_links e) = Ok (write_link <$> en_links e)) as ->.
  { apply collect_ok. rewrite Forall2_fmap. apply Forall_Forall2_diag, Forall_forall.
    rewrite forallb_elem in H0. intros l Hl. by apply write_link_value, H0. }
  cbn [mbind result_bind]. eexists. split; [done|]. unfold write_file. cbn [join fst snd].
  rewrite sdec_pos by eauto using in_u64_pos. rewrite !str_app_assoc.
  by rewrite !str_app_cons, !str_app_nil_l.
Qed.
(** The typed writer and the generic one give the same bytes. *)
Lemma Tree_canonical_value t :
  Tree_wf t = true → canonical (Tree_to_value t) = Ok (Tree_canonical t).
Proof.
  unfold Tree_wf. rewrite forallb_elem. intros Ht.
  set (w e := default "" (ok (write (Entry_to_value e)))).
  unfold canonical, Tree_to_value, ser_struct. cbn [omap list_omap fst snd fmap option_fmap option_map].
  change (sort_by _ [?x]) with [x]. rewrite write_object_sorted by (repeat constructor).
  cbn [collect fst snd]. rewrite (write_ser_map _ w).
  - cbn [mbind result_bind fmap result_fmap]. f_equal. unfold member, Tree_canonical.
    cbn [list_fmap join fst snd].
    change (json_string "files") with (String quote ("files" +:+ String quote "")).
    rewrite !str_app_cons, !str_app_nil_l.
    assert ((λ ka : string * Entry, json_string ka.1 +:+ ":" +:+ w ka.2) <$> entries (t_files t)
            = write_file <$> entries (t_files t)) as ->.
    { apply list_fmap_ext. intros i [p e] Hpe. unfold w; cbn [fst snd].
      destruct (write_entry_value p e) as (x & -> & ->); [|done].
      apply Ht, elem_of_values. exists p. by apply elem_of_entries, list_elem_of_lookup_2 with i. }
    cbn [join]. by repeat (rewrite ?str_app_assoc, ?str_app_cons, ?str_app_nil_l; f_equal).
  - intros k e Hk. unfold w; cbn [fst snd]. destruct (write_entry_value k e) as (x & -> & _); [|done].
    apply Ht, elem_of_values. eauto.
Qed.

Lemma Link_roundtrip l : Link_wf l = true → Link_from_value (Link_to_value l) = Ok l.
Proof.
  unfold Link_wf. intros Hl. inv_ok. unfold Link_from_value, Link_to_value, de_u32, de_u64.
  cbn [de_string mbind result_bind]. rewrite !de_int_in by done. by destruct l.
Qed.
Lemma Entry_roundtrip e : Entry_wf e = true → Entry_from_value (Entry_to_value e) = Ok e.
Proof.
  unfold Entry_wf. intros He. inv_ok. unfold Entry_from_value, Entry_to_value, de_u64.
  cbn [de_string mbind result_bind]. rewrite de_int_in by done. cbn [mbind result_bind].
  rewrite de_vec_ser; [by destruct e|]. apply Forall_forall. rewrite forallb_elem in H0.
  intros l Hl. by apply Link_roundtrip, H0.
Qed.
Lemma Tree_roundtrip t : Tree_wf t = true → Tree_from_value (Tree_to_value t) = Ok t.
Proof.
  unfold Tree_wf. rewrite forallb_elem. intros Ht. unfold Tree_from_value, Tree_to_value.
  roundtrip. rewrite de_map_ser; [by destruct t|]. intros k e Hk.
  apply Entry_roundtrip, Ht, elem_of_values. eauto.
Qed.

Section tree_facts.
Context `{HU : Uuid, HE : Encodings, HJ : JsonText}.

(** What [Tree::parse] promises of a chain and of an entry. *)
Definition chain_ok (links : list Link) : Prop :=
  1 ≤ length links ≤ MAX_FILE_DELTAS + 1 ∧
  ∀ i l, links !! i = Some l →
    is_uuid (lk_state l) = true ∧ valid_attempt (lk_attempt l) = true ∧
    (lk_part l < MAX_PARTS)%Z ∧ lk_len l ≠ 0%Z ∧ in_u64 (lk_start l + lk_len l) = true ∧
    lk_kind l = (if (i + 1 =? length links)%nat then "full" else "delta").
Definition entry_ok (t : Tree) (path : string) (e : Entry) : Prop :=
  safe_path path = true ∧ en_mode e ∈ ["100644"; "100755"; "120000"] ∧
  String.length (en_hash e) = 64 ∧ is_Some (hex_decode (en_hash e)) ∧ chain_ok (en_links e) ∧
  ∀ p r, path = p +:+ String "/" r → t_files t !! p = None.
Definition Tree_ok (t : Tree) : Prop :=
  ∀ path e, t_files t !! path = Some e → entry_ok t path e.

Lemma elem_of_enumerate {A} (l : list A) i x : (i, x) ∈ enumerate l ↔ l !! i = Some x.
Proof.
  unfold enumerate. rewrite list_elem_of_lookup. split.
  - intros [j Hj]. apply lookup_zip_Some in Hj as [Hs Hx].
    apply lookup_seq in Hs as [-> _]. done.
  - intros Hi. exists i. apply lookup_zip_Some. split; [|done].
    apply lookup_seq. split; [done|]. by eapply lookup_lt_Some.
Qed.
Lemma check_links_ok links :
  (bail_if ((length links =? 0)%nat || (MAX_FILE_DELTAS + 1 <? length links)%nat)
     "invalid file chain length";;
   for_each (check_link (length links)) (enumerate links)) = Ok tt ↔ chain_ok links.
Proof.
  unfold chain_ok. rewrite bind_ok. setoid_rewrite bail_if_ok.
  setoid_rewrite for_each_ok. setoid_rewrite Forall_forall.
  setoid_rewrite orb_false_iff. setoid_rewrite Nat.eqb_neq. setoid_rewrite Nat.ltb_ge.
  assert (∀ i l, check_link (length links) (i, l) = Ok tt ↔
    is_uuid (lk_state l) = true ∧ valid_attempt (lk_attempt l) = true ∧
    (lk_part l < MAX_PARTS)%Z ∧ lk_len l ≠ 0%Z ∧ in_u64 (lk_start l + lk_len l) = true ∧
    lk_kind l = (if (i + 1 =? length links)%nat then "full" else "delta")) as Hc.
  { intros i l. unfold check_link. simpl. split.
    - intros H. inv_ok. repeat split; try done; lia.
    - intros (Hs & Ha & Hp & Hn & Ho & Hk). rewrite Hs, Ha, Ho, <-Hk, eqb_refl. simpl.
      by rewrite (proj2 (Z.leb_gt _ _)), (proj2 (Z.eqb_neq _ _)). }
  split.
  - intros ([] & [? ?] & Hl). split; [lia|]. intros i l Hi.
    by apply Hc, Hl, elem_of_enumerate.
  - intros [? Hl]. exists tt. split; [split; lia|]. intros [i l] Hi%elem_of_enumerate.
    by apply Hc, Hl.
Qed.
Lemma check_entry_iff t path e :
  t_files t !! "" = None → check_entry t (path, e) = Ok tt ↔ entry_ok t path e.
Proof.
  intros Hroot. unfold check_entry, entry_ok.
  rewrite <-check_links_ok. split.
  - intros H. inv_ok. repeat split; try done.
    + by apply memb_true.
    + by apply (str_len_nat _ 64).
    + destruct (hex_decode _); [eauto|done].
    + apply bind_ok. exists tt. split; [|done]. apply bail_if_ok. by apply orb_false_iff.
    + intros p r ->.
      match goal with H : for_each _ (parents _) = _ |- _ =>
        rewrite for_each_ok, Forall_forall in H; pose proof (H p) as Hp end.
      rewrite bail_if_ok in Hp. destruct (t_files t !! p); [|done]. discriminate Hp.
      by apply parents_prefix.
  - intros (Hs & Hm & Hl & [h Hh] & Hc & Hp).
    assert ((str_len (en_hash e) =? 64)%Z = true) as -> by (by apply (str_len_nat _ 64)).
    rewrite Hs, (proj2 (memb_true _ _) Hm), Hh. apply bind_ok in Hc as ([] & Hb & Hf).
    do 5 (apply bind_ok; exists tt; split; [done|]). apply for_each_ok, Forall_forall.
    intros p Hin. apply bail_if_ok. apply parents_inv in Hin as [->|[r ->]].
    + by rewrite Hroot.
    + by rewrite (Hp p r).
Qed.
Lemma Tree_ok_root t : Tree_ok t → t_files t !! "" = None.
Proof.
  intros Ht. destruct (t_files t !! "") as [e|] eqn:E; [|done].
  apply Ht in E as [Hs _]. done.
Qed.
(** The checks of [Tree::parse] decide [Tree_ok]. *)
Lemma check_entries_iff t :
  for_each (check_entry t) (entries (t_files t)) = Ok tt ↔ Tree_ok t.
Proof.
  rewrite for_each_ok, Forall_forall. split.
  - intros Hall path e Hp. assert (t_files t !! "" = None) as Hr.
    { destruct (t_files t !! "") as [e'|] eqn:E; [|done].
      specialize (Hall ("", e')). rewrite elem_of_entries in Hall. by apply Hall in E. }
    apply check_entry_iff; [done|]. by apply Hall, elem_of_entries.
  - intros Ht [p e] Hp%elem_of_entries. apply check_entry_iff; [by apply Tree_ok_root|auto].
Qed.
Lemma Tree_parse_inv bytes t :
  Tree_parse bytes = Ok t → Tree_canonical t = bytes ∧ Tree_ok t.
Proof.
  unfold Tree_parse. intros H. inv_ok. split; [done|].
  by apply check_entries_iff.
Qed.
Lemma Tree_parse_canonical t :
  Tree_wf t = true → json_parse (Tree_canonical t) = Ok (Tree_to_value t) →
  Tree_parse (Tree_canonical t) = Ok t ↔ Tree_ok t.
Proof.
  intros Hwf Hj. unfold Tree_parse. rewrite Hj. simpl. rewrite Tree_roundtrip by done. simpl.
  rewrite eqb_refl. simpl. rewrite <-check_entries_iff.
  destruct (for_each _ _) as [[]|]; simpl; split; congruence.
Qed.
End tree_facts.

(** ** Headers and signatures *)

Definition Header_wf (h : Header) : bool :=
  in_u32 (h_v h) && in_u32 (h_parts h) && is_none_or (h_btrfs h) (λ b, in_u64 (bt_transid b)).
(** Every string of the header is UTF-8, as a Rust [String] is. *)
Definition Header_utf8 (h : Header) : bool :=
  forallb utf8_valid
    ([h_state h; h_attempt h; h_tree h; h_machine h; h_sig h] ++
     match h_base h with Some (s, a) => [s; a] | None => [] end ++
     match h_btrfs h with Some b => [bt_uuid b] | None => [] end).

Lemma BtrfsIdentity_roundtrip b :
  in_u64 (bt_transid b) = true → BtrfsIdentity_from_value (BtrfsIdentity_to_value b) = Ok b.
Proof. intros. destruct b. unfold BtrfsIdentity_from_value, BtrfsIdentity_to_value. roundtrip. Qed.
Lemma Header_roundtrip h :
  Header_wf h = true → Header_from_value (Header_to_value h) = Ok h.
Proof.
  unfold Header_wf. intros Hwf. inv_ok. unfold Header_from_value, Header_to_value. roundtrip.
  destruct h as [? ? ? ? [[]|] ? ? [b|] sig]; simpl in *; autorewrite with serde; simpl.
  all: try rewrite BtrfsIdentity_roundtrip by done; simpl.
  all: unfold is_empty; destruct (sig == "") eqn:E; simpl; by inv_ok.
Qed.

Lemma Header_jwf h : Header_utf8 h = true → jwf (Header_to_value h).
Proof.
  unfold Header_utf8. rewrite forallb_app, forallb_app. simpl. intros H. inv_ok.
  apply jwf_ser_struct; [by apply (bool_decide_unpack _); vm_compute|].
  assert (∀ s, utf8_valid s = true → jwf (JString s)) as Hs by (by constructor).
  repeat constructor; simpl; auto.
  - destruct (h_base h) as [[s a]|]; simpl in *; [|constructor]. inv_ok. repeat constructor; auto.
  - destruct (h_btrfs h) as [b|]; simpl in *; [|done]. inv_ok. split; [done|].
    apply jwf_ser_struct; [by apply (bool_decide_unpack _); vm_compute|].
    repeat constructor; simpl; auto.
  - destruct (is_empty _); simpl; auto.
Qed.
Lemma Header_canonical_ok h : ∃ c, canonical (Header_to_value h) = Ok c.
Proof.
  destruct h as [v s a t [[b1 b2]|] p m [[u i]|] sig]; unfold Header_to_value; cbn;
    destruct (is_empty sig); by eexists.
Qed.
Lemma signed_bytes_ok h t : ∃ b, signed_bytes h t = Ok b.
Proof. unfold signed_bytes. destruct (Header_canonical_ok (with_sig h "")) as [c ->]. by eexists. Qed.
(** Distinct headers or trees are signed over distinct bytes. *)
Lemma signed_bytes_unique h h' t t' b :
  Header_wf h = true → Header_wf h' = true → Header_utf8 h = true → Header_utf8 h' = true →
  signed_bytes h t = Ok b → signed_bytes h' t' = Ok b →
  with_sig h "" = with_sig h' "" ∧ t = t'.
Proof.
  intros Hw Hw' Hu Hu' Hb Hb'. unfold signed_bytes in *. inv_ok.
  assert (∀ h, Header_utf8 h = true → Header_utf8 (with_sig h "") = true) as Hus.
  { intros []. unfold Header_utf8. simpl. intros Hx. inv_ok. repeat (apply andb_true_iff; split; auto). }
  destruct (write_inj_rest (Header_to_value (with_sig h "")) (Header_to_value (with_sig h' ""))
    x0 x (String "010" t) (String "010" t')) as [Hv [= ->]]; auto using Header_jwf.
  { simpl. tauto. }
  { simpl. tauto. }
  split; [|done]. apply (f_equal Header_from_value) in Hv.
  rewrite !Header_roundtrip in Hv by done. congruence.
Qed.

Section sign_facts.
Context `{HU : Uuid, HE : Encodings, HC : Crypto}.

Lemma verify_sign_bytes `{!EncodingsSpec HE, !CryptoSpec HC} data key :
  verify_bytes data (sign_bytes data key) (verifying_key key) = Ok tt.
Proof.
  unfold verify_bytes, sign_bytes. rewrite base64_decode_encode. simpl.
  assert ((str_len (ed_sign key data) =? 64)%Z = true) as -> by (apply (str_len_nat _ 64), ed_sign_len).
  simpl. by rewrite ed_verify_sign.
Qed.

(** A line whose signed text is [body], with the signature [sig]. *)
Definition line_fields `{HJ : JsonText} (line body sig : string) : Prop :=
  ∃ m t, (j ← json_raw line; raw_struct ["r"; "s"] false j) = Ok m ∧
    jlookup "r" m = Some body ∧ jlookup "s" m = Some t ∧ (j ← json_parse t; de_string j) = Ok sig.
Lemma line_fields_unique `{HJ : JsonText} line b s b' s' :
  line_fields line b s → line_fields line b' s' → b = b' ∧ s = s'.
Proof.
  intros (m & t & H1 & H2 & H3 & H4) (m' & t' & H1' & H2' & H3' & H4'). naive_solver congruence.
Qed.
Lemma parse_bytes_none `{HJ : JsonText} line body :
  parse_bytes line None = Ok body ↔ ∃ sig, line_fields line body sig.
Proof.
  unfold parse_bytes, line_fields. split.
  - intros H. apply bind_ok in H as (m & Hm & H). apply bind_ok in H as (r & Hr%ctx_ok & H).
    apply bind_ok in H as (t & Ht%ctx_ok & H). apply bind_ok in H as (sig & Hs & H). injection H as <-. by exists sig, m, t.
  - intros (sig & m & t & -> & Hr & Hs & Ht). rsimpl. rewrite Hr, Hs. rsimpl. by rewrite Ht.
Qed.
Lemma verify_line_ok `{HJ : JsonText} line key body :
  verify_line line key = Ok body ↔
  ∃ sig, line_fields line body sig ∧ verify_bytes body sig key = Ok tt.
Proof.
  unfold verify_line, parse_bytes, line_fields. split.
  - intros H. apply bind_ok in H as (m & Hm & H). apply bind_ok in H as (r & Hr%ctx_ok & H).
    apply bind_ok in H as (t & Ht%ctx_ok & H). apply bind_ok in H as (sig & Hs & H).
    apply bind_ok in H as ([] & Hv & [= <-]). exists sig. split; [by exists m, t|done].
  - intros (sig & (m & t & -> & Hr & Hs & Ht) & Hv). rsimpl. rewrite Hr, Hs. rsimpl. rewrite Ht.
    rsimpl. by rewrite Hv.
Qed.
Lemma Header_check_sig h s : Header_check (with_sig h s) = Header_check h.
Proof. done. Qed.
Lemma Header_sign_verify `{!EncodingsSpec HE, !CryptoSpec HC} h tree key :
  ∃ h', Header_sign h tree key = Ok h' ∧ with_sig h' "" = with_sig h "" ∧
        Header_verify h' tree (verifying_key key) = Header_check h.
Proof.
  destruct (signed_bytes_ok h tree) as [b Hb]. unfold Header_sign. rewrite Hb. simpl.
  eexists. split; [done|]. split; [done|]. unfold Header_verify. rewrite Header_check_sig.
  change (signed_bytes (with_sig h _) tree) with (signed_bytes h tree). rewrite Hb.
  destruct (Header_check h) as [[]|]; simpl; [|done]. by rewrite verify_sign_bytes.
Qed.
End sign_facts.

(** ** Where a path leads *)

(** The directory that following the components from [dir] ends in. *)
Fixpoint walk (dir : list string) (cs : list Component) : list string :=
  match cs with
  | [] => dir
  | RootDir :: cs => walk [] cs
  | CurDir :: cs => walk dir cs
  | ParentDir :: cs => walk (removelast dir) cs
  | Normal s :: cs => walk (dir ++ [s]) cs
  end.
(** A path that stays below every directory it is followed from. *)
Definition inside (path : string) : Prop :=
  ∀ dir, ∃ names, walk dir (components path) = dir ++ names.
(** A name that is one path component. *)
Definition single (name : string) : Prop := components name = [Normal name].

Definition climbs (c : Component) : bool :=
  match c with RootDir | ParentDir => true | CurDir | Normal _ => false end.
Lemma walk_inside dir cs :
  forallb (negb ∘ climbs) cs = true → ∃ names, walk dir cs = dir ++ names.
Proof.
  revert dir. induction cs as [|[| | |s] cs IH]; intros dir Hcs; simpl in *; try done.
  - exists []. by rewrite app_nil_r.
  - auto.
  - destruct (IH (dir ++ [s]) Hcs) as [names ->]. exists (s :: names). by rewrite <-app_assoc.
Qed.
Lemma check_rel_inside p : check_rel p = Ok tt → inside p.
Proof.
  unfold check_rel, inside. intros Hc dir. destruct (is_empty p) eqn:E.
  { apply eqb_eq in E as ->. exists []. by rewrite app_nil_r. }
  apply walk_inside, forallb_elem. rewrite for_each_ok, Forall_forall in Hc.
  intros c Hin. by specialize (Hc c Hin); destruct c.
Qed.
Lemma single_inside s : single s → inside s.
Proof. intros Hs dir. rewrite Hs. by exists [s]. Qed.
Lemma split_no_byte c s : has_byte c s = false → split c s = [s].
Proof.
  unfold split. induction s as [|a s IH]; [done|]. rewrite has_byte_cons, orb_false_iff.
  intros [Ha Hs]. specialize (IH Hs). simpl. destruct (split_go c s) as [h t]. simplify_eq.
  destruct (Ascii.eqb_spec a c) as [->|]; [by rewrite Ascii.eqb_refl in Ha|done].
Qed.
Lemma single_normal s : has_byte "/" s = false → normal_piece s = true → single s.
Proof.
  intros Hb Hn. unfold single. rewrite components_normal; rewrite split_no_byte by done; [done|].
  simpl. by rewrite Hn.
Qed.
Lemma normal_piece_length s : 2 < String.length s → normal_piece s = true.
Proof.
  intros Hl. unfold normal_piece, is_empty.
  destruct (s == "") eqn:E0; [apply eqb_eq in E0; subst; simpl in Hl; lia|].
  destruct (s == ".") eqn:E1; [apply eqb_eq in E1; subst; simpl in Hl; lia|].
  destruct (s == "..") eqn:E2; [apply eqb_eq in E2; subst; simpl in Hl; lia|]. done.
Qed.
Lemma is_uuid_single `{HU : Uuid, !UuidSpec HU} s : is_uuid s = true → single s.
Proof.
  intros Hs. apply single_normal; [by apply is_uuid_no_byte|].
  apply normal_piece_length. rewrite is_uuid_len by done. lia.
Qed.

(** ** Main results *)

(** The names of trees, data parts and record segments are read back exactly: a key parses
    to a state, an attempt and a part (or a machine and a range) if and only if it is the name
    that the printer gives them and each piece is valid. No other key is accepted. *)
Theorem object_names_exact `{HU : Uuid, !UuidSpec HU} key s a n m first last :
  (parse_tree_name key = Some (s, a) ↔
     key = tree_name s a ∧ is_uuid s = true ∧ valid_attempt a = true) ∧
  (parse_data_name key = Some (s, a, n) ↔
     key = data_name s a n ∧ is_uuid s = true ∧ valid_attempt a = true ∧ (0 <= n < 10000)%Z) ∧
  (parse_segment_name key = Some (m, first, last) ↔
     key = segment_name m first last ∧ is_uuid m = true ∧ (0 < first <= last)%Z ∧
     (last <= u64_max)%Z).
Proof.
  split; [apply parse_tree_name_iff|]. split; [apply parse_data_name_iff|apply parse_segment_name_iff].
Qed.
Definition sample_uuid : string := "01a12290-0000-7000-8000-000000000001".

Definition sample_tree : Tree := mkTree {["a/b" := mkEntry "100644" 5
  "abababababababababababababababababababababababababababababababab"
  [mkLink sample_uuid "0123abcd" 0 0 9 "full"]]}.

(** C23. [Tree::parse] accepts only canonical bytes of a sound tree: every path is safe, modes,
    digests and frame chains are valid, and no file is a parent directory of another. *)
Theorem tree_parse_sound `{HU : Uuid, HE : Encodings, HJ : JsonText} bytes t :
  Tree_parse bytes = Ok t → Tree_canonical t = bytes ∧ Tree_ok t.
Proof. apply Tree_parse_inv. Qed.
Definition sample_text : JsonText :=
  text_table [(Tree_canonical sample_tree, Tree_to_value sample_tree)] [] (λ _, "").
Lemma tree_parse_sound_witness :
  Tree_canonical sample_tree = Tree_canonical sample_tree ∧ @Tree_ok uuid_plain encodings_hex sample_tree.
Proof. apply (@tree_parse_sound uuid_plain encodings_hex sample_text). by vm_compute. Defined.

(** C35. The typed tree writer gives the bytes of the generic canonical writer, and [Tree::parse] reads
    back what [Tree::canonical] wrote exactly when the tree is sound, provided that the JSON reader
    reads the canonical text back. *)
Theorem tree_parse_roundtrip `{HU : Uuid, HE : Encodings, HJ : JsonText} t :
  Tree_wf t = true → json_parse (Tree_canonical t) = Ok (Tree_to_value t) →
  canonical (Tree_to_value t) = Ok (Tree_canonical t) ∧
  (Tree_parse (Tree_canonical t) = Ok t ↔ Tree_ok t).
Proof. intros Hw Hj. split; [by apply Tree_canonical_value|by apply Tree_parse_canonical]. Qed.
Lemma tree_parse_roundtrip_witness :
  canonical (Tree_to_value sample_tree) = Ok (Tree_canonical sample_tree) ∧
  (@Tree_parse uuid_plain encodings_hex sample_text (Tree_canonical sample_tree) = Ok sample_tree ↔
   @Tree_ok uuid_plain encodings_hex sample_tree).
Proof. apply (@tree_parse_roundtrip uuid_plain encodings_hex sample_text); by vm_compute. Defined.

(** The signed bytes of a tree determine the header and the tree: signatures bind every
    header field but the signature itself, and every byte of the tree. *)
Theorem signed_bytes_injective h h' t t' b :
  Header_wf h = true → Header_wf h' = true → Header_utf8 h = true → Header_utf8 h' = true →
  signed_bytes h t = Ok b → signed_bytes h' t' = Ok b →
  with_sig h "" = with_sig h' "" ∧ t = t'.
Proof. apply signed_bytes_unique. Qed.
Definition sample_header : Header :=
  mkHeader 2 sample_uuid "0123abcd" "full" None 0 sample_uuid None "sig".

