(* ===== verification/Request.v ===== *)
(** Person requests ([layr-store/src/request.rs]) and the parts of [person.rs] they use: the
    signed envelope over exact bytes and the sealed form around it. *)

From S2P Require Import Prelude Strs Json Canonical Types Extern Format.

Definition DEFAULT_LIFETIME_MS : Z := 24 * 60 * 60 * 1000.
Definition MAX_BYTES : Z := 96 * 1024.
Definition MAX_SEALED_BYTES : Z := 144 * 1024.
Definition REQUEST_DOMAIN : string := "layr/request/v2" +:+ String "000" "".

Inductive Action :=
| Approve (state into : string)
| Withdraw (state into : string)
| QueueAdd (state into : string)
| QueueRemove (entry : string)
| RefMove (name target : string) (expected : option string)
| ActComment (change_id version : string) (path : option string) (line : option Z)
    (text : string) (reply_to : option string)
| Declassify (state scope : string).
#[export] Instance Action_eq_dec : EqDecision Action.
Proof. solve_decision. Defined.

Record Request := mkRequest {
  rq_format : Z; rq_id : string; rq_project : string; rq_person : string; rq_created : Z;
  rq_expires : Z; rq_action : Action }.
#[export] Instance Request_eq_dec : EqDecision Request.
Proof. solve_decision. Defined.

(** [r] keeps its exact text. *)
Record Signed := mkSigned { sg_r : string; sg_s : string }.
Record Sealed := mkSealed {
  sl_v : Z; sl_id : string; sl_person : string; sl_project : string; sl_epoch : string;
  sl_ct : string; sl_sig : string }.

(** ** Serialization *)

Definition present (l : list (string * option json)) : jobj := omap (λ kv, pair kv.1 <$> kv.2) l.

(** The members are in declaration order, the tag first. *)
Definition Action_fields (a : Action) : jobj :=
  match a with
  | Approve state into =>
      [("kind", JString "approve"); ("state", JString state); ("into", JString into)]
  | Withdraw state into =>
      [("kind", JString "withdraw"); ("state", JString state); ("into", JString into)]
  | QueueAdd state into =>
      [("kind", JString "queue_add"); ("state", JString state); ("into", JString into)]
  | QueueRemove entry => [("kind", JString "queue_remove"); ("entry", JString entry)]
  | RefMove name target expected =>
      [("kind", JString "ref_move"); ("name", JString name); ("target", JString target);
       ("expected", ser_option JString expected)]
  | ActComment change_id version path line text reply_to =>
      present [("kind", Some (JString "comment")); ("change_id", Some (JString change_id));
        ("version", Some (JString version)); ("path", some_string path);
        ("line", some_int line); ("text", Some (JString text));
        ("reply_to", some_string reply_to)]
  | Declassify state scope =>
      [("kind", JString "declassify"); ("state", JString state); ("scope", JString scope)]
  end.
Definition Request_fields (r : Request) : jobj :=
  [("format", JInt (rq_format r)); ("id", JString (rq_id r));
   ("project", JString (rq_project r)); ("person", JString (rq_person r));
   ("created", JInt (rq_created r)); ("expires", JInt (rq_expires r));
   ("action", JObject (Action_fields (rq_action r)))].

(** The tag of an internally tagged enum and what is left for its variant. *)
Definition de_tagged (tag : string) (j : json) : result (string * json) :=
  match j with
  | JObject m =>
      t ← ctx "missing field `kind`" (jlookup tag m);
      ensure (length (filterb (λ kv, kv.1 == tag) m) =? 1)%nat "duplicate field `kind`";;
      t ← de_string t;
      Ok (t, JObject (filterb (λ kv, negb (kv.1 == tag)) m))
  | JArray (t :: l) => t ← de_string t; Ok (t, JArray l)
  | _ => Err "invalid type, expected internally tagged enum Action"
  end.
Definition de_state_with (k : string) (mk : string → string → Action) (j : json) : result Action :=
  f ← de_struct ["state"; k] [] true j;
  state ← f_req de_string f "state"; x ← f_req de_string f k; Ok (mk state x).
Definition Action_from_value (j : json) : result Action :=
  '(kind, j) ← de_tagged "kind" j;
  if kind == "approve" then de_state_with "into" Approve j
  else if kind == "withdraw" then de_state_with "into" Withdraw j
  else if kind == "queue_add" then de_state_with "into" QueueAdd j
  else if kind == "queue_remove" then
    f ← de_struct ["entry"] [] true j; entry ← f_req de_string f "entry"; Ok (QueueRemove entry)
  else if kind == "ref_move" then
    f ← de_struct ["name"; "target"; "expected"] [] true j;
    name ← f_req de_string f "name"; target ← f_req de_string f "target";
    expected ← f_req (de_option de_string) f "expected"; Ok (RefMove name target expected)
  else if kind == "comment" then
    f ← de_struct ["change_id"; "version"; "path"; "line"; "text"; "reply_to"] [] true j;
    change_id ← f_req de_string f "change_id"; version ← f_req de_string f "version";
    path ← f_def (de_option de_string) None f "path";
    line ← f_def (de_option de_u32) None f "line"; text ← f_req de_string f "text";
    reply_to ← f_def (de_option de_string) None f "reply_to";
    Ok (ActComment change_id version path line text reply_to)
  else if kind == "declassify" then de_state_with "scope" Declassify j
  else Err "unknown variant".
Definition Request_from_value (j : json) : result Request :=
  f ← de_struct ["format"; "id"; "project"; "person"; "created"; "expires"; "action"] [] true j;
  format ← f_req de_u32 f "format"; id ← f_req de_string f "id";
  project ← f_req de_string f "project"; person ← f_req de_string f "person";
  created ← f_req de_i64 f "created"; expires ← f_req de_i64 f "expires";
  action ← f_req Action_from_value f "action";
  Ok (mkRequest format id project person created expires action).

(** ** Logins ([person.rs]) *)

Fixpoint count_byte (c : ascii) (s : string) : nat :=
  match s with "" => 0 | String a s => (if Ascii.eqb a c then 1 else 0) + count_byte c s end.
(** [b[0]] and [b[b.len() - 1]]; guarded by the length. *)
Definition first_byte (s : string) : option ascii :=
  match s with "" => None | String a _ => Some a end.
Fixpoint last_byte (s : string) : option ascii :=
  match s with "" => None | String a "" => Some a | String _ s => last_byte s end.
Definition byte_in (set : string) (a : ascii) : bool := has_byte a set.

Definition login_name (login : string) : bool :=
  (3 <=? str_len login)%Z && (str_len login <=? 128)%Z &&
  (count_byte "@" login =? 1)%nat &&
  negb (first_byte login == Some "@"%char) && negb (last_byte login == Some "@"%char) &&
  all_bytes (λ c, is_ascii_alphanumeric c || byte_in "._+-@" c) login.

Definition project_name (name : string) : bool :=
  (1 <=? str_len name)%Z && (str_len name <=? 44)%Z &&
  match name with
  | "" => false
  | String a rest =>
      is_ascii_alphanumeric a &&
      all_bytes (λ c, is_ascii_alphanumeric c || Ascii.eqb c "_" || Ascii.eqb c "-") rest
  end.

Section request.
Context `{Uuid, Encodings, Crypto, JsonText}.

Definition person_verifying_key (public_key : string) : result VerifyingKey :=
  bytes ← ctx "invalid person public signing key" (hex_decode public_key);
  bail_if (negb (str_len bytes =? 32)%Z) "invalid person public signing key";;
  ctx "invalid key" (verifying_key_from bytes).

(** [slot_name]: the v2 slot of a login binds it to a public person key. *)
Definition slot_name (login recipient : string) : result string :=
  bail_if (negb (login_name login) || negb (valid_recipient recipient))
    "invalid person login or recipient";;
  let fingerprint := hex_encode (sha256 recipient) in
  Ok ("person-" +:+ login +:+ "-" +:+ String.substring 0 16 fingerprint +:+ ".age").
Definition slot_login (name : string) : option string :=
  rest ← strip_prefix "person-" name;
  rest ← strip_suffix ".age" rest;
  '(login, fp) ← rsplit_once "-" rest;
  if login_name login && (str_len fp =? 16)%Z
     && all_bytes (λ b, is_ascii_digit b || byte_between 97 102 b) fp
  then Some login else None.

(** ** Requests *)

Definition request_uuid (value : string) : bool :=
  match uuid_parse value with Some id => uuid_text id == value | None => false end.
Definition request_id (value : string) : bool :=
  match uuid_parse value with
  | Some id => (uuid_text id == value) && (uuid_version id =? 7)%Z
  | None => false
  end.
Definition request_path (value : string) : bool :=
  negb (is_empty value) && negb (starts_with "/" value) &&
  negb (any_byte (λ a, Ascii.eqb a "\" || Ascii.eqb a "000") value) &&
  forallb (λ p, negb (memb p [""; "."; ".."])) (split "/" value).
Definition request_name (value : string) : bool :=
  negb (is_empty value) && (str_len value <=? 256)%Z && negb (existsb is_control (chars value)).

Definition valid_action (a : Action) : bool :=
  match a with
  | Approve state into | Withdraw state into | QueueAdd state into =>
      request_uuid state && request_name into
  | QueueRemove entry => request_uuid entry
  | RefMove reference target expected =>
      request_name reference && request_uuid target && is_none_or expected request_uuid
  | ActComment change_id version file line text reply_to =>
      request_uuid change_id && request_uuid version && is_none_or file request_path &&
      negb (line == Some 0%Z) && (is_none line || is_some file) &&
      negb (trim_is_empty text) && (str_len text <=? 65536)%Z && is_none_or reply_to request_uuid
  | Declassify state scope =>
      request_uuid state &&
      is_some_and (rsplit_once "@" scope) (λ '(p, hash),
        request_path p && (str_len hash =? 16)%Z && all_bytes is_ascii_hexdigit hash)
  end.
Definition Request_validate (r : Request) : result () :=
  bail_if (negb (rq_format r =? 1)%Z || negb (request_id (rq_id r))
           || negb (request_uuid (rq_project r)) || negb (login_name (rq_person r)))
    "invalid request format, UUIDv7 id, project or person";;
  bail_if ((rq_created r <? 0)%Z || (rq_expires r <=? rq_created r)%Z) "invalid request lifetime";;
  bail_if (negb (valid_action (rq_action r))) "invalid request action".
Definition Request_new (id project person : string) (created : Z) (action : Action)
    : result Request :=
  expires ← ctx "request expiry exceeds the supported time range"
    (let e := created + DEFAULT_LIFETIME_MS in if in_i64 e then Some e else None)%Z;
  let request := mkRequest 1 id project person created expires action in
  Request_validate request;;
  Ok request.
Definition Request_sign (r : Request) (key : SigningKey) : result Signed :=
  Request_validate r;;
  let body := json_print (JObject (Request_fields r)) in
  Ok (mkSigned body (sign_bytes body key)).

Definition Signed_parse (bytes : string) : result Signed :=
  bail_if (MAX_BYTES <? str_len bytes)%Z "request exceeds 96 KiB";;
  m ← (j ← json_raw bytes; raw_struct ["r"; "s"] true j);
  r ← ctx "missing field `r`" (jlookup "r" m);
  s ← ctx "missing field `s`" (jlookup "s" m);
  s ← (j ← json_parse s; de_string j);
  Ok (mkSigned r s).
Definition Signed_request (s : Signed) : result Request :=
  j ← json_parse (sg_r s);
  request ← Request_from_value j;
  Request_validate request;;
  Ok request.
Definition Signed_verify (s : Signed) (key : VerifyingKey) : result Request :=
  verify_bytes (sg_r s) (sg_s s) key;;
  Signed_request s.
(** [to_bytes]: the raw text of [r] is written as it is. *)
Definition Signed_to_bytes (s : Signed) : string :=
  "{" +:+ json_print (JString "r") +:+ ":" +:+ sg_r s +:+ "," +:+ json_print (JString "s") +:+ ":"
  +:+ json_print (JString (sg_s s)) +:+ "}".

(** ** Sealed requests *)

Definition Sealed_validate (s : Sealed) : result () :=
  bail_if (negb (sl_v s =? 2)%Z || negb (request_id (sl_id s)) || negb (request_uuid (sl_project s))
           || negb (login_name (sl_person s))
           || negb ((sl_epoch s == "root") || request_uuid (sl_epoch s)))
    "invalid encrypted request routing metadata".
Definition Sealed_from_value (j : json) : result Sealed :=
  f ← de_struct ["v"; "id"; "person"; "project"; "epoch"; "ct"; "sig"] [] true j;
  v ← f_req de_u32 f "v"; id ← f_req de_string f "id"; person ← f_req de_string f "person";
  project ← f_req de_string f "project"; epoch ← f_req de_string f "epoch";
  ct ← f_req de_string f "ct"; sig ← f_req de_string f "sig";
  Ok (mkSealed v id person project epoch ct sig).
Definition Sealed_fields (s : Sealed) : jobj :=
  [("v", JInt (sl_v s)); ("id", JString (sl_id s)); ("person", JString (sl_person s));
   ("project", JString (sl_project s)); ("epoch", JString (sl_epoch s));
   ("ct", JString (sl_ct s)); ("sig", JString (sl_sig s))].
Definition Sealed_parse (bytes : string) : result Sealed :=
  bail_if (MAX_SEALED_BYTES <? str_len bytes)%Z "encrypted request exceeds 144 KiB";;
  j ← json_parse bytes;
  sealed ← Sealed_from_value j;
  Sealed_validate sealed;;
  Ok sealed.
Definition Sealed_ciphertext (s : Sealed) : result string :=
  ct ← ctx "invalid request ciphertext encoding" (base64_decode (sl_ct s));
  bail_if (negb (base64_encode ct == sl_ct s) || (MAX_BYTES + 4096 <? str_len ct)%Z)
    "invalid request ciphertext encoding or size";;
  Ok ct.
Definition Sealed_verify (s : Sealed) (key : VerifyingKey) : result () :=
  Sealed_validate s;;
  ct ← Sealed_ciphertext s;
  signature ← ctx "invalid outer request signature" (hex_decode (sl_sig s));
  bail_if (negb (str_len signature =? 64)%Z || negb (hex_encode signature == sl_sig s))
    "invalid outer request signature";;
  verify_bytes (REQUEST_DOMAIN +:+ ct) (base64_encode signature) key.
Definition Sealed_matches (s : Sealed) (r : Request) : result () :=
  bail_if (negb (sl_id s == rq_id r) || negb (sl_person s == rq_person r)
           || negb (sl_project s == rq_project r))
    "outer and inner request id, person or project does not match".

Definition seal_for_epoch (coin signed_v1 epoch epoch_recipient : string) (person_key : SigningKey)
    : result string :=
  bail_if (negb (epoch == "root") && negb (request_uuid epoch)) "invalid request epoch";;
  signed ← Signed_parse signed_v1;
  request ← Signed_verify signed (verifying_key person_key);
  ct ← encrypt coin epoch_recipient signed_v1;
  sig ← ctx "invalid base64" (base64_decode (sign_bytes (REQUEST_DOMAIN +:+ ct) person_key));
  Ok (json_print (JObject (Sealed_fields
    (mkSealed 2 (rq_id request) (rq_person request) (rq_project request) epoch
       (base64_encode ct) (hex_encode sig))))).
Definition seal (coin signed_v1 epoch_recipient : string) (person_key : SigningKey) : result string :=
  seal_for_epoch coin signed_v1 "root" epoch_recipient person_key.
Definition open (v2 identity : string) : result string :=
  sealed ← Sealed_parse v2;
  ct ← Sealed_ciphertext sealed;
  bytes ← decrypt identity ct;
  signed ← Signed_parse bytes;
  request ← Signed_request signed;
  Sealed_matches sealed request;;
  Ok bytes.
End request.

(** * Properties *)

Definition Action_wf (a : Action) : bool :=
  match a with ActComment _ _ _ line _ _ => opt_in in_u32 line | _ => true end.
(** Every integer of the request fits its Rust type. *)
Definition Request_wf (r : Request) : bool :=
  in_u32 (rq_format r) && in_i64 (rq_created r) && in_i64 (rq_expires r) &&
  Action_wf (rq_action r).

Lemma Action_roundtrip a :
  Action_wf a = true → Action_from_value (JObject (Action_fields a)) = Ok a.
Proof.
  destruct a as [| | | |n t [e|]|c v [p|] [l|] t [y|]|]; try done; simpl; intros Hl;
    (unfold Action_from_value; simpl; try done).
  all: unfold de_u32; cbn; by rewrite Hl.
Qed.
Lemma Request_roundtrip r :
  Request_wf r = true → Request_from_value (JObject (Request_fields r)) = Ok r.
Proof.
  unfold Request_wf. intros Hr. inv_ok. unfold Request_from_value, Request_fields.
  rewrite de_struct_fields by (apply (bool_decide_unpack _); by vm_compute).
  cbn -[Action_from_value Action_fields in_u32 in_i64].
  repeat (match goal with H : ?b = true |- context [if ?b then _ else _] => rewrite H end;
    cbn -[Action_from_value Action_fields in_u32 in_i64]).
  rewrite Action_roundtrip by done. by destruct r.
Qed.
Lemma Sealed_roundtrip s :
  in_u32 (sl_v s) = true → Sealed_from_value (JObject (Sealed_fields s)) = Ok s.
Proof.
  intros Hv. unfold Sealed_from_value, Sealed_fields.
  rewrite de_struct_fields by (apply (bool_decide_unpack _); by vm_compute).
  cbn -[in_u32]. rewrite Hv.
  by destruct s.
Qed.

Section request_facts.
Context `{HU : Uuid, HE : Encodings, HC : Crypto, HJ : JsonText}.

Lemma is_uuid_request_uuid `{!UuidSpec HU} s : is_uuid s = request_uuid s.
Proof.
  unfold is_uuid, request_uuid. destruct (uuid_parse s) as [u|]; [|by rewrite andb_false_r].
  destruct (uuid_text u == s) eqn:E; [|by rewrite andb_false_r]. apply eqb_eq in E as <-.
  rewrite andb_true_r. apply (str_len_nat _ 36), uuid_text_len.
Qed.

(** A new request lives exactly the default lifetime, and is refused rather than wrapped when
    that passes the range of [i64]. *)
Lemma Request_new_spec id project person created action r :
  in_i64 created = true →
  Request_new id project person created action = Ok r ↔
  r = mkRequest 1 id project person created (created + DEFAULT_LIFETIME_MS) action ∧
  (0 <= created <= i64_max - DEFAULT_LIFETIME_MS)%Z ∧
  request_id id = true ∧ request_uuid project = true ∧ login_name person = true ∧
  valid_action action = true.
Proof.
  intros Hc. unfold Request_new. split.
  - intros H. unfold Request_validate in H. inv_ok. simpl in *. unfold in_i64 in *.
    repeat split; try done; lia.
  - intros (-> & Hr & Hi & Hp & Hl & Ha). unfold in_i64 in *.
    assert (i64_min < 0 < DEFAULT_LIFETIME_MS)%Z by done.
    rewrite (proj2 (Z.leb_le _ _)), (proj2 (Z.leb_le _ _)) by lia. simpl.
    unfold Request_validate. simpl. rewrite Hi, Hp, Hl, Ha. simpl.
    rewrite (proj2 (Z.ltb_ge _ _)), (proj2 (Z.leb_gt _ _)) by lia. done.
Qed.

Lemma Signed_verify_inv s k r :
  Signed_verify s k = Ok r →
  (∃ sig, base64_decode (sg_s s) = Some sig ∧ ed_verify k (sg_r s) sig = true) ∧
  (∃ j, json_parse (sg_r s) = Ok j ∧ Request_from_value j = Ok r) ∧
  Request_validate r = Ok tt.
Proof.
  unfold Signed_verify, Signed_request, verify_bytes. intros H. inv_ok. eauto 8.
Qed.

(** A signed request survives its trip through the envelope: the parsed envelope holds the
    exact signed bytes, and they verify and read back as the request. *)
Lemma sign_parse_verify `{!EncodingsSpec HE, !CryptoSpec HC} r key
    (body := json_print (JObject (Request_fields r)))
    (s := mkSigned body (sign_bytes body key)) :
  Request_wf r = true → Request_validate r = Ok tt →
  json_parse body = Ok (JObject (Request_fields r)) →
  json_raw (Signed_to_bytes s) =
    Ok (RawObject [("r", body); ("s", json_print (JString (sg_s s)))]) →
  json_parse (json_print (JString (sg_s s))) = Ok (JString (sg_s s)) →
  (str_len (Signed_to_bytes s) <= MAX_BYTES)%Z →
  Request_sign r key = Ok s ∧ Signed_parse (Signed_to_bytes s) = Ok s ∧
  Signed_verify s (verifying_key key) = Ok r.
Proof.
  intros Hwf Hv Hb Hraw Hs Hlen. repeat split.
  - unfold Request_sign. by rewrite Hv.
  - unfold Signed_parse. rewrite (proj2 (Z.ltb_ge _ _)) by done. rewrite Hraw. rsimpl.
    rewrite raw_struct_fields by (apply (bool_decide_unpack _); by vm_compute).
    cbn. cbn in Hs. by rewrite Hs.
  - unfold Signed_verify. cbn [sg_r sg_s s]. rewrite verify_sign_bytes. simpl.
    unfold Signed_request. cbn [sg_r s]. fold body. rewrite Hb. rsimpl. rewrite Request_roundtrip by done.
    simpl. by rewrite Hv.
Qed.
(** Sealing a verified envelope and opening it gives the exact signed bytes back, and the
    outer signature of the sealed form verifies with the same person key. *)
Lemma seal_open_verify `{!EncodingsSpec HE, !CryptoSpec HC}
    coin signed_v1 epoch recipient identity key s r
    (ct := age_encrypt coin (str_trim recipient) signed_v1)
    (x := mkSealed 2 (rq_id r) (rq_person r) (rq_project r) epoch (base64_encode ct)
            (hex_encode (ed_sign key (REQUEST_DOMAIN +:+ ct))))
    (v2 := json_print (JObject (Sealed_fields x))) :
  epoch = "root" ∨ request_uuid epoch = true →
  Signed_parse signed_v1 = Ok s → Signed_verify s (verifying_key key) = Ok r →
  recipient_ok (str_trim recipient) = true →
  age_decrypt (str_trim identity) ct = Some signed_v1 →
  (str_len ct <= MAX_BYTES + 4096)%Z → (str_len v2 <= MAX_SEALED_BYTES)%Z →
  json_parse v2 = Ok (JObject (Sealed_fields x)) →
  seal_for_epoch coin signed_v1 epoch recipient key = Ok v2 ∧
  Sealed_parse v2 = Ok x ∧ Sealed_verify x (verifying_key key) = Ok tt ∧
  open v2 identity = Ok signed_v1.
Proof.
  intros Hep Hp Hv Hrc Hd Hct Hlen Hj.
  assert (Sealed_validate x = Ok tt) as Hval.
  { apply Signed_verify_inv in Hv as (_ & _ & Hv). unfold Request_validate in Hv. inv_ok.
    unfold Sealed_validate. simpl.
    repeat match goal with H : _ = true |- _ => rewrite H; clear H end. simpl.
    destruct Hep as [->|Hep]; [done|]. by rewrite Hep, orb_true_r. }
  assert (Sealed_parse v2 = Ok x) as Hpx.
  { unfold Sealed_parse. rewrite (proj2 (Z.ltb_ge _ _)) by done. rsimpl. rewrite Hj. rsimpl.
    rewrite Sealed_roundtrip by done. rsimpl. by rewrite Hval. }
  assert (Sealed_ciphertext x = Ok ct) as Hc.
  { unfold Sealed_ciphertext. cbn [sl_ct x]. rewrite base64_decode_encode. rsimpl.
    rewrite eqb_refl, (proj2 (Z.ltb_ge _ _)) by done. done. }
  repeat split.
  - unfold seal_for_epoch.
    assert (negb (epoch == "root") && negb (request_uuid epoch) = false) as ->.
    { destruct Hep as [-> | ->]; [done|]. by rewrite andb_false_r. }
    rsimpl. rewrite Hp. rsimpl. rewrite Hv. rsimpl. unfold encrypt. rewrite Hrc. rsimpl.
    unfold sign_bytes. by rewrite base64_decode_encode.
  - done.
  - unfold Sealed_verify. rewrite Hval. rsimpl. rewrite Hc. rsimpl. cbn [sl_sig x].
    rewrite hex_decode_encode. rsimpl. rewrite eqb_refl.
    assert ((str_len (ed_sign key (REQUEST_DOMAIN +:+ ct)) =? 64)%Z = true) as ->
      by (apply (str_len_nat _ 64), ed_sign_len). apply verify_sign_bytes.
  - unfold open. rewrite Hpx. rsimpl. rewrite Hc. rsimpl. unfold decrypt. rewrite Hd. rsimpl.
    rewrite Hp. rsimpl. unfold Signed_verify in Hv. inv_ok.
    match goal with H : Signed_request s = Ok _ |- _ => rewrite H end. rsimpl.
    unfold Sealed_matches. cbn [sl_id sl_person sl_project x]. by rewrite !eqb_refl.
Qed.
(** [open] returns bytes whose request agrees with the routing fields of the envelope. *)
Lemma open_bound v2 identity bytes :
  open v2 identity = Ok bytes →
  ∃ x s r, Sealed_parse v2 = Ok x ∧ Signed_parse bytes = Ok s ∧ Signed_request s = Ok r ∧
    sl_id x = rq_id r ∧ sl_person x = rq_person r ∧ sl_project x = rq_project r.
Proof.
  unfold open, Sealed_matches. intros H. inv_ok. eauto 10.
Qed.
End request_facts.

(** ** Main results *)

Definition sample_action : Action := Approve sample_uuid "main".
Definition sample_request : Request :=
  mkRequest 1 sample_uuid sample_uuid "ann@example.com" 5 (5 + DEFAULT_LIFETIME_MS) sample_action.

(** A printer that tells objects and strings apart, and the texts it gives. *)
Definition sample_print (j : json) : string :=
  match j with JObject _ => "B" | JString s => s | _ => "" end.
Definition sample_sig : string := hex_text (fit 64 "keyB").
Definition sample_bytes : string := "{r:B,s:" +:+ sample_sig +:+ "}".
Definition request_text : JsonText :=
  text_table [("B", JObject (Request_fields sample_request)); (sample_sig, JString sample_sig)]
    [(sample_bytes, RawObject [("r", "B"); ("s", sample_sig)])] sample_print.

Definition sample_ct : string := "age1x:" +:+ sample_bytes.
Definition sample_sealed : Sealed :=
  mkSealed 2 sample_uuid "ann@example.com" sample_uuid "root" (hex_text sample_ct)
    (hex_text (fit 64 ("key" +:+ REQUEST_DOMAIN +:+ sample_ct))).
Definition sealed_text : JsonText :=
  text_table [("B", JObject (Request_fields sample_request)); (sample_sig, JString sample_sig);
              ("SEALED", JObject (Sealed_fields sample_sealed))]
    [(sample_bytes, RawObject [("r", "B"); ("s", sample_sig)])]
    (λ j, match j with JObject (("v", _) :: _) => "SEALED" | _ => sample_print j end).
