(* ===== verification/Validation.v ===== *)
(** Validation of records that come from other machines ([layr-model/src/validation.rs]), with
    the release file lists ([release.rs]) and the transfer records ([operations.rs]) it
    checks. *)

From S2P Require Import Prelude Strs Json Canonical Types Extern Format Request.

(** ** Names *)

Definition check_name (kind name : string) : result () :=
  bail_if (memb kind ["line"; "tag"; "ref"] && memb name ["HEAD"; "head"])
    "reserved revision name: {name}";;
  bail_if ((kind == "line") && reserved_revision name)
    "reserved revision prefix in line name '{name}'";;
  let ok :=
    negb (is_empty name) && (str_len name <=? 200)%Z &&
    match first_byte name with Some c => is_ascii_alphanumeric c | None => false end &&
    all_bytes (λ c, is_ascii_alphanumeric c || Ascii.eqb c "-" || Ascii.eqb c "_" || Ascii.eqb c ".") name &&
    negb (ends_with ".lock" name) && negb (contains_str ".." name) in
  bail_if (negb ok)
    "invalid {kind} name '{name}': use letters, digits, '-', '_' and '.'; start with a letter or digit".

Definition is_name (s : string) : bool := is_ok (check_name "name" s).

Definition is_view_id (id : string) : bool :=
  (str_len id =? 64)%Z && all_bytes (λ c, is_ascii_hexdigit c && negb (is_ascii_uppercase c)) id.

Definition is_cache_name (s state : string) : bool :=
  match split_once "@" s with
  | Some (id, p) =>
      (id == state) && negb (is_empty p) &&
      all_bytes (λ c, is_ascii_alphanumeric c || byte_in "._-%" c) p &&
      negb (p == ".") && negb (p == "..")
  | None => false
  end.

Definition is_ref (s : string) : bool :=
  negb (is_empty s) && negb (contains_str ".." s) && negb (starts_with "/" s) &&
  negb (ends_with "/" s) && negb (contains_str "//" s) &&
  all_bytes (λ c, is_ascii_alphanumeric c || byte_in "._/-" c) s.

(** ** Views *)

Record Layer := mkLayer { la_overlay : string; la_state : string }.
Record View := mkView { vw_format : Z; vw_shared : string; vw_layers : list Layer }.
#[export] Instance Layer_eq_dec : EqDecision Layer.
Proof. solve_decision. Defined.
#[export] Instance View_eq_dec : EqDecision View.
Proof. solve_decision. Defined.
Definition View_new (shared : string) (layers : list Layer) : View := mkView 1 shared layers.

Definition Layer_fields (l : Layer) : json :=
  JObject [("overlay", JString (la_overlay l)); ("state", JString (la_state l))].
Definition Layer_from_value (j : json) : result Layer :=
  f ← de_struct ["overlay"; "state"] [] false j;
  overlay ← f_req de_string f "overlay"; state ← f_req de_string f "state";
  Ok (mkLayer overlay state).
(** The members in declaration order: the text the identity is a digest of. *)
Definition View_fields (v : View) : json :=
  JObject [("format", JInt (vw_format v)); ("shared", JString (vw_shared v));
           ("layers", JArray (Layer_fields <$> vw_layers v))].
Definition View_from_value (j : json) : result View :=
  f ← de_struct ["format"; "shared"; "layers"] [] true j;
  format ← f_req de_u32 f "format"; shared ← f_req de_string f "shared";
  layers ← f_req (de_vec Layer_from_value) f "layers";
  Ok (mkView format shared layers).

Section views.
Context `{Uuid, Encodings, Crypto, JsonText}.
Definition View_id (v : View) : string := hex_encode (sha256 (json_print (View_fields v))).
Definition View_validate (v : View) : result () :=
  bail_if (negb (vw_format v =? 1)%Z) "unsupported view format {}";;
  bail_if (negb (is_uuid (vw_shared v))) "invalid shared state in view";;
  for_each (λ l, check_name "overlay" (la_overlay l);;
                 bail_if (negb (is_uuid (la_state l))) "invalid state of overlay '{}'")
    (vw_layers v).
End views.

(** ** Release file lists ([release.rs]) *)

Definition MAX_FILES : nat := 64.
Definition MAX_FILE_BYTES : Z := RELEASE_FILE_LIMIT.

Record File := mkFile { fi_name : string; fi_size : Z; fi_sha256 : string; fi_object : string }.
Record Files := mkFiles { fs_reference : string; fs_state : string; fs_files : list File }.
#[export] Instance File_eq_dec : EqDecision File.
Proof. solve_decision. Defined.
#[export] Instance Files_eq_dec : EqDecision Files.
Proof. solve_decision. Defined.

Definition File_from_value (j : json) : result File :=
  f ← de_struct ["name"; "size"; "sha256"; "object"] [] true j;
  name ← f_req de_string f "name"; size ← f_req de_u64 f "size";
  sha256 ← f_req de_string f "sha256"; object ← f_req de_string f "object";
  Ok (mkFile name size sha256 object).
Definition Files_from_value (j : json) : result Files :=
  f ← de_struct ["reference"; "state"; "files"] [] true j;
  reference ← f_req de_string f "reference"; state ← f_req de_string f "state";
  files ← f_req (de_vec File_from_value) f "files";
  Ok (mkFiles reference state files).

Definition filename (name : string) : bool :=
  negb (is_empty name) && (str_len name <=? 255)%Z && negb (name == ".") && negb (name == "..") &&
  negb (existsb (λ c, is_control c || memb c [47; 92; 58]%Z) (chars name)) &&
  negb (match last_byte name with Some c => Ascii.eqb c " " || Ascii.eqb c "." | None => false end).

Section files.
Context `{Uuid, Unicode}.
(** One turn of the loop: the names and objects seen so far. *)
Definition check_file (seen : gset string * gset string) (f : File)
    : result (gset string * gset string) :=
  let '(names, objects) := seen in
  bail_if (negb (filename (fi_name f))
           || bool_decide (to_lowercase (fi_name f) ∈ names)
           || bool_decide (fi_object f ∈ objects)
           || (MAX_FILE_BYTES <? fi_size f)%Z
           || negb (release_file (fi_object f))
           || negb (str_len (fi_sha256 f) =? 64)%Z
           || negb (all_bytes (λ b, is_ascii_digit b || byte_between 97 102 b) (fi_sha256 f)))
    "invalid release file name, size, digest or object: {}";;
  Ok ({[to_lowercase (fi_name f)]} ∪ names, {[fi_object f]} ∪ objects).
Definition Files_validate (fs : Files) : result () :=
  bail_if (negb (starts_with "release/" (fs_reference fs)) || negb (is_ref (fs_reference fs))
           || negb (is_uuid (fs_state fs)) || (MAX_FILES <? length (fs_files fs))%nat)
    "invalid release files ref, state or count (maximum {MAX_FILES})";;
  foldM check_file (∅, ∅) (fs_files fs);;
  Ok ().
End files.

(** ** Transfers and versions ([operations.rs]) *)

Definition public_url (url : string) : string :=
  let url := before (λ a, Ascii.eqb a "?" || Ascii.eqb a "#") url in
  match split_once_str "://" url with
  | None => match rsplit_once "@" url with Some (_, address) => address | None => url end
  | Some (scheme, rest) =>
      let '(authority, path) :=
        match split_once "/" rest with Some (a, p) => (a, "/" +:+ p) | None => (rest, "") end in
      let host := match rsplit_once "@" authority with Some (_, host) => host | None => authority end in
      scheme +:+ "://" +:+ host +:+ path
  end.

Record Transfer := mkTransfer {
  tr_direction : string; tr_records_sent : Z; tr_records_received : Z; tr_states_sent : Z;
  tr_states_received : Z; tr_bytes_sent : Z; tr_bytes_received : Z;
  tr_state_ids_sent : list string; tr_state_ids_received : list string;
  tr_overlays : list string }.
Definition Transfer_from_value (j : json) : result Transfer :=
  f ← de_struct ["direction"; "records_sent"; "records_received"; "states_sent";
        "states_received"; "bytes_sent"; "bytes_received"; "state_ids_sent";
        "state_ids_received"; "overlays"] [] false j;
  direction ← f_req de_string f "direction";
  records_sent ← f_req de_u64 f "records_sent";
  records_received ← f_req de_u64 f "records_received";
  states_sent ← f_req de_u64 f "states_sent";
  states_received ← f_req de_u64 f "states_received";
  bytes_sent ← f_req de_u64 f "bytes_sent";
  bytes_received ← f_req de_u64 f "bytes_received";
  state_ids_sent ← f_req (de_vec de_string) f "state_ids_sent";
  state_ids_received ← f_req (de_vec de_string) f "state_ids_received";
  overlays ← f_req (de_vec de_string) f "overlays";
  Ok (mkTransfer direction records_sent records_received states_sent states_received bytes_sent
        bytes_received state_ids_sent state_ids_received overlays).

Record VersionOperation := mkVersion {
  vo_state : string; vo_kind : string; vo_source : string; vo_target_line : option string;
  vo_target_head : string }.
Definition VersionOperation_from_value (j : json) : result VersionOperation :=
  f ← de_struct ["state"; "kind"; "source"; "target_line"; "target_head"] [] false j;
  state ← f_req de_string f "state"; kind ← f_req de_string f "kind";
  source ← f_req de_string f "source"; target_line ← f_opt de_string f "target_line";
  target_head ← f_req de_string f "target_head";
  Ok (mkVersion state kind source target_line target_head).

(** ** Records *)

Section validate.
Context `{Uuid, Encodings, Crypto, JsonText, Unicode}.

(** The closure [uuid] of [validate]. *)
Definition uuid_field (what v : string) : result () :=
  bail_if (negb (is_uuid v)) ("record {}: " +:+ what +:+ " is not an id: {v:?}").
Definition uuid_opt (what : string) (v : option string) : result () :=
  match v with Some v => uuid_field what v | None => Ok () end.
(** [v.as_str().unwrap_or("")]. *)
Definition str_or_empty (v : json) : string := unwrap_or (as_str v) "".

Definition auxiliary_in (r : LogRecord) (id : string) : bool :=
  existsb (λ s, (st_id s == id) && auxiliary (st_kind s)) (r_states r).

Definition validate_state (r : LogRecord) (s : StateRec) : result () :=
  uuid_field "state" (st_id s);;
  uuid_opt "change" (st_change_id s);;
  match st_derived_from s with
  | Some id =>
      let view := (st_kind s == Derived) && (str_len id =? 64)%Z
                  && all_bytes (λ c, is_ascii_digit c || byte_between 97 102 c) id in
      if view then Ok () else uuid_field "derived source" id
  | None => Ok ()
  end;;
  bail_if (auxiliary (st_kind s) &&
           (is_some (st_line s) || negb (st_parents s == []) || is_some (st_change_id s)))
    "cache and derived states must be outside line history";;
  for_each (λ p, uuid_field "parent" p;;
                 bail_if (auxiliary_in r p) "source history cannot have a cache or derived parent")
    (st_parents s);;
  uuid_opt "line" (st_line s);;
  for_each (λ ps, check_rel ps.1;;
                  bail_if (negb (is_cache_name ps.2 (st_id s))) "record {}: bad cache name {snap:?}")
    (entries (st_caches s));;
  for_each (λ c, check_rel (cf_path c);;
                 for_each (uuid_field "conflict state")
                   (filter_map id [cf_base c; cf_ours c; cf_theirs c]))
    (st_conflicts s).

Definition validate_line (r : LogRecord) (kv : string * LineChange) : result () :=
  let '(id, ch) := kv in
  uuid_field "line" id;;
  for_each (λ st,
      bail_if (negb (is_name (ls_name st))) "record {}: bad line name {:?}";;
      uuid_field "head" (ls_head st);;
      bail_if (auxiliary_in r (ls_head st)) "line head cannot be a cache or derived state";;
      uuid_field "line machine" (ls_machine st))
    (filter_map Datatypes.id [lc_before ch; lc_after ch]);;
  for_each (uuid_field "working state")
    (filter_map Datatypes.id [lc_working_before ch; lc_working_after ch]).

Definition validate_queue_change (value : json) : result () :=
  change ← QueueChange_from_value value;
  uuid_field "queue entry" (qc_id change);;
  for_each (λ entry,
      bail_if (negb (qe_id entry == qc_id change) || negb (is_name (qe_into entry))
               || negb (memb (qe_status entry) ["pending"; "done"; "failed"])) "invalid queue entry";;
      uuid_field "queued state" (qe_state entry);;
      uuid_field "queue target line" (qe_target_line entry);;
      uuid_opt "queue change" (qe_change_id entry);;
      uuid_opt "queue result" (qe_result entry))
    (filter_map id [qc_before change; qc_after change]).

Definition check_transfer_ids (ids : list string) (count : Z) : result () :=
  bail_if (negb (Z.of_nat (length ids) =? count)%Z
           || negb (Z.of_nat (size (list_to_set ids : gset string)) =? count)%Z)
    "transfer state count differs from its state ids";;
  for_each (uuid_field "transferred state") ids.
Definition validate_transfer (r : LogRecord) (d : json) : result () :=
  transfer ← Transfer_from_value d;
  bail_if (negb (is_str d.["result"] "success") || negb (tr_direction transfer == r_op r))
    "invalid completed transfer result or direction";;
  url ← ctx "transfer URL missing" (as_str d.["url"]);
  bail_if (is_empty url || negb (public_url url == url) || existsb is_control (chars url))
    "transfer URL must omit credentials, query and fragment";;
  check_name "remote" (str_or_empty d.["remote"]);;
  check_transfer_ids (tr_state_ids_sent transfer) (tr_states_sent transfer);;
  check_transfer_ids (tr_state_ids_received transfer) (tr_states_received transfer);;
  bail_if ((r_op r == "push") &&
           (negb (tr_records_received transfer =? 0)%Z || negb (tr_states_received transfer =? 0)%Z
            || negb (tr_bytes_received transfer =? 0)%Z)) "push cannot receive data".

Definition validate_version (r : LogRecord) (value : json) : result () :=
  version ← VersionOperation_from_value value;
  uuid_field "version state" (vo_state version);;
  uuid_field "version source" (vo_source version);;
  uuid_field "version target head" (vo_target_head version);;
  uuid_opt "version target line" (vo_target_line version);;
  bail_if (negb (memb (vo_kind version) ["amend"; "replay"; "pick"])
           || negb (existsb (λ s, st_id s == vo_state version) (r_states r)))
    "invalid version kind or state".

Definition in_i32 (z : Z) : bool := (- 2 ^ 31 <=? z)%Z && (z <=? 2 ^ 31 - 1)%Z.
Definition validate_bisect (d : json) : result () :=
  for_each (λ key, uuid_field key (str_or_empty d.[key])) ["good"; "bad"; "first_bad"];;
  argv ← de_vec de_string d.["argv"];
  bail_if ((argv == []) || negb (d.["first_bad"] == d.["state"]) || (d.["good"] == d.["bad"]))
    "invalid bisect command or bounds";;
  steps ← ctx "bisect steps missing" (as_array d.["steps"]);
  for_each (λ step,
      uuid_field "bisect step" (str_or_empty step.["state"]);;
      bail_if (negb (is_some_and (as_i64 step.["exit"]) in_i32) || is_none (as_bool step.["reused"]))
        "invalid bisect check result") steps.

Definition validate_view (d : json) : result () :=
  value ← ctx "view.save has no descriptor" (get d "view");
  view ← View_from_value value;
  View_validate view;;
  let id := unwrap_or (v ← get d "view_id"; as_str v) "" in
  bail_if (negb (is_view_id id) || negb (View_id view == id))
    "view descriptor does not match its id".

Definition validate_ref_change (value : json) : result () :=
  ch ← RefChange_from_value value;
  bail_if (negb (is_ref (rc_name ch))) "invalid ref name {:?}";;
  for_each (λ v,
      bail_if (negb (rs_name v == rc_name ch)) "ref change names differ";;
      uuid_field "ref target" (rs_target v))
    (filter_map id [rc_before ch; rc_after ch]).

Definition validate_comment (value : json) : result () :=
  comment ← Comment_from_value value;
  uuid_field "comment" (cm_id comment);;
  uuid_field "change" (cm_change_id comment);;
  uuid_field "version" (cm_version comment);;
  uuid_opt "reply" (cm_reply_to comment);;
  bail_if (trim_is_empty (cm_text comment) || (65536 <? str_len (cm_text comment))%Z)
    "comment text must contain 1 to 65536 bytes";;
  bail_if ((cm_line comment == Some 0%Z) || (is_some (cm_line comment) && is_none (cm_path comment)))
    "comment line needs a path and a positive number";;
  match cm_path comment with
  | Some path =>
      bail_if (is_empty path || starts_with "/" path
               || existsb (λ p, is_empty p || (p == ".") || (p == "..")) (split "/" path)
               || has_byte "\" path)
        "comment path must be relative to the version root"
  | None => Ok ()
  end.
End validate.

Section validate_proof.
Context `{Uuid, Encodings, Crypto, JsonText, Unicode}.

Definition digest (text : string) : string := hex_encode (sha256 text).

(** What each action of a request authorizes: the operation and the members of its record. *)
Definition approval_matches (r : LogRecord) (d : json) (request : Request) (signed : Signed)
    (state expected : string) : bool :=
  let a := d.["attestation"] in
  (r_op r == "attest") && is_str a.["kind"] expected && is_str a.["subject"].["id"] state &&
  is_str a.["signer"] ("person:" +:+ rq_person request) &&
  is_str a.["payload_digest"] (digest (sg_r signed)).
Definition declassify_matches (d : json) (scope : string) : bool :=
  is_some_and (rsplit_once "@" scope) (λ '(path, prefix),
    is_str d.["declassify"].["path"] path &&
    is_some_and (as_str d.["declassify"].["hmac"]) (λ hash,
      (str_len hash =? 64)%Z && starts_with prefix hash && all_bytes is_ascii_hexdigit hash)).
Definition action_matches (r : LogRecord) (d : json) (request : Request) (signed : Signed)
    : result bool :=
  match rq_action request with
  | Approve state _ =>
      Ok (approval_matches r d request signed state "approval" && is_none (get d "declassify"))
  | Withdraw state _ =>
      Ok (approval_matches r d request signed state "revoke" && is_none (get d "declassify"))
  | Declassify state scope =>
      Ok (approval_matches r d request signed state "approval" && declassify_matches d scope)
  | ActComment change_id version path line text reply_to =>
      comment ← Comment_from_value d.["comment"];
      Ok ((r_op r == "comment") && (cm_id comment == rq_id request) &&
          (cm_change_id comment == change_id) && (cm_version comment == version) &&
          (cm_path comment == path) && (cm_line comment == line) && (cm_text comment == text) &&
          (cm_reply_to comment == reply_to))
  | QueueAdd state into =>
      let q := d.["queue_change"] in
      Ok ((r_op r == "queue.add") && is_str q.["id"] (rq_id request) &&
          is_str q.["after"].["state"] state && is_str q.["after"].["into"] into)
  | QueueRemove entry =>
      let q := d.["queue_change"] in
      Ok ((r_op r == "queue.remove") && is_str q.["id"] entry && is_null q.["after"])
  | RefMove name target expected =>
      let c := d.["ref_change"] in
      Ok ((r_op r == "ref.set") && is_str c.["name"] name && is_str c.["after"].["target"] target &&
          (as_str c.["before"].["target"] == expected))
  end.

Definition reason_missing (d : json) : bool := is_none_or (as_str d.["reason"]) trim_is_empty.
Definition validate_refusal (d : json) : result () :=
  bail_if (reason_missing d || negb (request_id (str_or_empty d.["request_id"])))
    "request refusal needs an id and a plain reason".

Definition validate_request (r : LogRecord) (d proof : json) : result () :=
  text ← ctx "request proof must preserve exact envelope bytes" (as_str proof);
  signed ← Signed_parse text;
  public ← ctx "request proof has no public key" (as_str d.["person_key"]);
  key ← person_verifying_key public;
  request ← Signed_verify signed key;
  object ← match get d "encrypted_request" with
    | Some encrypted =>
        text ← ctx "encrypted request proof must preserve exact envelope bytes" (as_str encrypted);
        sealed ← Sealed_parse text;
        key ← person_verifying_key public;
        Sealed_verify sealed key;;
        Sealed_matches sealed request;;
        Ok text
    | None => Ok text
    end;
  bail_if (negb (rq_project request == r_project r)
           || negb (is_str d.["request_id"] (rq_id request))
           || negb (ac_name (r_actor r) == "person:" +:+ rq_person request)
           || negb (ac_uid (r_actor r) =? u32_max)%Z
           || negb (is_str d.["request_digest"] (digest object)))
    "request proof does not match its operation record";;
  if r_op r == "request.refused" then
    bail_if (reason_missing d) "request refusal needs a plain reason"
  else
    matched ← action_matches r d request signed;
    bail_if (negb matched) "request proof does not authorize this operation";;
    bail_if ((rq_expires request <=? r_time r)%Z || (r_time r <? rq_created request)%Z)
      "request was applied outside its lifetime".

Definition validate_attestation (r : LogRecord) (d v : json) : result () :=
  a ← Attestation_from_value v;
  uuid_field "attestation" (at_attestation_id a);;
  bail_if (negb (at_attestation_id a == r_id r)) "attestation id must match its signed record";;
  (if su_kind (at_subject a) == "state" then uuid_field "subject" (su_id (at_subject a))
   else if (su_kind (at_subject a) == "view") && is_view_id (su_id (at_subject a)) then Ok ()
   else Err "unsupported attestation subject");;
  uuid_opt "change" (at_change_id a);;
  bail_if (negb (at_format a =? 1)%Z || negb (memb (at_kind a) ATTESTATION_KINDS))
    "unsupported attestation format, subject or kind";;
  bail_if ((negb (at_signer a == r_machine r) && negb (starts_with "person:" (at_signer a)))
           || negb (at_time a =? r_time r)%Z)
    "attestation signer and time must match its signed record";;
  bail_if (negb (is_view_id (at_payload_digest a))) "invalid attestation payload digest";;
  uuid_opt "payload reference" (at_payload_ref a);;
  match get d "check" with
  | Some result =>
      bail_if (negb (at_kind a == "check")
               || negb (at_payload_digest a == digest (json_print result)))
        "check payload digest does not match its signed result"
  | None => Ok ()
  end.

(** [d.get(k).and_then(|v| v.as_str())]. *)
Definition get_str (d : json) (k : string) : option string := v ← get d k; as_str v.

Definition validate_stack (st : json) : result () :=
  uuid_field "stack line" (unwrap_or (get_str st "line") "");;
  layers ← ctx "record {}: bad stack" (v ← get st "layers"; as_array v);
  for_each (λ l,
      bail_if (negb (is_name (unwrap_or (get_str l "overlay") ""))) "record {}: bad overlay name {name:?}";;
      uuid_field "overlay state" (unwrap_or (get_str l "state") "")) layers.

(** The members that every record may have, from [state] to [config]. *)
Definition validate_members (r : LogRecord) (d : json) : result () :=
  for_each (λ k, uuid_opt k (get_str d k))
    ["state"; "line"; "start"; "final_state"; "undo"; "base"; "theirs"; "onto"; "upstream";
     "source"; "export"; "id"];;
  uuid_opt "machine" (get_str d "machine");;
  for_each (λ k,
      match get_str d k with
      | Some v =>
          let overlay_project :=
            (r_op r == "project") && (k == "name") &&
            match split_once "%" v with Some (a, b) => is_name a && is_name b | None => false end in
          bail_if (negb (is_name v) && negb overlay_project) "record {}: bad {k} {v:?}"
      | None => Ok ()
      end) ["name"; "from"; "to"; "remote"];;
  match get d "stack" with Some st => validate_stack st | None => Ok () end;;
  for_each (λ k,
      match get_str d k with
      | Some v => bail_if (negb (is_ref v)) "record {}: bad {k} {v:?}"
      | None => Ok ()
      end) ["ref"; "branch"];;
  match (v ← get d "deleted"; as_array v) with
  | Some a => for_each (λ v, uuid_field "deleted state" (str_or_empty v)) a
  | None => Ok ()
  end;;
  for_each (λ field,
      match get_str d "state", (v ← get d field; as_object v) with
      | Some st, Some c =>
          for_each (λ ps : string * json,
              check_rel ps.1;;
              bail_if (negb (is_cache_name (str_or_empty ps.2) st)) "record {}: bad cache name") c
      | _, _ => Ok ()
      end) ["layers"; "caches"];;
  match get_str d "state", (v ← get d "uuids"; as_object v) with
  | Some st, Some u =>
      for_each (λ si : string * json,
          bail_if (negb (is_cache_name si.1 st)) "record {}: bad cache name";;
          uuid_field "cache subvolume" (str_or_empty si.2)) u
  | _, _ => Ok ()
  end;;
  match (v ← get d "config"; as_object v) with
  | Some c =>
      for_each (λ kv : string * json,
          bail_if (negb (all_bytes (λ ch, is_ascii_alphanumeric ch || byte_in "._-@*" ch) kv.1))
            "record {}: bad setting name {k:?}") c
  | None => Ok ()
  end.

(** [if let Some(v) = d.get(k) { ... }]. *)
Definition on_member (d : json) (k : string) (f : json → result ()) : result () :=
  match get d k with Some v => f v | None => Ok () end.

Definition validate (r : LogRecord) : result () :=
  when (r_op r == "release.files") (fs ← Files_from_value (r_data r); Files_validate fs);;
  uuid_field "id" (r_id r);;
  uuid_field "machine" (r_machine r);;
  when (negb (is_empty (r_project r))) (uuid_field "project" (r_project r));;
  for_each (validate_state r) (r_states r);;
  for_each (validate_line r) (entries (r_lines r));;
  let d := r_data r in
  on_member d "queue_change" validate_queue_change;;
  when (memb (r_op r) ["push"; "sync"]) (validate_transfer r d);;
  on_member d "version" (validate_version r);;
  when (r_op r == "bisect.run") (validate_bisect d);;
  when (r_op r == "view.save") (validate_view d);;
  on_member d "ref_change" validate_ref_change;;
  on_member d "comment" validate_comment;;
  when (r_op r == "request.refused") (validate_refusal d);;
  let person_attestation := is_some_and (get d "attestation") (λ a,
    is_some_and (as_str a.["signer"]) (starts_with "person:")) in
  bail_if (person_attestation && is_none (get d "request"))
    "person attestation needs its signed request";;
  on_member d "request" (validate_request r d);;
  on_member d "attestation" (validate_attestation r d);;
  on_member d "revokes" (λ v,
    ids ← ctx "invalid revocations" (as_array v);
    for_each (λ id, uuid_field "revoked attestation" (str_or_empty id)) ids);;
  validate_members r d.
End validate_proof.

(** * Properties *)

(** ** Names are single components, refs stay inside *)

Lemma is_name_inv s :
  is_name s = true →
  is_empty s = false ∧ (str_len s <= 200)%Z ∧
  (∃ a, first_byte s = Some a ∧ is_ascii_alphanumeric a = true) ∧
  all_bytes (λ c, is_ascii_alphanumeric c || Ascii.eqb c "-" || Ascii.eqb c "_" || Ascii.eqb c ".") s = true ∧
  ends_with ".lock" s = false ∧ contains_str ".." s = false.
Proof.
  unfold is_name, check_name. rewrite is_ok_true. intros [[] H]. inv_ok.
  destruct (first_byte s) as [a|] eqn:E; [|done]. repeat split; try done; [lia|eauto].
Qed.
Lemma is_name_single s : is_name s = true → single s.
Proof.
  intros (He & _ & (a & Ha & Hal) & Hb & _ & _)%is_name_inv. apply single_normal.
  - by apply (all_bytes_no_byte _ _ _ Hb).
  - unfold normal_piece. rewrite He. destruct s as [|b s]; [done|]. simpl in Ha. simplify_eq.
    destruct (String a s == ".") eqn:E1; [apply eqb_eq in E1; by simplify_eq|].
    destruct (String a s == "..") eqn:E2; [apply eqb_eq in E2; by simplify_eq|]. done.
Qed.
Lemma is_cache_name_inv s state :
  is_cache_name s state = true →
  ∃ p, s = state +:+ "@" +:+ p ∧ is_empty p = false ∧ has_byte "/" p = false.
Proof.
  unfold is_cache_name. destruct (split_once "@" s) as [[id p]|] eqn:E; [|done].
  apply split_once_some in E as [-> _]. intros H. inv_ok. exists p.
  rewrite str_app_cons, str_app_nil_l. repeat split; try done.
  match goal with H : all_bytes _ p = true |- _ => by apply (all_bytes_no_byte _ _ _ H) end.
Qed.
Lemma is_cache_name_single `{HU : Uuid, !UuidSpec HU} s state :
  is_uuid state = true → is_cache_name s state = true → single s.
Proof.
  intros Hst (p & -> & _ & Hp)%is_cache_name_inv. apply single_normal.
  - rewrite !has_byte_app, Hp, (is_uuid_no_byte "/" state) by done. done.
  - apply normal_piece_length. rewrite !str_length_app, (is_uuid_len _ Hst). lia.
Qed.
Lemma pieces_inside s :
  starts_with "/" s = false → (∀ piece, piece ∈ split "/" s → piece ≠ "..") → inside s.
Proof.
  intros Hs Hp dir. apply walk_inside, forallb_elem. unfold components. rewrite split_cons, Hs.
  assert (∀ first piece c, piece ∈ split "/" s → component first piece = Some c → climbs c = false) as Hc.
  { intros first piece c Hin. unfold component. destruct (is_empty piece); [done|].
    destruct (piece == "."); [by destruct first; intros; simplify_eq|].
    destruct (piece == "..") eqn:E; [|by intros; simplify_eq]. apply eqb_eq in E. by destruct (Hp piece Hin). }
  intros c. rewrite split_cons in Hc. simpl. rewrite elem_of_app. intros [Hin|Hin].
  - destruct (component true _) eqn:E; [|by apply not_elem_of_nil in Hin].
    apply list_elem_of_singleton in Hin as ->. simpl. erewrite Hc; [done| |done]. left.
  - apply list_elem_of_omap in Hin as (x & Hx & E). simpl. erewrite Hc; [done| |done]. by right.
Qed.
Lemma is_ref_inside s : is_ref s = true → inside s.
Proof.
  unfold is_ref. intros H. inv_ok. apply pieces_inside; [done|]. intros piece Hp ->.
  pose proof (split_contains "/" s "..") as Hs. rewrite Hs in *; done.
Qed.
(** A SHA-256 digest in hexadecimal. *)
Definition hex64 (s : string) : Prop :=
  str_len s = 64%Z ∧ all_bytes (λ c, is_ascii_digit c || byte_between 97 102 c) s = true.
Lemma is_view_id_hex s : is_view_id s = true → hex64 s.
Proof.
  unfold is_view_id, hex64. intros [Hl Hb]%andb_true_iff. split; [lia|].
  eapply all_bytes_impl; [|exact Hb]. intros c. by destruct c as [[] [] [] [] [] [] [] []].
Qed.

(** ** A validated record is safe *)

Section safe.
Context `{HU : Uuid, HE : Encodings, HC : Crypto, HJ : JsonText, HL : Unicode, !UuidSpec HU}.

Lemma uuid_field_ok what v u : uuid_field what v = Ok u → is_uuid v = true.
Proof. unfold uuid_field. intros H. by inv_ok. Qed.
Lemma uuid_opt_ok what v u : uuid_opt what v = Ok u → ∀ x, v = Some x → is_uuid x = true.
Proof. intros H x ->. by eapply uuid_field_ok. Qed.

(** Read the id checks and the loops among the hypotheses. *)
Ltac uuid_inv :=
  repeat match goal with
  | H : uuid_field _ _ = Ok _ |- _ => apply uuid_field_ok in H
  | H : uuid_opt _ _ = Ok _ |- _ => pose proof (uuid_opt_ok _ _ _ H); clear H
  | H : for_each _ _ = Ok _ |- _ => rewrite for_each_ok, Forall_forall in H
  end.

Lemma elem_of_option_list {A} (x : A) o : x ∈ option_list o → o = Some x.
Proof. destruct o; simpl; [by intros ->%list_elem_of_singleton|set_solver]. Qed.

Definition ids_of_state (s : StateRec) : list string :=
  st_id s :: st_parents s ++ option_list (st_change_id s) ++ option_list (st_line s) ++
  concat ((λ c, filter_map id [cf_base c; cf_ours c; cf_theirs c]) <$> st_conflicts s).
(** States refer to ids only; caches and conflicts name paths below the root, and a snapshot
    is one directory entry. *)
Definition state_safe (s : StateRec) : Prop :=
  (∀ i, i ∈ ids_of_state s → is_uuid i = true) ∧
  (∀ i, st_derived_from s = Some i → is_uuid i = true ∨ (st_kind s = Derived ∧ hex64 i)) ∧
  (∀ path snap, st_caches s !! path = Some snap → inside path ∧ single snap) ∧
  (∀ c, c ∈ st_conflicts s → inside (cf_path c)).
(** Cache and derived states are outside history: they have no line, parents or change, and
    no state of the record has one as a parent. *)
Definition state_placed (r : LogRecord) (s : StateRec) : Prop :=
  (auxiliary (st_kind s) = true → st_line s = None ∧ st_parents s = [] ∧ st_change_id s = None) ∧
  ∀ p t, p ∈ st_parents s → t ∈ r_states r → st_id t = p → auxiliary (st_kind t) = false.

Lemma auxiliary_in_false r id t :
  auxiliary_in r id = false → t ∈ r_states r → st_id t = id → auxiliary (st_kind t) = false.
Proof.
  unfold auxiliary_in. rewrite existsb_elem_false. intros Hr Ht <-. specialize (Hr t Ht).
  by rewrite eqb_refl in Hr.
Qed.
Lemma validate_state_ok r s : validate_state r s = Ok tt → state_safe s ∧ state_placed r s.
Proof.
  unfold validate_state. intros H. inv_ok.
  uuid_inv.
  split; [split; [|split; [|split]]|split].
  - intros i. unfold ids_of_state. rewrite elem_of_cons, !elem_of_app.
    intros [->|[Hi|[Hi|[Hi|Hi]]]]; [done|..].
    + match goal with H : ∀ x, x ∈ st_parents s → _ |- _ => specialize (H i Hi) end.
      inv_ok. by eapply uuid_field_ok.
    + eauto using elem_of_option_list.
    + eauto using elem_of_option_list.
    + apply list_elem_of_In, in_concat in Hi as (l & Hl & Hi). apply list_elem_of_In in Hl, Hi.
      apply list_elem_of_fmap in Hl as (c & -> & Hc).
      match goal with H : ∀ x, x ∈ st_conflicts s → _ |- _ => specialize (H c Hc) end.
      inv_ok. match goal with H : for_each _ _ = Ok _ |- _ =>
        rewrite for_each_ok, Forall_forall in H; specialize (H i Hi) end. by eapply uuid_field_ok.
  - intros i Hi. rewrite Hi in *. destruct (_ && _) eqn:E; [right|left; by eapply uuid_field_ok].
    apply andb_true_iff in E as [[Hk%eqb_eq Hl]%andb_true_iff Hb]. split; [done|]. split; [lia|done].
  - intros path snap Hp.
    match goal with H : ∀ x, x ∈ entries _ → _ |- _ =>
      specialize (H (path, snap)); rewrite elem_of_entries in H; specialize (H Hp) end.
    simpl in *. inv_ok. split; [by apply check_rel_inside|by eapply is_cache_name_single].
  - intros c Hc. match goal with H : ∀ x, x ∈ st_conflicts s → _ |- _ => specialize (H c Hc) end.
    inv_ok. by apply check_rel_inside.
  - intros Ha. match goal with H : _ && _ = false |- _ => rewrite Ha in H end. simpl in *. inv_ok.
    destruct (st_line s), (st_change_id s); done.
  - intros p t Hp Ht Hid.
    match goal with H : ∀ x, x ∈ st_parents s → _ |- _ => specialize (H p Hp) end.
    inv_ok. by eapply auxiliary_in_false.
Qed.

Definition line_safe (r : LogRecord) (id : string) (ch : LineChange) : Prop :=
  is_uuid id = true ∧
  (∀ st, lc_before ch = Some st ∨ lc_after ch = Some st →
     single (ls_name st) ∧ is_uuid (ls_head st) = true ∧ is_uuid (ls_machine st) = true ∧
     ∀ t, t ∈ r_states r → st_id t = ls_head st → auxiliary (st_kind t) = false) ∧
  ∀ w, lc_working_before ch = Some w ∨ lc_working_after ch = Some w → is_uuid w = true.

Lemma elem_of_flatten2 {A} (a b : option A) x : a = Some x ∨ b = Some x → x ∈ filter_map id [a; b].
Proof. destruct a, b; simpl; intros [?|?]; simplify_eq; set_solver. Qed.
Lemma validate_line_ok r id ch : validate_line r (id, ch) = Ok tt → line_safe r id ch.
Proof.
  unfold validate_line. intros H. inv_ok.
  uuid_inv. split; [done|]. split.
  - intros st Hst%elem_of_flatten2.
    match goal with H : ∀ x : LineState, _ |- _ => specialize (H st Hst) end. inv_ok.
    split; [by apply is_name_single|]. split; [by eapply uuid_field_ok|].
    split; [by eapply uuid_field_ok|]. intros t Ht Hid. by eapply auxiliary_in_false.
  - intros w Hw%elem_of_flatten2.
    match goal with H : ∀ x : string, _ |- _ => specialize (H w Hw) end. by eapply uuid_field_ok.
Qed.

(** The members of a record's data that are typed. *)
Definition ref_change_safe (ch : RefChange) : Prop :=
  inside (rc_name ch) ∧
  ∀ v, rc_before ch = Some v ∨ rc_after ch = Some v → rs_name v = rc_name ch ∧ is_uuid (rs_target v) = true.
Definition queue_change_safe (ch : QueueChange) : Prop :=
  is_uuid (qc_id ch) = true ∧
  ∀ e, qc_before ch = Some e ∨ qc_after ch = Some e →
    qe_id e = qc_id ch ∧ single (qe_into e) ∧ qe_status e ∈ ["pending"; "done"; "failed"] ∧
    is_uuid (qe_state e) = true ∧ is_uuid (qe_target_line e) = true ∧
    ∀ i, qe_change_id e = Some i ∨ qe_result e = Some i → is_uuid i = true.
Definition comment_safe (c : Comment) : Prop :=
  is_uuid (cm_id c) = true ∧ is_uuid (cm_change_id c) = true ∧ is_uuid (cm_version c) = true ∧
  (∀ i, cm_reply_to c = Some i → is_uuid i = true) ∧ ∀ path, cm_path c = Some path → inside path.
Definition version_safe (r : LogRecord) (v : VersionOperation) : Prop :=
  (∃ s, s ∈ r_states r ∧ st_id s = vo_state v) ∧ vo_kind v ∈ ["amend"; "replay"; "pick"] ∧
  (∀ i, i ∈ [vo_state v; vo_source v; vo_target_head v] → is_uuid i = true) ∧
  ∀ i, vo_target_line v = Some i → is_uuid i = true.
(** Evidence is bound to its record: id, time and, unless a person signs it, machine. *)
Definition attestation_safe (r : LogRecord) (a : Attestation) : Prop :=
  at_format a = 1%Z ∧ at_attestation_id a = r_id r ∧ at_time a = r_time r ∧
  (at_signer a = r_machine r ∨ ∃ login, at_signer a = "person:" +:+ login) ∧
  at_kind a ∈ ["check"; "approval"; "origin"; "import"; "quarantine"; "revoke"] ∧
  (su_kind (at_subject a) = "state" ∧ is_uuid (su_id (at_subject a)) = true ∨
   su_kind (at_subject a) = "view" ∧ hex64 (su_id (at_subject a))) ∧
  (∀ i, at_change_id a = Some i ∨ at_payload_ref a = Some i → is_uuid i = true) ∧
  hex64 (at_payload_digest a) ∧
  ∀ result, get (r_data r) "check" = Some result →
    at_kind a = "check" ∧ at_payload_digest a = hex_encode (sha256 (json_print result)).
(** A typed member can be read, and what it holds is safe. *)
Definition member {A} (r : LogRecord) (k : string) (read : json → result A) (safe : A → Prop) : Prop :=
  ∀ v, get (r_data r) k = Some v → ∃ a, read v = Ok a ∧ safe a.

Definition record_safe (r : LogRecord) : Prop :=
  is_uuid (r_id r) = true ∧ is_uuid (r_machine r) = true ∧
  (r_project r = "" ∨ is_uuid (r_project r) = true) ∧
  (∀ s, s ∈ r_states r → state_safe s ∧ state_placed r s) ∧
  (∀ id ch, r_lines r !! id = Some ch → line_safe r id ch) ∧
  member r "ref_change" RefChange_from_value ref_change_safe ∧
  member r "queue_change" QueueChange_from_value queue_change_safe ∧
  member r "comment" Comment_from_value comment_safe ∧
  member r "version" VersionOperation_from_value (version_safe r) ∧
  member r "attestation" Attestation_from_value (attestation_safe r) ∧
  (∀ k l v, k ∈ ["revokes"; "deleted"] → (v ← get (r_data r) k; as_array v) = Some l → v ∈ l →
     ∃ i, v = JString i ∧ is_uuid i = true) ∧
  (∀ st k c path snap, k ∈ ["layers"; "caches"] → get_str (r_data r) "state" = Some st →
     (v ← get (r_data r) k; as_object v) = Some c → (path, JString snap) ∈ c → inside path ∧ single snap) ∧
  (∀ k v, k ∈ ["state"; "line"; "start"; "final_state"; "undo"; "base"; "theirs"; "onto";
               "upstream"; "source"; "export"; "id"; "machine"] →
     get_str (r_data r) k = Some v → is_uuid v = true) ∧
  (∀ k v, k ∈ ["ref"; "branch"] → get_str (r_data r) k = Some v → inside v) ∧
  (∀ k v, k ∈ ["from"; "to"; "remote"] → get_str (r_data r) k = Some v → single v).

Lemma validate_ref_change_ok v : validate_ref_change v = Ok tt → ∃ ch, RefChange_from_value v = Ok ch ∧ ref_change_safe ch.
Proof.
  unfold validate_ref_change. intros H. inv_ok. uuid_inv. exists x. split; [done|].
  split; [by apply is_ref_inside|]. intros w Hw%elem_of_flatten2.
  match goal with H : ∀ x : RefState, _ |- _ => specialize (H w Hw) end. inv_ok. split; [done|by eapply uuid_field_ok].
Qed.
Lemma validate_queue_change_ok v :
  validate_queue_change v = Ok tt → ∃ ch, QueueChange_from_value v = Ok ch ∧ queue_change_safe ch.
Proof.
  unfold validate_queue_change. intros H. inv_ok. uuid_inv. exists x. split; [done|]. split; [done|].
  intros e He%elem_of_flatten2. match goal with H : ∀ x : QueueEntry, _ |- _ => specialize (H e He) end. inv_ok. uuid_inv.
  split; [done|]. split; [by apply is_name_single|]. split; [by apply memb_true|]. split; [done|]. split; [done|]. naive_solver.
Qed.
Lemma validate_comment_ok v : validate_comment v = Ok tt → ∃ c, Comment_from_value v = Ok c ∧ comment_safe c.
Proof.
  unfold validate_comment. intros H. inv_ok. uuid_inv. exists x. split; [done|]. repeat (split; [done|]).
  intros path Hp. rewrite Hp in *. inv_ok. apply pieces_inside; [done|]. intros piece Hin ->.
  match goal with H : existsb _ _ = false |- _ => rewrite existsb_elem_false in H; specialize (H _ Hin) end. done.
Qed.
Lemma validate_version_ok r v :
  validate_version r v = Ok tt → ∃ o, VersionOperation_from_value v = Ok o ∧ version_safe r o.
Proof.
  unfold validate_version. intros H. inv_ok. uuid_inv. exists x. split; [done|]. split; [|split; [|split]].
  - match goal with H : existsb _ _ = true |- _ => apply existsb_elem in H as (s & Hs & E%eqb_eq) end. eauto.
  - by apply memb_true.
  - intros i. rewrite !elem_of_cons. intros [->|[->|[->|Hn]]]; try done. by apply not_elem_of_nil in Hn.
  - done.
Qed.
Lemma validate_attestation_ok r v :
  validate_attestation r (r_data r) v = Ok tt → ∃ a, Attestation_from_value v = Ok a ∧ attestation_safe r a.
Proof.
  unfold validate_attestation. intros H. inv_ok. uuid_inv. exists x. split; [done|].
  unfold attestation_safe.
  split; [lia|]. split; [done|]. split; [lia|]. split.
  { match goal with H : negb _ && negb _ = false |- _ => apply andb_false_iff in H as [H|H]; apply negb_false_iff in H end;
      [left; by apply eqb_eq|right; by apply starts_with_true]. }
  split; [by apply memb_true|]. split.
  { destruct (su_kind (at_subject x) == "state") eqn:E; [left|right].
    - apply eqb_eq in E. split; [done|by eapply uuid_field_ok].
    - destruct (_ && _) eqn:E'; [|done]. apply andb_true_iff in E' as [E'%eqb_eq ?]. split; [done|by apply is_view_id_hex]. }
  split; [naive_solver|]. split; [by apply is_view_id_hex|].
  intros result Hres. rewrite Hres in *. inv_ok. done.
Qed.

Lemma on_member_safe {A} r k (check : json → result ()) (read : json → result A) (safe : A → Prop) u :
  on_member (r_data r) k check = Ok u → (∀ v, check v = Ok tt → ∃ a, read v = Ok a ∧ safe a) → member r k read safe.
Proof. unfold on_member. intros H Hc v Hv. rewrite Hv in H. destruct u. auto. Qed.
Lemma uuid_string v what u : uuid_field what (str_or_empty v) = Ok u → ∃ i, v = JString i ∧ is_uuid i = true.
Proof.
  intros Hu%uuid_field_ok. assert (is_uuid "" = false) as He.
  { destruct (is_uuid "") eqn:E; [|done]. by apply is_uuid_len in E. }
  unfold str_or_empty in Hu. destruct v; cbn in Hu; try congruence. eauto.
Qed.
Lemma validate_members_safe r :
  validate_members r (r_data r) = Ok tt →
  (∀ l v, (v ← get (r_data r) "deleted"; as_array v) = Some l → v ∈ l → ∃ i, v = JString i ∧ is_uuid i = true) ∧
  (∀ st k c path snap, k ∈ ["layers"; "caches"] → get_str (r_data r) "state" = Some st →
     (v ← get (r_data r) k; as_object v) = Some c → (path, JString snap) ∈ c → inside path ∧ single snap) ∧
  (∀ k v, k ∈ ["state"; "line"; "start"; "final_state"; "undo"; "base"; "theirs"; "onto";
               "upstream"; "source"; "export"; "id"; "machine"] →
     get_str (r_data r) k = Some v → is_uuid v = true) ∧
  (∀ k v, k ∈ ["ref"; "branch"] → get_str (r_data r) k = Some v → inside v) ∧
  (∀ k v, k ∈ ["from"; "to"; "remote"] → get_str (r_data r) k = Some v → single v).
Proof.
  unfold validate_members. intros H. inv_ok. uuid_inv.
  assert (∀ k v, k ∈ ["state"; "line"; "start"; "final_state"; "undo"; "base"; "theirs"; "onto";
               "upstream"; "source"; "export"; "id"; "machine"] →
     get_str (r_data r) k = Some v → is_uuid v = true) as Hids.
  { intros k v Hk Hv.
    change (k ∈ ["state"; "line"; "start"; "final_state"; "undo"; "base"; "theirs"; "onto";
               "upstream"; "source"; "export"; "id"] ++ ["machine"]) in Hk.
    apply elem_of_app in Hk as [Hk| ->%list_elem_of_singleton]; [|by eauto].
    match goal with H : ∀ x, x ∈ ["state"; _; _; _; _; _; _; _; _; _; _; _] → _ |- _ =>
      specialize (H k Hk) end. by eapply uuid_opt_ok. }
  split; [|split; [|split; [done|split]]].
  - intros l v Hl Hv. rewrite Hl in *. uuid_inv.
    match goal with H : ∀ x, x ∈ l → _ |- _ => specialize (H v Hv) end. by eapply uuid_string.
  - intros st k c path snap Hk Hst Hc Hin.
    match goal with H : ∀ x, x ∈ ["layers"; "caches"] → _ |- _ =>
      specialize (H k Hk); rewrite Hst in H end.
    destruct (get (r_data r) k) as [w|]; [|done]. cbn in *. rewrite Hc in *. uuid_inv.
    match goal with H : ∀ x, x ∈ c → _ |- _ => specialize (H _ Hin) end. cbn in *. inv_ok.
    split; [by apply check_rel_inside|]. apply (is_cache_name_single snap st); [|done]. apply (Hids "state"); [left|done].
  - intros k v Hk Hv. match goal with H : ∀ x, x ∈ ["ref"; "branch"] → _ |- _ => specialize (H k Hk) end.
    rewrite Hv in *. inv_ok. by apply is_ref_inside.
  - intros k v Hk Hv. assert (k ∈ ["name"; "from"; "to"; "remote"]) as Hk' by (by right).
    match goal with H : ∀ x, x ∈ ["name"; "from"; "to"; "remote"] → _ |- _ => specialize (H k Hk') end.
    rewrite Hv in *. inv_ok. apply is_name_single. destruct (is_name v); [done|].
    assert ((k == "name") = false) as Hn.
    { apply eqb_false. intros ->. by apply memb_true in Hk; vm_compute in Hk. }
    rewrite Hn, andb_false_r in *. done.
Qed.

Lemma validate_safe r : validate r = Ok tt → record_safe r.
Proof.
  unfold validate, when. intros H. inv_ok. uuid_inv.
  match goal with H : validate_members _ _ = Ok _ |- _ =>
    apply validate_members_safe in H as (Hdel & Hcache & Hids & Hrefs & Hnames) end.
  split; [done|]. split; [done|]. split.
  { unfold is_empty in *. destruct (r_project r == "") eqn:E; [left; by apply eqb_eq|right].
    simpl in *. by eapply uuid_field_ok. }
  split; [intros s Hs; by apply validate_state_ok; auto|].
  split.
  { intros id ch Hl. apply validate_line_ok.
    match goal with H : ∀ x, x ∈ entries _ → _ |- _ => apply H end. by apply elem_of_entries. }
  split; [by eapply on_member_safe; [done|apply validate_ref_change_ok]|].
  split; [by eapply on_member_safe; [done|apply validate_queue_change_ok]|].
  split; [by eapply on_member_safe; [done|apply validate_comment_ok]|].
  split; [by eapply on_member_safe; [done|apply validate_version_ok]|].
  split; [by eapply on_member_safe; [done|apply validate_attestation_ok]|].
  split; [|done]. intros k l v. rewrite !elem_of_cons. intros [->|[->|Hn]]; [|by eauto|by apply not_elem_of_nil in Hn].
  unfold on_member in *. destruct (get (r_data r) "revokes") as [w|]; [|done]. cbn. intros Hl Hv. rewrite Hl in *. inv_ok. uuid_inv.
  match goal with H : ∀ x : json, _ |- _ => specialize (H v Hv) end. by eapply uuid_string.
Qed.
End safe.

(** ** What a request proof authorizes *)

Section authorized.
Context `{HU : Uuid, HE : Encodings, HC : Crypto, HJ : JsonText, HL : Unicode}.

(** The operation a request of each kind may cause. *)
Definition action_op (a : Action) : string :=
  match a with
  | Approve _ _ | Withdraw _ _ | Declassify _ _ => "attest"
  | QueueAdd _ _ => "queue.add"
  | QueueRemove _ => "queue.remove"
  | RefMove _ _ _ => "ref.set"
  | ActComment _ _ _ _ _ _ => "comment"
  end.

Lemma action_matches_op r d request signed :
  action_matches r d request signed = Ok true → r_op r = action_op (rq_action request).
Proof.
  unfold action_matches, approval_matches. destruct (rq_action request); simpl; intros H; inv_ok;
    repeat match goal with H : (_ && _) = true |- _ => apply andb_true_iff in H as [? ?] end;
    by inv_ok.
Qed.

(** A verified request of a person that the record applies. *)
Definition proven (r : LogRecord) (signed : Signed) (request : Request) : Prop :=
  ∃ text public key,
    get (r_data r) "request" = Some (JString text) ∧
    as_str (r_data r).["person_key"] = Some public ∧
    person_verifying_key public = Ok key ∧ Signed_parse text = Ok signed ∧
    Signed_verify signed key = Ok request ∧
    rq_project request = r_project r ∧ ac_name (r_actor r) = "person:" +:+ rq_person request ∧
    ac_uid (r_actor r) = u32_max.

Lemma validate_request_proven r proof :
  get (r_data r) "request" = Some proof →
  validate_request r (r_data r) proof = Ok tt →
  ∃ signed request, proven r signed request ∧
    (r_op r ≠ "request.refused" →
     action_matches r (r_data r) request signed = Ok true ∧
     (rq_created request <= r_time r < rq_expires request)%Z).
Proof.
  intros Hg. unfold validate_request. intros H. inv_ok.
  match goal with H : as_str proof = Some _ |- _ => destruct proof; try discriminate H; injection H as -> end.
  match goal with H : Signed_verify ?s _ = Ok ?q |- _ => exists s, q end. split.
  - unfold proven. eexists _, _, _. repeat split; try done. by apply Z.eqb_eq.
  - intros Hop. rewrite (proj2 (eqb_false _ _) Hop) in *. inv_ok.
    split; [done|]. lia.
Qed.
Lemma validate_on_request r proof :
  validate r = Ok tt → get (r_data r) "request" = Some proof →
  validate_request r (r_data r) proof = Ok tt.
Proof.
  unfold validate. intros H Hg. inv_ok.
  match goal with H : on_member _ "request" _ = Ok _ |- _ =>
    unfold on_member in H; by rewrite Hg in H end.
Qed.

(** The members of an attestation that is written as an object. *)
Lemma Attestation_members m a :
  Attestation_from_value (JObject m) = Ok a →
  jlookup "signer" m = Some (JString (at_signer a)) ∧
  jlookup "kind" m = Some (JString (at_kind a)) ∧
  jlookup "payload_digest" m = Some (JString (at_payload_digest a)) ∧
  ∃ s, jlookup "subject" m = Some s ∧ Subject_from_value s = Ok (at_subject a).
Proof.
  unfold Attestation_from_value. intros (f & ->%de_struct_object & H)%bind_ok. inv_ok.
  unfold f_req in *. simpl in *.
  repeat match goal with
  | H : match jlookup ?k ?m with _ => _ end = Ok _ |- _ =>
      destruct (jlookup k m) eqn:?; [|discriminate H]
  | H : de_string ?j = Ok _ |- _ => destruct j; try discriminate H; simpl in H; injection H as ->
  end. eauto 10.
Qed.
Lemma Subject_id s id x : Subject_from_value s = Ok x → is_str s.["id"] id = true → su_id x = id.
Proof.
  unfold is_str, at_key. destruct s as [| | | | | |m]; try done. simpl. intros H Hid.
  apply eqb_eq in Hid. unfold Subject_from_value in H.
  apply bind_ok in H as (f & ->%de_struct_object & H). inv_ok. unfold f_req in *. simpl in *.
  destruct (jlookup "id" m) as [[]|]; simpl in *; naive_solver.
Qed.
Lemma is_str_at v k s : is_str v.[k] s = true → get v k = Some (JString s).
Proof.
  unfold is_str, at_key. intros H%eqb_eq. destruct (get v k) as [[]|]; naive_solver.
Qed.

(** A person's attestation that is written as an object in an attest record is the one that
    the person's verified request asks for, applied within its lifetime. *)
Lemma attest_authorized_lemma r m a :
  validate r = Ok tt → r_op r = "attest" →
  get (r_data r) "attestation" = Some (JObject m) →
  Attestation_from_value (JObject m) = Ok a → starts_with "person:" (at_signer a) = true →
  ∃ signed request, proven r signed request ∧
    (rq_created request <= r_time r < rq_expires request)%Z ∧
    at_signer a = "person:" +:+ rq_person request ∧
    at_payload_digest a = digest (sg_r signed) ∧
    match rq_action request with
    | Approve st _ | Declassify st _ => su_id (at_subject a) = st ∧ at_kind a = "approval"
    | Withdraw st _ => su_id (at_subject a) = st ∧ at_kind a = "revoke"
    | _ => False
    end.
Proof.
  intros Hv Hop Hat Ha Hs.
  destruct (Attestation_members _ _ Ha) as (Esig & Ekind & Edig & s & Esub & Hsub).
  assert (∃ proof, get (r_data r) "request" = Some proof) as [proof Hp].
  { unfold validate in Hv. inv_ok. rewrite Hat in *. simpl in *.
    match goal with H : _ && is_none _ = false |- _ => rename H into Hn end.
    unfold at_key in Hn. simpl in Hn. rewrite Esig in Hn. simpl in Hn. rewrite Hs in Hn. simpl in Hn.
    destruct (get (r_data r) "request"); [eauto|done]. }
  destruct (validate_request_proven r proof Hp (validate_on_request _ _ Hv Hp))
    as (signed & request & Hpr & Hm).
  destruct (Hm ltac:(by rewrite Hop)) as [Hmatch Htime]. exists signed, request.
  split; [done|]. split; [done|].
  assert (∀ st k, approval_matches r (r_data r) request signed st k = true →
    at_signer a = "person:" +:+ rq_person request ∧ at_payload_digest a = digest (sg_r signed) ∧
    su_id (at_subject a) = st ∧ at_kind a = k) as Happ.
  { intros st k. unfold approval_matches, at_key. rewrite Hat. simpl. intros H. inv_ok.
    repeat match goal with H : (_ && _) = true |- _ => apply andb_true_iff in H as [? ?] end.
    unfold is_str in *. rewrite Esig in *. rewrite Ekind in *. rewrite Edig in *. rewrite Esub in *.
    simpl in *. inv_ok.
    repeat split; try done. eapply Subject_id; [done|]. unfold is_str, at_key. by apply eqb_true. }
  unfold action_matches in Hmatch. pose proof (action_matches_op _ _ _ _ Hmatch) as Ho.
  rewrite Hop in Ho. destruct (rq_action request); try discriminate Ho; inv_ok;
    match goal with H : approval_matches _ _ _ _ _ _ = true |- _ =>
      destruct (Happ _ _ H) as (? & ? & ? & ?) end; auto.
Qed.
End authorized.

(** ** Public addresses *)

Definition url_byte (a : ascii) : bool := negb (Ascii.eqb a "?" || Ascii.eqb a "#").

(** The host part of an authority, after the last [@]. *)
Definition host_of (authority : string) : string :=
  match rsplit_once "@" authority with Some (_, host) => host | None => authority end.
Lemma host_of_spec authority :
  (∃ u, authority = u +:+ host_of authority) ∧ has_byte "@" (host_of authority) = false.
Proof.
  unfold host_of. destruct (rsplit_once "@" authority) as [[u h]|] eqn:E.
  - apply rsplit_once_some in E as [-> Hh]. split; [|done]. exists (u +:+ "@").
    by rewrite str_app_assoc, str_app_cons.
  - apply rsplit_once_none in E. split; [|done]. by exists "".
Qed.
Lemma host_of_id h : has_byte "@" h = false → host_of h = h.
Proof. unfold host_of. intros ->%rsplit_once_none. done. Qed.

Definition split_authority (rest : string) : string * string :=
  match split_once "/" rest with Some (a, p) => (a, "/" +:+ p) | None => (rest, "") end.
Lemma split_authority_spec rest a p :
  split_authority rest = (a, p) →
  rest = a +:+ p ∧ has_byte "/" a = false ∧ (p = "" ∨ ∃ q, p = "/" +:+ q).
Proof.
  unfold split_authority. destruct (split_once "/" rest) as [[x y]|] eqn:E; intros [= <- <-].
  - apply split_once_some in E as [-> Ha]. rewrite str_app_cons, str_app_nil_l. eauto.
  - rewrite str_app_nil_r. repeat split; [|by left].
    destruct (has_byte "/" rest) eqn:Hb; [|done]. exfalso.
    assert (∃ a b, split_once "/" rest = Some (a, b)) as (?&?&?); [|congruence].
    clear E. induction rest as [|x s IH]; [done|]. simpl.
    destruct (Ascii.eqb_spec x "/") as [->|Hx]; [by do 2 eexists|].
    rewrite has_byte_cons in Hb. destruct (Ascii.eqb_spec "/" x) as [|]; [congruence|].
    destruct (IH Hb) as (? & ? & ->). by do 2 eexists.
Qed.
Lemma split_authority_app a p :
  has_byte "/" a = false → (p = "" ∨ ∃ q, p = "/" +:+ q) → split_authority (a +:+ p) = (a, p).
Proof.
  intros Ha [->|[q ->]]; unfold split_authority.
  - rewrite str_app_nil_r. destruct (split_once "/" a) as [[x y]|] eqn:E; [|done].
    apply split_once_some in E as [-> _]. by rewrite has_byte_app, has_byte_cons, orb_true_r in Ha.
  - by rewrite split_once_sep.
Qed.
Lemma public_url_eq url :
  public_url url =
  let url := before (λ a, Ascii.eqb a "?" || Ascii.eqb a "#") url in
  match split_once_str "://" url with
  | None => host_of url
  | Some (scheme, rest) =>
      scheme +:+ "://" +:+ host_of (split_authority rest).1 +:+ (split_authority rest).2
  end.
Proof.
  unfold public_url, host_of, split_authority. simpl.
  destruct (split_once_str _ _) as [[scheme rest]|]; [|done].
  by destruct (split_once "/" rest) as [[]|].
Qed.
(** The shape of a public address: no query or fragment, and no user information. *)
Lemma public_url_shape url :
  all_bytes url_byte (public_url url) = true ∧
  (contains_str "://" (public_url url) = false ∧ has_byte "@" (public_url url) = false ∨
   ∃ scheme host path,
     public_url url = scheme +:+ "://" +:+ host +:+ path ∧
     has_byte "@" host = false ∧ has_byte "/" host = false ∧ (path = "" ∨ ∃ q, path = "/" +:+ q) ∧
     ∀ b', split_once_str "://" (scheme +:+ "://" +:+ b') = Some (scheme, b')).
Proof.
  rewrite public_url_eq. simpl. pose proof (before_bytes (λ a, Ascii.eqb a "?" || Ascii.eqb a "#") url) as Hb.
  set (u := before _ url) in *. change (all_bytes url_byte u = true) in Hb.
  destruct (split_once_str "://" u) as [[scheme rest]|] eqn:E.
  - destruct (split_once_str_some _ _ _ _ E) as [Hu Hs].
    destruct (split_authority rest) as [a p] eqn:Ea.
    destruct (split_authority_spec _ _ _ Ea) as (Hr & Hna & Hp).
    destruct (host_of_spec a) as [[w Hw] Hh]. cbn [fst snd]. split.
    + rewrite Hu, Hr, Hw in Hb. rewrite !all_bytes_app in Hb |- *. inv_ok.
      match goal with H : all_bytes _ (w +:+ _) = true |- _ => rewrite all_bytes_app in H end. inv_ok.
      repeat (apply andb_true_iff; split); done.
    + right. exists scheme, (host_of a), p. repeat split; try done.
      rewrite Hw, has_byte_app in Hna. by apply orb_false_iff in Hna as [_ ?].
  - apply split_once_str_none in E. destruct (host_of_spec u) as [[w Hw] Hh]. split.
    + rewrite Hw, all_bytes_app in Hb. by apply andb_true_iff in Hb as [_ ?].
    + left. split; [|done]. rewrite Hw in E. by apply contains_suffix in E.
Qed.
Lemma public_url_idem url : public_url (public_url url) = public_url url.
Proof.
  destruct (public_url_shape url) as [Hb [[Hc Ha]|(s & h & p & E & Ha & Hs & Hp & Hsp)]].
  - rewrite public_url_eq. simpl. rewrite before_id by exact Hb.
    apply split_once_str_none in Hc. rewrite Hc. by apply host_of_id.
  - rewrite E in *. rewrite public_url_eq. simpl. rewrite before_id by exact Hb. rewrite Hsp.
    rewrite split_authority_app by done. cbn [fst snd]. by rewrite host_of_id.
Qed.

(** ** Main results *)

Definition no_text : JsonText := text_table [] [] (λ _, "").
Definition uuid_n (n : string) : string := "01a12290-0000-7000-8000-00000000000" +:+ n.
Definition valid_state : StateRec :=
  mkStateRec (uuid_n "3") Commit None None None [uuid_n "4"] None "" (mkAuthor "" "" 0 None) "" 0 false
    [mkConflict "src/a" "edit" None None None] {["target/x" := uuid_n "3" +:+ "@target%2Fx"]} None false None.
Definition valid_record : LogRecord :=
  mkRecord (uuid_n "1") (uuid_n "2") 2 0 "commit" "" (mkActor 0 "" None) [valid_state]
    {[uuid_n "5" := mkLineChange None (Some (mkLineState "main" (uuid_n "3") 0 (uuid_n "2"))) None None]}
    (JObject [("branch", JString "feature/x");
              ("ref_change", RefChange_to_value
                 (mkRefChange "team/x" None (Some (mkRefState "team/x" (uuid_n "3") None))));
              ("state", JString (uuid_n "3"))]).

(** C20. A person's attestation in an attest record, written as a JSON object, is the one that
    the person asked for: the record carries a request of that person whose signature verifies,
    the state, the kind and the payload digest are those of the request, and the record's time
    is within the lifetime of the request. *)
Theorem attest_authorized
    `{HU : Uuid, HE : Encodings, HC : Crypto, HJ : JsonText, HL : Unicode} r m a :
  validate r = Ok tt → r_op r = "attest" →
  get (r_data r) "attestation" = Some (JObject m) →
  Attestation_from_value (JObject m) = Ok a → starts_with "person:" (at_signer a) = true →
  ∃ signed request, proven r signed request ∧
    (rq_created request <= r_time r < rq_expires request)%Z ∧
    at_signer a = "person:" +:+ rq_person request ∧
    at_payload_digest a = digest (sg_r signed) ∧
    match rq_action request with
    | Approve st _ | Declassify st _ => su_id (at_subject a) = st ∧ at_kind a = "approval"
    | Withdraw st _ => su_id (at_subject a) = st ∧ at_kind a = "revoke"
    | _ => False
    end.
Proof. apply attest_authorized_lemma. Qed.
(** The record that applies the approval of [sample_request]. The signing key of the person is
    the key whose public half is the 32 bytes that the record names. *)
Definition person_key : string := fit 32 "ann".
Definition person_sig : string := hex_text (fit 64 (person_key +:+ "B")).
Definition person_bytes : string := "{r:B,s:" +:+ person_sig +:+ "}".
Definition person_text : JsonText :=
  text_table [("B", JObject (Request_fields sample_request)); (person_sig, JString person_sig)]
    [(person_bytes, RawObject [("r", "B"); ("s", person_sig)])] sample_print.
Definition approval_members : jobj :=
  [("attestation_id", JString sample_uuid); ("format", JInt 1); ("kind", JString "approval");
   ("payload_digest", JString (hex_text (fit 32 "B")));
   ("signer", JString "person:ann@example.com");
   ("subject", JObject [("id", JString sample_uuid); ("kind", JString "state")]); ("time", JInt 9)].
Definition approval_record : LogRecord :=
  mkRecord sample_uuid sample_uuid 2 9 "attest" sample_uuid
    (mkActor u32_max "person:ann@example.com" None) [] ∅
    (JObject [("attestation", JObject approval_members); ("person_key", JString (hex_text person_key));
              ("request", JString person_bytes);
              ("request_digest", JString (hex_text (fit 32 person_bytes)));
              ("request_id", JString sample_uuid)]).
Definition approval : Attestation :=
  mkAttestation 1 sample_uuid (mkSubject "state" sample_uuid) None "approval"
    (hex_text (fit 32 "B")) None "person:ann@example.com" 9.
Lemma attest_authorized_witness :
  ∃ signed request,
    @proven uuid_plain encodings_hex crypto_plain person_text approval_record signed request ∧
    (rq_created request <= r_time approval_record < rq_expires request)%Z ∧
    at_signer approval = "person:" +:+ rq_person request ∧
    at_payload_digest approval = @digest encodings_hex crypto_plain (sg_r signed) ∧
    match rq_action request with
    | Approve st _ | Declassify st _ => su_id (at_subject approval) = st ∧ at_kind approval = "approval"
    | Withdraw st _ => su_id (at_subject approval) = st ∧ at_kind approval = "revoke"
    | _ => False
    end.
Proof.
  refine (@attest_authorized uuid_plain encodings_hex crypto_plain person_text ascii_lowercase
    approval_record approval_members approval _ _ _ _ _); vm_compute; reflexivity.
Defined.

(** [public_url] removes everything private and nothing is left to remove: the result has
    no query or fragment, no user information before its host, and is its own public form. *)
Theorem public_url_public url :
  public_url (public_url url) = public_url url ∧
  has_byte "?" (public_url url) = false ∧ has_byte "#" (public_url url) = false ∧
  (has_byte "@" (public_url url) = false ∨
   ∃ scheme host path, public_url url = scheme +:+ "://" +:+ host +:+ path ∧
     has_byte "@" host = false ∧ has_byte "/" host = false ∧ (path = "" ∨ starts_with "/" path = true)).
Proof.
  split; [apply public_url_idem|]. destruct (public_url_shape url) as [Hb Hs].
  split; [by apply (all_bytes_no_byte _ _ _ Hb)|]. split; [by apply (all_bytes_no_byte _ _ _ Hb)|].
  destruct Hs as [[_ ?]|(s & h & p & ? & ? & ? & Hp & _)]; [by left|right].
  exists s, h, p. repeat split; try done. destruct Hp as [->|[q ->]]; [by left|by right].
Qed.
