(* ===== verification/Project.v ===== *)
(** The read model of one project ([layr-model/src/lib.rs]): verified records, in any arrival
    order, fold into states, lines, refs, settings and evidence. *)

From S2P Require Import Prelude Strs Json Canonical Types Extern Format Request Validation.

(** ** Data *)

Record LineView := mkLineView {
  lv_line : Line; lv_heads : gmap string string; lv_deleted : bool }.
Record StateView := mkStateView {
  sv_state : StateRec; sv_machine : string; sv_dropped : bool }.
Record Project := mkProject {
  p_id : string;
  p_machine : string;
  p_name : option string;
  p_states : gmap string StateView;
  p_lines : gmap string LineView;
  p_config : gmap string json;
  p_tags : gmap string json;
  p_remote_refs : gmap string json;
  p_machines : gmap string json;
  p_trusted : gmap string json;
  p_records : list LogRecord;
  p_refs : gmap string RefState;
  p_ref_history : list (nat * RefChange);
  p_queue : gmap string QueueEntry;
  p_attestations : list (nat * Attestation) }.

(** Assignments to the fields of [self]. *)
Definition set_name x p := mkProject (p_id p) (p_machine p) x (p_states p) (p_lines p) (p_config p)
  (p_tags p) (p_remote_refs p) (p_machines p) (p_trusted p) (p_records p) (p_refs p)
  (p_ref_history p) (p_queue p) (p_attestations p).
Definition set_states x p := mkProject (p_id p) (p_machine p) (p_name p) x (p_lines p) (p_config p)
  (p_tags p) (p_remote_refs p) (p_machines p) (p_trusted p) (p_records p) (p_refs p)
  (p_ref_history p) (p_queue p) (p_attestations p).
Definition set_lines x p := mkProject (p_id p) (p_machine p) (p_name p) (p_states p) x (p_config p)
  (p_tags p) (p_remote_refs p) (p_machines p) (p_trusted p) (p_records p) (p_refs p)
  (p_ref_history p) (p_queue p) (p_attestations p).
Definition set_config x p := mkProject (p_id p) (p_machine p) (p_name p) (p_states p) (p_lines p) x
  (p_tags p) (p_remote_refs p) (p_machines p) (p_trusted p) (p_records p) (p_refs p)
  (p_ref_history p) (p_queue p) (p_attestations p).
Definition set_tags x p := mkProject (p_id p) (p_machine p) (p_name p) (p_states p) (p_lines p)
  (p_config p) x (p_remote_refs p) (p_machines p) (p_trusted p) (p_records p) (p_refs p)
  (p_ref_history p) (p_queue p) (p_attestations p).
Definition set_remote_refs x p := mkProject (p_id p) (p_machine p) (p_name p) (p_states p)
  (p_lines p) (p_config p) (p_tags p) x (p_machines p) (p_trusted p) (p_records p) (p_refs p)
  (p_ref_history p) (p_queue p) (p_attestations p).
Definition set_machines x y p := mkProject (p_id p) (p_machine p) (p_name p) (p_states p)
  (p_lines p) (p_config p) (p_tags p) (p_remote_refs p) x y (p_records p) (p_refs p)
  (p_ref_history p) (p_queue p) (p_attestations p).
Definition set_records x p := mkProject (p_id p) (p_machine p) (p_name p) (p_states p) (p_lines p)
  (p_config p) (p_tags p) (p_remote_refs p) (p_machines p) (p_trusted p) x (p_refs p)
  (p_ref_history p) (p_queue p) (p_attestations p).
Definition set_refs x y p := mkProject (p_id p) (p_machine p) (p_name p) (p_states p) (p_lines p)
  (p_config p) (p_tags p) (p_remote_refs p) (p_machines p) (p_trusted p) (p_records p) x y
  (p_queue p) (p_attestations p).
Definition set_queue x p := mkProject (p_id p) (p_machine p) (p_name p) (p_states p) (p_lines p)
  (p_config p) (p_tags p) (p_remote_refs p) (p_machines p) (p_trusted p) (p_records p) (p_refs p)
  (p_ref_history p) x (p_attestations p).
Definition set_attestations x p := mkProject (p_id p) (p_machine p) (p_name p) (p_states p)
  (p_lines p) (p_config p) (p_tags p) (p_remote_refs p) (p_machines p) (p_trusted p) (p_records p)
  (p_refs p) (p_ref_history p) (p_queue p) x.

Definition empty_project (id machine : string) : Project :=
  mkProject id machine None ∅ ∅ ∅ ∅ ∅ ∅ ∅ [] ∅ [] ∅ [].

(** [order]: the application order of records. *)
Definition order (r : LogRecord) : Z * string * Z := (Z.max (r_time r) 0, r_machine r, r_seq r).

(** [map.entry(k).or_insert(v)]. *)
Definition or_insert {V} (k : string) (v : V) (m : gmap string V) : gmap string V :=
  match m !! k with Some _ => m | None => <[k := v]> m end.

Definition state_auxiliary (p : Project) (id : string) : bool :=
  is_some_and (p_states p !! id) (λ s, auxiliary (st_kind (sv_state s))).

(** ** The fold of one record, [Project::derive] *)

Definition derive_state (r : LogRecord) (p : Project) (s : StateRec) : result Project :=
  bail_if (is_some (p_states p !! st_id s)) "state {} is named by two records";;
  bail_if (existsb (state_auxiliary p) (st_parents s))
    "source history cannot have a cache or derived parent";;
  Ok (set_states (<[st_id s := mkStateView s (r_machine r) false]> (p_states p)) p).

Definition derive_line (r : LogRecord) (p : Project) (kv : string * LineChange) : result Project :=
  let '(id, change) := kv in
  let foreign := negb (r_machine r == p_machine p) in
  let v := default (mkLineView (mkLine id "" "" 0 (r_machine r)) ∅ true) (p_lines p !! id) in
  heads ← match lc_after change with
    | Some after =>
        bail_if (state_auxiliary p (ls_head after)) "line head cannot be a cache or derived state";;
        Ok (<[r_machine r := ls_head after]> (lv_heads v))
    | None => Ok (lv_heads v)
    end;
  let v' :=
    if foreign && (ln_machine (lv_line v) == p_machine p) then
      mkLineView (lv_line v) heads (lv_deleted v)
    else match lc_after change with
      | Some after =>
          mkLineView (mkLine id (ls_name after) (ls_head after) (ls_owner after) (ls_machine after))
            heads false
      | None => mkLineView (lv_line v) heads true
      end in
  Ok (set_lines (<[id := v']> (p_lines p)) p).

Definition derive_queue (d : json) (p : Project) : result Project :=
  match get d "queue_change" with
  | Some v =>
      ch ← QueueChange_from_value v;
      Ok (match qc_after ch with
          | Some after => set_queue (<[qc_id ch := after]> (p_queue p)) p
          | None => set_queue (delete (qc_id ch) (p_queue p)) p
          end)
  | None => Ok p
  end.
Definition derive_ref (index : nat) (d : json) (p : Project) : result Project :=
  match get d "ref_change" with
  | Some v =>
      ch ← RefChange_from_value v;
      let refs := match rc_after ch with
        | Some after => <[rc_name ch := after]> (p_refs p)
        | None => delete (rc_name ch) (p_refs p)
        end in
      Ok (set_refs refs (p_ref_history p ++ [(index, ch)]) p)
  | None => Ok p
  end.

Section derive.
Context `{Uuid, Encodings, Crypto, JsonText, Unicode}.

(** The evidence a record carries, or that an old operation implies. *)
Definition record_attestation (p : Project) (r : LogRecord) : result (option Attestation) :=
  let d := r_data r in
  match get d "attestation" with
  | Some v => Some <$> Attestation_from_value v
  | None =>
      if memb (r_op r) ["approve"; "approve.withdraw"; "check"] then
        Ok ((λ state, mkAttestation 1 (r_id r) (mkSubject "state" state)
               (s ← p_states p !! state; st_change_id (sv_state s))
               (if r_op r == "approve" then "approval"
                else if r_op r == "check" then "check" else "revoke")
               (digest (json_print d)) None (r_machine r) (r_time r)) <$> as_str d.["state"])
      else Ok None
  end.
Definition derive_attestation (index : nat) (r : LogRecord) (p : Project) : result Project :=
  a ← record_attestation p r;
  Ok (match a with
      | Some a => set_attestations (p_attestations p ++ [(index, a)]) p
      | None => p
      end).

Definition CONFIG_OPS : list string :=
  ["project"; "config"; "overlay.create"; "overlay.readers"; "overlay.mode"; "overlay.use";
   "overlay.show-to-project"].

(** [save.caches] and [save.layers] on the state of the same machine. *)
Definition save_caches (r : LogRecord) (d : json) (s : StateView) : result StateView :=
  if sv_machine s == r_machine r then
    let st := sv_state s in
    caches ← match or_else (get d "caches") (get d "layers") ≫= as_object with
      | Some caches =>
          foldM (λ (m : gmap string string) (kv : string * json),
              name ← ctx "invalid cache name" (as_str kv.2);
              Ok (<[kv.1 := name]> m)) (st_caches st) caches
      | None => Ok (st_caches st)
      end;
    Ok (mkStateView
      (mkStateRec (st_id st) (st_kind st) (st_change_id st) (st_derived_from st) (st_context st)
         (st_parents st) (st_line st) (st_subvol st) (st_author st) (st_message st) (st_time st)
         (st_running st) (st_conflicts st) caches (Some (ac_uid (r_actor r)))
         (unwrap_or (as_bool d.["shared"]) false) (as_str d.["platform"]))
      (sv_machine s) (sv_dropped s))
  else Ok s.

(** The match on the operation. *)
Definition derive_op (r : LogRecord) (p : Project) : result Project :=
  let d := r_data r in
  let op := r_op r in
  let foreign := negb (r_machine r == p_machine p) in
  let str_at key := str_or_empty d.[key] in
  if op == "machine" then
    Ok (set_machines (or_insert (r_machine r) d (p_machines p))
          (if foreign then p_trusted p else or_insert (r_machine r) d (p_trusted p)) p)
  else if op == "machine.trust" then
    Ok (set_machines (p_machines p) (or_insert (str_at "machine") d (p_trusted p)) p)
  else if memb op CONFIG_OPS then
    let p := if op == "project" then set_name (as_str d.["name"]) p else p in
    Ok (match as_object d.["config"] with
        | Some config =>
            set_config (foldl (λ (m : gmap string json) (kv : string * json),
                let key := if foreign then kv.1 +:+ "@" +:+ r_machine r else kv.1 in
                <[key := kv.2]> m) (p_config p) config) p
        | None => p
        end)
  else if op == "tag" then Ok (set_tags (<[str_at "name" := d]> (p_tags p)) p)
  else if op == "tag.delete" then Ok (set_tags (delete (str_at "name") (p_tags p)) p)
  else if memb op ["import"; "remote.ref"] then
    Ok (if is_string d.["ref"] && is_string d.["state"]
        then set_remote_refs (<[str_at "ref" := d]> (p_remote_refs p)) p else p)
  else if (op == "export") && is_str d.["status"] "pushed" then
    Ok (set_remote_refs (<[str_at "remote" +:+ "/" +:+ str_at "branch" := d]> (p_remote_refs p)) p)
  else if op == "stash.drop" then
    Ok (match p_states p !! str_at "state" with
        | Some s => set_states (<[str_at "state" := mkStateView (sv_state s) (sv_machine s) true]> (p_states p)) p
        | None => p
        end)
  else if memb op ["save.caches"; "save.layers"] then
    match p_states p !! str_at "state" with
    | Some s =>
        s' ← save_caches r d s;
        Ok (set_states (<[str_at "state" := s']> (p_states p)) p)
    | None => Ok p
    end
  else Ok p.

Definition derive_stack (r : LogRecord) (p : Project) : Project :=
  let foreign := negb (r_machine r == p_machine p) in
  match get (r_data r) "stack" with
  | Some stack =>
      match as_str stack.["line"], get stack "layers" with
      | Some line, Some layers =>
          let key := if foreign then "stack." +:+ line +:+ "@" +:+ r_machine r else "stack." +:+ line in
          set_config (<[key := layers]> (p_config p)) p
      | _, _ => p
      end
  | None => p
  end.

Definition derive (p : Project) (ir : nat * LogRecord) : result Project :=
  let '(index, r) := ir in
  p ← foldM (derive_state r) p (r_states r);
  p ← foldM (derive_line r) p (entries (r_lines r));
  p ← derive_queue (r_data r) p;
  p ← derive_ref index (r_data r) p;
  p ← derive_attestation index r p;
  p ← derive_op r p;
  Ok (derive_stack r p).

(** ** [Project::from_records] *)

(** What a record must satisfy on its own. *)
Definition check_release (r : LogRecord) : result () :=
  when (r_op r == "release.files") (fs ← Files_from_value (r_data r); Files_validate fs).
Definition Seen : Type := gmap string LogRecord * gmap (string * Z) string.
Definition collect_record (id : string) (seen : Seen) (record : LogRecord) : result Seen :=
  let '(unique, sequences) := seen in
  check_release record;;
  bail_if (negb (is_empty (r_project record)) && negb (r_project record == id))
    "record belongs to another project";;
  match unique !! r_id record with
  | Some old =>
      bail_if (negb (Record_to_value old == Record_to_value record)) "conflicting record identity";;
      Ok (unique, sequences)
  | None =>
      bail_if (is_some (sequences !! (r_machine record, r_seq record))) "conflicting machine sequence";;
      Ok (<[r_id record := record]> unique,
          <[(r_machine record, r_seq record) := r_id record]> sequences)
  end.
Definition sort_records (l : list LogRecord) : list LogRecord :=
  sort_by (λ a b, cle (order a) (order b)) l.
Definition from_records (id : string) (records : list LogRecord) (machine : string) : result Project :=
  '(unique, _) ← foldM (collect_record id) (∅, ∅) records;
  let records := sort_records (values unique) in
  p ← foldM derive (empty_project id machine) (enumerate records);
  Ok (set_records records p).
End derive.

(** * Properties *)

(** ** Collecting records *)

Section collect.
Context `{HU : Uuid, HE : Encodings, HC : Crypto, HJ : JsonText, HL : Unicode}.

Definition acceptable (id : string) (r : LogRecord) : Prop :=
  check_release r = Ok tt ∧ (r_project r = "" ∨ r_project r = id).
(** Records that one log can hold: equal ids are equal records, and a machine gives each
    sequence number to one of them. *)
Definition consistent (id : string) (l : list LogRecord) : Prop :=
  (∀ r, r ∈ l → acceptable id r) ∧
  (∀ r r', r ∈ l → r' ∈ l → r_id r = r_id r' → r = r') ∧
  (∀ r r', r ∈ l → r' ∈ l → r_machine r = r_machine r' → r_seq r = r_seq r' → r = r').

Definition seen_of (seen : Seen) (l : list LogRecord) : Prop :=
  (∀ i r, seen.1 !! i = Some r ↔ r ∈ l ∧ r_id r = i) ∧
  (∀ m q i, seen.2 !! (m, q) = Some i ↔ ∃ r, r ∈ l ∧ r_machine r = m ∧ r_seq r = q ∧ r_id r = i).

Lemma acceptable_ok id r :
  acceptable id r ↔
  check_release r = Ok tt ∧ negb (is_empty (r_project r)) && negb (r_project r == id) = false.
Proof.
  unfold acceptable, is_empty. split; intros [Hc Hp]; (split; [done|]).
  - destruct Hp as [-> | ->]; [done|]. by rewrite eqb_refl, andb_false_r.
  - apply andb_false_iff in Hp as [Hp|Hp]; apply negb_false_iff, eqb_eq in Hp; auto.
Qed.

(** One record more: it is refused exactly when it makes the log inconsistent. *)
Lemma collect_record_step id seen l r :
  Forall (λ r, Record_wf r = true) (r :: l) → consistent id l → seen_of seen l →
  (∃ seen', collect_record id seen r = Ok seen' ∧ seen_of seen' (r :: l)) ∧ consistent id (r :: l) ∨
  (∃ e, collect_record id seen r = Err e) ∧ ¬ consistent id (r :: l).
Proof.
  destruct seen as [u q]. intros [Hwr Hwl]%Forall_cons Hcon [Hu Hq]. unfold collect_record. simpl in *.
  destruct (check_release r) as [[]|e] eqn:Hrel; simpl.
  2: { right. split; [eauto|]. intros (Hacc & _). destruct (Hacc r ltac:(left)) as [? _]. congruence. }
  destruct (negb (is_empty (r_project r)) && negb (r_project r == id)) eqn:Hprj; simpl.
  1: { right. split; [eauto|]. intros (Hacc & _).
       destruct (proj1 (acceptable_ok id r) (Hacc r ltac:(left))). congruence. }
  assert (acceptable id r) as Hacc by (by apply acceptable_ok).
  destruct Hcon as (Hca & Hci & Hcs).
  destruct (u !! r_id r) as [old|] eqn:Hold.
  - apply Hu in Hold as [Hin Hid].
    destruct (Record_to_value old == Record_to_value r) eqn:E; simpl.
    + left. apply eqb_eq, Record_to_value_inj in E as ->; [|by apply (proj1 (Forall_forall _ _) Hwl)|done].
      split.
      * eexists. split; [done|]. split; simpl.
        { intros i x. rewrite Hu, elem_of_cons. naive_solver. }
        { intros m s i. rewrite Hq. setoid_rewrite elem_of_cons. naive_solver. }
      * split; [|split; intros x y; rewrite !elem_of_cons; naive_solver].
        intros x. rewrite elem_of_cons. naive_solver.
    + right. split; [eauto|]. intros (_ & Hids & _). apply eqb_ne in E. destruct E.
      by rewrite (Hids old r) by (done || left || by right).
  - assert (∀ x, x ∈ l → r_id x ≠ r_id r) as Hfresh.
    { intros x Hx Hid. assert (u !! r_id r = Some x) by (apply Hu; auto). congruence. }
    destruct (q !! (r_machine r, r_seq r)) as [i|] eqn:Hs; simpl.
    + right. split; [eauto|]. intros (_ & _ & Hseq). apply Hq in Hs as (x & Hx & Hm & Hsq & _).
      apply (Hfresh x Hx). by rewrite (Hseq x r) by (done || left || by right).
    + left. assert (∀ x, x ∈ l → r_machine x = r_machine r → r_seq x = r_seq r → False) as Hnos.
      { intros x Hx Hm Hsq.
        assert (q !! (r_machine r, r_seq r) = Some (r_id x)) by (apply Hq; eauto). congruence. }
      split.
      * eexists. split; [done|]. split; simpl.
        { intros i x. rewrite lookup_insert_Some, Hu, elem_of_cons. naive_solver. }
        { intros m s i. rewrite lookup_insert_Some, Hq. setoid_rewrite elem_of_cons. split.
          - intros [[[= <- <-] <-]|[_ (x & ? & ?)]]; eauto 6.
          - intros (x & [-> | Hx] & <- & <- & <-); [by left|]. right. split; [|eauto 6].
            intros [= Hm Hsq]. eauto. }
      * split; [|split; intros x y; rewrite !elem_of_cons; naive_solver].
        intros x. rewrite elem_of_cons. naive_solver.
Qed.
Lemma consistent_mono id l l' :
  (∀ r, r ∈ l → r ∈ l') → consistent id l' → consistent id l.
Proof. intros Hl (H1 & H2 & H3). split; [|split]; eauto. Qed.
Lemma seen_of_ext seen l l' : (∀ r, r ∈ l ↔ r ∈ l') → seen_of seen l → seen_of seen l'.
Proof. intros Hl [Hu Hq]. split; intros; [rewrite Hu|rewrite Hq]; by setoid_rewrite Hl. Qed.

Lemma collect_records_from id l acc seen :
  Forall (λ r, Record_wf r = true) (l ++ acc) → consistent id acc → seen_of seen acc →
  (∃ seen', foldM (collect_record id) seen l = Ok seen' ∧ seen_of seen' (l ++ acc)) ∧
    consistent id (l ++ acc) ∨
  (∃ e, foldM (collect_record id) seen l = Err e) ∧ ¬ consistent id (l ++ acc).
Proof.
  revert acc seen. induction l as [|r l IH]; intros acc seen Hwf Hcon Hseen; simpl in *.
  { left. eauto. }
  apply Forall_cons in Hwf as [Hr Hwf]. pose proof Hwf as [_ Hacc]%Forall_app.
  assert (∀ x, x ∈ r :: l ++ acc ↔ x ∈ l ++ r :: acc) as Hperm
    by (intros; rewrite elem_of_cons, !elem_of_app, elem_of_cons; tauto).
  destruct (collect_record_step id seen acc r) as [[(seen' & -> & Hs) Hc]|[[e ->] Hc]];
    [by constructor|done|done|..].
  - simpl. destruct (IH (r :: acc) seen') as [[(s & Hf & Hso) Hc2]|[He Hc2]]; [|done|done|..].
    + apply Forall_app. apply Forall_app in Hwf as [? _]. by split; [|constructor].
    + left. split; [|by eapply consistent_mono; [apply Hperm|]].
      exists s. split; [done|]. eapply seen_of_ext; [|done]. intros. symmetry. apply Hperm.
    + right. split; [done|]. intros Hcon'. apply Hc2. eapply consistent_mono; [|done]. apply Hperm.
  - right. split; [by exists e|]. intros Hcon'. apply Hc. eapply consistent_mono; [|done].
    intros x. rewrite !elem_of_cons, elem_of_app. tauto.
Qed.
(** Collecting succeeds exactly on consistent records, and keeps each of them once. *)
Lemma collect_records_spec id l :
  Forall (λ r, Record_wf r = true) l →
  (∃ u q, foldM (collect_record id) (∅, ∅) l = Ok (u, q) ∧
          ∀ i r, u !! i = Some r ↔ r ∈ l ∧ r_id r = i) ∧ consistent id l ∨
  (∃ e, foldM (collect_record id) (∅, ∅) l = Err e) ∧ ¬ consistent id l.
Proof.
  intros Hwf. destruct (collect_records_from id l [] (∅, ∅)) as [[([u q] & Hf & Hu & _) Hc]|[He Hc]].
  - by rewrite app_nil_r.
  - split; [|split]; set_solver.
  - split; simpl; intros; (rewrite lookup_empty; split; [done|]); set_solver.
  - rewrite app_nil_r in *. left. split; [|done]. exists u, q. by split.
  - rewrite app_nil_r in *. right. done.
Qed.
End collect.

(** ** The sorted log *)

Section sorted.
Context `{HU : Uuid, HE : Encodings, HC : Crypto, HJ : JsonText, HL : Unicode}.

(** The log of a set of records: the records by id, in application order. *)
Definition log_of (l : list LogRecord) : list LogRecord :=
  sort_records (values (list_to_map ((λ r, (r_id r, r)) <$> l) : gmap string LogRecord)).

Lemma list_to_map_records (l : list LogRecord) i r :
  (∀ r r', r ∈ l → r' ∈ l → r_id r = r_id r' → r = r') →
  (list_to_map ((λ r, (r_id r, r)) <$> l) : gmap string LogRecord) !! i = Some r ↔
  r ∈ l ∧ r_id r = i.
Proof.
  induction l as [|x l IH]; intros Huniq; csimpl.
  { rewrite lookup_empty. set_solver. }
  rewrite lookup_insert_Some, IH, elem_of_cons by (intros; apply Huniq; auto; by right).
  split.
  - intros [[<- <-]|[? [? ?]]]; auto.
  - intros [[-> | Hr] <-]; [by left|]. destruct (decide (r_id x = r_id r)) as [E|E]; [|by right].
    left. split; [done|]. apply Huniq; [left|by right|done].
Qed.
Lemma log_of_ext l l' :
  (∀ r r', r ∈ l → r' ∈ l → r_id r = r_id r' → r = r') → (∀ r, r ∈ l ↔ r ∈ l') →
  log_of l = log_of l'.
Proof.
  intros Hu Hl. unfold log_of. do 2 f_equal. apply map_eq. intros i. apply option_eq. intros r.
  rewrite !list_to_map_records; [|intros; apply Hu; by rewrite ?Hl|done]. by rewrite Hl.
Qed.

(** [from_records] depends on the set of records only. *)
Lemma from_records_spec id l machine :
  Forall (λ r, Record_wf r = true) l →
  (consistent id l ∧
   from_records id l machine =
     p ← foldM derive (empty_project id machine) (enumerate (log_of l));
     Ok (set_records (log_of l) p)) ∨
  (¬ consistent id l ∧ ∃ e, from_records id l machine = Err e).
Proof.
  intros Hwf. unfold from_records.
  destruct (collect_records_spec id l Hwf) as [[(u & q & -> & Hu) Hc]|[[e ->] Hc]];
    [left|right; split; [done|by exists e]].
  split; [done|]. rsimpl.
  assert (sort_records (values u) = log_of l) as ->; [|done].
  unfold log_of. do 2 f_equal. apply map_eq. intros i. apply option_eq. intros r.
  rewrite Hu, list_to_map_records; [done|]. apply Hc.
Qed.
Lemma from_records_set id l l' machine :
  Forall (λ r, Record_wf r = true) l → (∀ r, r ∈ l ↔ r ∈ l') →
  ok (from_records id l machine) = ok (from_records id l' machine).
Proof.
  intros Hwf Hl. assert (Forall (λ r, Record_wf r = true) l') as Hwf'.
  { rewrite Forall_forall in *. intros r Hr. by apply Hwf, Hl. }
  destruct (from_records_spec id l machine Hwf) as [[Hc ->]|[Hn [e ->]]],
    (from_records_spec id l' machine Hwf') as [[Hc' ->]|[Hn' [e' ->]]]; try done.
  - rewrite (log_of_ext l l'); [done|apply Hc|done].
  - destruct Hn'. eapply consistent_mono; [|done]. apply Hl.
  - destruct Hn. eapply consistent_mono; [|done]. apply Hl.
Qed.
End sorted.

(** ** What the fold keeps *)

(** The part of a state that no later record changes. *)
Definition strip_caches (s : StateRec) : StateRec :=
  mkStateRec (st_id s) (st_kind s) (st_change_id s) (st_derived_from s) (st_context s)
    (st_parents s) (st_line s) (st_subvol s) (st_author s) (st_message s) (st_time s)
    (st_running s) (st_conflicts s) ∅ None false None.
Definition core (v : StateView) : string * StateRec := (sv_machine v, strip_caches (sv_state v)).
(** The states that records name, with the machine that wrote them. *)
Definition record_cores (r : LogRecord) : list (string * (string * StateRec)) :=
  (λ s, (st_id s, (r_machine r, strip_caches s))) <$> r_states r.
Definition log_cores (l : list LogRecord) : list (string * (string * StateRec)) :=
  mjoin (record_cores <$> l).

(** The line view that one change gives, seen from [machine]. *)
Definition line_step (machine : string) (r : LogRecord) (id : string) (v : option LineView)
    (ch : LineChange) : LineView :=
  let v := default (mkLineView (mkLine id "" "" 0 (r_machine r)) ∅ true) v in
  let heads := match lc_after ch with
    | Some after => <[r_machine r := ls_head after]> (lv_heads v) | None => lv_heads v end in
  if negb (r_machine r == machine) && (ln_machine (lv_line v) == machine)
  then mkLineView (lv_line v) heads (lv_deleted v)
  else match lc_after ch with
    | Some after => mkLineView (mkLine id (ls_name after) (ls_head after) (ls_owner after)
                                  (ls_machine after)) heads false
    | None => mkLineView (lv_line v) heads true
    end.
(** A line as the changes of the log to it, in order. *)
Definition line_view (machine : string) (id : string) (l : list LogRecord) : option LineView :=
  foldl (λ v r, match r_lines r !! id with
                | Some ch => Some (line_step machine r id v ch) | None => v end) None l.

(** ** What a log says, without folding it *)

(** The last record of which [f] is known. *)
Definition latest {A} (f : LogRecord → option A) (l : list LogRecord) : option A := last (omap f l).
(** What [f] says of a record and the log up to it, with the index of the record. *)
Definition log_entries {A} (f : list LogRecord → LogRecord → option A) (l : list LogRecord) : list (nat * A) :=
  omap (λ ir, (ir.1,.) <$> f (take (S ir.1) l) ir.2) (enumerate l).

Definition queue_change (r : LogRecord) : option QueueChange :=
  v ← get (r_data r) "queue_change"; ok (QueueChange_from_value v).
Definition ref_change (r : LogRecord) : option RefChange :=
  v ← get (r_data r) "ref_change"; ok (RefChange_from_value v).
Definition queue_set (id : string) (r : LogRecord) : option (option QueueEntry) :=
  ch ← queue_change r; if qc_id ch == id then Some (qc_after ch) else None.
Definition ref_set (name : string) (r : LogRecord) : option (option RefState) :=
  ch ← ref_change r; if rc_name ch == name then Some (rc_after ch) else None.
(** The head of a line that a record of machine [m] publishes. *)
Definition head_set (id m : string) (r : LogRecord) : option string :=
  ch ← r_lines r !! id; after ← lc_after ch; if r_machine r == m then Some (ls_head after) else None.

(** The records that change a line, with their changes. *)
Definition line_changes (id : string) (l : list LogRecord) : list (LogRecord * LineChange) :=
  omap (λ r, (r,.) <$> r_lines r !! id) l.
(** The changes that count, by a mask. *)
Definition counting (cs : list (LogRecord * LineChange)) (counts : list bool) : list (LogRecord * LineChange) :=
  (List.filter snd (zip cs counts)).*1.
(** The line that the changes [cs] leave: as the last of them gives it, deletions apart, or blank
    and with the machine [first] as long as all of them are deletions. *)
Definition line_given (id first : string) (cs : list (LogRecord * LineChange)) : Line :=
  match last (omap (lc_after ∘ snd) cs) with
  | Some a => mkLine id (ls_name a) (ls_head a) (ls_owner a) (ls_machine a)
  | None => mkLine id "" "" 0 first
  end.
(** The policy of lines, seen from [machine]: a change counts when [machine] made it, or when the
    line does not belong to [machine] by then. The line is what the changes that count give; it is
    deleted if the last of them is a deletion. *)
Record line_spec (machine id : string) (l : list LogRecord) (v : LineView) : Prop := {
  spec_heads : ∀ m, lv_heads v !! m = latest (head_set id m) l;
  spec_line : ∃ first counts,
    fst <$> head (line_changes id l) = Some first ∧ length counts = length (line_changes id l) ∧
    (∀ i r ch, line_changes id l !! i = Some (r, ch) →
       counts !! i = Some true ↔
       r_machine r = machine ∨
       ln_machine (line_given id (r_machine first) (counting (take i (line_changes id l)) counts)) ≠ machine) ∧
    lv_line v = line_given id (r_machine first) (counting (line_changes id l) counts) ∧
    lv_deleted v = match last (counting (line_changes id l) counts) with
                   | Some (_, ch) => negb (is_some (lc_after ch)) | None => true end }.

Section fold.
Context `{HU : Uuid, HE : Encodings, HC : Crypto, HJ : JsonText, HL : Unicode}.

(** The kind of evidence that an operation of earlier versions is. *)
Definition evidence_kind (op : string) : option string :=
  if op == "approve" then Some "approval"
  else if op == "approve.withdraw" then Some "revoke"
  else if op == "check" then Some "check" else None.
(** The evidence that a record gives: what its data says, or what its operation means for the state
    it names, with the change id that the log [l] gives that state. *)
Definition evidence_given (l : list LogRecord) (r : LogRecord) : option Attestation :=
  match get (r_data r) "attestation" with
  | Some v => ok (Attestation_from_value v)
  | None =>
      kind ← evidence_kind (r_op r); state ← as_str (r_data r).["state"];
      Some {| at_format := 1; at_attestation_id := r_id r;
              at_subject := {| su_kind := "state"; su_id := state |};
              at_change_id := named ← (list_to_map (log_cores l) : gmap string (string * StateRec)) !! state;
                              st_change_id named.2;
              at_kind := kind; at_payload_digest := digest (json_print (r_data r)); at_payload_ref := None;
              at_signer := r_machine r; at_time := r_time r |}
  end.
(** The parts of a record's data that the fold reads. *)
Definition readable (r : LogRecord) : bool :=
  is_none_or (get (r_data r) "queue_change") (λ v, is_ok (QueueChange_from_value v)) &&
  is_none_or (get (r_data r) "ref_change") (λ v, is_ok (RefChange_from_value v)) &&
  is_none_or (get (r_data r) "attestation") (λ v, is_ok (Attestation_from_value v)).

Record fold_inv (l : list LogRecord) (p : Project) : Prop := {
  inv_states : core <$> p_states p = list_to_map (log_cores l);
  inv_states_once : NoDup (log_cores l).*1;
  inv_lines : ∀ id, p_lines p !! id = line_view (p_machine p) id l;
  inv_queue : ∀ id, p_queue p !! id = mjoin (latest (queue_set id) l);
  inv_refs : ∀ name, p_refs p !! name = mjoin (latest (ref_set name) l);
  inv_ref_history : p_ref_history p = log_entries (λ _, ref_change) l;
  inv_attestations : p_attestations p = log_entries evidence_given l;
  inv_readable : Forall (λ r, readable r = true) l }.

Lemma latest_snoc {A} (f : LogRecord → option A) l r :
  latest f (l ++ [r]) = match f r with Some x => Some x | None => latest f l end.
Proof. unfold latest. rewrite omap_app. cbn. destruct (f r); [by rewrite last_snoc|by rewrite app_nil_r]. Qed.
Lemma log_entries_snoc {A} (f : list LogRecord → LogRecord → option A) l r :
  log_entries f (l ++ [r]) = log_entries f l ++ option_list ((length l,.) <$> f (l ++ [r]) r).
Proof.
  unfold log_entries. rewrite enumerate_snoc, omap_app. f_equal.
  - apply list_omap_ext, Forall2_same_length_lookup. split; [done|]. intros i [j x] y Hx Hy. simplify_eq.
    unfold enumerate in Hx. apply lookup_zip_Some in Hx as [[-> Hi]%lookup_seq _].
    cbn [fst snd]. by rewrite take_app_le by lia.
  - cbn. rewrite take_ge by (rewrite length_app; cbn; lia). by destruct (f _ r).
Qed.

Lemma core_insert_same (m : gmap string StateView) i s s' :
  m !! i = Some s → core s' = core s → core <$> <[i := s']> m = core <$> m.
Proof. intros Hi Hc. rewrite fmap_insert, Hc. apply insert_id. by rewrite lookup_fmap, Hi. Qed.

Lemma derive_states_inv r p p' cs :
  core <$> p_states p = list_to_map cs → NoDup cs.*1 →
  foldM (derive_state r) p (r_states r) = Ok p' →
  core <$> p_states p' = list_to_map (cs ++ record_cores r) ∧ NoDup (cs ++ record_cores r).*1 ∧
  p' = set_states (p_states p') p.
Proof.
  intros Hs Hnd Hf.
  apply (foldM_prefix_inv (λ pre p',
    core <$> p_states p' =
      list_to_map (cs ++ ((λ s, (st_id s, (r_machine r, strip_caches s))) <$> pre)) ∧
    NoDup (cs ++ ((λ s, (st_id s, (r_machine r, strip_caches s))) <$> pre)).*1 ∧
    p' = set_states (p_states p') p)) in Hf; [done|..].
  - rewrite fmap_nil, app_nil_r. by destruct p.
  - intros pre s post q q' _ (Hq & Hqn & Eq) Hd. unfold derive_state in Hd. inv_ok.
    rewrite fmap_app, app_assoc. simpl.
    assert (st_id s ∉ (cs ++ ((λ s, (st_id s, (r_machine r, strip_caches s))) <$> pre)).*1) as Hfresh.
    { apply (not_elem_of_list_to_map (M := gmap string)). rewrite <-Hq, lookup_fmap.
      by destruct (p_states q !! st_id s). }
    rewrite list_to_map_snoc_fresh by done. split; [|split].
    + by rewrite <-Hq, fmap_insert.
    + rewrite fmap_app. simpl. apply NoDup_app. split; [done|]. split; [|apply NoDup_singleton].
      intros x Hx ->%list_elem_of_singleton. done.
    + rewrite Eq. done.
Qed.

Lemma derive_lines_inv r p p' :
  foldM (derive_line r) p (entries (r_lines r)) = Ok p' →
  (∀ id, p_lines p' !! id =
     match r_lines r !! id with
     | Some ch => Some (line_step (p_machine p) r id (p_lines p !! id) ch)
     | None => p_lines p !! id
     end) ∧ p' = set_lines (p_lines p') p.
Proof.
  intros Hf. apply (foldM_prefix_inv (λ pre p',
    (∀ id, p_lines p' !! id =
       match (list_to_map pre : gmap string LineChange) !! id with
       | Some ch => Some (line_step (p_machine p) r id (p_lines p !! id) ch)
       | None => p_lines p !! id
       end) ∧ p' = set_lines (p_lines p') p)) in Hf.
  - destruct Hf as (Hl & E). split; [|done]. intros id. rewrite Hl. by rewrite list_to_map_entries.
  - split; [|by destruct p]. intros id. simpl. by rewrite lookup_empty.
  - intros pre [i ch] post q q' El [Hq Eq] Hd.
    assert (i ∉ pre.*1) as Hi.
    { pose proof (NoDup_keys (r_lines r)) as Hnd. unfold keys in Hnd. rewrite El, fmap_app in Hnd.
      apply NoDup_app in Hnd as (_ & Hnd & _). intros Hin. apply (Hnd i Hin). left. }
    assert (p_lines q !! i = p_lines p !! i) as Ei.
    { rewrite Hq. apply (not_elem_of_list_to_map (M := gmap string)) in Hi. by rewrite Hi. }
    assert (p_machine q = p_machine p) as Em by (by rewrite Eq).
    assert (q' = set_lines (<[i := line_step (p_machine p) r i (p_lines p !! i) ch]> (p_lines q)) q) as ->.
    { unfold derive_line in Hd. rewrite Ei, Em in Hd. unfold line_step.
      destruct (lc_after ch); inv_ok; by destruct (negb _ && _). }
    split; [|by rewrite Eq]. intros id. rewrite list_to_map_snoc_fresh by done. simpl.
    destruct (decide (i = id)) as [->|Hne].
    + by rewrite !lookup_insert_eq.
    + rewrite !lookup_insert_ne by done. apply Hq.
Qed.

Lemma derive_queue_inv r p p' :
  derive_queue (r_data r) p = Ok p' →
  p' = set_queue (p_queue p') p ∧
  is_none_or (get (r_data r) "queue_change") (λ v, is_ok (QueueChange_from_value v)) = true ∧
  ∀ id, p_queue p' !! id = match queue_set id r with Some after => after | None => p_queue p !! id end.
Proof.
  unfold derive_queue, queue_set, queue_change.
  destruct (get (r_data r) "queue_change") as [v|]; cbn; intros H; inv_ok; [|by destruct p'].
  rewrite H. split; [by destruct (qc_after x), p|]. split; [done|]. intros id. cbn.
  destruct (qc_id x == id) eqn:E; [apply eqb_eq in E as <-|apply eqb_ne in E]; destruct (qc_after x); cbn;
    by rewrite ?lookup_insert_eq, ?lookup_delete_eq, ?lookup_insert_ne, ?lookup_delete_ne.
Qed.
Lemma derive_ref_inv i r p p' :
  derive_ref i (r_data r) p = Ok p' →
  p' = set_refs (p_refs p') (p_ref_history p') p ∧
  is_none_or (get (r_data r) "ref_change") (λ v, is_ok (RefChange_from_value v)) = true ∧
  p_ref_history p' = p_ref_history p ++ option_list ((i,.) <$> ref_change r) ∧
  ∀ name, p_refs p' !! name = match ref_set name r with Some after => after | None => p_refs p !! name end.
Proof.
  unfold derive_ref, ref_set, ref_change.
  destruct (get (r_data r) "ref_change") as [v|]; cbn; intros H; inv_ok; [|by rewrite app_nil_r; destruct p'].
  rewrite H. split; [by destruct p|]. split; [done|]. split; [done|]. intros name. cbn.
  destruct (rc_name x == name) eqn:E; [apply eqb_eq in E as <-|apply eqb_ne in E]; destruct (rc_after x); cbn;
    by rewrite ?lookup_insert_eq, ?lookup_delete_eq, ?lookup_insert_ne, ?lookup_delete_ne.
Qed.
Lemma old_evidence (op : string) :
  bool_decide (op ∈ ["approve"; "approve.withdraw"; "check"]) =
  (op == "approve") || (op == "approve.withdraw") || (op == "check").
Proof. apply eq_true_iff_eq. rewrite bool_decide_eq_true, !orb_true_iff, !eqb_true. set_solver. Qed.
(** The evidence of a record, from the states of the log up to it. *)
Lemma record_attestation_given l p r a :
  core <$> p_states p = list_to_map (log_cores l) → record_attestation p r = Ok a → a = evidence_given l r.
Proof.
  intros Hs. unfold record_attestation, evidence_given, evidence_kind, memb.
  destruct (get (r_data r) "attestation") as [v|].
  { destruct (Attestation_from_value v); cbn; intros H; by inversion H. }
  assert (∀ state, (s ← p_states p !! state; st_change_id (sv_state s)) =
    (named ← (list_to_map (log_cores l) : gmap string (string * StateRec)) !! state; st_change_id named.2)) as Hc.
  { intros state. rewrite <-Hs, lookup_fmap. by destruct (p_states p !! state). }
  rewrite old_evidence.
  destruct (r_op r == "approve"); [|destruct (r_op r == "approve.withdraw") eqn:E2; [apply eqb_eq in E2 as ->|
    destruct (r_op r == "check")]]; cbn; intros [= <-]; try done; destruct (as_str _) as [state|]; cbn; by rewrite ?Hc.
Qed.
Lemma derive_attestation_inv l i r p p' :
  core <$> p_states p = list_to_map (log_cores l) → derive_attestation i r p = Ok p' →
  p' = set_attestations (p_attestations p') p ∧
  is_none_or (get (r_data r) "attestation") (λ v, is_ok (Attestation_from_value v)) = true ∧
  p_attestations p' = p_attestations p ++ option_list ((i,.) <$> evidence_given l r).
Proof.
  unfold derive_attestation. intros Hs H. inv_ok. rewrite <-(record_attestation_given _ _ _ _ Hs H).
  split; [by destruct x, p|]. split.
  - unfold record_attestation in H. destruct (get (r_data r) "attestation"); [|done]. cbn.
    by destruct (Attestation_from_value _).
  - destruct x; [done|]. by rewrite app_nil_r.
Qed.
Lemma save_caches_core r d s s' : save_caches r d s = Ok s' → core s' = core s.
Proof.
  unfold save_caches. destruct (sv_machine s == r_machine r); intros H; by inv_ok.
Qed.
Lemma derive_op_inv r p p' :
  derive_op r p = Ok p' →
  core <$> p_states p' = core <$> p_states p ∧ p_lines p' = p_lines p ∧ p_refs p' = p_refs p ∧
  p_ref_history p' = p_ref_history p ∧ p_attestations p' = p_attestations p ∧
  p_machine p' = p_machine p ∧ p_queue p' = p_queue p.
Proof.
  unfold derive_op. intros H.
  repeat match goal with H : (if ?b then _ else _) = Ok _ |- _ => destruct b end; inv_ok;
    repeat case_match; inv_ok; try done.
  - split; [|done]. by eapply core_insert_same.
  - split; [|done]. simpl. eapply core_insert_same; [done|by eapply save_caches_core].
Qed.
Lemma derive_stack_inv r p :
  p_states (derive_stack r p) = p_states p ∧ p_lines (derive_stack r p) = p_lines p ∧
  p_refs (derive_stack r p) = p_refs p ∧ p_ref_history (derive_stack r p) = p_ref_history p ∧
  p_attestations (derive_stack r p) = p_attestations p ∧ p_machine (derive_stack r p) = p_machine p ∧
  p_queue (derive_stack r p) = p_queue p.
Proof. unfold derive_stack. by repeat case_match. Qed.
Lemma log_cores_snoc l r : log_cores (l ++ [r]) = log_cores l ++ record_cores r.
Proof. unfold log_cores. rewrite fmap_app, join_app. simpl. by rewrite app_nil_r. Qed.

Lemma derive_inv l p r p' :
  fold_inv l p → derive p (length l, r) = Ok p' → fold_inv (l ++ [r]) p' ∧ p_machine p' = p_machine p.
Proof.
  intros [Hs Hn Hl Hq Hr Hh Ha Hread] Hd. unfold derive in Hd.
  apply bind_ok in Hd as (p1 & H1 & Hd). apply bind_ok in Hd as (p2 & H2 & Hd).
  apply bind_ok in Hd as (p3 & H3 & Hd). apply bind_ok in Hd as (p4 & H4 & Hd).
  apply bind_ok in Hd as (p5 & H5 & Hd). apply bind_ok in Hd as (p6 & H6 & [= <-]).
  destruct (derive_states_inv _ _ _ _ Hs Hn H1) as (Hs1 & Hn1 & E1).
  destruct (derive_lines_inv _ _ _ H2) as [Hl2 E2].
  destruct (derive_queue_inv _ _ _ H3) as (E3 & V3 & Hq3). destruct (derive_ref_inv _ _ _ _ H4) as (E4 & V4 & Hh4 & Hr4).
  rewrite <-log_cores_snoc in Hs1, Hn1.
  assert (core <$> p_states p4 = list_to_map (log_cores (l ++ [r]))) as Hs4 by (by rewrite E4, E3, E2).
  destruct (derive_attestation_inv _ _ _ _ _ Hs4 H5) as (E5 & V5 & Ha5).
  destruct (derive_op_inv _ _ _ H6) as (S6 & L6 & R6 & H6' & A6 & M6 & Q6).
  destruct (derive_stack_inv r p6) as (S7 & L7 & R7 & H7 & A7 & M7 & Q7).
  assert (p_machine p5 = p_machine p) as Em by (by rewrite E5, E4, E3, E2, E1).
  split; [split|by rewrite M7, M6].
  - rewrite S7, S6, <-Hs1, E5, E4, E3, E2. done.
  - done.
  - intros id. rewrite L7, L6, M7, M6, Em, E5, E4, E3. simpl. rewrite Hl2, E1. simpl.
    unfold line_view. rewrite foldl_app. simpl. by rewrite Hl.
  - intros id. rewrite Q7, Q6, E5, E4. cbn. rewrite Hq3, E2, E1, latest_snoc. cbn. rewrite Hq. by destruct (queue_set id r).
  - intros name. rewrite R7, R6, E5. cbn. rewrite Hr4, E3, E2, E1, latest_snoc. cbn. rewrite Hr. by destruct (ref_set name r).
  - rewrite H7, H6', E5. cbn. by rewrite Hh4, log_entries_snoc, E3, E2, E1, <-Hh.
  - rewrite A7, A6, Ha5, log_entries_snoc, E4, E3, E2, E1. cbn. by rewrite Ha.
  - apply Forall_app. split; [done|]. apply Forall_singleton. unfold readable. by rewrite V3, V4, V5.
Qed.
Lemma from_records_inv id l machine p :
  from_records id l machine = Ok p → fold_inv (p_records p) p ∧ p_machine p = machine.
Proof.
  unfold from_records. intros ([u q] & _ & H)%bind_ok.
  apply bind_ok in H as (p0 & Hf & [= <-]). set (log := sort_records (values u)) in *.
  assert (fold_inv log p0 ∧ p_machine p0 = machine) as [Hi Hm].
  { eapply (foldM_enumerate_inv (λ pre p, fold_inv pre p ∧ p_machine p = machine)); [..|done].
    - split; [|done]. split; simpl; try done; constructor.
    - intros pre r p1 p2 [Hi Hm] Hd. destruct (derive_inv _ _ _ _ Hi Hd) as [Hi' Hm'].
      by rewrite Hm', Hm. }
  split; [by destruct Hi|done].
Qed.
End fold.

(** ** The policy of lines *)

Lemma line_changes_snoc id l r :
  line_changes id (l ++ [r]) = line_changes id l ++ option_list ((r,.) <$> r_lines r !! id).
Proof. unfold line_changes. rewrite omap_app. cbn. by destruct (r_lines r !! id). Qed.
Lemma counting_app cs counts cs' counts' :
  length counts = length cs → counting (cs ++ cs') (counts ++ counts') = counting cs counts ++ counting cs' counts'.
Proof.
  intros Hl. unfold counting. rewrite zip_with_app by done. by rewrite List.filter_app, fmap_app.
Qed.
Lemma counting_more cs counts more : length cs ≤ length counts → counting cs (counts ++ more) = counting cs counts.
Proof.
  intros Hl. unfold counting. f_equal. f_equal. revert counts Hl. induction cs as [|c cs IH]; intros [|b counts] Hl; cbn in *;
    try done; [lia|]. f_equal. apply IH. lia.
Qed.
Lemma line_given_snoc id first cs r ch :
  line_given id first (cs ++ [(r, ch)]) =
  match lc_after ch with
  | Some a => mkLine id (ls_name a) (ls_head a) (ls_owner a) (ls_machine a)
  | None => line_given id first cs
  end.
Proof.
  unfold line_given. rewrite omap_app. cbn. destruct (lc_after ch); [by rewrite last_snoc|by rewrite app_nil_r].
Qed.
Lemma line_step_heads machine id l r ch v m :
  r_lines r !! id = Some ch → (∀ m, lv_heads (default (mkLineView (mkLine id "" "" 0 (r_machine r)) ∅ true) v) !! m =
    latest (head_set id m) l) →
  lv_heads (line_step machine r id v ch) !! m = latest (head_set id m) (l ++ [r]).
Proof.
  intros Hch Hh. rewrite latest_snoc. unfold head_set at 1. rewrite Hch. cbn. unfold line_step.
  set (w := default _ v) in *.
  assert (lv_heads (if negb (r_machine r == machine) && (ln_machine (lv_line w) == machine)
    then mkLineView (lv_line w) (match lc_after ch with Some after => <[r_machine r := ls_head after]> (lv_heads w) | None => lv_heads w end) (lv_deleted w)
    else match lc_after ch with
      | Some after => mkLineView (mkLine id (ls_name after) (ls_head after) (ls_owner after) (ls_machine after))
          (match lc_after ch with Some after => <[r_machine r := ls_head after]> (lv_heads w) | None => lv_heads w end) false
      | None => mkLineView (lv_line w) (match lc_after ch with Some after => <[r_machine r := ls_head after]> (lv_heads w) | None => lv_heads w end) true end) =
    match lc_after ch with Some after => <[r_machine r := ls_head after]> (lv_heads w) | None => lv_heads w end) as ->
    by (by destruct (_ && _), (lc_after ch)).
  destruct (lc_after ch) as [after|]; cbn; [|apply Hh].
  destruct (r_machine r == m) eqn:E; [apply eqb_eq in E as <-; by rewrite lookup_insert_eq|].
  apply eqb_ne in E. rewrite lookup_insert_ne by done. apply Hh.
Qed.
(** One change more. *)
Lemma line_spec_snoc machine id l r ch v :
  line_spec machine id l v → r_lines r !! id = Some ch →
  line_spec machine id (l ++ [r]) (line_step machine r id (Some v) ch).
Proof.
  intros [Hh (first & counts & Hf & Hlen & Hc & Hl & Hd)] Hch. split; [intros m; by apply line_step_heads|].
  rewrite line_changes_snoc, Hch. cbn. set (cs := line_changes id l) in *.
  set (b := negb (negb (r_machine r == machine) && (ln_machine (lv_line v) == machine))).
  assert (counting (cs ++ [(r, ch)]) (counts ++ [b]) = counting cs counts ++ (if b then [(r, ch)] else [])) as Ec.
  { rewrite counting_app by done. by destruct b. }
  exists first, (counts ++ [b]). split; [by destruct cs|]. split; [by rewrite !length_app, Hlen|]. split; [|split].
  - intros i r' ch' Hi. rewrite take_app.
    apply lookup_app_Some in Hi as [Hi|[Hge Hi]].
    + pose proof (lookup_lt_Some _ _ _ Hi). rewrite lookup_app_l by lia.
      replace (i - length cs) with 0 by lia. cbn [take]. rewrite app_nil_r.
      rewrite counting_more by (rewrite length_take; lia). by eapply Hc.
    + assert (i = length cs) as ->. { pose proof (lookup_lt_Some _ _ _ Hi). cbn in *. lia. }
      rewrite Nat.sub_diag in *. injection Hi as <- <-. cbn [take]. rewrite app_nil_r, take_ge by done.
      rewrite counting_more by lia. rewrite <-Hl, <-Hlen, lookup_app_r, Nat.sub_diag by done. cbn. subst b.
      destruct (r_machine r == machine) eqn:E1; [apply eqb_eq in E1|apply eqb_ne in E1];
        (destruct (ln_machine (lv_line v) == machine) eqn:E2; [apply eqb_eq in E2|apply eqb_ne in E2]); cbn; naive_solver.
  - rewrite Ec. unfold line_step. cbn. subst b. destruct (negb _ && _); cbn; [by rewrite app_nil_r|].
    rewrite line_given_snoc. by destruct (lc_after ch).
  - rewrite Ec. unfold line_step. cbn. subst b. destruct (negb _ && _); cbn; [by rewrite app_nil_r|].
    rewrite last_snoc. by destruct (lc_after ch).
Qed.
Lemma line_spec_first machine id l r ch :
  line_changes id l = [] → r_lines r !! id = Some ch →
  line_spec machine id (l ++ [r]) (line_step machine r id None ch).
Proof.
  intros Hn Hch. assert (∀ m, latest (head_set id m) l = None) as Hh.
  { intros m. unfold latest, head_set. unfold line_changes in Hn. induction l as [|x l IH]; [done|]. cbn in *.
    destruct (r_lines x !! id); [done|]. by apply IH. }
  split; [intros m; apply line_step_heads; [done|]; intros m'; rewrite Hh; apply lookup_empty|].
  rewrite line_changes_snoc, Hn, Hch. exists r, [true]. split; [done|]. split; [done|].
  assert (negb (r_machine r == machine) && (r_machine r == machine) = false) as Eb by (by destruct (r_machine r == machine)).
  unfold line_step. cbn. rewrite Eb. split; [|split; unfold line_given; cbn; by destruct (lc_after ch)].
  intros [|i] r' ch' [= <- <-]. cbn. destruct (decide (r_machine r = machine)); naive_solver.
Qed.
Lemma line_view_spec machine id l :
  match line_view machine id l with
  | Some v => line_spec machine id l v
  | None => line_changes id l = []
  end.
Proof.
  induction l as [|r l IH] using rev_ind; [done|]. unfold line_view in *. rewrite foldl_app. cbn.
  destruct (r_lines r !! id) as [ch|] eqn:Hch.
  - destruct (foldl _ None l) as [v|]; [by apply line_spec_snoc|by apply line_spec_first].
  - assert (∀ m, latest (head_set id m) (l ++ [r]) = latest (head_set id m) l) as Hh.
    { intros m. rewrite latest_snoc. unfold head_set at 1. by rewrite Hch. }
    rewrite line_changes_snoc, Hch. cbn. rewrite app_nil_r.
    destruct (foldl _ None l) as [v|]; [|done]. destruct IH as [H1 H2]. split; [intros m; by rewrite Hh|].
    by rewrite line_changes_snoc, Hch, app_nil_r.
Qed.

(** ** The log of a project *)

Section log_facts.
Context `{HU : Uuid, HE : Encodings, HC : Crypto, HJ : JsonText, HL : Unicode}.

Lemma elem_of_log_of l r :
  (∀ r r', r ∈ l → r' ∈ l → r_id r = r_id r' → r = r') → r ∈ log_of l ↔ r ∈ l.
Proof.
  intros Hu. unfold log_of, sort_records. rewrite elem_of_sort_by, elem_of_values.
  setoid_rewrite list_to_map_records; [|done]. naive_solver.
Qed.
Lemma log_of_ids l :
  (∀ r r', r ∈ l → r' ∈ l → r_id r = r_id r' → r = r') → NoDup (r_id <$> log_of l).
Proof.
  intros Hu. unfold log_of, sort_records. rewrite sort_by_perm. unfold values.
  set (m := list_to_map _ : gmap string LogRecord).
  assert (r_id <$> (entries m).*2 = (entries m).*1) as ->; [|apply NoDup_keys].
  rewrite <-list_fmap_compose. apply list_fmap_ext. intros i [k r] Hi. simpl.
  apply list_elem_of_lookup_2, elem_of_entries, list_to_map_records in Hi; [|done]. tauto.
Qed.
(** The log is strictly in application order. *)
Lemma log_of_sorted id l :
  consistent id l → StronglySorted (λ a b, clt (order a) (order b) = true) (log_of l).
Proof.
  intros (_ & Hu & Hs). apply (sorted_strict order).
  - apply (sort_by_sorted _ (λ _, True)); [intros; apply cle_total|intros; by eapply cle_trans|].
    by apply Forall_true.
  - apply NoDup_fmap_2_strong; [|eapply NoDup_fmap_1, log_of_ids, Hu].
    intros x y Hx Hy E. rewrite elem_of_log_of in Hx, Hy by done. unfold order in E. simplify_eq. auto.
Qed.
Lemma from_records_log id l machine p :
  Forall (λ r, Record_wf r = true) l → from_records id l machine = Ok p →
  consistent id l ∧ p_records p = log_of l.
Proof.
  intros Hwf Hp. destruct (from_records_spec id l machine Hwf) as [[Hc E]|[_ [e E]]];
    rewrite Hp in E; [|done]. symmetry in E. inv_ok. done.
Qed.
End log_facts.

(** ** Main results *)

(** C1. A project is a function of the set of its records: any arrival order, and any repetition
    of records, gives the same project, and is accepted or refused alike. *)
Theorem project_of_record_set
    `{HU : Uuid, HE : Encodings, HC : Crypto, HJ : JsonText, HL : Unicode} id l l' machine :
  Forall (λ r, Record_wf r = true) l → (∀ r, r ∈ l ↔ r ∈ l') →
  ok (from_records id l machine) = ok (from_records id l' machine).
Proof. apply from_records_set. Qed.
Definition plain_state (id : string) (kind : StateKind) (parents : list string) (time : Z) : StateRec :=
  mkStateRec id kind None None None parents None "" (mkAuthor "" "" 0 None) "" time false [] ∅ None false None.
Definition plain_record (id machine : string) (seq time : Z) (op : string) (states : list StateRec)
    (lines : gmap string LineChange) (data : json) : LogRecord :=
  mkRecord id machine seq time op "p" (mkActor 0 "" None) states lines data.
Definition log_r1 : LogRecord :=
  plain_record "r1" "m" 1 1 "commit" [plain_state "s1" Commit [] 1]
    {["l" := mkLineChange None (Some (mkLineState "main" "s1" 0 "m")) None None]} JNull.
Definition log_r2 : LogRecord :=
  plain_record "r2" "n" 1 2 "commit" [plain_state "s2" Commit ["s1"] 2]
    {["l" := mkLineChange None (Some (mkLineState "main" "s2" 0 "n")) None None]} JNull.
Lemma project_of_record_set_witness :
  ok (@from_records uuid_plain encodings_hex crypto_plain no_text ascii_lowercase "p" [log_r1; log_r2] "m") =
  ok (@from_records uuid_plain encodings_hex crypto_plain no_text ascii_lowercase "p" [log_r2; log_r1; log_r2] "m").
Proof.
  apply project_of_record_set; [by repeat constructor|]. intros r. rewrite !elem_of_cons. tauto.
Defined.

(** The records of a project are the given ones, each once, strictly in application order:
    by time from the epoch, then machine, then sequence number. *)
Theorem project_log_sorted
    `{HU : Uuid, HE : Encodings, HC : Crypto, HJ : JsonText, HL : Unicode} id l machine p :
  Forall (λ r, Record_wf r = true) l → from_records id l machine = Ok p →
  (∀ r, r ∈ p_records p ↔ r ∈ l) ∧ NoDup (r_id <$> p_records p) ∧
  StronglySorted (λ a b, clt (order a) (order b) = true) (p_records p).
Proof.
  intros Hwf Hp. destruct (from_records_log _ _ _ _ Hwf Hp) as [Hc ->].
  split; [|split; [|by eapply log_of_sorted]].
  - intros r. apply elem_of_log_of, Hc.
  - apply log_of_ids, Hc.
Qed.
Definition sample_project : Project :=
  default (empty_project "" "")
    (ok (@from_records uuid_plain encodings_hex crypto_plain no_text ascii_lowercase "p" [log_r2; log_r1] "m")).

(** C25. The states of a project are exactly the states that its records name. No two records
    name one state; a state keeps the machine and every field its record gave it, apart from
    the cache snapshots and the dropped mark. *)
Theorem project_states_exact
    `{HU : Uuid, HE : Encodings, HC : Crypto, HJ : JsonText, HL : Unicode} id l machine p :
  from_records id l machine = Ok p →
  core <$> p_states p = list_to_map (log_cores (p_records p)) ∧ NoDup (log_cores (p_records p)).*1.
Proof. intros Hp. by destruct (from_records_inv _ _ _ _ Hp) as [[Hs Hn _ _ _ _ _ _] _]. Qed.
Lemma project_states_exact_witness :
  core <$> p_states sample_project = list_to_map (log_cores (p_records sample_project)) ∧
  NoDup (log_cores (p_records sample_project)).*1.
Proof.
  apply (@project_states_exact uuid_plain encodings_hex crypto_plain no_text ascii_lowercase "p"
    [log_r2; log_r1] "m"). vm_compute. reflexivity.
Defined.

(** C2. The fold of a log is what its records say last. A line is there exactly when a record changes
    it. It shows, for each machine, the head that the machine published last, and is what the last
    change that counts gave it, a change being ignored only when another machine makes it while the
    line belongs to the reader's machine. A ref and a queue entry are as the last record that
    changes them leaves them. The history of refs and the evidence list, in order, each
    change and each piece of evidence of the log with the index of its record. A log with a change
    or evidence that cannot be read is refused. *)
Theorem project_lines_refine
    `{HU : Uuid, HE : Encodings, HC : Crypto, HJ : JsonText, HL : Unicode} id l machine p (log := p_records p) :
  from_records id l machine = Ok p →
  (∀ line, match p_lines p !! line with
           | Some v => line_spec machine line log v
           | None => line_changes line log = []
           end) ∧
  (∀ name, p_refs p !! name = mjoin (latest (ref_set name) log)) ∧
  (∀ entry, p_queue p !! entry = mjoin (latest (queue_set entry) log)) ∧
  p_ref_history p = log_entries (λ _, ref_change) log ∧
  p_attestations p = log_entries evidence_given log ∧
  Forall (λ r, readable r = true) log.
Proof.
  intros Hp. destruct (from_records_inv _ _ _ _ Hp) as [[_ _ Hl Hq Hr Hh Ha Hv] Hm].
  split; [|done]. intros line. rewrite Hl, Hm. apply line_view_spec.
Qed.
Definition main_ref : RefState := mkRefState "main" "s2" None.
Definition log_r3 : LogRecord :=
  plain_record "r3" "n" 2 3 "approve" [] ∅ (JObject [("state", JString "s2");
    ("ref_change", RefChange_to_value (mkRefChange "main" None (Some main_ref)))]).
Definition ref_project : Project :=
  default (empty_project "" "")
    (ok (@from_records uuid_plain encodings_hex crypto_plain no_text ascii_lowercase "p" [log_r3; log_r2; log_r1] "m")).
Lemma project_lines_refine_witness :
  p_refs ref_project !! "main" = mjoin (latest (ref_set "main") (p_records ref_project)) ∧
  p_refs ref_project !! "main" = Some main_ref ∧ length (p_attestations ref_project) = 1 ∧
  (∃ v, p_lines ref_project !! "l" = Some v ∧ line_spec "m" "l" (p_records ref_project) v ∧ ln_head (lv_line v) = "s1").
Proof.
  destruct (@project_lines_refine uuid_plain encodings_hex crypto_plain no_text ascii_lowercase "p"
    [log_r3; log_r2; log_r1] "m" ref_project) as (Hl & Hr & _); [vm_compute; reflexivity|].
  split; [exact (Hr "main")|]. split; [vm_compute; reflexivity|]. split; [vm_compute; reflexivity|].
  specialize (Hl "l"). destruct (p_lines ref_project !! "l") as [v|] eqn:E; [|by vm_compute in E].
  exists v. split; [done|]. split; [done|]. vm_compute in E. by injection E as <-.
Defined.

(** Another machine cannot move a line that this machine owns: after any further records of
    other machines the line keeps its name, head and owner and stays as deleted or not as it
    was; only the heads that those machines published are added. *)
Theorem foreign_records_keep_line machine id l l' v :
  line_view machine id l = Some v → ln_machine (lv_line v) = machine →
  (∀ r, r ∈ l' → r_machine r ≠ machine) →
  ∃ v', line_view machine id (l ++ l') = Some v' ∧ lv_line v' = lv_line v ∧
        lv_deleted v' = lv_deleted v ∧ lv_heads v' !! machine = lv_heads v !! machine.
Proof.
  intros Hv Hm. induction l' as [|r l' IH] using rev_ind; intros Hf.
  { rewrite app_nil_r. eauto. }
  destruct IH as (v1 & Hv1 & El & Ed & Eh); [intros; apply Hf; apply elem_of_app; by left|].
  assert (r_machine r ≠ machine) as Hr by (apply Hf; apply elem_of_app; right; left).
  rewrite app_assoc. unfold line_view in *. rewrite foldl_app. simpl. rewrite Hv1.
  destruct (r_lines r !! id) as [ch|]; [|eauto]. eexists. split; [done|].
  unfold line_step. simpl.
  rewrite (proj2 (eqb_false _ _) Hr), El, Hm, eqb_refl. simpl. split; [done|]. split; [done|].
  destruct (lc_after ch); [|done]. by rewrite lookup_insert_ne.
Qed.
Definition sample_view : LineView :=
  mkLineView (mkLine "l" "main" "s1" 0 "m") {["m" := "s1"]} false.

(** The record that names a cache state which an earlier record has as a parent. *)
Definition late_cache : LogRecord :=
  plain_record "r3" "m" 2 3 "cache" [plain_state "s1" Cache [] 3] ∅ JNull.
(** The check that history has no cache or derived parent depends on the order of the
    records: a state whose parent is named as a cache state by a later record is accepted,
    though the same two states are refused when the cache state comes first. *)
Theorem auxiliary_parent_accepted :
  (∃ p s, @from_records uuid_plain encodings_hex crypto_plain no_text ascii_lowercase
            "p" [log_r2; late_cache] "m" = Ok p ∧
     sv_state <$> p_states p !! "s2" = Some s ∧ st_parents s = ["s1"] ∧ state_auxiliary p "s1" = true) ∧
  is_ok (@from_records uuid_plain encodings_hex crypto_plain no_text ascii_lowercase "p"
           [plain_record "r2" "n" 1 4 "commit" [plain_state "s2" Commit ["s1"] 2] ∅ JNull; late_cache] "m")
    = false.
Proof.
  split; [|by vm_compute]. do 2 eexists. split; [vm_compute; reflexivity|].
  split; [vm_compute; reflexivity|]. split; by vm_compute.
Qed.
