(* ===== verification/Queries.v ===== *)
(** Queries of a project and the collection of projects ([layr-model/src/lib.rs],
    [operations.rs], [overlays.rs] and [release.rs]). *)

From S2P Require Import Prelude Strs Json Canonical Types Extern Format Request Validation Project.

(** ** Access epochs ([layr-store/src/epochs.rs]) *)

Inductive Mode := Private | Service | Public.
#[export] Instance Mode_eq_dec : EqDecision Mode.
Proof. solve_decision. Defined.
Definition Mode_parse (value : string) : result Mode :=
  if value == "private" then Ok Private
  else if value == "service" then Ok Service
  else if value == "public" then Ok Public
  else Err "access mode must be private, service or public".
Definition Mode_name (m : Mode) : string :=
  match m with Private => "private" | Service => "service" | Public => "public" end.
Definition Mode_from_value : json → result Mode :=
  de_variant [("private", Private); ("service", Service); ("public", Public)].
(** The derived order of the variants. *)
Definition Mode_rank (m : Mode) : Z := match m with Private => 0 | Service => 1 | Public => 2 end.

Record EpochKey := mkEpochKey {
  ek_project : string; ek_parent : string; ek_parent_recipient : string; ek_epoch : string;
  ek_recipient : string; ek_mode : Mode; ek_readers_hash : string }.

Section epochs.
Context `{Uuid, Encodings, Crypto}.
Definition Key_validate (k : EpochKey) : result () :=
  bail_if (negb (is_uuid (ek_project k)) || negb (is_uuid (ek_epoch k))
           || (negb (ek_parent k == "root") && negb (is_uuid (ek_parent k)))
           || negb (valid_recipient (ek_recipient k))
           || negb (valid_recipient (ek_parent_recipient k))
           || (ek_recipient k == ek_parent_recipient k)
           || negb (str_len (ek_readers_hash k) =? 64)%Z
           || negb (all_bytes (λ c, is_ascii_digit c || byte_between 97 102 c) (ek_readers_hash k)))
    "invalid project epoch descriptor".
Definition Key_prefix (k : EpochKey) : string := "project/epochs/" +:+ ek_epoch k.
Definition Key_object (k : EpochKey) (record : string) : string :=
  "keys/" +:+ ek_epoch k +:+ "-" +:+ record +:+ ".json".
Definition readers_hash (readers : gmap string string) : result string :=
  c ← canonical (ser_map JString readers);
  Ok (hex_encode (sha256 c)).
End epochs.

(** ** Queries of a project *)

(** [json!({...})] of present members, in key order. *)
Definition json_row (l : list (string * json)) : json :=
  JObject (sort_by (λ a b, cle a.1 b.1) l).

Definition access_mode (p : Project) : Mode :=
  default Private (r ← find (λ r, r_op r == "project.mode") (reverse (p_records p));
                   ok (Mode_from_value (r_data r).["mode"])).
Definition key_epochs (p : Project) : list json :=
  (λ ir : nat * LogRecord,
    let '(i, r) := ir in
    let row := json_row [("number", JInt (Z.of_nat (i + 1))); ("id", (r_data r).["epoch"]);
      ("time", JInt (r_time r)); ("machine", JString (r_machine r));
      ("mode", (r_data r).["mode"]); ("readers_hash", (r_data r).["readers_hash"])] in
    let reason :=
      m ← find (λ m, (r_op m == "project.mode") && ((r_data m).["epoch"] == (r_data r).["epoch"]))
            (p_records p);
      v ← get (r_data m) "reason"; if is_null v then None else Some v in
    match reason with Some v => set_key row "reason" v | None => row end)
  <$> enumerate (filterb (λ r, r_op r == "project.key") (p_records p)).

Definition line_list (p : Project) : list Line :=
  sort_by (λ a b, cle (ln_name a, ln_id a) (ln_name b, ln_id b))
    (lv_line <$> filterb (λ v, negb (lv_deleted v)) (values (p_lines p))).
Definition state (p : Project) (id : string) : option StateRec := sv_state <$> p_states p !! id.
(** Newest first. *)
Definition line_states (p : Project) (line : string) (kind : StateKind) : list StateRec :=
  sort_by (λ a b, cle (st_time b, st_id b) (st_time a, st_id a))
    (sv_state <$> filterb (λ s, negb (sv_dropped s) && (st_line (sv_state s) == Some line)
                                && (st_kind (sv_state s) == kind)) (values (p_states p))).
Definition ref_list (p : Project) (prefix : string) (now : Z) : list RefState :=
  filterb (λ r, starts_with prefix (rs_name r) && is_none_or (rs_expires_at r) (λ e, (now <? e)%Z))
    (values (p_refs p)).
Definition ref_log (p : Project) (name : string) : list RefChange :=
  snd <$> filterb (λ ic : nat * RefChange, rc_name ic.2 == name) (reverse (p_ref_history p)).
Definition queue_list (p : Project) (target : option string) : list QueueEntry :=
  sort_by (λ a b, cle (qe_time a, qe_id a) (qe_time b, qe_id b))
    (filterb (λ e, is_none_or target (λ t, t == qe_target_line e)) (values (p_queue p))).
Definition changes (p : Project) : list string :=
  members (list_to_set (filter_map (λ s, st_change_id (sv_state s)) (values (p_states p)))).
Definition change_versions (p : Project) (id : string) : list StateRec :=
  sort_by (λ a b, cle (st_time a, st_id a) (st_time b, st_id b))
    (sv_state <$> filterb (λ s, st_change_id (sv_state s) == Some id) (values (p_states p))).
Definition attestations (p : Project) (subject : string) (kind : option string) : list Attestation :=
  snd <$> filterb (λ ia : nat * Attestation,
      (su_id (at_subject ia.2) == subject) && is_none_or kind (λ k, k == at_kind ia.2))
    (p_attestations p).
Definition op_log (p : Project) (line : option string) (limit : nat) : list LogRecord :=
  take limit (sort_by (λ a b, cle (r_time b, r_seq b) (r_time a, r_seq a))
    (filterb (λ r, is_none_or line (λ l,
        memb (r_op r) ["push"; "sync"] || is_some (r_lines r !! l)
        || (as_str (r_data r).["line"] == Some l))) (p_records p))).
Definition setting (p : Project) (key : string) : option json :=
  v ← p_config p !! key; if is_null v then None else Some v.
Definition overlay_setting (p : Project) (key : string) : option json :=
  v ← find_map (λ r, get (r_data r).["config"] key)
        (filterb (λ r, memb (r_op r) CONFIG_OPS) (reverse (p_records p)));
  if is_null v then None else Some v.
Definition comments (p : Project) (change : string) : list json :=
  filter_map (λ r,
    comment ← get (r_data r) "comment";
    if as_str comment.["change_id"] == Some change then
      Some (set_key (set_key comment "actor" (Actor_to_value (r_actor r))) "time" (JInt (r_time r)))
    else None) (p_records p).

(** ** Completed operations ([operations.rs]) *)

Definition evidence (r : LogRecord) (data : json) : json :=
  let data := set_key data "id" (JString (r_id r)) in
  let data := set_key data "machine" (JString (r_machine r)) in
  let data := set_key data "time" (JInt (r_time r)) in
  set_key data "actor" (Actor_to_value (r_actor r)).
Definition whole_log (p : Project) : list LogRecord := op_log p None (length (p_records p)).
Definition transfers (p : Project) : list json :=
  (λ r, evidence r (r_data r)) <$>
    filterb (λ r, memb (r_op r) ["push"; "sync"] && is_str (r_data r).["result"] "success") (whole_log p).
Definition bisect_results (p : Project) : list json :=
  (λ r, evidence r (r_data r)) <$> filterb (λ r, r_op r == "bisect.run") (whole_log p).
Definition version_info (p : Project) (st : string) : option json :=
  find_map (λ r, version ← get (r_data r) "version";
                 if as_str version.["state"] == Some st then Some (evidence r version) else None)
    (p_records p).
Definition remote_kind (url : string) : string :=
  if starts_with "ssh://" url then "peer"
  else if starts_with "oci://" url then "registry" else "store".
Definition copy_of (p : Project) (kv : string * json) : option json :=
  url ← as_str kv.2;
  let '(key, scope) := default (kv.1, p_machine p) (rsplit_once "@" kv.1) in
  '(name, kind) ← or_else
    (rest ← strip_prefix "cloud.remote." key; name ← strip_suffix ".url" rest;
     Some (name, remote_kind url))
    (rest ← strip_prefix "remote." key; name ← strip_suffix ".url" rest; Some (name, "git"));
  let address := public_url url in
  let copy := json_row [("id", JString (scope +:+ ":" +:+ name)); ("name", JString name);
                        ("kind", JString kind); ("address", JString address)] in
  Some (match find (λ r, is_str r.["machine"] scope && is_str r.["remote"] name
                         && is_str r.["url"] address) (transfers p) with
        | Some last =>
            set_key (set_key (set_key copy "time" last.["time"]) "machine" last.["machine"]) "last" last
        | None => copy
        end).
Definition copies (p : Project) : list json := filter_map (copy_of p) (entries (p_config p)).

(** [overlays::epochs]. *)
Definition overlay_epochs (records : list LogRecord) : list json :=
  (λ ir : nat * LogRecord,
    let '(index, r) := ir in
    let row := json_row [("number", JInt (Z.of_nat (index + 1))); ("id", (r_data r).["epoch"]);
      ("time", JInt (r_time r)); ("machine", JString (r_machine r))] in
    match get (r_data r) "reason" with Some reason => set_key row "reason" reason | None => row end)
  <$> enumerate (sort_records (filterb (λ r, r_op r == "overlay.key") records)).

(** ** Release files ([release.rs]) *)

Section release.
Context `{Uuid, Unicode}.

Definition read_files (r : LogRecord) : result Files :=
  files ← Files_from_value (r_data r);
  Files_validate files;;
  Ok files.
(** The loop over the records, newest first, that returns at the first match. *)
Fixpoint release_search (name target : string) (l : list LogRecord) : result (list File) :=
  match l with
  | [] => Ok []
  | r :: l =>
      files ← read_files r;
      if (fs_reference files == name) && (fs_state files == target) then Ok (fs_files files)
      else release_search name target l
  end.
Definition release_records (p : Project) : list LogRecord :=
  filterb (λ r, r_op r == "release.files") (p_records p).
Definition release_files (p : Project) (name : string) (now : Z) : result (list File) :=
  match find (λ r, rs_name r == name) (ref_list p name now) with
  | None => Ok []
  | Some reference => release_search name (rs_target reference) (reverse (release_records p))
  end.
Definition release_objects (p : Project) (now : Z) : result (gset string * gset string) :=
  let refs : gset string := list_to_set (rs_name <$> ref_list p "release/" now) in
  foldM (λ (lk : gset string * gset string) r,
      files ← read_files r;
      Ok (foldl (λ (lk : gset string * gset string) f,
            (if bool_decide (fs_reference files ∈ refs) then {[fi_object f]} ∪ lk.1 else lk.1,
             {[fi_object f]} ∪ lk.2)) lk (fs_files files)))
    (∅, ∅) (release_records p).
End release.

(** ** The collection of projects *)

Record Model := mkModel { m_projects : gmap string Project }.

Definition check_perspective (project : string) (creator : option LogRecord) (record : LogRecord)
    : result (option LogRecord) :=
  bail_if (negb (r_project record == project)) "policy records belong to another project";;
  if negb (r_op record == "project") then Ok creator
  else
    bail_if (negb (as_str (r_data record).["id"] == Some project) || is_empty (r_machine record))
      "invalid project creator record";;
    match creator with
    | Some previous =>
        bail_if (negb (Record_to_value previous == Record_to_value record)) "ambiguous project creator";;
        Ok creator
    | None => Ok (Some record)
    end.
Definition project_perspective (project : string) (records : list LogRecord) : result string :=
  creator ← foldM (check_perspective project) None records;
  r_machine <$> ctx "project creator record is missing" creator.

(** [grouped.entry(record.project).or_default().push(record)]. *)
Definition group_record (g : gmap string (list LogRecord)) (r : LogRecord)
    : gmap string (list LogRecord) :=
  <[r_project r := default [] (g !! r_project r) ++ [r]]> g.

Section model.
Context `{Uuid, Encodings, Crypto, JsonText, Unicode}.

Definition Model_from_records (records : list LogRecord) (machine : string) : result Model :=
  let grouped := foldl group_record ∅ records in
  let announcements := default [] (grouped !! "") in
  let grouped := delete "" grouped in
  projects ← collect (λ ir : string * list LogRecord,
      p ← from_records ir.1 (ir.2 ++ announcements) machine; Ok (ir.1, p)) (entries grouped);
  Ok (mkModel (list_to_map projects)).

(** The envelope of a verified line, read through its typed form. *)
Definition read_envelope (line : string) : result LogRecord :=
  j ← json_parse line;
  f ← de_struct ["r"] [] false j;
  f_req Record_from_value f "r".
Definition from_verified_lines (lines : list string) (machine : string) : result Model :=
  records ← collect (λ line, r ← read_envelope line; validate r;; Ok r) lines;
  Model_from_records records machine.

Definition overlay_projects (m : Model) (parent : string) : list Project :=
  filterb (λ p, is_some_and (overlay_setting p "overlay") (λ v, is_str v.["project"] parent))
    (values (m_projects m)).

(** A hidden overlay of a line with its selected position, [u64::MAX] when it has none. *)
Definition hidden_layer (line : Line) (overlay : Project) : result (option (Z * Layer)) :=
  match overlay_setting overlay "overlay" with
  | None => Ok None
  | Some info =>
      if negb (is_bool info.["hidden"] true) then Ok None
      else
        name ← ctx "hidden overlay has no name" (as_str info.["name"]);
        let selection := overlay_setting overlay ("hidden.stack." +:+ ln_id line) in
        if is_some_and selection (λ v, is_bool v.["enabled"] false) then Ok None
        else Ok (ol ← find (λ l, ln_name l == "line-" +:+ ln_id line) (line_list overlay);
                 Some (unwrap_or (v ← selection; as_u64 v.["position"]) u64_max,
                       mkLayer name (ln_head ol)))
  end.
(** [layers.insert(position.min(len), layer)]. *)
Definition insert_layer (layers : list Layer) (pl : Z * Layer) : list Layer :=
  let at_ := Z.to_nat (Z.min pl.1 (Z.of_nat (length layers))) in
  take at_ layers ++ pl.2 :: drop at_ layers.
Definition model_layers (m : Model) (parent : string) (line : Line) : result (list Layer) :=
  project ← ctx "unknown parent project" (m_projects m !! parent);
  let key := "stack." +:+ ln_id line in
  layers ← match or_else (setting project (key +:+ "@" +:+ ln_machine line)) (setting project key) with
    | Some v => de_vec Layer_from_value v
    | None => Ok []
    end;
  hidden ← collect (hidden_layer line) (overlay_projects m parent);
  let hidden := sort_by (λ a b, cle (a.1, la_overlay a.2) (b.1, la_overlay b.2)) (filter_map id hidden) in
  Ok (foldl insert_layer layers hidden).
End model.
