(* ===== verification/History.v ===== *)
(** Ancestry of states ([layr-model/src/lib.rs]: [log], [ancestors], [merge_base],
    [open_changes]).

    The loops run on fuel. The fuel of a walk counts what can still be queued: the queue itself
    and the parents of every state that was not visited; each turn of the loop makes this
    smaller, so the walks always end by an empty queue. *)

From S2P Require Import Prelude Strs Json Canonical Types Extern Format Request Validation Project Queries.

(** The parents of a state, none for an unknown one. *)
Definition parents_of (p : Project) (id : string) : list string :=
  match state p id with Some s => st_parents s | None => [] end.

(** The number of states that the states outside of [seen] lead to by [next], with repetitions. *)
Definition pending_by (next : StateRec → list string) (p : Project) (seen : gset string) : nat :=
  sum_list ((λ kv, if bool_decide (kv.1 ∈ seen) then 0 else length (next (sv_state kv.2)))
            <$> entries (p_states p)).
Definition pending : Project → gset string → nat := pending_by st_parents.

(** ** Breadth-first ancestry *)

Fixpoint ancestors_go (fuel : nat) (p : Project) (seen : gset string) (queue out : list string)
    : option (list string) :=
  match queue with
  | [] => Some out
  | id :: queue =>
      match fuel with
      | 0 => None
      | S fuel =>
          if bool_decide (id ∈ seen) then ancestors_go fuel p seen queue out
          else ancestors_go fuel p ({[id]} ∪ seen) (queue ++ parents_of p id) (out ++ [id])
      end
  end.
Definition ancestors (p : Project) (id : string) : list string :=
  default [] (ancestors_go (1 + pending p ∅) p ∅ [id] []).

Definition merge_base (p : Project) (a b : string) : option string :=
  let right : gset string := list_to_set (ancestors p b) in
  let common := filterb (λ id, bool_decide (id ∈ right)) (ancestors p a) in
  find (λ c, negb (existsb (λ d, negb (d == c) && memb c (ancestors p d)) common)) common.

(** ** History in date order *)

(** [BinaryHeap::pop]: the greatest element. *)
Fixpoint max_of (x : Z * string) (l : list (Z * string)) : Z * string :=
  match l with [] => x | y :: l => max_of (if cle x y then y else x) l end.
Fixpoint remove_one (x : Z * string) (l : list (Z * string)) : list (Z * string) :=
  match l with [] => [] | y :: l => if x == y then l else y :: remove_one x l end.
Definition pop (heap : list (Z * string)) : option ((Z * string) * list (Z * string)) :=
  match heap with
  | [] => None
  | x :: l => let m := max_of x l in Some (m, remove_one m heap)
  end.

Definition stamp (s : StateRec) : Z * string := (st_time s, st_id s).

Fixpoint log_go (fuel : nat) (p : Project) (limit : nat) (seen : gset string)
    (heap : list (Z * string)) (out : list StateRec) : option (list StateRec) :=
  match pop heap with
  | None => Some out
  | Some ((_, id), heap) =>
      match fuel with
      | 0 => None
      | S fuel =>
          if bool_decide (id ∈ seen) then log_go fuel p limit seen heap out
          else match state p id with
               | Some s =>
                   if (limit <=? length out)%nat then Some out
                   else log_go fuel p limit ({[id]} ∪ seen)
                          (heap ++ filter_map (λ q, stamp <$> state p q) (st_parents s)) (out ++ [s])
               | None => log_go fuel p limit ({[id]} ∪ seen) heap out
               end
      end
  end.
Definition log_starts (p : Project) (starts : list string) (auto_line : option string)
    : list (Z * string) :=
  filter_map (λ id, s ← state p id; if auxiliary (st_kind s) then None else Some (stamp s)) starts ++
  match auto_line with Some line => stamp <$> line_states p line Auto | None => [] end.
Definition log (p : Project) (starts : list string) (auto_line : option string) (limit : nat)
    : list StateRec :=
  let heap := log_starts p starts auto_line in
  default [] (log_go (length heap + pending p ∅) p limit ∅ heap []).

(** ** Open changes *)

Definition latest_change (m : gmap string StateRec) (s : StateRec) : gmap string StateRec :=
  match st_change_id s with
  | Some c =>
      let current := default s (m !! c) in
      <[c := if clt (stamp current) (stamp s) then s else current]> m
  | None => m
  end.
Definition open_changes (p : Project) : list StateRec :=
  let integrated : gset string :=
    list_to_set (mjoin ((λ l, ancestors p (ln_head l)) <$> filterb (λ l, ln_name l == "main") (line_list p))) in
  let latest := foldl latest_change ∅ (sv_state <$> values (p_states p)) in
  filterb (λ s, negb (bool_decide (st_id s ∈ integrated))) (values latest).

(** * Properties *)

(** ** The walks end *)

Lemma sum_flip {A} (f g : A → nat) (l : list A) x d :
  NoDup l → x ∈ l → (∀ y, y ∈ l → y ≠ x → f y = g y) → f x + d = g x →
  sum_list (f <$> l) + d = sum_list (g <$> l).
Proof.
  induction l as [|y l IH]; [set_solver|]. intros Hnd Hx Hne Hd.
  apply NoDup_cons in Hnd as [Hy Hnd]. csimpl. apply elem_of_cons in Hx as [<-|Hx].
  - assert (sum_list (f <$> l) = sum_list (g <$> l)) as ->; [|lia].
    f_equal. apply list_fmap_ext. intros i z Hz%list_elem_of_lookup_2.
    apply Hne; [by right|]. by intros ->.
  - rewrite (Hne y); [|left|by intros ->].
    assert (sum_list (f <$> l) + d = sum_list (g <$> l)) as <-; [|lia].
    apply IH; [done|done| |done]. intros z Hz. apply Hne. by right.
Qed.
Lemma pending_by_step next p seen id :
  id ∉ seen →
  pending_by next p ({[id]} ∪ seen) + length (from_option next [] (state p id)) = pending_by next p seen.
Proof.
  intros Hid. unfold pending_by, state.
  destruct (p_states p !! id) as [s|] eqn:E; simpl.
  - apply (sum_flip _ _ _ (id, s)).
    + eapply NoDup_fmap_1, NoDup_keys.
    + by apply elem_of_entries.
    + intros [k v] Hk Hne. simpl. assert (k ≠ id).
      { intros ->. apply elem_of_entries in Hk. congruence. }
      destruct (decide (k ∈ seen)).
      * by rewrite !bool_decide_eq_true_2 by set_solver.
      * by rewrite !bool_decide_eq_false_2 by set_solver.
    + simpl. rewrite bool_decide_eq_true_2, bool_decide_eq_false_2 by set_solver. done.
  - rewrite Nat.add_0_r. f_equal. apply list_fmap_ext. intros i [k v] Hk%list_elem_of_lookup_2. simpl.
    assert (k ≠ id). { intros ->. apply elem_of_entries in Hk. congruence. }
    destruct (decide (k ∈ seen)).
    + by rewrite !bool_decide_eq_true_2 by set_solver.
    + by rewrite !bool_decide_eq_false_2 by set_solver.
Qed.
Lemma pending_step p seen id :
  id ∉ seen → pending p ({[id]} ∪ seen) + length (parents_of p id) = pending p seen.
Proof.
  intros Hid. unfold pending. rewrite <-(pending_by_step st_parents p seen id Hid).
  unfold parents_of. by destruct (state p id).
Qed.
Lemma ancestors_go_ends fuel p seen queue out :
  length queue + pending p seen ≤ fuel → is_Some (ancestors_go fuel p seen queue out).
Proof.
  revert seen queue out. induction fuel as [|fuel IH]; intros seen [|id queue] out Hf; simpl in *;
    [by eexists|lia|by eexists|]. case_bool_decide as Hid.
  - apply IH. lia.
  - apply IH. rewrite length_app. pose proof (pending_step p seen id Hid). lia.
Qed.

(** ** Ancestry is reachability *)

Definition edge (p : Project) (x y : string) : Prop := y ∈ parents_of p x.

Lemma edge_inv p x y : edge p x y → ∃ s, state p x = Some s ∧ y ∈ st_parents s.
Proof. unfold edge, parents_of. destruct (state p x) as [s|]; [eauto|set_solver]. Qed.

Lemma rtc_closed {A} (R : A → A → Prop) (P : A → Prop) x y :
  rtc R x y → P x → (∀ a b, P a → R a b → P b) → P y.
Proof. induction 1; eauto. Qed.

Lemma ancestors_go_spec fuel p root seen queue out res :
  NoDup out → (∀ x, x ∈ out ↔ x ∈ seen) →
  (∀ x, x ∈ out ∨ x ∈ queue → rtc (edge p) root x) →
  (∀ x y, x ∈ out → edge p x y → y ∈ out ∨ y ∈ queue) → (root ∈ out ∨ root ∈ queue) →
  ancestors_go fuel p seen queue out = Some res →
  NoDup res ∧ (∀ x, x ∈ res ↔ rtc (edge p) root x) ∧ prefix out res.
Proof.
  assert (∀ out : list string, (∀ x, x ∈ out ∨ x ∈ [] → rtc (edge p) root x) →
    (∀ x y, x ∈ out → edge p x y → y ∈ out ∨ y ∈ []) → (root ∈ out ∨ root ∈ []) →
    ∀ x, x ∈ out ↔ rtc (edge p) root x) as Hend.
  { intros out' Hr Hc Hroot x. split; [auto|]. intros Hx.
    apply (rtc_closed (edge p) (λ z, z ∈ out') root); [done|set_solver|]. intros a b Ha Hab. destruct (Hc a b Ha Hab); set_solver. }
  revert seen queue out. induction fuel as [|fuel IH]; intros seen [|id queue] out Hnd Hseen Hreach Hcl Hroot Hgo;
    simpl in Hgo; try done.
  1,2: injection Hgo as <-; split; [done|]; split; [by apply Hend|done].
  case_bool_decide as Hid.
  - apply IH in Hgo; try done.
    + intros x. set_solver.
    + intros x y Hx Hxy. destruct (Hcl x y Hx Hxy) as [?|[->|?]%elem_of_cons]; [auto|left; by apply Hseen|auto].
    + destruct Hroot as [?|[->|?]%elem_of_cons]; [auto|left; by apply Hseen|auto].
  - apply IH in Hgo.
    + destruct Hgo as (? & ? & Hpre). split; [done|]. split; [done|].
      etrans; [|done]. by apply prefix_app_r.
    + apply NoDup_app. split; [done|]. split; [|apply NoDup_singleton].
      intros x Hx ->%list_elem_of_singleton. apply Hid. by apply Hseen.
    + intros x. rewrite elem_of_app, list_elem_of_singleton, Hseen. set_solver.
    + intros x Hx. assert (rtc (edge p) root id) by (apply Hreach; right; left).
      rewrite !elem_of_app, list_elem_of_singleton in Hx.
      destruct Hx as [[?| ->]|[?|?]]; [auto|done|apply Hreach; right; by right|].
      eapply rtc_r; done.
    + intros x y. rewrite !elem_of_app, list_elem_of_singleton. intros [Hx| ->] Hxy.
      * destruct (Hcl x y Hx Hxy) as [Hy|[->|Hy]%elem_of_cons]; [by left; left|left; right; left|by right; left].
      * right. by right.
    + rewrite !elem_of_app, list_elem_of_singleton.
      destruct Hroot as [Hr|[->|Hr]%elem_of_cons]; [by left; left|by left; right|by right; left].
Qed.
Lemma ancestors_eq p id :
  ancestors_go (1 + pending p ∅) p ∅ [id] [] = Some (ancestors p id).
Proof.
  destruct (ancestors_go_ends (1 + pending p ∅) p ∅ [id] []) as [res E]; [simpl; lia|].
  unfold ancestors. by rewrite E.
Qed.
Lemma ancestors_spec p id :
  NoDup (ancestors p id) ∧ (∀ x, x ∈ ancestors p id ↔ rtc (edge p) id x) ∧
  head (ancestors p id) = Some id.
Proof.
  pose proof (ancestors_eq p id) as E.
  destruct (ancestors_go_spec (1 + pending p ∅) p id ∅ [id] [] (ancestors p id)) as (? & ? & _).
  - constructor.
  - set_solver.
  - intros x [?|Hx]; [set_solver|]. apply list_elem_of_singleton in Hx as ->. done.
  - set_solver.
  - right. left.
  - done.
  - split; [done|]. split; [done|]. simpl in E. rewrite bool_decide_eq_false_2 in E by set_solver.
    clear -E. simpl in E.
    assert (∀ fuel seen queue out res, ancestors_go fuel p seen queue out = Some res → prefix out res) as Hp.
    { induction fuel as [|fuel IH]; intros seen [|i queue] out res; simpl; try done;
        [intros [= ->]; done|intros [= ->]; done|]. case_bool_decide; [eauto|].
      intros ?%IH. etrans; [|done]. by apply prefix_app_r. }
    apply Hp in E as [k ->]. done.
Qed.

(** The states of a project built from records are stored under their own ids. *)
Definition keyed (p : Project) : Prop := ∀ id s, state p id = Some s → st_id s = id.

Lemma from_records_keyed `{Uuid, Encodings, Crypto, JsonText, Unicode} id l machine p :
  from_records id l machine = Ok p → keyed p.
Proof.
  intros Hp i s Hs. destruct (from_records_inv _ _ _ _ Hp) as [[Hst _ _ _ _ _ _ _] _].
  unfold state in Hs. apply fmap_Some in Hs as (v & Hv & ->).
  assert ((core <$> p_states p) !! i = Some (core v)) as E by by rewrite lookup_fmap, Hv.
  rewrite Hst in E. apply elem_of_list_to_map_2 in E.
  unfold log_cores in E. apply list_elem_of_join in E as (cs & E & Hcs).
  apply list_elem_of_fmap in Hcs as (r & -> & _). unfold record_cores in E.
  apply list_elem_of_fmap in E as (s & [= -> _ Es] & _). done.
Qed.

(** ** Merge bases *)

Definition common (p : Project) (a b c : string) : Prop := rtc (edge p) a c ∧ rtc (edge p) b c.
(** No state is its own proper ancestor. *)
Definition acyclic (p : Project) : Prop := ∀ x y, rtc (edge p) x y → rtc (edge p) y x → x = y.

Lemma elem_of_common p a b c :
  c ∈ filterb (λ id, bool_decide (id ∈ (list_to_set (ancestors p b) : gset string))) (ancestors p a) ↔
  common p a b c.
Proof.
  destruct (ancestors_spec p a) as (_ & Ha & _), (ancestors_spec p b) as (_ & Hb & _).
  rewrite elem_of_filterb, bool_decide_eq_true, elem_of_list_to_set, Ha, Hb. done.
Qed.
Lemma covered_false p l c :
  existsb (λ d, negb (d == c) && memb c (ancestors p d)) l = false ↔
  ∀ d, d ∈ l → rtc (edge p) d c → d = c.
Proof.
  rewrite existsb_elem_false. split; intros Hl d Hd.
  - intros Hdc. specialize (Hl d Hd). apply andb_false_iff in Hl as [Hl|Hl].
    + by apply negb_false_iff, eqb_eq in Hl.
    + apply memb_false in Hl. destruct Hl. by apply ancestors_spec.
  - apply andb_false_iff. destruct (decide (c ∈ ancestors p d)) as [Hin|Hin].
    + left. apply negb_false_iff, eqb_true. apply Hl; [done|]. by apply ancestors_spec.
    + right. by apply memb_false.
Qed.

(** A non-empty finite set has an element that no other one reaches. *)
Lemma top_exists {A} (R : A → A → Prop) `{!RelDecision R} `{EqDecision A} (l : list A) :
  (∀ x, R x x) → (∀ x y z, R x y → R y z → R x z) → (∀ x y, R x y → R y x → x = y) →
  l ≠ [] → ∃ c, c ∈ l ∧ ∀ d, d ∈ l → R d c → d = c.
Proof.
  intros Hr Ht Ha. induction l as [|x l IH]; [done|]. intros _.
  destruct (decide (l = [])) as [->|Hl].
  - exists x. split; [left|]. intros d ->%list_elem_of_singleton. done.
  - destruct (IH Hl) as (c & Hc & Hm). destruct (decide (R x c)) as [Hxc|Hxc].
    + exists x. split; [left|]. intros d [->|Hd]%elem_of_cons Hdx; [done|].
      assert (d = c) as -> by eauto. eauto.
    + exists c. split; [by right|]. intros d [->|Hd]%elem_of_cons Hdc; [done|auto].
Qed.

#[local] Instance reaches_dec p : RelDecision (rtc (edge p)).
Proof.
  intros x y. refine (cast_if (decide (y ∈ ancestors p x))); by rewrite <-(proj1 (proj2 (ancestors_spec p x))).
Defined.

Lemma merge_base_spec p a b :
  (∀ c, merge_base p a b = Some c →
     common p a b c ∧ ∀ d, common p a b d → rtc (edge p) d c → d = c) ∧
  (acyclic p → merge_base p a b = None → ∀ c, ¬ common p a b c).
Proof.
  unfold merge_base. cbv zeta. set (l := filterb _ (ancestors p a)).
  assert (∀ c, c ∈ l ↔ common p a b c) as Hl by apply elem_of_common. split.
  - intros c [Hc Hn]%find_some. split; [by apply Hl|]. apply negb_true_iff in Hn.
    intros d Hd. apply (proj1 (covered_false p l c) Hn). by apply Hl.
  - intros Hac Hn c Hc%Hl.
    destruct (top_exists (rtc (edge p)) l) as (t & Ht & Hm); [done|by intros; etrans|done| |].
    { intros ->. set_solver. }
    apply (find_none _ _ t) in Hn; [|done]. apply negb_false_iff in Hn.
    by rewrite (proj2 (covered_false p l t) Hm) in Hn.
Qed.

(** ** The log *)

Lemma max_of_spec x l : max_of x l ∈ x :: l ∧ ∀ y, y ∈ x :: l → cle y (max_of x l) = true.
Proof.
  revert x. induction l as [|z l IH]; intros x; simpl.
  - split; [left|]. intros y ->%list_elem_of_singleton. apply cle_refl.
  - destruct (cle x z) eqn:E.
    + destruct (IH z) as [Hin Hle]. split; [by right|].
      intros y [->|Hy]%elem_of_cons; [|auto]. eapply cle_trans; [exact E|]. apply Hle. left.
    + destruct (IH x) as [Hin Hle]. split.
      { apply elem_of_cons in Hin as [Hin|Hin]; [rewrite Hin; left|right; by right]. }
      intros y [->|[->|Hy]%elem_of_cons]%elem_of_cons.
      * apply Hle. left.
      * eapply cle_trans; [by apply cle_false|]. apply Hle. left.
      * apply Hle. by right.
Qed.
Lemma remove_one_perm x l : x ∈ l → l ≡ₚ x :: remove_one x l.
Proof.
  induction l as [|y l IH]; [set_solver|]. simpl. destruct (x == y) eqn:E.
  - by apply eqb_eq in E as ->.
  - apply eqb_ne in E. intros [->|Hx]%elem_of_cons; [done|]. rewrite (IH Hx) at 1. constructor.
Qed.
Lemma pop_some heap m heap' :
  pop heap = Some (m, heap') → heap ≡ₚ m :: heap' ∧ ∀ h, h ∈ heap → cle h m = true.
Proof.
  destruct heap as [|x l]; [done|]. unfold pop. intros [= <- <-].
  destruct (max_of_spec x l) as [Hin Hle]. split; [|done]. by apply remove_one_perm.
Qed.
Lemma pop_none heap : pop heap = None → heap = [].
Proof. by destruct heap. Qed.

(** The stamps of the known parents: what a visited state adds to the heap. *)
Definition parent_stamps (p : Project) (s : StateRec) : list (Z * string) :=
  filter_map (λ q, stamp <$> state p q) (st_parents s).

Lemma length_filter_map {A B} (f : A → option B) l : length (filter_map f l) ≤ length l.
Proof. unfold filter_map. induction l as [|x l IH]; csimpl; [done|]. destruct (f x); csimpl; lia. Qed.

Lemma log_go_ends fuel p limit seen heap out :
  length heap + pending p seen ≤ fuel → is_Some (log_go fuel p limit seen heap out).
Proof.
  revert seen heap out. induction fuel as [|fuel IH]; intros seen heap out Hf; simpl.
  - destruct heap; simpl in *; [by eexists|lia].
  - destruct (pop heap) as [[[t id] heap']|] eqn:E; [|by eexists].
    apply pop_some in E as [E _]. apply Permutation_length in E. simpl in E.
    case_bool_decide as Hid; [apply IH; lia|].
    pose proof (pending_step p seen id Hid) as Hp. unfold parents_of in Hp.
    destruct (state p id) as [s|]; [|apply IH; simpl in Hp; lia].
    destruct (limit <=? length out); [by eexists|]. apply IH. rewrite length_app.
    pose proof (length_filter_map (λ q, stamp <$> state p q) (st_parents s)). lia.
Qed.
Lemma log_eq p starts auto_line limit :
  log_go (length (log_starts p starts auto_line) + pending p ∅) p limit ∅
    (log_starts p starts auto_line) [] = Some (log p starts auto_line limit).
Proof.
  unfold log. cbv zeta.
  destruct (log_go_ends (length (log_starts p starts auto_line) + pending p ∅) p limit ∅
    (log_starts p starts auto_line) []) as [res E]; [done|]. by rewrite E.
Qed.

(** A known state, and the parent relation between known states. *)
Definition known (p : Project) (s : StateRec) : Prop := state p (st_id s) = Some s.
Definition parent_of (p : Project) (s q : StateRec) : Prop := st_id q ∈ st_parents s ∧ known p q.

Lemma elem_of_parent_stamps p s h :
  keyed p → h ∈ parent_stamps p s ↔ ∃ q, parent_of p s q ∧ h = stamp q.
Proof.
  intros Hk. unfold parent_stamps, filter_map. rewrite list_elem_of_omap. split.
  - intros (i & Hi & Hs). apply fmap_Some in Hs as (q & Hq & ->). exists q.
    pose proof (Hk i q Hq) as <-. done.
  - intros (q & [Hq Hkn] & ->). exists (st_id q). split; [done|]. by rewrite Hkn.
Qed.
Lemma stamp_known p q q' : known p q → known p q' → stamp q = stamp q' → q = q'.
Proof. unfold known. intros Hq Hq' [= _ E]. rewrite E in Hq. congruence. Qed.

(** Best-first walks over known states: [root] are the states the walk starts from and [step]
    the parents that it follows. *)
Section walk.
Context (p : Project) (root : StateRec → Prop) (step : StateRec → StateRec → Prop).
Context (Hroot : ∀ s, root s → known p s) (Hstep : ∀ s q, step s q → known p q).

Definition reached (s : StateRec) : Prop := ∃ r, root r ∧ rtc step r s.

(** [out] are the visited states and [heap] the stamps of those still to visit. *)
Record walk_inv (seen : gset string) (heap : list (Z * string)) (out : list StateRec) : Prop := {
  wi_heap : ∀ h, h ∈ heap → ∃ s, known p s ∧ reached s ∧ h = stamp s;
  wi_out : ∀ s, s ∈ out → known p s ∧ reached s;
  wi_seen : ∀ i, i ∈ seen ↔ i ∈ st_id <$> out;
  wi_once : NoDup (st_id <$> out);
  wi_roots : ∀ s, root s → s ∈ out ∨ stamp s ∈ heap;
  wi_steps : ∀ s q, s ∈ out → step s q → q ∈ out ∨ stamp q ∈ heap }.

Lemma walk_inv_known seen heap out s :
  walk_inv seen heap out → known p s → st_id s ∈ seen ↔ s ∈ out.
Proof.
  intros [_ Ho Hs _ _ _] Hk. rewrite Hs, list_elem_of_fmap. split; [|eauto].
  intros (s' & E & Hs'). destruct (Ho s' Hs') as [Hk' _]. unfold known in *.
  rewrite <-E in Hk'. by simplify_eq.
Qed.

Lemma walk_inv_pop seen heap out m heap' :
  walk_inv seen heap out → heap ≡ₚ m :: heap' →
  ∃ s, known p s ∧ reached s ∧ m = stamp s ∧ m.2 = st_id s ∧
    (m.2 ∈ seen → walk_inv seen heap' out) ∧
    (∀ new, m.2 ∉ seen → (∀ h, h ∈ new → ∃ q, step s q ∧ h = stamp q) →
       (∀ q, step s q → st_id q ∈ {[m.2]} ∪ seen ∨ stamp q ∈ new) →
       walk_inv ({[m.2]} ∪ seen) (heap' ++ new) (out ++ [s])).
Proof.
  intros Hinv Hperm. pose proof Hinv as [Hh Ho Hs Hn Hr Hp].
  assert (∀ h, h ∈ heap ↔ h = m ∨ h ∈ heap') as Hin by (intros h; by rewrite Hperm, elem_of_cons).
  destruct (Hh m) as (s & Hks & Hrs & ->); [apply Hin; auto|].
  exists s. do 4 (split; [done|]). cbn [stamp snd]. split.
  - intros Hid. apply (walk_inv_known _ _ _ _ Hinv Hks) in Hid.
    assert (∀ q, known p q → stamp q ∈ heap → q ∈ out ∨ stamp q ∈ heap') as Hq.
    { intros q Hkq [E|?]%Hin; [|auto]. left. by rewrite (stamp_known p q s). }
    split; [|done|done|done| |].
    + intros h Hh'. apply Hh, Hin. auto.
    + intros r Hrr. destruct (Hr r Hrr); auto.
    + intros x q Hx Hxq. destruct (Hp x q Hx Hxq); eauto.
  - intros new Hid Hnew Hsteps.
    assert (∀ q, known p q → q ∈ out ∨ stamp q ∈ heap → q ∈ out ++ [s] ∨ stamp q ∈ heap' ++ new) as Hkeep.
    { intros q Hkq Hq. rewrite !elem_of_app, list_elem_of_singleton.
      destruct Hq as [?|[E|?]%Hin]; [auto| |auto]. left. right. by apply (stamp_known p). }
    split.
    + intros h [Hh'|(q & Hsq & ->)%Hnew]%elem_of_app; [apply Hh, Hin; auto|]. exists q.
      split; [eauto|]. split; [|done]. destruct Hrs as (r & Hrr & Hrs). exists r. split; [done|]. by eapply rtc_r.
    + intros x [Hx|Hx]%elem_of_app; [auto|]. by apply list_elem_of_singleton in Hx as ->.
    + intros i. rewrite elem_of_union, elem_of_singleton, Hs, fmap_app, elem_of_app. simpl.
      rewrite list_elem_of_singleton. tauto.
    + rewrite fmap_app. apply NoDup_app. split; [done|]. split; [|apply NoDup_singleton].
      intros i Hi ->%list_elem_of_singleton. apply Hid. by apply Hs.
    + intros r Hrr. apply Hkeep; auto.
    + intros x q [Hx|Hx]%elem_of_app Hxq; [apply Hkeep; eauto|].
      apply list_elem_of_singleton in Hx as ->. destruct (Hsteps q Hxq) as [Hq|Hq]; [left|right; apply elem_of_app; auto].
      apply elem_of_app. apply elem_of_union in Hq as [E%elem_of_singleton|Hq].
      * right. apply list_elem_of_singleton. pose proof (Hstep _ _ Hxq) as Hkq. unfold known in *.
        rewrite E in Hkq. congruence.
      * left. by apply (walk_inv_known _ _ _ _ Hinv); eauto.
Qed.

(** A walk whose heap is empty has visited every reachable state. *)
Lemma walk_inv_done seen out s : walk_inv seen [] out → reached s → s ∈ out.
Proof.
  clear Hroot Hstep. intros [Hh Ho Hs Hn Hr Hp] (r & Hrr & Hrs).
  apply (rtc_closed step (λ z, z ∈ out) r); [done|by destruct (Hr r Hrr); set_solver|].
  intros a b Ha Hab. destruct (Hp a b Ha Hab); set_solver.
Qed.
End walk.

Section log_walk.
Context (p : Project) (Hkeyed : keyed p) (root : StateRec → Prop) (Hroot : ∀ s, root s → known p s).

Lemma log_inv_pop seen heap out m heap' :
  walk_inv p root (parent_of p) seen heap out → heap ≡ₚ m :: heap' →
  ∃ s, known p s ∧ m = stamp s ∧ m.2 = st_id s ∧
    (m.2 ∈ seen → walk_inv p root (parent_of p) seen heap' out) ∧
    (m.2 ∉ seen →
       walk_inv p root (parent_of p) ({[m.2]} ∪ seen) (heap' ++ parent_stamps p s) (out ++ [s])).
Proof.
  intros Hinv Hperm.
  destruct (walk_inv_pop p root (parent_of p) Hroot (λ s q H, proj2 H) _ _ _ _ _ Hinv Hperm)
    as (s & Hk & _ & Es & Eid & Hskip & Hvisit).
  exists s. do 4 (split; [done|]). intros Hid. apply Hvisit; [done|..].
  - intros h. by apply elem_of_parent_stamps.
  - intros q Hq. right. apply elem_of_parent_stamps; eauto.
Qed.

Lemma log_go_spec fuel limit seen heap out res :
  walk_inv p root (parent_of p) seen heap out → length out ≤ limit → log_go fuel p limit seen heap out = Some res →
  NoDup (st_id <$> res) ∧ (∀ s, s ∈ res → known p s ∧ reached root (parent_of p) s) ∧ length res ≤ limit ∧
  (length res < limit → ∀ s, reached root (parent_of p) s → s ∈ res).
Proof.
  revert seen heap out. induction fuel as [|fuel IH]; intros seen heap out Hinv Hlen Hgo; simpl in Hgo;
    destruct (pop heap) as [[[t id] heap']|] eqn:E; try done.
  1, 3: injection Hgo as <-; apply pop_none in E as ->; split; [apply Hinv|]; split; [apply Hinv|];
    split; [done|]; intros _ s; by apply (walk_inv_done p root (parent_of p) seen).
  apply pop_some in E as [E _].
  destruct (log_inv_pop _ _ _ _ _ Hinv E) as (s & Hk & Es & Eid & Hskip & Hvisit).
  simpl in Eid, Hskip, Hvisit. subst id. rewrite Hk in Hgo. case_bool_decide as Hid.
  - eapply IH; [|done|done]. auto.
  - destruct (limit <=? length out) eqn:El.
    + injection Hgo as <-. apply Nat.leb_le in El. split; [apply Hinv|]. split; [apply Hinv|].
      split; [done|]. lia.
    + apply Nat.leb_gt in El. eapply IH; [by apply Hvisit| |done]. rewrite length_app. simpl. lia.
Qed.

(** When every state is newer than its parents, the log is in date order. *)
Lemma log_go_sorted fuel limit seen heap out res :
  (∀ s q, known p s → parent_of p s q → clt (stamp q) (stamp s) = true) →
  walk_inv p root (parent_of p) seen heap out →
  StronglySorted (λ a b, cle (stamp b) (stamp a) = true) out →
  (∀ s h, s ∈ out → h ∈ heap → cle h (stamp s) = true) →
  log_go fuel p limit seen heap out = Some res →
  StronglySorted (λ a b, cle (stamp b) (stamp a) = true) res.
Proof.
  intros Hmono. revert seen heap out.
  induction fuel as [|fuel IH]; intros seen heap out Hinv Hsort Hle Hgo; simpl in Hgo;
    destruct (pop heap) as [[[t id] heap']|] eqn:E; try done; [by injection Hgo as <-| |by injection Hgo as <-].
  apply pop_some in E as [E Hmax].
  destruct (log_inv_pop _ _ _ _ _ Hinv E) as (s & Hk & Es & Eid & Hskip & Hvisit).
  simpl in Eid, Hskip, Hvisit. subst id. rewrite Hk in Hgo.
  assert (∀ h, h ∈ heap' → h ∈ heap) as Hin by (intros h; rewrite E, elem_of_cons; auto).
  assert ((t, st_id s) ∈ heap) as Hm by (rewrite E; left).
  case_bool_decide as Hid; [eapply IH; [..|done]; eauto|].
  destruct (limit <=? length out); [by injection Hgo as <-|].
  eapply IH; [by apply Hvisit| | |done].
  - apply StronglySorted_snoc_cle; [done|]. intros x Hx. rewrite <-Es. auto.
  - intros x h [Hx| ->%list_elem_of_singleton]%elem_of_app [Hh|Hh]%elem_of_app; rewrite <-?Es; auto.
    + apply elem_of_parent_stamps in Hh as (q & Hq & ->); [|done].
      eapply cle_trans; [|apply (Hle x _ Hx Hm)]. rewrite Es. apply clt_imp_cle. by apply Hmono.
    + apply elem_of_parent_stamps in Hh as (q & Hq & ->); [|done].
      rewrite Es. apply clt_imp_cle. by apply Hmono.
Qed.
End log_walk.

(** A longer log extends a shorter one. *)
Lemma log_go_prefix fuel p limit seen heap out res :
  log_go fuel p limit seen heap out = Some res → prefix out res.
Proof.
  revert seen heap out. induction fuel as [|fuel IH]; intros seen heap out; simpl;
    destruct (pop heap) as [[[t id] heap']|]; try done; try by intros [= ->].
  case_bool_decide; [apply IH|]. destruct (state p id) as [s|]; [|apply IH].
  destruct (limit <=? length out); [by intros [= ->]|].
  intros Hgo%IH. etrans; [|exact Hgo]. by apply prefix_app_r.
Qed.
Lemma log_go_take fuel p n m seen heap out res res' :
  n ≤ m → length out ≤ n → log_go fuel p n seen heap out = Some res →
  log_go fuel p m seen heap out = Some res' → res = take n res'.
Proof.
  intros Hnm. revert seen heap out. induction fuel as [|fuel IH]; intros seen heap out Hlen; simpl;
    destruct (pop heap) as [[[t id] heap']|]; try done;
    try by intros [= ->] [= ->]; rewrite take_ge.
  case_bool_decide; [by apply IH|]. destruct (state p id) as [s|]; [|by apply IH].
  destruct (n <=? length out) eqn:En.
  - apply Nat.leb_le in En. intros [= ->] Hgo. assert (prefix res res') as [k ->].
    { destruct (m <=? length res); [by injection Hgo as ->|]. apply log_go_prefix in Hgo.
      etrans; [|exact Hgo]. by apply prefix_app_r. }
    assert (n = length res) as -> by lia. by rewrite take_app_length.
  - apply Nat.leb_gt in En. assert ((m <=? length out) = false) as -> by (apply Nat.leb_gt; lia).
    apply IH. rewrite length_app. simpl. lia.
Qed.
Lemma log_take p starts auto_line n m :
  n ≤ m → log p starts auto_line n = take n (log p starts auto_line m).
Proof. intros Hnm. eapply log_go_take; [exact Hnm| |apply log_eq|apply log_eq]. simpl. lia. Qed.

(** The states that a log starts from. *)
Definition log_root (p : Project) (starts : list string) (auto_line : option string) (s : StateRec) : Prop :=
  known p s ∧
  ((st_id s ∈ starts ∧ auxiliary (st_kind s) = false) ∨
   (∃ line, auto_line = Some line ∧ s ∈ line_states p line Auto)).

Lemma line_states_known p line kind s : keyed p → s ∈ line_states p line kind → known p s.
Proof.
  intros Hk Hs. unfold line_states in Hs. rewrite elem_of_sort_by in Hs.
  apply list_elem_of_fmap in Hs as (v & -> & Hv). apply elem_of_filterb in Hv as [Hv _].
  apply elem_of_values in Hv as [i Hv]. unfold known.
  assert (state p i = Some (sv_state v)) as E by (unfold state; by rewrite Hv).
  by rewrite (Hk i _ E).
Qed.
Lemma log_starts_spec p starts auto_line h :
  keyed p → h ∈ log_starts p starts auto_line ↔ ∃ s, log_root p starts auto_line s ∧ h = stamp s.
Proof.
  intros Hk. unfold log_starts, log_root. rewrite elem_of_app. unfold filter_map. rewrite list_elem_of_omap. split.
  - intros [(i & Hi & Hs)|Hh].
    + destruct (state p i) as [s|] eqn:E; [|done]. simpl in Hs.
      destruct (auxiliary (st_kind s)) eqn:Ea; [done|]. injection Hs as <-. exists s.
      pose proof (Hk i s E) as <-. auto.
    + destruct auto_line as [line|]; [|set_solver].
      apply list_elem_of_fmap in Hh as (s & -> & Hs). exists s. split; [|done].
      split; [by eapply line_states_known|]. eauto.
  - intros (s & [Hs [[Hi Ha]|(line & -> & Hl)]] & ->).
    + left. exists (st_id s). split; [done|]. rewrite Hs. simpl. by rewrite Ha.
    + right. apply list_elem_of_fmap. eauto.
Qed.
Lemma log_inv_init p starts auto_line :
  keyed p → walk_inv p (log_root p starts auto_line) (parent_of p) ∅ (log_starts p starts auto_line) [].
Proof.
  intros Hk. split.
  - intros h Hh. apply log_starts_spec in Hh as (s & Hs & ->); [|done].
    exists s. split; [apply Hs|]. split; [|done]. by exists s.
  - set_solver.
  - set_solver.
  - constructor.
  - intros s Hs. right. apply log_starts_spec; eauto.
  - set_solver.
Qed.

(** ** Open changes *)

#[local] Arguments clt : simpl never.
Lemma latest_change_spec l m c :
  (∀ s, m !! c = Some s → st_change_id s = Some c) →
  (∀ s, foldl latest_change m l !! c = Some s →
     (s ∈ l ∨ m !! c = Some s) ∧ st_change_id s = Some c ∧
     (∀ t, t ∈ l → st_change_id t = Some c → cle (stamp t) (stamp s) = true) ∧
     (∀ t, m !! c = Some t → cle (stamp t) (stamp s) = true)) ∧
  (foldl latest_change m l !! c = None → m !! c = None ∧ ∀ t, t ∈ l → st_change_id t ≠ Some c).
Proof.
  revert m. induction l as [|x l IH]; intros m Hm.
  { split; [|set_solver]. simpl. intros s Hs. split; [auto|]. split; [auto|]. split; [set_solver|].
    intros t Ht. simplify_eq. apply cle_refl. }
  cbn [foldl]. destruct (decide (st_change_id x = Some c)) as [Hx|Hx].
  - set (y := if clt (stamp (default x (m !! c))) (stamp x) then x else default x (m !! c)).
    assert (latest_change m x !! c = Some y) as Ey.
    { unfold latest_change. rewrite Hx. apply lookup_insert_eq. }
    assert (st_change_id y = Some c) as Hy.
    { subst y. destruct (m !! c) as [t|]; simpl; [|by destruct (clt _ _)]. destruct (clt _ _); auto. }
    assert (cle (stamp x) (stamp y) = true ∧ ∀ t, m !! c = Some t → cle (stamp t) (stamp y) = true) as [Hxy Hty].
    { subst y. destruct (m !! c) as [t|]; simpl.
      - destruct (clt (stamp t) (stamp x)) eqn:Ec.
        + split; [apply cle_refl|]. intros ? [= <-]. by apply clt_imp_cle.
        + split; [|intros ? [= <-]; apply cle_refl].
          rewrite clt_cle in Ec. by apply negb_false_iff in Ec.
      - split; [|done]. destruct (clt _ _); apply cle_refl. }
    assert (y = x ∨ m !! c = Some y) as Hor.
    { subst y. destruct (m !! c) as [t|]; simpl; [|by destruct (clt _ _); auto]. destruct (clt _ _); auto. }
    destruct (IH (latest_change m x)) as [Hs Hn]. { intros s. rewrite Ey. by intros [= <-]. }
    split; [|intros [E _]%Hn; congruence].
    intros s Es. destruct (Hs s Es) as (Hin & Hch & Hl & Hb). rewrite Ey in Hin, Hb.
    specialize (Hb y eq_refl). split; [|split; [done|split]].
    + destruct Hin as [?|[= <-]]; [left; by right|]. destruct Hor as [-> | ?]; [left; left|by right].
    + intros t [->|Ht]%elem_of_cons Htc; [by eapply cle_trans|auto].
    + intros t Ht. eapply cle_trans; [by apply Hty|done].
  - assert (latest_change m x !! c = m !! c) as Ey.
    { unfold latest_change. destruct (st_change_id x) as [c'|]; [|done].
      rewrite lookup_insert_ne; [done|congruence]. }
    destruct (IH (latest_change m x)) as [Hs Hn]. { intros s. rewrite Ey. apply Hm. }
    rewrite Ey in *. split.
    + intros s Es. destruct (Hs s Es) as (Hin & Hch & Hl & Hb). split; [|split; [done|split; [|done]]].
      * destruct Hin; [left; by right|auto].
      * intros t [->|Ht]%elem_of_cons Htc; [done|auto].
    + intros [? Hn']%Hn. split; [done|]. intros t [->|Ht]%elem_of_cons; auto.
Qed.
Lemma latest_states p c s :
  keyed p →
  foldl latest_change ∅ (sv_state <$> values (p_states p)) !! c = Some s ↔
  known p s ∧ st_change_id s = Some c ∧
  ∀ t, known p t → st_change_id t = Some c → cle (stamp t) (stamp s) = true.
Proof.
  intros Hk. assert (∀ t, t ∈ sv_state <$> values (p_states p) ↔ known p t) as Hin.
  { intros t. rewrite list_elem_of_fmap. unfold known, state. split.
    - intros (v & -> & [i Hv]%elem_of_values).
      assert (state p i = Some (sv_state v)) as E by (unfold state; by rewrite Hv).
      by rewrite (Hk i _ E).
    - intros (v & Hv & ->)%fmap_Some. exists v. split; [done|]. apply elem_of_values. eauto. }
  destruct (latest_change_spec (sv_state <$> values (p_states p)) ∅ c) as [Hs Hn].
  { intros t. by rewrite lookup_empty. }
  split.
  - intros E. destruct (Hs s E) as ([Hl|Hl] & Hc & Hm & _); [|by rewrite lookup_empty in Hl].
    split; [by apply Hin|]. split; [done|]. intros t Ht%Hin. auto.
  - intros (Hks & Hc & Hm).
    destruct (foldl latest_change ∅ _ !! c) as [t|] eqn:E.
    + destruct (Hs t eq_refl) as ([Hl|Hl] & Htc & Htm & _); [|by rewrite lookup_empty in Hl].
      apply Hin in Hl. f_equal. apply (stamp_known p); [done|done|].
      apply cle_antisym; [by apply Hm|]. apply Htm; [by apply Hin|done].
    + destruct (Hn eq_refl) as [_ Hn']. apply Hin in Hks. by destruct (Hn' s Hks).
Qed.
Lemma open_changes_spec p s :
  keyed p →
  s ∈ open_changes p ↔
  known p s ∧ (∃ c, st_change_id s = Some c ∧
    ∀ t, known p t → st_change_id t = Some c → cle (stamp t) (stamp s) = true) ∧
  ∀ l, l ∈ line_list p → ln_name l = "main" → ¬ rtc (edge p) (ln_head l) (st_id s).
Proof.
  intros Hk. unfold open_changes. cbv zeta.
  rewrite elem_of_filterb, elem_of_values, negb_true_iff, bool_decide_eq_false.
  setoid_rewrite (latest_states p _ s Hk). rewrite elem_of_list_to_set, list_elem_of_join.
  assert ((¬ ∃ l, st_id s ∈ l ∧
             l ∈ (λ l, ancestors p (ln_head l)) <$> filterb (λ l, ln_name l == "main") (line_list p)) ↔
    ∀ l, l ∈ line_list p → ln_name l = "main" → ¬ rtc (edge p) (ln_head l) (st_id s)) as ->; [|naive_solver].
  split.
  - intros Hn l Hl Hm Hr. apply Hn. exists (ancestors p (ln_head l)).
    split; [by apply ancestors_spec|]. apply list_elem_of_fmap. exists l. split; [done|].
    apply elem_of_filterb. by rewrite Hm.
  - intros Hn (k & Hin & Hkl). apply list_elem_of_fmap in Hkl as (l & -> & Hl).
    apply elem_of_filterb in Hl as [Hl Hm%eqb_eq]. eapply Hn; [done..|]. by apply ancestors_spec.
Qed.

(** * The claims *)

(** C39. [merge_base] is a best common ancestor: it is an ancestor of both states, and no other
    common ancestor descends from it. History without cycles has one whenever the two states
    have a common ancestor at all. *)
Theorem merge_base_best p a b :
  acyclic p →
  (∀ c, merge_base p a b = Some c →
     common p a b c ∧ ∀ d, common p a b d → rtc (edge p) d c → d = c) ∧
  (is_Some (merge_base p a b) ↔ ∃ c, common p a b c).
Proof.
  intros Hac. destruct (merge_base_spec p a b) as [Hs Hn]. split; [done|]. split.
  - intros [c Hc]. exists c. by apply Hs.
  - intros [c Hc]. destruct (merge_base p a b) eqn:E; [done|]. by destruct (Hn Hac eq_refl c).
Qed.

(** C40. [log] ends and gives every state that the starting states lead to through known
    parents, each once, up to the limit; a shorter log is a prefix of a longer one; and the log is in date order, newest
    first, when every state is newer than its parents. *)
Theorem log_exact `{HU : Uuid, HE : Encodings, HC : Crypto, HJ : JsonText, HL : Unicode}
    id l machine p starts auto_line n m :
  from_records id l machine = Ok p → n ≤ m →
  let out := log p starts auto_line m in
  NoDup (st_id <$> out) ∧ length out ≤ m ∧
  (∀ s, s ∈ out → reached (log_root p starts auto_line) (parent_of p) s) ∧
  (length out < m → ∀ s, reached (log_root p starts auto_line) (parent_of p) s → s ∈ out) ∧
  log p starts auto_line n = take n out ∧
  ((∀ s q, known p s → parent_of p s q → clt (stamp q) (stamp s) = true) →
   StronglySorted (λ a b, cle (stamp b) (stamp a) = true) out).
Proof.
  intros Hk%from_records_keyed Hnm out.
  destruct (log_go_spec p Hk _ (λ s H, proj1 H) _ _ _ _ _ _
    (log_inv_init p starts auto_line Hk) (Nat.le_0_l m) (log_eq p starts auto_line m)) as (? & Hr & ? & ?).
  do 2 (split; [done|]). split; [by intros s []%Hr|]. split; [done|]. split; [by apply log_take|].
  intros Hmono. apply (log_go_sorted p Hk _ (λ s H, proj1 H) _ _ _ _ _ _ Hmono
    (log_inv_init p starts auto_line Hk)) with (3 := log_eq p starts auto_line m); [constructor|set_solver].
Qed.

(** [open_changes] gives, for every change id, its newest state, unless that state is already
    part of the history of a main line. *)
Theorem open_changes_exact `{HU : Uuid, HE : Encodings, HC : Crypto, HJ : JsonText, HL : Unicode}
    id l machine p s :
  from_records id l machine = Ok p →
  s ∈ open_changes p ↔
  known p s ∧ (∃ c, st_change_id s = Some c ∧
    ∀ t, known p t → st_change_id t = Some c → cle (stamp t) (stamp s) = true) ∧
  ∀ l, l ∈ line_list p → ln_name l = "main" → ¬ rtc (edge p) (ln_head l) (st_id s).
Proof. intros Hp. apply open_changes_spec. by eapply from_records_keyed. Qed.

(** ** Samples *)

Definition change_state (id change : string) (parents : list string) (time : Z) : StateRec :=
  mkStateRec id Commit (Some change) None None parents None "" (mkAuthor "" "" 0 None) "" time false [] ∅ None
    false None.
Definition hist_records : list LogRecord :=
  [log_r1; log_r2; plain_record "r3" "m" 2 3 "commit" [change_state "s3" "c" ["s1"] 3] ∅ JNull].
Definition hist_project : Project :=
  default (empty_project "" "")
    (ok (@from_records uuid_plain encodings_hex crypto_plain no_text ascii_lowercase "p" hist_records "m")).
Lemma hist_project_ok :
  @from_records uuid_plain encodings_hex crypto_plain no_text ascii_lowercase "p" hist_records "m" = Ok hist_project.
Proof. vm_compute. reflexivity. Qed.

Lemma hist_states id s :
  state hist_project id = Some s →
  s = plain_state "s1" Commit [] 1 ∨ s = plain_state "s2" Commit ["s1"] 2 ∨ s = change_state "s3" "c" ["s1"] 3.
Proof.
  intros Hs. unfold state in Hs. apply fmap_Some in Hs as (v & Hv & ->).
  assert (v ∈ values (p_states hist_project)) as Hin by (apply elem_of_values; eauto).
  assert (sv_state v ∈ sv_state <$> values (p_states hist_project)) as Hin' by (by apply list_elem_of_fmap_2).
  assert (sv_state <$> values (p_states hist_project) =
    [plain_state "s1" Commit [] 1; plain_state "s2" Commit ["s1"] 2; change_state "s3" "c" ["s1"] 3]) as E
    by (vm_compute; reflexivity).
  rewrite E, !elem_of_cons in Hin'. destruct Hin' as [-> | [-> | [-> | []%not_elem_of_nil]]]; auto.
Qed.
Lemma hist_edge x y : edge hist_project x y → y = "s1" ∧ x ≠ "s1".
Proof.
  intros (s & E & Hy)%edge_inv.
  pose proof (from_records_keyed _ _ _ _ hist_project_ok x s E) as Hx.
  apply hist_states in E as [-> | [-> | ->]]; cbn [st_parents st_id plain_state change_state] in Hx, Hy;
    subst x; [by apply not_elem_of_nil in Hy|by apply list_elem_of_singleton in Hy..].
Qed.
Lemma hist_acyclic : acyclic hist_project.
Proof.
  assert (∀ x y, rtc (edge hist_project) x y → x = y ∨ y = "s1") as Hr.
  { intros x y. induction 1 as [|a b c Hab _ IH]; [auto|]. destruct (hist_edge _ _ Hab) as [-> _].
    destruct IH as [<- | ]; auto. }
  intros x y Hxy Hyx. destruct (Hr _ _ Hxy) as [|E], (Hr _ _ Hyx) as [|E']; congruence.
Qed.

Lemma hist_dates s q :
  known hist_project s → parent_of hist_project s q → clt (stamp q) (stamp s) = true.
Proof.
  intros Hs [Hq Hkq]. unfold known in Hs, Hkq. apply hist_states in Hs, Hkq.
  destruct Hs as [-> | [-> | ->]]; cbn [st_parents plain_state change_state] in Hq;
    [by apply not_elem_of_nil in Hq|..]; apply list_elem_of_singleton in Hq;
    destruct Hkq as [-> | [-> | ->]]; done.
Qed.

Lemma merge_base_best_witness :
  merge_base hist_project "s2" "s3" = Some "s1" ∧ common hist_project "s2" "s3" "s1" ∧
  ∀ d, common hist_project "s2" "s3" d → rtc (edge hist_project) d "s1" → d = "s1".
Proof.
  assert (merge_base hist_project "s2" "s3" = Some "s1") as E by (vm_compute; reflexivity).
  split; [exact E|]. by apply (proj1 (merge_base_best hist_project "s2" "s3" hist_acyclic)).
Defined.
Lemma log_exact_witness :
  st_id <$> log hist_project ["s3"] None 1 = ["s3"] ∧
  log hist_project ["s3"] None 1 = take 1 (log hist_project ["s3"] None 3) ∧
  StronglySorted (λ a b, cle (stamp b) (stamp a) = true) (log hist_project ["s3"] None 3) ∧
  ∀ s, reached (log_root hist_project ["s3"] None) (parent_of hist_project) s → s ∈ log hist_project ["s3"] None 3.
Proof.
  split; [by vm_compute|].
  destruct (@log_exact uuid_plain encodings_hex crypto_plain no_text ascii_lowercase "p" hist_records "m" hist_project
    ["s3"] None 1 3) as (_ & _ & _ & Hall & Ht & Hs); [exact hist_project_ok|lia|].
  split; [exact Ht|]. split; [apply Hs; exact hist_dates|]. apply Hall. vm_compute. lia.
Defined.
