(* ===== verification/FileHistory.v ===== *)
(** File history and line attribution ([layr-model/src/history.rs]).

    [file_history] walks states from the newest on and offers those that changed a matching path
    to its caller; [blame] follows every line of the newest version through the equal blocks of
    the line diffs of neighbouring versions. The closures that the callers pass in are arguments;
    the line diff ([similar::TextDiff::from_lines]) is third-party code and an argument too. *)

From S2P Require Import Prelude Strs Json Canonical Types Extern Format Request Validation Project Queries History.

(** ** File history *)

Section file_history.
Context {A : Type}.
Context (excluded : gset string) (first_parent : bool).
(** The closures of the caller. [accept] is the one that keeps what it is offered; its own state
    is passed along, and it answers whether the walk goes on. *)
Context (lookup_state : string → result (option StateRec)).
Context (changed_paths : StateRec → result (list string)) (matches : string → bool).
Context (accept : A → StateRec → result (A * bool)).

Definition usable (s : option StateRec) : option StateRec :=
  s ← s; if auxiliary (st_kind s) then None else Some s.

Definition push_start (heap : list (Z * string)) (id : string) : result (list (Z * string)) :=
  s ← lookup_state id;
  Ok (match usable s with Some s => heap ++ [stamp s] | None => heap end).
Definition push_parent (seen : gset string) (heap : list (Z * string)) (parent : string)
    : result (list (Z * string)) :=
  if negb (bool_decide (parent ∈ excluded)) && negb (bool_decide (parent ∈ seen))
  then push_start heap parent
  else Ok heap.
Definition followed (s : StateRec) : list string :=
  if first_parent then take 1 (st_parents s) else st_parents s.

(** One visited state: its parents are queued, then it is offered when a path matches. *)
Definition visit (seen : gset string) (heap : list (Z * string)) (acc : A) (s : StateRec)
    : result (list (Z * string) * A * bool) :=
  heap ← foldM (push_parent seen) heap (followed s);
  paths ← changed_paths s;
  if existsb matches paths
  then (r ← accept acc s; Ok (heap, r.1, r.2))
  else Ok (heap, acc, true).

Fixpoint history_go (fuel : nat) (seen : gset string) (heap : list (Z * string)) (acc : A)
    : option (result A) :=
  match pop heap with
  | None => Some (Ok acc)
  | Some ((_, id), heap) =>
      match fuel with
      | 0 => None
      | S fuel =>
          if bool_decide (id ∈ seen) then history_go fuel seen heap acc
          else match lookup_state id with
               | Err e => Some (Err e)
               | Ok None => history_go fuel ({[id]} ∪ seen) heap acc
               | Ok (Some s) =>
                   match visit ({[id]} ∪ seen) heap acc s with
                   | Err e => Some (Err e)
                   | Ok (heap, acc, true) => history_go fuel ({[id]} ∪ seen) heap acc
                   | Ok (_, acc, false) => Some (Ok acc)
                   end
               end
      end
  end.
Definition file_history (fuel : nat) (starts : list string) (acc : A) : option (result A) :=
  match foldM push_start [] (filterb (λ id, negb (bool_decide (id ∈ excluded))) starts) with
  | Err e => Some (Err e)
  | Ok heap => history_go fuel ∅ heap acc
  end.
End file_history.

(** ** Text *)

Definition newline : ascii := byte_of 10.
(** [s.split_inclusive('\n')]. *)
Fixpoint split_inclusive (s : string) : list string :=
  match s with
  | "" => []
  | String c s =>
      if Ascii.eqb c newline then String c "" :: split_inclusive s
      else match split_inclusive s with
           | [] => [String c ""]
           | l :: ls => String c l :: ls
           end
  end.

(** ** Blame *)

Record FileVersion := mkFileVersion { fv_state : option StateRec; fv_bytes : string }.
Record BlameLine := mkBlameLine {
  bl_line : nat;
  bl_state : option string;
  bl_text : string;
  bl_boundary : bool;
  bl_version : nat }.

Definition lines_of (v : FileVersion) : list string := split_inclusive (from_utf8_lossy (fv_bytes v)).

(** The [HashMap] from lines of the newer version to lines of the older one. *)
Definition equal_block (m : gmap nat nat) (op : DiffOp) : gmap nat nat :=
  match op with
  | Equal old_index new_index len =>
      foldl (λ m k, <[new_index + k := old_index + k]> m) m (seq 0 len)
  | _ => m
  end.
Definition new_to_old (ops : list DiffOp) : gmap nat nat := foldl equal_block ∅ ops.

(** One line's entries of [map] and [owner]. *)
Definition trace (m : gmap nat nat) (vi : nat) (pos_owner : option nat * nat) : option nat * nat :=
  match pos_owner with
  | (Some pos, owner) =>
      match m !! pos with
      | Some o => (Some o, vi)
      | None => (None, owner)
      end
  | (None, owner) => (None, owner)
  end.

Section blame.
(** [similar::TextDiff::from_lines(older, newer).ops()]. *)
Context (diff_lines : string → string → list DiffOp).

Definition step_back (versions : list FileVersion) (vi : nat) : gmap nat nat :=
  match versions !! (vi - 1), versions !! vi with
  | Some newer, Some older =>
      new_to_old (diff_lines (from_utf8_lossy (fv_bytes older)) (from_utf8_lossy (fv_bytes newer)))
  | _, _ => ∅
  end.
Definition owners (versions : list FileVersion) (n : nat) : list (option nat * nat) :=
  foldl (λ rows vi, trace (step_back versions vi) vi <$> rows)
    ((λ i, (Some i, 0)) <$> seq 0 n) (seq 1 (length versions - 1)).
Definition blame_line (versions : list FileVersion) (i : nat) (text : string) (version : nat) : BlameLine :=
  let state := v ← versions !! version; fv_state v in
  mkBlameLine (i + 1) (st_id <$> state) (trim_end_matches newline text)
    ((version =? length versions - 1)%nat && is_some_and state (λ s, bool_decide (st_parents s = []))) version.
Definition blame (versions : list FileVersion) : result (list BlameLine) :=
  match versions with
  | [] => Err "no such path"
  | newest :: _ =>
      let lines := lines_of newest in
      Ok ((λ '(i, (text, (_, version))), blame_line versions i text version)
          <$> enumerate (zip lines (owners versions (length lines))))
  end.
End blame.

(** * Properties *)

(** ** Blame *)

Lemma equal_block_some m op n o :
  equal_block m op !! n = Some o →
  m !! n = Some o ∨ ∃ a b len k, op = Equal a b len ∧ k < len ∧ n = b + k ∧ o = a + k.
Proof.
  destruct op as [a b len|?|?|?]; simpl; [|by auto..]. intros E.
  assert (∀ l, foldl (λ m k, <[b + k := a + k]> m) m l !! n = Some o →
    m !! n = Some o ∨ ∃ k, k ∈ l ∧ n = b + k ∧ o = a + k) as Hf.
  { clear E. intros l. induction l as [|k l IH] using rev_ind; [auto|]. rewrite foldl_app. simpl.
    intros [[<- <-]|[Hne E]]%lookup_insert_Some.
    - right. exists k. split; [apply elem_of_app; right; left|done].
    - destruct (IH E) as [?|(k' & ? & ?)]; [auto|]. right. exists k'. split; [apply elem_of_app; auto|done]. }
  destruct (Hf _ E) as [?|(k & Hk%elem_of_seq & ? & ?)]; [auto|]. right. exists a, b, len, k.
  split; [done|]. split; [lia|done].
Qed.
Lemma new_to_old_some ops n o :
  new_to_old ops !! n = Some o →
  ∃ a b len k, Equal a b len ∈ ops ∧ k < len ∧ n = b + k ∧ o = a + k.
Proof.
  unfold new_to_old. induction ops as [|op ops IH] using rev_ind; [done|].
  rewrite foldl_app. simpl. intros [E|(a & b & len & k & -> & ?)]%equal_block_some.
  - destruct (IH E) as (a & b & len & k & ? & ?). exists a, b, len, k.
    split; [apply elem_of_app; auto|done].
  - exists a, b, len, k. split; [apply elem_of_app; right; left|done].
Qed.

Lemma equal_block_covers m op n :
  is_Some (m !! n) ∨ (∃ a b len, op = Equal a b len ∧ b ≤ n < b + len) → is_Some (equal_block m op !! n).
Proof.
  assert (∀ a b (l : list nat) (m : gmap nat nat), is_Some (m !! n) ∨ (∃ k, k ∈ l ∧ n = b + k) →
    is_Some (foldl (λ m k, <[b + k := a + k]> m) m l !! n)) as Hf.
  { clear. intros a b l. induction l as [|k l IH]; intros m; cbn [foldl].
    - intros [?|(k & Hk & _)]; [done|]. by apply elem_of_nil in Hk.
    - intros H. apply IH. destruct (decide (n = b + k)) as [->|Hne]; [left; rewrite lookup_insert_eq; eauto|].
      rewrite lookup_insert_ne by done. destruct H as [?|(j & Hj & ->)]; [by left|].
      apply elem_of_cons in Hj as [->|Hj]; [done|]. right. eauto. }
  intros [H|(a & b & len & -> & H)]; [destruct op; cbn [equal_block]; auto|]. cbn [equal_block]. apply Hf. right.
  exists (n - b). split; [apply elem_of_seq; lia|lia].
Qed.
Lemma new_to_old_covers ops a b len n : Equal a b len ∈ ops → b ≤ n < b + len → is_Some (new_to_old ops !! n).
Proof.
  unfold new_to_old. intros Hop Hn. revert Hop. generalize (∅ : gmap nat nat) as m.
  induction ops as [|op ops IH]; intros m Hop; [by apply elem_of_nil in Hop|]. cbn [foldl].
  apply elem_of_cons in Hop as [<-|Hop]; [|by apply IH]. clear IH.
  assert (is_Some (equal_block m (Equal a b len) !! n)) as H by (apply equal_block_covers; eauto 10).
  revert H. generalize (equal_block m (Equal a b len)) as k. clear. induction ops as [|op ops IH]; intros k H; [done|].
  cbn [foldl]. apply IH, equal_block_covers. by left.
Qed.

Section blame_facts.
Context (diff_lines : string → string → list DiffOp) (versions : list FileVersion).

(** The place of line [i] of the newest version in version [v], [None] once it is gone. *)
Fixpoint follow (i v : nat) : option nat :=
  match v with
  | 0 => Some i
  | S v => pos ← follow i v; step_back diff_lines versions (S v) !! pos
  end.
(** The last version up to [v] that the line can be followed to. *)
Fixpoint oldest (i v : nat) : nat :=
  match v with
  | 0 => 0
  | S v => if is_some (follow i (S v)) then S v else oldest i v
  end.

Lemma owners_eq n : owners diff_lines versions n =
  (λ i, (follow i (length versions - 1), oldest i (length versions - 1))) <$> seq 0 n.
Proof.
  unfold owners. generalize (length versions - 1) as k. intros k. induction k as [|k IH]; [done|].
  rewrite seq_S, foldl_app, IH. simpl. rewrite <-list_fmap_compose. apply list_fmap_ext.
  intros j i _. simpl. destruct (follow i k) as [pos|]; [|done]. simpl.
  by destruct (step_back diff_lines versions (S k) !! pos).
Qed.
Lemma follow_gone i v k : follow i v = None → v ≤ k → follow i k = None.
Proof. intros Hn. induction 1 as [|k _ IH]; [done|]. simpl. by rewrite IH. Qed.
Lemma oldest_spec i v :
  oldest i v ≤ v ∧ is_Some (follow i (oldest i v)) ∧ (oldest i v < v → follow i (S (oldest i v)) = None).
Proof.
  induction v as [|v (Hle & Hs & Hn)]; [split; [done|split; [by eexists|simpl; lia]]|].
  cbn [oldest]. destruct (follow i (S v)) eqn:E; cbn [is_some].
  - split; [done|]. split; [rewrite E; by eexists|lia].
  - split; [lia|]. split; [done|]. intros _. destruct (decide (oldest i v < v)) as [|Hge]; [auto|].
    assert (oldest i v = v) as -> by lia. done.
Qed.

(** Line [i] of the newer of two versions is line [j] of the older one: an equal block of their diff
    says so. *)
Definition paired (older newer : FileVersion) (i j : nat) : Prop :=
  ∃ old_index new_index len,
    Equal old_index new_index len ∈ diff_lines (from_utf8_lossy (fv_bytes older)) (from_utf8_lossy (fv_bytes newer)) ∧
    new_index ≤ i < new_index + len ∧ j = old_index + (i - new_index).
(** Line [i] of the newest version is line [pos] of version [v]: a chain of such pairs leads there. *)
Inductive carried (i : nat) : nat → nat → Prop :=
  | carried_0 : carried i 0 i
  | carried_S v q pos newer older :
      carried i v q → versions !! v = Some newer → versions !! S v = Some older → paired older newer q pos →
      carried i (S v) pos.

(** Equal blocks pair up equal lines that exist, each line once. *)
Definition diff_sound : Prop := ∀ vi newer older i j,
  versions !! vi = Some newer → versions !! S vi = Some older → paired older newer i j →
  lines_of older !! j = lines_of newer !! i ∧ is_Some (lines_of newer !! i) ∧ ∀ k, paired older newer i k → k = j.

Lemma step_back_paired vi newer older i j :
  diff_sound → versions !! vi = Some newer → versions !! S vi = Some older →
  step_back diff_lines versions (S vi) !! i = Some j ↔ paired older newer i j.
Proof.
  intros Hd Hn Ho. unfold step_back. rewrite Nat.sub_succ, Nat.sub_0_r, Hn, Ho.
  assert (∀ j, new_to_old (diff_lines (from_utf8_lossy (fv_bytes older)) (from_utf8_lossy (fv_bytes newer))) !! i = Some j →
    paired older newer i j) as H1.
  { intros q (a & b & len & k & Hop & Hk & -> & ->)%new_to_old_some. exists a, b, len. split_and!; [done|lia|lia|lia]. }
  split; [auto|]. intros Hp. pose proof Hp as (a & b & len & Hop & Hi & ->).
  destruct (new_to_old_covers _ _ _ _ _ Hop Hi) as [q Hq]. rewrite Hq. f_equal.
  by apply (Hd vi newer older i _ Hn Ho Hp), H1.
Qed.
Lemma follow_carried i v pos : diff_sound → follow i v = Some pos ↔ carried i v pos.
Proof.
  intros Hd. revert pos. induction v as [|v IH]; intros pos; cbn [follow].
  - split; [intros [= <-]; constructor|by inversion 1].
  - rewrite bind_Some. split.
    + intros (q & Hq & Hs). apply IH in Hq. pose proof Hs as Hs'. unfold step_back in Hs'.
      rewrite Nat.sub_succ, Nat.sub_0_r in Hs'.
      destruct (versions !! v) as [newer|] eqn:En; [|by rewrite lookup_empty in Hs'].
      destruct (versions !! S v) as [older|] eqn:Eo; [|by rewrite lookup_empty in Hs'].
      econstructor; try done. by eapply step_back_paired.
    + inversion_clear 1 as [|? q ? newer older Hc Hn Ho Hp]. exists q. split; [by apply IH|]. by eapply step_back_paired.
Qed.
Lemma carried_line i v pos line newest :
  diff_sound → versions !! 0 = Some newest → lines_of newest !! i = Some line →
  carried i v pos → ∃ fv, versions !! v = Some fv ∧ lines_of fv !! pos = Some line.
Proof.
  intros Hd Hv Hl. induction 1 as [|v q pos newer older Hc IH Hn Ho Hp]; [eauto|].
  destruct IH as (fv & ? & Hline). simplify_eq. destruct (Hd v newer older q pos Hn Ho Hp) as [E _].
  exists older. by rewrite E.
Qed.

End blame_facts.

Lemma blame_lookup diff_lines newest rest out i bl (versions := newest :: rest) :
  blame diff_lines versions = Ok out → out !! i = Some bl ↔
  ∃ line, lines_of newest !! i = Some line ∧
    bl = blame_line versions i line (oldest diff_lines versions i (length rest)).
Proof.
  intros [= <-]. rewrite list_lookup_fmap. fold versions. rewrite owners_eq.
  replace (length versions - 1) with (length rest) by (simpl; lia).
  set (lines := lines_of newest). unfold enumerate.
  rewrite length_zip, length_fmap, length_seq, Nat.min_id, fmap_Some. split.
  - intros ([j [line [pos v]]] & E & ->). apply lookup_zip_Some in E as [E1 E].
    apply lookup_zip_Some in E as [El E]. apply lookup_seq in E1 as [-> _].
    rewrite list_lookup_fmap in E. apply fmap_Some in E as (j & [-> _]%lookup_seq & [= _ ->]). eauto.
  - intros (line & El & ->). pose proof (lookup_lt_Some _ _ _ El) as Hi.
    exists (i, (line, (follow diff_lines versions i (length rest), oldest diff_lines versions i (length rest)))).
    split; [|done]. apply lookup_zip_Some. split; [by apply lookup_seq|].
    apply lookup_zip_Some. split; [done|]. rewrite list_lookup_fmap, lookup_seq_lt by done. done.
Qed.

Lemma blame_length diff_lines newest rest out :
  blame diff_lines (newest :: rest) = Ok out → length out = length (lines_of newest).
Proof.
  intros [= <-]. rewrite length_fmap, owners_eq. unfold enumerate.
  by rewrite !length_zip, length_seq, length_fmap, length_seq, !Nat.min_id.
Qed.
Lemma boundary_spec v n state :
  (v =? n)%nat && is_some_and state (λ s, bool_decide (st_parents s = [])) = true ↔
  v = n ∧ ∃ s, state = Some s ∧ st_parents s = [].
Proof.
  rewrite andb_true_iff, Nat.eqb_eq. destruct state as [s|]; simpl.
  - rewrite bool_decide_eq_true. naive_solver.
  - naive_solver.
Qed.


(** Two versions of a file, and the diff of a common prefix of lines. *)
Definition prefix_diff (older newer : string) : list DiffOp :=
  let fix common (a b : list string) : nat :=
    match a, b with
    | x :: a, y :: b => if x == y then S (common a b) else 0
    | _, _ => 0
    end in
  let o := split_inclusive older in
  let n := split_inclusive newer in
  let k := common o n in
  [Equal 0 0 k; Replace k (length o - k) k (length n - k)].
Definition text_line (l : string) : string := l +:+ String newline "".
Definition sample_versions : list FileVersion :=
  [mkFileVersion (Some (plain_state "s2" Commit ["s1"] 2)) (text_line "one" +:+ text_line "two");
   mkFileVersion (Some (plain_state "s1" Commit [] 1)) (text_line "one")].

(** ** File history *)

Section history_facts.
Context (p : Project) (Hkeyed : keyed p) (excluded : gset string) (first_parent : bool).

(** The stamp that a usable known state puts into the heap. *)
Definition usable_stamp (id : string) : list (Z * string) :=
  match usable (state p id) with Some s => [stamp s] | None => [] end.
(** The states that the walk may visit, and the parents that it follows. *)
Definition eligible (s : StateRec) : Prop :=
  known p s ∧ auxiliary (st_kind s) = false ∧ st_id s ∉ excluded.
Definition history_root (starts : list string) (s : StateRec) : Prop := st_id s ∈ starts ∧ eligible s.
Definition history_step (s q : StateRec) : Prop := st_id q ∈ followed first_parent s ∧ eligible q.

Lemma usable_stamp_some id h :
  id ∉ excluded → h ∈ usable_stamp id ↔ ∃ s, st_id s = id ∧ eligible s ∧ h = stamp s.
Proof.
  intros He. unfold usable_stamp, usable, eligible, known. split.
  - destruct (state p id) as [s|] eqn:E; [|set_solver]. simpl.
    destruct (auxiliary (st_kind s)) eqn:Ea; [set_solver|]. intros ->%list_elem_of_singleton.
    exists s. pose proof (Hkeyed id s E) as <-. done.
  - intros (s & <- & (Hk & Ha & _) & ->). rewrite Hk. simpl. rewrite Ha. left.
Qed.
Lemma length_usable_stamp id : length (usable_stamp id) ≤ 1.
Proof. unfold usable_stamp. destruct (usable _); simpl; lia. Qed.

Lemma push_starts_ok heap ids :
  foldM (push_start (λ id, Ok (state p id))) heap ids = Ok (heap ++ mjoin (usable_stamp <$> ids)).
Proof.
  revert heap. induction ids as [|id ids IH]; intros heap; csimpl; [by rewrite app_nil_r|].
  rewrite IH, app_assoc. do 2 f_equal. unfold usable_stamp.
  destruct (usable _); [done|]. by rewrite app_nil_r.
Qed.
(** The heap entries of the followed parents that are neither excluded nor seen. *)
Definition new_stamps (seen : gset string) (s : StateRec) : list (Z * string) :=
  mjoin (usable_stamp <$> filterb (λ q, negb (bool_decide (q ∈ excluded)) && negb (bool_decide (q ∈ seen)))
           (followed first_parent s)).
Lemma push_parents_ok seen heap s :
  foldM (push_parent excluded (λ id, Ok (state p id)) seen) heap (followed first_parent s) =
  Ok (heap ++ new_stamps seen s).
Proof.
  unfold new_stamps. generalize (followed first_parent s) as ids. intros ids. revert heap.
  induction ids as [|id ids IH]; intros heap; simpl; [by rewrite app_nil_r|].
  unfold push_parent at 2. destruct (_ && _); simpl; [|apply IH].
  rewrite IH. csimpl. rewrite app_assoc. do 2 f_equal. unfold usable_stamp.
  destruct (usable _); [done|]. by rewrite app_nil_r.
Qed.

Lemma new_stamps_spec seen s h :
  h ∈ new_stamps seen s ↔ ∃ q, history_step s q ∧ st_id q ∉ seen ∧ h = stamp q.
Proof.
  unfold new_stamps, history_step. rewrite list_elem_of_join. split.
  - intros (k & Hh & Hk). apply list_elem_of_fmap in Hk as (id & -> & Hid).
    apply elem_of_filterb in Hid as [Hid Hb]. apply andb_true_iff in Hb as [He Hs].
    apply negb_true_iff, bool_decide_eq_false in He, Hs.
    apply usable_stamp_some in Hh as (q & <- & ? & ->); [|done]. eauto.
  - intros (q & [Hq He] & Hs & ->). exists (usable_stamp (st_id q)). split.
    + apply usable_stamp_some; [apply He|eauto].
    + apply list_elem_of_fmap. exists (st_id q). split; [done|]. apply elem_of_filterb. split; [done|].
      rewrite !bool_decide_eq_false_2; [done|done|apply He].
Qed.
Lemma length_new_stamps seen s : length (new_stamps seen s) ≤ length (st_parents s).
Proof.
  trans (length (followed first_parent s)).
  - unfold new_stamps. generalize (followed first_parent s) as ids. intros ids.
    induction ids as [|id ids IH]; simpl; [done|]. destruct (_ && _); csimpl; [|lia].
    rewrite length_app. pose proof (length_usable_stamp id). lia.
  - unfold followed. destruct first_parent; [|done]. rewrite length_take. lia.
Qed.

(** The walk ends, whatever the closures of the caller answer. *)
Lemma history_go_ends {A} changed_paths matches (accept : A → StateRec → result (A * bool)) fuel seen heap acc :
  length heap + pending p seen ≤ fuel →
  is_Some (history_go excluded first_parent (λ id, Ok (state p id)) changed_paths matches accept
             fuel seen heap acc).
Proof.
  revert seen heap acc. induction fuel as [|fuel IH]; intros seen heap acc Hf; simpl.
  - destruct heap; simpl in *; [by eexists|lia].
  - destruct (pop heap) as [[[t id] heap']|] eqn:E; [|by eexists].
    apply pop_some in E as [E _]. apply Permutation_length in E. simpl in E.
    case_bool_decide as Hid; [apply IH; lia|].
    pose proof (pending_step p seen id Hid) as Hp. unfold parents_of in Hp.
    destruct (state p id) as [s|]; [|apply IH; simpl in Hp; lia].
    assert (∀ acc, is_Some (history_go excluded first_parent (λ id, Ok (state p id)) changed_paths matches accept
      fuel ({[id]} ∪ seen) (heap' ++ new_stamps ({[id]} ∪ seen) s) acc)) as Hgo.
    { intros acc'. apply IH. rewrite length_app. pose proof (length_new_stamps ({[id]} ∪ seen) s). lia. }
    unfold visit. rewrite push_parents_ok. simpl.
    destruct (changed_paths s); simpl; [|by eexists]. destruct (existsb _ _); [|apply Hgo].
    destruct (accept acc s) as [[acc' []]|]; simpl; [apply Hgo|by eexists|by eexists].
Qed.

(** A caller that keeps every state it is offered. *)
Definition keep (acc : list StateRec) (s : StateRec) : result (list StateRec * bool) := Ok (acc ++ [s], true).

Lemma history_go_keep changed matches starts fuel seen heap vis r :
  walk_inv p (history_root starts) history_step seen heap vis →
  history_go excluded first_parent (λ id, Ok (state p id)) (λ s, Ok (changed s)) matches keep fuel seen heap
    (filterb (λ s, existsb matches (changed s)) vis) = Some r →
  ∃ vis', r = Ok (filterb (λ s, existsb matches (changed s)) vis') ∧ NoDup (st_id <$> vis') ∧
    ∀ s, s ∈ vis' ↔ reached (history_root starts) history_step s.
Proof.
  revert seen heap vis. induction fuel as [|fuel IH]; intros seen heap vis Hinv Hgo; simpl in Hgo;
    destruct (pop heap) as [[[t id] heap']|] eqn:E; try done.
  1, 3: injection Hgo as <-; apply pop_none in E as ->; exists vis; split; [done|];
    split; [apply Hinv|]; intros s; split; [apply Hinv|]; by apply (walk_inv_done p _ _ seen).
  apply pop_some in E as [E _].
  destruct (walk_inv_pop p (history_root starts) history_step (λ s H, proj1 (proj2 H)) (λ s q H, proj1 (proj2 H))
    _ _ _ _ _ Hinv E) as (s & Hk & _ & Es & Eid & Hskip & Hvisit).
  simpl in Eid, Hskip, Hvisit. subst id. rewrite Hk in Hgo. case_bool_decide as Hid; [eauto|].
  assert (walk_inv p (history_root starts) history_step ({[st_id s]} ∪ seen)
            (heap' ++ new_stamps ({[st_id s]} ∪ seen) s) (vis ++ [s])) as Hinv'.
  { apply Hvisit; [done|..].
    - intros h (q & ? & _ & ->)%new_stamps_spec. eauto.
    - intros q Hq. destruct (decide (st_id q ∈ {[st_id s]} ∪ seen)); [auto|]. right.
      apply new_stamps_spec. eauto. }
  unfold visit in Hgo. rewrite push_parents_ok in Hgo. simpl in Hgo.
  apply (IH _ _ (vis ++ [s]) Hinv'). rewrite <-Hgo. unfold filterb. rewrite List.filter_app. simpl.
  destruct (existsb matches (changed s)); [done|]. by rewrite app_nil_r.
Qed.
End history_facts.

(** C37. [file_history] ends and offers exactly the states that changed a matching path among
    those that the starting states lead to without passing an excluded, a cache or a derived
    state, along first parents only when that is asked for; each state is offered once. *)
Theorem file_history_exact `{HU : Uuid, HE : Encodings, HC : Crypto, HJ : JsonText, HL : Unicode}
    id l machine p excluded first_parent changed matches starts :
  from_records id l machine = Ok p →
  ∃ out, file_history excluded first_parent (λ id, Ok (state p id)) (λ s, Ok (changed s)) matches keep
           (length starts + pending p ∅) starts [] = Some (Ok out) ∧
    NoDup (st_id <$> out) ∧
    ∀ s, s ∈ out ↔ reached (history_root p excluded starts) (history_step p excluded first_parent) s ∧
                   existsb matches (changed s) = true.
Proof.
  intros Hk%from_records_keyed. unfold file_history. rewrite push_starts_ok. simpl.
  set (heap := mjoin _).
  assert (∀ h, h ∈ heap ↔ ∃ s, history_root p excluded starts s ∧ h = stamp s) as Hheap.
  { intros h. unfold heap. rewrite list_elem_of_join. split.
    - intros (k & Hh & Hin). apply list_elem_of_fmap in Hin as (i & -> & Hi).
      apply elem_of_filterb in Hi as [Hi He%negb_true_iff%bool_decide_eq_false].
      apply (usable_stamp_some p Hk excluded) in Hh as (s & <- & ? & ->); [|done].
      exists s. done.
    - intros (s & [Hs He] & ->). exists (usable_stamp p (st_id s)). split.
      + apply (usable_stamp_some p Hk excluded); [apply He|eauto].
      + apply list_elem_of_fmap. exists (st_id s). split; [done|]. apply elem_of_filterb. split; [done|].
        rewrite bool_decide_eq_false_2; [done|apply He]. }
  assert (length heap ≤ length starts) as Hlen.
  { unfold heap. clear. induction starts as [|i l IH]; simpl; [done|].
    destruct (negb _); csimpl; [|lia]. rewrite length_app. pose proof (length_usable_stamp p i). lia. }
  destruct (history_go_ends p excluded first_parent (λ s, Ok (changed s)) matches keep
    (length starts + pending p ∅) ∅ heap []) as [r Hr]; [lia|].
  destruct (history_go_keep p Hk excluded first_parent changed matches starts
    (length starts + pending p ∅) ∅ heap [] r) as (vis & -> & Hnd & Hvis); [|done|].
  - split; [|set_solver|set_solver|constructor| |set_solver].
    + intros h (s & Hs & ->)%Hheap. exists s. split; [apply Hs|]. split; [by exists s|done].
    + intros s Hs. right. apply Hheap. eauto.
  - eexists. split; [exact Hr|]. split.
    + eapply sublist_NoDup; [exact Hnd|]. apply fmap_sublist. apply filterb_sublist.
    + intros s. by rewrite elem_of_filterb, Hvis.
Qed.
Lemma file_history_exact_witness :
  file_history ∅ true (λ id, Ok (state hist_project id)) (λ s, Ok [st_id s]) (λ f, negb (f == "s2")) keep
    (length ["s3"; "s2"] + pending hist_project ∅) ["s3"; "s2"] [] =
    Some (Ok [change_state "s3" "c" ["s1"] 3; plain_state "s1" Commit [] 1]) ∧
  ∃ out, file_history ∅ true (λ id, Ok (state hist_project id)) (λ s, Ok [st_id s]) (λ f, negb (f == "s2")) keep
    (length ["s3"; "s2"] + pending hist_project ∅) ["s3"; "s2"] [] = Some (Ok out) ∧
    NoDup (st_id <$> out) ∧
    ∀ s, s ∈ out ↔ reached (history_root hist_project ∅ ["s3"; "s2"]) (history_step hist_project ∅ true) s ∧
                   existsb (λ f, negb (f == "s2")) [st_id s] = true.
Proof.
  split; [vm_compute; reflexivity|].
  apply (@file_history_exact uuid_plain encodings_hex crypto_plain no_text ascii_lowercase "p" hist_records "m"
    hist_project ∅ true (λ s, [st_id s])). exact hist_project_ok.
Defined.
