(* ===== verification/Evidence.v ===== *)
(** Evidence about states ([layr-model/src/lib.rs]: [is_revoked], [check_exit], [checks],
    [probe_results], [approvals], [person_record_pinned], [person_attestations],
    [person_approvals]).

    The properties read evidence as a set of records: which evidence counts depends on the
    records and their application order only, never on indexes or on the order of arrival. *)

From S2P Require Import Prelude Strs Json Canonical Types Extern Format Request Validation Project Queries.

Section evidence.
Context `{Uuid, Encodings, Crypto, JsonText, Unicode}.

(** [self.records[index]]: every index of [attestations] is one of [records]
    ([project_lines_refine]), so the [None] case, where the code would panic, is never met. *)
Definition record_at (p : Project) (i : nat) (f : LogRecord → bool) : bool :=
  is_some_and (p_records p !! i) f.

Definition person_record_pinned (p : Project) (record : LogRecord) : bool :=
  match strip_prefix "person:" (ac_name (r_actor record)) with
  | None => false
  | Some login =>
      match keys ← setting p "person.keys"; as_str keys.[login] with
      | None => false
      | Some public =>
          (as_str (r_data record).["person_key"] == Some public) && is_ok (validate record)
      end
  end.

(** Whether the record [rec], with evidence [r], revokes the evidence [a] of the record [owner]. *)
Definition revokes (p : Project) (id : string) (a : Attestation) (owner : LogRecord)
    (r : Attestation) (rec : LogRecord) : bool :=
  ((starts_with "person:" (at_signer a) && (at_signer r == at_signer a) && person_record_pinned p rec)
   || (negb (starts_with "person:" (at_signer a)) && (r_machine rec == r_machine owner)
       && (ac_uid (r_actor rec) == ac_uid (r_actor owner)))) &&
  (is_some_and (as_array (r_data rec).["revokes"]) (existsb (λ v, as_str v == Some id))
   || (r_op rec == "approve.withdraw") && (at_kind a == "approval")).
Definition is_revoked (p : Project) (id : string) : bool :=
  match find (λ ia, at_attestation_id ia.2 == id) (p_attestations p) with
  | None => false
  | Some (index, a) =>
      record_at p index (λ owner,
        existsb (λ '(i, r),
          if (i <=? index)%nat || negb (at_kind r == "revoke") || negb (su_id (at_subject r) == su_id (at_subject a))
          then false
          else record_at p i (revokes p id a owner r)) (p_attestations p))
  end.

Definition record_of (p : Project) (id : string) : option LogRecord :=
  find (λ r, r_id r == id) (p_records p).
Definition active_checks (p : Project) (subject : string) : list Attestation :=
  filterb (λ a, negb (is_revoked p (at_attestation_id a))) (attestations p subject (Some "check")).
(** [r.data.get("check").unwrap_or(&r.data)]. *)
Definition check_result (r : LogRecord) : json := default (r_data r) (get (r_data r) "check").
Definition checks (p : Project) (subject : string) : list json :=
  check_result <$> filter_map (λ a, record_of p (at_attestation_id a)) (active_checks p subject).
Definition probe_results (p : Project) (subject : string) : list json :=
  filter_map (λ r, c ← get (r_data r) "check"; _ ← get c "probe"; Some c)
    (filter_map (λ a, record_of p (at_attestation_id a)) (active_checks p subject)).

Definition argv_matches (result : json) (argv : list string) : bool :=
  match get result "argv" with
  | Some v => is_some_and (ok (de_vec de_string v)) (λ args, args == argv)
  | None =>
      match argv with
      | [arg] => negb (is_empty arg) && negb (existsb is_whitespace (chars arg)) &&
                 (as_str result.["command"] == Some arg)
      | _ => false
      end
  end.
Fixpoint check_exit_go (p : Project) (argv : list string) (wanted : option Z) (l : list Attestation)
    : option Z :=
  match l with
  | [] => None
  | a :: l =>
      if is_revoked p (at_attestation_id a) then check_exit_go p argv wanted l
      else
        rec ← record_of p (at_attestation_id a);
        let result := check_result rec in
        if argv_matches result argv then
          match as_i64 result.["exit"] with
          | Some code => if is_none_or wanted (λ v, (v =? code)%Z) then Some code
                         else check_exit_go p argv wanted l
          | None => check_exit_go p argv wanted l
          end
        else check_exit_go p argv wanted l
  end.
Definition check_exit (p : Project) (subject : string) (argv : list string) (wanted : option Z) : option Z :=
  check_exit_go p argv wanted (rev (attestations p subject (Some "check"))).

(** [map.entry(k).and_modify(|t| *t = t.max(time)).or_insert(time)]. *)
Definition note_time {K} `{Countable K} (m : gmap K Z) (k : K) (time : Z) : gmap K Z :=
  <[k := match m !! k with Some t => Z.max t time | None => time end]> m.

Definition approval_key (p : Project) (subject : string) (ia : nat * Attestation) : option (string * Z) :=
  record ← p_records p !! ia.1;
  let a := ia.2 in
  if negb (su_id (at_subject a) == subject) || negb (at_kind a == "approval")
     || is_revoked p (at_attestation_id a) || is_some (get (r_data record) "declassify")
     || starts_with "person:" (at_signer a) || negb (r_machine record == p_machine p)
  then None
  else Some (r_machine record, ac_uid (r_actor record)).
Definition approvals (p : Project) (subject : string) : list (Z * Z) :=
  let by_actor := foldl (λ m ia, match approval_key p subject ia with
                                 | Some k => note_time m k (at_time ia.2)
                                 | None => m
                                 end) ∅ (p_attestations p) in
  sort_by (λ a b, cle a.1 b.1) ((λ kt, (kt.1.2, kt.2)) <$> entries by_actor).

Definition person_attestations (p : Project) (subject login : string) : list string :=
  (λ ia, at_attestation_id ia.2) <$>
  filterb (λ ia, record_at p ia.1 (person_record_pinned p) && (su_id (at_subject ia.2) == subject)
                 && (at_signer ia.2 == "person:" +:+ login) && (at_kind ia.2 == "approval")
                 && negb (is_revoked p (at_attestation_id ia.2))) (p_attestations p).

Definition person_key_of (p : Project) (subject : string) (ia : nat * Attestation) : option string :=
  let a := ia.2 in
  login ← strip_prefix "person:" (at_signer a);
  if (su_id (at_subject a) == subject) && (at_kind a == "approval") && negb (is_revoked p (at_attestation_id a))
     && record_at p ia.1 (person_record_pinned p)
     && record_at p ia.1 (λ r, is_none (get (r_data r) "declassify"))
  then Some login else None.
Definition person_approvals (p : Project) (subject : string) : list (string * Z) :=
  entries (foldl (λ m ia, match person_key_of p subject ia with
                          | Some login => note_time m login (at_time ia.2)
                          | None => m
                          end) ∅ (p_attestations p)).
End evidence.

(** * Properties *)

(** ** Evidence as a function of records *)

(** Evidence without the change id, the one field that is looked up in the project. *)
Definition strip_change (a : Attestation) : Attestation :=
  mkAttestation (at_format a) (at_attestation_id a) (at_subject a) None (at_kind a)
    (at_payload_digest a) (at_payload_ref a) (at_signer a) (at_time a).
Definition strip_entry (ia : nat * Attestation) : nat * Attestation := (ia.1, strip_change ia.2).

Section facts.
Context `{HU : Uuid, HE : Encodings, HC : Crypto, HJ : JsonText, HL : Unicode}.

(** What the log says that a record gives ([evidence_given]), without the change id. *)
Definition evidence_of (r : LogRecord) : option Attestation := strip_change <$> evidence_given [] r.

Lemma record_attestation_evidence p r a :
  record_attestation p r = Ok a → evidence_of r = strip_change <$> a.
Proof.
  unfold evidence_of, record_attestation, evidence_given, evidence_kind, memb.
  destruct (get (r_data r) "attestation") as [v|].
  - destruct (Attestation_from_value v) as [x|e]; simpl; intros E; by inversion E.
  - rewrite old_evidence.
    destruct (r_op r == "approve"); [|destruct (r_op r == "approve.withdraw") eqn:E2; [apply eqb_eq in E2 as ->|
      destruct (r_op r == "check")]]; cbn; intros [= <-]; try done; by destruct (as_str _).
Qed.

(** The indexed evidence of a log. *)
Definition log_evidence (l : list LogRecord) : list (nat * Attestation) :=
  filter_map (λ ir, (ir.1,.) <$> evidence_of ir.2) (enumerate l).
Lemma log_evidence_snoc l r :
  log_evidence (l ++ [r]) = log_evidence l ++ option_list ((length l,.) <$> evidence_of r).
Proof.
  unfold log_evidence, filter_map. rewrite enumerate_snoc, omap_app. by f_equal.
Qed.

Lemma derive_attestations p i r p' :
  derive p (i, r) = Ok p' →
  strip_entry <$> p_attestations p' =
  (strip_entry <$> p_attestations p) ++ option_list ((i,.) <$> evidence_of r).
Proof.
  intros Hd. unfold derive in Hd.
  apply bind_ok in Hd as (p1 & H1 & Hd). apply bind_ok in Hd as (p2 & H2 & Hd).
  apply bind_ok in Hd as (p3 & H3 & Hd). apply bind_ok in Hd as (p4 & H4 & Hd).
  apply bind_ok in Hd as (p5 & H5 & Hd). apply bind_ok in Hd as (p6 & H6 & [= <-]).
  assert (p_attestations p4 = p_attestations p) as <-.
  { destruct (derive_lines_inv _ _ _ H2) as [_ E2]. destruct (derive_queue_inv _ _ _ H3) as [E3 _].
    destruct (derive_ref_inv _ _ _ _ H4) as [E4 _]. rewrite E4, E3, E2. simpl. clear -H1.
    revert H1. apply (foldM_inv (λ q, p_attestations q = p_attestations p)); [done|].
    intros q s q' _ Hq Hs. unfold derive_state in Hs. inv_ok. done. }
  destruct (derive_op_inv _ _ _ H6) as (_ & _ & _ & _ & A6 & _).
  destruct (derive_stack_inv r p6) as (_ & _ & _ & _ & A7 & _). rewrite A7, A6.
  unfold derive_attestation in H5. inv_ok. rewrite (record_attestation_evidence _ _ _ H).
  destruct x as [a|]; simpl; [by rewrite fmap_app|by rewrite app_nil_r].
Qed.
Lemma from_records_evidence id l machine p :
  from_records id l machine = Ok p →
  strip_entry <$> p_attestations p = log_evidence (p_records p).
Proof.
  unfold from_records. intros ([u q] & _ & H)%bind_ok.
  apply bind_ok in H as (p0 & Hf & [= <-]). simpl.
  apply (foldM_enumerate_inv (λ pre p, strip_entry <$> p_attestations p = log_evidence pre))
    in Hf; [done|done|].
  intros pre r p1 p2 E Hd. by rewrite log_evidence_snoc, (derive_attestations _ _ _ _ Hd), E.
Qed.

(** Every piece of evidence of a project is that of the record at its index. *)
Lemma evidence_at id l machine p i e :
  from_records id l machine = Ok p →
  (∃ a, (i, a) ∈ p_attestations p ∧ strip_change a = e) ↔
  ∃ r, p_records p !! i = Some r ∧ evidence_of r = Some e.
Proof.
  intros Hp. trans ((i, e) ∈ log_evidence (p_records p)).
  - rewrite <-(from_records_evidence _ _ _ _ Hp), list_elem_of_fmap. split.
    + intros (a & Ha & <-). by exists (i, a).
    + intros ([j a] & [= -> ->] & Ha). eauto.
  - unfold log_evidence, filter_map. rewrite list_elem_of_omap. unfold enumerate. split.
    + intros ([j r] & Hin & E). apply fmap_Some in E as (e' & Er & [= -> ->]). exists r. split; [|done].
      apply list_elem_of_lookup in Hin as [k Hk]. apply lookup_zip_Some in Hk as [[-> _]%lookup_seq Hr]. done.
    + intros (r & Hr & E). exists (i, r). simpl. rewrite E. split; [|done].
      apply (list_elem_of_lookup_2 _ i). apply lookup_zip_Some. split; [|done].
      apply lookup_seq. split; [done|]. by eapply lookup_lt_Some.
Qed.

(** The evidence of a valid record carries the id of the record. *)
Lemma evidence_id r e : validate r = Ok tt → evidence_of r = Some e → at_attestation_id e = r_id r.
Proof.
  intros Hv. unfold evidence_of, evidence_given.
  destruct (get (r_data r) "attestation") as [v|] eqn:Ev.
  - assert (validate_attestation r (r_data r) v = Ok tt) as Ha.
    { unfold validate in Hv. inv_ok. unfold on_member in *. by rewrite Ev in *. }
    unfold validate_attestation in Ha. inv_ok.
    match goal with H : Attestation_from_value v = _ |- _ => rewrite H end. simpl. by intros [= <-].
  - destruct (evidence_kind _), (as_str _); simpl; try done. by intros [= <-].
Qed.

(** Records are in order where their indexes are. *)
Lemma sorted_lookup {A} (R : A → A → Prop) l i j x y :
  StronglySorted R l → l !! i = Some x → l !! j = Some y → i < j → R x y.
Proof.
  intros Hs. revert i j. induction Hs as [|z l Hl IH Hz]; intros i j Hi Hj Hij; [done|].
  destruct j as [|j]; [lia|]. destruct i as [|i]; simplify_eq/=.
  - rewrite Forall_forall in Hz. apply Hz. by eapply list_elem_of_lookup_2.
  - eapply IH; [done|done|lia].
Qed.
Lemma order_lookup id l i j r r' :
  consistent id l → log_of l !! i = Some r → log_of l !! j = Some r' →
  i < j ↔ clt (order r) (order r') = true.
Proof.
  intros Hc Hi Hj. pose proof (log_of_sorted id l Hc) as Hs. split.
  - intros Hij. by apply (sorted_lookup _ _ _ _ _ _ Hs Hi Hj).
  - intros Hlt. destruct (decide (i < j)) as [|Hge]; [done|]. exfalso.
    destruct (decide (i = j)) as [->|Hne].
    + simplify_eq. rewrite clt_cle, cle_refl in Hlt. done.
    + assert (clt (order r') (order r) = true) as Hgt.
      { apply (sorted_lookup _ _ _ _ _ _ Hs Hj Hi). lia. }
      rewrite clt_cle in Hgt. by rewrite (clt_imp_cle _ _ Hlt) in Hgt.
Qed.

(** The record was made for a person whose key the project pins, with that key, and is valid. *)
Definition pinned (p : Project) (r : LogRecord) : Prop :=
  ∃ login keys public, ac_name (r_actor r) = "person:" +:+ login ∧ setting p "person.keys" = Some keys ∧
    as_str keys.[login] = Some public ∧ as_str (r_data r).["person_key"] = Some public ∧ validate r = Ok tt.
(** Who may revoke the evidence [a] of the record [r] by the evidence [b] of the record [rr]. *)
Definition revoker (p : Project) (r : LogRecord) (a : Attestation) (rr : LogRecord) (b : Attestation) : Prop :=
  if starts_with "person:" (at_signer a) then at_signer b = at_signer a ∧ pinned p rr
  else r_machine rr = r_machine r ∧ ac_uid (r_actor rr) = ac_uid (r_actor r).
(** What it takes to revoke the evidence [a] of the record [r] within the records [l]. *)
Definition revoked_in (p : Project) (l : list LogRecord) (r : LogRecord) (a : Attestation) : Prop :=
  ∃ rr b, rr ∈ l ∧ evidence_of rr = Some b ∧ clt (order r) (order rr) = true ∧
    at_kind b = "revoke" ∧ su_id (at_subject b) = su_id (at_subject a) ∧ revoker p r a rr b ∧
    ((∃ ids, as_array (r_data rr).["revokes"] = Some ids ∧ JString (r_id r) ∈ ids) ∨
     r_op rr = "approve.withdraw" ∧ at_kind a = "approval").

Lemma person_record_pinned_spec p r : person_record_pinned p r = true ↔ pinned p r.
Proof.
  unfold person_record_pinned, pinned. split.
  - destruct (strip_prefix _ _) as [login|] eqn:El; [|done].
    apply strip_prefix_some in El. destruct (setting p "person.keys") as [keys|] eqn:Ek; [|done]. simpl.
    destruct (as_str keys.[login]) as [public|] eqn:Ep; [|done]. intros [Hk%eqb_eq [[] Hv]%is_ok_true]%andb_true_iff.
    by exists login, keys, public.
  - intros (login & keys & public & Hn & Hk & Hp & Hd & Hv). rewrite Hn, strip_prefix_app, Hk. cbn.
    by rewrite Hp, Hd, Hv, eqb_refl.
Qed.
Lemma revokes_spec p r a rr b :
  revokes p (r_id r) a r b rr = true ↔
  revoker p r a rr b ∧
  ((∃ ids, as_array (r_data rr).["revokes"] = Some ids ∧ JString (r_id r) ∈ ids) ∨
   r_op rr = "approve.withdraw" ∧ at_kind a = "approval").
Proof.
  unfold revokes, revoker. rewrite andb_true_iff, !orb_true_iff, !andb_true_iff, !eqb_true, negb_true_iff, person_record_pinned_spec.
  assert (is_some_and (as_array (r_data rr).["revokes"]) (existsb (λ v, as_str v == Some (r_id r))) = true ↔
    ∃ ids, as_array (r_data rr).["revokes"] = Some ids ∧ JString (r_id r) ∈ ids) as ->.
  { destruct (as_array _) as [ids|]; cbn; [|naive_solver]. rewrite existsb_elem. split.
    - intros (v & Hv & Hs%eqb_eq). exists ids. split; [done|]. by destruct v; simplify_eq/=.
    - intros (? & [= <-] & Hv). exists (JString (r_id r)). split; [done|]. apply eqb_refl. }
  destruct (starts_with _ (at_signer a)); naive_solver.
Qed.

Lemma find_evidence id l machine p i r a :
  Forall (λ r, Record_wf r = true) l → Forall (λ r, validate r = Ok tt) l →
  from_records id l machine = Ok p → p_records p !! i = Some r → evidence_of r = Some a →
  ∃ a', find (λ ia, at_attestation_id ia.2 == r_id r) (p_attestations p) = Some (i, a') ∧ strip_change a' = a.
Proof.
  intros Hwf Hval Hp Hr Ha. destruct (from_records_log _ _ _ _ Hwf Hp) as [Hc El].
  rewrite Forall_forall in Hval.
  assert (∀ j s e, p_records p !! j = Some s → evidence_of s = Some e → at_attestation_id e = r_id s) as Hid.
  { intros j s e Hj He. apply evidence_id; [|done]. apply Hval. apply elem_of_log_of; [apply Hc|].
    rewrite <-El. by eapply list_elem_of_lookup_2. }
  destruct (find _ (p_attestations p)) as [[j a']|] eqn:Ef.
  - apply find_some in Ef as [Hin Hj%eqb_eq]. simpl in Hj.
    destruct (proj1 (evidence_at _ _ _ _ j (strip_change a') Hp)) as (s & Hs & Hes); [eauto|].
    assert (r_id s = r_id r) as Es by (rewrite <-Hj; symmetry; apply (Hid _ _ _ Hs Hes)).
    assert (j = i) as ->.
    { eapply (NoDup_lookup (r_id <$> p_records p)).
      - rewrite El. apply log_of_ids, Hc.
      - by rewrite list_lookup_fmap, Hs.
      - by rewrite list_lookup_fmap, Hr, Es. }
    simplify_eq. eauto.
  - exfalso. destruct (proj2 (evidence_at _ _ _ _ i a Hp)) as (a' & Hin & <-); [eauto|].
    apply (find_none _ _ _ Ef) in Hin. simpl in Hin. apply eqb_ne in Hin. apply Hin.
    by rewrite <-(Hid _ _ _ Hr Ha).
Qed.

Lemma is_revoked_spec id l machine p r a :
  Forall (λ r, Record_wf r = true) l → Forall (λ r, validate r = Ok tt) l →
  from_records id l machine = Ok p → r ∈ l → evidence_of r = Some a →
  is_revoked p (r_id r) = true ↔ revoked_in p l r a.
Proof.
  intros Hwf Hval Hp Hrl Ha. destruct (from_records_log _ _ _ _ Hwf Hp) as [Hc El].
  assert (∀ x, x ∈ p_records p ↔ x ∈ l) as Hin by (intros x; rewrite El; apply elem_of_log_of, Hc).
  destruct (proj1 (list_elem_of_lookup _ _) (proj2 (Hin r) Hrl)) as [i Hi].
  destruct (find_evidence _ _ _ _ _ _ _ Hwf Hval Hp Hi Ha) as (a' & Hf & <-).
  unfold is_revoked, record_at. rewrite Hf, Hi. simpl. rewrite existsb_elem. split.
  - intros ([j b] & Hb & Hrev). destruct (_ || _) eqn:Eg; [done|].
    apply orb_false_iff in Eg as [[Hji Hk]%orb_false_iff Hsu].
    apply Nat.leb_gt in Hji. apply negb_false_iff, eqb_eq in Hk, Hsu.
    destruct (proj1 (evidence_at _ _ _ _ j (strip_change b) Hp)) as (rr & Hrr & Her); [eauto|].
    rewrite Hrr in Hrev. simpl in Hrev. exists rr, (strip_change b).
    split; [apply Hin; by eapply list_elem_of_lookup_2|]. split; [done|].
    split; [rewrite El in Hi, Hrr; by apply (order_lookup id l i j)|].
    split; [done|]. split; [done|]. by apply revokes_spec in Hrev.
  - intros (rr & b & Hrr & Hb & Hlt & Hk & Hsu & Hrev%revokes_spec).
    destruct (proj1 (list_elem_of_lookup _ _) (proj2 (Hin rr) Hrr)) as [j Hj].
    destruct (proj2 (evidence_at _ _ _ _ j b Hp)) as (b' & Hb' & <-); [eauto|].
    exists (j, b'). split; [done|]. rewrite Hj. simpl in *.
    assert (i < j) as Hij by (rewrite El in Hi, Hj; by apply (order_lookup id l i j r rr)).
    assert ((j <=? i)%nat = false) as -> by (apply Nat.leb_gt; lia).
    by rewrite Hk, Hsu, !eqb_refl.
Qed.

(** ** Approvals *)

Definition latest_time {K} `{Countable K} (l : list (K * Z)) : gmap K Z :=
  foldl (λ m kt, note_time m kt.1 kt.2) ∅ l.
Lemma latest_time_cases {K} `{Countable K} (l : list (K * Z)) k :
  match latest_time l !! k with
  | Some t => (k, t) ∈ l ∧ ∀ t', (k, t') ∈ l → (t' <= t)%Z
  | None => ∀ t, (k, t) ∉ l
  end.
Proof.
  induction l as [|[k' u] l IH] using rev_ind; [unfold latest_time; simpl; rewrite lookup_empty; set_solver|].
  unfold latest_time in *. rewrite foldl_app. simpl. set (m := foldl _ _ l) in *. unfold note_time.
  destruct (decide (k' = k)) as [->|Hne].
  - rewrite lookup_insert_eq. destruct (m !! k) as [v|].
    + destruct IH as [Hin Hmax]. split.
      * apply elem_of_app. rewrite list_elem_of_singleton.
        destruct (Z.max_spec v u) as [[_ ->]|[_ ->]]; auto.
      * intros t' [Ht%Hmax|[= ->]%list_elem_of_singleton]%elem_of_app; lia.
    + split; [apply elem_of_app; right; left|].
      intros t' [[]%IH|[= ->]%list_elem_of_singleton]%elem_of_app. done.
  - rewrite lookup_insert_ne by done. destruct (m !! k) as [v|]; [destruct IH as [Hin Hmax]; split|].
    + apply elem_of_app. auto.
    + intros t' [Ht%Hmax|[= <- _]%list_elem_of_singleton]%elem_of_app; done.
    + intros t [[]%IH|[= <- _]%list_elem_of_singleton]%elem_of_app. done.
Qed.
Lemma latest_time_spec {K} `{Countable K} (l : list (K * Z)) k t :
  latest_time l !! k = Some t ↔ (k, t) ∈ l ∧ ∀ t', (k, t') ∈ l → (t' <= t)%Z.
Proof.
  pose proof (latest_time_cases l k) as Hc. destruct (latest_time l !! k) as [v|].
  - destruct Hc as [Hin Hmax]. split; [by intros [= <-]|]. intros [Ht Htm]. f_equal.
    pose proof (Hmax _ Ht). pose proof (Htm _ Hin). lia.
  - split; [done|]. intros [[]%Hc _].
Qed.
Lemma foldl_note {A K} `{Countable K} (key : A → option K) (time : A → Z) (l : list A) :
  foldl (λ m x, match key x with Some k => note_time m k (time x) | None => m end) ∅ l =
  latest_time (filter_map (λ x, (λ k, (k, time x)) <$> key x) l).
Proof.
  induction l as [|x l IH] using rev_ind; [done|]. unfold latest_time, filter_map in *.
  rewrite omap_app, !foldl_app, IH. simpl. by destruct (key x).
Qed.
(** The latest of the times that [key] selects for [k]. *)
Definition latest_of {A K} (key : A → option K) (time : A → Z) (l : list A) (k : K) (t : Z) : Prop :=
  (∃ x, x ∈ l ∧ key x = Some k ∧ time x = t) ∧ ∀ x, x ∈ l → key x = Some k → (time x <= t)%Z.
Lemma latest_time_of {A K} `{Countable K} (key : A → option K) (time : A → Z) (l : list A) k t :
  latest_time (filter_map (λ x, (λ k, (k, time x)) <$> key x) l) !! k = Some t ↔ latest_of key time l k t.
Proof.
  rewrite latest_time_spec. unfold filter_map, latest_of.
  assert (∀ u, (k, u) ∈ omap (λ x, (λ k, (k, time x)) <$> key x) l ↔ ∃ x, x ∈ l ∧ key x = Some k ∧ time x = u) as Hin.
  { intros u. rewrite list_elem_of_omap. split.
    - intros (x & Hx & E). apply fmap_Some in E as (k' & Hk & [= -> ->]). eauto.
    - intros (x & Hx & Hk & <-). exists x. by rewrite Hk. }
  setoid_rewrite Hin. naive_solver.
Qed.

(** An approval of [subject] by the user [uid] of this machine that still counts. *)
Definition local_approval (p : Project) (subject : string) (uid : Z) (ia : nat * Attestation) : Prop :=
  ∃ r, p_records p !! ia.1 = Some r ∧ su_id (at_subject ia.2) = subject ∧ at_kind ia.2 = "approval" ∧
    is_revoked p (at_attestation_id ia.2) = false ∧ get (r_data r) "declassify" = None ∧
    starts_with "person:" (at_signer ia.2) = false ∧ r_machine r = p_machine p ∧ ac_uid (r_actor r) = uid.

Lemma approval_key_some p subject ia m uid :
  approval_key p subject ia = Some (m, uid) ↔ m = p_machine p ∧ local_approval p subject uid ia.
Proof.
  unfold approval_key, local_approval. destruct (p_records p !! ia.1) as [r|]; simpl; [|naive_solver].
  destruct (_ || _) eqn:E.
  - split; [done|]. intros (-> & r' & [= <-] & Hs & Hk & Hr & Hd & Hp & Hm & _).
    by rewrite Hs, Hk, Hr, Hd, Hp, Hm, !eqb_refl in E.
  - repeat (apply orb_false_iff in E as [E ?]).
    repeat match goal with H : negb (_ == _) = false |- _ => apply negb_false_iff, eqb_eq in H end.
    split.
    + intros [= <- <-]. split; [done|]. exists r. destruct (get (r_data r) "declassify"); done.
    + by intros (-> & r' & [= <-] & _ & _ & _ & _ & _ & <- & <-).
Qed.

Lemma approvals_spec p subject :
  StronglySorted (λ a b, clt a.1 b.1 = true) (approvals p subject) ∧
  ∀ uid t, (uid, t) ∈ approvals p subject ↔
    (∃ ia, ia ∈ p_attestations p ∧ local_approval p subject uid ia ∧ at_time ia.2 = t) ∧
    ∀ ia, ia ∈ p_attestations p → local_approval p subject uid ia → (at_time ia.2 <= t)%Z.
Proof.
  unfold approvals. cbv zeta. rewrite (foldl_note (approval_key p subject) (λ ia, at_time ia.2)).
  set (m := latest_time _).
  assert (∀ k t, m !! k = Some t → k.1 = p_machine p) as Hm.
  { intros [k u] t E. apply latest_time_of in E as [(x & _ & Hk & _) _].
    by apply approval_key_some in Hk as [-> _]. }
  split.
  - apply (sorted_strict fst).
    + apply (sort_by_sorted _ (λ _, True)); [intros; apply cle_total|intros; by eapply cle_trans|by apply Forall_true].
    + rewrite sort_by_perm, <-list_fmap_compose.
      assert ((fst ∘ λ kt : string * Z * Z, (kt.1.2, kt.2)) <$> entries m = snd <$> keys m) as ->.
      { unfold keys. by rewrite <-list_fmap_compose. }
      apply NoDup_fmap_2_strong; [|apply NoDup_keys].
      intros [a u] [b v] [t Ha]%elem_of_keys [t' Hb]%elem_of_keys E. simpl in E.
      apply Hm in Ha, Hb. simpl in *. congruence.
  - intros uid t. rewrite elem_of_sort_by, list_elem_of_fmap.
    trans (m !! (p_machine p, uid) = Some t).
    + split.
      * intros ([[a u] t'] & [= -> ->] & E%elem_of_entries). pose proof (Hm _ _ E) as Ea. simpl in Ea. by subst a.
      * intros E. exists ((p_machine p, uid), t). split; [done|]. by apply elem_of_entries.
    + unfold m. rewrite latest_time_of. unfold latest_of.
      setoid_rewrite approval_key_some. naive_solver.
Qed.

(** ** Approvals of persons *)

(** An approval of [subject] by the person [login] that still counts. *)
Definition person_approval (p : Project) (subject login : string) (ia : nat * Attestation) : Prop :=
  ∃ r, p_records p !! ia.1 = Some r ∧ at_signer ia.2 = "person:" +:+ login ∧ su_id (at_subject ia.2) = subject ∧
    at_kind ia.2 = "approval" ∧ is_revoked p (at_attestation_id ia.2) = false ∧ get (r_data r) "declassify" = None ∧
    pinned p r.
Lemma person_key_of_some p subject ia login :
  person_key_of p subject ia = Some login ↔ person_approval p subject login ia.
Proof.
  unfold person_key_of, person_approval, record_at. split.
  - intros H. destruct (strip_prefix _ _) as [l|] eqn:El; [|done]. apply strip_prefix_some in El. cbn in H.
    destruct (_ && _) eqn:E; [injection H as <-|done]. repeat (apply andb_true_iff in E as [E ?]).
    destruct (p_records p !! ia.1) as [r|]; [|done]. exists r. cbn in *.
    repeat match goal with
      | H : (_ == _) = true |- _ => apply eqb_eq in H
      | H : person_record_pinned _ _ = true |- _ => apply person_record_pinned_spec in H
      | H : negb _ = true |- _ => apply negb_true_iff in H end.
    destruct (get (r_data r) "declassify"); done.
  - intros (r & Hr & Hs & Hsu & Hk & Hv & Hd & Hp%person_record_pinned_spec).
    rewrite Hs, strip_prefix_app, Hsu, Hk, Hv, Hr. cbn. by rewrite !eqb_refl, Hp, Hd.
Qed.
Lemma person_approvals_spec p subject :
  NoDup (fst <$> person_approvals p subject) ∧
  ∀ login t, (login, t) ∈ person_approvals p subject ↔
    (∃ ia, ia ∈ p_attestations p ∧ person_approval p subject login ia ∧ at_time ia.2 = t) ∧
    ∀ ia, ia ∈ p_attestations p → person_approval p subject login ia → (at_time ia.2 <= t)%Z.
Proof.
  unfold person_approvals. rewrite (foldl_note (person_key_of p subject) (λ ia, at_time ia.2)).
  split; [apply NoDup_keys|]. intros login t. rewrite elem_of_entries, latest_time_of. unfold latest_of.
  setoid_rewrite person_key_of_some. done.
Qed.

(** Every piece of a person's evidence is an object in an attest record: the form in which
    [validate] binds the evidence to the person's request. *)
Definition plain_evidence (r : LogRecord) : Prop :=
  ∀ e, evidence_of r = Some e → starts_with "person:" (at_signer e) = true →
    r_op r = "attest" ∧ ∃ m, get (r_data r) "attestation" = Some (JObject m).

Lemma proven_unique r signed request signed' request' :
  proven r signed request → proven r signed' request' → signed' = signed ∧ request' = request.
Proof.
  intros (t & pk & k & Ht & Hpk & Hk & Hs & Hv & _) (t' & pk' & k' & Ht' & Hpk' & Hk' & Hs' & Hv' & _).
  simplify_eq. rewrite Hk in Hk'. injection Hk' as <-. rewrite Hs in Hs'. injection Hs' as <-.
  rewrite Hv in Hv'. by injection Hv' as <-.
Qed.
(** An approval without a declassification comes from an [Approve] request. *)
Lemma approve_action r m a :
  validate r = Ok tt → r_op r = "attest" → get (r_data r) "attestation" = Some (JObject m) →
  Attestation_from_value (JObject m) = Ok a → starts_with "person:" (at_signer a) = true →
  at_kind a = "approval" → get (r_data r) "declassify" = None →
  ∃ signed request comment, proven r signed request ∧ (rq_created request <= r_time r < rq_expires request)%Z ∧
    at_signer a = "person:" +:+ rq_person request ∧ at_time a = r_time r ∧
    rq_action request = Approve (su_id (at_subject a)) comment.
Proof.
  intros Hv Hop Hat Ha Hs Hkind Hd.
  destruct (attest_authorized_lemma r m a Hv Hop Hat Ha Hs) as (signed & request & Hpr & Ht & Hsig & _ & Hact).
  assert (at_time a = r_time r ∧ ∃ proof, get (r_data r) "request" = Some proof ∧
            validate_request r (r_data r) proof = Ok tt) as (Htime & proof & Hproof & Hvr).
  { destruct Hpr as (text & _ & _ & Hreq & _). split.
    - assert (validate_attestation r (r_data r) (JObject m) = Ok tt) as Hva.
      { unfold validate in Hv. inv_ok. unfold on_member in *. by rewrite Hat in *. }
      unfold validate_attestation in Hva. rewrite Ha in Hva. cbn [mbind result_bind] in Hva. inv_ok. lia.
    - exists (JString text). split; [done|]. unfold validate in Hv. inv_ok. unfold on_member in *. by rewrite Hreq in *. }
  destruct (validate_request_proven r proof Hproof Hvr) as (signed' & request' & Hpr' & Hm).
  destruct (proven_unique _ _ _ _ _ Hpr Hpr') as [-> ->].
  destruct Hm as [Hm _]; [by rewrite Hop|]. unfold action_matches in Hm.
  exists signed, request. destruct (rq_action request) as [st c|st c|st c| | | |]; try done.
  - destruct Hact as [-> _]. by exists c.
  - destruct Hact as [_ E]. congruence.
  - exfalso. injection Hm as [_ Hm]%andb_true_iff. unfold declassify_matches in Hm.
    destruct (rsplit_once _ _) as [[path pre]|]; [|done]. simpl in Hm.
    apply andb_true_iff in Hm as [Hm _]. unfold at_key in Hm. by rewrite Hd in Hm.
Qed.

Lemma evidence_person r m e :
  get (r_data r) "attestation" = Some (JObject m) → evidence_of r = Some e →
  ∃ a, Attestation_from_value (JObject m) = Ok a ∧ strip_change a = e.
Proof.
  intros Hm. unfold evidence_of, evidence_given. rewrite Hm.
  destruct (Attestation_from_value (JObject m)) as [a|] eqn:E; simpl; [|done]. intros [= <-]. eauto.
Qed.

Lemma person_approvals_proven id l machine p subject login t :
  Forall (λ r, Record_wf r = true) l → Forall plain_evidence l → from_records id l machine = Ok p →
  (login, t) ∈ person_approvals p subject →
  ∃ r keys public signed request comment, r ∈ l ∧ t = r_time r ∧
    setting p "person.keys" = Some keys ∧ as_str keys.[login] = Some public ∧
    as_str (r_data r).["person_key"] = Some public ∧
    proven r signed request ∧ rq_person request = login ∧ rq_action request = Approve subject comment ∧
    (rq_created request <= t < rq_expires request)%Z.
Proof.
  intros Hwf Hplain Hp Hin. unfold person_approvals in Hin.
  rewrite (foldl_note (person_key_of p subject) (λ ia, at_time ia.2)) in Hin.
  apply elem_of_entries, latest_time_of in Hin as [([i a] & Hia & Hk & <-) _].
  unfold person_key_of in Hk. cbn [fst snd] in *. inv_ok.
  rename H into Hlogin, H2 into Hdec, H3 into Hpin, H5 into Hkind. apply strip_prefix_some in Hlogin.
  destruct (proj1 (evidence_at _ _ _ _ i (strip_change a) Hp)) as (r & Hr & He); [eauto|].
  unfold record_at in Hpin, Hdec. rewrite Hr in Hpin, Hdec. simpl in Hpin, Hdec.
  destruct (proj1 (person_record_pinned_spec p r) Hpin) as (login' & keys & public & Hname & Hkeys & Hpub & Hkey & Hv).
  assert (r ∈ l) as Hrl.
  { destruct (from_records_log _ _ _ _ Hwf Hp) as [Hc El]. apply elem_of_log_of; [apply Hc|].
    rewrite <-El. by eapply list_elem_of_lookup_2. }
  rewrite Forall_forall in Hplain.
  destruct (Hplain r Hrl _ He) as (Hop & m & Hm); [simpl; rewrite Hlogin; by apply starts_with_true; eexists|].
  destruct (evidence_person r m _ Hm He) as (a' & Ha' & Es).
  assert (at_signer a' = at_signer a ∧ at_kind a' = at_kind a ∧ at_subject a' = at_subject a ∧ at_time a' = at_time a)
    as (Esig & Ekind & Esub & Etime) by (by injection Es).
  destruct (approve_action r m a') as (signed & request & comment & Hpr & Ht & Hsig & Htime & Hact);
    [done|done|done|done|rewrite Esig, Hlogin; by apply starts_with_true; eexists|congruence
    |by destruct (get (r_data r) "declassify")|].
  assert (rq_person request = login) as <-.
  { rewrite Esig, Hlogin in Hsig. by simplify_eq. }
  assert (login' = rq_person request) as ->.
  { destruct Hpr as (_ & _ & _ & _ & _ & _ & _ & _ & _ & E & _). rewrite Hname in E. by simplify_eq. }
  exists r, keys, public, signed, request, comment. rewrite <-Etime, Htime, Hact, Esub. done.
Qed.

(** ** Checks *)

(** An unrevoked check of [subject] that ran exactly [argv] and ended with [code]. *)
Definition check_stands (p : Project) (subject : string) (argv : list string) (code : Z) : Prop :=
  ∃ a r, a ∈ attestations p subject (Some "check") ∧ is_revoked p (at_attestation_id a) = false ∧
    record_of p (at_attestation_id a) = Some r ∧ argv_matches (check_result r) argv = true ∧
    as_i64 (check_result r).["exit"] = Some code.
Lemma check_exit_some p subject argv wanted code :
  check_exit p subject argv wanted = Some code →
  check_stands p subject argv code ∧ is_none_or wanted (λ v, (v =? code)%Z) = true.
Proof.
  unfold check_exit, check_stands.
  assert (∀ a, a ∈ rev (attestations p subject (Some "check")) → a ∈ attestations p subject (Some "check")) as Hin
    by (intros a; rewrite list_elem_of_In, <-in_rev; by rewrite list_elem_of_In).
  induction (rev (attestations p subject (Some "check"))) as [|a l IH]; [done|]. cbn [check_exit_go].
  assert (check_exit_go p argv wanted l = Some code → check_stands p subject argv code ∧
            is_none_or wanted (λ v, (v =? code)%Z) = true) as IH'.
  { apply IH. intros b Hb. apply Hin. by right. }
  destruct (is_revoked p (at_attestation_id a)) eqn:Er; [done|].
  destruct (record_of p (at_attestation_id a)) as [r|] eqn:Hr; [|done]. cbn [mbind option_bind].
  destruct (argv_matches (check_result r) argv) eqn:Hm; [|done].
  destruct (as_i64 (check_result r).["exit"]) as [c|] eqn:Hc; [|done].
  destruct (is_none_or wanted (λ v, (v =? c)%Z)) eqn:Hw; [|done]. intros [= <-]. split; [|done].
  exists a, r. split; [apply Hin; left|done].
Qed.
End facts.

(** * The claims *)

(** C31. Revocation is decided by the records alone: evidence is revoked exactly when a record that
    comes later in application order gives a revocation of the same subject, which names the
    evidence or withdraws an approval, and which belongs to the same machine and user as the
    evidence, or, for a person's evidence, has the same signer in a valid record of a person with
    the key that the project pins. *)
Theorem revocation_exact `{HU : Uuid, HE : Encodings, HC : Crypto, HJ : JsonText, HL : Unicode}
    id l machine p r a :
  Forall (λ r, Record_wf r = true) l → Forall (λ r, validate r = Ok tt) l →
  from_records id l machine = Ok p → r ∈ l → evidence_of r = Some a →
  is_revoked p (r_id r) = true ↔ revoked_in p l r a.
Proof. apply is_revoked_spec. Qed.

(** Records of other machines or users never revoke a machine's evidence and never bring it
    back, whatever their times are and whichever machine reads them. *)
Theorem foreign_records_keep_evidence
    `{HU : Uuid, HE : Encodings, HC : Crypto, HJ : JsonText, HL : Unicode} id l l' m m' p p' r a :
  Forall (λ r, Record_wf r = true) l' → Forall (λ r, validate r = Ok tt) l' →
  from_records id l m = Ok p → from_records id l' m' = Ok p' →
  (∀ x, x ∈ l → x ∈ l') → r ∈ l → evidence_of r = Some a → starts_with "person:" (at_signer a) = false →
  (∀ x, x ∈ l' → x ∉ l → r_machine x ≠ r_machine r ∨ ac_uid (r_actor x) ≠ ac_uid (r_actor r)) →
  is_revoked p' (r_id r) = is_revoked p (r_id r).
Proof.
  intros Hwf Hv Hp Hp' Hsub Hr Ha Hs Hnew. rewrite !Forall_forall in Hwf, Hv.
  apply eq_true_iff_eq.
  rewrite (is_revoked_spec id l' m' p' r a), (is_revoked_spec id l m p r a); try done;
    try (apply Forall_forall; by auto); [|by auto].
  unfold revoked_in, revoker. rewrite Hs. split.
  - intros (rr & b & Hrr & Hb & Hlt & Hk & Hsu & Ho & Hrev). exists rr, b. split; [|done].
    destruct (decide (rr ∈ l)) as [|Hn]; [done|]. destruct Ho. by destruct (Hnew rr Hrr Hn).
  - intros (rr & b & Hrr & ?). exists rr, b. split; [by auto|done].
Qed.

(** C12. When every person's evidence is a JSON object in an attest record, a person approval is
    authentic: the person whom it names signed, with the key pinned for that person, an unexpired
    request to approve exactly this state. *)
Theorem person_approval_authentic
    `{HU : Uuid, HE : Encodings, HC : Crypto, HJ : JsonText, HL : Unicode} id l machine p subject login t :
  Forall (λ r, Record_wf r = true) l → Forall plain_evidence l → from_records id l machine = Ok p →
  (login, t) ∈ person_approvals p subject →
  ∃ r keys public signed request comment, r ∈ l ∧ t = r_time r ∧
    setting p "person.keys" = Some keys ∧ as_str keys.[login] = Some public ∧
    as_str (r_data r).["person_key"] = Some public ∧
    proven r signed request ∧ rq_person request = login ∧ rq_action request = Approve subject comment ∧
    (rq_created request <= t < rq_expires request)%Z.
Proof. apply person_approvals_proven. Qed.

(** ** Samples *)

Definition pin_record : LogRecord :=
  mkRecord (uuid_n "7") sample_uuid 1 1 "config" sample_uuid (mkActor 0 "" None) [] ∅
    (JObject [("config", JObject [("person.keys", JObject [("ann@example.com", JString (hex_text person_key))])])]).
Definition person_project : Project :=
  default (empty_project "" "")
    (ok (@from_records uuid_plain encodings_hex crypto_plain person_text ascii_lowercase sample_uuid
           [pin_record; approval_record] sample_uuid)).
(** The record of a refused request of Ann that carries an approval of another state by Bob. *)
Definition forged_record : LogRecord :=
  mkRecord (uuid_n "6") sample_uuid 3 9 "request.refused" sample_uuid
    (mkActor u32_max "person:ann@example.com" None) [] ∅
    (JObject [("attestation", JObject
                [("attestation_id", JString (uuid_n "6")); ("format", JInt 1); ("kind", JString "approval");
                 ("payload_digest", JString (hex_text (fit 32 "x"))); ("signer", JString "person:bob@example.com");
                 ("subject", JObject [("id", JString (uuid_n "9")); ("kind", JString "state")]); ("time", JInt 9)]);
              ("person_key", JString (hex_text person_key)); ("reason", JString "late");
              ("request", JString person_bytes); ("request_digest", JString (hex_text (fit 32 person_bytes)));
              ("request_id", JString sample_uuid)]).

(** A person approval can be forged: the record of a refused request of one person may carry an
    approval of any state in the name of another person. It passes validation, and the project
    counts the approval although no key is known for that person. *)
Theorem person_approval_forged :
  ∃ p, @validate uuid_plain encodings_hex crypto_plain person_text ascii_lowercase forged_record = Ok tt ∧
    @from_records uuid_plain encodings_hex crypto_plain person_text ascii_lowercase sample_uuid
      [pin_record; forged_record] sample_uuid = Ok p ∧
    @person_approvals uuid_plain encodings_hex crypto_plain person_text ascii_lowercase p (uuid_n "9")
      = [("bob@example.com", 9%Z)] ∧
    ∀ keys, setting p "person.keys" = Some keys → as_str keys.["bob@example.com"] = None.
Proof.
  eexists. split; [vm_compute; reflexivity|]. split; [vm_compute; reflexivity|].
  split; [vm_compute; reflexivity|]. intros keys E. vm_compute in E. by injection E as <-.
Qed.
Lemma person_approval_authentic_witness :
  @person_approvals uuid_plain encodings_hex crypto_plain person_text ascii_lowercase person_project sample_uuid
    = [("ann@example.com", 9%Z)] ∧
  ∃ r keys public signed request comment, r ∈ [pin_record; approval_record] ∧ 9%Z = r_time r ∧
    setting person_project "person.keys" = Some keys ∧ as_str keys.["ann@example.com"] = Some public ∧
    as_str (r_data r).["person_key"] = Some public ∧
    @proven uuid_plain encodings_hex crypto_plain person_text r signed request ∧
    rq_person request = "ann@example.com" ∧ rq_action request = Approve sample_uuid comment ∧
    (rq_created request <= 9 < rq_expires request)%Z.
Proof.
  assert (@person_approvals uuid_plain encodings_hex crypto_plain person_text ascii_lowercase person_project
    sample_uuid = [("ann@example.com", 9%Z)]) as E by (vm_compute; reflexivity).
  split; [exact E|].
  apply (@person_approval_authentic uuid_plain encodings_hex crypto_plain person_text ascii_lowercase sample_uuid
    [pin_record; approval_record] sample_uuid).
  - by repeat constructor.
  - constructor; [intros e He; by vm_compute in He|]. constructor; [|constructor].
    intros e _ _. split; [done|]. by eexists.
  - vm_compute. reflexivity.
  - rewrite E. left.
Defined.

(** A machine's approval, its withdrawal by the same user, and one by another machine. *)
Definition vote (id machine op : string) (seq time : Z) : LogRecord :=
  mkRecord id machine seq time op sample_uuid (mkActor 5 "" None) [] ∅ (JObject [("state", JString (uuid_n "9"))]).
Definition vote_yes : LogRecord := vote (uuid_n "1") (uuid_n "2") "approve" 1 3.
Definition vote_no : LogRecord := vote (uuid_n "3") (uuid_n "2") "approve.withdraw" 2 4.
Definition vote_foreign : LogRecord := vote (uuid_n "4") (uuid_n "5") "approve.withdraw" 1 4.
Definition vote_evidence : Attestation :=
  mkAttestation 1 (uuid_n "1") (mkSubject "state" (uuid_n "9")) None "approval" (hex_text (fit 32 "")) None
    (uuid_n "2") 3.
Definition vote_project (l : list LogRecord) : Project :=
  default (empty_project "" "")
    (ok (@from_records uuid_plain encodings_hex crypto_plain no_text ascii_lowercase sample_uuid l (uuid_n "2"))).

Lemma revocation_exact_witness :
  @is_revoked uuid_plain encodings_hex crypto_plain no_text ascii_lowercase
    (vote_project [vote_no; vote_yes]) (uuid_n "1") = true ∧
  @revoked_in uuid_plain encodings_hex crypto_plain no_text ascii_lowercase
    (vote_project [vote_no; vote_yes]) [vote_no; vote_yes] vote_yes vote_evidence.
Proof.
  assert (@is_revoked uuid_plain encodings_hex crypto_plain no_text ascii_lowercase
    (vote_project [vote_no; vote_yes]) (uuid_n "1") = true) as E by (vm_compute; reflexivity).
  split; [exact E|].
  apply (@revocation_exact uuid_plain encodings_hex crypto_plain no_text ascii_lowercase sample_uuid
    [vote_no; vote_yes] (uuid_n "2")); [by repeat constructor| | | | |exact E].
  - repeat constructor; vm_compute; reflexivity.
  - vm_compute. reflexivity.
  - right. left.
  - vm_compute. reflexivity.
Defined.

(** The record of an approval that nobody signed: the evidence is written as a JSON array. *)
Definition unsigned_record : LogRecord :=
  mkRecord (uuid_n "6") sample_uuid 3 9 "attest" sample_uuid (mkActor 0 "person:ann@example.com" None) [] ∅
    (JObject [("attestation", JArray
                [JInt 1; JString (uuid_n "6"); JArray [JString "state"; JString (uuid_n "9")]; JNull;
                 JString "approval"; JString (hex_text (fit 32 "x")); JNull; JString "person:ann@example.com"; JInt 9]);
              ("person_key", JString (hex_text person_key))]).
(** A person approval needs no signature at all when its evidence is written as a JSON array,
    which the typed reader accepts as well as an object: the check for a signed request looks
    the signer up by name and finds none. The record below has no request, passes validation and
    counts as an approval by the person whose public key it quotes. *)
Theorem person_approval_unsigned :
  ∃ p, @validate uuid_plain encodings_hex crypto_plain person_text ascii_lowercase unsigned_record = Ok tt ∧
    get (r_data unsigned_record) "request" = None ∧
    @from_records uuid_plain encodings_hex crypto_plain person_text ascii_lowercase sample_uuid
      [pin_record; unsigned_record] sample_uuid = Ok p ∧
    @person_approvals uuid_plain encodings_hex crypto_plain person_text ascii_lowercase p (uuid_n "9")
      = [("ann@example.com", 9%Z)].
Proof.
  eexists. repeat (split; [vm_compute; reflexivity|]). vm_compute. reflexivity.
Qed.
