(* ===== verification/Glob.v ===== *)
(** Name and path patterns ([layr-model/src/policy.rs]: [glob], [path_matches]).

    The code matches with two cursors and a memory of the last star; the model keeps the rest of
    the pattern and of the text instead of the cursors. The properties relate the loop to a
    declarative meaning of patterns. *)

From S2P Require Import Prelude Strs.

Definition star : ascii := "*".

(** [while k < set.len()]: whether a byte is in the set between the brackets. *)
Fixpoint set_hit (c : ascii) (set : list ascii) : bool :=
  match set with
  | [] => false
  | a :: ((b :: d :: rest') as rest) =>
      if Ascii.eqb b "-"
      then (byte_val a <=? byte_val c)%Z && (byte_val c <=? byte_val d)%Z || set_hit c rest'
      else Ascii.eqb c a || set_hit c rest
  | a :: rest => Ascii.eqb c a || set_hit c rest
  end.
Definition set_match (c : ascii) (set : list ascii) : bool :=
  match set with
  | a :: set' => if Ascii.eqb a "!" || Ascii.eqb a "^" then negb (set_hit c set') else set_hit c set
  | [] => false
  end.
(** The pattern item at the front of [p] against the byte [c]: its length if it matches. *)
Definition item (p : list ascii) (c : ascii) : option nat :=
  match p with
  | [] => None
  | x :: rest =>
      if Ascii.eqb x "?" then Some 1
      else if Ascii.eqb x "[" then
        match position (Ascii.eqb "]") rest with
        | Some off => if set_match c (take off rest) then Some (off + 2) else None
        | None => if Ascii.eqb c "[" then Some 1 else None
        end
      else if Ascii.eqb x c then Some 1 else None
  end.

(** The variables of the loop: the rest of the pattern and of the text, and, for the last star,
    the rest of the pattern after it and the text that it has not taken yet. *)
Record Cursor := mkCursor {
  cu_star : option (list ascii * list ascii);
  cu_pat : list ascii;
  cu_text : list ascii }.

(** One turn of the loop, or its result. *)
Definition glob_step (u : Cursor) : Cursor + bool :=
  let retry :=
    match cu_star u with
    | Some (ps, ss) => inl (mkCursor (Some (ps, drop 1 ss)) ps (drop 1 ss))
    | None => inr false
    end in
  match cu_text u with
  | [] => inr (forallb (Ascii.eqb star) (cu_pat u))
  | c :: s =>
      match cu_pat u with
      | [] => retry
      | x :: p =>
          if Ascii.eqb x star then inl (mkCursor (Some (p, cu_text u)) p (cu_text u))
          else match item (cu_pat u) c with
               | Some n => inl (mkCursor (cu_star u) (drop n (cu_pat u)) s)
               | None => retry
               end
      end
  end.
Fixpoint glob_go (fuel : nat) (u : Cursor) : option bool :=
  match fuel with
  | 0 => None
  | S fuel =>
      match glob_step u with
      | inl u => glob_go fuel u
      | inr b => Some b
      end
  end.
(** Every retry gives the last star one more byte, so that there are at most as many as bytes;
    between two of them pattern and text only shrink. *)
Definition glob_fuel (p s : list ascii) : nat :=
  let m := length p + length s + 1 in (length s + 1) * m + m.
Definition glob_bytes (p s : list ascii) : bool :=
  default false (glob_go (glob_fuel p s) (mkCursor None p s)).
Definition glob (pat s : string) : bool :=
  glob_bytes (String.list_ascii_of_string pat) (String.list_ascii_of_string s).

(** A path rule matches the path itself, everything below a folder, or a glob. *)
Definition path_matches (pattern path : string) : bool :=
  let p := trim_end_matches "/" pattern in
  (path == p) || starts_with (p +:+ "/") path || glob p path.

(** * Properties *)

(** The meaning of a pattern: a star takes any bytes, any other item one byte. *)
Inductive matches : list ascii → list ascii → Prop :=
| m_end : matches [] []
| m_star_end p s : matches p s → matches (star :: p) s
| m_star_more p c s : matches (star :: p) s → matches (star :: p) (c :: s)
| m_item p c n s : head p ≠ Some star → item p c = Some n → matches (drop n p) s → matches p (c :: s).

(** The length of the item at the front of a pattern does not depend on the byte. *)
Definition item_len (p : list ascii) : nat :=
  match p with
  | [] => 0
  | x :: rest =>
      if Ascii.eqb x "?" then 1
      else if Ascii.eqb x "[" then
        match position (Ascii.eqb "]") rest with Some off => off + 2 | None => 1 end
      else 1
  end.
Lemma item_len_eq p c n : item p c = Some n → n = item_len p ∧ 0 < n ∧ p ≠ [].
Proof.
  unfold item, item_len. destruct p as [|x rest]; [done|].
  intros E. repeat case_match; simplify_eq; split_and!; (lia || done).
Qed.

Lemma matches_star p s k : matches p (drop k s) → matches (star :: p) s.
Proof.
  revert s. induction k as [|k IH]; intros s Hm; [by constructor|].
  destruct s as [|c s]; [constructor; exact Hm|]. apply m_star_more. by apply IH.
Qed.
Lemma matches_star_inv p s : matches (star :: p) s → ∃ k, k ≤ length s ∧ matches p (drop k s).
Proof.
  intros Hm. remember (star :: p) as q eqn:E. induction Hm as [|q s Hm _|q c s Hm IH|q c n s Hh Hi Hm _];
    simplify_eq.
  - exists 0. split; [lia|done].
  - destruct (IH eq_refl) as (k & Hk & Hmk). exists (S k). split; [simpl; lia|done].
Qed.
Lemma matches_nil p : matches p [] ↔ forallb (Ascii.eqb star) p = true.
Proof.
  split.
  - intros Hm. remember [] as s eqn:E. induction Hm; simplify_eq; [done|]. simpl. by rewrite IHHm.
  - induction p as [|x p IH]; cbn [forallb]; [constructor|]. intros [<-%Ascii.eqb_eq Hp]%andb_true_iff.
    constructor. auto.
Qed.
Lemma matches_item p c s :
  head p ≠ Some star → matches p (c :: s) ↔ ∃ n, item p c = Some n ∧ matches (drop n p) s.
Proof.
  intros Hh. split; [|intros (n & Hi & Hm); by eapply m_item].
  intros Hm. inversion Hm; simplify_eq; eauto.
Qed.

(** The invariant of the loop: since the last star, [k] items took [k] bytes. *)
Inductive items : nat → list ascii → list ascii → Prop :=
| items_none p : items 0 p p
| items_more k p q : p ≠ [] → head p ≠ Some star → items k (drop (item_len p) p) q → items (S k) p q.

Lemma items_snoc k p q : items k p q → q ≠ [] → head q ≠ Some star → items (S k) p (drop (item_len q) q).
Proof. induction 1; intros Hq Hh; constructor; auto. constructor. Qed.
Lemma items_matches k p q s : items k p q → matches p s → k ≤ length s ∧ matches q (drop k s).
Proof.
  intros Hi. revert s. induction Hi as [p|k p q Hp Hh _ IH]; intros s Hm; [split; [lia|done]|].
  destruct s as [|c s].
  - apply matches_nil in Hm. destruct p as [|x p]; [done|]. cbn [forallb] in Hm.
    apply andb_true_iff in Hm as [<-%Ascii.eqb_eq _]. done.
  - apply matches_item in Hm as (n & Hn & Hm); [|done].
    destruct (item_len_eq _ _ _ Hn) as [-> _]. destruct (IH _ Hm). simpl. split; [lia|done].
Qed.

(** Ways to match that the star can still give: it takes at least one more byte. *)
Definition later (u : Cursor) : Prop :=
  match cu_star u with
  | Some (ps, ss) => ∃ d, 0 < d ∧ d ≤ length ss ∧ matches ps (drop d ss)
  | None => False
  end.
Definition loop_inv (u : Cursor) : Prop :=
  match cu_star u with
  | Some (ps, ss) => ∃ k, k ≤ length ss ∧ items k ps (cu_pat u) ∧ cu_text u = drop k ss
  | None => True
  end.
Definition accepts (u : Cursor) : Prop := matches (cu_pat u) (cu_text u) ∨ later u.

(** A retry: when the cursors do not match, only a longer star can. *)
Lemma retry_inv u ps ss :
  loop_inv u → cu_star u = Some (ps, ss) → cu_text u ≠ [] → ¬ matches (cu_pat u) (cu_text u) →
  loop_inv (mkCursor (Some (ps, drop 1 ss)) ps (drop 1 ss)) ∧
  (accepts u ↔ accepts (mkCursor (Some (ps, drop 1 ss)) ps (drop 1 ss))).
Proof.
  unfold loop_inv, accepts, later. intros Hinv Hs Ht Hm. rewrite Hs in *. simpl.
  destruct Hinv as (k & Hk & Hi & Et). split.
  - exists 0. split; [lia|]. split; [constructor|done].
  - setoid_rewrite drop_drop. rewrite length_drop. split.
    + intros [?|(d & Hd & Hle & Hmd)]; [done|].
      destruct (decide (d = 1)) as [->|Hne]; [by left|right].
      exists (d - 1). replace (1 + (d - 1)) with d by lia. split; [lia|]. split; [lia|done].
    + intros [Hm1|(d & Hd & Hle & Hmd)]; right.
      * exists 1. split; [lia|]. split; [|done]. destruct ss; [by rewrite drop_nil in Et|simpl; lia].
      * exists (1 + d). split; [lia|]. split; [lia|done].
Qed.
(** A new star: whatever the star before could still give, the new one gives too. *)
Lemma star_inv u p :
  loop_inv u → cu_pat u = star :: p → cu_text u ≠ [] →
  loop_inv (mkCursor (Some (p, cu_text u)) p (cu_text u)) ∧
  (accepts u ↔ accepts (mkCursor (Some (p, cu_text u)) p (cu_text u))).
Proof.
  unfold loop_inv, accepts, later. intros Hinv Hp Ht. simpl. split.
  { exists 0. split; [lia|]. split; [constructor|done]. }
  assert (matches (star :: p) (cu_text u) ↔
    matches p (cu_text u) ∨ ∃ d, 0 < d ∧ d ≤ length (cu_text u) ∧ matches p (drop d (cu_text u))) as Hstar.
  { split.
    - intros (k & Hk & Hm)%matches_star_inv. destruct k as [|k]; [by left|right].
      exists (S k). split; [lia|done].
    - intros [Hm|(d & _ & _ & Hm)]; [by constructor|by eapply matches_star]. }
  rewrite Hp, <-Hstar. split; [|by left]. intros [?|Hl]; [done|].
  destruct (cu_star u) as [[ps ss]|]; [|done]. destruct Hinv as (k & Hk & Hi & ->).
  destruct Hl as (d & Hd & Hle & Hm). rewrite Hp in Hi.
  destruct (items_matches _ _ _ _ Hi Hm) as [Hkd Hmd].
  apply matches_star_inv in Hmd as (e & He & Hme).
  apply (matches_star _ _ (d + e)). do 2 rewrite drop_drop in Hme. rewrite drop_drop.
  by replace (k + (d + e)) with (d + (k + e)) by lia.
Qed.
Lemma item_inv u x p c s n :
  loop_inv u → cu_text u = c :: s → cu_pat u = x :: p → x ≠ star → item (cu_pat u) c = Some n →
  loop_inv (mkCursor (cu_star u) (drop n (cu_pat u)) s) ∧
  (accepts u ↔ accepts (mkCursor (cu_star u) (drop n (cu_pat u)) s)).
Proof.
  intros Hinv Et Ep Hx Hn. destruct (item_len_eq _ _ _ Hn) as (En & _ & Hne).
  assert (head (cu_pat u) ≠ Some star) as Hh by (rewrite Ep; simpl; congruence). split.
  - unfold loop_inv in *. simpl. destruct (cu_star u) as [[ps ss]|]; [|done].
    destruct Hinv as (k & Hk & Hi & E). exists (S k). rewrite Et in E. split_and!.
    + assert (length (c :: s) = length ss - k) as El by (by rewrite E, length_drop). simpl in El. lia.
    + rewrite En. by apply items_snoc.
    + rewrite <-Nat.add_1_r, <-drop_drop, <-E. done.
  - unfold accepts, later. simpl. rewrite Et, matches_item by done. rewrite Hn. naive_solver.
Qed.
Lemma glob_step_inv u u' : loop_inv u → glob_step u = inl u' → loop_inv u' ∧ (accepts u ↔ accepts u').
Proof.
  intros Hinv. unfold glob_step. destruct (cu_text u) as [|c s] eqn:Et; [done|].
  destruct (cu_pat u) as [|x p] eqn:Ep.
  - destruct (cu_star u) as [[ps ss]|] eqn:Es; [|done]. intros [= <-].
    apply (retry_inv u ps ss); [done|done|by rewrite Et|]. rewrite Et, Ep. intros Hm. inversion Hm; simplify_eq.
  - destruct (Ascii.eqb x star) eqn:Ex.
    + apply Ascii.eqb_eq in Ex as ->. intros [= <-]. rewrite <-Et. apply star_inv; [done|done|by rewrite Et].
    + apply Ascii.eqb_neq in Ex. rewrite <-Ep. destruct (item (cu_pat u) c) as [n|] eqn:En.
      * intros [= <-]. by apply (item_inv u x p c s n).
      * destruct (cu_star u) as [[ps ss]|] eqn:Es; [|done]. intros [= <-].
        apply (retry_inv u ps ss); [done|done|by rewrite Et|]. rewrite Et.
        rewrite matches_item by (rewrite Ep; simpl; congruence). rewrite En. naive_solver.
Qed.
Lemma glob_step_done u b : loop_inv u → glob_step u = inr b → b = true ↔ accepts u.
Proof.
  intros Hinv. unfold glob_step, accepts. destruct (cu_text u) as [|c s] eqn:Et.
  - intros [= <-]. rewrite <-matches_nil. split; [auto|]. intros [?|Hl]; [done|]. exfalso.
    unfold later, loop_inv in *. destruct (cu_star u) as [[ps ss]|]; [|done].
    destruct Hinv as (k & Hk & Hi & E), Hl as (d & Hd & Hle & Hm).
    destruct (items_matches _ _ _ _ Hi Hm) as [Hkd _]. rewrite Et in E.
    assert (length ss - k = 0) as E0 by (by rewrite <-length_drop, <-E). rewrite length_drop in Hkd. lia.
  - destruct (cu_pat u) as [|x p] eqn:Ep.
    + unfold later. destruct (cu_star u) as [[ps ss]|]; [done|]. intros [= <-]. split; [done|].
      intros [Hm|[]]. inversion Hm; simplify_eq.
    + destruct (Ascii.eqb x star) eqn:Ex; [done|]. apply Ascii.eqb_neq in Ex. rewrite <-Ep.
      destruct (item (cu_pat u) c) as [n|] eqn:En; [done|]. unfold later.
      destruct (cu_star u) as [[ps ss]|]; [done|]. intros [= <-]. split; [done|].
      rewrite matches_item by (rewrite Ep; simpl; congruence). rewrite En. naive_solver.
Qed.
Lemma glob_go_spec fuel u b : loop_inv u → glob_go fuel u = Some b → b = true ↔ accepts u.
Proof.
  revert u. induction fuel as [|fuel IH]; intros u Hinv; simpl; [done|].
  destruct (glob_step u) as [u'|b'] eqn:E.
  - destruct (glob_step_inv u u' Hinv E) as [Hinv' ->]. by apply IH.
  - intros [= <-]. by apply glob_step_done.
Qed.

(** ** The loop ends *)

(** Retries still possible, and what the cursors have left, for a pattern and a text of together
    fewer than [m] bytes and a text of [n] bytes. *)
Definition weight (m n : nat) (u : Cursor) : nat :=
  (match cu_star u with Some (_, ss) => length ss | None => n + 1 end) * m
  + length (cu_pat u) + length (cu_text u).
Definition small (m n : nat) (u : Cursor) : Prop :=
  length (cu_pat u) + n < m ∧ length (cu_text u) ≤ n ∧
  match cu_star u with
  | Some (ps, ss) => length ps + n < m ∧ length ss ≤ n ∧ length (cu_text u) ≤ length ss
  | None => True
  end.
Lemma glob_step_small m n u u' :
  small m n u → glob_step u = inl u' → small m n u' ∧ weight m n u' < weight m n u.
Proof.
  unfold small, weight, glob_step. destruct u as [st p s]. simpl.
  intros (Hp & Ht & Hs). destruct s as [|c s]; [done|].
  assert (∀ ps ss, st = Some (ps, ss) → @inl Cursor bool (mkCursor (Some (ps, drop 1 ss)) ps (drop 1 ss)) = inl u' →
    small m n u' ∧ weight m n u' < weight m n (mkCursor st p (c :: s))) as Hretry.
  { intros ps ss -> [= <-]. unfold small, weight. simpl. rewrite length_drop. simpl in *. split; [lia|].
    destruct ss as [|c' ss]; simpl in *; [lia|]. rewrite Nat.sub_0_r. nia. }
  unfold small, weight in Hretry. simpl in Hretry.
  destruct p as [|x p]; [destruct st as [[ps ss]|]; [by eapply Hretry|done]|].
  destruct (Ascii.eqb x star).
  - intros [= <-]. simpl in *. split; [lia|]. destruct st as [[ps ss]|]; nia.
  - destruct (item (x :: p) c) as [k|] eqn:Ei.
    + intros [= <-]. destruct (item_len_eq _ _ _ Ei) as (_ & Hk & _). simpl in *.
      rewrite !length_drop. simpl. split; [destruct st as [[ps ss]|]; lia|lia].
    + destruct st as [[ps ss]|]; [by eapply Hretry|done].
Qed.
Lemma glob_go_ends m n fuel u : small m n u → weight m n u < fuel → is_Some (glob_go fuel u).
Proof.
  revert u. induction fuel as [|fuel IH]; intros u Hs Hw; [lia|]. simpl.
  destruct (glob_step u) as [u'|b] eqn:E; [|by eexists].
  destruct (glob_step_small m n u u' Hs E). apply IH; [done|lia].
Qed.

Lemma glob_bytes_spec p s :
  glob_go (glob_fuel p s) (mkCursor None p s) = Some (glob_bytes p s) ∧ (glob_bytes p s = true ↔ matches p s).
Proof.
  unfold glob_bytes.
  destruct (glob_go_ends (length p + length s + 1) (length s) (glob_fuel p s) (mkCursor None p s)) as [b E].
  - unfold small. simpl. lia.
  - unfold weight, glob_fuel. simpl. lia.
  - rewrite E. split; [done|]. simpl. rewrite (glob_go_spec _ _ _ (I : loop_inv (mkCursor None p s)) E).
    unfold accepts, later. simpl. tauto.
Qed.

(** C16. [glob] ends and decides the meaning of patterns: remembering the last star only and letting
    it take one byte more after every mismatch finds a match whenever there is one. A path rule
    matches exactly the path, the paths below it, and the paths that its pattern matches. *)
Theorem glob_exact (pat s : string) :
  let p := String.list_ascii_of_string pat in
  let t := String.list_ascii_of_string s in
  glob_go (glob_fuel p t) (mkCursor None p t) = Some (glob pat s) ∧
  (glob pat s = true ↔ matches p t) ∧
  (path_matches pat s = true ↔
     s = trim_end_matches "/" pat ∨ (∃ below, s = trim_end_matches "/" pat +:+ "/" +:+ below) ∨
     matches (String.list_ascii_of_string (trim_end_matches "/" pat)) t).
Proof.
  intros p t. destruct (glob_bytes_spec p t) as [Hgo Hm]. split; [exact Hgo|]. split; [exact Hm|].
  unfold path_matches. cbv zeta. rewrite !orb_true_iff, eqb_true, starts_with_true.
  unfold glob. fold t. rewrite (proj2 (glob_bytes_spec _ t)). setoid_rewrite str_app_assoc. tauto.
Qed.
