(* ===== verification/Policy.v ===== *)
(** Access policy from signed settings ([layr-model/src/policy.rs]). *)

From S2P Require Import Prelude Strs Json Canonical Types Extern Format Request Validation Project Queries Glob.

Inductive Role := RNone | Reader | Writer | Maintainer | Admin.
#[export] Instance Role_eq_dec : EqDecision Role.
Proof. solve_decision. Defined.
(** The derived order of the variants. *)
Definition Role_rank (r : Role) : Z :=
  match r with RNone => 0 | Reader => 1 | Writer => 2 | Maintainer => 3 | Admin => 4 end.
Definition role_le (a b : Role) : bool := (Role_rank a <=? Role_rank b)%Z.
Definition role_max (a b : Role) : Role := if role_le a b then b else a.

Definition Role_parse (s : string) : option Role :=
  if s == "none" then Some RNone
  else if s == "reader" then Some Reader
  else if s == "writer" then Some Writer
  else if s == "maintainer" then Some Maintainer
  else if s == "admin" then Some Admin
  else None.
Definition Role_name (r : Role) : string :=
  match r with
  | RNone => "none" | Reader => "reader" | Writer => "writer" | Maintainer => "maintainer" | Admin => "admin"
  end.

Definition ACTIONS : list (string * Role) :=
  [("read", Reader); ("try", Reader); ("export", Reader); ("line.create", Writer); ("merge", Writer);
   ("line.manage", Maintainer); ("tag", Maintainer); ("push", Maintainer); ("access", Admin);
   ("config", Admin); ("remote", Admin); ("sync", Admin); ("gc", Admin); ("records", Admin);
   ("fsck", Admin)].
Definition action_role (action : string) : option Role :=
  snd <$> find (λ ar, ar.1 == action) ACTIONS.

(** ** Protection rules *)

Record RuleSpec := mkRuleSpec {
  rs_update : option string;
  rs_expect : option bool;
  rs_check : list string;
  rs_direct : option bool;
  rs_rewrite : option string;
  rs_paths : gmap string string;
  rs_approvals : option Z;
  rs_approvers : list string }.
Definition RuleSpec_from_value (j : json) : result RuleSpec :=
  f ← de_struct ["update"; "expect"; "check"; "direct"; "rewrite"; "paths"; "approvals"; "approvers"] [] false j;
  update ← f_def (de_option de_string) None f "update";
  expect ← f_def (de_option de_bool) None f "expect";
  check ← f_def (de_vec de_string) [] f "check";
  direct ← f_def (de_option de_bool) None f "direct";
  rewrite_ ← f_def (de_option de_string) None f "rewrite";
  paths ← f_def (de_map de_string) ∅ f "paths";
  approvals ← f_def (de_option de_u32) None f "approvals";
  approvers ← f_def (de_vec de_string) [] f "approvers";
  Ok (mkRuleSpec update expect check direct rewrite_ paths approvals approvers).

Record Rule := mkRule {
  ru_update : Role;
  ru_expect : bool;
  ru_check : list string;
  ru_direct : bool;
  ru_rewrite : Role;
  ru_paths : gmap string Role;
  ru_approvals : Z;
  ru_approvers : list string }.

Definition role_for_path (r : Rule) (path : string) : Role :=
  foldl role_max (ru_update r)
    (snd <$> filterb (λ pr, path_matches pr.1 path) (entries (ru_paths r))).

Definition role_or (s : option string) (d : Role) : Role :=
  unwrap_or ((λ x, unwrap_or (Role_parse x) Admin) <$> s) d.
Definition RuleSpec_rule (s : RuleSpec) : Rule :=
  mkRule (role_or (rs_update s) Maintainer) (unwrap_or (rs_expect s) true) (rs_check s)
    (unwrap_or (rs_direct s) false) (role_or (rs_rewrite s) Admin)
    ((λ r, unwrap_or (Role_parse r) Admin) <$> rs_paths s)
    (unwrap_or (rs_approvals s) 0%Z) (rs_approvers s).

(** ** Principals *)

Record Who := mkWho { who_uid : Z; who_groups : list Z }.
Definition Who_keys (w : Who) : list string :=
  ("user:" +:+ dec (who_uid w)) :: ((λ g, "group:" +:+ dec g) <$> who_groups w) ++ ["*"].

Record Policy := mkPolicy {
  po_access : gmap string Role;
  po_grants : gmap string (Role * Z);
  po_deny : gmap string (list string);
  po_protect : gmap string RuleSpec }.

(** ** The policy of a project *)

Definition policy_cfg (project : Project) (overlay : bool) (key : string) : option json :=
  if overlay && memb key ["access"; "deny"; "overlay"] then overlay_setting project key else setting project key.

Definition load_grant (now : Z) (grants : gmap string (Role * Z)) (kv : string * json)
    : gmap string (Role * Z) :=
  let '(k, v) := kv in
  let until := unwrap_or (x ← get v "until"; as_i64 x) 0%Z in
  let role := unwrap_or (r ← get v "role"; s ← as_str r; Role_parse s) RNone in
  if (now <? until)%Z then <[k := (role, until)]> grants else grants.

Definition legacy_access (cfg : string → option json) : gmap string Role :=
  let admin := unwrap_or (or_else (v ← cfg "admin"; as_u64 v) (v ← cfg "lead"; as_u64 v)) 0%Z in
  let access : gmap string Role := if (admin =? 0)%Z then ∅ else {["user:" +:+ dec admin := Admin]} in
  match cfg "members" with
  | None => <["*" := Writer]> access
  | Some v =>
      if as_str v == Some "*" then <["*" := Writer]> access
      else foldl (λ access u, or_insert ("user:" +:+ dec u) Writer access) access
             (filter_map as_u64 (default [] (as_array v)))
  end.

Definition Policy_from_project (project : Project) (now : Z) (overlay : bool) : Policy :=
  let cfg := policy_cfg project overlay in
  let grants := foldl (load_grant now) ∅ (default [] (v ← cfg "grants"; as_object v)) in
  let access :=
    match v ← cfg "access"; as_object v with
    | Some m => foldl (λ access kv, <[kv.1 := unwrap_or (s ← as_str kv.2; Role_parse s) RNone]> access) ∅ m
    | None => if overlay then ∅ else legacy_access cfg
    end in
  let deny := unwrap_or (v ← cfg "deny"; ok (de_map (de_vec de_string) v)) ∅ in
  let protect := unwrap_or (v ← cfg "protect"; ok (de_map RuleSpec_from_value v)) ∅ in
  mkPolicy access grants deny protect.

(** ** Decisions *)

Section decisions.
Context (po : Policy).

(** [[access.get(k), grants.get(k)]] without the missing ones. *)
Definition roles_of (k : string) : list Role :=
  option_list (po_access po !! k) ++ option_list (fst <$> po_grants po !! k).
(** [iter().max().unwrap_or(Role::None)]. *)
Definition max_role (l : list Role) : Role := foldl role_max RNone l.
Definition denies (action k : string) : bool :=
  is_some_and (po_deny po !! k) (existsb (λ a, (a == action) || (a == "*"))).

Definition person_principals (login : string) : list string := ["person:" +:+ login; "*"].
Definition person_role (login : string) : Role := max_role (mjoin (roles_of <$> person_principals login)).
Definition person_denied (login action : string) : bool := existsb (denies action) (person_principals login).
Definition check_person (login action : string) : result () :=
  if person_denied login action then Err "a deny rule takes the action away"
  else
    let need := unwrap_or (action_role action) Admin in
    bail_if (negb (role_le need (person_role login))) "the action needs a higher role".
Definition person_may_approve (rule : Rule) (login : string) : bool :=
  negb (person_denied login "approve") &&
  (if bool_decide (ru_approvers rule = []) then role_le Maintainer (person_role login)
   else forallb (λ p, (p == "*") || (p == "person:" +:+ login)) (ru_approvers rule)).

Definition role (who : Who) : Role :=
  if (who_uid who =? 0)%Z then Admin else max_role (mjoin (roles_of <$> Who_keys who)).
Definition denied_by (who : Who) (action : string) : option string :=
  if (who_uid who =? 0)%Z then None else find (denies action) (Who_keys who).
Definition check (who : Who) (action : string) : result () :=
  match denied_by who action with
  | Some k => Err "a deny rule takes the action away"
  | None =>
      let need := unwrap_or (action_role action) Admin in
      bail_if (negb (role_le need (role who))) "the action needs a higher role"
  end.

(** [for x in l { if !c.contains(&x) { c.push(x) } }]. *)
Definition push_new (c : list string) (x : string) : list string := if memb x c then c else c ++ [x].
Definition merge_paths (m m' : gmap string Role) : gmap string Role :=
  foldl (λ m pr, <[pr.1 := role_max (default pr.2 (m !! pr.1)) pr.2]> m) m (entries m').
Definition combine (o r : Rule) : Rule :=
  mkRule (role_max (ru_update o) (ru_update r)) (ru_expect o || ru_expect r)
    (foldl push_new (ru_check o) (ru_check r)) (ru_direct o && ru_direct r)
    (role_max (ru_rewrite o) (ru_rewrite r)) (merge_paths (ru_paths o) (ru_paths r))
    (Z.max (ru_approvals o) (ru_approvals r)) (foldl push_new (ru_approvers o) (ru_approvers r)).
Definition applies (line pat : string) : bool := (pat == line) || glob pat line.
Definition rule_step (line : string) (out : option Rule) (ps : string * RuleSpec) : option Rule :=
  if negb (applies line ps.1) then out
  else
    let r := RuleSpec_rule ps.2 in
    Some (match out with None => r | Some o => combine o r end).
Definition rule_for (line : string) : option Rule :=
  foldl (rule_step line) None (entries (po_protect po)).

Definition may_approve (rule : Rule) (who : Who) : bool :=
  if bool_decide (ru_approvers rule = []) then role_le Maintainer (role who)
  else forallb (λ a, memb a (Who_keys who)) (ru_approvers rule).
End decisions.

Definition access_policy (p : Project) (now : Z) (overlay : bool) : Policy := Policy_from_project p now overlay.

(** * Properties *)

(** ** Roles *)

Lemma role_le_refl a : role_le a a = true.
Proof. by destruct a. Qed.
Lemma role_le_trans a b c : role_le a b = true → role_le b c = true → role_le a c = true.
Proof. by destruct a, b, c. Qed.
Lemma role_max_l a b : role_le a (role_max a b) = true.
Proof. by destruct a, b. Qed.
Lemma role_max_r a b : role_le b (role_max a b) = true.
Proof. by destruct a, b. Qed.
Lemma role_max_lub a b c : role_le a c = true → role_le b c = true → role_le (role_max a b) c = true.
Proof. by destruct a, b, c. Qed.
#[export] Hint Resolve role_le_refl role_max_l role_max_r role_max_lub : layr.

Lemma fold_max_ge l d r : role_le r (foldl role_max d l) = true ↔ role_le r d = true ∨ ∃ x, x ∈ l ∧ role_le r x = true.
Proof.
  revert d. induction l as [|y l IH]; intros d; simpl; [set_solver|]. rewrite IH.
  assert (role_le r (role_max d y) = true ↔ role_le r d = true ∨ role_le r y = true) as ->
    by (by destruct r, d, y; simpl; naive_solver).
  setoid_rewrite elem_of_cons. naive_solver.
Qed.
Lemma fold_max_le l d r : role_le (foldl role_max d l) r = true ↔ role_le d r = true ∧ ∀ x, x ∈ l → role_le x r = true.
Proof.
  revert d. induction l as [|y l IH]; intros d; simpl; [set_solver|]. rewrite IH.
  assert (role_le (role_max d y) r = true ↔ role_le d r = true ∧ role_le y r = true) as ->
    by (by destruct r, d, y; simpl; naive_solver).
  setoid_rewrite elem_of_cons. naive_solver.
Qed.

(** ** Rules *)

(** [rule_le a b]: in every setting but the approvers, [a] allows everything that [b] allows. *)
Definition paths_le (m m' : gmap string Role) : Prop :=
  ∀ p r, m !! p = Some r → ∃ r', m' !! p = Some r' ∧ role_le r r' = true.
Record rule_le (a b : Rule) : Prop := {
  rl_update : role_le (ru_update a) (ru_update b) = true;
  rl_expect : ru_expect a = true → ru_expect b = true;
  rl_check : ∀ x, x ∈ ru_check a → x ∈ ru_check b;
  rl_direct : ru_direct b = true → ru_direct a = true;
  rl_rewrite : role_le (ru_rewrite a) (ru_rewrite b) = true;
  rl_paths : paths_le (ru_paths a) (ru_paths b);
  rl_approvals : (ru_approvals a <= ru_approvals b)%Z }.

#[export] Instance paths_le_preorder : PreOrder paths_le.
Proof.
  split.
  - intros m p r Hp. eauto with layr.
  - intros a b c Hab Hbc p r (r1 & H1 & ?)%Hab. apply Hbc in H1 as (r2 & ? & ?).
    eauto using role_le_trans.
Qed.
#[export] Instance rule_le_preorder : PreOrder rule_le.
Proof.
  split.
  - intros a. split; eauto with layr; done.
  - intros a b c [] []. split; eauto using role_le_trans; [by etrans|lia].
Qed.

Lemma elem_of_push_new l c x : x ∈ foldl push_new c l ↔ x ∈ c ∨ x ∈ l.
Proof.
  revert c. induction l as [|y l IH]; intros c; simpl; [set_solver|]. rewrite IH. unfold push_new.
  destruct (memb y c) eqn:E; [apply memb_true in E|]; set_solver.
Qed.

Lemma merge_paths_lookup m m' p :
  merge_paths m m' !! p =
  match m !! p, m' !! p with
  | Some a, Some b => Some (role_max a b)
  | Some a, None => Some a
  | None, b => b
  end.
Proof.
  assert (∀ l, NoDup l.*1 → ∀ m : gmap string Role,
    foldl (λ m pr, <[pr.1 := role_max (default pr.2 (m !! pr.1)) pr.2]> m) m l !! p =
    match m !! p, (list_to_map l : gmap string Role) !! p with
    | Some a, Some b => Some (role_max a b)
    | Some a, None => Some a
    | None, b => b
    end) as Hl.
  { induction l as [|[k r] l IH]; intros Hnd n; csimpl.
    - rewrite lookup_empty. by destruct (n !! p).
    - apply NoDup_cons in Hnd as [Hk Hnd]. simpl in Hk. rewrite IH by done.
      destruct (decide (k = p)) as [->|Hne].
      + rewrite !lookup_insert_eq. rewrite (not_elem_of_list_to_map_1 l p Hk).
        destruct (n !! p); simpl; [done|by destruct r].
      + by rewrite !lookup_insert_ne. }
  unfold merge_paths. rewrite Hl by apply NoDup_keys. by rewrite list_to_map_entries.
Qed.
Lemma merge_paths_lub m m' k :
  (paths_le m (merge_paths m m') ∧ paths_le m' (merge_paths m m')) ∧
  (paths_le m k → paths_le m' k → paths_le (merge_paths m m') k).
Proof.
  unfold paths_le. setoid_rewrite merge_paths_lookup. split; [split|].
  - intros p r ->. destruct (m' !! p); eauto with layr.
  - intros p r ->. destruct (m !! p); eauto with layr.
  - intros Hm Hm' p r. destruct (m !! p) as [a|] eqn:Ea, (m' !! p) as [b|] eqn:Eb; intros [= <-].
    + destruct (Hm p a Ea) as (c & Hc & ?), (Hm' p b Eb) as (c' & Hc' & ?).
      rewrite Hc in Hc'. injection Hc' as <-. eauto with layr.
    + eauto.
    + eauto.
Qed.

Lemma combine_lub o r :
  (rule_le o (combine o r) ∧ rule_le r (combine o r)) ∧
  ∀ c, rule_le o c → rule_le r c → rule_le (combine o r) c.
Proof.
  destruct (merge_paths_lub (ru_paths o) (ru_paths r) ∅) as [[Hl Hr] _]. split; [split|].
  - split; simpl; auto with layr; try lia; try (intros x; rewrite elem_of_push_new; by left).
    + by intros ->.
    + by intros [? ?]%andb_true_iff.
  - split; simpl; auto with layr; try lia; try (intros x; rewrite elem_of_push_new; by right).
    + intros ->. apply orb_true_r.
    + by intros [? ?]%andb_true_iff.
  - intros c [] []. split; simpl; auto with layr; try lia.
    + intros [?|?]%orb_true_iff; auto.
    + intros x [?|?]%elem_of_push_new; auto.
    + intros ?. apply andb_true_iff. auto.
    + by apply merge_paths_lub.
Qed.

(** A stricter rule asks for a higher role on every path. *)
Lemma role_for_path_mono a b path :
  rule_le a b → role_le (role_for_path a path) (role_for_path b path) = true.
Proof.
  intros [Hu _ _ _ _ Hp _]. unfold role_for_path. apply fold_max_le. split.
  - apply fold_max_ge. auto.
  - intros x Hx. apply list_elem_of_fmap in Hx as ([pat r] & -> & Hin).
    apply elem_of_filterb in Hin as [Hin Hm]. apply elem_of_entries, Hp in Hin as (r' & Hr' & Hle). simpl in *.
    apply fold_max_ge. right. exists r'. split; [|done]. apply list_elem_of_fmap. exists (pat, r').
    split; [done|]. apply elem_of_filterb. split; [by apply elem_of_entries|done].
Qed.

Section rule_for.
Context (line : string).
(** [out] is the least upper bound of the rules of the patterns in [l] that apply, and lists their
    approvers. *)
Definition strictest (l : list (string * RuleSpec)) (out : option Rule) : Prop :=
  match out with
  | None => ∀ ps, ps ∈ l → applies line ps.1 = false
  | Some r =>
      (∃ ps, ps ∈ l ∧ applies line ps.1 = true) ∧
      (∀ ps, ps ∈ l → applies line ps.1 = true → rule_le (RuleSpec_rule ps.2) r) ∧
      (∀ c, (∀ ps, ps ∈ l → applies line ps.1 = true → rule_le (RuleSpec_rule ps.2) c) → rule_le r c) ∧
      ∀ a, a ∈ ru_approvers r ↔ ∃ ps, ps ∈ l ∧ applies line ps.1 = true ∧ a ∈ rs_approvers ps.2
  end.
Lemma rule_fold_strictest l : strictest l (foldl (rule_step line) None l).
Proof.
  induction l as [|ps l IH] using rev_ind; [simpl; set_solver|]. rewrite foldl_app. simpl.
  set (out := foldl _ None l) in *. unfold rule_step.
  assert (∀ qs, qs ∈ l ++ [ps] ↔ qs ∈ l ∨ qs = ps) as Hin
    by (intros qs; by rewrite elem_of_app, list_elem_of_singleton).
  assert (∀ a, (∃ qs, qs ∈ l ++ [ps] ∧ applies line qs.1 = true ∧ a ∈ rs_approvers qs.2) ↔
    (∃ qs, qs ∈ l ∧ applies line qs.1 = true ∧ a ∈ rs_approvers qs.2) ∨ (applies line ps.1 = true ∧ a ∈ rs_approvers ps.2)) as Hex
    by (intros a; setoid_rewrite Hin; naive_solver).
  destruct (applies line ps.1) eqn:Ea; simpl.
  - destruct out as [o|]; simpl in *.
    + destruct IH as (_ & Hub & Hlub & Has). destruct (combine_lub o (RuleSpec_rule ps.2)) as [[Ho Hr] Hc].
      split; [exists ps; split; [apply Hin; auto|done]|]. split; [|split].
      * intros qs [Hq| ->]%Hin Hap; [|done]. etrans; [by apply Hub|done].
      * intros c Hall. apply Hc; [apply Hlub|]; intros; apply Hall; try apply Hin; auto.
      * intros a. rewrite elem_of_push_new, Has, Hex. naive_solver.
    + split; [exists ps; split; [apply Hin; auto|done]|]. split; [|split].
      * intros qs [Hq| ->]%Hin Hap; [|done]. by rewrite IH in Hap.
      * intros c Hall. apply Hall; [apply Hin; auto|done].
      * intros a. rewrite Hex. split; [naive_solver|]. intros [(qs & Hq & Hap & _)|[_ ?]]; [|done].
        by rewrite IH in Hap.
  - destruct out as [o|]; simpl in *.
    + destruct IH as ((qs & Hqs & Hap) & Hub & Hlub & Has). split; [exists qs; split; [apply Hin; auto|done]|].
      split; [|split].
      * intros q [Hq| ->]%Hin Hq'; [auto|congruence].
      * intros c Hall. apply Hlub. intros q Hq. apply Hall, Hin. auto.
      * intros a. rewrite Has, Hex. naive_solver.
    + intros q [Hq| ->]%Hin; [auto|done].
Qed.
End rule_for.

(** ** Decisions *)

(** Some principal of the list has a role of at least [need], from [access] or a grant. *)
Definition holds_role (po : Policy) (ks : list string) (need : Role) : Prop :=
  ∃ k r, k ∈ ks ∧ (po_access po !! k = Some r ∨ ∃ until, po_grants po !! k = Some (r, until)) ∧
    role_le need r = true.
(** No principal of the list is denied the action. *)
Definition free_of (po : Policy) (ks : list string) (action : string) : Prop :=
  ∀ k l, k ∈ ks → po_deny po !! k = Some l → action ∉ l ∧ "*" ∉ l.
Definition need_of (action : string) : Role := unwrap_or (action_role action) Admin.

Lemma need_not_none action : need_of action ≠ RNone.
Proof.
  unfold need_of, action_role. destruct (find _ ACTIONS) as [[a r]|] eqn:E; [|done].
  apply find_some in E as [Hin _]. simpl.
  assert (Forall (λ ar, ar.2 ≠ RNone) ACTIONS) as Hall by (repeat constructor; done).
  rewrite Forall_forall in Hall. apply (Hall _ Hin).
Qed.
Lemma max_role_ge po ks need :
  need ≠ RNone → role_le need (max_role (mjoin (roles_of po <$> ks))) = true ↔ holds_role po ks need.
Proof.
  intros Hn. unfold max_role. rewrite fold_max_ge. unfold holds_role.
  assert (role_le need RNone = true ↔ False) as -> by (destruct need; naive_solver).
  setoid_rewrite list_elem_of_join. setoid_rewrite list_elem_of_fmap.
  assert (∀ k x, x ∈ roles_of po k ↔ po_access po !! k = Some x ∨ ∃ until, po_grants po !! k = Some (x, until)) as Hr.
  { intros k x. unfold roles_of. rewrite elem_of_app.
    destruct (po_access po !! k), (po_grants po !! k) as [[r1 u1]|]; simpl;
      rewrite ?list_elem_of_singleton; set_solver. }
  split.
  - intros [[]|(x & (l & Hx & k & -> & Hk) & Hle)]. apply Hr in Hx. eauto.
  - intros (k & r & Hk & Hr' & Hle). right. exists r. split; [|done].
    exists (roles_of po k). split; [by apply Hr|eauto].
Qed.
Lemma denies_free po ks action : existsb (denies po action) ks = false ↔ free_of po ks action.
Proof.
  rewrite existsb_elem_false. unfold free_of, denies. split.
  - intros Hf k l Hk Hl. specialize (Hf k Hk). rewrite Hl in Hf. simpl in Hf.
    rewrite existsb_elem_false in Hf. split; intros Hin; specialize (Hf _ Hin);
      by rewrite eqb_refl, ?orb_true_r in Hf.
  - intros Hf k Hk. destruct (po_deny po !! k) as [l|] eqn:E; [|done]. simpl.
    apply existsb_elem_false. intros a Ha. destruct (Hf k l Hk E) as [H1 H2].
    apply orb_false_iff. split; apply eqb_false; congruence.
Qed.
Lemma find_existsb {A} (f : A → bool) l : is_some (find f l) = existsb f l.
Proof. induction l as [|x l IH]; simpl; [done|]. by destruct (f x). Qed.

(** Who may approve for a rule, by the principals [ks]: those who match every listed approver, or
    with none listed, those with the maintainer role, which [root] has. *)
Definition approver (po : Policy) (listed : string → Prop) (ks : list string) (root : Prop) : Prop :=
  (∀ a, listed a → a ∈ ks) ∧ ((∀ a, ¬ listed a) → root ∨ holds_role po ks Maintainer).
Lemma role_holds po who need :
  need ≠ RNone → role_le need (role po who) = true ↔ who_uid who = 0%Z ∨ holds_role po (Who_keys who) need.
Proof.
  intros Hn. unfold role. destruct (Z.eqb_spec (who_uid who) 0) as [E|E].
  - split; [by left|]. by destruct need.
  - rewrite max_role_ge by done. naive_solver.
Qed.
(** The user has at least the role [need]. *)
Definition has_role (po : Policy) (who : Who) (need : Role) : Prop :=
  need = RNone ∨ who_uid who = 0%Z ∨ holds_role po (Who_keys who) need.
Lemma role_le_has po who need : role_le need (role po who) = true ↔ has_role po who need.
Proof.
  unfold has_role. destruct (decide (need = RNone)) as [->|Hn]; [|rewrite role_holds by done; naive_solver].
  split; [auto|]. by destruct (role po who).
Qed.
(** No deny rule takes the action away from the user. *)
Definition not_denied (po : Policy) (who : Who) (action : string) : Prop :=
  who_uid who = 0%Z ∨ free_of po (Who_keys who) action.
Lemma denied_by_none po who action : is_none (denied_by po who action) = true ↔ not_denied po who action.
Proof.
  unfold not_denied, denied_by, is_none. destruct (Z.eqb_spec (who_uid who) 0) as [E|E]; [naive_solver|].
  rewrite find_existsb, negb_true_iff, denies_free. naive_solver.
Qed.
Lemma may_approve_spec po rule who :
  may_approve po rule who = true ↔ approver po (.∈ ru_approvers rule) (Who_keys who) (who_uid who = 0%Z).
Proof.
  unfold may_approve, approver. case_bool_decide as E.
  - rewrite E, role_holds by done. set_solver.
  - rewrite forallb_elem. setoid_rewrite memb_true.
    split; [|naive_solver]. intros H. split; [done|]. intros Hn.
    destruct (ru_approvers rule) as [|a l]; [done|]. destruct (Hn a). left.
Qed.
Lemma person_may_approve_spec po rule login :
  person_may_approve po rule login = true ↔
  free_of po (person_principals login) "approve" ∧ approver po (.∈ ru_approvers rule) (person_principals login) False.
Proof.
  unfold person_may_approve, approver, person_denied, person_role. rewrite andb_true_iff, negb_true_iff, denies_free.
  apply and_iff_compat_l. case_bool_decide as E.
  - rewrite E, max_role_ge by done. set_solver.
  - rewrite forallb_elem. unfold person_principals.
    assert (∀ a, (a == "*") || (a == "person:" +:+ login) = true ↔ a ∈ ["person:" +:+ login; "*"]) as Ha.
    { intros a. rewrite orb_true_iff, !eqb_true. set_solver. }
    setoid_rewrite Ha. split; [|naive_solver]. intros H. split; [done|]. intros Hn.
    destruct (ru_approvers rule) as [|a l]; [done|]. destruct (Hn a). left.
Qed.

(** * The claims *)


(** A pattern that lists approvers takes the maintainer role away from the requirements of one that
    lists none: below, a reader may not approve by the rule of the pattern [main] alone, but may
    when a second pattern lists everyone. *)
Example listed_approvers_replace_maintainers :
  let plain := mkRuleSpec None None [] None None ∅ (Some 1%Z) [] in
  let everyone := mkRuleSpec None None [] None None ∅ None ["*"] in
  let po := mkPolicy {["user:5" := Reader]} ∅ ∅ {["main" := plain; "*" := everyone]} in
  may_approve po (RuleSpec_rule plain) (mkWho 5 []) = false ∧
  ((λ r, may_approve po r (mkWho 5 [])) <$> rule_for po "main") = Some true.
Proof. split; vm_compute; reflexivity. Qed.

(** An action is allowed exactly when one of the user's principals holds a sufficient role, from
    the access list or a running grant, and none is denied it; root is always allowed, persons
    never inherit that. *)
Theorem access_exact po who login action :
  (check po who action = Ok tt ↔
     who_uid who = 0%Z ∨
     (free_of po (Who_keys who) action ∧ holds_role po (Who_keys who) (need_of action))) ∧
  (check_person po login action = Ok tt ↔
     free_of po ["person:" +:+ login; "*"] action ∧ holds_role po ["person:" +:+ login; "*"] (need_of action)).
Proof.
  split.
  - unfold check, denied_by, role. destruct (who_uid who =? 0)%Z eqn:E.
    + apply Z.eqb_eq in E. rewrite bail_if_ok, negb_false_iff. split; [auto|]. intros _.
      by destruct (unwrap_or (action_role action) Admin).
    + apply Z.eqb_neq in E. rewrite <-denies_free, <-find_existsb.
      destruct (find (denies po action) (Who_keys who)); cbn [is_some]; [naive_solver|]. cbv zeta.
      rewrite bail_if_ok, negb_false_iff. fold (need_of action).
      rewrite max_role_ge by apply need_not_none. naive_solver.
  - unfold check_person, person_denied, person_role, person_principals. rewrite <-denies_free.
    destruct (existsb _ _); [naive_solver|].
    cbv zeta. rewrite bail_if_ok, negb_false_iff. fold (need_of action).
    rewrite max_role_ge by apply need_not_none. naive_solver.
Qed.
