(* ===== verification/Protection.v ===== *)
(** Protection decisions ([layr-model/src/protection.rs]): who approved a merge or a move of a ref,
    which checks passed, and whether the actor may do it. *)

From S2P Require Import Prelude Strs Json Canonical Types Extern Format Request Validation Project Queries History.
From S2P Require Import Evidence Glob Policy.

Inductive ApprovalMode := ModeRef | ModeMerge.
Definition is_ref_mode (m : ApprovalMode) : bool := match m with ModeRef => true | ModeMerge => false end.

Record Approval := mkApproval {
  ap_approver : Z;
  ap_person : option string;
  ap_state : string;
  ap_time : Z;
  ap_met : option bool }.

(** ** Walks with a stack

    [while let Some(id) = pending.pop()]: the head of [stack] is the top. [visit] handles a state
    that was not seen before and says what is pushed. *)

Definition push_all (stack ids : list string) : list string := foldl (λ st id, id :: st) stack ids.

Fixpoint traverse {A} (fuel : nat) (visit : A → string → result (A * list string)) (seen : gset string)
    (stack : list string) (acc : A) : option (result (gset string * A)) :=
  match stack with
  | [] => Some (Ok (seen, acc))
  | id :: stack =>
      match fuel with
      | 0 => None
      | S fuel =>
          if bool_decide (id ∈ seen) then traverse fuel visit seen stack acc
          else match visit acc id with
               | Err e => Some (Err e)
               | Ok (acc, ids) => traverse fuel visit ({[id]} ∪ seen) (push_all stack ids) acc
               end
      end
  end.
Definition run_traverse {A} (r : option (result A)) : result A := default (Err "out of fuel") r.

(** The states that a state leads to: its parents and, for a ref, what it was derived from. *)
Definition sources (mode : ApprovalMode) (s : StateRec) : list string :=
  st_parents s ++ (if is_ref_mode mode then option_list (st_derived_from s) else []).

Section approvals.
Context (fuel : nat) (mode : ApprovalMode).
Context (lookup_state : string → result (option StateRec)) (may : Z → bool).

Definition ancestry (start : string) : result (gset string) :=
  fst <$> run_traverse (traverse fuel (λ _ id,
    s ← lookup_state id; Ok (tt, match s with Some s => sources mode s | None => [] end)) ∅ [start] tt).
Definition counts (have : gset string) (subject id : string) : bool :=
  negb (bool_decide (id ∈ have)) || (is_ref_mode mode && (id == subject)).
Definition add_author (have : gset string) (subject : string) (authors : gset Z) (id : string) : result (gset Z) :=
  if counts have subject id then
    s ← lookup_state id;
    Ok (match s with Some s => {[au_uid (st_author s)]} ∪ authors | None => authors end)
  else Ok authors.
(** [protection::approvals]. *)
Definition exact_approvals (subject : string) (base : option string) (approved : list (Z * Z))
    : result (list Approval) :=
  have ← match base with Some b => ancestry b | None => Ok ∅ end;
  all ← ancestry subject;
  authors ← foldM (add_author have subject) ∅ (members all);
  Ok ((λ ut, mkApproval ut.1 None subject ut.2 (Some true)) <$>
      filterb (λ ut, negb (bool_decide (ut.1 ∈ authors)) && may ut.1) approved).
End approvals.

(** ** Checks and paths *)

Inductive CheckResult := Passed | Failed | Missing | Undefined.
#[export] Instance CheckResult_eq_dec : EqDecision CheckResult.
Proof. solve_decision. Defined.
Record Check := mkCheck {
  ck_name : string;
  ck_argv : list string;
  ck_result : CheckResult;
  ck_exit : option Z }.
Definition check_argv (command : string) : list string := ["sh"; "-c"; command].
Definition required_check (name : string) (command : option string) (passing : bool) (latest : option Z) : Check :=
  mkCheck name (unwrap_or (check_argv <$> command) [])
    (if is_none command then Undefined
     else if passing then Passed
     else if is_some latest then Failed
     else Missing)
    (if passing then Some 0%Z else latest).

Record PathRequirement := mkPathRequirement { pr_path : string; pr_role : Role; pr_met : option bool }.
Definition path_requirements (paths : list string) (actor : Role) (required : string → Role)
    : list PathRequirement :=
  (λ path, let r := required path in mkPathRequirement path r (Some (role_le r actor))) <$> paths.

(** ** Merge status *)

Record Context := mkContext {
  cx_now : Z;
  cx_actor : option Who;
  cx_approver_groups : gmap Z (list Z);
  cx_changed_paths : list string;
  cx_candidate : option string }.
Record MergeStatus := mkMergeStatus {
  ms_state : string;
  ms_target : string;
  ms_approvals : list Approval;
  ms_approvals_needed : Z;
  ms_approvers : list string;
  ms_checks : list Check;
  ms_path_requirements : list PathRequirement;
  ms_allowed : option bool;
  ms_already_in_target : bool;
  ms_target_machine : option string;
  ms_status : string;
  ms_undecided_reasons : list string;
  ms_reason : option string }.

Section merge.
Context `{Uuid, Encodings, Crypto, JsonText, Unicode}.

(** The authors, by email or login, of one visited state that the target does not have. *)
Definition state_authors (p : Project) (s : StateRec) (id : string) : list string :=
  au_email (st_author s) ::
  filter_map (λ r, strip_prefix "person:" (ac_name (r_actor r)))
    (filterb (λ r, existsb (λ s, st_id s == id) (r_states r)) (p_records p)).
Definition visit_authors (p : Project) (mode : ApprovalMode) (have : gset string) (subject : string)
    (authors : gset string) (id : string) : result (gset string * list string) :=
  Ok (match state p id with
      | Some s =>
          (if counts mode have subject id then list_to_set (state_authors p s id) ∪ authors else authors,
           sources mode s)
      | None => (authors, [])
      end).
(** Enough turns for a walk over all states of a project. *)
Definition walk_fuel (p : Project) (mode : ApprovalMode) : nat := 1 + pending_by (sources mode) p ∅.
Definition allowed_person_approvals (p : Project) (subject : string) (base : option string)
    (mode : ApprovalMode) (po : Policy) (rule : Rule) : result (list Approval) :=
  let have : gset string := match base with Some b => list_to_set (ancestors p b) | None => ∅ end in
  r ← run_traverse (traverse (walk_fuel p mode) (visit_authors p mode have subject) ∅ [subject] ∅);
  Ok ((λ lt, mkApproval u32_max (Some lt.1) subject lt.2 (Some true)) <$>
      filterb (λ lt, negb (bool_decide (lt.1 ∈ r.2)) && person_may_approve po rule lt.1)
        (person_approvals p subject)).

Definition find_target (p : Project) (target : string) : option Line :=
  find (λ l, (ln_name l == target) || (ln_id l == target)) (line_list p).

(** An approval by a user whose groups may decide, but are not known here. *)
Definition group_needed (po : Policy) (rule : Rule) (uid : Z) : bool :=
  if bool_decide (ru_approvers rule = []) then
    existsb (λ pr, starts_with "group:" pr.1 && role_le Maintainer pr.2) (entries (po_access po)) ||
    existsb (λ pr, starts_with "group:" pr.1 && role_le Maintainer pr.2.1) (entries (po_grants po))
  else
    existsb (starts_with "group:") (ru_approvers rule) &&
    forallb (λ p, (p == "*") || (p == "user:" +:+ dec uid))
      (filterb (λ p, negb (starts_with "group:" p)) (ru_approvers rule)).
Definition judge (po : Policy) (rule : Rule) (cx : Context) (acc : list Approval * list string) (a : Approval)
    : list Approval * list string :=
  let who := mkWho (ap_approver a) (default [] (cx_approver_groups cx !! ap_approver a)) in
  if may_approve po rule who then (acc.1 ++ [a], acc.2)
  else if is_none (cx_approver_groups cx !! ap_approver a) && group_needed po rule (ap_approver a) then
    (acc.1 ++ [mkApproval (ap_approver a) (ap_person a) (ap_state a) (ap_time a) None],
     acc.2 ++ ["approver " +:+ dec (ap_approver a) +:+ ": membership not known here"])
  else acc.

Definition merge_candidate (p : Project) (cx : Context) (is_ref already : bool) (base : option string)
    (st : string) : option string :=
  c ← or_else (cx_candidate cx)
        (if already then base
         else if is_ref || is_some_and base (λ b, memb b (ancestors p st)) then Some st
         else None);
  if is_some (state p c) then Some c else None.
Definition rule_check (p : Project) (candidate : option string) (name : string) : Check :=
  let command := v ← setting p ("check." +:+ name); as_str v in
  let argv := unwrap_or (check_argv <$> command) [] in
  let passing := is_some_and candidate (λ s, is_some (check_exit p s argv (Some 0%Z))) in
  let latest := s ← candidate; check_exit p s argv None in
  required_check name command passing latest.

Definition merge_mode (is_ref : bool) : ApprovalMode := if is_ref then ModeRef else ModeMerge.
Definition merge_action (is_ref : bool) : string := if is_ref then "line.manage" else "merge".
Definition merge_base_state (p : Project) (cx : Context) (line : option Line) (target : string) : option string :=
  or_else (ln_head <$> line)
    (rs_target <$> find (λ r, rs_name r == target) (ref_list p target (cx_now cx))).
Definition merge_status_for_machine (p : Project) (st target : string) (cx : Context) : result MergeStatus :=
  let po := access_policy p (cx_now cx) false in
  let line := find_target p target in
  let is_ref := ref_namespace target in
  let base := merge_base_state p cx line target in
  _ ← ctx "state is not known" (state p st);
  let already := negb is_ref && is_some_and base (λ b, memb st (ancestors p b)) in
  let rule := rule_for po (unwrap_or (ln_name <$> line) target) in
  let actor_role := unwrap_or (role po <$> cx_actor cx) RNone in
  let needed := unwrap_or (ru_approvals <$> rule) 0%Z in
  let approvers := unwrap_or (ru_approvers <$> rule) [] in
  let unknown := if is_none (cx_actor cx) then ["the actor's role is not known here"] else [] in
  let decided := if is_some (cx_actor cx) then "decided" else "not_decided" in
  let status approvals checks paths allowed how reasons :=
    mkMergeStatus st target approvals needed approvers checks paths allowed already
      (Some (p_machine p)) how reasons None in
  match rule with
  | None =>
      Ok (status [] [] [] ((λ who, is_ok (check po who (merge_action is_ref))) <$> cx_actor cx) decided unknown)
  | Some rule =>
      candidates ← exact_approvals (walk_fuel p (merge_mode is_ref)) (merge_mode is_ref)
        (λ id, Ok (state p id)) (λ _, true) st base (approvals p st);
      let '(counted, reasons) := foldl (judge po rule cx) ([], unknown) candidates in
      let candidate := merge_candidate p cx is_ref already base st in
      let checks := rule_check p candidate <$> ru_check rule in
      let paths := path_requirements (cx_changed_paths cx) actor_role (role_for_path rule) in
      let paths := if is_none (cx_actor cx)
                   then (λ r, mkPathRequirement (pr_path r) (pr_role r) None) <$> paths else paths in
      persons ← allowed_person_approvals p st base (merge_mode is_ref) po rule;
      let all := counted ++ persons in
      let root := is_some_and (cx_actor cx) (λ who, (who_uid who =? 0)%Z) in
      let groups_unknown := existsb (λ a, is_none (ap_met a)) all in
      Ok (match cx_actor cx with
          | None => status all checks paths None decided reasons
          | Some who =>
              if groups_unknown then status all checks paths None "not_decided" reasons
              else
                status all checks paths
                  (Some (role_le (ru_update rule) actor_role
                         && is_none (denied_by po who (merge_action is_ref))
                         && (already
                             || (((ru_approvals rule <=? Z.of_nat (length all))%Z || (negb is_ref && root))
                                 && forallb (λ c, ck_result c == Passed) checks
                                 && forallb (λ r, pr_met r == Some true) paths
                                 && (is_ref || is_some candidate))))) decided reasons
          end)
  end.

(** The machine whose policy decides: the one that owns the line or last moved the ref. *)
Definition merge_machine (p : Project) (target : string) : option string :=
  or_else (ln_machine <$> find_target p target)
    (r ← find (λ r, as_str (r_data r).["ref_change"].["name"] == Some target) (rev (p_records p));
     if is_object (r_data r).["ref_change"].["after"] then Some (r_machine r) else None).
Definition merge_status (p : Project) (st target : string) (cx : Context) : result MergeStatus :=
  match merge_machine p target with
  | None =>
      Ok (mkMergeStatus st target [] 0 [] [] [] None false None "unavailable" []
            (Some "the target has no verified machine record"))
  | Some machine =>
      if negb (machine == p_machine p) then
        q ← from_records (p_id p) (p_records p) machine;
        merge_status_for_machine q st target cx
      else merge_status_for_machine p st target cx
  end.
End merge.

(** * Properties *)

(** ** Walks *)

Lemma elem_of_push_all stack ids x : x ∈ push_all stack ids ↔ x ∈ ids ∨ x ∈ stack.
Proof.
  unfold push_all. revert stack. induction ids as [|y ids IH]; intros stack; simpl; [set_solver|].
  rewrite IH. set_solver.
Qed.
Lemma length_push_all stack ids : length (push_all stack ids) = length ids + length stack.
Proof.
  unfold push_all. revert stack. induction ids as [|y ids IH]; intros stack; simpl; [done|].
  rewrite IH. simpl. lia.
Qed.

Section traverse.
Context {A : Type} (p : Project) (next : StateRec → list string) (f : A → string → A).

Definition next_of (id : string) : list string := from_option next [] (state p id).
Definition leads (x y : string) : Prop := rtc (λ a b, b ∈ next_of a) x y.
Definition pure_visit (acc : A) (id : string) : result (A * list string) := Ok (f acc id, next_of id).

Lemma traverse_ends fuel seen stack acc :
  length stack + pending_by next p seen ≤ fuel → ∃ r, traverse fuel pure_visit seen stack acc = Some (Ok r).
Proof.
  revert seen stack acc. induction fuel as [|fuel IH]; intros seen [|id stack] acc Hf; simpl in *;
    [by eexists|lia|by eexists|]. case_bool_decide as Hid.
  - apply IH. lia.
  - apply IH. rewrite length_push_all. pose proof (pending_by_step next p seen id Hid) as Hp.
    unfold next_of. lia.
Qed.
Lemma traverse_spec root acc0 fuel seen stack vis seen' acc' :
  NoDup vis → (∀ x, x ∈ vis ↔ x ∈ seen) → (∀ x, x ∈ vis ∨ x ∈ stack → leads root x) →
  (∀ x y, x ∈ vis → y ∈ next_of x → y ∈ vis ∨ y ∈ stack) → (root ∈ vis ∨ root ∈ stack) →
  traverse fuel pure_visit seen stack (foldl f acc0 vis) = Some (Ok (seen', acc')) →
  ∃ vis', NoDup vis' ∧ acc' = foldl f acc0 vis' ∧ (∀ x, x ∈ vis' ↔ x ∈ seen') ∧ ∀ x, x ∈ vis' ↔ leads root x.
Proof.
  revert seen stack vis. induction fuel as [|fuel IH]; intros seen [|id stack] vis Hnd Hs Hr Hc Hroot Hgo;
    simpl in Hgo; try done.
  1, 2: injection Hgo as <- <-; exists vis; split_and!; try done; intros x; split; [auto|]; intros Hx;
    apply (rtc_closed _ (λ z, z ∈ vis) root x Hx); [set_solver|]; intros a b Ha Hab; destruct (Hc a b Ha Hab); set_solver.
  case_bool_decide as Hid.
  - apply Hs in Hid. eapply IH; [done|done| | |  |done].
    + intros x Hx. apply Hr. set_solver.
    + intros x y Hx Hy. destruct (Hc x y Hx Hy) as [?|[->|?]%elem_of_cons]; auto.
    + destruct Hroot as [?|[->|?]%elem_of_cons]; auto.
  - replace (f (foldl f acc0 vis) id) with (foldl f acc0 (vis ++ [id])) in Hgo by (by rewrite foldl_app).
    apply IH in Hgo; [done|..].
    + apply NoDup_app. split; [done|]. split; [|apply NoDup_singleton].
      intros x Hx ->%list_elem_of_singleton. apply Hid. by apply Hs.
    + intros x. rewrite elem_of_app, list_elem_of_singleton, Hs. set_solver.
    + assert (leads root id) as Hlid by (apply Hr; right; left).
      intros x. rewrite elem_of_app, list_elem_of_singleton, elem_of_push_all.
      intros [[Hx| ->]|[Hx|Hx]]; [auto|done| |apply Hr; right; by right].
      eapply rtc_r; [exact Hlid|done].
    + intros x y. rewrite !elem_of_app, !list_elem_of_singleton, elem_of_push_all. intros [Hx| ->] Hy; [|auto].
      destruct (Hc x y Hx Hy) as [?|[->|?]%elem_of_cons]; auto.
    + rewrite elem_of_app, list_elem_of_singleton, elem_of_push_all.
      destruct Hroot as [?|[->|?]%elem_of_cons]; auto.
Qed.
Lemma traverse_from root acc0 :
  ∃ seen vis, run_traverse (traverse (1 + pending_by next p ∅) pure_visit ∅ [root] acc0) =
                Ok (seen, foldl f acc0 vis) ∧
    (∀ x, x ∈ vis ↔ leads root x) ∧ ∀ x, x ∈ seen ↔ leads root x.
Proof.
  destruct (traverse_ends (1 + pending_by next p ∅) ∅ [root] acc0) as [[seen acc] E]; [simpl; lia|].
  destruct (traverse_spec root acc0 (1 + pending_by next p ∅) ∅ [root] [] seen acc)
    as (vis & _ & -> & Hs & Hv).
  - constructor.
  - set_solver.
  - intros x [?|Hx]; [set_solver|]. apply list_elem_of_singleton in Hx as ->. apply rtc_refl.
  - set_solver.
  - right. left.
  - exact E.
  - exists seen, vis. rewrite E. split; [done|]. split; [done|]. intros x. by rewrite <-Hs.
Qed.
End traverse.
Lemma traverse_ext {A} (visit visit' : A → string → result (A * list string)) fuel seen stack acc :
  (∀ acc id, visit acc id = visit' acc id) →
  traverse fuel visit seen stack acc = traverse fuel visit' seen stack acc.
Proof.
  intros E. revert seen stack acc. induction fuel as [|fuel IH]; intros seen [|id stack] acc; simpl; try done.
  case_bool_decide; [apply IH|]. rewrite E. by destruct (visit' acc id) as [[]|].
Qed.

(** ** Authors of what comes in *)

(** One state is a parent of another, or, for a ref, what it was derived from. *)
Definition step_to (p : Project) (mode : ApprovalMode) (x y : string) : Prop :=
  ∃ s, state p x = Some s ∧ (y ∈ st_parents s ∨ (mode = ModeRef ∧ st_derived_from s = Some y)).
(** A state that [subject] brings to a target with head [base]: it leads to it and the target does
    not, or, for a ref, it is the subject itself. *)
Definition incoming (p : Project) (mode : ApprovalMode) (has : string → string → Prop) (base : option string)
    (subject id : string) : Prop :=
  rtc (step_to p mode) subject id ∧
  ((∀ b, base = Some b → ¬ has b id) ∨ (mode = ModeRef ∧ id = subject)).

Lemma leads_steps p mode x y : leads p (sources mode) x y ↔ rtc (step_to p mode) x y.
Proof.
  assert (∀ a b, b ∈ next_of p (sources mode) a ↔ step_to p mode a b) as Hs.
  { intros a b. unfold next_of, step_to, sources. destruct (state p a) as [s|]; cbn; [|rewrite elem_of_nil; naive_solver].
    rewrite elem_of_app. destruct mode; cbn; [destruct (st_derived_from s) eqn:Ed; cbn|];
      rewrite ?list_elem_of_singleton, ?elem_of_nil; naive_solver. }
  unfold leads. split; apply rtc_subrel; intros a b; apply Hs.
Qed.

Lemma ancestry_ok p mode start :
  ∃ s, ancestry (walk_fuel p mode) mode (λ id, Ok (state p id)) start = Ok s ∧
    ∀ x, x ∈ s ↔ rtc (step_to p mode) start x.
Proof.
  destruct (traverse_from p (sources mode) (λ (_ : ()) _, tt) start tt) as (seen & vis & E & _ & Hs).
  exists seen. split; [|intros x; by rewrite Hs, leads_steps]. unfold ancestry, walk_fuel.
  erewrite traverse_ext; [by rewrite E|]. intros [] id. simpl. unfold pure_visit, next_of.
  by destruct (state p id).
Qed.
Lemma counts_true p mode has have base subject id :
  (∀ x, x ∈ have ↔ ∃ b, base = Some b ∧ has b x) →
  rtc (step_to p mode) subject id →
  counts mode have subject id = true ↔ incoming p mode has base subject id.
Proof.
  intros Hh Hl. unfold counts, incoming. rewrite orb_true_iff, negb_true_iff, bool_decide_eq_false, Hh.
  rewrite andb_true_iff, eqb_true. unfold is_ref_mode. destruct mode; naive_solver.
Qed.

(** The users who wrote an incoming state. *)
Definition author_uid (p : Project) (mode : ApprovalMode) (base : option string) (subject : string) (uid : Z) : Prop :=
  ∃ id s, incoming p mode (rtc (step_to p mode)) base subject id ∧ state p id = Some s ∧
    au_uid (st_author s) = uid.

Lemma add_authors_ok p mode have subject ids authors :
  ∃ out, foldM (add_author mode (λ id, Ok (state p id)) have subject) authors ids = Ok out ∧
    ∀ u, u ∈ out ↔ u ∈ authors ∨ ∃ id s, id ∈ ids ∧ counts mode have subject id = true ∧
      state p id = Some s ∧ au_uid (st_author s) = u.
Proof.
  revert authors. induction ids as [|id ids IH]; intros authors; simpl; [exists authors; set_solver|].
  set (step := add_author mode (λ id, Ok (state p id)) have subject) in *.
  assert (∃ a, step authors id = Ok a ∧ ∀ u, u ∈ a ↔ u ∈ authors ∨
    ∃ s, counts mode have subject id = true ∧ state p id = Some s ∧ au_uid (st_author s) = u) as (a & -> & Ha).
  { unfold step, add_author. destruct (counts mode have subject id); [|exists authors; naive_solver].
    simpl. destruct (state p id) as [s|]; eexists; (split; [done|]); set_solver. }
  destruct (IH a) as (out & E & Ho). exists out. split; [done|].
  intros u. rewrite Ho, Ha. setoid_rewrite elem_of_cons. naive_solver.
Qed.

Lemma elem_of_members {K} `{Countable K} `{Cmp K} (s : gset K) x : x ∈ members s ↔ x ∈ s.
Proof. unfold members. by rewrite elem_of_sort_by, elem_of_elements. Qed.

Lemma exact_approvals_ok p mode may subject base approved :
  ∃ out (keep : Z → bool),
    exact_approvals (walk_fuel p mode) mode (λ id, Ok (state p id)) may subject base approved = Ok out ∧
    out = (λ ut, mkApproval ut.1 None subject ut.2 (Some true)) <$> filterb (λ ut, keep ut.1) approved ∧
    ∀ uid, keep uid = true ↔ ¬ author_uid p mode base subject uid ∧ may uid = true.
Proof.
  unfold exact_approvals.
  assert (∃ have, match base with
      | Some b => ancestry (walk_fuel p mode) mode (λ id, Ok (state p id)) b
      | None => Ok ∅ end = Ok have ∧
      ∀ x, x ∈ have ↔ ∃ b, base = Some b ∧ rtc (step_to p mode) b x) as (have & -> & Hh).
  { destruct base as [b|]; [|exists ∅; set_solver]. destruct (ancestry_ok p mode b) as (s & E & Hs).
    exists s. split; [done|]. intros x. rewrite Hs. naive_solver. }
  destruct (ancestry_ok p mode subject) as (all & -> & Hall). simpl.
  destruct (add_authors_ok p mode have subject (members all) ∅) as (authors & -> & Ha). simpl.
  eexists _, (λ uid, negb (bool_decide (uid ∈ authors)) && may uid). split; [done|]. split; [done|].
  intros uid. rewrite andb_true_iff, negb_true_iff, bool_decide_eq_false, Ha. unfold author_uid.
  assert ((uid ∈ (∅ : gset Z) ∨ ∃ id s, id ∈ members all ∧ counts mode have subject id = true ∧
             state p id = Some s ∧ au_uid (st_author s) = uid) ↔
          ∃ id s, incoming p mode (rtc (step_to p mode)) base subject id ∧ state p id = Some s ∧
             au_uid (st_author s) = uid) as ->; [|done].
  split.
  - intros [?|(id & s & Hid & Hc & Hs & Hu)]; [set_solver|]. exists id, s.
    apply elem_of_members, Hall in Hid. apply (counts_true p mode _ _ _ _ _ Hh Hid) in Hc. done.
  - intros (id & s & Hin & Hs & Hu). right. exists id, s. pose proof (proj1 Hin) as Hl.
    split; [by apply elem_of_members, Hall|]. split; [by apply (counts_true p mode _ _ _ _ _ Hh Hl)|done].
Qed.

Lemma existsb_app_false {A} (f : A → bool) l k :
  existsb f (l ++ k) = false → existsb f l = false ∧ existsb f k = false.
Proof. rewrite existsb_app. apply orb_false_iff. Qed.

Section merge_facts.
Context `{HU : Uuid, HE : Encodings, HC : Crypto, HJ : JsonText, HL : Unicode}.

(** The persons who wrote or recorded an incoming state. *)
Definition author_login (p : Project) (mode : ApprovalMode) (base : option string) (subject login : string) : Prop :=
  ∃ id s, incoming p mode (rtc (edge p)) base subject id ∧ state p id = Some s ∧
    (au_email (st_author s) = login ∨
     ∃ r, r ∈ p_records p ∧ id ∈ st_id <$> r_states r ∧ ac_name (r_actor r) = "person:" +:+ login).
Lemma elem_of_state_authors p s id login :
  login ∈ state_authors p s id ↔
  au_email (st_author s) = login ∨
  ∃ r, r ∈ p_records p ∧ id ∈ st_id <$> r_states r ∧ ac_name (r_actor r) = "person:" +:+ login.
Proof.
  unfold state_authors, filter_map. rewrite elem_of_cons, list_elem_of_omap.
  setoid_rewrite strip_prefix_some. setoid_rewrite elem_of_filterb. setoid_rewrite existsb_elem.
  setoid_rewrite list_elem_of_fmap. split.
  - intros [->|(r & (Hr & st & Hst & <-%eqb_eq) & Hn)]; [by left|right]. exists r. eauto.
  - intros [->|(r & Hr & (st & -> & Hst) & Hn)]; [by left|right]. exists r. split; [|done]. split; [done|].
    exists st. by rewrite eqb_refl.
Qed.

Definition add_logins (p : Project) (mode : ApprovalMode) (have : gset string) (subject : string)
    (authors : gset string) (id : string) : gset string :=
  match state p id with
  | Some s => if counts mode have subject id then list_to_set (state_authors p s id) ∪ authors else authors
  | None => authors
  end.
Lemma elem_of_add_logins p mode have subject ids authors x :
  x ∈ foldl (add_logins p mode have subject) authors ids ↔
  x ∈ authors ∨ ∃ id s, id ∈ ids ∧ counts mode have subject id = true ∧ state p id = Some s ∧
    x ∈ state_authors p s id.
Proof.
  revert authors. induction ids as [|id ids IH]; intros authors; simpl; [set_solver|].
  rewrite IH.
  assert (x ∈ add_logins p mode have subject authors id ↔ x ∈ authors ∨
    ∃ s, counts mode have subject id = true ∧ state p id = Some s ∧ x ∈ state_authors p s id) as ->.
  { unfold add_logins. destruct (state p id) as [s|]; [|naive_solver].
    destruct (counts mode have subject id); [rewrite elem_of_union, elem_of_list_to_set|]; naive_solver. }
  clear. split.
  - intros [[?|(s & ?)]|(i & s & ? & ?)]; [auto|right..].
    + exists id, s. split; [left|done].
    + exists i, s. split; [by right|done].
  - intros [?|(i & s & [->|?]%elem_of_cons & ?)]; [auto|left; right; eauto|right; eauto].
Qed.

Lemma allowed_person_ok p subject base mode po rule :
  ∃ out (keep : string → bool),
    allowed_person_approvals p subject base mode po rule = Ok out ∧
    out = (λ lt, mkApproval u32_max (Some lt.1) subject lt.2 (Some true)) <$>
            filterb (λ lt, keep lt.1) (person_approvals p subject) ∧
    ∀ login, keep login = true ↔
      ¬ author_login p mode base subject login ∧ person_may_approve po rule login = true.
Proof.
  unfold allowed_person_approvals. cbv zeta. set (have := match base with Some _ => _ | None => _ end).
  assert (∀ x, x ∈ have ↔ ∃ b, base = Some b ∧ rtc (edge p) b x) as Hh.
  { intros x. unfold have. destruct base as [b|]; [|set_solver].
    rewrite elem_of_list_to_set, (proj1 (proj2 (ancestors_spec p b))). naive_solver. }
  destruct (traverse_from p (sources mode) (add_logins p mode have subject) subject ∅) as (seen & vis & E & Hv & _).
  assert (run_traverse (traverse (walk_fuel p mode) (visit_authors p mode have subject) ∅ [subject] ∅) =
    Ok (seen, foldl (add_logins p mode have subject) ∅ vis)) as ->.
  { rewrite <-E. unfold walk_fuel. f_equal. apply traverse_ext. intros acc id.
    unfold visit_authors, pure_visit, add_logins, next_of. by destruct (state p id). }
  simpl. set (authors := foldl _ ∅ vis).
  eexists _, (λ login, negb (bool_decide (login ∈ authors)) && person_may_approve po rule login).
  split; [done|]. split; [done|]. intros login.
  rewrite andb_true_iff, negb_true_iff, bool_decide_eq_false. unfold authors. rewrite elem_of_add_logins.
  assert ((login ∈ (∅ : gset string) ∨ ∃ id s, id ∈ vis ∧ counts mode have subject id = true ∧
             state p id = Some s ∧ login ∈ state_authors p s id) ↔ author_login p mode base subject login) as ->; [|done].
  unfold author_login. setoid_rewrite elem_of_state_authors. setoid_rewrite leads_steps in Hv. split.
  - intros [?|(id & s & Hid%Hv & Hc & ?)]; [set_solver|]. exists id, s.
    by apply (counts_true p mode _ _ _ _ _ Hh Hid) in Hc.
  - intros (id & s & Hin & ?). right. exists id, s. pose proof (proj1 Hin) as Hl.
    split; [by apply Hv|]. by apply (counts_true p mode _ _ _ _ _ Hh Hl) in Hin.
Qed.

(** When the groups of every approver are known, exactly the entitled approvers are counted. *)
Lemma judge_known po rule cx cands acc reasons :
  Forall (λ a, ap_met a = Some true) cands →
  existsb (λ a, is_none (ap_met a)) (foldl (judge po rule cx) (acc, reasons) cands).1 = false →
  (foldl (judge po rule cx) (acc, reasons) cands).1 =
  acc ++ filterb (λ a, may_approve po rule
    (mkWho (ap_approver a) (default [] (cx_approver_groups cx !! ap_approver a)))) cands.
Proof.
  intros Hmet. revert acc reasons. induction Hmet as [|a cands Ha _ IH]; intros acc reasons Hn; simpl in *.
  { by rewrite app_nil_r. }
  unfold judge at 2 in Hn. unfold judge at 2. simpl in *.
  destruct (may_approve _ _ _) eqn:Em.
  - rewrite IH by done. by rewrite <-app_assoc.
  - destruct (_ && _); [|by apply IH]. exfalso. rewrite existsb_elem_false in Hn.
    assert (∀ cs acc' rs x, x ∈ acc' → x ∈ (foldl (judge po rule cx) (acc', rs) cs).1) as Hkeep.
    { clear. induction cs as [|c cs IH]; intros acc' rs x Hx; simpl; [done|]. unfold judge at 2. simpl.
      destruct (may_approve _ _ _); [apply IH; set_solver|]. destruct (_ && _); apply IH; set_solver. }
    set (b := mkApproval (ap_approver a) (ap_person a) (ap_state a) (ap_time a) None) in *.
    assert (is_none (ap_met b) = false) as E; [|done].
    apply Hn, Hkeep. apply elem_of_app. right. left.
Qed.

(** An approval that counts for [rule]: the latest one of its approver for the state, who may
    approve and is no author of what comes in. *)
Definition entitled (p : Project) (po : Policy) (rule : Rule) (cx : Context) (mode : ApprovalMode)
    (base : option string) (st : string) (a : Approval) : Prop :=
  ap_met a = Some true ∧ ap_state a = st ∧
  match ap_person a with
  | None =>
      ((∃ ia, ia ∈ p_attestations p ∧ local_approval p st (ap_approver a) ia ∧ at_time ia.2 = ap_time a) ∧
       ∀ ia, ia ∈ p_attestations p → local_approval p st (ap_approver a) ia → (at_time ia.2 <= ap_time a)%Z) ∧
      ¬ author_uid p mode base st (ap_approver a) ∧
      approver po (.∈ ru_approvers rule)
        (Who_keys (mkWho (ap_approver a) (default [] (cx_approver_groups cx !! ap_approver a)))) (ap_approver a = 0%Z)
  | Some login =>
      ap_approver a = u32_max ∧
      ((∃ ia, ia ∈ p_attestations p ∧ person_approval p st login ia ∧ at_time ia.2 = ap_time a) ∧
       ∀ ia, ia ∈ p_attestations p → person_approval p st login ia → (at_time ia.2 <= ap_time a)%Z) ∧
      ¬ author_login p mode base st login ∧
      free_of po (person_principals login) "approve" ∧
      approver po (.∈ ru_approvers rule) (person_principals login) False
  end.

Lemma counted_entitled p po rule cx mode base st (keep : Z → bool) :
  (∀ uid, keep uid = true ↔ ¬ author_uid p mode base st uid ∧ true = true) →
  let l := filterb (λ a, may_approve po rule
             (mkWho (ap_approver a) (default [] (cx_approver_groups cx !! ap_approver a))))
           ((λ ut, mkApproval ut.1 None st ut.2 (Some true)) <$> filterb (λ ut, keep ut.1) (approvals p st)) in
  (∀ a, a ∈ l ↔ entitled p po rule cx mode base st a ∧ ap_person a = None) ∧ NoDup (ap_approver <$> l).
Proof.
  intros Hk l. split.
  - intros a. unfold l. rewrite elem_of_filterb, list_elem_of_fmap, may_approve_spec.
    setoid_rewrite elem_of_filterb. unfold entitled. split.
    + intros [([u t] & -> & [Hin Hkeep]) Hm]. apply Hk in Hkeep as [Hna _]. apply approvals_spec in Hin. done.
    + destruct a as [u [login|] s t m]; cbn; [naive_solver|]. intros [(-> & -> & Happ & Hna & Hm) _]. split; [|done].
      exists (u, t). split; [done|]. split; [by apply approvals_spec|]. by apply Hk.
  - apply (sublist_NoDup _ (fst <$> approvals p st)); [by apply (sorted_NoDup fst), approvals_spec|].
    trans (ap_approver <$> ((λ ut, mkApproval ut.1 None st ut.2 (Some true)) <$>
             filterb (λ ut : Z * Z, keep ut.1) (approvals p st))); [apply fmap_sublist, filterb_sublist|].
    rewrite <-list_fmap_compose. apply (fmap_sublist fst), filterb_sublist.
Qed.
Lemma persons_entitled p po rule cx mode base st (keep : string → bool) :
  (∀ login, keep login = true ↔ ¬ author_login p mode base st login ∧ person_may_approve po rule login = true) →
  let l := (λ lt, mkApproval u32_max (Some lt.1) st lt.2 (Some true)) <$>
             filterb (λ lt, keep lt.1) (person_approvals p st) in
  (∀ a, a ∈ l ↔ entitled p po rule cx mode base st a ∧ is_Some (ap_person a)) ∧ NoDup (ap_person <$> l).
Proof.
  intros Hk l. split.
  - intros a. unfold l. rewrite list_elem_of_fmap. setoid_rewrite elem_of_filterb. unfold entitled. split.
    + intros ([login t] & -> & Hin & Hkeep). apply Hk in Hkeep as [Hna Hm%person_may_approve_spec].
      apply person_approvals_spec in Hin. naive_solver.
    + destruct a as [u [login|] s t m]; cbn; [|naive_solver]. intros [(-> & -> & -> & Happ & Hna & Hm) _].
      exists (login, t). split; [done|]. split; [by apply person_approvals_spec|]. apply Hk.
      by rewrite person_may_approve_spec.
  - subst l. rewrite <-list_fmap_compose. apply (sublist_NoDup _ (Some ∘ fst <$> person_approvals p st)).
    + rewrite list_fmap_compose. apply NoDup_fmap_2; [by intros ?? [=]|]. apply NoDup_keys.
    + apply fmap_sublist, filterb_sublist.
Qed.
Lemma approvers_distinct (l k : list Approval) :
  NoDup (ap_approver <$> l) → (∀ a, a ∈ l → ap_person a = None) →
  NoDup (ap_person <$> k) → (∀ a, a ∈ k → is_Some (ap_person a)) →
  NoDup ((λ a, (ap_approver a, ap_person a)) <$> l ++ k).
Proof.
  intros Hl Hln Hk Hks. rewrite fmap_app. apply NoDup_app. split_and!.
  - apply (NoDup_fmap_1 fst). by rewrite <-list_fmap_compose.
  - intros x Hx Hy. apply list_elem_of_fmap in Hx as (a & -> & Ha), Hy as (b & [= _ E] & Hb).
    rewrite (Hln a Ha) in E. destruct (Hks b Hb) as [y Hy]. congruence.
  - apply (NoDup_fmap_1 snd). by rewrite <-list_fmap_compose.
Qed.

Lemma rule_check_passed p candidate name :
  ck_result (rule_check p candidate name) = Passed →
  ∃ c command, candidate = Some c ∧ (v ← setting p ("check." +:+ name); as_str v) = Some command ∧
    check_stands p c (check_argv command) 0.
Proof.
  unfold rule_check, required_check. cbv zeta. set (command := setting p _ ≫= _). simpl.
  destruct command as [cmd|] eqn:Ec; [|done]. cbn [is_none negb is_some].
  destruct (is_some_and candidate _) eqn:Ep; [|by destruct (candidate ≫= _)]. intros _.
  destruct candidate as [c|]; [|done]. simpl in Ep.
  destruct (check_exit p c (check_argv cmd) (Some 0%Z)) as [code|] eqn:Ee; [|done].
  apply check_exit_some in Ee as [Hs Hw]. cbn [is_none_or] in Hw.
  apply Z.eqb_eq in Hw as <-. eauto.
Qed.

(** The target, with head [base], has the state already; a ref never does. *)
Definition in_target (p : Project) (is_ref : bool) (base : option string) (st : string) : Prop :=
  is_ref = false ∧ ∃ b, base = Some b ∧ rtc (edge p) b st.
(** The state that the checks have to pass on: the given result of the merge, or [st] itself when it
    becomes the head as it is. *)
Definition merged (p : Project) (cx : Context) (is_ref : bool) (base : option string) (st c : string) : Prop :=
  is_Some (state p c) ∧
  (cx_candidate cx = Some c ∨
   cx_candidate cx = None ∧ c = st ∧ (is_ref = true ∨ ∃ b, base = Some b ∧ rtc (edge p) st b)).
(** What a merge or ref move of a state that the target does not have needs, but for the checks. *)
Definition requirements_met (p : Project) (po : Policy) (rule : Rule) (cx : Context) (is_ref : bool)
    (base : option string) (st : string) (who : Who) (approvals : list Approval) : Prop :=
  ((ru_approvals rule <= Z.of_nat (length approvals))%Z ∨ (is_ref = false ∧ who_uid who = 0%Z)) ∧
  (∀ path, path ∈ cx_changed_paths cx → has_role po who (ru_update rule) ∧
     ∀ pat need, ru_paths rule !! pat = Some need → path_matches pat path = true → has_role po who need) ∧
  (is_ref = true ∨ ∃ c, merged p cx is_ref base st c).

Lemma ancestor_memb p base x : is_some_and base (λ b, memb x (ancestors p b)) = true ↔ ∃ b, base = Some b ∧ rtc (edge p) b x.
Proof.
  destruct base as [b|]; cbn; [|naive_solver]. rewrite memb_true, (proj1 (proj2 (ancestors_spec p b))). naive_solver.
Qed.
Lemma merge_candidate_spec p cx is_ref base st c :
  merge_candidate p cx is_ref false base st = Some c ↔ merged p cx is_ref base st c.
Proof.
  unfold merge_candidate, merged. destruct (cx_candidate cx) as [d|]; cbn [or_else mbind option_bind].
  - destruct (state p d) as [s|] eqn:E; cbn; (split; [intros [= <-]; eauto|]).
    + naive_solver.
    + intros [[? ?] [[= ->]|[? _]]]; congruence.
  - assert (is_some_and base (λ b, memb b (ancestors p st)) = true ↔ ∃ b, base = Some b ∧ rtc (edge p) st b) as Hb.
    { destruct base as [b|]; cbn; [|naive_solver]. rewrite memb_true, (proj1 (proj2 (ancestors_spec p st))). naive_solver. }
    set (anc := is_some_and base _) in *. clearbody anc. destruct (is_ref || anc) eqn:E; cbn.
    + rewrite orb_true_iff, Hb in E. destruct (state p st) as [s|] eqn:Es; cbn; (split; [intros [= <-]; eauto|]).
      * naive_solver.
      * intros [[? ?] [?|(_ & -> & _)]]; congruence.
    + split; [done|]. intros [_ [?|(_ & _ & Hor)]]; [done|].
      apply orb_false_iff in E as [-> E]. destruct Hor as [?|Hor%Hb]; [done|]. congruence.
Qed.
Lemma paths_met_spec paths po who rule :
  forallb (λ r, pr_met r == Some true) (path_requirements paths (role po who) (role_for_path rule)) = true ↔
  ∀ path, path ∈ paths → has_role po who (ru_update rule) ∧
    ∀ pat need, ru_paths rule !! pat = Some need → path_matches pat path = true → has_role po who need.
Proof.
  unfold path_requirements. rewrite forallb_elem. setoid_rewrite list_elem_of_fmap.
  assert (∀ path, role_le (role_for_path rule path) (role po who) = true ↔ has_role po who (ru_update rule) ∧
    ∀ pat need, ru_paths rule !! pat = Some need → path_matches pat path = true → has_role po who need) as Hr.
  { intros path. unfold role_for_path. rewrite fold_max_le, role_le_has. apply and_iff_compat_l.
    setoid_rewrite list_elem_of_fmap. split.
    - intros H pat need Hl Hm. apply role_le_has, H. exists (pat, need). split; [done|].
      apply elem_of_filterb. split; [by apply elem_of_entries|done].
    - intros H x ([pat need] & -> & [Hin%elem_of_entries Hm]%elem_of_filterb). apply role_le_has. by eapply H. }
  split.
  - intros H path Hp. apply Hr. assert (Some (role_le (role_for_path rule path) (role po who)) = Some true) as [=]; [|done].
    apply eqb_eq. apply (H (mkPathRequirement path (role_for_path rule path) (Some (role_le (role_for_path rule path) (role po who))))).
    by exists path.
  - intros H r (path & -> & Hp). cbn. apply eqb_true. f_equal. by apply Hr, H.
Qed.
(** Each part of the decision, when the state is not in the target. *)
Lemma parts_met p po rule cx is_ref base st who approvals (checks : list Check) :
  ((ru_approvals rule <=? Z.of_nat (length approvals))%Z || (negb is_ref && (who_uid who =? 0)%Z))
    && forallb (λ c, ck_result c == Passed) checks
    && forallb (λ r, pr_met r == Some true) (path_requirements (cx_changed_paths cx) (role po who) (role_for_path rule))
    && (is_ref || is_some (merge_candidate p cx is_ref false base st)) = true ↔
  requirements_met p po rule cx is_ref base st who approvals ∧ Forall (λ c, ck_result c = Passed) checks.
Proof.
  unfold requirements_met. rewrite !andb_true_iff, paths_met_spec, !orb_true_iff, andb_true_iff, negb_true_iff.
  rewrite Z.leb_le, Z.eqb_eq, forallb_elem, Forall_forall. setoid_rewrite eqb_true.
  assert (is_some (merge_candidate p cx is_ref false base st) = true ↔ ∃ c, merged p cx is_ref base st c) as ->; [|tauto].
  setoid_rewrite <-merge_candidate_spec. destruct (merge_candidate _ _ _ _ _ _); cbn; naive_solver.
Qed.
End merge_facts.

(** * The claims *)

(** C5. The decision on a protected merge or ref move, when it is taken, is exactly that of the rule.
    It is allowed just when the actor has the role and is not denied the action and either the
    target, if it is a line, has the state in its history already, or: there are enough approvals
    (root may merge into a line without them), every required check passed, the actor has the role
    of every changed path, and, for a line, the merged state is known. The approvals are those of
    distinct approvers for exactly this state, each the latest that stands, by someone who may
    approve and is no author of what comes in, and all of these. The checks are those of the
    rule; one that passed was run on the merged state, with exactly its command, and stands. *)
Theorem merge_allowed_sound `{HU : Uuid, HE : Encodings, HC : Crypto, HJ : JsonText, HL : Unicode}
    p st target cx who rule status allowed
    (po := access_policy p (cx_now cx) false) (line := find_target p target)
    (is_ref := ref_namespace target) (base := merge_base_state p cx line target) :
  merge_status_for_machine p st target cx = Ok status → ms_allowed status = Some allowed →
  cx_actor cx = Some who → rule_for po (unwrap_or (ln_name <$> line) target) = Some rule →
  (allowed = true ↔
     has_role po who (ru_update rule) ∧ not_denied po who (if is_ref then "line.manage" else "merge") ∧
     (in_target p is_ref base st ∨
      requirements_met p po rule cx is_ref base st who (ms_approvals status) ∧
      Forall (λ c, ck_result c = Passed) (ms_checks status))) ∧
  (ms_already_in_target status = true ↔ in_target p is_ref base st) ∧
  (∀ a, a ∈ ms_approvals status ↔ entitled p po rule cx (merge_mode is_ref) base st a) ∧
  NoDup ((λ a, (ap_approver a, ap_person a)) <$> ms_approvals status) ∧
  ck_name <$> ms_checks status = ru_check rule ∧
  (¬ in_target p is_ref base st → ∀ c, c ∈ ms_checks status → ck_result c = Passed → ∃ candidate command,
     merged p cx is_ref base st candidate ∧
     (v ← setting p ("check." +:+ ck_name c); as_str v) = Some command ∧
     check_stands p candidate ["sh"; "-c"; command] 0).
Proof.
  intros Hst Hal Hwho Hrule. unfold merge_status_for_machine in Hst. cbv zeta in Hst.
  fold po line is_ref base in Hst. rewrite Hrule, Hwho in Hst.
  apply bind_ok in Hst as (srec & _ & Hst). set (already := negb is_ref && _) in Hst.
  assert (already = true ↔ in_target p is_ref base st) as Hin.
  { unfold already, in_target. by rewrite andb_true_iff, negb_true_iff, ancestor_memb. }
  destruct (exact_approvals_ok p (merge_mode is_ref) (λ _, true) st base (approvals p st))
    as (cands & keep & Ec & Ecands & Hkeep). rewrite Ec in Hst. cbn [mbind result_bind] in Hst.
  destruct (foldl _ _ cands) as [counted reasons] eqn:Ej.
  destruct (allowed_person_ok p st base (merge_mode is_ref) po rule) as (persons & pkeep & Ep & Epersons & Hpkeep).
  rewrite Ep in Hst. cbn [mbind result_bind] in Hst. injection Hst as <-.
  destruct (existsb _ (counted ++ persons)) eqn:Eg; [done|].
  cbn [ms_allowed] in Hal. injection Hal as Hal.
  cbn [unwrap_or default fmap option_fmap option_map from_option id is_some_and is_none is_some negb] in *.
  cbn [ms_already_in_target ms_approvals ms_checks].
  assert (counted = filterb (λ a, may_approve po rule
    (mkWho (ap_approver a) (default [] (cx_approver_groups cx !! ap_approver a)))) cands) as Ecount.
  { apply existsb_app_false in Eg as [Eg _]. replace counted with (counted, reasons).1 in Eg |- * by done.
    rewrite <-Ej in Eg |- *. rewrite judge_known; [done| |done].
    apply Forall_forall. rewrite Ecands. intros a Ha. by apply list_elem_of_fmap in Ha as (? & -> & _). }
  destruct (counted_entitled p po rule cx (merge_mode is_ref) base st keep Hkeep) as [Hce Hcn].
  destruct (persons_entitled p po rule cx (merge_mode is_ref) base st pkeep Hpkeep) as [Hpe Hpn].
  rewrite <-Ecands, <-Ecount in Hce, Hcn. rewrite <-Epersons in Hpe, Hpn.
  split; [|split; [done|split; [|split; [|split]]]].
  - rewrite <-Hal, andb_true_iff, andb_true_iff, role_le_has, denied_by_none, orb_true_iff, Hin.
    unfold merge_action. split.
    + intros [[? ?] [?|Hm]]; [tauto|]. destruct already; [tauto|]. apply parts_met in Hm. tauto.
    + intros (? & ? & [?|Hm]); [tauto|]. split; [done|]. destruct already; [tauto|]. right. by apply parts_met.
  - intros a. rewrite elem_of_app, Hce, Hpe. destruct (ap_person a); naive_solver.
  - apply approvers_distinct; [done|apply Hce|done|apply Hpe].
  - rewrite <-list_fmap_compose. apply list_fmap_id.
  - intros Hn c Hc Hpass. apply list_elem_of_fmap in Hc as (name & -> & _).
    destruct already; [destruct (Hn (proj1 Hin eq_refl))|].
    apply rule_check_passed in Hpass as (c & command & Hc%merge_candidate_spec & ? & ?). eauto.
Qed.

(** ** Sample *)

Definition user_record (id op : string) (seq uid : Z) (data : json) : LogRecord :=
  mkRecord id "m" seq (10 + seq) op "p" (mkActor uid "" None) [] ∅ data.
Definition guard_config : json :=
  JObject [("config", JObject
    [("access", JObject [("user:5", JString "writer"); ("user:7", JString "maintainer")]);
     ("check.unit", JString "make");
     ("protect", JObject [("main", JObject [("approvals", JInt 1); ("check", JArray [JString "unit"]);
                                            ("update", JString "writer")])])])].
Definition guard_records : list LogRecord :=
  [log_r1; plain_record "r2" "m" 2 2 "commit" [plain_state "s2" Commit ["s1"] 2] ∅ JNull;
   user_record "r3" "config" 3 0 guard_config;
   user_record "r4" "approve" 4 7 (JObject [("state", JString "s2")]);
   user_record "r5" "check" 5 5
     (JObject [("argv", JArray [JString "sh"; JString "-c"; JString "make"]); ("exit", JInt 0); ("state", JString "s2")])].
Definition guard_project : Project :=
  default (empty_project "" "")
    (ok (@from_records uuid_plain encodings_hex crypto_plain no_text ascii_lowercase "p" guard_records "m")).
Definition guard_context : Context := mkContext 50 (Some (mkWho 5 [])) ∅ ["src/a"] None.
Definition guard_rule : Rule := mkRule Writer true ["unit"] false Admin ∅ 1 [].
Definition guard_status : MergeStatus :=
  mkMergeStatus "s2" "main" [mkApproval 7 None "s2" 14 (Some true)] 1 []
    [mkCheck "unit" ["sh"; "-c"; "make"] Passed (Some 0%Z)]
    [mkPathRequirement "src/a" Writer (Some true)] (Some true) false (Some "m") "decided" [] None.

Definition guard_policy : Policy := access_policy guard_project 50 false.
Definition guard_base : option string :=
  merge_base_state guard_project guard_context (find_target guard_project "main") "main".
Lemma merge_allowed_sound_witness :
  @merge_status_for_machine uuid_plain encodings_hex crypto_plain no_text ascii_lowercase guard_project "s2" "main"
    guard_context = Ok guard_status ∧
  has_role guard_policy (mkWho 5 []) Writer ∧
  (in_target guard_project false guard_base "s2" ∨
   requirements_met guard_project guard_policy guard_rule guard_context false guard_base "s2" (mkWho 5 [])
     (ms_approvals guard_status) ∧ Forall (λ c, ck_result c = Passed) (ms_checks guard_status)).
Proof.
  assert (@merge_status_for_machine uuid_plain encodings_hex crypto_plain no_text ascii_lowercase guard_project
    "s2" "main" guard_context = Ok guard_status) as E by (vm_compute; reflexivity).
  split; [exact E|].
  destruct (@merge_allowed_sound uuid_plain encodings_hex crypto_plain no_text ascii_lowercase guard_project "s2" "main"
    guard_context (mkWho 5 []) guard_rule guard_status true E eq_refl eq_refl) as [H _]; [vm_compute; reflexivity|].
  destruct (proj1 H eq_refl) as (Hr & _ & Hq). split; [exact Hr|exact Hq].
Defined.
