(* ===== verification/Authority.v ===== *)
(** Who manages the keys of an overlay ([layr-model/src/authority.rs]): the machines that a chain of
    signed manager changes leads to from the overlay's creation. *)

From S2P Require Import Prelude Strs Json Canonical Types Extern Format Request Validation Project.

Record Authority := mkAuthority {
  au_machines : gset string;
  au_previous : option string;
  au_retained : gmap string string;
  au_changes : gmap string string }.
Record Change := mkChange {
  ch_parent : string;
  ch_overlay : string;
  ch_name : string;
  ch_machines : gset string;
  ch_previous : option string;
  ch_retained : gmap string string }.
Definition Change_from_value (j : json) : result Change :=
  f ← de_struct ["parent"; "overlay"; "name"; "machines"; "previous"; "retained"] [] false j;
  parent ← f_req de_string f "parent";
  overlay ← f_req de_string f "overlay";
  name ← f_req de_string f "name";
  machines ← f_req (de_vec de_string) f "machines";
  previous ← f_opt de_string f "previous";
  retained ← f_req (de_map de_string) f "retained";
  Ok (mkChange parent overlay name (list_to_set machines) previous retained).

Definition is_hash (hash : string) : bool := (str_len hash =? 64)%Z && all_bytes is_ascii_hexdigit hash.

(** The records that only a key manager may write. *)
Definition protected (r : LogRecord) : bool :=
  memb (r_op r) ["overlay.show-to-project"; "overlay.key"; "overlay.readers"; "overlay.mode"] ||
  existsb (λ k, is_some (get (r_data r).["config"] k))
    ["overlay.access-mode"; "access"; "deny"; "overlay.revocation"; "overlay"].

Section authority.
Context `{Uuid, Encodings, Crypto, JsonText, Unicode}.

Definition parse (line : string) (key : option VerifyingKey) : result LogRecord :=
  text ← parse_bytes line key;
  j ← json_parse text;
  Record_from_value j.
Definition line_digest (line : string) : string := hex_encode (sha256 line).

(** A line whose signature verifies with the key of the machine that it names. *)
Definition parse_signed (keys : gmap string VerifyingKey) (missing : string) (line : string) : result LogRecord :=
  record ← parse line None;
  key ← ctx missing (keys !! r_machine record);
  parse line (Some key).

Definition permits (a : Authority) (record : LogRecord) (line : string) : bool :=
  bool_decide (r_machine record ∈ au_machines a) ||
  (au_retained a !! r_id record == Some (line_digest line)).
Definition require (a : Authority) (machine : string) : result () :=
  bail_if (negb (bool_decide (machine ∈ au_machines a))) "machine is not an overlay key manager".
Definition authority_line (a : Authority) (overlay : string) (keys : gmap string VerifyingKey) (line : string)
    : result () :=
  record ← parse_signed keys "overlay signer is not trusted" line;
  validate record;;
  bail_if (negb (r_project record == overlay)) "overlay record belongs to another project";;
  if r_op record == "overlay.managers" then
    bail_if (negb (au_changes a !! r_id record == Some (line_digest line)))
      "overlay manager record has no valid parent authority proof"
  else
    bail_if (protected record && negb (permits a record line)) "overlay record signer is not a key manager".
Definition Authority_validate (a : Authority) (lines : list string) (overlay : string)
    (keys : gmap string VerifyingKey) : result () :=
  for_each (authority_line a overlay keys) lines.

(** ** The fold over creations and manager changes *)

Section fold.
Context (parent : string) (keys : gmap string VerifyingKey).

Record Fold := mkFold {
  fo_authorities : gmap string Authority;
  fo_ids : gmap string (option string);
  fo_pending : list (LogRecord * string * Change) }.

(** The machine that created a hidden overlay, from its own signed creation. *)
Definition hidden_creator (name : string) (id : option string) (origin : string) : result string :=
  r ← parse_signed keys "overlay origin signer is not trusted" origin;
  validate r;;
  bail_if (negb (r_op r == "overlay.create") || negb (Some (r_project r) == id)
           || negb (is_str (r_data r).["parent"] parent) || negb (is_str (r_data r).["name"] name)
           || negb (is_bool (r_data r).["config"].["overlay." +:+ name].["hidden"] true))
    "invalid hidden overlay origin";;
  Ok (r_machine r).
Definition fold_create (fo : Fold) (record : LogRecord) : result Fold :=
  let d := r_data record in
  name ← ctx "overlay creation has no name" (as_str d.["name"]);
  check_name "overlay" name;;
  bail_if (is_some (fo_authorities fo !! name)) "conflicting overlay creator";;
  let id := as_str d.["config"].["overlay." +:+ name].["id"] in
  creator ← match as_str d.["hidden_origin"] with
            | Some origin => hidden_creator name id origin
            | None => Ok (r_machine record)
            end;
  Ok (mkFold (<[name := mkAuthority {[creator]} None ∅ ∅]> (fo_authorities fo)) (<[name := id]> (fo_ids fo))
        (fo_pending fo)).
Definition fold_change (fo : Fold) (record : LogRecord) : result Fold :=
  signed ← ctx "overlay authority proof is missing" (as_str (r_data record).["authority"]);
  change ← parse_signed keys "overlay manager signer is not trusted" signed;
  validate change;;
  bail_if (negb (r_op change == "overlay.managers")) "invalid overlay authority proof";;
  data ← Change_from_value (r_data change);
  bail_if (negb (ch_parent data == parent) || negb (r_project change == ch_overlay data)
           || negb (is_uuid (ch_overlay data)) || bool_decide (ch_machines data = ∅)
           || existsb (λ id, negb (is_uuid id)) (members (ch_machines data))
           || negb (as_str (r_data record).["name"] == Some (ch_name data)))
    "overlay manager proof has invalid project bindings";;
  Ok (mkFold (fo_authorities fo) (fo_ids fo) (fo_pending fo ++ [(change, signed, data)])).
Definition fold_record (fo : Fold) (record : LogRecord) : result Fold :=
  if r_op record == "overlay.create" then fold_create fo record else fold_change fo record.

(** One manager change applied to the authority that it continues. *)
Definition apply_change (a : Authority) (id : option string) (record : LogRecord) (line : string) (change : Change)
    : result Authority :=
  bail_if (is_some_and id (λ id, negb (id == ch_overlay change))) "overlay manager proof names another overlay";;
  require a (r_machine record);;
  bail_if (negb (bool_decide (r_machine record ∈ ch_machines change)))
    "a remaining key manager must sign manager removal";;
  for_each (λ ih, bail_if (negb (ch_retained change !! ih.1 == Some ih.2))
              "overlay manager change loses authenticated history") (entries (au_retained a));;
  bail_if (existsb (λ hash, negb (is_hash hash)) (values (ch_retained change)))
    "invalid retained overlay record digest";;
  Ok (mkAuthority (ch_machines change) (Some (r_id record)) (ch_retained change)
        (<[r_id record := line_digest line]> (au_changes a))).

Definition applicable (authorities : gmap string Authority) (x : LogRecord * string * Change) : bool :=
  is_some_and (authorities !! ch_name x.2) (λ a, au_previous a == ch_previous x.2).
(** [while !pending.is_empty()]; every turn removes one entry, so [fuel] is their number. *)
Fixpoint settle (fuel : nat) (ids : gmap string (option string)) (authorities : gmap string Authority)
    (pending : list (LogRecord * string * Change)) : result (gmap string Authority) :=
  match pending, fuel with
  | [], _ => Ok authorities
  | _, 0 => Err "out of fuel"
  | _, S fuel =>
      position ← ctx "overlay manager history has a gap or a fork" (position (applicable authorities) pending);
      x ← ctx "index out of range" (pending !! position);
      let '(record, line, change) := x in
      a ← ctx "unknown overlay authority" (authorities !! ch_name change);
      id ← ctx "index out of range" (ids !! ch_name change);
      a ← apply_change a id record line change;
      settle fuel ids (<[ch_name change := a]> authorities) (delete position pending)
  end.

(** [(a.time, &a.machine, a.seq)]. *)
Definition fold_key (r : LogRecord) : Z * string * Z := (r_time r, r_machine r, r_seq r).
Definition authority_fold (records : list LogRecord) : result (gmap string Authority) :=
  fo ← foldM fold_record (mkFold ∅ ∅ []) (sort_by (λ a b, cle (fold_key a) (fold_key b)) records);
  settle (length (fo_pending fo)) (fo_ids fo) (fo_authorities fo) (fo_pending fo).

Definition take_line (records : list LogRecord) (line : string) : result (list LogRecord) :=
  record ← parse line None;
  if (r_op record == "overlay.create") || (r_op record == "overlay.authority") then
    key ← ctx "overlay authority signer is not trusted" (keys !! r_machine record);
    parse line (Some key);;
    bail_if (negb (r_project record == parent)) "overlay authority record belongs to another parent project";;
    Ok (records ++ [record])
  else Ok records.
Definition from_lines (lines : list string) : result (gmap string Authority) :=
  records ← foldM take_line [] lines;
  authority_fold records.
End fold.

(** ** Hidden overlays *)

Record Hidden := mkHidden {
  hi_records : list LogRecord;
  hi_name : option string;
  hi_creator : option string }.
Definition set_project (project : string) (r : LogRecord) : LogRecord :=
  mkRecord (r_id r) (r_machine r) (r_seq r) (r_time r) (r_op r) project (r_actor r) (r_states r) (r_lines r) (r_data r).
Definition wrap_managers (parent line : string) (r : LogRecord) : LogRecord :=
  mkRecord (r_id r) (r_machine r) (r_seq r) (r_time r) "overlay.authority" parent (r_actor r) (r_states r) (r_lines r)
    (JObject [("authority", JString line); ("name", (r_data r).["name"])]).
Definition hidden_line (parent overlay : string) (keys : gmap string VerifyingKey) (h : Hidden) (line : string)
    : result Hidden :=
  record ← parse_signed keys "hidden overlay signer is not trusted" line;
  validate record;;
  bail_if (negb (r_project record == overlay)) "hidden overlay record belongs to another project";;
  h ← (if r_op record == "project" then
         let metadata := (r_data record).["config"].["overlay"] in
         bail_if (negb (is_str metadata.["project"] parent) || negb (is_bool metadata.["hidden"] true)
                  || negb (is_str metadata.["mode"] "follow")) "hidden overlay has invalid parent or mode";;
         Ok (mkHidden (hi_records h) (as_str metadata.["name"]) (Some (r_machine record)))
       else Ok h);
  Ok (if r_op record == "overlay.create" then
        mkHidden (hi_records h ++ [set_project parent record]) (hi_name h) (hi_creator h)
      else if r_op record == "overlay.managers" then
        mkHidden (hi_records h ++ [wrap_managers parent line record]) (hi_name h) (hi_creator h)
      else h).
Definition from_overlay_lines (parent overlay : string) (lines : list string) (keys : gmap string VerifyingKey)
    : result (string * Authority) :=
  h ← foldM (hidden_line parent overlay keys) (mkHidden [] None None) lines;
  name ← ctx "hidden overlay has no project record" (hi_name h);
  created ← ctx "hidden overlay has no creation record" (find (λ r, r_op r == "overlay.create") (hi_records h));
  let d := r_data created in
  bail_if (negb (is_str d.["parent"] parent) || negb (is_str d.["name"] name)
           || negb (is_str d.["config"].["overlay." +:+ name].["id"] overlay)
           || negb (is_bool d.["config"].["overlay." +:+ name].["hidden"] true)
           || negb (Some (r_machine created) == hi_creator h))
    "hidden overlay creation differs from its project";;
  authorities ← authority_fold parent keys (hi_records h);
  bail_if (negb (length (entries authorities) =? 1)%nat) "hidden overlay has conflicting creations";;
  a ← ctx "hidden overlay name differs from creation" (authorities !! name);
  Authority_validate a lines overlay keys;;
  Ok (name, a).

(** The exact protected records that the current authority accepts. *)
Definition retained_step (a : Authority) (m : gmap string string) (line : string) : result (gmap string string) :=
  record ← parse line None;
  if protected record then
    bail_if (negb (permits a record line)) "overlay record signer is not a key manager";;
    Ok (<[r_id record := line_digest line]> m)
  else Ok m.
Definition retained (a : Authority) (lines : list string) : result (gmap string string) :=
  foldM (retained_step a) (au_retained a) lines.
End authority.

(** * Properties *)

Section facts.
Context `{HU : Uuid, HE : Encodings, HC : Crypto, HJ : JsonText, HL : Unicode}.

(** A line that parses and whose signature verifies with the trusted key of its machine. *)
Definition signed_by (keys : gmap string VerifyingKey) (line : string) (r : LogRecord) : Prop :=
  ∃ key, keys !! r_machine r = Some key ∧ parse line (Some key) = Ok r.

Lemma parse_key line key r : parse line (Some key) = Ok r → parse line None = Ok r.
Proof.
  unfold parse, parse_bytes. intros H. inv_ok. rewrite H. rsimpl. rewrite H8. rsimpl.
  rewrite H2. rsimpl. rewrite H3. rsimpl. rewrite H4. rsimpl. rewrite H7. rsimpl. by rewrite H0.
Qed.
Lemma parse_signed_ok keys msg line r : parse_signed keys msg line = Ok r → signed_by keys line r.
Proof.
  unfold parse_signed. intros (r0 & H0 & H)%bind_ok. apply bind_ok in H as (key & Hk%ctx_ok & Hp).
  pose proof (parse_key _ _ _ Hp) as E. rewrite H0 in E. injection E as ->. by exists key.
Qed.

(** The records of an overlay's creation: the creator signed its creation, or a trusted machine
    did and published the creator's own signed creation. *)
Definition created_by (parent : string) (keys : gmap string VerifyingKey) (records : list LogRecord)
    (name creator : string) : Prop :=
  ∃ r, r ∈ records ∧ r_op r = "overlay.create" ∧ as_str (r_data r).["name"] = Some name ∧
    match as_str (r_data r).["hidden_origin"] with
    | None => creator = r_machine r
    | Some origin => ∃ ro, signed_by keys origin ro ∧ validate ro = Ok tt ∧ r_op ro = "overlay.create" ∧
        is_str (r_data ro).["parent"] parent = true ∧ is_str (r_data ro).["name"] name = true ∧
        creator = r_machine ro
    end.

(** A signed manager change of the overlay [name] of [parent]. *)
Record manager_change (parent : string) (keys : gmap string VerifyingKey) (name line : string) (r : LogRecord)
    (c : Change) : Prop := {
  mc_signed : signed_by keys line r;
  mc_valid : validate r = Ok tt;
  mc_op : r_op r = "overlay.managers";
  mc_data : Change_from_value (r_data r) = Ok c;
  mc_parent : ch_parent c = parent;
  mc_overlay : ch_overlay c = r_project r;
  mc_name : ch_name c = name;
  mc_some : ch_machines c ≠ ∅ }.

(** The authorities that a chain of manager changes leads to: every change continues the one
    before it and is signed by a machine that was a manager and stays one; nothing that was
    retained is lost. *)
Inductive managed (parent : string) (keys : gmap string VerifyingKey) (records : list LogRecord) (name : string)
    : Authority → Prop :=
| managed_created creator :
    created_by parent keys records name creator →
    managed parent keys records name (mkAuthority {[creator]} None ∅ ∅)
| managed_changed a line r c :
    managed parent keys records name a →
    manager_change parent keys name line r c → ch_previous c = au_previous a →
    r_machine r ∈ au_machines a → r_machine r ∈ ch_machines c → au_retained a ⊆ ch_retained c →
    managed parent keys records name
      (mkAuthority (ch_machines c) (Some (r_id r)) (ch_retained c) (<[r_id r := line_digest line]> (au_changes a))).

Section chain.
Context (parent : string) (keys : gmap string VerifyingKey) (records : list LogRecord).

Record fold_inv (fo : Fold) : Prop := {
  fi_created : ∀ name a, fo_authorities fo !! name = Some a → managed parent keys records name a;
  fi_pending : ∀ r line c, (r, line, c) ∈ fo_pending fo → manager_change parent keys (ch_name c) line r c }.

Lemma hidden_creator_ok name id origin creator :
  hidden_creator parent keys name id origin = Ok creator →
  ∃ ro, signed_by keys origin ro ∧ validate ro = Ok tt ∧ r_op ro = "overlay.create" ∧
    is_str (r_data ro).["parent"] parent = true ∧ is_str (r_data ro).["name"] name = true ∧ creator = r_machine ro.
Proof.
  unfold hidden_creator. intros (ro & Hs%parse_signed_ok & H)%bind_ok. inv_ok. exists ro. done.
Qed.
Lemma fold_record_inv fo r fo' :
  r ∈ records → fold_inv fo → fold_record parent keys fo r = Ok fo' → fold_inv fo'.
Proof.
  intros Hr [Hc Hp]. unfold fold_record. destruct (r_op r == "overlay.create") eqn:Eo.
  - apply eqb_eq in Eo. unfold fold_create. cbv zeta.
    intros (name & Hname%ctx_ok & H)%bind_ok. apply bind_ok in H as (_ & _ & H).
    apply bind_ok in H as (_ & _ & H). apply bind_ok in H as (creator & Hcr & [= <-]).
    split; simpl; [|done]. intros n a [[<- <-]|[_ Ha]]%lookup_insert_Some; [|auto].
    constructor. exists r. split; [done|]. split; [done|]. split; [done|].
    destruct (as_str (r_data r).["hidden_origin"]); [by apply hidden_creator_ok in Hcr|by injection Hcr].
  - unfold fold_change. intros (signed & _ & H)%bind_ok. apply bind_ok in H as (c & Hs%parse_signed_ok & H).
    inv_ok. split; simpl; [done|]. intros r' line d [Hin|Hin]%elem_of_app; [auto|].
    apply list_elem_of_singleton in Hin as [= -> -> ->]. split; try done.
    by eapply bool_decide_eq_false_1.
Qed.

Lemma apply_change_ok a id r line c a' :
  apply_change a id r line c = Ok a' →
  r_machine r ∈ au_machines a ∧ r_machine r ∈ ch_machines c ∧ au_retained a ⊆ ch_retained c ∧
  a' = mkAuthority (ch_machines c) (Some (r_id r)) (ch_retained c) (<[r_id r := line_digest line]> (au_changes a)).
Proof.
  unfold apply_change, require. intros H. inv_ok. split_and!; try done.
  - by eapply bool_decide_eq_true_1.
  - by eapply bool_decide_eq_true_1.
  - match goal with H : for_each _ _ = Ok _ |- _ => rename H into Hall end. rewrite for_each_ok, Forall_forall in Hall.
    apply map_subseteq_spec. intros i h Hi. specialize (Hall (i, h)). simpl in Hall.
    assert ((i, h) ∈ entries (au_retained a)) as Hin by by apply elem_of_entries.
    apply Hall in Hin. by inv_ok.
Qed.
Lemma settle_managed fuel ids auths pending out :
  (∀ name a, auths !! name = Some a → managed parent keys records name a) →
  (∀ r line c, (r, line, c) ∈ pending → manager_change parent keys (ch_name c) line r c) →
  settle fuel ids auths pending = Ok out →
  ∀ name a, out !! name = Some a → managed parent keys records name a.
Proof.
  revert auths pending. induction fuel as [|fuel IH]; intros auths pending Ha Hp; simpl.
  { destruct pending; [by intros [= <-]|done]. }
  destruct pending as [|x0 rest]; [by intros [= <-]|]. set (pending := x0 :: rest) in *.
  intros (i & Hpos%ctx_ok & H)%bind_ok. apply bind_ok in H as ([[r line] c] & Hi%ctx_ok & H).
  apply bind_ok in H as (a & Hauth%ctx_ok & H). apply bind_ok in H as (id & _ & H).
  apply bind_ok in H as (a' & (Hm & Hstay & Hret & ->)%apply_change_ok & H).
  destruct (position_some _ _ _ Hpos) as (x & Hx & Happ). rewrite Hi in Hx. injection Hx as <-.
  unfold applicable in Happ. simpl in Happ. rewrite Hauth in Happ. simpl in Happ. apply eqb_eq in Happ.
  revert H. apply IH.
  - intros name b [[<- <-]|[_ Hb]]%lookup_insert_Some; [|auto].
    eapply managed_changed; [by apply Ha|apply Hp; by eapply list_elem_of_lookup_2|done..].
  - intros r' line' c' Hin. apply Hp. by eapply list_elem_of_delete_inv.
Qed.
Lemma authority_fold_managed out :
  authority_fold parent keys records = Ok out →
  ∀ name a, out !! name = Some a → managed parent keys records name a.
Proof.
  unfold authority_fold. intros (fo & Hf & Hs)%bind_ok.
  assert (fold_inv fo) as [Hc Hp].
  { eapply (foldM_inv fold_inv); [| |exact Hf].
    - split; simpl; [intros ??; by rewrite lookup_empty|set_solver].
    - intros fo1 r fo2 Hr. apply fold_record_inv. by rewrite elem_of_sort_by in Hr. }
  by apply (settle_managed _ _ _ _ _ Hc Hp Hs).
Qed.
End chain.

Lemma take_line_inv parent keys lines :
  ∀ records, foldM (take_line parent keys) [] lines = Ok records →
  ∀ r, r ∈ records → r_project r = parent ∧ ∃ line, line ∈ lines ∧ signed_by keys line r.
Proof.
  intros records Hf.
  eapply (foldM_inv (λ rs, ∀ r, r ∈ rs → r_project r = parent ∧ ∃ line, line ∈ lines ∧ signed_by keys line r));
    [| |exact Hf]; [set_solver|].
  intros rs line rs' Hl Hrs. unfold take_line. intros (r & Hr & H)%bind_ok.
  destruct (_ || _); [|by injection H as <-]. apply bind_ok in H as (key & Hk%ctx_ok & H).
  apply bind_ok in H as (r' & Hs & H). inv_ok. intros x [Hx| ->%list_elem_of_singleton]%elem_of_app; [auto|].
  split; [done|]. exists line. split; [done|]. exists key. split; [done|].
  pose proof (parse_key _ _ _ Hs) as E. rewrite Hr in E. by injection E as ->.
Qed.

(** What validation against an authority establishes of every line of an overlay. *)
Definition line_authorized (a : Authority) (overlay : string) (keys : gmap string VerifyingKey) (line : string) : Prop :=
  ∃ r, signed_by keys line r ∧ validate r = Ok tt ∧ r_project r = overlay ∧
    (r_op r = "overlay.managers" → au_changes a !! r_id r = Some (line_digest line)) ∧
    (r_op r ≠ "overlay.managers" → protected r = true →
       r_machine r ∈ au_machines a ∨ au_retained a !! r_id r = Some (line_digest line)).
Lemma Authority_validate_ok a lines overlay keys :
  Authority_validate a lines overlay keys = Ok tt → Forall (line_authorized a overlay keys) lines.
Proof.
  unfold Authority_validate. rewrite for_each_ok. intros Hall. eapply Forall_impl; [exact Hall|].
  intros line. simpl. unfold authority_line. intros (r & Hs%parse_signed_ok & H)%bind_ok. exists r. split; [done|].
  apply bind_ok in H as ([] & Hv & H). apply bind_ok in H as ([] & Hp & H).
  apply bail_if_ok, negb_false_iff, eqb_eq in Hp. split; [done|]. split; [done|].
  destruct (r_op r == "overlay.managers") eqn:Eo; apply bail_if_ok in H.
  - apply eqb_eq in Eo. apply negb_false_iff, eqb_eq in H. done.
  - apply eqb_ne in Eo. split; [done|]. intros _ Hpr. rewrite Hpr in H. simpl in H.
    apply negb_false_iff in H. unfold permits in H. apply orb_true_iff in H as [H|H].
    + left. by eapply bool_decide_eq_true_1.
    + right. by apply eqb_eq.
Qed.
Lemma from_overlay_lines_ok parent overlay lines keys name a :
  from_overlay_lines parent overlay lines keys = Ok (name, a) →
  ∃ records, managed parent keys records name a ∧ Forall (line_authorized a overlay keys) lines.
Proof.
  unfold from_overlay_lines. intros (h & _ & H)%bind_ok. apply bind_ok in H as (n & _ & H).
  apply bind_ok in H as (created & _ & H). cbv zeta in H. apply bind_ok in H as (_ & _ & H).
  apply bind_ok in H as (auths & Hf & H). apply bind_ok in H as (_ & _ & H).
  apply bind_ok in H as (b & Hb%ctx_ok & H). apply bind_ok in H as ([] & Hv & [= -> ->]).
  exists (hi_records h). split; [by apply (authority_fold_managed _ _ _ _ Hf)|by apply Authority_validate_ok].
Qed.
End facts.

(** * The claims *)

(** C18. Managers come from a signed chain only: the machines that may manage an overlay's keys are
    its creator, or those named by the last of a chain of verified manager changes, each of which
    continues the one before it, is signed by a machine that was a manager and stays one, and
    keeps every record retained so far. The creation is a line signed by a trusted machine of the
    parent project. *)
Theorem authority_chain `{HU : Uuid, HE : Encodings, HC : Crypto, HJ : JsonText, HL : Unicode}
    parent keys lines out name a :
  from_lines parent keys lines = Ok out → out !! name = Some a →
  ∃ records, managed parent keys records name a ∧
    ∀ r, r ∈ records → r_project r = parent ∧ ∃ line, line ∈ lines ∧ signed_by keys line r.
Proof.
  unfold from_lines. intros (records & Hr & Hf)%bind_ok Ha. exists records. split.
  - by apply (authority_fold_managed _ _ _ _ Hf).
  - by apply take_line_inv.
Qed.

(** C32. An accepted hidden overlay is authorized throughout: its authority comes from a signed chain,
    and every one of its lines is signed by a trusted machine, every manager change is a link of
    that chain, and every protected record is by a current manager or was retained byte for byte. *)
Theorem hidden_overlay_authorized `{HU : Uuid, HE : Encodings, HC : Crypto, HJ : JsonText, HL : Unicode}
    parent overlay lines keys name a :
  from_overlay_lines parent overlay lines keys = Ok (name, a) →
  ∃ records, managed parent keys records name a ∧ Forall (line_authorized a overlay keys) lines.
Proof. apply from_overlay_lines_ok. Qed.

(** ** Samples *)

(** The texts of a line [l] with the signed record [r]; its body is the text [b]. *)
Definition line_raw (l b : string) : string * raw := (l, RawObject [("r", b); ("s", b +:+ "s")]).
Definition line_texts (key b : string) (r : LogRecord) : list (string * json) :=
  [(b, Record_to_value r); (b +:+ "s", JString (hex_text (fit 64 (key +:+ b))))].
Definition chain_record (id machine : string) (op project : string) (data : json) : LogRecord :=
  mkRecord id machine 1 1 op project (mkActor 0 "" None) [] ∅ data.
Definition chain_keys : gmap string string := {[uuid_n "1" := "a"; uuid_n "2" := "b"]}.

Definition open_create : LogRecord :=
  chain_record (uuid_n "3") (uuid_n "1") "overlay.create" sample_uuid
    (JObject [("config", JObject [("overlay.secrets", JObject [("id", JString (uuid_n "8"))])]);
              ("name", JString "secrets")]).
Definition open_change : LogRecord :=
  chain_record (uuid_n "4") (uuid_n "1") "overlay.managers" (uuid_n "8")
    (JObject [("machines", JArray [JString (uuid_n "1"); JString (uuid_n "2")]); ("name", JString "secrets");
              ("overlay", JString (uuid_n "8")); ("parent", JString sample_uuid); ("previous", JNull);
              ("retained", JObject [])]).
Definition open_wrapper : LogRecord :=
  chain_record (uuid_n "5") (uuid_n "2") "overlay.authority" sample_uuid
    (JObject [("authority", JString "M"); ("name", JString "secrets")]).
Definition open_text : JsonText :=
  text_table (line_texts "a" "create" open_create ++ line_texts "a" "change" open_change ++
              line_texts "b" "wrapper" open_wrapper)
    [line_raw "C" "create"; line_raw "M" "change"; line_raw "W" "wrapper"] (λ _, "").
Definition open_authority : Authority :=
  mkAuthority {[uuid_n "1"; uuid_n "2"]} (Some (uuid_n "4")) ∅ {[uuid_n "4" := hex_text (fit 32 "M")]}.
Definition open_authorities : gmap string Authority :=
  default ∅ (ok (@from_lines uuid_plain encodings_hex crypto_plain open_text ascii_lowercase sample_uuid chain_keys
                   ["W"; "C"])).
Lemma authority_chain_witness :
  ∃ records, @managed uuid_plain encodings_hex crypto_plain open_text ascii_lowercase sample_uuid chain_keys records
      "secrets" open_authority ∧
    ∀ r, r ∈ records → r_project r = sample_uuid ∧
      ∃ line, line ∈ ["W"; "C"] ∧ @signed_by encodings_hex crypto_plain open_text chain_keys line r.
Proof.
  apply (@authority_chain uuid_plain encodings_hex crypto_plain open_text ascii_lowercase sample_uuid chain_keys
    ["W"; "C"] open_authorities); vm_compute; reflexivity.
Defined.

Definition hidden_project : LogRecord :=
  chain_record (uuid_n "3") (uuid_n "1") "project" (uuid_n "8")
    (JObject [("config", JObject [("overlay", JObject
       [("hidden", JBool true); ("mode", JString "follow"); ("name", JString "h"); ("project", JString sample_uuid)])])]).
Definition hidden_create : LogRecord :=
  chain_record (uuid_n "4") (uuid_n "1") "overlay.create" (uuid_n "8")
    (JObject [("config", JObject [("overlay.h", JObject [("hidden", JBool true); ("id", JString (uuid_n "8"))])]);
              ("name", JString "h"); ("parent", JString sample_uuid)]).
Definition hidden_key : LogRecord :=
  chain_record (uuid_n "5") (uuid_n "1") "overlay.key" (uuid_n "8") (JObject []).
Definition hidden_text : JsonText :=
  text_table (line_texts "a" "project" hidden_project ++ line_texts "a" "create" hidden_create ++
              line_texts "a" "key" hidden_key)
    [line_raw "P" "project"; line_raw "C" "create"; line_raw "K" "key"] (λ _, "").
Definition hidden_authority : Authority := mkAuthority {[uuid_n "1"]} None ∅ ∅.
Lemma hidden_overlay_authorized_witness :
  ∃ records, @managed uuid_plain encodings_hex crypto_plain hidden_text ascii_lowercase sample_uuid chain_keys records
      "h" hidden_authority ∧
    Forall (@line_authorized uuid_plain encodings_hex crypto_plain hidden_text ascii_lowercase hidden_authority
              (uuid_n "8") chain_keys) ["P"; "C"; "K"].
Proof.
  apply (@hidden_overlay_authorized uuid_plain encodings_hex crypto_plain hidden_text ascii_lowercase).
  vm_compute. reflexivity.
Defined.
