(* ===== verification/StoreIndex.v ===== *)
(** Disposable indexes of a project ([layr-store/src/index.rs]): snapshots of heads, changed
    paths and skip pointers, signed by a machine, sealed, and bound to the name of their object;
    and the choice of the newest snapshot by its watermark. *)

From S2P Require Import Prelude Strs Json Types Canonical Extern Format.

(** ** Data *)

Record Watermark := mkWatermark { wm_seq : Z; wm_hash : string }.
Record IndexLine := mkIndexLine {
  il_name : string; il_id : string; il_owner : Z; il_machine : string; il_head : string }.
Record IndexRef := mkIndexRef { ir_name : string; ir_target : string }.
Record IndexChange := mkIndexChange {
  ic_id : string; ic_state : string; ic_title : string; ic_author : json; ic_time : Z }.
Record Counts := mkCounts { ct_states : Z; ct_records : Z; ct_overlays : Z }.
Record Heads := mkHeads {
  hd_seq : Z; hd_watermark : gmap string Watermark; hd_lines : list IndexLine;
  hd_refs : list IndexRef; hd_changes : list IndexChange; hd_counts : Counts }.
Record PathChange := mkPathChange {
  pc_path : string; pc_old : option string; pc_new : option string; pc_mode : string }.
Record Paths := mkPaths { ps_state : string; ps_paths : list PathChange }.
Record Graph := mkGraph { gr_state : string; gr_ancestors : list string }.
Inductive Data := DataHeads (h : Heads) | DataPaths (p : Paths) | DataGraph (g : Graph).
Record Index := mkIndex { ix_v : Z; ix_project : string; ix_machine : string; ix_data : Data }.

#[export] Instance Watermark_eq_dec : EqDecision Watermark.
Proof. solve_decision. Defined.
#[export] Instance IndexLine_eq_dec : EqDecision IndexLine.
Proof. solve_decision. Defined.
#[export] Instance IndexRef_eq_dec : EqDecision IndexRef.
Proof. solve_decision. Defined.
#[export] Instance IndexChange_eq_dec : EqDecision IndexChange.
Proof. solve_decision. Defined.
#[export] Instance Counts_eq_dec : EqDecision Counts.
Proof. solve_decision. Defined.
#[export] Instance Heads_eq_dec : EqDecision Heads.
Proof. solve_decision. Defined.
#[export] Instance PathChange_eq_dec : EqDecision PathChange.
Proof. solve_decision. Defined.
#[export] Instance Paths_eq_dec : EqDecision Paths.
Proof. solve_decision. Defined.
#[export] Instance Graph_eq_dec : EqDecision Graph.
Proof. solve_decision. Defined.
#[export] Instance Data_eq_dec : EqDecision Data.
Proof. solve_decision. Defined.
#[export] Instance Index_eq_dec : EqDecision Index.
Proof. solve_decision. Defined.

(** ** Serialization *)

Definition Watermark_to_value (w : Watermark) : json :=
  ser_struct [("seq", Some (JInt (wm_seq w))); ("hash", Some (JString (wm_hash w)))].
Definition Watermark_from_value (j : json) : result Watermark :=
  f ← de_struct ["seq"; "hash"] [] false j;
  seq ← f_req de_u64 f "seq"; hash ← f_req de_string f "hash";
  Ok (mkWatermark seq hash).
Definition IndexLine_to_value (l : IndexLine) : json :=
  ser_struct [("name", Some (JString (il_name l))); ("id", Some (JString (il_id l)));
    ("owner", Some (JInt (il_owner l))); ("machine", Some (JString (il_machine l)));
    ("head", Some (JString (il_head l)))].
Definition IndexLine_from_value (j : json) : result IndexLine :=
  f ← de_struct ["name"; "id"; "owner"; "machine"; "head"] [] false j;
  name ← f_req de_string f "name"; id ← f_req de_string f "id"; owner ← f_req de_u32 f "owner";
  machine ← f_req de_string f "machine"; head ← f_req de_string f "head";
  Ok (mkIndexLine name id owner machine head).
Definition IndexRef_to_value (r : IndexRef) : json :=
  ser_struct [("name", Some (JString (ir_name r))); ("target", Some (JString (ir_target r)))].
Definition IndexRef_from_value (j : json) : result IndexRef :=
  f ← de_struct ["name"; "target"] [] false j;
  name ← f_req de_string f "name"; target ← f_req de_string f "target";
  Ok (mkIndexRef name target).
Definition IndexChange_to_value (c : IndexChange) : json :=
  ser_struct [("id", Some (JString (ic_id c))); ("state", Some (JString (ic_state c)));
    ("title", Some (JString (ic_title c))); ("author", Some (ic_author c));
    ("time", Some (JInt (ic_time c)))].
Definition IndexChange_from_value (j : json) : result IndexChange :=
  f ← de_struct ["id"; "state"; "title"; "author"; "time"] [] false j;
  id ← f_req de_string f "id"; state ← f_req de_string f "state";
  title ← f_req de_string f "title"; author ← f_req de_value f "author";
  time ← f_req de_i64 f "time";
  Ok (mkIndexChange id state title author time).
Definition Counts_to_value (c : Counts) : json :=
  ser_struct [("states", Some (JInt (ct_states c))); ("records", Some (JInt (ct_records c)));
    ("overlays", Some (JInt (ct_overlays c)))].
Definition Counts_from_value (j : json) : result Counts :=
  f ← de_struct ["states"; "records"; "overlays"] [] false j;
  states ← f_req de_u64 f "states"; records ← f_req de_u64 f "records";
  overlays ← f_req de_u64 f "overlays";
  Ok (mkCounts states records overlays).
Definition Heads_to_value (h : Heads) : json :=
  ser_struct [("seq", Some (JInt (hd_seq h)));
    ("watermark", Some (ser_map Watermark_to_value (hd_watermark h)));
    ("lines", Some (JArray (IndexLine_to_value <$> hd_lines h)));
    ("refs", Some (JArray (IndexRef_to_value <$> hd_refs h)));
    ("changes", Some (JArray (IndexChange_to_value <$> hd_changes h)));
    ("counts", Some (Counts_to_value (hd_counts h)))].
Definition Heads_from_value (j : json) : result Heads :=
  f ← de_struct ["seq"; "watermark"; "lines"; "refs"; "changes"; "counts"] [] false j;
  seq ← f_req de_u64 f "seq";
  watermark ← f_req (de_map Watermark_from_value) f "watermark";
  lines ← f_req (de_vec IndexLine_from_value) f "lines";
  refs ← f_req (de_vec IndexRef_from_value) f "refs";
  changes ← f_req (de_vec IndexChange_from_value) f "changes";
  counts ← f_req Counts_from_value f "counts";
  Ok (mkHeads seq watermark lines refs changes counts).
Definition PathChange_to_value (p : PathChange) : json :=
  ser_struct [("path", Some (JString (pc_path p))); ("old", Some (ser_option JString (pc_old p)));
    ("new", Some (ser_option JString (pc_new p))); ("mode", Some (JString (pc_mode p)))].
Definition PathChange_from_value (j : json) : result PathChange :=
  f ← de_struct ["path"; "old"; "new"; "mode"] [] false j;
  path ← f_req de_string f "path"; old ← f_opt de_string f "old";
  new ← f_opt de_string f "new"; mode ← f_req de_string f "mode";
  Ok (mkPathChange path old new mode).
Definition Paths_to_value (p : Paths) : json :=
  ser_struct [("state", Some (JString (ps_state p)));
    ("paths", Some (JArray (PathChange_to_value <$> ps_paths p)))].
Definition Paths_from_value (j : json) : result Paths :=
  f ← de_struct ["state"; "paths"] [] false j;
  state ← f_req de_string f "state"; paths ← f_req (de_vec PathChange_from_value) f "paths";
  Ok (mkPaths state paths).
Definition Graph_to_value (g : Graph) : json :=
  ser_struct [("state", Some (JString (gr_state g)));
    ("ancestors", Some (JArray (JString <$> gr_ancestors g)))].
Definition Graph_from_value (j : json) : result Graph :=
  f ← de_struct ["state"; "ancestors"] [] false j;
  state ← f_req de_string f "state"; ancestors ← f_req (de_vec de_string) f "ancestors";
  Ok (mkGraph state ancestors).
(** [#[serde(tag = "kind", content = "data")]]: the tag and the content are two members. *)
Definition Data_to_value (d : Data) : json :=
  let '(kind, content) := match d with
    | DataHeads h => ("heads", Heads_to_value h)
    | DataPaths p => ("paths", Paths_to_value p)
    | DataGraph g => ("graph", Graph_to_value g)
    end in
  ser_struct [("kind", Some (JString kind)); ("data", Some content)].
Definition Data_from_value (j : json) : result Data :=
  f ← de_struct ["kind"; "data"] [] false j;
  kind ← f_req de_string f "kind";
  if kind == "heads" then DataHeads <$> f_req Heads_from_value f "data"
  else if kind == "paths" then DataPaths <$> f_req Paths_from_value f "data"
  else if kind == "graph" then DataGraph <$> f_req Graph_from_value f "data"
  else Err "unknown variant".
Definition Index_to_value (i : Index) : json :=
  ser_struct [("v", Some (JInt (ix_v i))); ("project", Some (JString (ix_project i)));
    ("machine", Some (JString (ix_machine i))); ("data", Some (Data_to_value (ix_data i)))].
Definition Index_from_value (j : json) : result Index :=
  f ← de_struct ["v"; "project"; "machine"; "data"] [] false j;
  v ← f_req de_u32 f "v"; project ← f_req de_string f "project";
  machine ← f_req de_string f "machine"; data ← f_req Data_from_value f "data";
  Ok (mkIndex v project machine data).

(** ** Names and validation *)

(** [set.insert(x)] that must be new. *)
Definition insert_new (msg : string) (x : string) (set : gset string) : result (gset string) :=
  ensure (negb (bool_decide (x ∈ set))) msg;; Ok ({[x]} ∪ set).

Section index.
Context `{Uuid, Encodings, Crypto, JsonText}.

Definition line_hash (line : string) : string := hex_encode (sha256 line).
Definition index_id (value : string) : result () :=
  ensure (is_some_and (uuid_parse value) (λ v, uuid_text v == value)) "invalid index identity".
Definition index_hash (value : string) : bool :=
  (str_len value =? 64)%Z && all_bytes (λ c, is_ascii_digit c || byte_between 97 102 c) value.
Definition heads_name (machine : string) (seq : Z) : string :=
  "index/heads/" +:+ machine +:+ "/" +:+ dec_pad 20 seq +:+ ".age".
Definition parse_heads_name (name : string) : option (string * Z) :=
  rest ← strip_prefix "index/heads/" name;
  '(machine, seq) ← split_once "/" rest;
  seq ← strip_suffix ".age" seq;
  if negb (is_ok (index_id machine)) || negb (str_len seq =? 20)%Z
     || negb (all_bytes is_ascii_digit seq)
  then None
  else seq ← parse_uint u64_max seq; Some (machine, seq).
Definition paths_name (state : string) : string := "index/paths/" +:+ state +:+ ".age".
Definition graph_name (state : string) : string := "index/graph/" +:+ state +:+ ".age".
Definition Index_name (i : Index) : string :=
  match ix_data i with
  | DataHeads h => heads_name (ix_machine i) (hd_seq h)
  | DataPaths p => paths_name (ps_state p)
  | DataGraph g => graph_name (gr_state g)
  end.

Definition check_line (ids : gset string) (l : IndexLine) : result (gset string) :=
  index_id (il_id l);; index_id (il_machine l);; index_id (il_head l);;
  insert_new "duplicate index line" (il_id l) ids.
Definition check_ref (names : gset string) (r : IndexRef) : result (gset string) :=
  index_id (ir_target r);; insert_new "duplicate index ref" (ir_name r) names.
Definition check_change (ids : gset string) (c : IndexChange) : result (gset string) :=
  index_id (ic_id c);; index_id (ic_state c);; insert_new "duplicate index change" (ic_id c) ids.
Definition check_path (paths : gset string) (p : PathChange) : result (gset string) :=
  ensure (safe_path (pc_path p)) "invalid index path";;
  paths ← insert_new "duplicate index path" (pc_path p) paths;
  ensure (is_some (pc_old p) || is_some (pc_new p)) "empty path change";;
  ensure (forallb index_hash (option_list (pc_old p) ++ option_list (pc_new p)))
    "invalid index blob hash";;
  ensure (memb (pc_mode p) ["100644"; "100755"; "120000"]) "invalid index mode";;
  Ok paths.
Definition check_ancestor (seen : gset string) (ancestor : string) : result (gset string) :=
  index_id ancestor;; insert_new "index graph has a cycle" ancestor seen.

Definition Index_validate (i : Index) : result () :=
  ensure (ix_v i =? 1)%Z "unsupported index version";;
  index_id (ix_project i);;
  index_id (ix_machine i);;
  match ix_data i with
  | DataHeads h =>
      ensure ((0 <? hd_seq h)%Z && negb (map_is_empty (hd_watermark h)))
        "empty index watermark or sequence";;
      for_each (λ mw : string * Watermark,
          index_id mw.1;;
          ensure ((0 <? wm_seq mw.2)%Z && index_hash (wm_hash mw.2)) "invalid index watermark")
        (entries (hd_watermark h));;
      foldM check_line ∅ (hd_lines h);;
      foldM check_ref ∅ (hd_refs h);;
      foldM check_change ∅ (hd_changes h);;
      Ok ()
  | DataPaths p =>
      index_id (ps_state p);;
      foldM check_path ∅ (ps_paths p);;
      Ok ()
  | DataGraph g =>
      index_id (gr_state g);;
      ensure (length (gr_ancestors g) <=? 64)%nat "index graph exceeds sequence range";;
      foldM check_ancestor {[gr_state g]} (gr_ancestors g);;
      Ok ()
  end.

(** ** Sealing and opening *)

(** The signed line of an index: [{"r":body,"s":"sig"}]. *)
Definition index_line (body sig : string) : string :=
  "{" +:+ String quote ("r" +:+ String quote (":" +:+ body +:+ "," +:+
  String quote ("s" +:+ String quote (":" +:+ String quote (sig +:+ String quote "}"))))).
Definition Index_seal (i : Index) (coin recipient : string) (key : SigningKey) : result string :=
  Index_validate i;;
  body ← canonical (Index_to_value i);
  let sig := sign_bytes body key in
  encrypt coin recipient (index_line body sig).

(** [struct Signer]. *)
Definition signer_machine (j : json) : result string :=
  f ← de_struct ["machine"] [] false j; f_req de_string f "machine".
Definition open_index (identity object name project : string) (trusted : gmap string VerifyingKey)
    : result Index :=
  plain ← decrypt identity object;
  ensure (utf8_valid plain) "invalid utf-8 sequence";;
  raw ← parse_bytes plain None;
  machine ← (j ← json_parse raw; signer_machine j);
  key ← ctx "index signer is not trusted" (trusted !! machine);
  raw ← verify_line plain key;
  index ← (j ← json_parse raw; Index_from_value j);
  Index_validate index;;
  ensure (ix_project index == project) "index belongs to another project";;
  ensure (Index_name index == name) "index identity differs from its object name";;
  Ok index.

(** ** Watermarks *)

Definition check_watermark (h : Heads) (verified_line : string → Z → option string) : result () :=
  for_each (λ mw : string * Watermark,
      line ← ctx "index watermark record is missing" (verified_line mw.1 (wm_seq mw.2));
      ensure (line_hash line == wm_hash mw.2) "index watermark hash differs from its record")
    (entries (hd_watermark h)).
End index.

Definition dominates (h other : Heads) : bool :=
  forallb (λ mw : string * Watermark,
      is_some_and (hd_watermark h !! mw.1) (λ v, (wm_seq mw.2 <? wm_seq v)%Z || (v == mw.2)))
    (entries (hd_watermark other)).
Definition same_view (h other : Heads) : bool :=
  (hd_watermark h == hd_watermark other) && (hd_lines h == hd_lines other) &&
  (hd_refs h == hd_refs other) && (hd_changes h == hd_changes other) &&
  (hd_counts h == hd_counts other).

(** The checks of the chosen snapshot against one other. *)
Definition agree (candidate : Index) (heads : Heads) (other : Index) : result () :=
  match ix_data other with
  | DataHeads h =>
      ensure (ix_project candidate == ix_project other) "index snapshot projects differ";;
      when (hd_watermark heads == hd_watermark h)
        (ensure (same_view heads h)
           "index snapshots disagree at the same watermark; load signed records")
  | _ => Err "unreachable"
  end.
Fixpoint newest_go (indexes candidates : list Index) : result (option Index) :=
  match candidates with
  | [] => Err "index watermarks conflict; load signed records"
  | candidate :: rest =>
      match ix_data candidate with
      | DataHeads heads =>
          if forallb (λ other, match ix_data other with
                               | DataHeads h => dominates heads h | _ => false end) indexes
          then for_each (agree candidate heads) indexes;; Ok (Some candidate)
          else newest_go indexes rest
      | _ => Err "expected heads snapshot"
      end
  end.
Definition newest (indexes : list Index) : result (option Index) :=
  match indexes with [] => Ok None | _ => newest_go indexes indexes end.

(** * Properties *)

(** ** Round trip of the JSON form *)

Definition Watermark_wf (w : Watermark) : bool := in_u64 (wm_seq w).
Definition IndexChange_wf (c : IndexChange) : bool := is_value (ic_author c) && in_i64 (ic_time c).
Definition Counts_wf (c : Counts) : bool :=
  in_u64 (ct_states c) && in_u64 (ct_records c) && in_u64 (ct_overlays c).
Definition Heads_wf (h : Heads) : bool :=
  in_u64 (hd_seq h) && forallb Watermark_wf (values (hd_watermark h)) &&
  forallb (λ l, in_u32 (il_owner l)) (hd_lines h) && forallb IndexChange_wf (hd_changes h) &&
  Counts_wf (hd_counts h).
(** Every integer of the index fits its Rust type, and authors are values. *)
Definition Index_wf (i : Index) : bool :=
  in_u32 (ix_v i) && match ix_data i with DataHeads h => Heads_wf h | _ => true end.

Lemma Watermark_roundtrip w :
  Watermark_wf w = true → Watermark_from_value (Watermark_to_value w) = Ok w.
Proof. intros Hwf. destruct w. unfold Watermark_from_value, Watermark_to_value. roundtrip. Qed.
Lemma IndexLine_roundtrip l :
  in_u32 (il_owner l) = true → IndexLine_from_value (IndexLine_to_value l) = Ok l.
Proof. intros Hwf. destruct l. unfold IndexLine_from_value, IndexLine_to_value. roundtrip. Qed.
Lemma IndexRef_roundtrip r : IndexRef_from_value (IndexRef_to_value r) = Ok r.
Proof. destruct r. unfold IndexRef_from_value, IndexRef_to_value. roundtrip. Qed.
Lemma IndexChange_roundtrip c :
  IndexChange_wf c = true → IndexChange_from_value (IndexChange_to_value c) = Ok c.
Proof.
  unfold IndexChange_wf. intros [Ha Ht]%andb_true_iff. unfold IndexChange_from_value, IndexChange_to_value.
  roundtrip. rewrite de_value_id by done. autorewrite with serde. by destruct c.
Qed.
Lemma Counts_roundtrip c : Counts_wf c = true → Counts_from_value (Counts_to_value c) = Ok c.
Proof.
  unfold Counts_wf. intros Hwf. inv_ok. destruct c. unfold Counts_from_value, Counts_to_value.
  roundtrip.
Qed.
Lemma de_vec_forallb {A} (wf : A → bool) (e : A → json) (d : json → result A) l :
  (∀ a, wf a = true → d (e a) = Ok a) → forallb wf l = true → de_vec d (JArray (e <$> l)) = Ok l.
Proof. intros Hd Hl. apply de_vec_ser, Forall_forall. rewrite forallb_elem in Hl. auto. Qed.
Lemma Heads_roundtrip h : Heads_wf h = true → Heads_from_value (Heads_to_value h) = Ok h.
Proof.
  unfold Heads_wf. intros Hwf. inv_ok. unfold Heads_from_value, Heads_to_value. roundtrip.
  rewrite de_map_ser, (de_vec_forallb (λ l, in_u32 (il_owner l))) by
    first [done|apply IndexLine_roundtrip|
           intros k a Ha; apply Watermark_roundtrip;
           match goal with H : forallb Watermark_wf _ = true |- _ => rewrite forallb_elem in H;
             apply H, elem_of_values; eauto end].
  rewrite (de_vec_forallb (λ _, true) IndexRef_to_value)
    by (first [intros; apply IndexRef_roundtrip|by apply forallb_elem]).
  rewrite (de_vec_forallb IndexChange_wf) by first [done|apply IndexChange_roundtrip].
  rewrite Counts_roundtrip by done. by destruct h.
Qed.
Lemma PathChange_roundtrip p : PathChange_from_value (PathChange_to_value p) = Ok p.
Proof.
  destruct p as [? old new ?]. unfold PathChange_from_value, PathChange_to_value.
  destruct old, new; roundtrip.
Qed.
Lemma Paths_roundtrip p : Paths_from_value (Paths_to_value p) = Ok p.
Proof.
  unfold Paths_from_value, Paths_to_value. roundtrip.
  rewrite de_vec_ser by (by apply Forall_true, PathChange_roundtrip). by destruct p.
Qed.
Lemma Graph_roundtrip g : Graph_from_value (Graph_to_value g) = Ok g.
Proof.
  unfold Graph_from_value, Graph_to_value. roundtrip.
  rewrite de_vec_ser by (by apply Forall_true). by destruct g.
Qed.
Lemma Index_roundtrip i : Index_wf i = true → Index_from_value (Index_to_value i) = Ok i.
Proof.
  unfold Index_wf. intros [Hv Hd]%andb_true_iff. unfold Index_from_value, Index_to_value. roundtrip.
  assert (Data_from_value (Data_to_value (ix_data i)) = Ok (ix_data i)) as ->.
  { unfold Data_from_value, Data_to_value. destruct (ix_data i); roundtrip.
    - rewrite eqb_refl. by rewrite Heads_roundtrip.
    - change ("paths" == "heads") with false. rewrite eqb_refl. by rewrite Paths_roundtrip.
    - change ("graph" == "heads") with false. change ("graph" == "paths") with false.
      rewrite eqb_refl. by rewrite Graph_roundtrip. }
  by destruct i.
Qed.

(** ** Opening *)

Section open_facts.
Context `{HU : Uuid, HE : Encodings, HC : Crypto, HJ : JsonText}.

(** The two readers of the signed text see the same machine. *)
Lemma signer_machine_index j m i :
  signer_machine j = Ok m → Index_from_value j = Ok i → m = ix_machine i.
Proof.
  unfold signer_machine, Index_from_value. destruct j as [| | | | |l|o]; try done.
  - destruct l as [|a [|b l]]; [done| |done]. intros _ (f & [= <-] & Hi)%bind_ok.
    inv_ok.
  - intros (f & ->%de_struct_object & Hs)%bind_ok (f' & ->%de_struct_object & Hi)%bind_ok.
    inv_ok. simpl. unfold f_req in *. cbn [f_map] in *. destruct (jlookup "machine" o); congruence.
Qed.

Lemma open_index_spec identity object name project trusted i :
  open_index identity object name project trusted = Ok i →
  ∃ plain body s sig key j,
    decrypt identity object = Ok plain ∧ line_fields plain body s ∧
    base64_decode s = Some sig ∧ trusted !! ix_machine i = Some key ∧
    ed_verify key body sig = true ∧ json_parse body = Ok j ∧ Index_from_value j = Ok i ∧
    Index_validate i = Ok tt ∧ ix_project i = project ∧ Index_name i = name.
Proof.
  unfold open_index. intros H. apply bind_ok in H as (plain & Hp & H).
  apply bind_ok in H as (_ & _ & H). apply bind_ok in H as (raw & [s Hraw]%parse_bytes_none & H).
  apply bind_ok in H as (m & Hm & H). apply bind_ok in H as (key & Hk%ctx_ok & H).
  apply bind_ok in H as (raw' & (s' & Hf & Hv)%verify_line_ok & H).
  destruct (line_fields_unique _ _ _ _ _ Hraw Hf) as [<- <-].
  apply bind_ok in Hm as (j & Hj & Hm). apply bind_ok in H as (i' & Hi & H).
  rewrite Hj in Hi. simpl in Hi. inv_ok. unfold verify_bytes in Hv. inv_ok.
  rewrite (signer_machine_index _ _ _ Hm Hi) in Hk. naive_solver.
Qed.

(** A sealed index opens to itself for a reader that trusts the signing machine. *)
Lemma seal_open_index `{!EncodingsSpec HE, !CryptoSpec HC} i coin recipient identity key trusted body object
    (line := index_line body (sign_bytes body key))
    (t := json_print (JString (sign_bytes body key))) :
  Index_wf i = true → canonical (Index_to_value i) = Ok body →
  Index_seal i coin recipient key = Ok object →
  age_decrypt (str_trim identity) object = Some line →
  trusted !! ix_machine i = Some (verifying_key key) →
  utf8_valid line = true →
  json_raw line = Ok (RawObject [("r", body); ("s", t)]) →
  json_parse body = Ok (Index_to_value i) → json_parse t = Ok (JString (sign_bytes body key)) →
  open_index identity object (Index_name i) (ix_project i) trusted = Ok i.
Proof.
  intros Hwf Hc Hs Hd Ht Hu Hraw Hj Hsig.
  assert (line_fields line body (sign_bytes body key)) as Hl.
  { exists [("r", body); ("s", t)], t. rewrite Hraw. rsimpl.
    rewrite raw_struct_fields by (apply (bool_decide_unpack _); by vm_compute).
    rewrite Hsig. by repeat split. }
  unfold open_index, decrypt. rewrite Hd. rsimpl. rewrite Hu. rsimpl.
  rewrite (proj2 (parse_bytes_none line body)) by eauto. rsimpl. rewrite Hj. rsimpl.
  assert (signer_machine (Index_to_value i) = Ok (ix_machine i)) as ->.
  { unfold signer_machine, Index_to_value, ser_struct.
    change (de_struct _ _ _ (JObject ?m)) with (Ok (Fields false m)). done. }
  rsimpl. rewrite Ht. rsimpl.
  rewrite (proj2 (verify_line_ok line (verifying_key key) body)) by eauto using verify_sign_bytes.
  rsimpl. rewrite Hj. rsimpl. rewrite Index_roundtrip by done. rsimpl.
  unfold Index_seal in Hs. apply bind_ok in Hs as ([] & -> & _). rsimpl. by rewrite !eqb_refl.
Qed.
End open_facts.

(** ** Names *)

Lemma index_id_uuid `{HU : Uuid, !UuidSpec HU} s : index_id s = Ok tt ↔ is_uuid s = true.
Proof.
  unfold index_id, is_uuid. rewrite ensure_ok. destruct (uuid_parse s) as [u|]; simpl.
  - rewrite andb_true_iff. split; [|by intros []]. intros E. split; [|done].
    apply eqb_eq in E as <-. apply (str_len_nat _ 36), uuid_text_len.
  - by rewrite andb_false_r.
Qed.
Lemma parse_heads_name_iff `{HU : Uuid, !UuidSpec HU} name m n :
  parse_heads_name name = Some (m, n) ↔
  name = heads_name m n ∧ index_id m = Ok tt ∧ in_u64 n = true.
Proof.
  unfold parse_heads_name, heads_name. split.
  - intros Hp. inv_ok. pad_inv n 20. name_inv. split; [done|]. split.
    + by destruct (index_id m) as [[]|].
    + unfold in_u64. rewrite andb_true_iff, !Z.leb_le. lia.
  - intros (-> & Hm & Hn). unfold in_u64 in Hn. rewrite andb_true_iff, !Z.leb_le in Hn.
    rewrite strip_prefix_app. simpl.
    rewrite split_once_sep by (apply is_uuid_no_byte; [done|by apply index_id_uuid]). simpl.
    rewrite strip_suffix_app. simpl. rewrite Hm, dec_pad_all_digit. unfold u64_max in *.
    rewrite (proj2 (str_len_nat _ 20)) by (apply dec_pad_length; lia). simpl.
    by rewrite parse_uint_dec_pad by (unfold u64_max; lia).
Qed.

(** ** Watermarks are ordered by domination *)

Lemma dominates_spec h h' :
  dominates h h' = true ↔
  ∀ m w, hd_watermark h' !! m = Some w →
    ∃ v, hd_watermark h !! m = Some v ∧ ((wm_seq w < wm_seq v)%Z ∨ v = w).
Proof.
  unfold dominates. rewrite forallb_elem. split.
  - intros Hd m w Hw. specialize (Hd (m, w)). simpl in Hd.
    destruct (hd_watermark h !! m) as [v|]; simpl in Hd.
    + exists v. split; [done|]. apply elem_of_entries, Hd, orb_true_iff in Hw.
      by rewrite Z.ltb_lt, eqb_true in Hw.
    + discriminate Hd. by apply elem_of_entries.
  - intros Hd [m w] Hw%elem_of_entries. destruct (Hd m w Hw) as (v & Hv & Hlt). simpl. rewrite Hv. simpl.
    apply orb_true_iff. by rewrite Z.ltb_lt, eqb_true.
Qed.
Lemma dominates_refl h : dominates h h = true.
Proof. apply dominates_spec. eauto. Qed.
Lemma dominates_trans a b c : dominates a b = true → dominates b c = true → dominates a c = true.
Proof.
  rewrite !dominates_spec. intros Hab Hbc m w Hw. destruct (Hbc m w Hw) as (v & Hv & Hlt).
  destruct (Hab m v Hv) as (u & Hu & Hlt'). exists u. split; [done|].
  destruct Hlt as [? | ->], Hlt' as [? | ->]; auto. left. lia.
Qed.
Lemma dominates_antisym a b :
  dominates a b = true → dominates b a = true → hd_watermark a = hd_watermark b.
Proof.
  rewrite !dominates_spec. intros Hab Hba. apply map_eq. intros m. apply option_eq. intros w. split.
  - intros Hw. destruct (Hba m w Hw) as (v & Hv & Hlt), (Hab m v Hv) as (u & Hu & Hlt').
    simplify_eq. destruct Hlt as [? | ->]; [|done]. destruct Hlt' as [? | ->]; [lia|done].
  - intros Hw. destruct (Hab m w Hw) as (v & Hv & Hlt), (Hba m v Hv) as (u & Hu & Hlt').
    simplify_eq. destruct Hlt as [? | ->]; [|done]. destruct Hlt' as [? | ->]; [lia|done].
Qed.
Lemma same_view_spec h h' :
  same_view h h' = true ↔
  h' = mkHeads (hd_seq h') (hd_watermark h) (hd_lines h) (hd_refs h) (hd_changes h) (hd_counts h).
Proof.
  unfold same_view. rewrite !andb_true_iff, !eqb_true. destruct h, h'; simpl. naive_solver.
Qed.

(** ** The newest snapshot *)

(** [h] has read, of every machine, all that [h'] has: a record further on in the machine's sequence,
    or the very same one. *)
Definition covers (h h' : Heads) : Prop := ∀ m w,
  hd_watermark h' !! m = Some w →
  ∃ v, hd_watermark h !! m = Some v ∧ ((wm_seq w < wm_seq v)%Z ∨ wm_seq v = wm_seq w ∧ wm_hash v = wm_hash w).
(** The two show the same project: everything but the sequence that the machine gave the snapshot. *)
Definition view_of (h : Heads) := (hd_watermark h, hd_lines h, hd_refs h, hd_changes h, hd_counts h).

(** [c] is a snapshot that every snapshot of the list agrees with. *)
Definition newest_of (l : list Index) (c : Index) : Prop :=
  ∃ h, ix_data c = DataHeads h ∧
  ∀ o, o ∈ l → ∃ h', ix_data o = DataHeads h' ∧ covers h h' ∧
    ix_project o = ix_project c ∧ (hd_watermark h = hd_watermark h' → view_of h = view_of h').

Lemma dominates_covers h h' : dominates h h' = true ↔ covers h h'.
Proof.
  rewrite dominates_spec. unfold covers. split; intros H m w Hw; destruct (H m w Hw) as (v & Hv & Hc); exists v;
    (split; [done|]); (destruct Hc as [?|Hc]; [by left|right]); [by subst|]. destruct v, w. simpl in *. by destruct Hc as [-> ->].
Qed.
Lemma same_view_of h h' : same_view h h' = true ↔ view_of h = view_of h'.
Proof. rewrite same_view_spec. unfold view_of. destruct h, h'; simpl. naive_solver. Qed.

Lemma agree_ok c h o h' :
  ix_data o = DataHeads h' →
  agree c h o = Ok tt ↔
  ix_project o = ix_project c ∧ (hd_watermark h = hd_watermark h' → view_of h = view_of h').
Proof.
  rewrite <-same_view_of. intros Ho. unfold agree, when. rewrite Ho, bind_ok. split.
  - intros ([] & Hp & Hv). inv_ok. split; [done|]. intros Hw. rewrite Hw, eqb_refl in Hv. by inv_ok.
  - intros [Hp Hv]. exists tt. rewrite Hp, eqb_refl. split; [done|].
    destruct (eqb _ _) eqn:E; [|done]. apply eqb_eq in E. by rewrite Hv.
Qed.
Lemma newest_go_sound l cs c :
  newest_go l cs = Ok (Some c) → c ∈ cs ∧ newest_of l c.
Proof.
  induction cs as [|c' cs IH]; simpl; [done|]. destruct (ix_data c') as [h| |] eqn:Ec; [|done..].
  destruct (forallb _ l) eqn:Hf.
  - intros H. inv_ok. split; [left|]. exists h. split; [done|]. intros o Ho.
    rewrite forallb_elem in Hf. specialize (Hf o Ho). destruct (ix_data o) as [h'| |] eqn:Eo; [|done..].
    exists h'. split; [done|]. split; [by apply dominates_covers|]. apply (agree_ok _ _ _ _ Eo).
    match goal with H : for_each _ _ = Ok _ |- _ => apply for_each_ok in H;
      by apply (proj1 (Forall_forall _ _) H) end.
  - intros [? ?]%IH. split; [by right|done].
Qed.
Lemma newest_none l : newest l = Ok None ↔ l = [].
Proof.
  assert (∀ cs, newest_go l cs ≠ Ok None) as H.
  { intros cs. induction cs as [|c cs IH]; simpl; [done|]. destruct (ix_data c); [|done..].
    destruct (forallb _ l); [|done]. by destruct (for_each _ l). }
  destruct l; [done|]. split; [intros E; by destruct (H _ E)|done].
Qed.
(** Two such snapshots show the same view. *)
Lemma newest_of_view l c c' h h' :
  c ∈ l → c' ∈ l → newest_of l c → newest_of l c' →
  ix_data c = DataHeads h → ix_data c' = DataHeads h' →
  ix_project c = ix_project c' ∧ view_of h = view_of h'.
Proof.
  intros Hc Hc' (k & Hk & Hn) (k' & Hk' & Hn') Hh Hh'. rewrite Hk in Hh. rewrite Hk' in Hh'. simplify_eq.
  destruct (Hn c' Hc') as (k1 & E1 & D1 & P1 & V1), (Hn' c Hc) as (k2 & E2 & D2 & P2 & V2).
  rewrite Hk in E2. rewrite Hk' in E1. simplify_eq. split; [done|]. apply V1.
  by apply dominates_antisym; apply dominates_covers.
Qed.
(** Whenever there is one, some candidate is chosen. *)
Lemma newest_go_complete l cs c :
  c ∈ l → newest_of l c → (∀ x, x ∈ cs → x ∈ l) → c ∈ cs → ∃ c', newest_go l cs = Ok (Some c').
Proof.
  intros Hc Hn. induction cs as [|x cs IH]; intros Hsub Hin; [set_solver|]. simpl.
  destruct Hn as (h & Eh & Hall). destruct (Hall x (Hsub x ltac:(left))) as (k & Ek & Dk & Pk & Vk).
  rewrite Ek. destruct (forallb _ l) eqn:Hf.
  - exists x. rewrite forallb_elem in Hf.
    assert (dominates k h = true) as Dk'. { specialize (Hf c Hc). by rewrite Eh in Hf. }
    pose proof (dominates_antisym _ _ (proj2 (dominates_covers _ _) Dk) Dk') as Hw. specialize (Vk Hw).
    rewrite (proj2 (for_each_ok _ _ tt)); [done|]. apply Forall_forall. intros o Ho.
    destruct (Hall o Ho) as (k' & Eo & Do & Po & Vo). apply (agree_ok _ _ _ _ Eo).
    split; [congruence|]. intros Hw'. rewrite <-Hw in Hw'. by rewrite <-Vk, Vo.
  - apply IH; [intros; apply Hsub; by right|]. apply elem_of_cons in Hin as [->|]; [|done].
    rewrite Eh in Ek. simplify_eq. apply not_true_iff_false in Hf. destruct Hf. apply forallb_elem.
    intros o Ho. destruct (Hall o Ho) as (k' & -> & Hk & _). by apply dominates_covers.
Qed.

(** ** Main results *)

(** C29. An index that opens is authentic and in its place: the decrypted line carries a signature
    over its exact text that verifies with the trusted key of the machine the index names; the
    index is what that text says, passes validation, belongs to the requested project and has the
    name it was fetched under. *)
Theorem index_open_authentic `{HU : Uuid, HE : Encodings, HC : Crypto, HJ : JsonText}
    identity object name project trusted i :
  open_index identity object name project trusted = Ok i →
  ∃ plain body s sig key j,
    decrypt identity object = Ok plain ∧ line_fields plain body s ∧
    base64_decode s = Some sig ∧ trusted !! ix_machine i = Some key ∧
    ed_verify key body sig = true ∧ json_parse body = Ok j ∧ Index_from_value j = Ok i ∧
    Index_validate i = Ok tt ∧ ix_project i = project ∧ Index_name i = name.
Proof. apply open_index_spec. Qed.

(** A snapshot of one machine's records, its signed line and the texts of the reader. *)
Definition snapshot_of (seq mark : Z) : Index :=
  mkIndex 1 sample_uuid sample_uuid (DataHeads (mkHeads seq
    {[sample_uuid := mkWatermark mark (rep 64 "a")]} [] [] [] (mkCounts 0 0 0))).
Definition snapshot_body : string := default "" (ok (canonical (Index_to_value (snapshot_of 1 4)))).
Definition snapshot_sig : string := hex_text (fit 64 ("key" +:+ snapshot_body)).
Definition snapshot_line : string := index_line snapshot_body snapshot_sig.
Definition snapshot_text : JsonText :=
  text_table [(snapshot_body, Index_to_value (snapshot_of 1 4)); (snapshot_sig, JString snapshot_sig)]
    [(snapshot_line, RawObject [("r", snapshot_body); ("s", snapshot_sig)])]
    (λ j, match j with JString s => s | _ => "" end).
Lemma index_open_authentic_witness :
  ∃ plain body s sig key j,
    @decrypt crypto_plain "age1x" ("age1x:" +:+ snapshot_line) = Ok plain ∧
    @line_fields snapshot_text plain body s ∧ @base64_decode encodings_hex s = Some sig ∧
    ({[sample_uuid := "key"]} : gmap string string) !! sample_uuid = Some key ∧
    @ed_verify crypto_plain key body sig = true ∧ @json_parse snapshot_text body = Ok j ∧
    Index_from_value j = Ok (snapshot_of 1 4) ∧
    @Index_validate uuid_plain (snapshot_of 1 4) = Ok tt ∧
    ix_project (snapshot_of 1 4) = sample_uuid ∧
    Index_name (snapshot_of 1 4) = heads_name sample_uuid 1.
Proof.
  apply (@index_open_authentic uuid_plain encodings_hex crypto_plain snapshot_text "age1x"
    ("age1x:" +:+ snapshot_line) (heads_name sample_uuid 1) sample_uuid {[sample_uuid := "key"]}
    (snapshot_of 1 4)). by vm_compute.
Defined.

(** C30. [newest] finds the newest snapshot whenever there is one. A chosen snapshot belongs to the
    list and every snapshot of the list is one of heads, of the same project, and has read no further:
    of every machine that it has read, the chosen one holds a later record or the same one, with the
    same hash. A snapshot with exactly the same watermark shows the same lines, refs, changes and
    counts. If the list has such a snapshot, one is chosen; the answer is none only for the empty list;
    and another listing of the same snapshots gives the same project and the same view, whatever their
    order and the sequences that machines gave them. *)
Theorem newest_exact l :
  (newest l = Ok None ↔ l = []) ∧
  (∀ c, newest l = Ok (Some c) → c ∈ l ∧ newest_of l c) ∧
  (∀ c, c ∈ l → newest_of l c → ∃ c', newest l = Ok (Some c')) ∧
  (∀ l' c h, (∀ x, x ∈ l ↔ x ∈ l') → newest l = Ok (Some c) → ix_data c = DataHeads h →
     ∃ c' h', newest l' = Ok (Some c') ∧ ix_data c' = DataHeads h' ∧
       ix_project c = ix_project c' ∧ view_of h = view_of h').
Proof.
  assert (∀ l c, newest l = Ok (Some c) → c ∈ l ∧ newest_of l c) as Hs.
  { intros k c. destruct k; [done|]. apply newest_go_sound. }
  assert (∀ l c, c ∈ l → newest_of l c → ∃ c', newest l = Ok (Some c')) as Hc.
  { intros k c Hin Hn. destruct k; [set_solver|]. by eapply newest_go_complete. }
  split; [apply newest_none|]. split; [apply Hs|]. split; [apply Hc|]. intros l' c h Hl Hn Hh. destruct (Hs _ _ Hn) as [Hin Hof].
  assert (newest_of l' c) as Hof'.
  { destruct Hof as (k & Ek & Hk). exists k. split; [done|]. intros o Ho. by apply Hk, Hl. }
  destruct (Hc l' c) as [c' Hc']; [by apply Hl|done|]. destruct (Hs _ _ Hc') as [Hin' Hof''].
  pose proof Hof'' as (k & Ek & _). exists c', k. split; [done|]. split; [done|].
  apply (newest_of_view l' c c'); [by apply Hl|done..].
Qed.
Lemma newest_exact_witness :
  newest [snapshot_of 100 3; snapshot_of 1 4] = Ok (Some (snapshot_of 1 4)) ∧
  newest_of [snapshot_of 100 3; snapshot_of 1 4] (snapshot_of 1 4).
Proof.
  assert (newest [snapshot_of 100 3; snapshot_of 1 4] = Ok (Some (snapshot_of 1 4))) as E
    by (by vm_compute).
  split; [exact E|]. exact (proj2 (proj1 (proj2 (newest_exact _)) _ E)).
Defined.
