(* ===== verification/Snapshot.v ===== *)
(** Indexes derived from a project and reconciled with its signed records
    ([layr-model/src/index.rs]): watermarks over signed lines, snapshots of heads, changed paths
    of trees, skip pointers along first parents, and history through them. *)

From S2P Require Import Prelude Strs Json Canonical Types Extern Format Request Validation Project Queries History FileHistory StoreIndex.

(** ** Snapshots *)

(** [s.lines().next().unwrap_or("")]. *)
Definition first_line (s : string) : string :=
  match split_once newline s with
  | Some (line, _) => default line (strip_suffix (String (byte_of 13) "") line)
  | None => s
  end.

Section snapshot.
Context `{Uuid, Encodings, Crypto, JsonText, Unicode}.

Definition read_record (line : string) : result LogRecord :=
  raw ← parse_bytes line None;
  j ← json_parse raw;
  Record_from_value j.

(** The watermark so far, and the hash that each machine and sequence was seen with. *)
Definition Marks : Type := gmap string Watermark * gmap (string * Z) string.
Definition watermark_line (marks : Marks) (line : string) : result Marks :=
  let '(out, seen) := marks in
  record ← read_record line;
  let hash := line_hash line in
  let key := (r_machine record, r_seq record) in
  match seen !! key with
  | Some old => ensure (old == hash) "conflicting index source record"
  | None => Ok ()
  end;;
  let mark := default (mkWatermark 0 "") (out !! r_machine record) in
  let mark := if (wm_seq mark <? r_seq record)%Z then mkWatermark (r_seq record) hash else mark in
  Ok (<[r_machine record := mark]> out, <[key := hash]> seen).
Definition watermark (lines : list string) : result (gmap string Watermark) :=
  fst <$> foldM watermark_line (∅, ∅) lines.

Definition heads (p : Project) (watermark : gmap string Watermark) (seq : Z) : result Heads :=
  let lines := (λ l, mkIndexLine (ln_name l) (ln_id l) (ln_owner l) (ln_machine l) (ln_head l))
    <$> line_list p in
  let refs := (λ r, mkIndexRef (rs_name r) (rs_target r)) <$> values (p_refs p) in
  changes ← collect (λ s,
      id ← ctx "open change has an identity" (st_change_id s);
      Ok (mkIndexChange id (st_id s) (first_line (st_message s)) (Author_to_value (st_author s))
            (st_time s))) (open_changes p);
  let overlays := filterb (λ k, starts_with "overlay." k && negb (has_byte "@" k)) (keys (p_config p)) in
  Ok (mkHeads seq watermark lines refs changes
        (mkCounts (Z.of_nat (size (p_states p))) (Z.of_nat (length (p_records p)))
                  (Z.of_nat (length overlays)))).

(** The lines at or below the watermark by machine and sequence, and their records in order. *)
Definition Prefix : Type := gmap (string * Z) string * list LogRecord.
Definition covered (marks : gmap string Watermark) (r : LogRecord) : bool :=
  is_some_and (marks !! r_machine r) (λ m, (r_seq r <=? wm_seq m)%Z).
Definition prefix_line (project : string) (marks : gmap string Watermark) (acc : Prefix) (line : string)
    : result Prefix :=
  let '(by_seq, prefix) := acc in
  r ← read_record line;
  ensure (r_project r == project) "index source belongs to another project";;
  if covered marks r then
    let key := (r_machine r, r_seq r) in
    match by_seq !! key with
    | Some old =>
        ensure (old == line) "conflicting watermark source";;
        Ok (<[key := line]> by_seq, prefix)
    | None => Ok (<[key := line]> by_seq, prefix ++ [r])
    end
  else Ok (by_seq, prefix).
Definition check_gap (by_seq : gmap (string * Z) string) (mw : string * Watermark) : result () :=
  let sequences := snd <$> filterb (λ ms : string * Z, ms.1 == mw.1) (keys by_seq) in
  ensure ((Z.of_nat (length sequences) =? wm_seq mw.2)%Z && (hd_error sequences == Some 1%Z))
    "index watermark has a gap".

Definition reconcile (index : Index) (verified_lines : list string) : result Project :=
  Index_validate index;;
  match ix_data index with
  | DataHeads snapshot =>
      '(by_seq, prefix) ← foldM (prefix_line (ix_project index) (hd_watermark snapshot)) (∅, [])
                            verified_lines;
      check_watermark snapshot (λ machine seq, by_seq !! (machine, seq));;
      for_each (check_gap by_seq) (entries (hd_watermark snapshot));;
      project ← from_records (ix_project index) prefix "";
      expected ← heads project (hd_watermark snapshot) (hd_seq snapshot);
      ensure (expected == snapshot) "index snapshot differs from signed records";;
      Ok project
  | _ => Err "expected heads snapshot"
  end.

Record Loaded := mkLoaded { ld_project : Project; ld_used_index : bool; ld_note : option string }.
Definition load_or_full (snapshot : result Index) (project : string) (verified_lines : list string)
    : result Loaded :=
  let cached :=
    snapshot ← snapshot;
    ensure (ix_project snapshot == project) "index project differs";;
    reconcile snapshot verified_lines in
  match cached with
  | Ok project => Ok (mkLoaded project true None)
  | Err error =>
      model ← from_verified_lines verified_lines "";
      p ← ctx "project has no verified records" (m_projects model !! project);
      Ok (mkLoaded p false (Some ("Index discarded: " +:+ error)))
  end.
End snapshot.

(** ** Changed paths *)

Definition path_change (parent tree : Tree) (path : string) : option PathChange :=
  let old := t_files parent !! path in
  let new := t_files tree !! path in
  match old, new with
  | Some a, Some b =>
      if (en_mode a == en_mode b) && (en_hash a == en_hash b) then None
      else Some (mkPathChange path (Some (en_hash a)) (Some (en_hash b)) (en_mode b))
  | _, _ => e ← or_else new old; Some (mkPathChange path (en_hash <$> old) (en_hash <$> new) (en_mode e))
  end.
Definition tree_paths (state : string) (parent tree : Tree) : Paths :=
  mkPaths state (filter_map (path_change parent tree)
    (members (dom (t_files parent) ∪ dom (t_files tree)))).

(** ** Skip pointers *)

Section graph.
Context (ancestor_graph : string → result Graph).
(** The turns of the loop from [power] on. *)
Fixpoint graph_go (id : string) (powers : list nat) (ancestors : list string) : result (list string) :=
  match powers with
  | [] => Ok ancestors
  | power :: powers =>
      at_power ← ctx "index out of bounds" (ancestors !! power);
      halfway ← ancestor_graph at_power;
      match gr_ancestors halfway !! power with
      | None => Ok ancestors
      | Some next =>
          ensure (negb (next == id) && negb (memb next ancestors)) "index ancestry cycle";;
          graph_go id powers (ancestors ++ [next])
      end
  end.
Definition graph (s : StateRec) : result Graph :=
  ancestors ← match st_parents s with
    | [] => Ok []
    | parent :: _ => graph_go (st_id s) (seq 0 63) [parent]
    end;
  Ok (mkGraph (st_id s) ancestors).
End graph.

(** ** Indexed history *)

Section indexed.
Context (p : Project) (paths : gmap string Paths) (graphs : gmap string Graph).

Definition check_paths (st : string) (parent tree : Tree) : result () :=
  ensure (paths !! st == Some (tree_paths st parent tree)) "index paths differ from signed tree".

(** The first-parent chain, with the states at distances 1, 2, 4, ... collected. *)
Fixpoint checked_go (fuel : nat) (at_ : StateRec) (distance next_distance : Z) (expected : list string)
    (seen : gset string) : result (list string) :=
  match st_parents at_ with
  | [] => Ok expected
  | parent :: _ =>
      match fuel with
      | 0 => Err "out of fuel"
      | S fuel =>
          seen ← insert_new "source ancestry cycle" parent seen;
          at_ ← ctx "missing ancestor record" (state p parent);
          let distance := (distance + 1)%Z in
          if (distance =? next_distance)%Z then
            next_distance ← ctx "ancestry overflow"
              (if in_u64 (next_distance * 2) then Some (next_distance * 2)%Z else None);
            checked_go fuel at_ distance next_distance (expected ++ [st_id at_]) seen
          else checked_go fuel at_ distance next_distance expected seen
      end
  end.
Definition checked_graph (st : string) : result Graph :=
  g ← ctx "missing index graph" (graphs !! st);
  ensure (gr_state g == st) "graph state differs";;
  at_ ← ctx "missing state record" (state p st);
  expected ← checked_go (S (size (p_states p))) at_ 0 1 [] {[st]};
  ensure (gr_ancestors g == expected) "index graph differs from signed records";;
  Ok g.

(** Every turn clears the highest bit of the distance, a [u64]. *)
Fixpoint ancestor_go (fuel : nat) (at_ : string) (distance : Z) : result string :=
  if (0 <? distance)%Z then
    match fuel with
    | 0 => Err "out of fuel"
    | S fuel =>
        let bit := Z.log2 distance in
        g ← checked_graph at_;
        at_ ← ctx "ancestor is outside history" (gr_ancestors g !! Z.to_nat bit);
        ancestor_go fuel at_ (distance - Z.shiftl 1 bit)
    end
  else Ok at_.
Definition ancestor (start : string) (distance : Z) : result string :=
  checked_graph start;; ancestor_go 64 start distance.

Definition indexed_paths (s : StateRec) : result (list string) :=
  ps ← ctx "missing path index" (paths !! st_id s);
  ensure (ps_state ps == st_id s) "path index state differs";;
  Ok (pc_path <$> ps_paths ps).
Definition file_history_from (start path : string) (offset : Z) : result (list StateRec) :=
  start ← ancestor start offset;
  default (Err "out of fuel")
    (file_history ∅ true (λ id, Ok (state p id)) indexed_paths (λ f, f == path) keep
       (1 + pending p ∅) [start] []).
Definition indexed_file_history (start path : string) : result (list StateRec) :=
  file_history_from start path 0.
End indexed.

(** ** Indexed blame *)

Section indexed_blame.
Context (p : Project) (paths : gmap string Paths) (graphs : gmap string Graph).
Context (diff_lines : string → string → list DiffOp).
(** The caller's loader of one version of the file. *)
Context (blob : string → string → result (option string)).

(** The versions that are read, newest first, with the bytes they hold. *)
Fixpoint load_versions (path : string) (states : list StateRec) (versions : list FileVersion) (held : Z)
    : result (list FileVersion) :=
  match states with
  | [] => Ok versions
  | s :: states =>
      change ← ctx "missing file path change"
        (ps ← paths !! st_id s; find (λ c, pc_path c == path) (ps_paths ps));
      if is_none (pc_new change) || (pc_mode change == "120000") then Ok versions
      else
        bytes ← blob (st_id s) path;
        match bytes with
        | None => Ok versions
        | Some bytes =>
            ensure (str_len bytes <=? Z.shiftl 64 20)%Z "file is larger than 64 MiB";;
            match last versions with
            | Some previous =>
                if fv_bytes previous == bytes
                then load_versions path states (removelast versions ++ [mkFileVersion (Some s) bytes]) held
                else
                  let held := (held + str_len bytes)%Z in
                  if (Z.shiftl 256 20 <? held)%Z then Ok versions
                  else load_versions path states (versions ++ [mkFileVersion (Some s) bytes]) held
            | None => load_versions path states [mkFileVersion (Some s) bytes] (held + str_len bytes)
            end
        end
  end.
Definition indexed_blame (start path : string) : result (list BlameLine) :=
  states ← indexed_file_history p paths graphs start path;
  versions ← load_versions path states [] 0;
  blame diff_lines versions.
End indexed_blame.

(** * Properties *)

(** ** First-parent chains *)

(** The state [n] first parents before [id]. *)
Fixpoint nth_parent (p : Project) (n : nat) (id : string) : option string :=
  match n with
  | 0 => Some id
  | S n => s ← state p id; q ← hd_error (st_parents s); nth_parent p n q
  end.

Section chains.
Context (p : Project).

Lemma nth_parent_add a b id : nth_parent p (a + b) id = nth_parent p a id ≫= nth_parent p b.
Proof.
  revert id. induction a as [|a IH]; intros id; simpl; [done|].
  destruct (state p id) as [s|]; simpl; [|done]. by destruct (hd_error (st_parents s)); simpl.
Qed.
Lemma nth_parent_S n id :
  nth_parent p (S n) id = x ← nth_parent p n id; s ← state p x; hd_error (st_parents s).
Proof.
  rewrite <-Nat.add_1_r, nth_parent_add. destruct (nth_parent p n id) as [x|]; simpl; [|done].
  destruct (state p x) as [s|]; simpl; [|done]. by destruct (hd_error (st_parents s)).
Qed.
Lemma nth_parent_none n m id : nth_parent p n id = None → n ≤ m → nth_parent p m id = None.
Proof. intros Hn Hm. replace m with (n + (m - n)) by lia. by rewrite nth_parent_add, Hn. Qed.
Lemma nth_parent_some n m id x :
  nth_parent p m id = Some x → n ≤ m → is_Some (nth_parent p n id).
Proof.
  intros Hm Hle. destruct (nth_parent p n id) eqn:E; [done|].
  by rewrite (nth_parent_none n m id) in Hm.
Qed.

(** [l] holds the ancestors of [id] at the distances 1, 2, 4, ... *)
Definition skips (id : string) (l : list string) : Prop :=
  ∀ i, l !! i = nth_parent p (2 ^ i) id.

Lemma pow2_lt i j : i < j → 2 ^ i < 2 ^ j.
Proof. apply Nat.pow_lt_mono_r. lia. Qed.
Lemma pow2_le i j : i ≤ j → 2 ^ i ≤ 2 ^ j.
Proof. apply Nat.pow_le_mono_r. lia. Qed.

(** What the loop knows at distance [d] of [id]. *)
Record walked (id : string) (at_ : StateRec) (d : nat) (next : Z) (l : list string) : Prop := {
  wk_at : ∃ x, nth_parent p d id = Some x ∧ state p x = Some at_;
  wk_next : next = Z.of_nat (2 ^ length l);
  wk_below : d < 2 ^ length l;
  wk_above : ∀ i, i < length l → 2 ^ i ≤ d;
  wk_list : ∀ i, i < length l → l !! i = nth_parent p (2 ^ i) id }.

Lemma walked_end id at_ d next l : walked id at_ d next l → st_parents at_ = [] → skips id l.
Proof.
  intros [(x & Hx & Hs) _ Hb _ Hl] Hp i. destruct (decide (i < length l)) as [Hi|Hi]; [auto|].
  rewrite lookup_ge_None_2 by lia. symmetry. apply (nth_parent_none (S d)).
  - rewrite nth_parent_S, Hx. simpl. rewrite Hs. simpl. by rewrite Hp.
  - pose proof (pow2_le (length l) i). lia.
Qed.
Lemma walked_step (Hk : keyed p) id at_ d next l parent at' :
  walked id at_ d next l → hd_error (st_parents at_) = Some parent → state p parent = Some at' →
  if (Z.of_nat d + 1 =? next)%Z then walked id at' (S d) (next * 2) (l ++ [st_id at'])
  else walked id at' (S d) next l.
Proof.
  intros [(x & Hx & Hs) Hn Hb Ha Hl] Hp Hs'.
  assert (nth_parent p (S d) id = Some parent) as Hd.
  { rewrite nth_parent_S, Hx. simpl. rewrite Hs. simpl. done. }
  destruct (Z.eqb_spec (Z.of_nat d + 1) next) as [E|E].
  - assert (S d = 2 ^ length l) as E' by lia.
    split; [by exists parent|..]; rewrite ?length_app; simpl length; rewrite ?Nat.add_1_r.
    + rewrite Nat.pow_succ_r'. lia.
    + rewrite Nat.pow_succ_r'. lia.
    + intros i Hi. pose proof (pow2_le i (length l)). lia.
    + intros i Hi. destruct (decide (i = length l)) as [->|].
      * rewrite list_lookup_middle by done. by rewrite <-E', Hd, (Hk _ _ Hs').
      * rewrite lookup_app_l by lia. apply Hl. lia.
  - split; [by exists parent|done|lia| |done]. intros i Hi. specialize (Ha i Hi). lia.
Qed.

Lemma checked_go_sound (Hk : keyed p) fuel id at_ d next l seen e :
  walked id at_ d next l → checked_go p fuel at_ (Z.of_nat d) next l seen = Ok e → skips id e.
Proof.
  revert at_ d next l seen. induction fuel as [|fuel IH]; intros at_ d next l seen Hw; simpl;
    destruct (st_parents at_) as [|parent ps] eqn:Hp; try done;
    try (intros [= <-]; by eapply walked_end).
  intros H. apply bind_ok in H as (seen' & _ & H). apply bind_ok in H as (at' & Hs%ctx_ok & H).
  pose proof (walked_step Hk _ _ _ _ _ parent at' Hw) as Hw'. rewrite Hp in Hw'.
  specialize (Hw' eq_refl Hs). replace (Z.of_nat d + 1)%Z with (Z.of_nat (S d)) in * by lia.
  destruct (Z.of_nat (S d) =? next)%Z; [|by eapply IH]. inv_ok. by eapply IH.
Qed.
Lemma walked_start id at_ : state p id = Some at_ → walked id at_ 0 1 [].
Proof. intros Hs. split; simpl; [by exists id|done|lia|lia|]. intros i Hi. lia. Qed.

Lemma checked_graph_sound (Hk : keyed p) graphs id g :
  checked_graph p graphs id = Ok g →
  graphs !! id = Some g ∧ gr_state g = id ∧ skips id (gr_ancestors g).
Proof.
  unfold checked_graph. intros H. inv_ok. split; [done|]. split; [done|].
  eapply (checked_go_sound Hk _ _ _ 0); [by apply walked_start|done].
Qed.
End chains.

(** ** Built graphs pass the check *)

Section built.
Context (p : Project) (Hk : keyed p) (id : string).
(** The chain of [id] is complete, has no cycle, and is not longer than the machine can count. *)
Context (Hclosed : ∀ n x, nth_parent p n id = Some x → is_Some (state p x)).
Context (Hnorep : ∀ m n x, m < n → nth_parent p m id = Some x → nth_parent p n id ≠ Some x).
Context (Hsize : (Z.of_nat (size (p_states p)) < 2 ^ 63)%Z).

Lemma chain_short n x : nth_parent p n id = Some x → n < size (p_states p).
Proof using Hclosed Hnorep.
  intros Hn. set (f i := default "" (nth_parent p i id)).
  assert (∀ i, i ≤ n → nth_parent p i id = Some (f i)) as Hf.
  { intros i Hi. destruct (nth_parent_some p i n id x Hn Hi) as [y Hy]. unfold f. by rewrite Hy. }
  assert (NoDup (f <$> seq 0 (S n))) as Hnd.
  { apply NoDup_fmap_2_strong; [|apply NoDup_seq]. intros i j Hi%elem_of_seq Hj%elem_of_seq E.
    destruct (lt_eq_lt_dec i j) as [[Hlt|]|Hlt]; [|done|]; exfalso.
    - apply (Hnorep i j (f i)); [done|apply Hf; lia|]. rewrite E. apply Hf. lia.
    - apply (Hnorep j i (f i)); [done|rewrite E; apply Hf; lia|]. apply Hf. lia. }
  assert (list_to_set (f <$> seq 0 (S n)) ⊆ dom (p_states p)) as Hsub.
  { intros y Hy. apply elem_of_list_to_set, list_elem_of_fmap in Hy as (i & -> & Hi%elem_of_seq).
    destruct (Hclosed i (f i)) as [s Hs]; [apply Hf; lia|]. apply elem_of_dom.
    unfold state in Hs. by destruct (p_states p !! f i). }
  apply subseteq_size in Hsub. rewrite size_list_to_set in Hsub by done.
  rewrite length_fmap, length_seq, size_dom in Hsub. lia.
Qed.
Lemma chain_bound i x : nth_parent p (2 ^ i) id = Some x → (Z.of_nat (2 ^ i) < 2 ^ 63)%Z.
Proof using Hclosed Hnorep Hsize. intros H%chain_short. lia. Qed.

Lemma checked_go_total fuel at_ d next l seen :
  walked p id at_ d next l → (∀ x, x ∈ seen → ∃ i, i ≤ d ∧ nth_parent p i id = Some x) →
  size (p_states p) < d + fuel →
  ∃ e, checked_go p fuel at_ (Z.of_nat d) next l seen = Ok e.
Proof using Hk Hclosed Hnorep Hsize.
  revert at_ d next l seen. induction fuel as [|fuel IH]; intros at_ d next l seen Hw Hseen Hf; simpl;
    destruct (st_parents at_) as [|parent ps] eqn:Hp; eauto;
    destruct (wk_at _ _ _ _ _ _ Hw) as (x & Hx & Hs);
    assert (nth_parent p (S d) id = Some parent) as Hd
      by (rewrite nth_parent_S, Hx; simpl; rewrite Hs; simpl; by rewrite Hp);
    pose proof (chain_short _ _ Hd) as Hshort; [lia|].
  destruct (Hclosed _ _ Hd) as [at' Hs'].
  unfold insert_new. rewrite bool_decide_eq_false_2.
  2: { intros (i & Hi & E)%Hseen. apply (Hnorep i (S d) parent); [lia|done..]. }
  rsimpl. rewrite Hs'. rsimpl.
  pose proof (walked_step p Hk _ _ _ _ _ parent at' Hw) as Hw'. rewrite Hp in Hw'.
  specialize (Hw' eq_refl Hs'). replace (Z.of_nat d + 1)%Z with (Z.of_nat (S d)) in * by lia.
  assert (∀ y, y ∈ {[parent]} ∪ seen → ∃ i, i ≤ S d ∧ nth_parent p i id = Some y) as Hseen'.
  { intros y [->%elem_of_singleton|Hy]%elem_of_union; [by exists (S d)|].
    destruct (Hseen y Hy) as (i & ? & ?). exists i. split; [lia|done]. }
  destruct (Z.eqb_spec (Z.of_nat (S d)) next) as [E|E].
  - assert (in_u64 (next * 2) = true) as ->. { unfold in_u64, u64_max. lia. }
    rsimpl. apply IH; [done|done|lia].
  - apply IH; [done|done|lia].
Qed.

Lemma skips_unique l l' : skips p id l → skips p id l' → l = l'.
Proof. intros Hl Hl'. apply list_eq. intros i. by rewrite Hl, Hl'. Qed.
(** A graph that holds the skip pointers of its state passes the check. *)
Lemma checked_graph_complete graphs l :
  is_Some (state p id) → skips p id l → graphs !! id = Some (mkGraph id l) →
  checked_graph p graphs id = Ok (mkGraph id l).
Proof using Hk Hclosed Hnorep Hsize.
  intros [s Hs] Hl Hg. unfold checked_graph. rewrite Hg. rsimpl. cbn [gr_state gr_ancestors].
  rewrite eqb_refl. rsimpl. rewrite Hs. rsimpl.
  pose proof (walked_start p id s Hs) as Hw.
  destruct (checked_go_total (S (size (p_states p))) s 0 1 [] {[id]} Hw) as [e He].
  - intros x ->%elem_of_singleton. by exists 0.
  - lia.
  - change (Z.of_nat 0) with 0%Z in He. rewrite He. rsimpl.
    rewrite (skips_unique l e), eqb_refl; [done|done|].
    eapply (checked_go_sound p Hk _ _ _ 0); [exact Hw|exact He].
Qed.

Lemma graph_go_ok graphs k n l :
  (∀ m x, nth_parent p (S m) id = Some x → is_ok (checked_graph p graphs x) = true) →
  k + n = 63 → length l = S k → (∀ i, i ≤ k → l !! i = nth_parent p (2 ^ i) id) →
  ∃ e, graph_go (checked_graph p graphs) id (seq k n) l = Ok e ∧ skips p id e.
Proof using Hk Hclosed Hnorep Hsize.
  intros Hg. revert k l. induction n as [|n IH]; intros k l Hkn Hlen Hl; simpl.
  - exists l. split; [done|]. intros i. destruct (decide (i ≤ k)); [auto|].
    rewrite lookup_ge_None_2 by lia. symmetry. destruct (nth_parent p (2 ^ i) id) as [x|] eqn:E; [|done].
    pose proof (chain_bound _ _ E) as Hb. exfalso. rewrite Nat2Z.inj_pow in Hb.
    assert (2 ^ 63 ≤ 2 ^ Z.of_nat i)%Z; [|lia]. apply Z.pow_le_mono_r; lia.
  - destruct (lookup_lt_is_Some_2 l k) as [x Hx]; [lia|]. rewrite Hx. rsimpl.
    pose proof (Hl k (le_n k)) as Hxk. rewrite Hx in Hxk. symmetry in Hxk.
    assert (∃ m, 2 ^ k = S m) as [m Hm]. { exists (pred (2 ^ k)). pose proof (Nat.pow_nonzero 2 k). lia. }
    destruct (checked_graph p graphs x) as [g|] eqn:Eg.
    2: { rewrite Hm in Hxk. apply Hg in Hxk. by rewrite Eg in Hxk. }
    rsimpl. apply (checked_graph_sound p Hk) in Eg as (_ & _ & Hskip). rewrite Hskip.
    assert (nth_parent p (2 ^ S k) id = nth_parent p (2 ^ k) x) as E.
    { rewrite Nat.pow_succ_r'. replace (2 * 2 ^ k) with (2 ^ k + 2 ^ k) by lia.
      by rewrite nth_parent_add, Hxk. }
    destruct (nth_parent p (2 ^ k) x) as [next|] eqn:En.
    + assert (∀ j, j < 2 ^ S k → nth_parent p j id ≠ Some next) as Hfresh.
      { intros j Hj Ej. by apply (Hnorep j (2 ^ S k) next). }
      assert ((next == id) = false) as ->.
      { apply eqb_false. intros ->. apply (Hfresh 0); [|done]. pose proof (Nat.pow_nonzero 2 (S k)). lia. }
      assert (memb next l = false) as ->.
      { apply memb_false. intros (i & Hi)%list_elem_of_lookup_1. apply (Hfresh (2 ^ i)).
        - apply pow2_lt. apply lookup_lt_Some in Hi. lia.
        - rewrite <-Hl; [done|]. apply lookup_lt_Some in Hi. lia. }
      simpl. apply IH; [lia|rewrite length_app; simpl; lia|]. intros i Hi.
      destruct (decide (i = S k)) as [->|].
      * rewrite list_lookup_middle by done. by rewrite E.
      * rewrite lookup_app_l by lia. apply Hl. lia.
    + exists l. split; [done|]. intros i. destruct (decide (i ≤ k)); [auto|].
      rewrite lookup_ge_None_2 by lia. symmetry. apply (nth_parent_none p (2 ^ S k)); [done|].
      apply pow2_le. lia.
Qed.
End built.

Lemma graph_built p s graphs (id := st_id s) :
  keyed p → (∀ n x, nth_parent p n id = Some x → is_Some (state p x)) →
  (∀ m n x, m < n → nth_parent p m id = Some x → nth_parent p n id ≠ Some x) →
  (Z.of_nat (size (p_states p)) < 2 ^ 63)%Z → state p id = Some s →
  (∀ n x, nth_parent p (S n) id = Some x → is_ok (checked_graph p graphs x) = true) →
  ∃ g, graph (checked_graph p graphs) s = Ok g ∧ checked_graph p (<[id := g]> graphs) id = Ok g.
Proof.
  intros Hk Hc Hn Hz Hs Hg.
  assert (∃ l, graph (checked_graph p graphs) s = Ok (mkGraph id l) ∧ skips p id l) as (l & El & Hl).
  { unfold graph. fold id. destruct (st_parents s) as [|q qs] eqn:E.
    - exists []. split; [done|]. intros i. symmetry. apply (nth_parent_none p 1).
      + simpl. rewrite Hs. simpl. by rewrite E.
      + pose proof (Nat.pow_nonzero 2 i). lia.
    - destruct (graph_go_ok p Hk id Hc Hn Hz graphs 0 63 [q]) as (e & -> & He); [done..| |eauto].
      intros i Hi. assert (i = 0) as -> by lia. simpl. rewrite Hs. simpl. by rewrite E. }
  exists (mkGraph id l). split; [done|].
  apply checked_graph_complete; try done. by rewrite lookup_insert_eq.
Qed.

(** ** Ancestors by skip pointers *)

Section ancestor.
Context (p : Project) (Hk : keyed p) (graphs : gmap string Graph).

Lemma log2_split d :
  (0 < d)%Z → Z.to_nat d = 2 ^ Z.to_nat (Z.log2 d) + Z.to_nat (d - Z.shiftl 1 (Z.log2 d)) ∧
  (0 ≤ d - Z.shiftl 1 (Z.log2 d) < 2 ^ Z.log2 d)%Z.
Proof.
  intros Hd. pose proof (Z.log2_spec d Hd) as [Hlo Hhi]. pose proof (Z.log2_nonneg d) as Hb.
  rewrite Z.shiftl_mul_pow2, Z.mul_1_l by done. rewrite Z.pow_succ_r in Hhi by done. split; [|lia].
  assert (2 ^ Z.to_nat (Z.log2 d) = Z.to_nat (2 ^ Z.log2 d)) as ->; [|lia].
  apply Nat2Z.inj. rewrite Nat2Z.inj_pow, !Z2Nat.id by lia. done.
Qed.

Lemma ancestor_go_sound fuel at_ d a :
  (0 ≤ d)%Z → ancestor_go p graphs fuel at_ d = Ok a → nth_parent p (Z.to_nat d) at_ = Some a.
Proof using Hk.
  revert at_ d. induction fuel as [|fuel IH]; intros at_ d Hd; simpl; destruct (Z.ltb_spec 0 d) as [Hpos|Hpos];
    try done; try (intros [= <-]; replace d with 0%Z by lia; done).
  intros H. apply bind_ok in H as (g & Hg & H). apply bind_ok in H as (x & Hx%ctx_ok & H).
  destruct (log2_split d Hpos) as [E Hr]. apply IH in H; [|lia].
  apply (checked_graph_sound p Hk) in Hg as (_ & _ & Hs). rewrite Hs in Hx.
  by rewrite E, nth_parent_add, Hx.
Qed.
Lemma ancestor_go_complete fuel at_ d :
  (0 ≤ d < 2 ^ Z.of_nat fuel)%Z →
  (∀ n x, nth_parent p n at_ = Some x → is_ok (checked_graph p graphs x) = true) →
  ancestor_go p graphs fuel at_ d = ctx "ancestor is outside history" (nth_parent p (Z.to_nat d) at_).
Proof using Hk.
  revert at_ d. induction fuel as [|fuel IH]; intros at_ d Hd Hg; simpl; destruct (Z.ltb_spec 0 d) as [Hpos|Hpos].
  - simpl in Hd. lia.
  - by replace d with 0%Z by lia.
  - destruct (log2_split d Hpos) as [E Hr]. pose proof (Hg 0 at_ eq_refl) as Hok.
    destruct (checked_graph p graphs at_) as [g|] eqn:Eg; [|done]. rsimpl.
    apply (checked_graph_sound p Hk) in Eg as (_ & _ & Hs). rewrite Hs, E, nth_parent_add.
    destruct (nth_parent p (2 ^ Z.to_nat (Z.log2 d)) at_) as [x|] eqn:Ex; simpl; [|done].
    apply IH.
    + split; [lia|]. assert (Z.log2 d < Z.of_nat (S fuel))%Z by (apply Z.log2_lt_pow2; lia).
      assert (2 ^ Z.log2 d ≤ 2 ^ Z.of_nat fuel)%Z; [|lia]. apply Z.pow_le_mono_r; lia.
    + intros n y Hy. apply (Hg (2 ^ Z.to_nat (Z.log2 d) + n)). by rewrite nth_parent_add, Ex.
  - by replace d with 0%Z by lia.
Qed.
End ancestor.

(** ** Changed paths *)

(** What a tree says about a path, without the place of its data. *)
Definition content (t : Tree) (path : string) : option (string * string) :=
  (λ e, (en_mode e, en_hash e)) <$> t_files t !! path.

Lemma path_change_some parent tree path c :
  path_change parent tree path = Some c ↔
  content parent path ≠ content tree path ∧
  c = mkPathChange path (snd <$> content parent path) (snd <$> content tree path)
        (default "" (fst <$> or_else (content tree path) (content parent path))).
Proof.
  unfold path_change, content.
  destruct (t_files parent !! path) as [a|], (t_files tree !! path) as [b|]; simpl.
  - destruct (en_mode a == en_mode b) eqn:Em, (en_hash a == en_hash b) eqn:Eh; simpl;
      rewrite ?eqb_true, ?eqb_false in *; naive_solver congruence.
  - naive_solver.
  - naive_solver.
  - naive_solver.
Qed.
Lemma path_change_path parent tree path c : path_change parent tree path = Some c → pc_path c = path.
Proof. by intros [_ ->]%path_change_some. Qed.
Lemma tree_paths_spec st parent tree :
  ps_state (tree_paths st parent tree) = st ∧
  StronglySorted (λ a b, clt (pc_path a) (pc_path b) = true) (ps_paths (tree_paths st parent tree)) ∧
  ∀ c, c ∈ ps_paths (tree_paths st parent tree) ↔
    content parent (pc_path c) ≠ content tree (pc_path c) ∧
    c = mkPathChange (pc_path c) (snd <$> content parent (pc_path c)) (snd <$> content tree (pc_path c))
          (default "" (fst <$> or_else (content tree (pc_path c)) (content parent (pc_path c)))).
Proof.
  split; [done|]. unfold tree_paths, filter_map. cbn [ps_paths]. split.
  - pose proof (members_strict (dom (t_files parent) ∪ dom (t_files tree))) as Hs.
    induction Hs as [|x l Hs IH Hx]; csimpl; [constructor|].
    destruct (path_change parent tree x) as [c|] eqn:E; [|done]. constructor; [done|].
    apply Forall_forall. intros c' (y & Hy & Ey)%list_elem_of_omap.
    rewrite (path_change_path _ _ _ _ E), (path_change_path _ _ _ _ Ey).
    by apply (proj1 (Forall_forall _ _) Hx).
  - intros c. rewrite list_elem_of_omap. split.
    + intros (x & Hx & E). pose proof (path_change_path _ _ _ _ E) as <-. by apply path_change_some.
    + intros Hc. exists (pc_path c). rewrite path_change_some. split; [|done].
      unfold members. rewrite elem_of_sort_by, elem_of_elements, elem_of_union, !elem_of_dom.
      destruct Hc as [Hne _]. unfold content in Hne.
      destruct (t_files parent !! pc_path c); [eauto|]. destruct (t_files tree !! pc_path c); [eauto|done].
Qed.

(** ** Reconciliation *)

Section reconcile.
Context `{HU : Uuid, HE : Encodings, HC : Crypto, HJ : JsonText, HL : Unicode}.

(** [line] holds the record [r], which the watermark covers. *)
Definition holds (marks : gmap string Watermark) (line : string) (r : LogRecord) : Prop :=
  read_record line = Ok r ∧ covered marks r = true.

Record prefix_inv (project : string) (marks : gmap string Watermark) (lines : list string) (acc : Prefix)
    : Prop := {
  px_read : ∀ line, line ∈ lines → ∃ r, read_record line = Ok r ∧ r_project r = project;
  px_by_seq : ∀ m q line, acc.1 !! (m, q) = Some line ↔
    line ∈ lines ∧ ∃ r, holds marks line r ∧ r_machine r = m ∧ r_seq r = q;
  px_prefix : ∀ r, r ∈ acc.2 ↔ ∃ line, line ∈ lines ∧ holds marks line r }.

Lemma prefix_line_inv project marks lines acc line acc' :
  prefix_inv project marks lines acc → prefix_line project marks acc line = Ok acc' →
  prefix_inv project marks (lines ++ [line]) acc'.
Proof.
  intros [Hr Hb Hp] H. destruct acc as [by_seq prefix]. unfold prefix_line in H. simpl in Hb, Hp.
  apply bind_ok in H as (r & Hread & H). apply bind_ok in H as (_ & E%ensure_ok%eqb_eq & H).
  assert (∀ l, l ∈ lines ++ [line] → ∃ r, read_record l = Ok r ∧ r_project r = project) as Hr'.
  { intros l [Hl| ->%list_elem_of_singleton]%elem_of_app; eauto. }
  assert (∀ r', holds marks line r' → r' = r ∧ covered marks r = true) as Hl.
  { intros r' [Hr1 Hc1]. rewrite Hread in Hr1. by injection Hr1 as <-. }
  destruct (covered marks r) eqn:Hc.
  - assert (holds marks line r) as Hh by done.
    destruct (by_seq !! (r_machine r, r_seq r)) as [old|] eqn:Eold.
    + apply bind_ok in H as (_ & ->%ensure_ok%eqb_eq & H). inv_ok. rewrite insert_id by done.
      pose proof (proj1 (Hb _ _ _) Eold) as [Hin _].
      assert (∀ l, l ∈ lines ++ [line] ↔ l ∈ lines) as Hsame by set_solver.
      split; simpl; [done|..]; intros; [rewrite Hb|rewrite Hp]; setoid_rewrite Hsame; done.
    + inv_ok. split; simpl; [done|..].
      * intros m q l. rewrite lookup_insert_Some, Hb. split.
        -- intros [[[= <- <-] <-]|[_ [Hin Hh']]]; [|set_solver]. split; [set_solver|eauto].
        -- intros [Hin (r' & Hh' & <- & <-)].
           apply elem_of_app in Hin as [Hin| ->%list_elem_of_singleton].
           ++ right. split; [|eauto]. intros [= E1 E2].
              assert (by_seq !! (r_machine r, r_seq r) = Some l) as E3 by (apply Hb; rewrite E1, E2; eauto).
              by rewrite Eold in E3.
           ++ left. by destruct (Hl _ Hh') as [-> _].
      * intros r'. rewrite elem_of_app, Hp, list_elem_of_singleton. split.
        -- intros [(l & ? & ?)| ->]; [|by exists line; set_solver]. exists l. set_solver.
        -- intros (l & [Hin| ->%list_elem_of_singleton]%elem_of_app & Hh'); [eauto|].
           right. by destruct (Hl _ Hh').
  - inv_ok.
    assert (∀ l r', (l ∈ lines ++ [line] ∧ holds marks l r') ↔ (l ∈ lines ∧ holds marks l r')) as Hsame.
    { intros l r'. split; [|set_solver]. intros [[Hin| ->%list_elem_of_singleton]%elem_of_app Hh'];
        [done|]. by destruct (Hl _ Hh'). }
    split; simpl; [done|..].
    + intros m q l. rewrite Hb. split; [set_solver|]. intros [Hin (r' & Hh' & ? & ?)].
      destruct (proj1 (Hsame l r')) as [? ?]; [done|]. eauto.
    + intros r'. rewrite Hp. split; intros (l & ? & ?); exists l; [set_solver|]. by apply Hsame.
Qed.
Lemma prefix_lines_inv project marks lines acc :
  foldM (prefix_line project marks) (∅, []) lines = Ok acc → prefix_inv project marks lines acc.
Proof.
  apply (foldM_prefix_inv (prefix_inv project marks)).
  - split; simpl; [set_solver| |set_solver]. intros m q l. rewrite lookup_empty. set_solver.
  - intros pre x post s s' _. apply prefix_line_inv.
Qed.

(** A machine's lines that pass the gap check have every sequence up to the mark. *)
Lemma check_gap_all project marks lines by_seq prefix m w q :
  prefix_inv project marks lines (by_seq, prefix) → marks !! m = Some w →
  check_gap by_seq (m, w) = Ok tt → (1 ≤ q ≤ wm_seq w)%Z → is_Some (by_seq !! (m, q)).
Proof.
  intros [_ Hb _] Hm Hg Hq. unfold check_gap in Hg. simpl in Hg, Hb.
  set (ks := filterb (λ ms : string * Z, ms.1 == m) (keys by_seq)) in *.
  assert (∀ k, k ∈ ks ↔ k.1 = m ∧ is_Some (by_seq !! k)) as Hks.
  { intros k. unfold ks. rewrite elem_of_filterb, elem_of_keys, eqb_true. tauto. }
  assert (StronglySorted (λ a b, clt a b = true) ks) as Hsorted.
  { unfold ks, keys. pose proof (entries_strict by_seq) as Hs. clear -Hs.
    induction Hs as [|[k v] l Hs IH Hx]; csimpl; [constructor|].
    destruct (k.1 == m); [|done]. constructor; [done|]. apply Forall_forall.
    intros k' [Hk' _]%elem_of_filterb. apply list_elem_of_fmap in Hk' as ([k1 v1] & -> & Hin).
    by apply (proj1 (Forall_forall _ _) Hx (k1, v1)). }
  inv_ok. apply Z.eqb_eq in H. clearbody ks. destruct ks as [|[m1 q1] ks]; [done|].
  csimpl in *. injection H0 as ->.
  assert (NoDup (((m1, 1%Z) :: ks).*2)) as Hnd.
  { apply NoDup_fmap_2_strong.
    - intros [a x] [b y] [Ha _]%Hks [Hb' _]%Hks E. simpl in *. congruence.
    - apply (sorted_NoDup id) in Hsorted. by rewrite list_fmap_id in Hsorted. }
  assert (∀ x, x ∈ ((m1, 1%Z) :: ks).*2 → (1 ≤ x ≤ wm_seq w)%Z ∧ is_Some (by_seq !! (m, x))) as Hin.
  { intros x ([m' x'] & -> & Hx)%list_elem_of_fmap. apply Hks in Hx as Hx'. simpl in Hx'.
    destruct Hx' as [-> [l Hl]]. pose proof (proj1 (Hb _ _ _) Hl) as (_ & r & [_ Hc] & <- & <-).
    split; [simpl|by exists l]. unfold covered in Hc. rewrite Hm in Hc. simpl in Hc.
    assert (m1 = r_machine r) as -> by (by apply (proj1 (Hks _) ltac:(left))).
    inversion Hsorted as [|?? _ Hx0]; subst. apply elem_of_cons in Hx as [[= E]|Hx]; [lia|].
    apply (proj1 (Forall_forall _ _) Hx0) in Hx. apply clt_cmp in Hx. unfold cmp, prod_cmp in Hx. simpl in Hx.
    rewrite cmp_refl in Hx. apply (proj1 (Z.compare_lt_iff _ _)) in Hx. lia. }
  destruct (Hin q) as [_ ?]; [|done].
  assert (incl (seqZ 1 (wm_seq w)) (((m1, 1%Z) :: ks).*2)) as Hincl.
  { apply NoDup_length_incl; [by apply NoDup_ListNoDup| |].
    - rewrite length_seqZ, length_fmap. rewrite length_fmap in H. simpl in *. lia.
    - intros x Hx%list_elem_of_In. apply list_elem_of_In, elem_of_seqZ. apply Hin in Hx. lia. }
  apply list_elem_of_In, Hincl, list_elem_of_In, elem_of_seqZ. lia.
Qed.
End reconcile.

Section load.
Context `{HU : Uuid, HE : Encodings, HC : Crypto, HJ : JsonText, HL : Unicode}.

Lemma reconcile_spec i lines p :
  reconcile i lines = Ok p →
  ∃ h prefix, ix_data i = DataHeads h ∧
    (∀ line, line ∈ lines → ∃ r, read_record line = Ok r ∧ r_project r = ix_project i) ∧
    (∀ r, r ∈ prefix ↔ ∃ line, line ∈ lines ∧ holds (hd_watermark h) line r) ∧
    from_records (ix_project i) prefix "" = Ok p ∧
    heads p (hd_watermark h) (hd_seq h) = Ok h ∧
    ∀ m w, hd_watermark h !! m = Some w →
      (∀ q, (1 ≤ q ≤ wm_seq w)%Z → ∃ line r, line ∈ lines ∧ holds (hd_watermark h) line r ∧
         r_machine r = m ∧ r_seq r = q) ∧
      (∃ line r, line ∈ lines ∧ holds (hd_watermark h) line r ∧ r_machine r = m ∧
         r_seq r = wm_seq w ∧ line_hash line = wm_hash w).
Proof.
  unfold reconcile. intros H. apply bind_ok in H as ([] & _ & H).
  destruct (ix_data i) as [h| |]; [|done..]. apply bind_ok in H as ([by_seq prefix] & Hpx & H).
  apply prefix_lines_inv in Hpx as Hinv. destruct Hinv as [Hread Hb Hp]. simpl in Hb, Hp.
  apply bind_ok in H as ([] & Hmark & H). apply bind_ok in H as ([] & Hgap & H).
  apply bind_ok in H as (p' & Hfrom & H). apply bind_ok in H as (h' & Hheads & H).
  apply bind_ok in H as ([] & ->%ensure_ok%eqb_eq & [= ->]).
  exists h, prefix. do 5 (split; [done|]). intros m w Hm.
  assert ((m, w) ∈ entries (hd_watermark h)) as Hin by (by apply elem_of_entries). split.
  - intros q Hq. apply for_each_ok in Hgap. rewrite Forall_forall in Hgap.
    destruct (check_gap_all _ _ _ _ _ m w q (prefix_lines_inv _ _ _ _ Hpx) Hm (Hgap _ Hin) Hq) as [line Hl].
    apply Hb in Hl as [Hl (r & ? & ? & ?)]. eauto 10.
  - unfold check_watermark in Hmark. apply for_each_ok in Hmark. rewrite Forall_forall in Hmark.
    specialize (Hmark _ Hin). simpl in Hmark. inv_ok.
    match goal with H : by_seq !! _ = Some _ |- _ => apply Hb in H as [Hl (r & ? & ? & ?)] end.
    eauto 10.
Qed.

(** Records of one project are one group. *)
Lemma group_records project records :
  (∀ r, r ∈ records → r_project r = project) → records ≠ [] →
  foldl group_record ∅ records = {[project := records]}.
Proof.
  intros Hr Hne. induction records as [|r l IH] using rev_ind; [done|].
  rewrite foldl_app. simpl. unfold group_record at 1. rewrite (Hr r) by set_solver.
  destruct (decide (l = [])) as [->|Hl]; simpl.
  - by rewrite lookup_empty.
  - rewrite IH by (first [done|intros; apply Hr; set_solver]).
    rewrite lookup_singleton_eq. simpl. apply insert_singleton_eq.
Qed.
(** The full load of lines of one project is the project of all their records. *)
Lemma full_load_spec lines model project p :
  from_verified_lines lines "" = Ok model → m_projects model !! project = Some p →
  (∀ line, line ∈ lines → ∃ r, read_envelope line = Ok r ∧ r_project r = project) →
  ∃ records, from_records project records "" = Ok p ∧
    ∀ r, r ∈ records ↔ ∃ line, line ∈ lines ∧ read_envelope line = Ok r.
Proof.
  unfold from_verified_lines, Model_from_records. intros (records & Hc & H)%bind_ok Hp Hl.
  assert (∀ r, r ∈ records ↔ ∃ line, line ∈ lines ∧ read_envelope line = Ok r) as Hrec.
  { intros r. rewrite (elem_of_collect _ _ _ _ Hc). split; intros (line & Hin & Hr); exists line.
    - inv_ok. done.
    - split; [done|]. rewrite Hr. rsimpl. assert (∃ r', r' ∈ records ∧
        (r0 ← read_envelope line; validate r0;; Ok r0) = Ok r') as (r' & _ & Hv).
      { apply collect_ok in Hc. apply list_elem_of_lookup in Hin as [i Hi].
        destruct (Forall2_lookup_l _ _ _ _ _ Hc Hi) as (r' & Hi' & Hv). exists r'.
        split; [by eapply list_elem_of_lookup_2|done]. }
      rewrite Hr in Hv. inv_ok. by match goal with H : validate _ = Ok _ |- _ => rewrite H end. }
  assert (∀ r, r ∈ records → r_project r = project) as Hproj.
  { intros r (line & Hin & Hline)%Hrec. destruct (Hl line Hin) as (r' & Hr' & <-). congruence. }
  destruct (decide (records = [])) as [->|Hne].
  { simpl in H. rewrite delete_empty, entries_empty in H. simpl in H. by inv_ok. }
  rewrite (group_records project) in H by done.
  destruct (decide (project = "")) as [->|Hnp].
  { rewrite delete_singleton_eq, entries_empty in H. simpl in H. by inv_ok. }
  rewrite (lookup_singleton_ne project "") in H by done.
  rewrite (delete_singleton_ne "" project) in H by done.
  rewrite entries_singleton in H. simpl in H. rewrite app_nil_r in H. inv_ok. simpl in *.
  rewrite lookup_insert_eq in Hp. simplify_eq. eauto.
Qed.

Lemma load_agrees snapshot project lines model p :
  (∀ line, line ∈ lines → read_envelope line = read_record line) →
  from_verified_lines lines "" = Ok model → m_projects model !! project = Some p →
  ∃ ld, load_or_full snapshot project lines = Ok ld ∧
    (ld_used_index ld = false → ld_project ld = p) ∧
    (ld_used_index ld = true → ∃ i h, snapshot = Ok i ∧ ix_data i = DataHeads h ∧
       reconcile i lines = Ok (ld_project ld) ∧
       ((∀ line r, line ∈ lines → read_record line = Ok r → covered (hd_watermark h) r = true) →
        ld_project ld = p)).
Proof.
  intros Hsame Hfull Hp. unfold load_or_full. destruct (_ ≫= _) as [p'|e] eqn:E.
  - eexists. split; [done|]. split; [done|]. intros _. simpl.
    apply bind_ok in E as (i & -> & E). apply bind_ok in E as ([] & <-%ensure_ok%eqb_eq & E).
    destruct (reconcile_spec _ _ _ E) as (h & prefix & Hh & Hread & Hpx & Hfrom & _ & _).
    exists i, h. do 3 (split; [done|]). intros Hcov.
    destruct (full_load_spec _ _ _ _ Hfull Hp) as (records & Hrec & Hin).
    { intros line Hline. rewrite Hsame by done. by apply Hread. }
    assert (∀ r, r ∈ prefix ↔ r ∈ records) as Heq.
    { intros r. rewrite Hpx, Hin. split.
      - intros (line & Hline & Hr & _). exists line. by rewrite Hsame.
      - intros (line & Hline & Hr). rewrite Hsame in Hr by done. exists line.
        split; [done|]. split; [done|]. by eapply Hcov. }
    pose proof (from_records_set (ix_project i) prefix records "") as Hset.
    rewrite Hfrom, Hrec in Hset. simpl in Hset. apply (inj Some). apply Hset; [|done].
    apply Forall_forall. intros r (line & _ & Hr & _)%Hpx. unfold read_record in Hr. inv_ok.
    by eapply Record_from_wf.
  - rewrite Hfull. rsimpl. rewrite Hp. rsimpl. eexists. split; [done|]. done.
Qed.
End load.

(** ** Published snapshots are accepted *)

Section publish.
Context `{HU : Uuid, HE : Encodings, HC : Crypto, HJ : JsonText, HL : Unicode}.

(** Lines of one project as signed logs hold them: they can be read, a machine counts from one,
    and it signs one line for each number. *)
Definition log_lines (project : string) (lines : list string) : Prop :=
  (∀ line, line ∈ lines → ∃ r, read_record line = Ok r ∧ r_project r = project ∧ (1 ≤ r_seq r)%Z) ∧
  (∀ l l' r r', l ∈ lines → l' ∈ lines → read_record l = Ok r → read_record l' = Ok r' →
     r_machine r = r_machine r' → r_seq r = r_seq r' → l = l').
(** No number of a machine is missing below one that is there. *)
Definition gapless (lines : list string) : Prop :=
  ∀ line r q, line ∈ lines → read_record line = Ok r → (1 ≤ q ≤ r_seq r)%Z →
    ∃ line' r', line' ∈ lines ∧ read_record line' = Ok r' ∧ r_machine r' = r_machine r ∧ r_seq r' = q.

(** The mark of a machine is its line with the highest number. *)
Definition marked (lines : list string) (m : string) (w : Watermark) : Prop :=
  ∃ line r, line ∈ lines ∧ read_record line = Ok r ∧ r_machine r = m ∧ r_seq r = wm_seq w ∧
    line_hash line = wm_hash w ∧
    ∀ l r', l ∈ lines → read_record l = Ok r' → r_machine r' = m → (r_seq r' ≤ wm_seq w)%Z.

Lemma watermark_line_inv project lines line marks marks' :
  log_lines project (lines ++ [line]) →
  (∀ m w, marks.1 !! m = Some w → marked lines m w) ∧
  (∀ l r, l ∈ lines → read_record l = Ok r → is_Some (marks.1 !! r_machine r)) →
  watermark_line marks line = Ok marks' →
  (∀ m w, marks'.1 !! m = Some w → marked (lines ++ [line]) m w) ∧
  (∀ l r, l ∈ lines ++ [line] → read_record l = Ok r → is_Some (marks'.1 !! r_machine r)).
Proof.
  intros [Hread _] [Hm Hs] H. destruct marks as [out seen]. unfold watermark_line in H. simpl in Hm, Hs.
  apply bind_ok in H as (r & Hr & H). apply bind_ok in H as ([] & _ & [= <-]). simpl.
  destruct (Hread line) as (r0 & Hr0 & _ & Hseq); [set_solver|]. rewrite Hr in Hr0. injection Hr0 as <-.
  split.
  - intros m w. rewrite lookup_insert_Some. intros [[<- <-]|[Hne Hw]].
    + destruct (out !! r_machine r) as [w0|] eqn:E; simpl.
      * destruct (Hm _ _ E) as (l1 & r1 & Hin & Hr1 & Hm1 & Hq1 & Hh1 & Hmax).
        destruct (Z.ltb_spec (wm_seq w0) (r_seq r)) as [Hlt|Hge].
        -- exists line, r. simpl. repeat split; try done; [set_solver|].
           intros l r' [Hl| ->%list_elem_of_singleton]%elem_of_app Hr' Em.
           ++ specialize (Hmax l r' Hl Hr' Em). lia.
           ++ rewrite Hr in Hr'. by injection Hr' as <-.
        -- exists l1, r1. repeat split; try done; [set_solver|].
           intros l r' [Hl| ->%list_elem_of_singleton]%elem_of_app Hr' Em; [eauto|].
           rewrite Hr in Hr'. by injection Hr' as <-.
      * rewrite (proj2 (Z.ltb_lt 0 _)) by lia. exists line, r. simpl. repeat split; try done; [set_solver|].
        intros l r' [Hl| ->%list_elem_of_singleton]%elem_of_app Hr' Em.
        -- destruct (Hs l r' Hl Hr') as [w' Hw']. rewrite Em, E in Hw'. done.
        -- rewrite Hr in Hr'. by injection Hr' as <-.
    + destruct (Hm _ _ Hw) as (l1 & r1 & Hin & Hr1 & Hm1 & Hq1 & Hh1 & Hmax).
      exists l1, r1. repeat split; try done; [set_solver|].
      intros l r' [Hl| ->%list_elem_of_singleton]%elem_of_app Hr' Em; [eauto|].
      rewrite Hr in Hr'. injection Hr' as <-. done.
  - intros l r' [Hl| ->%list_elem_of_singleton]%elem_of_app Hr'.
    + destruct (decide (r_machine r' = r_machine r)) as [->|Hne]; [by rewrite lookup_insert_eq|].
      rewrite lookup_insert_ne by done. eauto.
    + rewrite Hr in Hr'. injection Hr' as <-. by rewrite lookup_insert_eq.
Qed.
Lemma watermark_spec project lines wm :
  log_lines project lines → watermark lines = Ok wm →
  (∀ m w, wm !! m = Some w → marked lines m w) ∧
  (∀ l r, l ∈ lines → read_record l = Ok r → is_Some (wm !! r_machine r)).
Proof.
  intros [Hread Huniq]. unfold watermark. destruct (foldM _ _ _) as [[out seen]|] eqn:E; simpl; [|done].
  intros [= <-]. revert E. apply (foldM_prefix_inv (λ pre (s : Marks),
    (∀ m w, s.1 !! m = Some w → marked pre m w) ∧
    (∀ l r, l ∈ pre → read_record l = Ok r → is_Some (s.1 !! r_machine r)))).
  - split; simpl; [|set_solver]. intros m w. by rewrite lookup_empty.
  - intros pre x post s s' -> Hpre Hx. eapply (watermark_line_inv project); [|done..].
    split; [|intros; eapply Huniq; set_solver]. intros l Hl. apply Hread. set_solver.
Qed.
Lemma covered_lines project all lines wm line r :
  log_lines project all → (∀ l, l ∈ lines → l ∈ all) → gapless lines → watermark lines = Ok wm →
  line ∈ all → read_record line = Ok r → covered wm r = true ↔ line ∈ lines.
Proof.
  intros Hall Hsub Hgap Hwm Hin Hr.
  assert (log_lines project lines) as Hlog.
  { destruct Hall as [H1 H2]. split; [intros; apply H1; auto|]. intros; eapply H2; eauto. }
  destruct (watermark_spec _ _ _ Hlog Hwm) as [Hm Hs]. unfold covered. split.
  - destruct (wm !! r_machine r) as [w|] eqn:E; simpl; [|done]. intros Hle%Z.leb_le.
    destruct (Hm _ _ E) as (l1 & r1 & Hin1 & Hr1 & Hm1 & Hq1 & _).
    destruct (proj1 Hall line Hin) as (r0 & Hr0 & _ & Hseq). rewrite Hr in Hr0. injection Hr0 as <-.
    destruct (Hgap l1 r1 (r_seq r)) as (l2 & r2 & Hin2 & Hr2 & Hm2 & Hq2); [done..|lia|].
    rewrite (proj2 Hall line l2 r r2); auto. congruence.
  - intros Hl. destruct (Hs line r Hl Hr) as [w Hw]. rewrite Hw. simpl.
    destruct (Hm _ _ Hw) as (_ & _ & _ & _ & _ & _ & _ & Hmax). apply Z.leb_le. eauto.
Qed.

Lemma prefix_lines_ok project marks all :
  log_lines project all → ∃ acc, foldM (prefix_line project marks) (∅, []) all = Ok acc.
Proof.
  intros [Hread Huniq].
  destruct (foldM_progress (prefix_inv project marks) (prefix_line project marks) (∅, []) all)
    as (acc & Hacc & _); [| |by exists acc].
  - split; simpl; [set_solver| |set_solver]. intros m q l. rewrite lookup_empty. set_solver.
  - intros pre line post [by_seq prefix] E Hinv.
    assert (∃ acc', prefix_line project marks (by_seq, prefix) line = Ok acc') as [acc' Hacc'].
    { destruct (Hread line) as (r & Hr & Hp & _); [set_solver|]. unfold prefix_line. rewrite Hr. rsimpl.
      rewrite Hp, eqb_refl. rsimpl. destruct (covered marks r); [|eauto].
      destruct (by_seq !! (r_machine r, r_seq r)) as [old|] eqn:Eo; [|eauto].
      apply (px_by_seq _ _ _ _ Hinv) in Eo as [Hin (r' & [Hr' _] & Em & Eq)].
      rewrite (Huniq old line r' r) by (first [done|set_solver]). rewrite eqb_refl. rsimpl. eauto. }
    exists acc'. split; [done|]. by eapply prefix_line_inv.
Qed.

(** The gap check holds of complete sequences. *)
Lemma check_gap_ok (by_seq : gmap (string * Z) string) m w :
  (1 ≤ wm_seq w)%Z → (∀ q, is_Some (by_seq !! (m, q)) ↔ (1 ≤ q ≤ wm_seq w)%Z) →
  check_gap by_seq (m, w) = Ok tt.
Proof.
  intros Hw Hq. unfold check_gap. simpl.
  set (ks := filterb (λ ms : string * Z, ms.1 == m) (keys by_seq)).
  assert (ks.*2 = seqZ 1 (wm_seq w)) as ->.
  { apply sorted_ext.
    - unfold ks, keys. pose proof (entries_strict by_seq) as Hs. clear -Hs.
      induction Hs as [|[[m1 q1] v] l Hs IH Hx]; csimpl; [constructor|].
      destruct (m1 == m) eqn:E; [|done]. apply eqb_eq in E as ->. csimpl. constructor; [done|].
      apply Forall_forall. intros q2 ([m2 q2'] & -> & [Hin Em]%elem_of_filterb)%list_elem_of_fmap.
      simpl in Em. apply eqb_eq in Em as ->.
      apply list_elem_of_fmap in Hin as ([[m2 q3] v'] & [= <- <-] & Hin).
      apply (proj1 (Forall_forall _ _) Hx) in Hin. simpl in Hin. apply clt_cmp in Hin. apply clt_cmp.
      unfold cmp, prod_cmp in Hin. simpl in Hin. by rewrite cmp_refl in Hin.
    - unfold seqZ. assert (∀ n k, StronglySorted (λ a b : Z, clt a b = true) ((λ i : nat, (Z.of_nat i + 1)%Z) <$> seq k n)) as Hs.
      { induction n as [|n IH]; intros k; csimpl; [constructor|]. constructor; [apply IH|].
        apply Forall_forall. intros x (i & -> & Hi%elem_of_seq)%list_elem_of_fmap.
        apply clt_cmp, Z.compare_lt_iff. lia. }
      apply Hs.
    - intros q. rewrite elem_of_seqZ. rewrite list_elem_of_fmap. split.
      + intros ([m' q'] & -> & [Hk%elem_of_keys Em]%elem_of_filterb). simpl in *. apply eqb_eq in Em as ->.
        apply Hq in Hk. lia.
      + intros Hr. exists (m, q). split; [done|]. apply elem_of_filterb. rewrite elem_of_keys. split.
        * apply Hq. lia.
        * apply eqb_refl. }
  rewrite length_seqZ, Z2Nat.id, Z.eqb_refl by lia. rewrite seqZ_cons by lia. done.
Qed.

Lemma publish_accepted project machine seq all lines records wm p h
    (i := mkIndex 1 project machine (DataHeads h)) :
  log_lines project all → (∀ l, l ∈ lines → l ∈ all) → gapless lines →
  watermark lines = Ok wm → collect read_record lines = Ok records →
  from_records project records "" = Ok p → heads p wm seq = Ok h →
  Index_validate i = Ok tt → ∃ p', reconcile i all = Ok p' ∧ p' = p.
Proof.
  intros Hall Hsub Hgap Hwm Hrec Hp Hh Hval.
  assert (log_lines project lines) as Hlog.
  { destruct Hall as [H1 H2]. split; [intros; apply H1; auto|]. intros; eapply H2; eauto. }
  destruct (watermark_spec _ _ _ Hlog Hwm) as [Hm Hs].
  assert (hd_watermark h = wm ∧ hd_seq h = seq) as [Ewm Eseq].
  { unfold heads in Hh. apply bind_ok in Hh as (ch & _ & [= <-]). done. }
  destruct (prefix_lines_ok project wm all Hall) as [[by_seq prefix] Hpx].
  pose proof (prefix_lines_inv _ _ _ _ Hpx) as [_ Hb Hpre]. simpl in Hb, Hpre.
  assert (∀ line r, line ∈ all → read_record line = Ok r → covered wm r = true ↔ line ∈ lines) as Hcov.
  { intros. by apply (covered_lines project all). }
  assert (∀ m q line, by_seq !! (m, q) = Some line ↔
    line ∈ lines ∧ ∃ r, read_record line = Ok r ∧ r_machine r = m ∧ r_seq r = q) as Hb'.
  { intros m q line. rewrite Hb. split.
    - intros [Hin (r & [Hr Hc] & ? & ?)]. split; [|eauto]. by apply (Hcov line r).
    - intros [Hin (r & Hr & ? & ?)]. split; [auto|]. exists r. split; [split; [done|]|done].
      apply (Hcov line r); auto. }
  exists p. split; [|done]. unfold reconcile. rewrite Hval. rsimpl. cbn [ix_data ix_project i].
  rewrite Ewm, Hpx. rsimpl.
  assert (check_watermark h (λ machine seq, by_seq !! (machine, seq)) = Ok tt) as ->.
  { unfold check_watermark. apply for_each_ok, Forall_forall. intros [m w] Hin. simpl.
    rewrite Ewm in Hin. apply elem_of_entries, Hm in Hin as (line & r & Hl & Hr & <- & <- & Hhash & _).
    rewrite (proj2 (Hb' (r_machine r) (r_seq r) line)) by eauto. rsimpl. by rewrite Hhash, eqb_refl. }
  rsimpl.
  assert (for_each (check_gap by_seq) (entries wm) = Ok tt) as ->.
  { apply for_each_ok, Forall_forall. intros [m w] Hin%elem_of_entries.
    destruct (Hm _ _ Hin) as (line & r & Hl & Hr & Em & Eq & _ & Hmax).
    destruct (proj1 Hlog line Hl) as (r0 & Hr0 & _ & Hseq). rewrite Hr in Hr0. injection Hr0 as <-.
    apply check_gap_ok; [lia|]. intros q. split.
    - intros [l [Hl' (r' & Hr' & Em' & <-)]%Hb'].
      destruct (proj1 Hlog l Hl') as (r0 & Hr0 & _ & Hseq'). rewrite Hr' in Hr0. injection Hr0 as <-.
      specialize (Hmax l r' Hl' Hr' Em'). lia.
    - intros Hq. destruct (Hgap line r q) as (l2 & r2 & Hl2 & Hr2 & Em2 & Eq2); [done..|lia|].
      exists l2. apply Hb'. split; [done|]. exists r2. split; [done|]. split; [congruence|done]. }
  rsimpl.
  assert (∀ r, r ∈ prefix ↔ r ∈ records) as Hsame.
  { intros r. rewrite Hpre, (elem_of_collect _ _ _ _ Hrec). split.
    - intros (line & Hin & Hr & Hc). exists line. by apply (Hcov line r) in Hc.
    - intros (line & Hl & Hr). exists line. split; [auto|]. split; [done|]. apply (Hcov line r); auto. }
  pose proof (from_records_set project prefix records "") as Hset. rewrite Hp in Hset.
  assert (from_records project prefix "" = Ok p) as ->.
  { apply ok_some. apply Hset; [|done]. apply Forall_forall. intros r (line & _ & Hr & _)%Hpre.
    unfold read_record in Hr. inv_ok. by eapply Record_from_wf. }
  rsimpl. rewrite Eseq, Hh. rsimpl. by rewrite eqb_refl.
Qed.
End publish.

(** ** Samples *)

(** A commit that starts a line, and its signed line as the reader sees it. *)
Definition snap_state : StateRec :=
  mkStateRec (uuid_n "3") Commit (Some (uuid_n "6")) None None [] None "" (mkAuthor "" "" 0 None) "title" 0 false
    [] ∅ None false None.
Definition snap_record : LogRecord :=
  mkRecord (uuid_n "1") (uuid_n "2") 1 0 "commit" (uuid_n "9") (mkActor 0 "" None) [snap_state]
    {[uuid_n "5" := mkLineChange None (Some (mkLineState "topic" (uuid_n "3") 0 (uuid_n "2"))) None None]} JNull.
Definition snap_text : JsonText :=
  text_table [("R1", Record_to_value snap_record); ("S1", JString "sig");
      ("L1", JObject [("r", Record_to_value snap_record); ("s", JString "sig")])]
    [("L1", RawObject [("r", "R1"); ("s", "S1")])] (λ _, "").
Definition snap_project : Project :=
  default (empty_project "" "")
    (ok (@from_records uuid_plain encodings_hex crypto_plain snap_text ascii_lowercase (uuid_n "9") [snap_record] "")).
Definition snap_marks : gmap string Watermark :=
  {[uuid_n "2" := mkWatermark 1 (@line_hash encodings_hex crypto_plain "L1")]}.
Definition snap_heads : Heads :=
  default (mkHeads 0 ∅ [] [] [] (mkCounts 0 0 0)) (ok (heads snap_project snap_marks 1)).
Definition snap_index : Index := mkIndex 1 (uuid_n "9") (uuid_n "2") (DataHeads snap_heads).
Definition snap_model : Model := mkModel {[uuid_n "9" := snap_project]}.

Lemma snap_project_ok :
  @from_records uuid_plain encodings_hex crypto_plain snap_text ascii_lowercase (uuid_n "9") [snap_record] "" =
  Ok snap_project.
Proof. vm_compute. reflexivity. Qed.
Lemma snap_index_ok :
  @reconcile uuid_plain encodings_hex crypto_plain snap_text ascii_lowercase snap_index ["L1"] = Ok snap_project.
Proof. vm_compute. reflexivity. Qed.
Lemma snap_full_ok :
  @from_verified_lines uuid_plain encodings_hex crypto_plain snap_text ascii_lowercase ["L1"] "" = Ok snap_model.
Proof. vm_compute. reflexivity. Qed.

(** ** Main results *)

(** C9. Reconciliation accepts only the truth: a project that an index yields is the fold of
    exactly the records that the watermark covers, all of them in the given lines of its project;
    the lines of every marked machine are complete from the first to the mark, whose hash is the
    mark's; and the snapshot is the one this project gives. *)
Theorem reconcile_exact `{HU : Uuid, HE : Encodings, HC : Crypto, HJ : JsonText, HL : Unicode} i lines p :
  reconcile i lines = Ok p →
  ∃ h prefix, ix_data i = DataHeads h ∧
    (∀ line, line ∈ lines → ∃ r, read_record line = Ok r ∧ r_project r = ix_project i) ∧
    (∀ r, r ∈ prefix ↔ ∃ line, line ∈ lines ∧ holds (hd_watermark h) line r) ∧
    from_records (ix_project i) prefix "" = Ok p ∧
    heads p (hd_watermark h) (hd_seq h) = Ok h ∧
    ∀ m w, hd_watermark h !! m = Some w →
      (∀ q, (1 ≤ q ≤ wm_seq w)%Z → ∃ line r, line ∈ lines ∧ holds (hd_watermark h) line r ∧
         r_machine r = m ∧ r_seq r = q) ∧
      (∃ line r, line ∈ lines ∧ holds (hd_watermark h) line r ∧ r_machine r = m ∧
         r_seq r = wm_seq w ∧ line_hash line = wm_hash w).
Proof. apply reconcile_spec. Qed.
Lemma reconcile_exact_witness :
  ∃ h prefix, ix_data snap_index = DataHeads h ∧
    (∀ line, line ∈ ["L1"] → ∃ r, @read_record encodings_hex crypto_plain snap_text line = Ok r ∧ r_project r = ix_project snap_index) ∧
    (∀ r, r ∈ prefix ↔ ∃ line, line ∈ ["L1"] ∧ @holds encodings_hex crypto_plain snap_text (hd_watermark h) line r) ∧
    @from_records uuid_plain encodings_hex crypto_plain snap_text ascii_lowercase (ix_project snap_index) prefix ""
      = Ok snap_project ∧
    heads snap_project (hd_watermark h) (hd_seq h) = Ok h ∧
    ∀ m w, hd_watermark h !! m = Some w →
      (∀ q, (1 ≤ q ≤ wm_seq w)%Z → ∃ line r, line ∈ ["L1"] ∧ @holds encodings_hex crypto_plain snap_text (hd_watermark h) line r ∧
         r_machine r = m ∧ r_seq r = q) ∧
      (∃ line r, line ∈ ["L1"] ∧ @holds encodings_hex crypto_plain snap_text (hd_watermark h) line r ∧ r_machine r = m ∧
         r_seq r = wm_seq w ∧ @line_hash encodings_hex crypto_plain line = wm_hash w).
Proof.
  apply (@reconcile_exact uuid_plain encodings_hex crypto_plain snap_text ascii_lowercase snap_index ["L1"]
    snap_project). exact snap_index_ok.
Defined.

(** C26. A published snapshot is accepted: the snapshot that a writer derives from complete signed
    lines reconciles, to the project it was derived from, with those lines and with every larger
    log that they are a part of. *)
Theorem snapshot_accepted `{HU : Uuid, HE : Encodings, HC : Crypto, HJ : JsonText, HL : Unicode}
    project machine seq all lines records wm p h :
  log_lines project all → (∀ l, l ∈ lines → l ∈ all) → gapless lines →
  watermark lines = Ok wm → collect read_record lines = Ok records →
  from_records project records "" = Ok p → heads p wm seq = Ok h →
  Index_validate (mkIndex 1 project machine (DataHeads h)) = Ok tt →
  reconcile (mkIndex 1 project machine (DataHeads h)) all = Ok p.
Proof.
  intros H1 H2 H3 H4 H5 H6 H7 H8.
  by destruct (publish_accepted project machine seq all lines records wm p h) as (? & ? & ->).
Qed.
Lemma snapshot_accepted_witness :
  @reconcile uuid_plain encodings_hex crypto_plain snap_text ascii_lowercase snap_index ["L1"] = Ok snap_project.
Proof.
  apply (@snapshot_accepted uuid_plain encodings_hex crypto_plain snap_text ascii_lowercase (uuid_n "9") (uuid_n "2")
    1 ["L1"] ["L1"] [snap_record] snap_marks).
  - split.
    + intros line ->%list_elem_of_singleton. exists snap_record. by vm_compute.
    + by intros l l' r r' ->%list_elem_of_singleton ->%list_elem_of_singleton.
  - done.
  - intros line r q ->%list_elem_of_singleton Hr Hq. exists "L1", snap_record.
    assert (@read_record encodings_hex crypto_plain snap_text "L1" = Ok snap_record) as E by (vm_compute; reflexivity).
    rewrite E in Hr. injection Hr as <-. simpl in Hq. split; [left|]. split; [done|].
    split; [done|]. simpl. lia.
  - vm_compute. reflexivity.
  - vm_compute. reflexivity.
  - exact snap_project_ok.
  - vm_compute. reflexivity.
  - vm_compute. reflexivity.
Defined.

(** C27. Skip pointers lead where walking would: an ancestor found through checked graphs is the
    state that many first parents back; and when the graphs along the chain pass the check, every
    distance is answered, with the ancestor or with the refusal that it lies outside of history.
    The loop ends within the 64 bits of the distance. *)
Theorem ancestor_exact `{HU : Uuid, HE : Encodings, HC : Crypto, HJ : JsonText, HL : Unicode}
    id l machine p graphs start d :
  from_records id l machine = Ok p → (0 ≤ d < 2 ^ 64)%Z →
  (∀ a, ancestor p graphs start d = Ok a → nth_parent p (Z.to_nat d) start = Some a) ∧
  ((∀ n x, nth_parent p n start = Some x → is_ok (checked_graph p graphs x) = true) →
   ancestor p graphs start d = ctx "ancestor is outside history" (nth_parent p (Z.to_nat d) start)).
Proof.
  intros Hk%from_records_keyed Hd. unfold ancestor. split.
  - intros a (g & _ & Ha)%bind_ok. eapply ancestor_go_sound; [done| |done]. lia.
  - intros Hg. pose proof (Hg 0 start eq_refl) as Hs. destruct (checked_graph p graphs start); [|done].
    rsimpl. by apply ancestor_go_complete.
Qed.
Definition hist_graphs : gmap string Graph :=
  {["s1" := mkGraph "s1" []; "s2" := mkGraph "s2" ["s1"]; "s3" := mkGraph "s3" ["s1"]]}.
Lemma ancestor_exact_witness :
  ancestor hist_project hist_graphs "s3" 1 = Ok "s1" ∧ nth_parent hist_project (Z.to_nat 1) "s3" = Some "s1".
Proof.
  assert (ancestor hist_project hist_graphs "s3" 1 = Ok "s1") as E by (vm_compute; reflexivity).
  split; [exact E|].
  apply (@ancestor_exact uuid_plain encodings_hex crypto_plain no_text ascii_lowercase "p" hist_records "m"
    hist_project hist_graphs "s3" 1 hist_project_ok ltac:(lia)). exact E.
Defined.

(** Graphs are built as they are checked: on a complete chain of first parents without a
    cycle, the graph of a state can be built from the checked graphs of its ancestors alone, and
    the check of the built graph against the signed records succeeds. *)
Theorem graph_build_checked `{HU : Uuid, HE : Encodings, HC : Crypto, HJ : JsonText, HL : Unicode}
    id l machine p s graphs :
  from_records id l machine = Ok p →
  (∀ n x, nth_parent p n (st_id s) = Some x → is_Some (state p x)) →
  (∀ m n x, m < n → nth_parent p m (st_id s) = Some x → nth_parent p n (st_id s) ≠ Some x) →
  (Z.of_nat (size (p_states p)) < 2 ^ 63)%Z → state p (st_id s) = Some s →
  (∀ n x, nth_parent p (S n) (st_id s) = Some x → is_ok (checked_graph p graphs x) = true) →
  ∃ g, graph (checked_graph p graphs) s = Ok g ∧ checked_graph p (<[st_id s := g]> graphs) (st_id s) = Ok g.
Proof. intros Hk%from_records_keyed. by apply graph_built. Qed.

