(* ===== verification/Public.v ===== *)
(** Access from outside: key slots ([layr-store/src/keys.rs]), public stores and the writers they
    trust ([public.rs]), and the proof of a person's session ([session.rs]). *)

From S2P Require Import Prelude Strs Json Canonical Types Extern Format Request Validation.

(** ** Slots *)

Section slots.
Context `{HC : Crypto, !KeyText HC}.

Definition recipient_of (identity : string) : result string :=
  ctx "not an age identity: {e}" (identity_recipient (str_trim identity)).
Definition seal_slot (coin vault_identity opener_recipient : string) : result string :=
  recipient_of vault_identity;;
  encrypt coin opener_recipient (str_trim vault_identity +:+ String (byte_of 10) "").
Definition open_slot (slot opener_identity : string) : result string :=
  text ← decrypt opener_identity slot;
  ensure (utf8_valid text) "the slot holds no vault identity";;
  let text := str_trim text in
  let well_formed := is_some_and (strip_prefix "AGE-SECRET-KEY-1" text)
    (all_bytes (λ c, is_ascii_uppercase c || is_ascii_digit c)) in
  bail_if (negb well_formed || negb (is_ok (recipient_of text))) "the slot holds no vault identity";;
  Ok text.
End slots.

(** ** The manifest of a public store *)

Record Descriptor := mkDescriptor { ds_format : Z; ds_project : string; ds_recipient : string }.
Record Manifest := mkManifest {
  mf_v : Z; mf_project : string; mf_recipient : string; mf_identity : string; mf_machine : string;
  mf_public_key : string; mf_sig : string }.
#[export] Instance Manifest_eq_dec : EqDecision Manifest.
Proof. solve_decision. Defined.

Definition PUBLIC_DOMAIN : string := "layr/store/v2/public" +:+ String "000" "".
Definition Manifest_to_value (m : Manifest) : json :=
  ser_struct [("v", Some (JInt (mf_v m))); ("project", Some (JString (mf_project m)));
    ("recipient", Some (JString (mf_recipient m))); ("identity", Some (JString (mf_identity m)));
    ("machine", Some (JString (mf_machine m))); ("public_key", Some (JString (mf_public_key m)));
    ("sig", Some (JString (mf_sig m)))].
Definition Manifest_from_value (j : json) : result Manifest :=
  f ← de_struct ["v"; "project"; "recipient"; "identity"; "machine"; "public_key"; "sig"] [] true j;
  v ← f_req de_u32 f "v"; project ← f_req de_string f "project";
  recipient ← f_req de_string f "recipient"; identity ← f_req de_string f "identity";
  machine ← f_req de_string f "machine"; public_key ← f_req de_string f "public_key";
  sig ← f_req de_string f "sig";
  Ok (mkManifest v project recipient identity machine public_key sig).
(** [object.remove(k)]. *)
Definition remove_key (k : string) (v : json) : json :=
  match v with JObject m => JObject (filterb (λ kv, negb (kv.1 == k)) m) | _ => v end.
Definition Manifest_message (m : Manifest) : result string :=
  c ← canonical (remove_key "sig" (Manifest_to_value m));
  Ok (PUBLIC_DOMAIN +:+ c).
Definition with_signature (m : Manifest) (sig : string) : Manifest :=
  mkManifest (mf_v m) (mf_project m) (mf_recipient m) (mf_identity m) (mf_machine m) (mf_public_key m) sig.

Section manifest.
Context `{HU : Uuid, HE : Encodings, HC : Crypto, HJ : JsonText, !KeyText HC}.

Definition Manifest_validate (m : Manifest) (d : Descriptor) : result () :=
  bail_if (negb (mf_v m =? 1)%Z || negb (ds_format d =? 2)%Z || negb (mf_project m == ds_project d)
           || negb (mf_recipient m == ds_recipient d))
    "public manifest does not match the store descriptor";;
  bail_if (negb (is_uuid (mf_project m)) || negb (is_uuid (mf_machine m))
           || negb (valid_recipient (mf_recipient m))) "invalid public manifest";;
  opener ← recipient_of (mf_identity m);
  bail_if (opener == mf_recipient m) "public opener must differ from the vault identity".
Definition Manifest_new (d : Descriptor) (identity machine : string) (key : SigningKey) : result Manifest :=
  let m := mkManifest 1 (ds_project d) (ds_recipient d) identity machine
    (hex_encode (verifying_key_bytes (verifying_key key))) "" in
  Manifest_validate m d;;
  message ← Manifest_message m;
  Ok (with_signature m (sign_bytes message key)).
Definition Manifest_key (m : Manifest) : result VerifyingKey :=
  bytes ← ctx "invalid hex" (hex_decode (mf_public_key m));
  bail_if (negb (str_len bytes =? 32)%Z) "invalid public manifest signer key";;
  ctx "bad key" (verifying_key_from bytes).
Definition Manifest_parse (bytes : string) (d : Descriptor) : result Manifest :=
  bail_if (Z.shiftl 16 10 <? str_len bytes)%Z "public manifest is too large";;
  j ← json_parse bytes;
  m ← Manifest_from_value j;
  Manifest_validate m d;;
  message ← Manifest_message m;
  key ← Manifest_key m;
  verify_bytes message (mf_sig m) key;;
  Ok m.
Definition Manifest_open (m : Manifest) (slot : string) : result string :=
  identity ← open_slot slot (mf_identity m);
  recipient ← recipient_of identity;
  bail_if (negb (recipient == mf_recipient m)) "public slot does not match the store recipient";;
  Ok identity.
(** Keys are compared by their bytes. *)
Definition verify_signer (m : Manifest) (trusted : gmap string VerifyingKey) : result () :=
  key ← Manifest_key m;
  bail_if (negb (verifying_key_bytes <$> trusted !! mf_machine m == Some (verifying_key_bytes key)))
    "public manifest signer is not a trusted project writer".

(** ** Trusted writers *)

(** The keys of the machines that registered, and the lines with their values. *)
Definition Writers : Type := gmap string VerifyingKey * list (string * json).
Definition register_line (project : string) (w : Writers) (line : string) : result Writers :=
  let '(keys, parsed) := w in
  raw ← parse_bytes line None;
  j ← json_parse raw;
  let value := value_of j in
  bail_if (negb (as_str value.["project"] == Some project)) "public writer records belong to another project";;
  keys ← (if is_str value.["op"] "machine" && (as_i64 value.["seq"] == Some 1%Z) then
      machine ← ctx "machine record has no id" (as_str value.["machine"]);
      key ← machine_key raw;
      bail_if (is_some (keys !! machine)) "duplicate writer machine record";;
      Ok (<[machine := key]> keys)
    else Ok keys);
  Ok (keys, parsed ++ [(line, value)]).
Definition check_writer (project : string) (keys : gmap string VerifyingKey) (creator : option string)
    (lv : string * json) : result (option string) :=
  let '(line, value) := lv in
  machine ← ctx "record has no machine" (as_str value.["machine"]);
  key ← ctx "writer has no machine record" (keys !! machine);
  verify_line line key;;
  if is_str value.["op"] "project" then
    bail_if (negb (as_str value.["data"].["id"] == Some project) || is_some creator)
      "ambiguous project creator";;
    Ok (Some machine)
  else Ok creator.

(** Whether the record in [value] names a registered machine together with its key. *)
Definition vouches (keys : gmap string VerifyingKey) (value : json) : option string :=
  let target := str_or_empty value.["data"].["machine"] in
  if is_some_and (keys !! target) (λ key,
       Some (hex_encode (verifying_key_bytes key)) == as_str value.["data"].["public_key"])
  then Some target else None.
Definition trust_record (keys : gmap string VerifyingKey) (trusted : gset string) (value : json) : gset string :=
  if negb (is_str value.["op"] "machine.trust") || negb (bool_decide (str_or_empty value.["machine"] ∈ trusted))
  then trusted
  else match vouches keys value with Some target => {[target]} ∪ trusted | None => trusted end.
(** The passes of the loop: it stops when a pass adds nothing. *)
Fixpoint trust_loop (fuel : nat) (keys : gmap string VerifyingKey) (values : list json) (trusted : gset string)
    : option (gset string) :=
  let after := foldl (trust_record keys) trusted values in
  if (size after =? size trusted)%nat then Some after
  else match fuel with 0 => None | S fuel => trust_loop fuel keys values after end.
Definition trusted_writers (project : string) (lines : list string) : result (gmap string VerifyingKey) :=
  '(keys, parsed) ← foldM (register_line project) (∅, []) lines;
  creator ← foldM (check_writer project keys) None parsed;
  creator ← ctx "push the project before making its store public" creator;
  trusted ← ctx "out of fuel" (trust_loop (size keys) keys parsed.*2 {[creator]});
  Ok (filter (λ mk, mk.1 ∈ trusted) keys).

(** ** Sessions *)

Definition SESSION_DOMAIN : string := "layr/session/v1" +:+ String "000" "".
Definition session_message (login challenge : string) : result string :=
  bail_if (negb (login_name login) || negb (str_len challenge =? 44)%Z) "invalid session login or challenge";;
  bytes ← ctx "invalid session challenge" (base64_decode challenge);
  bail_if (negb (str_len bytes =? 32)%Z || negb (base64_encode bytes == challenge)) "invalid session challenge";;
  Ok (SESSION_DOMAIN +:+ login +:+ String "000" bytes).
Definition session_sign (login challenge : string) (key : SigningKey) : result string :=
  message ← session_message login challenge;
  let signature := sign_bytes message key in
  bytes ← ctx "invalid base64" (base64_decode signature);
  Ok (hex_encode bytes).
End manifest.

(** * Properties *)

Section trust_facts.
Context `{HE : Encodings, HC : Crypto, HJ : JsonText, !KeyText HC}.
Implicit Types (keys : gmap string VerifyingKey) (trusted : gset string) (value : json).

(** The machines that the creator vouches for, directly or through others. *)
Inductive vouched keys (values : list json) (creator : string) : string → Prop :=
| vouched_creator : vouched keys values creator creator
| vouched_record value target :
    value ∈ values → is_str value.["op"] "machine.trust" = true →
    vouched keys values creator (str_or_empty value.["machine"]) →
    vouches keys value = Some target → vouched keys values creator target.

Lemma vouches_some keys value target :
  vouches keys value = Some target ↔
  target = str_or_empty value.["data"].["machine"] ∧
  ∃ key, keys !! target = Some key ∧
    as_str value.["data"].["public_key"] = Some (hex_encode (verifying_key_bytes key)).
Proof.
  unfold vouches. destruct (keys !! str_or_empty value.["data"].["machine"]) as [key|] eqn:E; simpl.
  - destruct (eqb _ _) eqn:Eb.
    + apply eqb_eq in Eb. split; [intros [= <-]; eauto 6|]. by intros [-> _].
    + apply eqb_ne in Eb. split; [done|]. intros [-> (key' & ? & ?)]. by simplify_eq.
  - split; [done|]. intros [-> (key' & ? & ?)]. congruence.
Qed.

Lemma trust_record_sub keys trusted value : trusted ⊆ trust_record keys trusted value.
Proof. unfold trust_record. destruct (_ || _); [done|]. destruct (vouches keys value); set_solver. Qed.
Lemma trust_pass_sub keys trusted values : trusted ⊆ foldl (trust_record keys) trusted values.
Proof.
  revert trusted. induction values as [|v vs IH]; intros trusted; simpl; [done|].
  etrans; [apply trust_record_sub|apply IH].
Qed.
Lemma trust_record_dom keys trusted value :
  trusted ⊆ dom keys → trust_record keys trusted value ⊆ dom keys.
Proof.
  intros Ht. unfold trust_record. destruct (_ || _); [done|].
  destruct (vouches keys value) as [t|] eqn:E; [|done].
  apply vouches_some in E as (_ & key & Hk & _). apply elem_of_dom_2 in Hk. set_solver.
Qed.
Lemma trust_pass_dom keys trusted values :
  trusted ⊆ dom keys → foldl (trust_record keys) trusted values ⊆ dom keys.
Proof.
  revert trusted. induction values as [|v vs IH]; intros trusted Ht; simpl; [done|].
  by apply IH, trust_record_dom.
Qed.
(** A pass that adds nothing has nothing to add. *)
Lemma trust_pass_fixed keys trusted values value :
  foldl (trust_record keys) trusted values = trusted → value ∈ values →
  trust_record keys trusted value = trusted.
Proof.
  induction values as [|v vs IH]; simpl; intros Hf Hv; [set_solver|].
  assert (trust_record keys trusted v = trusted) as E.
  { apply set_eq_subseteq. split; [|apply trust_record_sub].
    etrans; [apply (trust_pass_sub keys _ vs)|by rewrite Hf]. }
  rewrite E in Hf. apply elem_of_cons in Hv as [->|Hv]; auto.
Qed.

(** The loop ends: the trusted machines are among the registered ones. *)
Lemma trust_loop_ends fuel keys values trusted :
  trusted ⊆ dom keys → size keys ≤ size trusted + fuel →
  ∃ t, trust_loop fuel keys values trusted = Some t ∧ trusted ⊆ t ∧
       foldl (trust_record keys) t values = t.
Proof.
  revert trusted. induction fuel as [|fuel IH]; intros trusted Hd Hs; simpl;
    set (after := foldl (trust_record keys) trusted values);
    pose proof (trust_pass_sub keys trusted values) as Hsub; fold after in Hsub;
    pose proof (trust_pass_dom keys trusted values Hd) as Hdom; fold after in Hdom;
    pose proof (subseteq_size _ _ Hsub) as Hle; pose proof (subseteq_size _ _ Hdom) as Hle';
    rewrite size_dom in Hle'; destruct (Nat.eqb_spec (size after) (size trusted)) as [E|E].
  1, 3: exists after; assert (after = trusted) as Ea
    by (symmetry; apply set_subseteq_size_eq; [done|lia]);
    split; [done|]; split; [done|]; by rewrite Ea at 1; fold after.
  - lia.
  - destruct (IH after Hdom) as (t & Ht & Hsub' & Hfix); [lia|]. exists t. split; [done|].
    split; [by etrans|done].
Qed.
Lemma trust_record_vouched keys values creator trusted value :
  (∀ m, m ∈ trusted → vouched keys values creator m) → value ∈ values →
  ∀ m, m ∈ trust_record keys trusted value → vouched keys values creator m.
Proof.
  intros Ht Hv m. unfold trust_record. destruct (is_str value.["op"] "machine.trust") eqn:Eop; simpl; [|auto].
  case_bool_decide as Hin; simpl; [|auto]. destruct (vouches keys value) as [t|] eqn:E; [|auto].
  intros [->%elem_of_singleton|Hm]%elem_of_union; [|auto]. eapply vouched_record; eauto.
Qed.
Lemma trust_loop_vouched fuel keys values creator trusted t :
  (∀ m, m ∈ trusted → vouched keys values creator m) →
  trust_loop fuel keys values trusted = Some t → ∀ m, m ∈ t → vouched keys values creator m.
Proof.
  assert (∀ vs trusted, (∀ m, m ∈ trusted → vouched keys values creator m) → (∀ v, v ∈ vs → v ∈ values) →
    ∀ m, m ∈ foldl (trust_record keys) trusted vs → vouched keys values creator m) as Hpass.
  { induction vs as [|v vs IH]; intros tr Htr Hvs; simpl; [done|]. apply IH; [|set_solver].
    apply trust_record_vouched; [done|set_solver]. }
  revert trusted. induction fuel as [|fuel IH]; intros trusted Htr; simpl;
    destruct (_ =? _)%nat; intros Ht; simplify_eq; eauto.
Qed.
(** The machines that the loop trusts are those that the creator vouches for. *)
Lemma trust_loop_exact keys values creator :
  is_Some (keys !! creator) →
  ∃ t, trust_loop (size keys) keys values {[creator]} = Some t ∧
       ∀ m, m ∈ t ↔ vouched keys values creator m.
Proof.
  intros Hc. destruct (trust_loop_ends (size keys) keys values {[creator]}) as (t & Ht & Hsub & Hfix).
  { intros m ->%elem_of_singleton. by apply elem_of_dom. }
  { lia. }
  exists t. split; [done|]. intros m. split.
  - eapply trust_loop_vouched; [|done]. intros x ->%elem_of_singleton. constructor.
  - induction 1 as [|value target Hv Hop Hm IH Hvo]; [set_solver|].
    pose proof (trust_pass_fixed keys t values value Hfix Hv) as Hr. unfold trust_record in Hr.
    rewrite Hop, bool_decide_eq_true_2, Hvo in Hr by done. simpl in Hr. set_solver.
Qed.
End trust_facts.

Section writer_facts.
Context `{HE : Encodings, HC : Crypto, HJ : JsonText, !KeyText HC}.

(** The value of the signed text of a line. *)
Definition line_value (line : string) (value : json) : Prop :=
  ∃ raw j, parse_bytes line None = Ok raw ∧ json_parse raw = Ok j ∧ value = value_of j.
(** The line is the first record of machine [m] and carries its key. *)
Definition registers (line m : string) (key : VerifyingKey) : Prop :=
  ∃ raw j, parse_bytes line None = Ok raw ∧ json_parse raw = Ok j ∧ machine_key raw = Ok key ∧
    is_str (value_of j).["op"] "machine" = true ∧ as_i64 (value_of j).["seq"] = Some 1%Z ∧
    as_str (value_of j).["machine"] = Some m.

Record registered (project : string) (lines : list string) (w : Writers) : Prop := {
  rg_parsed : Forall2 (λ line lv, lv.1 = line ∧ line_value line lv.2 ∧
                        as_str (lv.2).["project"] = Some project) lines w.2;
  rg_keys : ∀ m k, w.1 !! m = Some k ↔ ∃ line, line ∈ lines ∧ registers line m k }.

Lemma register_line_inv project lines w line w' :
  registered project lines w → register_line project w line = Ok w' →
  registered project (lines ++ [line]) w'.
Proof.
  intros [Hp Hk] H. destruct w as [keys parsed]. unfold register_line in H. simpl in Hp, Hk.
  apply bind_ok in H as (raw & Hraw & H). apply bind_ok in H as (j & Hj & H).
  apply bind_ok in H as ([] & Hproj%bail_if_ok%negb_false_iff%eqb_eq & H).
  apply bind_ok in H as (keys' & Hkeys & [= <-]). split; simpl.
  - apply Forall2_app; [done|]. constructor; [|constructor]. split; [done|]. split; [|done].
    by exists raw, j.
  - assert (∀ m k, registers line m k ↔ machine_key raw = Ok k ∧
      is_str (value_of j).["op"] "machine" = true ∧ as_i64 (value_of j).["seq"] = Some 1%Z ∧
      as_str (value_of j).["machine"] = Some m) as Hr.
    { intros m k. split; [|intros (? & ? & ? & ?); by exists raw, j].
      intros (raw' & j' & Hraw' & Hj' & ?). rewrite Hraw in Hraw'. injection Hraw' as <-.
      rewrite Hj in Hj'. by injection Hj' as <-. }
    intros m k. setoid_rewrite elem_of_app. setoid_rewrite list_elem_of_singleton.
    destruct (_ && _) eqn:Ec in Hkeys.
    + apply andb_true_iff in Ec as [Eop Eseq%eqb_eq].
      apply bind_ok in Hkeys as (m0 & Hm0%ctx_ok & Hkeys). apply bind_ok in Hkeys as (k0 & Hk0 & Hkeys).
      apply bind_ok in Hkeys as ([] & Hnew%bail_if_ok & [= <-]).
      destruct (keys !! m0) eqn:E0; [done|]. rewrite lookup_insert_Some, Hk. split.
      * intros [[<- <-]|[_ (l & Hl & Hr')]]; [exists line|exists l]; (split; [auto|]); [by apply Hr|done].
      * intros (l & [Hl| ->] & Hr').
        -- right. split; [|eauto]. intros <-.
           assert (keys !! m0 = Some k) as E1 by (apply Hk; eauto). congruence.
        -- apply Hr in Hr' as (Hk' & _ & _ & Hm'). left. split; congruence.
    + injection Hkeys as <-. rewrite Hk. split.
      * intros (l & ? & ?). eauto.
      * intros (l & [Hl| ->] & Hr'); [eauto|]. apply Hr in Hr' as (_ & Eop & Eseq & _).
        by rewrite Eop, Eseq, eqb_refl in Ec.
Qed.
Lemma register_lines_inv project lines w :
  foldM (register_line project) (∅, []) lines = Ok w → registered project lines w.
Proof.
  apply (foldM_prefix_inv (registered project)).
  - split; simpl; [constructor|]. intros m k. rewrite lookup_empty. set_solver.
  - intros pre x post s s' _. apply register_line_inv.
Qed.

(** A line of a registered machine, with its signature. *)
Definition written (keys : gmap string VerifyingKey) (line : string) (value : json) : Prop :=
  ∃ m key, as_str value.["machine"] = Some m ∧ keys !! m = Some key ∧ is_ok (verify_line line key) = true.
(** The machine of the only project record. *)
Definition created_by (project : string) (values : list json) (creator : option string) : Prop :=
  (∀ v, v ∈ values → is_str v.["op"] "project" = true →
     as_str v.["data"].["id"] = Some project ∧ as_str v.["machine"] = creator) ∧
  (∀ c, creator = Some c → ∃ v, v ∈ values ∧ is_str v.["op"] "project" = true ∧ as_str v.["machine"] = Some c).

Lemma check_writers_inv project keys parsed creator :
  foldM (check_writer project keys) None parsed = Ok creator →
  (∀ lv, lv ∈ parsed → written keys lv.1 lv.2) ∧ created_by project parsed.*2 creator.
Proof.
  apply (foldM_prefix_inv (λ pre c, (∀ lv, lv ∈ pre → written keys lv.1 lv.2) ∧ created_by project pre.*2 c)).
  - split; [set_solver|]. split; [set_solver|done].
  - intros pre [line value] post c c' _ [Hw [Hc1 Hc2]] H. unfold check_writer in H.
    apply bind_ok in H as (m & Hm%ctx_ok & H). apply bind_ok in H as (key & Hkey%ctx_ok & H).
    apply bind_ok in H as (r & Hv & H). split.
    { intros lv [Hlv| ->%list_elem_of_singleton]%elem_of_app; [auto|]. exists m, key. simpl. by rewrite Hv. }
    rewrite fmap_app. simpl. destruct (is_str value.["op"] "project") eqn:Eop.
    + apply bind_ok in H as ([] & [Hid Hnone]%bail_if_ok%orb_false_iff & [= <-]).
      apply negb_false_iff, eqb_eq in Hid. destruct c; [done|]. split.
      * intros v [Hv'| ->%list_elem_of_singleton]%elem_of_app Hop; [|done].
        destruct (Hc1 v Hv' Hop) as [_ Em].
        apply list_elem_of_fmap in Hv' as (lv & -> & Hlv). destruct (Hw lv Hlv) as (m' & _ & Em' & _).
        congruence.
      * intros x [= <-]. exists value. split; [set_solver|done].
    + injection H as <-. split.
      * intros v [Hv'| ->%list_elem_of_singleton]%elem_of_app Hop; [auto|congruence].
      * intros x Hx. destruct (Hc2 x Hx) as (v & ? & ?). exists v. split; [set_solver|done].
Qed.

Lemma creator_known project keys parsed creator :
  foldM (check_writer project keys) None parsed = Ok (Some creator) → is_Some (keys !! creator).
Proof.
  intros [Hw [_ Hc]]%check_writers_inv. destruct (Hc creator eq_refl) as (v & Hv & _ & Hm).
  apply list_elem_of_fmap in Hv as (lv & -> & Hlv). destruct (Hw lv Hlv) as (m0 & k0 & Hm0 & Hk0 & _).
  rewrite Hm in Hm0. injection Hm0 as <-. eauto.
Qed.
(** The loop ends: lines that pass the checks have trusted writers. *)
Lemma trusted_writers_ok project lines keys parsed creator :
  foldM (register_line project) (∅, []) lines = Ok (keys, parsed) →
  foldM (check_writer project keys) None parsed = Ok (Some creator) →
  is_ok (trusted_writers project lines) = true.
Proof.
  intros Hr Hc. destruct (trust_loop_exact keys parsed.*2 creator) as (t & Ht & _); [by eapply creator_known|].
  unfold trusted_writers. rewrite Hr. rsimpl. rewrite Hc. rsimpl. by rewrite Ht.
Qed.
Lemma trusted_writers_spec project lines writers :
  trusted_writers project lines = Ok writers →
  ∃ keys values creator,
    Forall2 (λ line v, line_value line v ∧ as_str v.["project"] = Some project ∧ written keys line v)
      lines values ∧
    (∀ m k, keys !! m = Some k ↔ ∃ line, line ∈ lines ∧ registers line m k) ∧
    created_by project values (Some creator) ∧
    ∀ m k, writers !! m = Some k ↔ keys !! m = Some k ∧ vouched keys values creator m.
Proof.
  unfold trusted_writers. intros H.
  apply bind_ok in H as ([keys parsed] & [Hp Hk]%register_lines_inv & H). simpl in Hp, Hk.
  apply bind_ok in H as (c & Hcw & H). pose proof Hcw as [Hw Hc]%check_writers_inv.
  apply bind_ok in H as (creator & ->%ctx_ok & H). apply bind_ok in H as (t & Ht%ctx_ok & [= <-]).
  exists keys, parsed.*2, creator. split; [|split; [done|split; [done|]]].
  - apply Forall2_fmap_r. clear -Hp Hw. induction Hp as [|line lv lines parsed [<- [Hv Hpr]] Hp IH]; constructor.
    + split; [done|]. split; [done|]. apply Hw. left.
    + apply IH. intros. apply Hw. by right.
  - destruct (trust_loop_exact keys parsed.*2 creator) as (t' & Ht' & Hin); [by eapply creator_known|].
    simplify_eq. intros m k. rewrite map_lookup_filter_Some. simpl. by rewrite Hin.
Qed.
End writer_facts.

(** ** Manifests *)

Definition Manifest_utf8 (m : Manifest) : bool :=
  forallb utf8_valid [mf_project m; mf_recipient m; mf_identity m; mf_machine m; mf_public_key m].

Lemma Manifest_signed_value m :
  remove_key "sig" (Manifest_to_value m) =
  ser_struct [("v", Some (JInt (mf_v m))); ("project", Some (JString (mf_project m)));
    ("recipient", Some (JString (mf_recipient m))); ("identity", Some (JString (mf_identity m)));
    ("machine", Some (JString (mf_machine m))); ("public_key", Some (JString (mf_public_key m)))].
Proof. reflexivity. Qed.
Lemma Manifest_signed_jwf m : Manifest_utf8 m = true → jwf (remove_key "sig" (Manifest_to_value m)).
Proof.
  unfold Manifest_utf8. rewrite forallb_elem. intros Hu. rewrite Manifest_signed_value.
  apply jwf_ser_struct; [by apply (bool_decide_unpack _); vm_compute|].
  repeat constructor; try (apply Hu; set_solver); by vm_compute.
Qed.
(** The signed message determines every field but the signature. *)
Lemma Manifest_message_inj m m' b :
  Manifest_utf8 m = true → Manifest_utf8 m' = true →
  Manifest_message m = Ok b → Manifest_message m' = Ok b → with_signature m "" = with_signature m' "".
Proof.
  unfold Manifest_message. intros Hm%Manifest_signed_jwf Hm'%Manifest_signed_jwf
    (c & Hc & [= E])%bind_ok (c' & Hc' & [= E'])%bind_ok.
  rewrite <-E in E'. apply str_app_inj_len in E' as [_ <-]; [|done].
  pose proof (canonical_inj _ _ _ Hm Hm' Hc Hc') as Ev.
  destruct m, m'. cbn in Ev. injection Ev as -> -> -> -> -> ->. done.
Qed.
Lemma Manifest_message_ok m : ∃ b, Manifest_message m = Ok b.
Proof.
  unfold Manifest_message. rewrite Manifest_signed_value.
  match goal with |- context [canonical ?v] => pose proof (write_total v) as Ht end.
  change (no_float _) with true in Ht. unfold canonical. destruct (write _); [by eexists|done].
Qed.

Lemma Manifest_message_sig m sig : Manifest_message (with_signature m sig) = Manifest_message m.
Proof. unfold Manifest_message. by rewrite !Manifest_signed_value. Qed.

Section manifest_facts.
Context `{HU : Uuid, HE : Encodings, HC : Crypto, HJ : JsonText, !KeyText HC}.

Lemma Manifest_validate_ok m d u :
  Manifest_validate m d = Ok u →
  mf_v m = 1%Z ∧ ds_format d = 2%Z ∧ mf_project m = ds_project d ∧ mf_recipient m = ds_recipient d ∧
  is_uuid (mf_project m) = true ∧ is_uuid (mf_machine m) = true ∧ valid_recipient (mf_recipient m) = true ∧
  ∃ opener, recipient_of (mf_identity m) = Ok opener ∧ opener ≠ mf_recipient m.
Proof.
  unfold Manifest_validate. intros H. apply bind_ok in H as ([] & H1%bail_if_ok & H).
  apply bind_ok in H as ([] & H2%bail_if_ok & H). apply bind_ok in H as (o & Ho & H3%bail_if_ok%eqb_ne).
  inv_ok. repeat match goal with H : (_ =? _)%Z = true |- _ => apply Z.eqb_eq in H end. eauto 12.
Qed.
Lemma Manifest_parse_spec bytes d m :
  Manifest_parse bytes d = Ok m →
  Manifest_validate m d = Ok tt ∧
  ∃ message key sig, Manifest_message m = Ok message ∧ Manifest_key m = Ok key ∧
    base64_decode (mf_sig m) = Some sig ∧ ed_verify key message sig = true.
Proof.
  unfold Manifest_parse. intros H. apply bind_ok in H as ([] & _ & H). apply bind_ok in H as (j & _ & H).
  apply bind_ok in H as (m' & _ & H). apply bind_ok in H as ([] & Hv & H).
  apply bind_ok in H as (msg & Hm & H). apply bind_ok in H as (key & Hk & H).
  apply bind_ok in H as ([] & Hs & [= <-]). unfold verify_bytes in Hs. inv_ok. eauto 12.
Qed.
Lemma Manifest_validate_sig m sig d : Manifest_validate (with_signature m sig) d = Manifest_validate m d.
Proof. done. Qed.
Lemma Manifest_new_parse `{!EncodingsSpec HE, !CryptoSpec HC} d identity machine key m bytes j :
  Manifest_new d identity machine key = Ok m →
  (str_len bytes <= Z.shiftl 16 10)%Z → json_parse bytes = Ok j → Manifest_from_value j = Ok m →
  str_len (verifying_key_bytes (verifying_key key)) = 32%Z →
  verifying_key_from (verifying_key_bytes (verifying_key key)) = Some (verifying_key key) →
  Manifest_parse bytes d = Ok m.
Proof.
  unfold Manifest_new. set (m0 := mkManifest _ _ _ _ _ _ ""). intros H Hlen Hj Hf H32 Hfrom.
  apply bind_ok in H as ([] & Hv & H). apply bind_ok in H as (msg & Hmsg & [= <-]).
  unfold Manifest_parse. rewrite (proj2 (Z.ltb_ge _ _)) by done. rsimpl. rewrite Hj. rsimpl. rewrite Hf. rsimpl.
  rewrite Manifest_validate_sig, Hv. rsimpl. rewrite Manifest_message_sig, Hmsg. rsimpl.
  unfold Manifest_key. cbn [mf_public_key mf_sig with_signature m0].
  rewrite hex_decode_encode. rsimpl. rewrite H32. change (negb (32 =? 32)%Z) with false. rsimpl. rewrite Hfrom. rsimpl. by rewrite verify_sign_bytes.
Qed.

(** ** Sessions *)

Lemma login_no_nul login : login_name login = true → has_byte "000" login = false.
Proof.
  unfold login_name. intros H. inv_ok. eapply all_bytes_no_byte; [done|]. by vm_compute.
Qed.
Lemma session_message_inj login challenge login' challenge' b :
  session_message login challenge = Ok b → session_message login' challenge' = Ok b →
  login = login' ∧ challenge = challenge'.
Proof.
  unfold session_message. intros H H'.
  apply bind_ok in H as ([] & H1%bail_if_ok & H). apply bind_ok in H as (bytes & _ & H).
  apply bind_ok in H as ([] & H2%bail_if_ok & [= <-]).
  apply bind_ok in H' as ([] & H1'%bail_if_ok & H'). apply bind_ok in H' as (bytes' & _ & H').
  apply bind_ok in H' as ([] & H2'%bail_if_ok & [= E]). inv_ok.
  assert (split_once "000" (login +:+ String "000" bytes) = split_once "000" (login' +:+ String "000" bytes'))
    as Es by congruence.
  rewrite !split_once_app in Es by (by apply login_no_nul). injection Es as <- <-. done.
Qed.
End manifest_facts.

(** ** Main results *)

(** C8. The writers of a public store are exactly those that its creator vouches for: every line
    is of this project and signed by the key that its machine registered in its first record; one
    machine made the project record; and the result holds a machine, with its registered key, just
    when a chain of trust records, each naming the machine together with that key, leads to it
    from the creator. The loop that follows the chains ends: lines that pass the checks always have
    a result. *)
Theorem trusted_writers_exact `{HE : Encodings, HC : Crypto, HJ : JsonText, !KeyText HC} project lines :
  (∀ keys parsed creator, foldM (register_line project) (∅, []) lines = Ok (keys, parsed) →
     foldM (check_writer project keys) None parsed = Ok (Some creator) →
     is_ok (trusted_writers project lines) = true) ∧
  ∀ writers, trusted_writers project lines = Ok writers →
  ∃ keys values creator,
    Forall2 (λ line v, line_value line v ∧ as_str v.["project"] = Some project ∧ written keys line v)
      lines values ∧
    (∀ m k, keys !! m = Some k ↔ ∃ line, line ∈ lines ∧ registers line m k) ∧
    created_by project values (Some creator) ∧
    ∀ m k, writers !! m = Some k ↔ keys !! m = Some k ∧ vouched keys values creator m.
Proof. split; [apply trusted_writers_ok|apply trusted_writers_spec]. Qed.

(** Two machines: the owner registers, creates the project and trusts the writer. *)
Definition owner_key : string := fit 32 "owner".
Definition writer_key : string := fit 32 "writer".
Definition public_record (machine op : string) (seq : Z) (data : json) : json :=
  JObject [("data", data); ("machine", JString machine); ("op", JString op); ("project", JString "p"); ("seq", JInt seq)].
Definition public_rows : list (string * (string * json)) :=
  [("L1", (owner_key, public_record "o" "machine" 1 (JObject [("public_key", JString (hex_text owner_key))])));
   ("L2", (writer_key, public_record "w" "machine" 1 (JObject [("public_key", JString (hex_text writer_key))])));
   ("L3", (owner_key, public_record "o" "project" 2 (JObject [("id", JString "p")])));
   ("L4", (owner_key, public_record "o" "machine.trust" 3
             (JObject [("machine", JString "w"); ("public_key", JString (hex_text writer_key))])))].
Definition public_text : JsonText :=
  text_table
    (((λ r, ("R" +:+ r.1, r.2.2)) <$> public_rows) ++
     ((λ r, ("S" +:+ r.1, JString (hex_text (fit 64 (r.2.1 +:+ "R" +:+ r.1))))) <$> public_rows))
    ((λ r, (r.1, RawObject [("r", "R" +:+ r.1); ("s", "S" +:+ r.1)])) <$> public_rows) (λ _, "").
Lemma trusted_writers_exact_witness :
  ∃ writers, @trusted_writers encodings_hex crypto_plain public_text key_text_plain "p" public_rows.*1 = Ok writers ∧
  ∃ keys values creator,
    Forall2 (λ line v, @line_value encodings_hex crypto_plain public_text line v ∧
        as_str v.["project"] = Some "p" ∧ @written encodings_hex crypto_plain public_text keys line v)
      public_rows.*1 values ∧
    (∀ m k, keys !! m = Some k ↔ ∃ line, line ∈ public_rows.*1 ∧
        @registers encodings_hex crypto_plain public_text line m k) ∧
    created_by "p" values (Some creator) ∧
    ∀ m k, writers !! m = Some k ↔
      keys !! m = Some k ∧ @vouched encodings_hex crypto_plain key_text_plain keys values creator m.
Proof.
  exists {["o" := owner_key; "w" := writer_key]}.
  assert (@trusted_writers encodings_hex crypto_plain public_text key_text_plain "p" public_rows.*1
    = Ok {["o" := owner_key; "w" := writer_key]}) as E by (vm_compute; reflexivity).
  split; [exact E|].
  apply (proj2 (@trusted_writers_exact encodings_hex crypto_plain public_text key_text_plain "p" public_rows.*1)
    {["o" := owner_key; "w" := writer_key]}). exact E.
Defined.

(** A manifest that parses is authentic: it matches the store's descriptor, its opener is not
    the vault's own key, and its signature verifies with the key it names over a message that
    fixes every field; another manifest with the same message differs in the signature at most. *)
Theorem manifest_authentic `{HU : Uuid, HE : Encodings, HC : Crypto, HJ : JsonText, !KeyText HC} bytes d m :
  Manifest_parse bytes d = Ok m → Manifest_utf8 m = true →
  (mf_v m = 1%Z ∧ ds_format d = 2%Z ∧ mf_project m = ds_project d ∧ mf_recipient m = ds_recipient d) ∧
  (∃ opener, recipient_of (mf_identity m) = Ok opener ∧ opener ≠ mf_recipient m) ∧
  ∃ message key sig, Manifest_message m = Ok message ∧ Manifest_key m = Ok key ∧
    base64_decode (mf_sig m) = Some sig ∧ ed_verify key message sig = true ∧
    ∀ m', Manifest_utf8 m' = true → Manifest_message m' = Ok message → m' = with_signature m (mf_sig m').
Proof.
  intros (Hv & message & key & sig & Hm & Hk & Hs & He)%Manifest_parse_spec Hu.
  apply Manifest_validate_ok in Hv as (? & ? & ? & ? & _ & _ & _ & Ho). split; [done|]. split; [done|].
  exists message, key, sig. do 4 (split; [done|]). intros m' Hu' Hm'.
  pose proof (Manifest_message_inj m m' message Hu Hu' Hm Hm') as E. clear -E. destruct m, m'. unfold with_signature in *. cbn in *. congruence.
Qed.

Definition sample_descriptor : Descriptor := mkDescriptor 2 sample_uuid "age1vault".
Definition sample_manifest : Manifest :=
  default (mkManifest 0 "" "" "" "" "" "")
    (ok (@Manifest_new uuid_plain encodings_hex crypto_plain key_text_plain sample_descriptor
           "AGE-SECRET-KEY-1PUBLIC" sample_uuid owner_key)).
Definition manifest_text : JsonText :=
  text_table [("M", Manifest_to_value sample_manifest)] [] (λ _, "").

(** A session proof binds its login and its challenge: two messages with the same bytes have
    the same login and the same challenge, and no session message is a public manifest's, a tree
    header's or a sealed request's signed bytes. *)
Theorem session_binding `{HE : Encodings} login challenge b :
  session_message login challenge = Ok b →
  (∀ login' challenge', session_message login' challenge' = Ok b → login' = login ∧ challenge' = challenge) ∧
  (∀ m, Manifest_message m ≠ Ok b) ∧ (∀ h tree, signed_bytes h tree ≠ Ok b) ∧
  (∀ ct, REQUEST_DOMAIN +:+ ct ≠ b).
Proof.
  intros H. split.
  { intros l' c' H'. by destruct (session_message_inj l' c' login challenge b). }
  unfold session_message in H. apply bind_ok in H as (_ & _ & H). apply bind_ok in H as (bytes & _ & H).
  apply bind_ok in H as (_ & _ & [= <-]). repeat split.
  - intros m (c & _ & [= E])%bind_ok.
  - unfold signed_bytes. intros h tree (c & _ & [= E])%bind_ok.
  - intros ct. unfold REQUEST_DOMAIN, SESSION_DOMAIN. rewrite !str_app_cons. intros [=].
Qed.
(** An encoding of 32 bytes as 44. *)
Definition encodings_pad : Encodings := {|
  base64_encode b := b +:+ rep 12 "="; base64_decode := strip_suffix (rep 12 "=");
  hex_encode := hex_text; hex_decode := hex_bytes |}.
Definition sample_challenge : string := fit 32 "c" +:+ rep 12 "=".
Definition sample_session : string :=
  default "" (ok (@session_message encodings_pad "ann@example.com" sample_challenge)).
