(* ===== verification/Person.v ===== *)
(** The keys of a person ([layr-store/src/person.rs]): the signing identity, the pins of the vaults
    that a person may read, the index that keeps them under a MAC, and invites. *)

From S2P Require Import Prelude Strs Json Canonical Types Extern Format Request Validation Public.

(** ** Pins *)

Record VaultInfo := mkVaultInfo {
  vi_recipient : string; vi_writer : option string; vi_signed_from : option Z }.
Record Pin := mkPin {
  pn_project : string; pn_recipient : string; pn_writer : option string; pn_signed_from : option Z }.
#[export] Instance Pin_eq_dec : EqDecision Pin.
Proof. solve_decision. Defined.

(** The members in the order in which they are written. *)
Definition Pin_fields (p : Pin) : jobj :=
  [("project", JString (pn_project p)); ("recipient", JString (pn_recipient p));
   ("writer", ser_option JString (pn_writer p)); ("signedFrom", ser_option JInt (pn_signed_from p))].
Definition pin_of_fields (f : fields) : result Pin :=
  project ← f_req de_string f "project"; recipient ← f_req de_string f "recipient";
  writer ← f_def (de_option de_string) None f "writer";
  signed_from ← f_def (de_option de_u64) None f "signedFrom";
  Ok (mkPin project recipient writer signed_from).
Definition Pin_from_value (j : json) : result Pin :=
  f ← de_struct ["project"; "recipient"; "writer"; "signedFrom"] [] false j; pin_of_fields f.

Definition Pin_of (project : string) (vault : VaultInfo) : Pin :=
  mkPin project (str_trim (vi_recipient vault)) (vi_writer vault) (vi_signed_from vault).
Definition Pin_of_store (store : Descriptor) : Pin :=
  mkPin (ds_project store) (str_trim (ds_recipient store)) None None.
Definition Pin_check_store (p : Pin) (store : Descriptor) : result () :=
  bail_if (negb (pn_project p == ds_project store)) "store project changed: pinned {}, store.json {}";;
  bail_if (negb (pn_recipient p == ds_recipient store)) "store recipient changed: pinned {}, store.json {}";;
  bail_if (is_some (pn_writer p) || is_some (pn_signed_from p))
    "v2 store pin requires null writer and signedFrom".
(** The fields of [vault.json] that differ from the pin. *)
Definition Pin_differ (p : Pin) (vault : VaultInfo) : list string :=
  (if str_trim (vi_recipient vault) == pn_recipient p then [] else ["recipient"]) ++
  (if vi_writer vault == pn_writer p then [] else ["writer key"]) ++
  (if vi_signed_from vault == pn_signed_from p then [] else ["first signed state"]).
Definition Pin_check (p : Pin) (vault : VaultInfo) : result () :=
  bail_if (negb (bool_decide (Pin_differ p vault = []))) "the vault.json of {} differs from your pin ({})".

(** The pins of one person. *)
Record PersonIndex := mkPersonIndex { pi_vaults : list Pin }.
Definition find_pin (i : PersonIndex) (project : string) : option Pin :=
  find (λ p, pn_project p == project) (pi_vaults i).
Definition set_pin (i : PersonIndex) (pin : Pin) : PersonIndex :=
  mkPersonIndex (sort_by (λ a b, cle (pn_project a) (pn_project b))
    (filterb (λ p, negb (pn_project p == pn_project pin)) (pi_vaults i) ++ [pin])).
Definition PersonIndex_fields (i : PersonIndex) : jobj :=
  [("vaults", JArray (JObject ∘ Pin_fields <$> pi_vaults i))].
Definition PersonIndex_from_value (j : json) : result PersonIndex :=
  f ← de_struct ["vaults"] [] false j;
  vaults ← f_req (de_vec Pin_from_value) f "vaults";
  Ok (mkPersonIndex vaults).

(** ** Sealing *)

Definition INDEX_HEADER : string := "layr-desk person index v1".
Definition SECRET_HRP : string := "age-secret-key-".

Section person.
Context `{HE : Encodings, HC : Crypto, HJ : JsonText, HL : Unicode, !KeyText HC}.

Definition Pin_validate (p : Pin) : result () :=
  bail_if (negb (project_name (pn_project p))) "the pin names no valid vault: {:?}";;
  bail_if (negb (valid_recipient (pn_recipient p))) "the pin of {} has no valid recipient";;
  match pn_writer p with
  | Some writer =>
      bail_if (negb (is_some_and (base64_decode writer) (λ bytes, str_len bytes =? 32)%Z))
        "the writer key in the pin of {} is not base64 of 32 bytes"
  | None => Ok ()
  end.

Definition open_signing_key (identity sealed public_key : string) : result SigningKey :=
  bytes ← decrypt identity sealed;
  bail_if (negb (str_len bytes =? 32)%Z) "invalid person signing identity";;
  let key := signing_key_from bytes in
  bail_if (negb (hex_encode (verifying_key_bytes (verifying_key key)) == public_key))
    "person signing identity differs from its public key";;
  Ok key.

Definition secret_of_identity (identity : string) : result string :=
  '(hrp, data) ← ctx "the identity is not bech32" (bech32_decode (str_trim identity));
  bail_if (negb (to_lowercase hrp == SECRET_HRP)) "not an age identity";;
  bail_if (negb (str_len data =? 32)%Z) "an age identity holds 32 bytes";;
  Ok data.
(** The MAC of [body] under the key that is derived from the identity. *)
Definition index_mac (identity body : string) : result string :=
  secret ← secret_of_identity identity;
  Ok (hmac_sha256 (hmac_sha256 secret INDEX_HEADER) body).
(** The plaintext of the index: a header line, the MAC and the body. *)
Definition index_plain (mac body : string) : string :=
  INDEX_HEADER +:+ String (byte_of 10) (hex_encode mac +:+ String (byte_of 10) body).
Definition seal_person_index (coin identity : string) (i : PersonIndex) : result string :=
  let body := json_print (JObject (PersonIndex_fields i)) in
  mac ← index_mac identity body;
  recipient ← recipient_of identity;
  encrypt coin recipient (index_plain mac body).
Definition open_person_index (identity data : string) : result PersonIndex :=
  plain ← decrypt identity data;
  '(header, rest) ← ctx "the person index is not complete" (split_once (byte_of 10) plain);
  '(given, body) ← ctx "the person index is not complete" (split_once (byte_of 10) rest);
  bail_if (negb (header == INDEX_HEADER)) "the person index has an unknown format";;
  given ← ctx "the person index has no valid MAC" (if utf8_valid given then hex_decode given else None);
  mac ← index_mac identity body;
  ensure (mac == given)
    "the MAC of the person index does not match; someone else may have written it";;
  j ← json_parse body;
  i ← PersonIndex_from_value j;
  for_each Pin_validate (pi_vaults i);;
  Ok i.

(** ** Invites *)

Definition Invite_fields (p : Pin) : jobj := ("invite", JInt 1) :: Pin_fields p.
Definition seal_invite (coin recipient : string) (p : Pin) : result string :=
  Pin_validate p;;
  encrypt coin recipient (json_print (JObject (Invite_fields p))).
(** [#[serde(flatten)]]: the members of the pin are members of the invite, which is an object. *)
Definition Invite_from_value (j : json) : result (Z * Pin) :=
  match j with
  | JObject _ =>
      f ← de_struct ["invite"; "project"; "recipient"; "writer"; "signedFrom"] [] false j;
      invite ← f_req de_u32 f "invite";
      pin ← pin_of_fields f;
      Ok (invite, pin)
  | _ => Err "invalid type, expected a map"
  end.
Definition open_invite (identity data : string) : result Pin :=
  plain ← decrypt identity data;
  j ← json_parse plain;
  '(invite, pin) ← Invite_from_value j;
  bail_if (negb (invite =? 1)%Z) "the invite has an unknown format";;
  Pin_validate pin;;
  Ok pin.
End person.

(** * Properties *)

(** ** The list of pins *)

(** One pin for every vault, sorted by name. *)
Definition pins_sorted (i : PersonIndex) : Prop :=
  StronglySorted (λ a b, clt (pn_project a) (pn_project b) = true) (pi_vaults i).

Lemma find_pin_some i project p :
  pins_sorted i → find_pin i project = Some p ↔ p ∈ pi_vaults i ∧ pn_project p = project.
Proof.
  intros Hs%sorted_NoDup. unfold find_pin. split.
  - intros [Hp E%eqb_eq]%find_some. done.
  - intros [Hp E]. destruct (find _ _) as [q|] eqn:Ef.
    + apply find_some in Ef as [Hq Eq%eqb_eq]. f_equal.
      apply list_elem_of_lookup in Hp as [a Ha], Hq as [b Hb].
      assert (a = b) as ->; [|congruence]. eapply (NoDup_lookup _ _ _ project Hs);
        rewrite list_lookup_fmap; [rewrite Ha|rewrite Hb]; simpl; congruence.
    + apply (find_none _ _ p) in Ef; [|done]. cbv beta in Ef. by rewrite E, eqb_refl in Ef.
Qed.
Lemma elem_of_set_pin i pin p :
  p ∈ pi_vaults (set_pin i pin) ↔ p = pin ∨ (p ∈ pi_vaults i ∧ pn_project p ≠ pn_project pin).
Proof.
  unfold set_pin. cbn [pi_vaults].
  rewrite elem_of_sort_by, elem_of_app, elem_of_filterb, negb_true_iff, eqb_false, list_elem_of_singleton.
  tauto.
Qed.
Lemma set_pin_sorted i pin : pins_sorted i → pins_sorted (set_pin i pin).
Proof.
  intros Hs. apply (sorted_strict pn_project).
  - apply (sort_by_sorted _ (λ _, True)); [intros; apply cle_total|intros; by eapply cle_trans|].
    by apply Forall_true.
  - cbn [pi_vaults set_pin]. rewrite sort_by_perm, fmap_app. simpl. apply NoDup_app. split; [|split].
    + eapply sublist_NoDup; [apply (sorted_NoDup _ _ Hs)|]. apply fmap_sublist, filterb_sublist.
    + intros x (p & -> & [_ Hp]%elem_of_filterb)%list_elem_of_fmap E%list_elem_of_singleton.
      cbv beta in Hp. by rewrite E, eqb_refl in Hp.
    + apply NoDup_singleton.
Qed.
Lemma find_set_pin i pin project :
  pins_sorted i →
  find_pin (set_pin i pin) project =
  if project == pn_project pin then Some pin else find_pin i project.
Proof.
  intros Hs. apply option_eq. intros p. rewrite find_pin_some by (by apply set_pin_sorted).
  rewrite elem_of_set_pin. destruct (project == pn_project pin) eqn:E.
  - apply eqb_eq in E as ->. naive_solver.
  - apply eqb_ne in E. rewrite find_pin_some by done. naive_solver.
Qed.

Lemma Pin_check_ok p vault u :
  Pin_check p vault = Ok u ↔
  str_trim (vi_recipient vault) = pn_recipient p ∧ vi_writer vault = pn_writer p ∧
  vi_signed_from vault = pn_signed_from p.
Proof.
  unfold Pin_check. rewrite bail_if_ok, negb_false_iff, bool_decide_eq_true. unfold Pin_differ.
  destruct (str_trim _ == _) eqn:E1, (vi_writer _ == _) eqn:E2, (vi_signed_from _ == _) eqn:E3; simpl;
    rewrite ?eqb_true, ?eqb_false in *; naive_solver.
Qed.

(** ** Sealed indexes *)

Lemma utf8_valid_ascii s : all_bytes (byte_between 0 127) s = true → utf8_valid s = true.
Proof.
  unfold utf8_valid. induction s as [|a s IH]; [done|]. cbn [all_bytes]. intros [Ha Hs]%andb_true_iff.
  specialize (IH Hs). cbn [utf8_chars]. rewrite Ha. destruct (utf8_chars s); done.
Qed.
Lemma utf8_valid_hex `{HE : Encodings, !EncodingsSpec HE} b : utf8_valid (hex_encode b) = true.
Proof.
  apply utf8_valid_ascii. eapply all_bytes_impl; [|apply hex_encode_bytes]. intros a.
  unfold is_lower_hex, is_ascii_digit. rewrite orb_true_iff, !byte_between_true. lia.
Qed.

Lemma Pin_roundtrip p :
  opt_in in_u64 (pn_signed_from p) = true → Pin_from_value (JObject (Pin_fields p)) = Ok p.
Proof.
  intros Hs. unfold Pin_from_value. rewrite de_struct_fields by (apply (bool_decide_unpack _); by vm_compute).
  destruct p as [? ? [w|] [z|]]; cbn in *; rewrite ?Hs; done.
Qed.

Section seal_facts.
Context `{HE : Encodings, HC : Crypto, HJ : JsonText, HL : Unicode, !KeyText HC}.

Lemma PersonIndex_roundtrip i :
  forallb (λ p, opt_in in_u64 (pn_signed_from p)) (pi_vaults i) = true →
  PersonIndex_from_value (JObject (PersonIndex_fields i)) = Ok i.
Proof.
  intros Hi. unfold PersonIndex_from_value.
  rewrite de_struct_fields by (apply (bool_decide_unpack _); by vm_compute).
  cbn [mbind result_bind f_req f_map jlookup PersonIndex_fields String.eqb Ascii.eqb Bool.eqb].
  rewrite de_vec_ser; [by destruct i|]. apply Forall_forall. intros p Hp.
  rewrite forallb_elem in Hi. by apply Pin_roundtrip, Hi.
Qed.

(** What opens was written by someone who knows the secret: the MAC covers the exact body. *)
Lemma open_person_index_spec identity data i :
  open_person_index identity data = Ok i →
  ∃ hex mac body j, decrypt identity data =
      Ok (INDEX_HEADER +:+ String (byte_of 10) (hex +:+ String (byte_of 10) body)) ∧
    hex_decode hex = Some mac ∧ index_mac identity body = Ok mac ∧ json_parse body = Ok j ∧
    PersonIndex_from_value j = Ok i ∧ Forall (λ p, Pin_validate p = Ok tt) (pi_vaults i).
Proof.
  unfold open_person_index. intros H. apply bind_ok in H as (plain & Hd & H).
  apply bind_ok in H as ([header rest] & H1%ctx_ok & H). apply bind_ok in H as ([hex body] & H2%ctx_ok & H).
  apply bind_ok in H as ([] & Hh%bail_if_ok%negb_false_iff%eqb_eq & H).
  apply bind_ok in H as (given & Hg%ctx_ok & H). apply bind_ok in H as (mac & Hm & H).
  apply bind_ok in H as ([] & ->%ensure_ok%eqb_eq & H). apply bind_ok in H as (j & Hj & H).
  apply bind_ok in H as (i' & Hi & H). apply bind_ok in H as ([] & Hv%for_each_ok & [= <-]).
  apply split_once_some in H1 as [-> _], H2 as [-> _]. subst header.
  destruct (utf8_valid hex); [|done]. exists hex, given, body, j. eauto 10.
Qed.
Lemma seal_open_person_index `{!EncodingsSpec HE} coin identity recipient i data
    (body := json_print (JObject (PersonIndex_fields i))) :
  seal_person_index coin identity i = Ok data → recipient_of identity = Ok recipient →
  (∀ plain, age_decrypt (str_trim identity) (age_encrypt coin (str_trim recipient) plain) = Some plain) →
  json_parse body = Ok (JObject (PersonIndex_fields i)) →
  forallb (λ p, opt_in in_u64 (pn_signed_from p)) (pi_vaults i) = true →
  Forall (λ p, Pin_validate p = Ok tt) (pi_vaults i) →
  open_person_index identity data = Ok i.
Proof.
  unfold seal_person_index, encrypt. fold body. intros Hs Hr Hd Hj Hi Hv. rewrite Hr in Hs.
  apply bind_ok in Hs as (mac & Hm & Hs). apply bind_ok in Hs as (r & [= <-] & Hs).
  apply bind_ok in Hs as ([] & _ & [= <-]).
  unfold open_person_index, decrypt. rewrite Hd. rsimpl. unfold index_plain.
  rewrite split_once_app by (by vm_compute). rsimpl.
  rewrite split_once_app by (eapply all_bytes_no_byte; [apply hex_encode_bytes|done]). rsimpl.
  rewrite eqb_refl. rsimpl. rewrite utf8_valid_hex, hex_decode_encode. rsimpl. rewrite Hm. rsimpl.
  rewrite eqb_refl. rsimpl. rewrite Hj. rsimpl. rewrite PersonIndex_roundtrip by done. rsimpl.
  by rewrite (proj2 (for_each_ok _ _ tt)).
Qed.
End seal_facts.

(** ** Main results *)

(** The list of pins is a map in order: setting a pin keeps one pin for every vault, sorted by
    name; the vault then has the new pin and every other vault the one it had; and a pin accepts
    just the [vault.json] that it was taken from or one with the same recipient, writer key and
    first signed state. *)
Theorem pins_as_map i pin :
  pins_sorted i →
  pins_sorted (set_pin i pin) ∧
  (∀ project, find_pin (set_pin i pin) project =
     if project == pn_project pin then Some pin else find_pin i project) ∧
  (∀ vault, Pin_check pin vault = Ok tt ↔ Pin_of (pn_project pin) vault = pin).
Proof.
  intros Hs. split; [by apply set_pin_sorted|]. split; [intros; by apply find_set_pin|].
  intros vault. rewrite Pin_check_ok. unfold Pin_of. destruct pin, vault. simpl. naive_solver.
Qed.
Definition pin_a : Pin := mkPin "a" "age1a" None (Some 4%Z).
Definition pin_b : Pin := mkPin "b" "age1b" None None.

(** Only the person can write the index: a person index that opens carries, over its exact
    body, the MAC under the key that is derived from the secret of the person's identity, and all
    of its pins are valid. *)
Theorem person_index_authentic `{HE : Encodings, HC : Crypto, HJ : JsonText, HL : Unicode, !KeyText HC}
    identity data i :
  open_person_index identity data = Ok i →
  ∃ hex mac body j, decrypt identity data =
      Ok (INDEX_HEADER +:+ String (byte_of 10) (hex +:+ String (byte_of 10) body)) ∧
    hex_decode hex = Some mac ∧ index_mac identity body = Ok mac ∧ json_parse body = Ok j ∧
    PersonIndex_from_value j = Ok i ∧ Forall (λ p, Pin_validate p = Ok tt) (pi_vaults i).
Proof. apply open_person_index_spec. Qed.

(** A person with a secret of 32 bytes; what is encrypted to a recipient carries its name. *)
Definition person_identity : string := "AGE-SECRET-KEY-1" +:+ fit 32 "S".
Definition crypto_named : Crypto := {|
  SigningKey := string; VerifyingKey := string; verifying_key := id;
  ed_sign k d := fit 64 (k +:+ d); ed_verify k d s := s == fit 64 (k +:+ d);
  verifying_key_from b := Some b; recipient_ok r := starts_with "age1" r;
  age_encrypt _ r d := r +:+ ":" +:+ d;
  age_decrypt i c := strip_prefix ("age1" +:+ i +:+ ":") c;
  sha256 := fit 32 |}.
Definition key_text_named : KeyText crypto_named := {|
  verifying_key_bytes := id : @VerifyingKey crypto_named → string;
  signing_key_from := id : string → @SigningKey crypto_named;
  identity_recipient i := if starts_with "AGE-SECRET-KEY-1" i then Some ("age1" +:+ i) else None;
  hmac_sha256 k d := fit 32 (k +:+ d);
  bech32_decode i := (λ d, ("AGE-SECRET-KEY-", d)) <$> strip_prefix "AGE-SECRET-KEY-1" i |}.
Definition person_pins : PersonIndex := mkPersonIndex [pin_a; pin_b].
Definition person_json : JsonText :=
  text_table [("B", JObject (PersonIndex_fields person_pins))] [] (λ _, "B").
Definition person_data : string :=
  default "" (ok (@seal_person_index encodings_hex crypto_named person_json ascii_lowercase key_text_named ""
                    person_identity person_pins)).
