(* ===== verification/Screens.v ===== *)
(** Comparison of stored screenshots ([layr-model/src/screenshots.rs]): the inventory of screen
    files, the changed pixels of two images, and the few boxes that cover them. *)

From S2P Require Import Prelude Strs Json F64.

(** ** Inventory *)

Record Screen := mkScreen { sc_png : option string; sc_structure : option string }.
Definition screen_default : Screen := mkScreen None None.

(** [name.rsplit('/').next()]. *)
Definition base_name (stem : string) : string :=
  match rsplit_once "/" stem with Some (_, name) => name | None => stem end.
Definition is_structure (ext : string) : bool := memb ext ["html"; "xml"; "json"; "txt"].
Definition inventory_step (screens : gmap string Screen) (path : string) : result (gmap string Screen) :=
  '(stem, ext) ← ctx "screen outputs need a file extension" (rsplit_once "." path);
  '(screen, device) ← ctx "screen outputs must be named <screen>@<device>.<extension>"
     (rsplit_once "@" (base_name stem));
  bail_if (is_empty screen || is_empty device) "invalid screen name '{path}'";;
  let entry := default screen_default (screens !! stem) in
  if ext == "png" then Ok (<[stem := mkScreen (Some path) (sc_structure entry)]> screens)
  else if is_structure ext then
    bail_if (is_some (sc_structure entry)) "screen '{stem}' has more than one structure file";;
    Ok (<[stem := mkScreen (sc_png entry) (Some path)]> screens)
  else Err "screen output '{path}' must be PNG, HTML, XML, JSON, or TXT".
Definition inventory (paths : list string) : result (gmap string Screen) :=
  foldM inventory_step ∅ paths.

(** ** Regions *)

Record Region := mkRegion { rg_x : Z; rg_y : Z; rg_width : Z; rg_height : Z }.
#[export] Instance Region_eq_dec : EqDecision Region.
Proof. solve_decision. Defined.

(** [u32] arithmetic: a sum wraps, a saturating difference stops at zero. *)
Definition add32 (a b : Z) : Z := ((a + b) mod 2 ^ 32)%Z.
Definition sub32 (a b : Z) : Z := ((a - b) mod 2 ^ 32)%Z.
Definition saturating_sub (a b : Z) : Z := Z.max 0 (a - b).
Definition as_u32 (n : nat) : Z := (Z.of_nat n mod 2 ^ 32)%Z.

Definition region_union (r o : Region) : Region :=
  let x := Z.min (rg_x r) (rg_x o) in
  let y := Z.min (rg_y r) (rg_y o) in
  mkRegion x y
    (sub32 (Z.max (add32 (rg_x r) (rg_width r)) (add32 (rg_x o) (rg_width o))) x)
    (sub32 (Z.max (add32 (rg_y r) (rg_height r)) (add32 (rg_y o) (rg_height o))) y).
Definition region_gap (r o : Region) : Z :=
  let x := Z.max (saturating_sub (rg_x r) (add32 (rg_x o) (rg_width o)))
                 (saturating_sub (rg_x o) (add32 (rg_x r) (rg_width r))) in
  let y := Z.max (saturating_sub (rg_y r) (add32 (rg_y o) (rg_height o)))
                 (saturating_sub (rg_y o) (add32 (rg_y r) (rg_height r))) in
  Z.max x y.

(** The loop that joins [region] with every region that is near it. *)
Fixpoint absorb (fuel : nat) (regions : list Region) (region : Region) : result (list Region * Region) :=
  match position (λ r, (region_gap r region <? 8)%Z) regions with
  | None => Ok (regions, region)
  | Some i =>
      match fuel with
      | O => Err "fuel"
      | S fuel =>
          r ← ctx "removal index" (regions !! i);
          absorb fuel (delete i regions) (region_union region r)
      end
  end.
(** [(0..n).flat_map(|a| (a + 1..n).map(move |b| (a, b)))]. *)
Definition index_pairs (n : nat) : list (nat * nat) :=
  flat_map (λ a, (λ b, (a, b)) <$> seq (a + 1) (n - (a + 1))) (seq 0 n).
Definition min_of {A} `{Cmp A} (l : list A) : option A :=
  match l with [] => None | x :: l => Some (foldl (λ m y, if clt y m then y else m) x l) end.
Definition closest (regions : list Region) : option (Z * nat * nat) :=
  min_of (filter_map (λ '(a, b), ra ← regions !! a; rb ← regions !! b; Some (region_gap ra rb, a, b))
            (index_pairs (length regions))).
Fixpoint insert_go (fuel : nat) (regions : list Region) (region : Region) : result (list Region) :=
  '(rest, joined) ← absorb (length regions) regions region;
  let regions := rest ++ [joined] in
  if 16 <? length regions then
    '(_, a, b) ← ctx "unwrap" (closest regions);
    rb ← ctx "removal index" (regions !! b);
    let regions := delete b regions in
    ra ← ctx "removal index" (regions !! a);
    let regions := delete a regions in
    match fuel with O => Err "fuel" | S fuel => insert_go fuel regions (region_union rb ra) end
  else Ok regions.
Definition insert_region (regions : list Region) (region : Region) : result (list Region) :=
  insert_go (length regions) regions region.

(** The bounds of one connected area. *)
Record Bounds := mkBounds { bn_left : nat; bn_right : nat; bn_top : nat; bn_bottom : nat }.
(** [a..=b]. *)
Definition range_incl (a b : nat) : list nat := seq a (S b - a).
Definition clear_pixel (s : list bool * list nat) (next : nat) : result (list bool * list nat) :=
  let '(mask, pending) := s in
  m ← ctx "mask index" (mask !! next);
  Ok (if (m : bool) then (<[next := false]> mask, next :: pending) else s).
(** The indices around [i], row by row. A mask with a pixel has a positive height and width. *)
Definition around (width height i : nat) : list nat :=
  let x := i mod width in
  let y := i / width in
  flat_map (λ ny, (λ nx, ny * width + nx) <$> range_incl (x - 1) (Nat.min (x + 1) (width - 1)))
    (range_incl (y - 1) (Nat.min (y + 1) (height - 1))).
Definition extend (b : Bounds) (x y : nat) : Bounds :=
  mkBounds (Nat.min (bn_left b) x) (Nat.max (bn_right b) x) (Nat.min (bn_top b) y) (Nat.max (bn_bottom b) y).
(** The loop over [pending], the top of the stack first. *)
Fixpoint flood (fuel width height : nat) (mask : list bool) (pending : list nat) (b : Bounds)
    : result (list bool * Bounds) :=
  match pending with
  | [] => Ok (mask, b)
  | i :: pending =>
      match fuel with
      | O => Err "fuel"
      | S fuel =>
          '(mask, pending) ← foldM clear_pixel (mask, pending) (around width height i);
          flood fuel width height mask pending (extend b (i mod width) (i / width))
      end
  end.
Definition bounds_region (b : Bounds) : Region :=
  mkRegion (as_u32 (bn_left b)) (as_u32 (bn_top b)) (as_u32 (bn_right b - bn_left b + 1))
    (as_u32 (bn_bottom b - bn_top b + 1)).
Definition region_step (width height : nat) (s : list bool * list Region) (start : nat)
    : result (list bool * list Region) :=
  let '(mask, out) := s in
  m ← ctx "mask index" (mask !! start);
  if negb m then Ok s else
  let x := start mod width in
  let y := start / width in
  '(mask, b) ← flood (length mask) width height (<[start := false]> mask) [start] (mkBounds x x y y);
  out ← insert_region out (bounds_region b);
  Ok (mask, out).
Definition region_key (r : Region) : Z * Z * Z * Z := (rg_y r, rg_x r, rg_width r, rg_height r).
Definition region_le (r s : Region) : bool := cle (region_key r) (region_key s).
Definition regions (mask : list bool) (width height : nat) : result (list Region) :=
  s ← foldM (region_step width height) (mask, []) (seq 0 (length mask));
  Ok (sort_by region_le s.2).

(** ** Pixels *)

(** A decoded image of the [image] crate: its size and the four channels of each pixel. *)
Record RgbaImage := mkImage { im_width : Z; im_height : Z; get_pixel : Z → Z → list Z }.

Definition dimensions (image : option RgbaImage) : Z * Z :=
  match image with Some i => (im_width i, im_height i) | None => (0, 0)%Z end.
(** Whether the image has the pixel. *)
Definition has_pixel (image : option RgbaImage) (x y : Z) : bool :=
  (x <? (dimensions image).1)%Z && (y <? (dimensions image).2)%Z.
Definition pixel_at (image : option RgbaImage) (x y : Z) : option (list Z) :=
  if has_pixel image x y then (λ i, get_pixel i x y) <$> image else None.
Definition pixel_changed (a b : option RgbaImage) (tolerance : Z) (x y : Z) : bool :=
  match pixel_at a x y, pixel_at b x y with
  | Some p, Some q => existsb (λ '(c, d), (tolerance <? Z.abs (c - d))%Z) (zip p q)
  | None, None => false
  | _, _ => true
  end.
(** The loops over the canvas: the mask and the number of changed pixels. *)
Definition mark (w : nat) (changed : nat → nat → bool) (s : list bool * Z) (y x : nat) : list bool * Z :=
  (<[y * w + x := changed x y]> s.1, (s.2 + if changed x y then 1 else 0)%Z).
Definition marks (w h : nat) (changed : nat → nat → bool) : list bool * Z :=
  foldl (λ s y, foldl (λ s x, mark w changed s y x) s (seq 0 w)) (replicate (w * h) false, 0%Z) (seq 0 h).
(** The pixels of either image. *)
Definition total_pixels (a b : option RgbaImage) : Z :=
  let '(aw, ah) := dimensions a in
  let '(bw, bh) := dimensions b in
  ((aw * ah + bw * bh - Z.min aw bw * Z.min ah bh) mod 2 ^ 64)%Z.

Definition dimensions_value (image : option RgbaImage) : json :=
  ser_option (λ i, JObject [("height", JInt (im_height i)); ("width", JInt (im_width i))]) image.
Definition Region_to_value (r : Region) : json :=
  JObject [("height", JInt (rg_height r)); ("width", JInt (rg_width r));
           ("x", JInt (rg_x r)); ("y", JInt (rg_y r))].
Definition pixels_row (status : string) (before after : json) (size_changed : bool)
    (count total share percent : json) (rs : list json) : json :=
  ser_struct [("status", Some (JString status)); ("before", Some before); ("after", Some after);
    ("size_changed", Some (JBool size_changed)); ("changed_pixels", Some count); ("total_pixels", Some total);
    ("changed_share", Some share); ("changed_percent", Some percent); ("regions", Some (JArray rs))].
(** [max_alloc] is the default allocation limit of the [image] crate. Failing to reserve memory is
    not modelled. *)
Definition pixels (max_alloc : option Z) (a b : option RgbaImage) (tolerance : Z) : result json :=
  if is_none a && is_none b then
    Ok (pixels_row "not available" JNull JNull false JNull JNull JNull JNull [])
  else
  let '(aw, ah) := dimensions a in
  let '(bw, bh) := dimensions b in
  let w := Z.max aw bw in
  let h := Z.max ah bh in
  bail_if (u64_max <? w * h)%Z "screen dimensions overflow";;
  bail_if (is_some_and max_alloc (λ limit, limit <? w * h)%Z)
    "screen comparison canvas exceeds the image allocation limit";;
  let '(mask, count) := marks (Z.to_nat w) (Z.to_nat h)
    (λ x y, pixel_changed a b tolerance (Z.of_nat x) (Z.of_nat y)) in
  let total := total_pixels a b in
  let share := if (total =? 0)%Z then f64_of_Z 0 else f64_div (f64_of_Z count) (f64_of_Z total) in
  let percent := f64_div (f64_round (f64_mul share (f64_of_Z 1000))) (f64_of_Z 10) in
  rs ← regions mask (Z.to_nat w) (Z.to_nat h);
  Ok (pixels_row (if is_none a then "added" else if is_none b then "removed" else "compared")
        (dimensions_value a) (dimensions_value b)
        (is_some a && is_some b && negb (dimensions a == dimensions b))
        (JInt count) (JInt total) (f64_value share) (f64_value percent) (Region_to_value <$> rs)).

(** Whether a row of the comparison reports a change. *)
Definition changed (row : json) : bool :=
  negb (is_str (row.["status"]) "compared")
  || (0 <? default 0 (as_u64 (row.["changed_pixels"])))%Z
  || is_bool (row.["size_changed"]) true
  || negb (Bool.eqb (is_null (row.["base_png"])) (is_null (row.["head_png"])))
  || negb (Bool.eqb (is_null (row.["base_structure"])) (is_null (row.["head_structure"])))
  || is_some_and (as_str (row.["structure_diff"])) (λ d, negb (is_empty d)).

(** * Properties *)

(** Sorting keeps a symmetric relation between all elements. *)
Lemma StronglySorted_perm {A} (R : A → A → Prop) `{!Symmetric R} l k :
  l ≡ₚ k → StronglySorted R l → StronglySorted R k.
Proof.
  induction 1 as [|x l k Hl IH|x y l|l k m Hl IHl Hk IHk]; [done| | |auto].
  - intros [Hs Hf]%StronglySorted_inv. constructor; [by apply IH|]. by rewrite <-Hl.
  - intros [[Hs Hx]%StronglySorted_inv Hf]%StronglySorted_inv. apply Forall_cons in Hf as [Hyx Hy].
    constructor; [by constructor|]. by constructor.
Qed.

Section boxes.
(** A canvas whose sides fit [u32], and a property of regions that joining keeps. *)
Context (W H : Z) (HW : (W < 2 ^ 32)%Z) (HH : (H < 2 ^ 32)%Z).

Definition in_region (r : Region) (x y : Z) : Prop :=
  (rg_x r <= x < rg_x r + rg_width r ∧ rg_y r <= y < rg_y r + rg_height r)%Z.
Definition in_canvas (r : Region) : Prop :=
  (0 <= rg_x r ∧ 0 < rg_width r ∧ rg_x r + rg_width r <= W ∧
   0 <= rg_y r ∧ 0 < rg_height r ∧ rg_y r + rg_height r <= H)%Z.
Definition within (r s : Region) : Prop := ∀ x y, in_region r x y → in_region s x y.
Definition apart (r s : Region) : Prop := (8 <= region_gap r s)%Z.

Lemma region_union_canvas r s : in_canvas r → in_canvas s →
  region_union r s =
    mkRegion (Z.min (rg_x r) (rg_x s)) (Z.min (rg_y r) (rg_y s))
      (Z.max (rg_x r + rg_width r) (rg_x s + rg_width s) - Z.min (rg_x r) (rg_x s))
      (Z.max (rg_y r + rg_height r) (rg_y s + rg_height s) - Z.min (rg_y r) (rg_y s)).
Proof.
  unfold in_canvas, region_union, add32, sub32. intros Hr Hs.
  rewrite !(Z.mod_small (_ + _)) by lia. by rewrite !Z.mod_small by lia.
Qed.
Lemma in_canvas_union r s : in_canvas r → in_canvas s → in_canvas (region_union r s).
Proof. intros Hr Hs. rewrite region_union_canvas by done. unfold in_canvas in *. simpl. lia. Qed.
Lemma within_union_l r s : in_canvas r → in_canvas s → within r (region_union r s).
Proof. intros Hr Hs x y. rewrite region_union_canvas by done. unfold in_region. simpl. lia. Qed.
Lemma within_union_r r s : in_canvas r → in_canvas s → within s (region_union r s).
Proof. intros Hr Hs x y. rewrite region_union_canvas by done. unfold in_region. simpl. lia. Qed.
Lemma within_trans r s t : within r s → within s t → within r t.
Proof. unfold within. eauto. Qed.
#[export] Instance apart_sym : Symmetric apart.
Proof. intros r s. unfold apart, region_gap. lia. Qed.

(** The parts of the list that a joined region stands for. *)
Definition covers (l k : list Region) : Prop := ∀ r, r ∈ l → ∃ s, s ∈ k ∧ within r s.
Lemma covers_refl_incl l k : l ⊆ k → covers l k.
Proof. intros Hi r Hr. exists r. split; [by apply Hi|]. by intros x y. Qed.
Lemma covers_trans l k m : covers l k → covers k m → covers l m.
Proof. intros Hl Hk r (s & (t & Ht & Hst)%Hk & Hrs)%Hl. eauto using within_trans. Qed.

(** [Good] is what every region has and joining keeps. *)
Context (Good : Region → Prop) (Good_canvas : ∀ r, Good r → in_canvas r)
  (Good_union : ∀ r s, Good r → Good s → Good (region_union r s)).

Lemma elem_of_delete_or {A} (l : list A) i x y : l !! i = Some x → y ∈ l → y = x ∨ y ∈ delete i l.
Proof. intros Hi Hy. rewrite (delete_Permutation _ _ _ Hi) in Hy. by apply elem_of_cons in Hy. Qed.

Lemma absorb_spec fuel : ∀ l r,
  length l ≤ fuel → Forall Good l → Good r → StronglySorted apart l →
  ∃ rest joined, absorb fuel l r = Ok (rest, joined) ∧ Forall Good rest ∧ Good joined ∧
    StronglySorted apart (rest ++ [joined]) ∧ length rest ≤ length l ∧ covers (r :: l) (rest ++ [joined]).
Proof.
  induction fuel as [|fuel IH]; intros l r Hl HG Hr Hs; cbn [absorb];
    destruct (position _ l) as [i|] eqn:E.
  - apply position_some in E as (x & Hx%lookup_lt_Some & _). lia.
  - exists l, r. destruct l; [|simpl in Hl; lia]. repeat split; try done; [by repeat constructor|].
    by apply covers_refl_incl.
  - apply position_some in E as (x & Hx & _). rewrite Hx. rsimpl.
    pose proof (delete_Permutation _ _ _ Hx) as Hp. pose proof (length_delete l i ltac:(eauto)) as Hd.
    apply lookup_lt_Some in Hx as Hlt.
    assert (Good x) as Gx by (by eapply Forall_lookup_1).
    destruct (IH (delete i l) (region_union r x)) as (rest & j & Ha & HG' & Hj & Hs' & Hlen & Hc).
    + lia.
    + by apply Forall_delete.
    + by apply Good_union.
    + eapply StronglySorted_sublist; [apply sublist_delete|done].
    + exists rest, j. repeat split; try done; [lia|]. eapply covers_trans; [|exact Hc].
      intros s [-> |Hin]%elem_of_cons.
      * exists (region_union r x). split; [left|]. apply within_union_l; auto.
      * destruct (elem_of_delete_or _ _ _ _ Hx Hin) as [-> |Hin'].
        -- exists (region_union r x). split; [left|]. apply within_union_r; auto.
        -- exists s. split; [by right|]. by intros ??.
  - exists l, r. repeat split; try done.
    + apply StronglySorted_snoc_cle; [done|]. intros a Ha.
      apply position_none in E. rewrite Forall_forall in E. specialize (E a Ha). cbv beta in E.
      unfold apart. lia.
    + apply covers_refl_incl. set_solver.
Qed.

Lemma min_of_elem {A} `{Cmp A} (l : list A) : l ≠ [] → ∃ m, min_of l = Some m ∧ m ∈ l.
Proof.
  destruct l as [|x l]; [done|]. intros _. simpl. eexists. split; [done|]. clear.
  assert (∀ y, y ∈ x :: l → foldl (λ m y, if clt y m then y else m) y l ∈ x :: l) as Hm; [|apply Hm; left].
  assert (∀ y, y ∈ x :: l → ∀ k, k ⊆ l → foldl (λ m y, if clt y m then y else m) y k ∈ x :: l) as Hm.
  { intros y Hy k. revert y Hy. induction k as [|z k IH]; intros y Hy Hk; simpl; [done|].
    apply IH; [destruct (clt z y); set_solver|set_solver]. }
  intros y Hy. by apply Hm.
Qed.
Lemma elem_of_index_pairs n a b : (a, b) ∈ index_pairs n ↔ a < b < n.
Proof.
  unfold index_pairs. rewrite list_elem_of_In, in_flat_map. split.
  - intros (a' & Ha & Hb). rewrite <-!list_elem_of_In in *.
    apply list_elem_of_fmap in Hb as (b' & [= -> ->] & Hb). apply elem_of_seq in Ha, Hb. lia.
  - intros Hab. exists a. rewrite <-!list_elem_of_In. split; [apply elem_of_seq; lia|].
    apply list_elem_of_fmap. exists b. split; [done|]. apply elem_of_seq. lia.
Qed.
Lemma closest_spec l : 2 ≤ length l → ∃ g a b, closest l = Some (g, a, b) ∧ a < b < length l.
Proof.
  intros Hl. unfold closest. set (p := filter_map _ _).
  assert (∀ g a b, (g, a, b) ∈ p → a < b < length l) as Hp.
  { intros g a b ((a' & b') & Hi & He)%list_elem_of_omap.
    destruct (l !! a') eqn:Ea; [|done]. destruct (l !! b') eqn:Eb; [|done]. simpl in He. simplify_eq.
    by apply elem_of_index_pairs. }
  destruct (min_of_elem p) as ([[g a] b] & Hm & He); [|eauto 6].
  destruct (lookup_lt_is_Some_2 l 0) as [r Hr]; [lia|]. destruct (lookup_lt_is_Some_2 l 1) as [s Hs]; [lia|].
  intros Hn. assert ((region_gap r s, 0, 1) ∈ p) as Hin; [|rewrite Hn in Hin; by apply not_elem_of_nil in Hin].
  apply list_elem_of_omap. exists (0, 1). split; [apply elem_of_index_pairs; lia|]. by rewrite Hr, Hs.
Qed.

(** A region that is put among regions that lie apart: the result keeps them apart, has at most 16
    and covers all that was there. *)
Lemma insert_go_spec fuel : ∀ l r,
  length l ≤ fuel → Forall Good l → Good r → StronglySorted apart l →
  ∃ out, insert_go fuel l r = Ok out ∧ Forall Good out ∧ StronglySorted apart out ∧
    length out ≤ 16 ∧ covers (r :: l) out.
Proof.
  induction fuel as [|fuel IH]; intros l r Hl HG Hr Hs; cbn [insert_go];
    (destruct (absorb_spec (length l) l r) as (rest & j & -> & HG' & Hj & Hs' & Hlen & Hc); [done..|]); rsimpl;
    pose proof (length_app rest [j]) as Hn; simpl in Hn;
    (assert (Forall Good (rest ++ [j])) as HGj by (apply Forall_app; auto));
    (destruct (Nat.ltb_spec 16 (length (rest ++ [j]))); [|by eauto 8]); [lia|].
  set (k := rest ++ [j]) in *. destruct (closest_spec k) as (g & a & b & -> & Hab); [lia|]. rsimpl.
  destruct (lookup_lt_is_Some_2 k b) as [rb Hb]; [lia|]. rewrite Hb. rsimpl.
  destruct (lookup_lt_is_Some_2 k a) as [ra Ha]; [lia|].
  rewrite list_lookup_delete_lt by lia. rewrite Ha. rsimpl.
  assert (delete b k !! a = Some ra) as Ha' by (by rewrite list_lookup_delete_lt by lia).
  pose proof (length_delete k b ltac:(eauto)). pose proof (length_delete (delete b k) a ltac:(eauto)).
  assert (Good ra) as Ga by (by eapply Forall_lookup_1). assert (Good rb) as Gb by (by eapply Forall_lookup_1).
  destruct (IH (delete a (delete b k)) (region_union rb ra)) as (out & Ho & HGo & Hso & Hno & Hco).
  - lia.
  - by apply Forall_delete, Forall_delete.
  - by apply Good_union.
  - eapply StronglySorted_sublist; [|exact Hs']. etrans; apply sublist_delete.
  - exists out. repeat split; try done. eapply covers_trans; [exact Hc|]. eapply covers_trans; [|exact Hco].
    intros s Hin. destruct (elem_of_delete_or _ _ _ _ Hb Hin) as [-> |Hin'].
    { exists (region_union rb ra). split; [left|]. apply within_union_l; auto. }
    destruct (elem_of_delete_or _ _ _ _ Ha' Hin') as [-> |Hin''].
    { exists (region_union rb ra). split; [left|]. apply within_union_r; auto. }
    exists s. split; [by right|]. by intros ??.
Qed.
End boxes.

(** ** The walk over one area *)

Definition count_true (mask : list bool) : nat := length (filterb id mask).
Lemma count_true_clear mask k :
  mask !! k = Some true → S (count_true (<[k := false]> mask)) = count_true mask.
Proof.
  unfold count_true. revert k. induction mask as [|m mask IH]; intros [|k]; simpl; try done.
  - intros [= ->]. done.
  - intros Hk. specialize (IH k Hk). destruct m; simpl; lia.
Qed.
Lemma count_true_length mask : count_true mask ≤ length mask.
Proof. unfold count_true. induction mask as [|[] mask IH]; simpl; lia. Qed.
Lemma lookup_clear mask k j :
  k < length mask → <[k := false]> mask !! j = Some true ↔ mask !! j = Some true ∧ j ≠ k.
Proof.
  intros Hk. destruct (decide (j = k)) as [-> |].
  - rewrite list_lookup_insert_eq by done. naive_solver.
  - rewrite list_lookup_insert_ne by done. naive_solver.
Qed.

(** A walk that took [mask] and [pending] to [mask'] and [pending'] only moved pixels from the one to
    the other. *)
Record moved (mask : list bool) (pending : list nat) (mask' : list bool) (pending' : list nat) : Prop := {
  mv_length : length mask' = length mask;
  mv_count : count_true mask' + length pending' = count_true mask + length pending;
  mv_mask k : mask' !! k = Some true → mask !! k = Some true;
  mv_kept k : mask !! k = Some true → mask' !! k = Some true ∨ k ∈ pending';
  mv_pending k : k ∈ pending → k ∈ pending';
  mv_new k : k ∈ pending' → k ∈ pending ∨ mask !! k = Some true }.
Lemma moved_trans m p m' p' m'' p'' : moved m p m' p' → moved m' p' m'' p'' → moved m p m'' p''.
Proof.
  intros [L C M K P N] [L' C' M' K' P' N']. split; [congruence|lia|auto| | |].
  - intros k [? |?]%K; eauto.
  - auto.
  - intros k [? |?]%N'; eauto.
Qed.
Lemma visits_spec l : ∀ mask pending, Forall (λ k, k < length mask) l →
  ∃ mask' pending', foldM clear_pixel (mask, pending) l = Ok (mask', pending') ∧ moved mask pending mask' pending'.
Proof.
  induction l as [|k l IH]; intros mask pending Hl; simpl.
  { exists mask, pending. split; [done|]. split; auto. }
  apply Forall_cons in Hl as [Hk Hl]. destruct (lookup_lt_is_Some_2 _ _ Hk) as [m Hm].
  rewrite Hm. rsimpl. destruct m; rsimpl; [|by apply IH].
  destruct (IH (<[k := false]> mask) (k :: pending)) as (mask' & pending' & -> & Hv).
  { eapply Forall_impl; [done|]. intros j. by rewrite length_insert. }
  exists mask', pending'. split; [done|]. eapply moved_trans; [|exact Hv].
  split; [by rewrite length_insert| | | | |].
  - pose proof (count_true_clear _ _ Hm). simpl. lia.
  - intros j. rewrite lookup_clear by done. tauto.
  - intros j Hj. rewrite lookup_clear by done. destruct (decide (j = k)) as [-> |]; [right; left|by left].
  - intros j Hj. by right.
  - intros j [-> |Hj]%elem_of_cons; auto.
Qed.

Section area.
Context (w h : nat) (dirty : nat → Prop).

Lemma around_bound i k : 0 < w → 0 < h → k ∈ around w h i → k < w * h.
Proof.
  unfold around, range_incl. intros Hw Hh. rewrite list_elem_of_In, in_flat_map.
  intros (ny & Hy & Hx). rewrite <-list_elem_of_In in Hy, Hx.
  apply list_elem_of_fmap in Hx as (nx & -> & Hx). apply elem_of_seq in Hx, Hy.
  assert (nx < w) by lia. assert (ny < h) by lia. nia.
Qed.

Definition in_bounds (b : Bounds) (k : nat) : Prop :=
  bn_left b ≤ k mod w ≤ bn_right b ∧ bn_top b ≤ k / w ≤ bn_bottom b.
(** Bounds in the canvas, each side of which a pixel of the area touches. *)
Record bounds_ok (b : Bounds) : Prop := {
  bo_x : bn_left b ≤ bn_right b < w;
  bo_y : bn_top b ≤ bn_bottom b < h;
  bo_left : ∃ k, dirty k ∧ in_bounds b k ∧ k mod w = bn_left b;
  bo_right : ∃ k, dirty k ∧ in_bounds b k ∧ k mod w = bn_right b;
  bo_top : ∃ k, dirty k ∧ in_bounds b k ∧ k / w = bn_top b;
  bo_bottom : ∃ k, dirty k ∧ in_bounds b k ∧ k / w = bn_bottom b }.
Lemma in_bounds_extend b k j : in_bounds b j → in_bounds (extend b (k mod w) (k / w)) j.
Proof. unfold in_bounds, extend. simpl. lia. Qed.
Lemma in_bounds_extend_self b k : in_bounds (extend b (k mod w) (k / w)) k.
Proof. unfold in_bounds, extend. simpl. lia. Qed.
Lemma side_extend (f : nat → nat) b b' s s' k :
  dirty k → in_bounds b' k → (∀ j, in_bounds b j → in_bounds b' j) → (s' = s ∨ s' = f k) →
  (∃ j, dirty j ∧ in_bounds b j ∧ f j = s) → ∃ j, dirty j ∧ in_bounds b' j ∧ f j = s'.
Proof. intros Hk Hb Hi [-> | ->] (j & Hj & Hbj & <-); eauto. Qed.
Lemma bounds_ok_extend b k :
  dirty k → k < w * h → bounds_ok b → bounds_ok (extend b (k mod w) (k / w)).
Proof.
  intros Hk Hlt [Hx Hy Hl Hr Ht Hb].
  assert (k mod w < w) by (apply Nat.mod_upper_bound; lia).
  assert (k / w < h) by (apply Nat.Div0.div_lt_upper_bound; lia).
  split; [simpl; lia|simpl; lia|..];
    [eapply side_extend; [..|exact Hl]|eapply side_extend; [..|exact Hr]
    |eapply side_extend; [..|exact Ht]|eapply side_extend; [..|exact Hb]];
    eauto using in_bounds_extend, in_bounds_extend_self; simpl; lia.
Qed.

Lemma flood_spec fuel : ∀ mask pending b,
  0 < w → 0 < h → length mask = w * h → count_true mask + length pending ≤ fuel →
  (∀ k, k ∈ pending → k < w * h ∧ dirty k) → (∀ k, mask !! k = Some true → dirty k) → bounds_ok b →
  ∃ mask' b', flood fuel w h mask pending b = Ok (mask', b') ∧ length mask' = w * h ∧ bounds_ok b' ∧
    (∀ k, mask' !! k = Some true → mask !! k = Some true) ∧
    (∀ k, mask !! k = Some true ∨ k ∈ pending ∨ in_bounds b k → mask' !! k = Some true ∨ in_bounds b' k).
Proof.
  induction fuel as [|fuel IH]; intros mask [|i pending] b Hw Hh Hlen Hf Hp Hm Hb; cbn [flood].
  1,3: exists mask, b; repeat split; try done; try apply Hb; intros k [?|[[]%not_elem_of_nil| ?]]; auto.
  { simpl in Hf. lia. }
  destruct (visits_spec (around w h i) mask pending) as (mask1 & pending1 & -> & [L C M K P N]).
  { rewrite Forall_forall. intros k Hk. rewrite Hlen. by eapply around_bound. }
  rsimpl. destruct (Hp i) as [Hi Hd]; [left|].
  destruct (IH mask1 pending1 (extend b (i mod w) (i / w))) as (mask' & b' & -> & L' & B' & M' & K');
    [done|done|congruence|simpl in Hf; lia| | |by apply bounds_ok_extend|].
  - intros k [Hk|Hk]%N; [apply Hp; by right|]. split; [|auto]. apply lookup_lt_Some in Hk. lia.
  - auto.
  - exists mask', b'. repeat split; try done; try apply B'; auto.
    intros k [Hk|[[-> |Hk]%elem_of_cons|Hk]]; apply K'; auto using in_bounds_extend, in_bounds_extend_self.
    destruct (K k Hk); auto.
Qed.
End area.

(** ** The regions of a mask *)

(** A box in the canvas each side of which touches a changed pixel in it. *)
Record tight (W H : Z) (changed : Z → Z → Prop) (r : Region) : Prop := {
  ti_canvas : in_canvas W H r;
  ti_left : ∃ x y, changed x y ∧ in_region r x y ∧ x = rg_x r;
  ti_right : ∃ x y, changed x y ∧ in_region r x y ∧ (x + 1)%Z = (rg_x r + rg_width r)%Z;
  ti_top : ∃ x y, changed x y ∧ in_region r x y ∧ y = rg_y r;
  ti_bottom : ∃ x y, changed x y ∧ in_region r x y ∧ (y + 1)%Z = (rg_y r + rg_height r)%Z }.

Lemma side_within (changed : Z → Z → Prop) (f : Z → Z → Z) r s t u v v' :
  within r t → within s t → (v' = u ∨ v' = v) →
  (∃ x y, changed x y ∧ in_region r x y ∧ f x y = u) → (∃ x y, changed x y ∧ in_region s x y ∧ f x y = v) →
  ∃ x y, changed x y ∧ in_region t x y ∧ f x y = v'.
Proof. intros Hr Hs [-> | ->] (x & y & ? & ? & ?) (x' & y' & ? & ? & ?); eauto 6. Qed.
Lemma tight_union W H changed r s : (W < 2 ^ 32)%Z → (H < 2 ^ 32)%Z →
  tight W H changed r → tight W H changed s → tight W H changed (region_union r s).
Proof.
  intros HW HH [Cr Lr Rr Tr Br] [Cs Ls Rs Ts Bs].
  pose proof (within_union_l _ _ HW HH r s Cr Cs) as Wr. pose proof (within_union_r _ _ HW HH r s Cr Cs) as Ws.
  split; [by apply in_canvas_union|..];
    [eapply (side_within _ (λ x _, x)); [exact Wr|exact Ws| |exact Lr|exact Ls]
    |eapply (side_within _ (λ x _, x + 1)%Z); [exact Wr|exact Ws| |exact Rr|exact Rs]
    |eapply (side_within _ (λ _ y, y)); [exact Wr|exact Ws| |exact Tr|exact Ts]
    |eapply (side_within _ (λ _ y, y + 1)%Z); [exact Wr|exact Ws| |exact Br|exact Bs]];
    rewrite (region_union_canvas _ _ HW HH) by done; simpl; lia.
Qed.

Section mask.
Context (w h : nat) (dirty : nat → Prop) (Hw : (Z.of_nat w < 2 ^ 32)%Z) (Hh : (Z.of_nat h < 2 ^ 32)%Z).

Definition px (k : nat) : Z := Z.of_nat (k mod w).
Definition py (k : nat) : Z := Z.of_nat (k / w).
Definition dirty_at (x y : Z) : Prop := ∃ k, dirty k ∧ px k = x ∧ py k = y.

Lemma bounds_region_eq b : bounds_ok w h dirty b →
  bounds_region b = mkRegion (Z.of_nat (bn_left b)) (Z.of_nat (bn_top b))
    (Z.of_nat (bn_right b) - Z.of_nat (bn_left b) + 1) (Z.of_nat (bn_bottom b) - Z.of_nat (bn_top b) + 1).
Proof. intros [Hx Hy _ _ _ _]. unfold bounds_region, as_u32. rewrite !Z.mod_small by lia. f_equal; lia. Qed.
Lemma inside_bounds b k : bounds_ok w h dirty b →
  in_region (bounds_region b) (px k) (py k) ↔ in_bounds w b k.
Proof.
  intros Hb. rewrite bounds_region_eq by done. destruct Hb as [Hx Hy _ _ _ _].
  unfold in_region, in_bounds, px, py. simpl. lia.
Qed.
Lemma tight_bounds b :
  bounds_ok w h dirty b → tight (Z.of_nat w) (Z.of_nat h) dirty_at (bounds_region b).
Proof.
  intros Hb. pose proof (inside_bounds b) as Hi. pose proof (bounds_region_eq b Hb) as E.
  split; [rewrite E; destruct Hb as [Hx Hy _ _ _ _]; unfold in_canvas; simpl; lia|..];
    [destruct (bo_left _ _ _ _ Hb) as (k & ? & ? & ?)|destruct (bo_right _ _ _ _ Hb) as (k & ? & ? & ?)
    |destruct (bo_top _ _ _ _ Hb) as (k & ? & ? & ?)|destruct (bo_bottom _ _ _ _ Hb) as (k & ? & ? & ?)];
    exists (px k), (py k); (split; [by exists k|]); (split; [by apply Hi|]); rewrite E; unfold px, py; simpl; lia.
Qed.
End mask.

(** What holds when the scan has passed the pixels of [pre]. *)
Record scanned (w h : nat) (mask0 : list bool) (pre : list nat) (s : list bool * list Region) : Prop := {
  sn_length : length s.1 = w * h;
  sn_mask k : s.1 !! k = Some true → mask0 !! k = Some true ∧ k ∉ pre;
  sn_tight : Forall (tight (Z.of_nat w) (Z.of_nat h) (dirty_at w (λ k, mask0 !! k = Some true))) s.2;
  sn_apart : StronglySorted apart s.2;
  sn_few : length s.2 ≤ 16;
  sn_covered k : mask0 !! k = Some true →
    s.1 !! k = Some true ∨ ∃ r, r ∈ s.2 ∧ in_region r (px w k) (py w k) }.

Lemma region_step_spec w h mask0 pre start s :
  (Z.of_nat w < 2 ^ 32)%Z → (Z.of_nat h < 2 ^ 32)%Z → start < w * h → scanned w h mask0 pre s →
  ∃ s', region_step w h s start = Ok s' ∧ scanned w h mask0 (pre ++ [start]) s'.
Proof.
  intros Hw Hh Hlt [L M T A F C]. destruct s as [mask out]. simpl in *.
  destruct (lookup_lt_is_Some_2 mask start) as [m Hm]; [lia|]. unfold region_step. rewrite Hm. rsimpl.
  destruct m; simpl.
  2: { exists (mask, out). split; [done|]. split; simpl; try done. intros k Hk. destruct (M k Hk) as [? Hn].
       split; [done|]. rewrite elem_of_app, list_elem_of_singleton. intros [?| ->]; congruence. }
  set (dirty := λ k, mask0 !! k = Some true) in *.
  assert (dirty start) as Hd by apply (M _ Hm).
  assert (start mod w < w) by (apply Nat.mod_upper_bound; lia).
  assert (start / w < h) by (apply Nat.Div0.div_lt_upper_bound; lia).
  set (b := mkBounds (start mod w) (start mod w) (start / w) (start / w)).
  assert (in_bounds w b start) as Hib by (unfold in_bounds, b; simpl; lia).
  destruct (flood_spec w h dirty (length mask) (<[start := false]> mask) [start] b)
    as (mask' & b' & -> & L' & B' & M' & K').
  - lia.
  - lia.
  - by rewrite length_insert.
  - pose proof (count_true_clear _ _ Hm). pose proof (count_true_length mask). simpl. lia.
  - intros k ->%list_elem_of_singleton. done.
  - intros k Hk. apply lookup_clear in Hk as [Hk _]; [|lia]. by apply M.
  - split; simpl; [lia|lia|..]; exists start; done.
  - rsimpl.
    destruct (insert_go_spec _ _ Hw Hh (tight _ _ (dirty_at w dirty)) (ti_canvas _ _ _)
      (λ r s, tight_union _ _ _ r s Hw Hh)
      (length out) out (bounds_region b')) as (out' & Ho & T' & A' & F' & C');
      [done|done|by apply tight_bounds|done|].
    unfold insert_region. rewrite Ho. rsimpl. exists (mask', out'). split; [done|]. split; simpl; try done.
    + intros k Hk. apply M' in Hk as [Hk Hn]%lookup_clear; [|lia]. destruct (M k Hk) as [? Hpre].
      split; [done|]. rewrite elem_of_app, list_elem_of_singleton. naive_solver.
    + intros k Hk. assert (mask' !! k = Some true ∨ in_bounds w b' k ∨ ∃ r, r ∈ out ∧ in_region r (px w k) (py w k)) as Hc.
      { destruct (C k Hk) as [Hk'|]; [|by auto]. destruct (decide (k = start)) as [-> |].
        - destruct (K' start) as [?|?]; auto.
        - destruct (K' k) as [?|?]; auto. left. by rewrite lookup_clear by lia. }
      destruct Hc as [?|[Hb|(r & Hr & Hi)]]; [by left|right..].
      * destruct (C' (bounds_region b')) as (s & Hs & Hws); [left|]. exists s. split; [done|].
        apply Hws. by apply (inside_bounds w h dirty Hw Hh).
      * destruct (C' r) as (s & Hs & Hws); [by right|]. eauto.
Qed.

Lemma region_sorted l : StronglySorted (λ r s, region_le r s = true) (sort_by region_le l).
Proof.
  apply (sort_by_sorted _ (λ _, True)); [..|by apply Forall_true].
  - intros r s _ _. apply (cle_total (region_key r)).
  - intros r s t _ _ _. apply (cle_trans (region_key r)).
Qed.

Lemma regions_spec mask w h :
  length mask = w * h → (Z.of_nat w < 2 ^ 32)%Z → (Z.of_nat h < 2 ^ 32)%Z →
  ∃ out, regions mask w h = Ok out ∧ length out ≤ 16 ∧
    StronglySorted (λ r s, region_le r s = true) out ∧ StronglySorted apart out ∧
    Forall (tight (Z.of_nat w) (Z.of_nat h) (dirty_at w (λ k, mask !! k = Some true))) out ∧
    ∀ k, mask !! k = Some true → ∃ r, r ∈ out ∧ in_region r (px w k) (py w k).
Proof.
  intros Hl Hw Hh.
  destruct (foldM_progress (scanned w h mask) (region_step w h) (mask, []) (seq 0 (length mask)))
    as ([mask' out] & E & [L M T A F C]).
  - split; simpl; try done; [|constructor|lia|by auto]. intros k Hk. split; [done|]. by apply not_elem_of_nil.
  - intros pre x post s Hs Hp. apply region_step_spec; try done.
    assert (x ∈ seq 0 (length mask)) as Hx by (rewrite Hs; set_solver). apply elem_of_seq in Hx. lia.
  - simpl in *. exists (sort_by region_le out). unfold regions. rewrite E. rsimpl.
    split; [done|]. split; [by rewrite length_sort_by|]. split; [apply region_sorted|].
    split; [eapply (StronglySorted_perm _ out); [by rewrite sort_by_perm|done]|].
    split; [by rewrite sort_by_perm|]. intros k Hk. destruct (C k Hk) as [Hm|(r & Hr & Hi)].
    + destruct (M k Hm) as [_ []]. apply elem_of_seq. apply lookup_lt_Some in Hk. lia.
    + exists r. by rewrite elem_of_sort_by.
Qed.

(** ** The canvas *)

(** The coordinates of a canvas, row by row. *)
Definition grid_rows (w y m : nat) : list (nat * nat) :=
  flat_map (λ y, (λ x, (x, y)) <$> seq 0 w) (seq y m).
Definition grid (w h : nat) : list (nat * nat) := grid_rows w 0 h.
Definition count {A} (p : A → bool) (l : list A) : Z := Z.of_nat (length (filterb p l)).

Lemma count_app {A} (p : A → bool) l k : count p (l ++ k) = (count p l + count p k)%Z.
Proof. unfold count, filterb. rewrite List.filter_app, length_app. lia. Qed.
Lemma count_fmap {A B} (p : B → bool) (f : A → B) l : count p (f <$> l) = count (p ∘ f) l.
Proof. unfold count. induction l as [|x l IH]; csimpl; [done|]. destruct (p (f x)); simpl; lia. Qed.
Lemma count_ext {A} (p q : A → bool) l : (∀ x, x ∈ l → p x = q x) → count p l = count q l.
Proof.
  unfold count. induction l as [|x l IH]; intros He; [done|]. simpl. rewrite (He x) by left.
  specialize (IH ltac:(intros; apply He; by right)). destruct (q x); simpl; lia.
Qed.
Lemma count_le {A} (p : A → bool) l : (0 <= count p l <= Z.of_nat (length l))%Z.
Proof.
  unfold count. pose proof (sublist_length _ _ (filterb_sublist p l)). lia.
Qed.
(** Inclusion and exclusion. *)
Lemma count_or {A} (p q : A → bool) l :
  (count (λ x, p x || q x) l + count (λ x, p x && q x) l)%Z = (count p l + count q l)%Z.
Proof. unfold count. induction l as [|x l IH]; [done|]. simpl. destruct (p x), (q x); simpl; lia. Qed.
Lemma count_prefix n m : n ≤ m → count (λ x, x <? n) (seq 0 m) = Z.of_nat n.
Proof.
  intros Hn. replace m with (n + (m - n)) by lia. rewrite seq_app, count_app. unfold count, filterb.
  rewrite (List.filter_ext_in _ (λ _, true) (seq 0 n)).
  2: { intros x. rewrite <-list_elem_of_In, elem_of_seq. intros ?. apply Nat.ltb_lt. lia. }
  rewrite (List.filter_ext_in _ (λ _, false) (seq (0 + n) _)).
  2: { intros x. rewrite <-list_elem_of_In, elem_of_seq. intros ?. apply Nat.ltb_ge. lia. }
  rewrite List.filter_true, List.filter_false, length_seq. simpl. lia.
Qed.
Lemma count_rectangle w h a b : a ≤ w → b ≤ h →
  count (λ '(x, y), (x <? a) && (y <? b)) (grid w h) = (Z.of_nat a * Z.of_nat b)%Z.
Proof.
  intros Ha Hb. rewrite <-(count_prefix b h Hb). unfold grid, grid_rows. generalize (seq 0 h) as l. clear h Hb.
  induction l as [|y l IH]; simpl; [by rewrite Z.mul_0_r|]. rewrite count_app, IH, count_fmap.
  unfold compose. destruct (y <? b) eqn:E.
  - rewrite (count_ext _ (λ x, x <? a)) by (intros; by rewrite andb_true_r). rewrite count_prefix by done.
    unfold count. simpl. rewrite E. simpl. lia.
  - rewrite (count_ext _ (λ _, false)) by (intros; by rewrite andb_false_r). unfold count. simpl. rewrite E.
    unfold filterb at 1. rewrite List.filter_false. simpl. lia.
Qed.

Lemma mark_row w (c : nat → nat → bool) y n : ∀ x pre rest cnt,
  length pre = y * w + x →
  foldl (λ s x, mark w c s y x) (pre ++ replicate n false ++ rest, cnt) (seq x n) =
    (pre ++ ((λ x, c x y) <$> seq x n) ++ rest, (cnt + count (λ x, c x y) (seq x n))%Z).
Proof.
  induction n as [|n IH]; intros x pre rest cnt Hp.
  { simpl. f_equal. unfold count. simpl. lia. }
  cbn [seq replicate foldl]. unfold mark at 2. cbn [fst snd].
  rewrite insert_app_r_alt by lia. replace (y * w + x - length pre) with 0 by lia. cbn [app insert list_insert].
  replace (pre ++ c x y :: replicate n false ++ rest) with ((pre ++ [c x y]) ++ replicate n false ++ rest)
    by (by rewrite <-app_assoc).
  rewrite IH by (rewrite length_app; simpl; lia). rewrite fmap_cons, <-app_assoc. f_equal.
  unfold count. simpl. destruct (c x y); simpl; lia.
Qed.
Lemma mark_rows w (c : nat → nat → bool) m : ∀ y pre cnt,
  length pre = y * w →
  foldl (λ s y, foldl (λ s x, mark w c s y x) s (seq 0 w)) (pre ++ replicate (w * m) false, cnt) (seq y m) =
    (pre ++ (uncurry c <$> grid_rows w y m), (cnt + count (uncurry c) (grid_rows w y m))%Z).
Proof.
  induction m as [|m IH]; intros y pre cnt Hp.
  { rewrite Nat.mul_0_r. simpl. f_equal. unfold count. simpl. lia. }
  cbn [seq foldl]. rewrite Nat.mul_succ_r, Nat.add_comm, replicate_add, mark_row by lia.
  rewrite app_assoc, IH by (rewrite length_app, length_fmap, length_seq; lia).
  unfold grid_rows. cbn [seq flat_map]. rewrite fmap_app, count_app, count_fmap, <-list_fmap_compose.
  rewrite <-app_assoc. f_equal. unfold compose, uncurry. simpl. lia.
Qed.
Lemma marks_spec w h c : marks w h c = (uncurry c <$> grid w h, count (uncurry c) (grid w h)).
Proof. unfold marks. apply (mark_rows w c h 0 [] 0%Z). done. Qed.

Lemma grid_rows_lookup w m : ∀ y k, k < w * m → grid_rows w y m !! k = Some (k mod w, y + k / w).
Proof.
  induction m as [|m IH]; intros y k Hk; [lia|]. unfold grid_rows. cbn [seq flat_map].
  destruct (Nat.lt_ge_cases k w) as [Hlt|Hge].
  - rewrite lookup_app_l by (by rewrite length_fmap, length_seq). rewrite list_lookup_fmap, lookup_seq_lt by done.
    simpl. by rewrite Nat.mod_small, Nat.div_small, Nat.add_0_r by done.
  - rewrite lookup_app_r; rewrite length_fmap, length_seq; [|done]. fold (grid_rows w (S y) m).
    rewrite IH by lia. replace k with (k - w + 1 * w) at 3 4 by lia.
    rewrite Nat.Div0.mod_add, Nat.div_add by lia. do 2 f_equal. lia.
Qed.
Lemma grid_rows_length w y m : length (grid_rows w y m) = w * m.
Proof.
  revert y. induction m as [|m IH]; intros y; [simpl; lia|]. unfold grid_rows. cbn [seq flat_map].
  rewrite length_app, length_fmap, length_seq. fold (grid_rows w (S y) m). rewrite IH. lia.
Qed.
Lemma elem_of_grid w h x y : (x, y) ∈ grid w h ↔ x < w ∧ y < h.
Proof.
  unfold grid, grid_rows. rewrite list_elem_of_In, in_flat_map. setoid_rewrite <-list_elem_of_In.
  setoid_rewrite list_elem_of_fmap. setoid_rewrite elem_of_seq. split.
  - intros (y' & Hy & x' & [= -> ->] & Hx). lia.
  - intros [Hx Hy]. exists y. split; [lia|]. exists x. split; [done|lia].
Qed.

(** ** The row of a comparison *)

(** An image whose sides fit [u32], as the [image] crate has them. *)
Definition image_ok (image : option RgbaImage) : Prop :=
  (0 <= (dimensions image).1 <= u32_max ∧ 0 <= (dimensions image).2 <= u32_max)%Z.
(** The number of coordinates of the canvas of both images with a property. *)
Definition canvas_count (a b : option RgbaImage) (p : Z → Z → bool) : Z :=
  count (λ '(x, y), p (Z.of_nat x) (Z.of_nat y))
    (grid (Z.to_nat (Z.max (dimensions a).1 (dimensions b).1)) (Z.to_nat (Z.max (dimensions a).2 (dimensions b).2))).

Lemma ltb_to_nat x u : (0 <= u)%Z → (x <? Z.to_nat u) = (Z.of_nat x <? u)%Z.
Proof. intros Hu. destruct (Nat.ltb_spec x (Z.to_nat u)), (Z.ltb_spec (Z.of_nat x) u); lia. Qed.
Lemma total_pixels_count a b : image_ok a → image_ok b →
  (Z.max (dimensions a).1 (dimensions b).1 * Z.max (dimensions a).2 (dimensions b).2 < 2 ^ 63)%Z →
  total_pixels a b = canvas_count a b (λ x y, has_pixel a x y || has_pixel b x y).
Proof.
  unfold image_ok, total_pixels, canvas_count, has_pixel.
  destruct (dimensions a) as [aw ah], (dimensions b) as [bw bh]. cbn [fst snd]. intros Ha Hb Hm.
  set (w := Z.to_nat (Z.max aw bw)). set (h := Z.to_nat (Z.max ah bh)).
  pose proof (count_or (λ '(x, y), (Z.of_nat x <? aw)%Z && (Z.of_nat y <? ah)%Z)
    (λ '(x, y), (Z.of_nat x <? bw)%Z && (Z.of_nat y <? bh)%Z) (grid w h)) as Hor.
  assert (∀ u v, (0 <= u <= Z.max aw bw)%Z → (0 <= v <= Z.max ah bh)%Z →
    count (λ '(x, y), (Z.of_nat x <? u)%Z && (Z.of_nat y <? v)%Z) (grid w h) = (u * v)%Z) as Hr.
  { intros u v Hu Hv. pose proof (count_rectangle w h (Z.to_nat u) (Z.to_nat v) ltac:(lia) ltac:(lia)) as Hc.
    rewrite !Z2Nat.id in Hc by lia. rewrite <-Hc. apply count_ext. intros [x y] _. by rewrite !ltb_to_nat by lia. }
  rewrite (Hr aw ah), (Hr bw bh) in Hor by lia.
  rewrite (count_ext (λ x, _ && _) (λ '(x, y), (Z.of_nat x <? Z.min aw bw)%Z && (Z.of_nat y <? Z.min ah bh)%Z)) in Hor
    by (intros [x y] _; lia).
  rewrite Hr in Hor by lia.
  rewrite (count_ext _ (λ x, (let '(x0, y) := x in (Z.of_nat x0 <? aw)%Z && (Z.of_nat y <? ah)%Z)
    || (let '(x0, y) := x in (Z.of_nat x0 <? bw)%Z && (Z.of_nat y <? bh)%Z))) by (by intros [x y] _).
  rewrite Z.mod_small; [lia|]. split; [|nia].
  pose proof (count_le (λ x, (let '(x0, y) := x in (Z.of_nat x0 <? aw)%Z && (Z.of_nat y <? ah)%Z)
    || (let '(x0, y) := x in (Z.of_nat x0 <? bw)%Z && (Z.of_nat y <? bh)%Z)) (grid w h)). lia.
Qed.

Lemma tight_mono W H (P Q : Z → Z → Prop) r : (∀ x y, P x y → Q x y) → tight W H P r → tight W H Q r.
Proof. intros HPQ [C L R T B]. split; [done|..]; naive_solver. Qed.

(** The regions of the changed pixels of two images. *)
Lemma pixel_regions a b tolerance (W := Z.max (dimensions a).1 (dimensions b).1)
    (H := Z.max (dimensions a).2 (dimensions b).2) :
  image_ok a → image_ok b →
  ∃ rs, regions (marks (Z.to_nat W) (Z.to_nat H)
      (λ x y, pixel_changed a b tolerance (Z.of_nat x) (Z.of_nat y))).1 (Z.to_nat W) (Z.to_nat H) = Ok rs ∧
    length rs ≤ 16 ∧ StronglySorted (λ r s, region_le r s = true) rs ∧ StronglySorted apart rs ∧
    Forall (tight W H (λ x y, pixel_changed a b tolerance x y = true)) rs ∧
    ∀ x y, (0 <= x < W)%Z → (0 <= y < H)%Z → pixel_changed a b tolerance x y = true →
      ∃ r, r ∈ rs ∧ in_region r x y.
Proof.
  unfold image_ok, u32_max. intros Ha Hb. rewrite marks_spec. cbn [fst].
  set (w := Z.to_nat W). set (h := Z.to_nat H). set (c := λ x y, pixel_changed _ _ _ _ _).
  assert (Z.of_nat w = W) as Ew by lia. assert (Z.of_nat h = H) as Eh by lia.
  assert (∀ k, k < w * h → (uncurry c <$> grid w h) !! k = Some (c (k mod w) (k / w))) as Hk.
  { intros k Hk. rewrite list_lookup_fmap. unfold grid. rewrite grid_rows_lookup by done. done. }
  destruct (regions_spec (uncurry c <$> grid w h) w h) as (rs & -> & Hl & Hs & Hp & Ht & Hc).
  - unfold grid. by rewrite length_fmap, grid_rows_length.
  - lia.
  - lia.
  - exists rs. repeat (split; [done|]). rewrite Ew, Eh in Ht. split.
    + eapply Forall_impl; [exact Ht|]. intros r. apply tight_mono. intros x y (k & Hd & <- & <-).
      assert (k < w * h).
      { apply lookup_lt_Some in Hd. unfold grid in Hd. by rewrite length_fmap, grid_rows_length in Hd. }
      rewrite Hk in Hd by done. by injection Hd.
    + intros x y Hx Hy Hch. set (k := Z.to_nat y * w + Z.to_nat x).
      assert (k < w * h) by (subst k; nia).
      assert (k mod w = Z.to_nat x) as Em.
      { subst k. rewrite Nat.add_comm, Nat.Div0.mod_add, Nat.mod_small by lia. done. }
      assert (k / w = Z.to_nat y) as Ed.
      { subst k. rewrite Nat.add_comm, Nat.div_add, Nat.div_small by lia. lia. }
      destruct (Hc k) as (r & Hr & Hi).
      { rewrite Hk by done. rewrite Em, Ed. unfold c. rewrite !Z2Nat.id by lia. by rewrite Hch. }
      exists r. split; [done|]. unfold px, py in Hi. by rewrite Em, Ed, !Z2Nat.id in Hi by lia.
Qed.

(** ** The inventory *)

(** The screen that a PNG file or a structure file belongs to. *)
Definition png_stem (path : string) : option string :=
  '(stem, ext) ← rsplit_once "." path; if ext == "png" then Some stem else None.
Definition structure_stem (path : string) : option string :=
  '(stem, ext) ← rsplit_once "." path; if is_structure ext then Some stem else None.
(** A path that names a screen: [<screen>@<device>] and one of the extensions. *)
Definition screen_named (path : string) : bool :=
  match png_stem path, structure_stem path with
  | None, None => false
  | Some stem, _ | None, Some stem =>
      match rsplit_once "@" (base_name stem) with
      | Some (screen, device) => negb (is_empty screen || is_empty device)
      | None => false
      end
  end.
Definition screen_of (m : gmap string Screen) (stem : string) : Screen := default screen_default (m !! stem).

Record inventoried (pre : list string) (m : gmap string Screen) : Prop := {
  iv_png stem p : sc_png (screen_of m stem) = Some p ↔ p ∈ pre ∧ png_stem p = Some stem;
  iv_structure stem p : sc_structure (screen_of m stem) = Some p ↔ p ∈ pre ∧ structure_stem p = Some stem;
  iv_dom stem : is_Some (m !! stem) ↔ ∃ p, p ∈ pre ∧ (png_stem p = Some stem ∨ structure_stem p = Some stem) }.

Lemma png_stem_some p stem : png_stem p = Some stem → p = stem +:+ ".png".
Proof.
  unfold png_stem. destruct (rsplit_once _ p) as [[a e]|] eqn:E; simpl; [|done].
  destruct (eqb e _) eqn:Ee; [|done]. intros [= ->]. apply eqb_eq in Ee as ->.
  by apply rsplit_once_some in E as [-> _].
Qed.
Lemma png_structure p stem stem' : png_stem p = Some stem → structure_stem p = Some stem' → False.
Proof.
  unfold png_stem, structure_stem. destruct (rsplit_once _ p) as [[a e]|]; simpl; [|done].
  destruct (eqb e _) eqn:Ee; [|done]. by apply eqb_eq in Ee as ->.
Qed.
Lemma screen_of_insert m stem s stem' :
  screen_of (<[stem := s]> m) stem' = if decide (stem = stem') then s else screen_of m stem'.
Proof. unfold screen_of. case_decide; [subst; by rewrite lookup_insert_eq|by rewrite lookup_insert_ne]. Qed.

(** One step, by the kind of the path. *)
Lemma inventory_step_eq m p :
  inventory_step m p = 
    if screen_named p then
      match png_stem p, structure_stem p with
      | Some stem, _ => Ok (<[stem := mkScreen (Some p) (sc_structure (screen_of m stem))]> m)
      | None, Some stem =>
          if sc_structure (screen_of m stem) then Err "screen '{stem}' has more than one structure file"
          else Ok (<[stem := mkScreen (sc_png (screen_of m stem)) (Some p)]> m)
      | None, None => inventory_step m p
      end
    else inventory_step m p.
Proof.
  unfold screen_named, png_stem, structure_stem, inventory_step.
  destruct (rsplit_once _ p) as [[stem ext]|]; rsimpl; [|done].
  fold (screen_of m stem).
  destruct (eqb ext "png") eqn:Ep; rsimpl.
  - destruct (rsplit_once _ (base_name stem)) as [[screen device]|]; rsimpl; [|done].
    destruct (is_empty screen || is_empty device); done.
  - destruct (is_structure ext) eqn:Es; rsimpl; [|by destruct (rsplit_once _ (base_name stem))].
    destruct (rsplit_once _ (base_name stem)) as [[screen device]|]; rsimpl; [|done].
    destruct (is_empty screen || is_empty device); rsimpl; [done|].
    by destruct (sc_structure (screen_of m stem)).
Qed.
Lemma inventory_step_named m p m' : inventory_step m p = Ok m' → screen_named p = true.
Proof.
  unfold inventory_step, screen_named, png_stem, structure_stem. intros Hs.
  apply bind_ok in Hs as ([stem ext] & He%ctx_ok & Hs). rewrite He. rsimpl.
  apply bind_ok in Hs as ([screen device] & Hd%ctx_ok & Hs).
  apply bind_ok in Hs as (u & Hn%bail_if_ok & Hs).
  destruct (eqb ext "png"); rsimpl; [by rewrite Hd, Hn|].
  destruct (is_structure ext); rsimpl; [by rewrite Hd, Hn|done].
Qed.

Lemma inventoried_png pre m p stem :
  png_stem p = Some stem → inventoried pre m →
  inventoried (pre ++ [p]) (<[stem := mkScreen (Some p) (sc_structure (screen_of m stem))]> m).
Proof.
  intros Hp [P S D]. split.
  - intros stem' q. rewrite screen_of_insert, elem_of_app, list_elem_of_singleton. case_decide as E; simpl.
    + subst stem'. split; [intros [= <-]; auto|]. intros [_ Hq]. apply png_stem_some in Hp as ->, Hq as ->. done.
    + rewrite P. naive_solver.
  - intros stem' q. rewrite screen_of_insert, elem_of_app, list_elem_of_singleton.
    transitivity (sc_structure (screen_of m stem') = Some q); [case_decide; by subst|]. rewrite S.
    split; [naive_solver|]. intros [[?| ->] Hq]; [done|]. by destruct (png_structure _ _ _ Hp Hq).
  - intros stem'. rewrite lookup_insert_is_Some, D. setoid_rewrite elem_of_app.
    setoid_rewrite list_elem_of_singleton. split.
    + intros [<- |(_ & q & Hq & Hs)]; [exists p; auto|exists q; auto].
    + intros (q & [Hq| ->] & Hs); destruct (decide (stem = stem')); eauto 6.
      left. destruct Hs as [Hs|Hs]; [congruence|]. by destruct (png_structure _ _ _ Hp Hs).
Qed.
Lemma inventoried_structure pre m p stem :
  structure_stem p = Some stem → sc_structure (screen_of m stem) = None → inventoried pre m →
  inventoried (pre ++ [p]) (<[stem := mkScreen (sc_png (screen_of m stem)) (Some p)]> m).
Proof.
  intros Hp Hn [P S D]. split.
  - intros stem' q. rewrite screen_of_insert, elem_of_app, list_elem_of_singleton.
    transitivity (sc_png (screen_of m stem') = Some q); [case_decide; by subst|]. rewrite P.
    split; [naive_solver|]. intros [[?| ->] Hq]; [done|]. by destruct (png_structure _ _ _ Hq Hp).
  - intros stem' q. rewrite screen_of_insert, elem_of_app, list_elem_of_singleton. case_decide as E; simpl.
    + subst stem'. split; [intros [= <-]; auto|]. intros [[Hin| ->] Hq]; [|done].
      assert (sc_structure (screen_of m stem) = Some q) by (by apply S). congruence.
    + rewrite S. naive_solver.
  - intros stem'. rewrite lookup_insert_is_Some, D. setoid_rewrite elem_of_app.
    setoid_rewrite list_elem_of_singleton. split.
    + intros [<- |(_ & q & Hq & Hs)]; [exists p; auto|exists q; auto].
    + intros (q & [Hq| ->] & Hs); destruct (decide (stem = stem')); eauto 6.
      left. destruct Hs as [Hs|Hs]; [by destruct (png_structure _ _ _ Hs Hp)|congruence].
Qed.
Lemma inventory_step_inv pre m p m' :
  inventoried pre m → inventory_step m p = Ok m' → inventoried (pre ++ [p]) m'.
Proof.
  intros Hi Hs. pose proof (inventory_step_named _ _ _ Hs) as Hn. rewrite inventory_step_eq, Hn in Hs.
  unfold screen_named in Hn. destruct (png_stem p) as [stem|] eqn:Ep.
  - injection Hs as <-. by apply inventoried_png.
  - destruct (structure_stem p) as [stem|] eqn:Es; [|done].
    destruct (sc_structure (screen_of m stem)) eqn:Ec; [done|]. injection Hs as <-.
    by apply inventoried_structure.
Qed.
Lemma inventory_inv paths m : inventory paths = Ok m → inventoried paths m.
Proof.
  apply (foldM_prefix_inv inventoried).
  - split; intros stem; intros; unfold screen_of; rewrite lookup_empty; simpl.
    + split; [done|by intros [[]%not_elem_of_nil _]].
    + split; [done|by intros [[]%not_elem_of_nil _]].
    + split; [by intros []|by intros (p & []%not_elem_of_nil & _)].
  - intros. by eapply inventory_step_inv.
Qed.

(** ** Main results *)

(** The inventory of screens: for files with distinct paths it succeeds just if every path is
    named [<screen>@<device>] with a known extension and no screen has two structure files, and it
    then has exactly the screens of the files, each with its PNG and its structure file. *)
Theorem inventory_exact paths :
  NoDup paths →
  (is_ok (inventory paths) = true ↔ forallb screen_named paths = true ∧
     ∀ p q stem, p ∈ paths → q ∈ paths → structure_stem p = Some stem → structure_stem q = Some stem → p = q) ∧
  ∀ m, inventory paths = Ok m → ∀ stem,
    (is_Some (m !! stem) ↔ ∃ p, p ∈ paths ∧ (png_stem p = Some stem ∨ structure_stem p = Some stem)) ∧
    (∀ p, sc_png (screen_of m stem) = Some p ↔ p ∈ paths ∧ p = stem +:+ ".png") ∧
    (∀ p, sc_structure (screen_of m stem) = Some p ↔ p ∈ paths ∧ structure_stem p = Some stem).
Proof.
  intros Hd. split; [rewrite is_ok_true, forallb_elem; split|].
  - intros [m Hm]. split.
    + intros p Hp. revert Hm. apply list_elem_of_split in Hp as (l & k & ->). unfold inventory.
      rewrite foldM_app. intros (m1 & _ & (m2 & Hs & _)%bind_ok)%bind_ok. by eapply inventory_step_named.
    + intros p q stem Hp Hq Hps Hqs. destruct (inventory_inv _ _ Hm) as [_ S _].
      assert (sc_structure (screen_of m stem) = Some p) by (by apply S).
      assert (sc_structure (screen_of m stem) = Some q) by (by apply S). congruence.
  - intros [Hn Hu]. destruct (foldM_progress inventoried inventory_step ∅ paths) as (m & Hm & _); [by apply inventory_inv| |by exists m].
    intros pre p post m E Hi. assert (p ∈ paths) as Hp by (rewrite E; set_solver).
    assert (∃ m', inventory_step m p = Ok m') as [m' Hm']; [|exists m'; split; [done|by eapply inventory_step_inv]].
    rewrite inventory_step_eq, (Hn p Hp). pose proof (Hn p Hp) as Hnp. unfold screen_named in Hnp.
    destruct (png_stem p) as [stem|]; [by eexists|]. destruct (structure_stem p) as [stem|] eqn:Es; [|done].
    destruct (sc_structure (screen_of m stem)) as [q|] eqn:Ec; [|by eexists].
    apply (iv_structure _ _ Hi) in Ec as [Hq Hqs].
    assert (p = q) as <- by (eapply Hu; [done| |done|done]; rewrite E; set_solver).
    rewrite E in Hd. apply NoDup_app in Hd as (_ & Hd & _). destruct (Hd p Hq). left.
  - intros m Hm stem. destruct (inventory_inv _ _ Hm) as [P S D]. split; [apply D|]. split; [|apply S].
    intros p. rewrite P. split; intros [Hp He]; (split; [done|]).
    + by apply png_stem_some.
    + subst p. unfold png_stem. by rewrite (proj2 (rsplit_once_some "." _ stem "png")).
Qed.

(** C15. The comparison of two images counts and shows the changed pixels: within the allocation
    limit it succeeds, its counts are the changed pixels and all pixels of either image, and its
    regions are at most 16 boxes in the canvas, 8 pixels apart, in order, that together cover
    every changed pixel and each of which touches a changed pixel on every side. *)
Theorem pixels_exact limit a b tolerance (W := Z.max (dimensions a).1 (dimensions b).1)
    (H := Z.max (dimensions a).2 (dimensions b).2) :
  image_ok a → image_ok b → is_some a || is_some b = true → (W * H <= limit < 2 ^ 63)%Z →
  ∃ row rs, pixels (Some limit) a b tolerance = Ok row ∧
    row.["changed_pixels"] = JInt (canvas_count a b (pixel_changed a b tolerance)) ∧
    row.["total_pixels"] = JInt (canvas_count a b (λ x y, has_pixel a x y || has_pixel b x y)) ∧
    row.["regions"] = JArray (Region_to_value <$> rs) ∧
    length rs ≤ 16 ∧ StronglySorted (λ r s, region_le r s = true) rs ∧ StronglySorted apart rs ∧
    Forall (tight W H (λ x y, pixel_changed a b tolerance x y = true)) rs ∧
    ∀ x y, (0 <= x < W)%Z → (0 <= y < H)%Z → pixel_changed a b tolerance x y = true →
      ∃ r, r ∈ rs ∧ in_region r x y.
Proof.
  intros Ha Hb Hab Hl. destruct (pixel_regions a b tolerance Ha Hb) as (rs & Hr & Hrs).
  pose proof (total_pixels_count a b Ha Hb ltac:(lia)) as Ht.
  unfold pixels. replace (is_none a && is_none b) with false by (by destruct a, b).
  destruct (dimensions a) as [aw ah] eqn:Ea. destruct (dimensions b) as [bw bh] eqn:Eb. cbn [fst snd] in *.
  fold W H. rewrite marks_spec in Hr |- *. cbn [fst] in Hr. fold W H in Hr.
  assert ((u64_max <? W * H)%Z = false) as -> by (unfold u64_max; lia).
  assert ((limit <? W * H)%Z = false) as E by lia. rsimpl. cbn [is_some_and]. rewrite E. rsimpl. rewrite Hr. rsimpl.
  eexists _, rs. split; [reflexivity|]. split; [|split; [|split; [reflexivity|done]]].
  - transitivity (JInt (count (uncurry (λ x y, pixel_changed a b tolerance (Z.of_nat x) (Z.of_nat y)))
      (grid (Z.to_nat W) (Z.to_nat H)))); [reflexivity|]. f_equal. unfold canvas_count. rewrite Ea, Eb. done.
  - transitivity (JInt (total_pixels a b)); [reflexivity|]. by rewrite Ht.
Qed.

Definition image_before : RgbaImage := mkImage 2 2 (λ _ _, [20; 20; 20; 255]%Z).
Definition image_after : RgbaImage :=
  mkImage 3 2 (λ x y, if (x =? 0)%Z && (y =? 0)%Z then [20; 20; 20; 246]%Z else [20; 20; 20; 255]%Z).
Lemma pixels_exact_witness :
  ∃ row rs, pixels (Some (2 ^ 29)%Z) (Some image_before) (Some image_after) 8 = Ok row ∧
    row.["changed_pixels"] = JInt 3 ∧ row.["total_pixels"] = JInt 6 ∧
    row.["regions"] = JArray (Region_to_value <$> rs) ∧ length rs ≤ 16 ∧ ∃ r, r ∈ rs ∧ in_region r 2 1.
Proof.
  destruct (pixels_exact (2 ^ 29) (Some image_before) (Some image_after) 8)
    as (row & rs & Hp & Hc & Ht & Hr & Hl & _ & _ & _ & Hi).
  - unfold image_ok, u32_max. simpl. lia.
  - unfold image_ok, u32_max. simpl. lia.
  - done.
  - simpl. lia.
  - exists row, rs. split; [done|]. split; [rewrite Hc; vm_compute; reflexivity|].
    split; [rewrite Ht; vm_compute; reflexivity|]. split; [done|]. split; [done|].
    apply Hi; [simpl; lia|simpl; lia|vm_compute; reflexivity].
Defined.

Definition screen_paths : list string := ["out/Home@Phone.png"; "out/Home@Phone.xml"].
