(* ===== verification/Diff.v ===== *)
(** Git patches ([layr-model/src/diff.rs]) and the comparison of two versions of a change by their
    patches ([layr-model/src/interdiff.rs]). The line diff is third-party code and a parameter, as is
    SHA-1. *)

From S2P Require Import Prelude Strs Json F64 Canonical Types Extern.

(** ** The third-party diff *)

Inductive ChangeTag := TagEqual | TagDelete | TagInsert.

(** [capture_diff_slices(Algorithm::Myers, ..)], [group_diff_ops], [get_diff_ratio] (an [f32]), the
    tags of [TextDiff::from_lines(..).iter_all_changes()], and SHA-1. *)
Class Similar := {
  capture_diff : list string → list string → list DiffOp;
  group_ops : list DiffOp → nat → list (list DiffOp);
  diff_ratio : list DiffOp → nat → nat → spec_float;
  change_tags : string → string → list ChangeTag;
  sha1 : string → string }.

Definition old_range (op : DiffOp) : nat * nat :=
  match op with
  | Equal i _ n | Delete i n _ | Replace i n _ _ => (i, i + n)
  | Insert i _ _ => (i, i)
  end.
Definition new_range (op : DiffOp) : nat * nat :=
  match op with
  | Equal _ j n | Insert _ j n | Replace _ _ j n => (j, j + n)
  | Delete _ _ j => (j, j)
  end.

(** ** Text *)

(** [{:0wo}]: octal, filled with zeros. *)
Fixpoint octal_digits (fuel : nat) (n : Z) (acc : string) : string :=
  let acc := String (digit (n mod 8)) acc in
  match fuel with
  | O => acc
  | S fuel => if (n / 8 =? 0)%Z then acc else octal_digits fuel (n / 8) acc
  end.
Definition octal (w : nat) (n : Z) : string :=
  let s := octal_digits (Z.to_nat (Z.log2 n)) n "" in rep (w - String.length s) "0" +:+ s.

Definition MAX_TEXT : Z := Z.shiftl 64 20.
Definition is_binary (data : string) : bool := has_byte (byte_of 0) (String.substring 0 (Z.to_nat 8000) data).

(** [d.iter().enumerate()] with the start of the current line. *)
Fixpoint split_lines_go (line d : string) : list string :=
  match d with
  | "" => if is_empty line then [] else [line]
  | String c d =>
      let line := line +:+ String c "" in
      if Ascii.eqb c (byte_of 10) then line :: split_lines_go "" d else split_lines_go line d
  end.
Definition split_lines (d : string) : list string := split_lines_go "" d.

Definition QUOTE : string := String (byte_of 34) "".
Definition BACKSLASH : string := String (byte_of 92) "".
Definition quote_byte (b : ascii) : string :=
  let v := byte_val b in
  if (v =? 34)%Z then BACKSLASH +:+ QUOTE
  else if (v =? 92)%Z then BACKSLASH +:+ BACKSLASH
  else if (v =? 10)%Z then BACKSLASH +:+ "n"
  else if (v =? 9)%Z then BACKSLASH +:+ "t"
  else if (32 <=? v)%Z && (v <=? 126)%Z then String b ""
  else BACKSLASH +:+ octal 3 v.
Fixpoint quote_bytes (p : string) : string :=
  match p with "" => "" | String b p => quote_byte b +:+ quote_bytes p end.
Definition needs_quotes (c : Z) : bool := (c =? 34)%Z || (c =? 92)%Z || is_control c || negb (c <? 128)%Z.
Definition quote_path (p : string) : string :=
  if existsb needs_quotes (chars p) then QUOTE +:+ quote_bytes p +:+ QUOTE else p.
Definition ab (prefix p : string) : string := quote_path (prefix +:+ p).

(** ** Sides and files *)

Record Side := mkSide { sd_path : string; sd_mode : Z; sd_data : string; sd_big : option Z }.
#[export] Instance Side_eq_dec : EqDecision Side.
Proof. solve_decision. Defined.
Definition same (o n : Side) : bool := is_none (sd_big o) && is_none (sd_big n) && (sd_data o == sd_data n).
Record FileDiff := mkFileDiff { df_old : option Side; df_new : option Side }.
#[export] Instance FileDiff_eq_dec : EqDecision FileDiff.
Proof. solve_decision. Defined.
Definition diff_path (fd : FileDiff) : string :=
  match or_else (df_new fd) (df_old fd) with Some s => sd_path s | None => "" end.
Definition side_binary (s : option Side) : bool :=
  match s with Some s => is_some (sd_big s) || is_binary (sd_data s) | None => false end.
Definition diff_is_binary (fd : FileDiff) : bool := side_binary (df_old fd) || side_binary (df_new fd).
Definition file_type (mode : Z) : Z := Z.land mode 61440.
Definition status (fd : FileDiff) : ascii :=
  match df_old fd, df_new fd with
  | None, Some _ => "A"
  | Some _, None => "D"
  | Some o, Some n =>
      if negb (sd_path o == sd_path n) then "R"
      else if negb (file_type (sd_mode o) =? file_type (sd_mode n))%Z then "T" else "M"
  | None, None => "M"
  end.
Definition side_data (s : option Side) : string := match s with Some s => sd_data s | None => "" end.
Definition display_path (fd : FileDiff) : string :=
  match df_old fd, df_new fd with
  | Some o, Some n => if negb (sd_path o == sd_path n) then sd_path o +:+ " => " +:+ sd_path n else diff_path fd
  | _, _ => diff_path fd
  end.

(** ** Patches *)

Definition LF : string := String (byte_of 10) "".

Section patch.
Context `{HE : Encodings, HS : Similar}.

(** [x as u32] of a float: towards zero, within the range. *)
Definition float_to_u32 (x : spec_float) : Z :=
  match x with
  | S754_finite false m e =>
      Z.min u32_max (if (0 <=? e)%Z then Z.pos m * 2 ^ e else Z.pos m / 2 ^ (- e))
  | S754_infinity false => u32_max
  | _ => 0
  end.
Definition similarity (fd : FileDiff) : Z :=
  match df_old fd, df_new fd with
  | Some o, Some n =>
      if same o n then 100%Z
      else if is_some (sd_big o) || is_some (sd_big n) then 0%Z
      else
        let a := split_lines (sd_data o) in
        let b := split_lines (sd_data n) in
        float_to_u32 (SFmul 24 128 (diff_ratio (capture_diff a b) (length a) (length b))
                        (binary_normalize 24 128 100 0 false))
  | _, _ => 0%Z
  end.
Definition count_op (ar : nat * nat) (op : DiffOp) : nat * nat :=
  let '(a, r) := ar in
  match op with
  | Insert _ _ new_len => (a + new_len, r)
  | Delete _ old_len _ => (a, r + old_len)
  | Replace _ old_len _ new_len => (a + new_len, r + old_len)
  | Equal _ _ _ => (a, r)
  end.
Definition line_counts (fd : FileDiff) : nat * nat :=
  if diff_is_binary fd then (0, 0) else
  foldl count_op (0, 0)
    (capture_diff (split_lines (side_data (df_old fd))) (split_lines (side_data (df_new fd)))).

Definition git_blob_id (data : string) : string :=
  hex_encode (sha1 ("blob " +:+ dec (str_len data) +:+ String (byte_of 0) "" +:+ data)).
Definition short_blob (s : option Side) : string :=
  match s with Some s => String.substring 0 7 (git_blob_id (sd_data s)) | None => "0000000" end.
Definition side_big (s : option Side) : bool := is_some_and s (λ s, is_some (sd_big s)).
Definition patch_index_line (o n : option Side) (mode : option Z) : string :=
  if side_big o || side_big n then "" else
  match mode with
  | Some m => "index " +:+ short_blob o +:+ ".." +:+ short_blob n +:+ " " +:+ octal 6 m +:+ LF
  | None => "index " +:+ short_blob o +:+ ".." +:+ short_blob n +:+ LF
  end.

(** [t.trim_end()] and [chars().take(n)]. *)
Definition trim_end (s : string) : string :=
  foldr (λ c acc, encode_utf8 c +:+ acc) "" (rev (drop_while is_whitespace (rev (chars s)))).
Definition take_chars (n : nat) (s : string) : string :=
  foldr (λ c acc, encode_utf8 c +:+ acc) "" (take n (chars s)).
(** The lines before the hunk, the nearest first. *)
Fixpoint funcname_go (lines : list string) : string :=
  match lines with
  | [] => ""
  | l :: lines =>
      match l with
      | String c _ =>
          if is_ascii_alphabetic c || Ascii.eqb c "_" || Ascii.eqb c "$"
          then " " +:+ take_chars 80 (trim_end (from_utf8_lossy l)) else funcname_go lines
      | "" => funcname_go lines
      end
  end.
Definition funcname (lines : list string) (before : nat) : string := funcname_go (rev (take before lines)).

Definition range (start len : nat) : string :=
  let s := Z.of_nat (if len =? 0 then start else start + 1) in
  if len =? 1 then dec s else dec s +:+ "," +:+ dec (Z.of_nat len).

(** One line of a hunk, with its mark. *)
Definition push_line (prefix : ascii) (line : string) : string :=
  String prefix (from_utf8_lossy line) +:+
  (if ends_with LF line then "" else LF +:+ BACKSLASH +:+ " No newline at end of file" +:+ LF).
(** [for i in start..start + len { .. lines[i] .. }]. *)
Definition slice (lines : list string) (start len : nat) : result (list string) :=
  collect (λ i, ctx "index out of bounds" (lines !! i)) (seq start len).
Definition mark_lines (mark : ascii) (l : list string) : list (ascii * string) := pair mark <$> l.
Definition op_lines (ol nl : list string) (op : DiffOp) : result (list (ascii * string)) :=
  match op with
  | Equal i _ n => l ← slice ol i n; Ok (mark_lines " " l)
  | Delete i n _ => l ← slice ol i n; Ok (mark_lines "-" l)
  | Insert _ j n => l ← slice nl j n; Ok (mark_lines "+" l)
  | Replace i n j m => l ← slice ol i n; k ← slice nl j m; Ok (mark_lines "-" l ++ mark_lines "+" k)
  end.
Record Hunk := mkHunk {
  hk_old : nat * nat; hk_new : nat * nat; hk_func : string; hk_lines : list (ascii * string) }.
(** [o_end - o_start]: the source's ranges never run backwards. *)
Definition span (first last : nat * nat) : result (nat * nat) :=
  bail_if (last.2 <? first.1) "attempt to subtract with overflow";; Ok (first.1, last.2 - first.1).
Definition make_hunk (ol nl : list string) (group : list DiffOp) : result Hunk :=
  first ← ctx "index out of bounds" (head group);
  last ← ctx "index out of bounds" (last group);
  old ← span (old_range first) (old_range last);
  new ← span (new_range first) (new_range last);
  lines ← collect (op_lines ol nl) group;
  Ok (mkHunk old new (funcname ol old.1) (concat lines)).
Definition print_hunk (h : Hunk) : string :=
  "@@ -" +:+ range (hk_old h).1 (hk_old h).2 +:+ " +" +:+ range (hk_new h).1 (hk_new h).2 +:+ " @@" +:+ hk_func h +:+ LF
  +:+ foldr (λ pl acc, push_line pl.1 pl.2 +:+ acc) "" (hk_lines h).
Definition make_hunks (old new : string) (context : nat) : result (list Hunk) :=
  let ol := split_lines old in
  let nl := split_lines new in
  collect (make_hunk ol nl) (group_ops (capture_diff ol nl) context).
Definition hunks (old new : string) (context : nat) : result string :=
  hs ← make_hunks old new context; Ok (foldr (λ h acc, print_hunk h +:+ acc) "" hs).

Definition old_label (fd : FileDiff) (opath : string) : string :=
  if is_some (df_old fd) then ab "a/" opath else "/dev/null".
Definition new_label (fd : FileDiff) (npath : string) : string :=
  if is_some (df_new fd) then ab "b/" npath else "/dev/null".
(** The part of a patch after its extended header. *)
Definition patch_body (fd : FileDiff) (opath npath s : string) (context : nat) : result string :=
  if diff_is_binary fd then
    Ok (s +:+ "Binary files " +:+ old_label fd opath +:+ " and " +:+ new_label fd npath +:+ " differ" +:+ LF)
  else
  let od := side_data (df_old fd) in
  let nd := side_data (df_new fd) in
  if is_empty od && is_empty nd then Ok s else
  h ← hunks od nd context;
  Ok (s +:+ "--- " +:+ old_label fd opath +:+ LF +:+ "+++ " +:+ new_label fd npath +:+ LF +:+ h).
Definition patch (fd : FileDiff) (context : nat) : result string :=
  let opath := match df_old fd with Some x => sd_path x | None => diff_path fd end in
  let npath := match df_new fd with Some x => sd_path x | None => diff_path fd end in
  let s := "diff --git " +:+ ab "a/" opath +:+ " " +:+ ab "b/" npath +:+ LF in
  match df_old fd, df_new fd with
  | None, Some n =>
      patch_body fd opath npath
        (s +:+ "new file mode " +:+ octal 6 (sd_mode n) +:+ LF +:+ patch_index_line None (Some n) None) context
  | Some o, None =>
      patch_body fd opath npath
        (s +:+ "deleted file mode " +:+ octal 6 (sd_mode o) +:+ LF +:+ patch_index_line (Some o) None None) context
  | Some o, Some n =>
      let s := if (sd_mode o =? sd_mode n)%Z then s
               else s +:+ "old mode " +:+ octal 6 (sd_mode o) +:+ LF +:+ "new mode " +:+ octal 6 (sd_mode n) +:+ LF in
      let s := if sd_path o == sd_path n then s
               else s +:+ "similarity index " +:+ dec (similarity fd) +:+ "%" +:+ LF +:+
                    "rename from " +:+ quote_path (sd_path o) +:+ LF +:+ "rename to " +:+ quote_path (sd_path n) +:+ LF in
      if negb (same o n) then
        patch_body fd opath npath
          (s +:+ patch_index_line (Some o) (Some n) (if (sd_mode o =? sd_mode n)%Z then Some (sd_mode n) else None)) context
      else Ok s
  | None, None => Ok s
  end.
End patch.

(** ** Interdiffs *)

Record DiffFile := mkDiffFile { fl_mode : Z; fl_bytes : string }.
#[export] Instance DiffFile_eq_dec : EqDecision DiffFile.
Proof. solve_decision. Defined.
Notation Files := (gmap string DiffFile).
Record Version := mkVersion { vs_state : StateRec; vs_parent : Files; vs_tree : Files }.
Record FileResult := mkFileResult {
  fr_path : string; fr_status : string; fr_added : nat; fr_removed : nat; fr_interdiff : string }.
Record Output := mkOutput {
  ot_change_id : string; ot_from : string; ot_to : string; ot_diff : string; ot_files : list FileResult }.

Definition side_of (path : string) (file : DiffFile) : Side :=
  let big := (file_type (fl_mode file) =? 32768)%Z && (MAX_TEXT <? str_len (fl_bytes file))%Z in
  mkSide path (fl_mode file) (if big then "" else fl_bytes file)
    (if big then Some (str_len (fl_bytes file)) else None).
Definition in_git (path : string) : bool := (path == ".git") || starts_with ".git/" path.
Definition path_diff (version : Version) (path : string) : option FileDiff :=
  if in_git path then None else
  let old := vs_parent version !! path in
  let new := vs_tree version !! path in
  if is_some_and old (λ a, is_some_and new (λ b, (fl_mode a =? fl_mode b)%Z && (fl_bytes a == fl_bytes b))) then None
  else Some (mkFileDiff (side_of path <$> old) (side_of path <$> new)).
Definition version_changes (version : Version) : list FileDiff :=
  filter_map (path_diff version)
    (members (list_to_set (keys (vs_parent version) ++ keys (vs_tree version)) : gset string)).

Section interdiff.
Context `{HE : Encodings, HS : Similar, HD : TextDiff}.

Definition patches (files : list FileDiff) : result (gmap string string) :=
  foldM (λ m file, p ← patch file 3; Ok (<[diff_path file := p]> m)) ∅ files.
Definition whole_patch (files : list FileDiff) : result string :=
  l ← collect (λ file, patch file 3) files; Ok (foldr String.append "" l).
Definition tag_count (tag : ChangeTag) (l : list ChangeTag) : nat :=
  length (filterb (λ t, match t, tag with
                        | TagInsert, TagInsert | TagDelete, TagDelete | TagEqual, TagEqual => true
                        | _, _ => false
                        end) l).
Definition file_result (from to_ : string) (a b : gmap string string) (path : string) : option FileResult :=
  let before := default "" (a !! path) in
  let after := default "" (b !! path) in
  if before == after then None else
  let tags := change_tags before after in
  Some (mkFileResult path
    (if is_none (a !! path) then "added" else if is_none (b !! path) then "removed" else "modified")
    (tag_count TagInsert tags) (tag_count TagDelete tags) (unified_diff before after from to_)).
Definition from_changes (change_id from to_ : string) (old new : list FileDiff) : result Output :=
  a ← patches old;
  b ← patches new;
  old_patch ← whole_patch old;
  new_patch ← whole_patch new;
  Ok (mkOutput change_id from to_ (unified_diff old_patch new_patch from to_)
    (filter_map (file_result from to_ a b) (members (list_to_set (keys a ++ keys b) : gset string)))).
Definition from_trees (change_id from to_ : string) (old new : Version) : result Output :=
  from_changes change_id from to_ (version_changes old) (version_changes new).
End interdiff.

(** * Properties *)

(** ** What the third-party diff promises

    The steps of a diff cover both lists of lines from the start to the end, and the lines of an
    equal step are equal. *)

Section alignment.
Context (a b : list string).

Inductive aligned : nat → nat → list DiffOp → nat → nat → Prop :=
| aligned_nil i j : aligned i j [] i j
| aligned_equal i j n ops i' j' :
    i + n ≤ length a → j + n ≤ length b → take n (drop i a) = take n (drop j b) →
    aligned (i + n) (j + n) ops i' j' → aligned i j (Equal i j n :: ops) i' j'
| aligned_delete i j n ops i' j' :
    i + n ≤ length a → aligned (i + n) j ops i' j' → aligned i j (Delete i n j :: ops) i' j'
| aligned_insert i j n ops i' j' :
    j + n ≤ length b → aligned i (j + n) ops i' j' → aligned i j (Insert i j n :: ops) i' j'
| aligned_replace i j n m ops i' j' :
    i + n ≤ length a → j + m ≤ length b →
    aligned (i + n) (j + m) ops i' j' → aligned i j (Replace i n j m :: ops) i' j'.

(** The groups of a diff, from a position in both lists: only equal lines lie between and after
    them. *)
Inductive spread : nat → nat → list (list DiffOp) → Prop :=
| spread_nil i j : drop i a = drop j b → spread i j []
| spread_cons i j n g i' j' gs :
    take n (drop i a) = take n (drop j b) → i + n ≤ length a → j + n ≤ length b → g ≠ [] →
    aligned (i + n) (j + n) g i' j' → spread i' j' gs → spread i j (g :: gs).
End alignment.

Class SimilarSpec (HS : Similar) : Prop := {
  capture_aligned a b : aligned a b 0 0 (capture_diff a b) (length a) (length b);
  groups_spread a b n : spread a b 0 0 (group_ops (capture_diff a b) n) }.

(** ** Hunks *)

Lemma slice_ok lines n : ∀ start,
  start + n ≤ length lines → slice lines start n = Ok (take n (drop start lines)).
Proof.
  unfold slice. induction n as [|n IH]; intros start Hl; [done|]. cbn [seq collect].
  destruct (lookup_lt_is_Some_2 lines start) as [x Hx]; [lia|]. rewrite Hx. rsimpl.
  rewrite IH by lia. rsimpl. by rewrite (drop_S _ _ _ Hx).
Qed.
Lemma take_drop_add {A} (l : list A) i n m : take (n + m) (drop i l) = take n (drop i l) ++ take m (drop (i + n) l).
Proof. rewrite <-drop_drop. symmetry. apply take_take_drop. Qed.

Definition old_side (lines : list (ascii * string)) : list string :=
  snd <$> filterb (λ pl : ascii * string, negb (Ascii.eqb pl.1 "+")) lines.
Definition new_side (lines : list (ascii * string)) : list string :=
  snd <$> filterb (λ pl : ascii * string, negb (Ascii.eqb pl.1 "-")) lines.
Lemma filterb_app {A} (p : A → bool) l k : filterb p (l ++ k) = filterb p l ++ filterb p k.
Proof. apply List.filter_app. Qed.
Lemma old_side_app l k : old_side (l ++ k) = old_side l ++ old_side k.
Proof. unfold old_side. by rewrite filterb_app, fmap_app. Qed.
Lemma new_side_app l k : new_side (l ++ k) = new_side l ++ new_side k.
Proof. unfold new_side. by rewrite filterb_app, fmap_app. Qed.
Lemma side_marked (p : ascii * string → bool) (mark : ascii) (keep : bool) l :
  (∀ x, p (mark, x) = keep) → snd <$> filterb p (mark_lines mark l) = if keep then l else [].
Proof.
  intros Hp. unfold mark_lines. induction l as [|x l IH]; csimpl; [by destruct keep|]. rewrite Hp.
  destruct keep; csimpl; [by rewrite IH|done].
Qed.

(** A group of steps between two positions: its mark_lines lines exist, and their two sides are the
    lines that lie between the positions. *)
Lemma group_lines ol nl i j g i' j' :
  aligned ol nl i j g i' j' →
  ∃ l, collect (op_lines ol nl) g = Ok l ∧ i ≤ i' ∧ j ≤ j' ∧ (i ≤ length ol → i' ≤ length ol) ∧
    (j ≤ length nl → j' ≤ length nl) ∧
    old_side (concat l) = take (i' - i) (drop i ol) ∧ new_side (concat l) = take (j' - j) (drop j nl).
Proof.
  assert (∀ {A} (l : list A) i n i', i + n ≤ i' → take (i' - i) (drop i l) = take n (drop i l) ++ take (i' - (i + n)) (drop (i + n) l)) as Ht.
  { intros A l i0 n i0' ?. rewrite <-take_drop_add. f_equal. lia. }
  assert (∀ l, old_side (mark_lines " " l) = l ∧ new_side (mark_lines " " l) = l ∧ old_side (mark_lines "-" l) = l ∧
    new_side (mark_lines "-" l) = [] ∧ old_side (mark_lines "+" l) = [] ∧ new_side (mark_lines "+" l) = l) as Hm.
  { intros l. unfold old_side, new_side. split_and!; first [by apply (side_marked _ _ true)|by apply (side_marked _ _ false)]. }
  induction 1 as [i j|i j n ops i' j' Ha Hb E _ IH|i j n ops i' j' Ha _ IH|i j n ops i' j' Hb _ IH|i j n m ops i' j' Ha Hb _ IH].
  { exists []. rewrite !Nat.sub_diag. by split_and!. }
  all: destruct IH as (l & Hc & Hi & Hj & Hla & Hlb & Ho & Hn); cbn [collect op_lines];
    rewrite ?slice_ok by done; rsimpl; rewrite ?slice_ok by done; rsimpl; rewrite Hc; rsimpl; eexists;
    (split; [done|]); (split; [lia|]); (split; [lia|]); (split; [auto with lia|]); (split; [auto with lia|]);
    cbn [concat]; rewrite ?old_side_app, ?new_side_app, Ho, Hn;
    rewrite ?(proj1 (Hm _)), ?(proj1 (proj2 (Hm _))), ?(proj1 (proj2 (proj2 (Hm _)))),
      ?(proj1 (proj2 (proj2 (proj2 (Hm _))))), ?(proj1 (proj2 (proj2 (proj2 (proj2 (Hm _)))))),
      ?(proj2 (proj2 (proj2 (proj2 (proj2 (Hm _)))))); cbn [app]; rewrite ?app_nil_r.
  - split; [by rewrite (Ht _ ol i n) by lia|]. rewrite E. by rewrite (Ht _ nl j n) by lia.
  - split; [by rewrite (Ht _ ol i n) by lia|done].
  - split; [done|by rewrite (Ht _ nl j n) by lia].
  - split; [by rewrite (Ht _ ol i n) by lia|by rewrite (Ht _ nl j m) by lia].
Qed.
Lemma aligned_head a b i j g i' j' op :
  aligned a b i j g i' j' → head g = Some op → (old_range op).1 = i ∧ (new_range op).1 = j.
Proof. by destruct 1; simpl; intros [= <-]. Qed.
Lemma aligned_last a b i j g i' j' op :
  aligned a b i j g i' j' → last g = Some op → (old_range op).2 = i' ∧ (new_range op).2 = j'.
Proof.
  induction 1 as [i j|i j n ops i' j' Ha Hb E Hal IH|i j n ops i' j' Ha Hal IH|i j n ops i' j' Hb Hal IH|i j n m ops i' j' Ha Hb Hal IH];
    [done|..]; (destruct ops as [|op' ops]; [intros [= <-]; by inversion Hal|]); intros Hl; by apply IH.
Qed.

Lemma make_hunk_ok `{HE : Encodings, HS : Similar} ol nl i j g i' j' :
  aligned ol nl i j g i' j' → g ≠ [] → i ≤ length ol → j ≤ length nl →
  ∃ h, make_hunk ol nl g = Ok h ∧ hk_old h = (i, i' - i) ∧ hk_new h = (j, j' - j) ∧
    old_side (hk_lines h) = take (i' - i) (drop i ol) ∧ new_side (hk_lines h) = take (j' - j) (drop j nl) ∧
    i ≤ i' ≤ length ol ∧ j ≤ j' ≤ length nl.
Proof.
  intros Hal Hg Hi Hj. destruct (group_lines _ _ _ _ _ _ _ Hal) as (l & Hc & Hii & Hjj & Hio & Hjn & Ho & Hn).
  unfold make_hunk. destruct (head g) as [first|] eqn:Eh; [|by destruct g].
  destruct (last g) as [lst|] eqn:El; [|by apply last_None in El]. rsimpl.
  destruct (aligned_head _ _ _ _ _ _ _ _ Hal Eh) as [Ho1 Hn1].
  destruct (aligned_last _ _ _ _ _ _ _ _ Hal El) as [Ho2 Hn2].
  unfold span. rewrite Ho1, Ho2, Hn1, Hn2.
  rewrite (proj2 (Nat.ltb_ge i' i)), (proj2 (Nat.ltb_ge j' j)) by lia. rsimpl. rewrite Hc. rsimpl.
  eexists. split; [done|]. simpl. split_and!; try done; auto with lia.
Qed.
Lemma make_hunk_total `{HE : Encodings, HS : Similar} ol nl i j gs :
  spread ol nl i j gs → ∃ hs, collect (make_hunk ol nl) gs = Ok hs.
Proof.
  induction 1 as [i j E|i j n g i' j' gs E Hi Hj Hg Hal Hsp IH]; [by exists []|].
  destruct (make_hunk_ok _ _ _ _ _ _ _ Hal Hg Hi Hj) as (h & Hh & _). destruct IH as [hs Hhs].
  exists (h :: hs). cbn [collect]. rewrite Hh. rsimpl. by rewrite Hhs.
Qed.

(** ** Lines *)

Lemma split_lines_go_concat d : ∀ line, foldr String.append "" (split_lines_go line d) = line +:+ d.
Proof.
  induction d as [|c d IH]; intros line; cbn [split_lines_go].
  - unfold is_empty. destruct (eqb line "") eqn:E; simpl; [|done]. by apply eqb_eq in E as ->.
  - destruct (Ascii.eqb c (byte_of 10)); simpl; rewrite IH; rewrite ?str_app_assoc; done.
Qed.
Lemma split_lines_concat d : foldr String.append "" (split_lines d) = d.
Proof. apply split_lines_go_concat. Qed.

Lemma counts_aligned a b i j g i' j' : aligned a b i j g i' j' → ∀ x r,
  (foldl count_op (x, r) g).1 + r + j + i' = (foldl count_op (x, r) g).2 + x + i + j'.
Proof.
  induction 1 as [i j|i j n ops i' j' Ha Hb E _ IH|i j n ops i' j' Ha _ IH|i j n ops i' j' Hb _ IH|i j n m ops i' j' Ha Hb _ IH];
    intros x r; simpl; [lia|..]; match goal with |- context [foldl count_op ?s ops] => specialize (IH s.1 s.2); simpl in IH end; lia.
Qed.

(** ** Quoted paths *)

(** Reading a path as git does: a quoted one is decoded up to its closing quote. *)
Definition octal_value (d e f : ascii) : option ascii :=
  let v := (64 * (byte_val d - 48) + 8 * (byte_val e - 48) + (byte_val f - 48))%Z in
  if byte_between 48 51 d && byte_between 48 55 e && byte_between 48 55 f then Some (byte_of v) else None.
Fixpoint unquote_bytes (s : string) : option string :=
  match s with
  | "" => None
  | String c s =>
      if (byte_val c =? 34)%Z then (if is_empty s then Some "" else None)
      else if (byte_val c =? 92)%Z then
        match s with
        | "" => None
        | String d s =>
            if (byte_val d =? 34)%Z || (byte_val d =? 92)%Z then String d <$> unquote_bytes s
            else if Ascii.eqb d "n" then String (byte_of 10) <$> unquote_bytes s
            else if Ascii.eqb d "t" then String (byte_of 9) <$> unquote_bytes s
            else
              match s with
              | String e (String f s) => b ← octal_value d e f; String b <$> unquote_bytes s
              | _ => None
              end
        end
      else String c <$> unquote_bytes s
  end.
Definition unquote (s : string) : option string :=
  match s with
  | String c s' => if (byte_val c =? 34)%Z then unquote_bytes s' else Some s
  | "" => Some ""
  end.

Lemma unquote_quote_byte c r : unquote_bytes (quote_byte c +:+ r) = String c <$> unquote_bytes r.
Proof. destruct c as [[] [] [] [] [] [] [] []]; reflexivity. Qed.
Lemma unquote_quote_bytes p : unquote_bytes (quote_bytes p +:+ QUOTE) = Some p.
Proof.
  induction p as [|c p IH]; [done|]. cbn [quote_bytes]. rewrite str_app_assoc, unquote_quote_byte, IH. done.
Qed.
Lemma chars_quote s : utf8_valid (String (byte_of 34) s) = true → existsb needs_quotes (chars (String (byte_of 34) s)) = true.
Proof.
  unfold utf8_valid, chars. cbn [utf8_chars]. change (byte_val (byte_of 34)) with 34%Z.
  destruct (utf8_chars s); done.
Qed.
Lemma unquote_quote_path p : utf8_valid p = true → unquote (quote_path p) = Some p.
Proof.
  unfold quote_path. intros Hv. destruct (existsb _ _) eqn:E.
  - apply unquote_quote_bytes.
  - destruct p as [|c p]; [done|]. cbn [unquote]. destruct (Z.eqb_spec (byte_val c) 34) as [Hc|]; [|done].
    rewrite <-(byte_of_val c), Hc in Hv, E. by rewrite chars_quote in E.
Qed.

(** ** Versions *)

(** A path that a version changes, and its patch. *)
Definition touched (v : Version) (path : string) : bool :=
  negb (in_git path) && negb (vs_parent v !! path == vs_tree v !! path).
Definition touched_diff (v : Version) (path : string) : FileDiff :=
  mkFileDiff (side_of path <$> vs_parent v !! path) (side_of path <$> vs_tree v !! path).
Definition version_paths (v : Version) : list string :=
  members (list_to_set (keys (vs_parent v) ++ keys (vs_tree v)) : gset string).

Lemma elem_of_union_keys {V} (a b : gmap string V) path :
  path ∈ members (list_to_set (keys a ++ keys b) : gset string) ↔ is_Some (a !! path) ∨ is_Some (b !! path).
Proof.
  unfold members. by rewrite elem_of_sort_by, elem_of_elements, elem_of_list_to_set, elem_of_app, !elem_of_keys.
Qed.
Lemma path_diff_touched v path :
  path ∈ version_paths v → path_diff v path = if touched v path then Some (touched_diff v path) else None.
Proof.
  intros Hp%elem_of_union_keys. unfold path_diff, touched, touched_diff.
  destruct (in_git path); [done|]. cbn [negb andb].
  assert (∀ a b : DiffFile, (fl_mode a =? fl_mode b)%Z && (fl_bytes a == fl_bytes b) = (a == b)) as He.
  { intros [m x] [m' x']. simpl. apply eq_true_iff_eq. rewrite andb_true_iff, Z.eqb_eq, !eqb_true. naive_solver. }
  destruct (vs_parent v !! path) as [a|] eqn:Ea, (vs_tree v !! path) as [b|] eqn:Eb; simpl; try done.
  - rewrite He. replace (Some a == Some b) with (a == b); [by destruct (eqb a b)|].
    apply eq_true_iff_eq. rewrite !eqb_true. naive_solver.
  - destruct Hp as [[? [=]]|[? [=]]].
Qed.
Lemma touched_path v path : touched v path = true → diff_path (touched_diff v path) = path ∧ path ∈ version_paths v.
Proof.
  unfold touched. intros [_ Hne%negb_true_iff%eqb_ne]%andb_true_iff. unfold diff_path, touched_diff, or_else. simpl.
  destruct (vs_tree v !! path) eqn:Eb, (vs_parent v !! path) eqn:Ea; simpl; split; try done;
    apply elem_of_union_keys; rewrite ?Ea, ?Eb; eauto.
Qed.
Lemma elem_of_version_changes v fd :
  fd ∈ version_changes v ↔ ∃ path, touched v path = true ∧ fd = touched_diff v path.
Proof.
  unfold version_changes. fold (version_paths v). rewrite list_elem_of_omap. split.
  - intros (path & Hp & Hd). rewrite path_diff_touched in Hd by done. destruct (touched v path) eqn:E; [|done].
    injection Hd as <-. eauto.
  - intros (path & Ht & ->). exists path. destruct (touched_path _ _ Ht) as [_ Hp].
    split; [done|]. by rewrite path_diff_touched, Ht.
Qed.

Section interdiff_facts.
Context `{HE : Encodings, HS : Similar, !SimilarSpec HS, HD : TextDiff}.

Lemma make_hunks_total old new context : ∃ hs, make_hunks old new context = Ok hs.
Proof. apply (make_hunk_total _ _ 0 0), groups_spread. Qed.
Lemma patch_total fd context : ∃ s, patch fd context = Ok s.
Proof.
  assert (∀ opath npath s, ∃ t, patch_body fd opath npath s context = Ok t) as Hb.
  { intros opath npath s. unfold patch_body, hunks. destruct (diff_is_binary fd); [by eexists|].
    destruct (_ && _); [by eexists|]. destruct (make_hunks_total (side_data (df_old fd)) (side_data (df_new fd)) context)
      as [hs ->]. by eexists. }
  unfold patch. destruct (df_old fd), (df_new fd); try apply Hb; [|by eexists]. destruct (negb _); [apply Hb|by eexists].
Qed.
Definition patch_of (fd : FileDiff) : string := default "" (ok (patch fd 3)).
Lemma patch_of_ok fd : patch fd 3 = Ok (patch_of fd).
Proof. unfold patch_of. by destruct (patch_total fd 3) as [s ->]. Qed.

(** The patch of a version at a path. *)
Definition patch_at (v : Version) (path : string) : option string :=
  if touched v path then Some (patch_of (touched_diff v path)) else None.
Lemma patches_version v : ∃ m, patches (version_changes v) = Ok m ∧ ∀ path, m !! path = patch_at v path.
Proof.
  unfold patches. destruct (foldM_progress (λ pre (m : gmap string string), ∀ path s,
      m !! path = Some s ↔ ∃ fd, fd ∈ pre ∧ diff_path fd = path ∧ s = patch_of fd ∧ fd ∈ version_changes v)
    (λ m file, p ← patch file 3; Ok (<[diff_path file := p]> m)) ∅ (version_changes v)) as (m & -> & Hm).
  - intros path s. rewrite lookup_empty. split; [done|]. by intros (fd & ?%not_elem_of_nil & _).
  - intros pre fd post m E Hm. rewrite patch_of_ok. rsimpl. eexists. split; [done|]. intros path s.
    assert (fd ∈ version_changes v) as Hfd by (rewrite E; set_solver).
    destruct (decide (diff_path fd = path)) as [<- |Hne].
    + rewrite lookup_insert_eq. split.
      * intros [= <-]. exists fd. split_and!; try done. set_solver.
      * intros (fd' & _ & Hp & -> & Hin). do 2 f_equal.
        apply elem_of_version_changes in Hin as (q & Hq & ->), Hfd as (q' & Hq' & ->).
        destruct (touched_path _ _ Hq) as [E1 _], (touched_path _ _ Hq') as [E2 _]. congruence.
    + rewrite lookup_insert_ne by done. rewrite Hm. split.
      * intros (fd' & ? & ? & ?). exists fd'. split; [set_solver|done].
      * intros (fd' & Hin & Hp & ?). exists fd'. split; [|done]. apply elem_of_app in Hin as [?|?%list_elem_of_singleton]; [done|].
        congruence.
  - exists m. split; [done|]. intros path. unfold patch_at. apply option_eq. intros s. rewrite Hm.
    destruct (touched v path) eqn:E.
    + split.
      * intros (fd & _ & Hp & -> & Hin). apply elem_of_version_changes in Hin as (q & Hq & ->).
        destruct (touched_path _ _ Hq) as [E1 _]. congruence.
      * intros [= <-]. exists (touched_diff v path). destruct (touched_path _ _ E) as [E1 _].
        assert (touched_diff v path ∈ version_changes v) by (apply elem_of_version_changes; eauto). done.
    + split; [|done]. intros (fd & _ & Hp & -> & Hin). apply elem_of_version_changes in Hin as (q & Hq & ->).
      destruct (touched_path _ _ Hq) as [E1 _]. congruence.
Qed.
Lemma whole_patch_total files : ∃ s, whole_patch files = Ok s.
Proof.
  unfold whole_patch. assert (∃ l, collect (λ file, patch file 3) files = Ok l) as [l ->]; [|by eexists].
  induction files as [|fd files [l IH]]; [by eexists|]. cbn [collect]. rewrite patch_of_ok. rsimpl. rewrite IH. by eexists.
Qed.
(** The text of the patch at a path, empty where the version changes nothing. *)
Definition patch_text (v : Version) (path : string) : string := default "" (patch_at v path).
Lemma file_result_path from to_ a b path r : file_result from to_ a b path = Some r → fr_path r = path.
Proof. unfold file_result. destruct (eqb _ _); [done|]. by intros [= <-]. Qed.
Lemma file_results_sublist from to_ a b l : sublist (fr_path <$> filter_map (file_result from to_ a b) l) l.
Proof.
  unfold filter_map. induction l as [|path l IH]; [constructor|]. cbn [omap list_omap].
  destruct (file_result from to_ a b path) as [r|] eqn:E; csimpl; [|by constructor].
  rewrite (file_result_path _ _ _ _ _ _ E). by constructor.
Qed.
End interdiff_facts.

(** A diff that replaces all lines at once has what is promised. *)
Definition similar_plain : Similar := {|
  capture_diff a b := if bool_decide (a = b) then [Equal 0 0 (length a)] else [Replace 0 (length a) 0 (length b)];
  group_ops ops _ := match ops with [Equal _ _ _] => [] | _ => [ops] end;
  diff_ratio _ _ _ := S754_zero false; change_tags _ _ := [TagInsert]; sha1 := fit 20 |}.
#[export] Instance similar_plain_spec : SimilarSpec similar_plain.
Proof.
  split.
  - intros a b. simpl. case_bool_decide as E; [subst b; apply aligned_equal|apply aligned_replace]; try done; constructor.
  - intros a b n. simpl. case_bool_decide as E; [subst b; by constructor|].
    apply (spread_cons _ _ 0 0 0 _ (length a) (length b)); try done; [lia|lia| |].
    + apply aligned_replace; try done; constructor.
    + constructor. by rewrite !drop_all.
Qed.

(** ** Main results *)

(** C38. An interdiff lists exactly the paths at which the patches of two versions differ, in order,
    each once: it never fails, a path that both versions leave as in their own parents stays out, and
    the status tells which of the versions change the path. *)
Theorem interdiff_exact `{HE : Encodings, HS : Similar, !SimilarSpec HS, HD : TextDiff} change_id from to_ old new :
  ∃ out, from_trees change_id from to_ old new = Ok out ∧
    StronglySorted (λ a b, clt a b = true) (fr_path <$> ot_files out) ∧
    (∀ path, path ∈ fr_path <$> ot_files out ↔ patch_text old path ≠ patch_text new path) ∧
    ∀ r, r ∈ ot_files out →
      fr_status r = (if touched old (fr_path r) then if touched new (fr_path r) then "modified" else "removed" else "added") ∧
      fr_interdiff r = unified_diff (patch_text old (fr_path r)) (patch_text new (fr_path r)) from to_.
Proof.
  destruct (patches_version old) as (a & Ha & Hla). destruct (patches_version new) as (b & Hb & Hlb).
  destruct (whole_patch_total (version_changes old)) as [po Hpo].
  destruct (whole_patch_total (version_changes new)) as [pn Hpn].
  unfold from_trees, from_changes. rewrite Ha, Hb, Hpo, Hpn. rsimpl. eexists. split; [done|]. cbn [ot_files].
  set (l := members _).
  assert (∀ r, r ∈ filter_map (file_result from to_ a b) l → file_result from to_ a b (fr_path r) = Some r) as Hr.
  { intros r (path & _ & E)%list_elem_of_omap. pose proof (file_result_path _ _ _ _ _ _ E) as Ep. by rewrite Ep. }
  assert (∀ path, patch_text old path = default "" (a !! path) ∧ patch_text new path = default "" (b !! path)) as Ht.
  { intros path. unfold patch_text. by rewrite Hla, Hlb. }
  split; [|split].
  - eapply StronglySorted_sublist; [apply file_results_sublist|apply members_strict].
  - intros path. destruct (Ht path) as [-> ->]. rewrite list_elem_of_fmap. split.
    + intros (r & -> & Hin%Hr). unfold file_result in Hin. destruct (eqb _ _) eqn:E; [done|]. by apply eqb_ne in E.
    + intros Hne. destruct (file_result from to_ a b path) as [r|] eqn:E.
      * exists r. split; [by erewrite file_result_path|]. apply list_elem_of_omap. exists path. split; [|done].
        apply elem_of_union_keys. destruct (a !! path), (b !! path); simpl in Hne; [eauto..|done].
      * unfold file_result in E. destruct (eqb _ _) eqn:E'; [|done]. by apply eqb_eq in E'.
  - intros r Hin%Hr. destruct (Ht (fr_path r)) as [-> ->]. unfold file_result in Hin.
    destruct (eqb _ _); [done|]. apply (f_equal (λ o, (fr_status <$> o, fr_interdiff <$> o))) in Hin.
    simpl in Hin. injection Hin as <- <-. split; [|done]. rewrite Hla, Hlb. unfold patch_at.
    by destruct (touched old _), (touched new _).
Qed.
Definition text_diff_plain : TextDiff := λ a b _ _, a +:+ b.
Definition version_of (text : string) : Version :=
  mkVersion sample_state {["base" := mkDiffFile 33188 "same"]} {["base" := mkDiffFile 33188 "same"; "feature" := mkDiffFile 33188 text]}.
Lemma interdiff_exact_witness :
  ∃ out, @from_trees encodings_hex similar_plain text_diff_plain "c" "v1" "v2" (version_of "one") (version_of "two") = Ok out ∧
    ∀ path, path ∈ fr_path <$> ot_files out ↔
      @patch_text encodings_hex similar_plain (version_of "one") path ≠
      @patch_text encodings_hex similar_plain (version_of "two") path.
Proof.
  destruct (@interdiff_exact encodings_hex similar_plain _ text_diff_plain "c" "v1" "v2" (version_of "one") (version_of "two"))
    as (out & H & _ & Hp & _).
  exists out. split; [exact H|exact Hp].
Defined.
