(* ===== verification/Probes.v ===== *)
(** Probes ([layr-model/src/probes.rs]): their definitions, the stored results of their runs, and the
    comparison of files, JSON values and metrics that two runs left. The line diff is third-party
    code and a parameter. *)

From S2P Require Import Prelude Strs Json F64 Canonical Types Extern Format Validation Project Queries Evidence.

(** ** Definitions of probes *)

Inductive Kind := KFiles | KJson | KNumber | KScreenshots.
#[export] Instance Kind_eq_dec : EqDecision Kind.
Proof. solve_decision. Defined.
Record Probe := mkProbe {
  pr_run : list string; pr_outputs : list string; pr_kind : Kind; pr_noise : f64;
  pr_fail_over : option f64; pr_tolerance : Z; pr_ignore_attributes : list string }.
#[export] Instance Probe_eq_dec : EqDecision Probe.
Proof. solve_decision. Defined.

Definition default_tolerance : Z := 8.
Definition is_default_tolerance (value : Z) : bool := (value =? default_tolerance)%Z.
Definition default_ignore_attributes : list string :=
  ["bounds"; "frame"; "x"; "y"; "width"; "height"; "left"; "top"; "right"; "bottom"].
Definition is_default_ignore_attributes (value : list string) : bool := value == default_ignore_attributes.
(** [0.05]: the nearest double. *)
Definition default_noise : f64 := f64_div (f64_of_Z 5) (f64_of_Z 100).

Definition Kind_name (k : Kind) : string :=
  match k with KFiles => "files" | KJson => "json" | KNumber => "number" | KScreenshots => "screenshots" end.
Definition Kind_from_value : json → result Kind :=
  de_variant [("files", KFiles); ("json", KJson); ("number", KNumber); ("screenshots", KScreenshots)].
Definition de_f64 (j : json) : result f64 := ctx "invalid type, expected f64" (as_f64 j).
Definition de_u8 : json → result Z := de_int (λ z, (0 <=? z)%Z && (z <=? 255)%Z).
Definition Probe_to_value (p : Probe) : json :=
  ser_struct [("run", Some (JArray (JString <$> pr_run p))); ("outputs", Some (JArray (JString <$> pr_outputs p)));
    ("kind", Some (JString (Kind_name (pr_kind p)))); ("noise", Some (f64_value (pr_noise p)));
    ("fail_over", f64_value <$> pr_fail_over p);
    ("tolerance", if is_default_tolerance (pr_tolerance p) then None else Some (JInt (pr_tolerance p)));
    ("ignore_attributes", if is_default_ignore_attributes (pr_ignore_attributes p) then None
                          else Some (JArray (JString <$> pr_ignore_attributes p)))].
Definition Probe_from_value (j : json) : result Probe :=
  f ← de_struct ["run"; "outputs"; "kind"; "noise"; "fail_over"; "tolerance"; "ignore_attributes"] [] true j;
  run ← f_req (de_vec de_string) f "run"; outputs ← f_req (de_vec de_string) f "outputs";
  kind ← f_def Kind_from_value KFiles f "kind"; noise ← f_def de_f64 default_noise f "noise";
  fail_over ← f_def (de_option de_f64) None f "fail_over";
  tolerance ← f_def de_u8 default_tolerance f "tolerance";
  ignore_attributes ← f_def (de_vec de_string) default_ignore_attributes f "ignore_attributes";
  Ok (mkProbe run outputs kind noise fail_over tolerance ignore_attributes).

Definition nul : ascii := byte_of 0.
Definition probe_name (name : string) : bool :=
  match name with
  | "" => false
  | String c _ => (str_len name <=? 128)%Z && is_ascii_alphanumeric c
      && all_bytes (λ b, is_ascii_lowercase b || is_ascii_digit b || has_byte b "._-") name
  end.
Definition output_path (path : string) : bool :=
  negb (is_empty path || starts_with "/" path || has_byte nul path
        || existsb (λ p, is_empty p || (p == ".git") || (p == ".") || (p == "..")) (split "/" path)).
(** A threshold that is finite and not negative. *)
Definition threshold (x : f64) : bool := is_finite x && negb (f64_lt x (f64_of_Z 0)).
Definition Probe_validate (p : Probe) (name : string) : result () :=
  bail_if (negb (probe_name name)) "invalid probe name";;
  bail_if (match pr_run p with
           | [] => true
           | arg :: _ => is_empty arg || existsb (has_byte nul) (pr_run p)
           end) "probe '{name}': run must be a nonempty argv array without NUL";;
  bail_if (if pr_outputs p is [] then true else false)
    "probe '{name}': outputs must contain a file or folder path";;
  for_each (λ path, bail_if (negb (output_path path)) "probe '{name}': invalid output path '{path}'")
    (pr_outputs p);;
  bail_if (negb (threshold (pr_noise p))) "probe '{name}': noise must be a finite nonnegative relative threshold";;
  bail_if (is_some_and (pr_fail_over p) (λ n, negb (threshold n)))
    "probe '{name}': fail_over must be a finite nonnegative relative limit".

(** ** Runs *)

Record RunResult := mkRunResult {
  rr_probe : string; rr_subject : Subject; rr_argv : list string; rr_exit : Z;
  rr_output_state : string; rr_reused : bool }.
Definition RunResult_from_value (j : json) : result RunResult :=
  f ← de_struct ["probe"; "subject"; "argv"; "exit"; "output_state"; "reused"] [] false j;
  probe ← f_req de_string f "probe"; subject ← f_req Subject_from_value f "subject";
  argv ← f_req (de_vec de_string) f "argv"; exit ← f_req (de_int in_i32) f "exit";
  output_state ← f_req de_string f "output_state"; reused ← f_req de_bool f "reused";
  Ok (mkRunResult probe subject argv exit output_state reused).

(** What the store reader supplies. *)
Record ProbeContext := mkProbeContext {
  pc_now : Z; pc_definitions : gmap string (gmap string Probe);
  pc_outputs : gmap string (gmap string string); pc_sources : gmap string string }.
Definition source (c : ProbeContext) (subject : string) : string :=
  default "source unavailable" (pc_sources c !! subject).

Section runs.
Context `{HU : Uuid, HE : Encodings, HC : Crypto, HJ : JsonText, HL : Unicode}.

(** The check results of a subject that are not revoked, by the id of their attestation. *)
Definition active_records (p : Project) (subject : Subject) : gmap string LogRecord :=
  foldl (λ m ir, <[ir.1 := ir.2]> m) ∅
    (filter_map (λ ia, record ← p_records p !! ia.1; Some (at_attestation_id ia.2, record))
       (filterb (λ ia : nat * Attestation, (at_kind ia.2 == "check") && (at_subject ia.2 == subject)
                   && negb (is_revoked p (at_attestation_id ia.2))) (p_attestations p))).

(** The definitions that one check result carries. *)
Definition collect_definitions (definitions : gmap string Probe) (record : LogRecord) : gmap string Probe :=
  let result := (r_data record).["check"] in
  let definitions :=
    match de_map Probe_from_value result.["probes"] with
    | Ok manifest =>
        foldl (λ m np, <[np.1 := np.2]> m) definitions
          (filterb (λ np : string * Probe, is_ok (Probe_validate np.2 np.1)) (entries manifest))
    | Err _ => definitions
    end in
  match as_str result.["probe"], Probe_from_value result.["definition"] with
  | Some name, Ok definition =>
      if is_ok (Probe_validate definition name) then <[name := definition]> definitions else definitions
  | _, _ => definitions
  end.
Definition probe_definitions (c : ProbeContext) (p : Project) (subject : Subject) : gmap string Probe :=
  if source c (su_id subject) == "available" then default ∅ (pc_definitions c !! su_id subject)
  else foldl collect_definitions ∅ (values (active_records p subject)).

(** The result of one record, when it is a run of this probe whose outputs are at hand. *)
Definition run_of (p : Project) (subject : Subject) (name : string) (definition : Probe) (c : ProbeContext)
    (root : option RefState) (rec : LogRecord) : option RunResult :=
  let r := (r_data rec).["check"] in
  if negb (as_str r.["probe"] == Some name) || negb (r.["definition"] == Probe_to_value definition) then None
  else
  run ← ok (RunResult_from_value r);
  if negb (rr_subject run == subject) || negb (rr_argv run == pr_run definition)
     || negb ((rs_target <$> root) == Some (rr_output_state run)) then None
  else
  state ← state p (rr_output_state run);
  if negb (st_kind state == Derived) || negb (st_context state == Some ("probe-v1/" +:+ name))
     || negb (st_derived_from state == Some (su_id subject))
     || negb (is_some (pc_outputs c !! rr_output_state run)) then None
  else Some (mkRunResult (rr_probe run) (rr_subject run) (rr_argv run) (rr_exit run) (rr_output_state run) true).
Definition stored (p : Project) (subject : Subject) (name : string) (definition : Probe) (c : ProbeContext)
    : result (option RunResult) :=
  if is_none (check_exit p (su_id subject) (pr_run definition) None) then Ok None else
  let reference := "derived/probe-v1/" +:+ name +:+ "/" +:+ su_id subject in
  let root := find (λ r, rs_name r == reference) (ref_list p reference (pc_now c)) in
  Ok (foldl (λ latest rec, match run_of p subject name definition c root rec with
                           | Some r => Some r
                           | None => latest
                           end) None (values (active_records p subject))).
End runs.

(** ** Comparison of outputs *)

Record FileData := mkFileData { fd_size : Z; fd_sha256 : string; fd_text : option string }.
Definition FileData_to_value (f : FileData) : json :=
  ser_struct [("size", Some (JInt (fd_size f))); ("sha256", Some (JString (fd_sha256 f)))].

Section compare.
Context `{HE : Encodings, HC : Crypto, HJ : JsonText, HD : TextDiff}.

Definition file_data (bytes : string) : FileData :=
  mkFileData (str_len bytes) (hex_encode (sha256 bytes))
    (if (str_len bytes <=? Z.shiftl 64 20)%Z && negb (has_byte nul (String.substring 0 (Z.to_nat 8000) bytes)) && utf8_valid bytes
     then Some bytes else None).
Definition files (input : gmap string string) : gmap string FileData := file_data <$> input.

(** [key.replace('~', "~0").replace('/', "~1")]. *)
Fixpoint escape_pointer (key : string) : string :=
  match key with
  | "" => ""
  | String c key =>
      (if Ascii.eqb c "~" then "~0" else if Ascii.eqb c "/" then "~1" else String c "") +:+ escape_pointer key
  end.
(** One difference: the pointer to it and the values on both sides. *)
Definition Delta : Type := string * option json * option json.
(** [json_changes] where the left side is present, by recursion on it. *)
Fixpoint value_changes (a : json) : option json → string → list Delta :=
  match a with
  | JObject ma =>
      let subs := map (λ kv, (kv.1, value_changes kv.2)) ma in
      λ b path,
        if b == Some a then [] else
        match b with
        | Some (JObject mb) =>
            flat_map (λ key,
              let path := path +:+ "/" +:+ escape_pointer key in
              match jlookup key subs with
              | Some changes => changes (jlookup key mb) path
              | None => [(path, None, jlookup key mb)]
              end) (members (list_to_set (ma.*1 ++ mb.*1) : gset string))
        | _ => [(path, Some a, b)]
        end
  | JArray la =>
      let subs := map value_changes la in
      λ b path,
        if b == Some a then [] else
        match b with
        | Some (JArray lb) =>
            flat_map (λ i,
              let path := path +:+ "/" +:+ dec (Z.of_nat i) in
              match subs !! i with
              | Some changes => changes (lb !! i) path
              | None => [(path, None, lb !! i)]
              end) (seq 0 (Nat.max (length la) (length lb)))
        | _ => [(path, Some a, b)]
        end
  | _ => λ b path, if b == Some a then [] else [(path, Some a, b)]
  end.
Definition deltas (a b : option json) (path : string) : list Delta :=
  match a with
  | Some a => value_changes a b path
  | None => if is_none b then [] else [(path, None, b)]
  end.
Definition delta_row (d : Delta) : json :=
  let '(path, a, b) := d in
  ser_struct [("key", Some (JString path));
    ("change", Some (JString (if is_none a then "add" else if is_none b then "remove" else "modify")));
    ("before", Some (default JNull a)); ("after", Some (default JNull b))].
Definition json_changes (a b : option json) (path : string) : list json := delta_row <$> deltas a b path.

Definition metrics (value : json) : result (gmap string f64) :=
  object ← ctx "expected an object of numeric metrics" (as_object value);
  l ← collect (λ kv : string * json,
        n ← ctx "metric '{key}' must be a finite number"
              (n ← as_f64 kv.2; if is_finite n then Some n else None);
        Ok (kv.1, n)) object;
  Ok (list_to_map (reverse l)).
Definition option_metrics (value : option json) : result (gmap string f64) :=
  match value with Some v => metrics v | None => Ok ∅ end.
(** The relative change from [a] to [b]. *)
Definition relative_change (a b : f64) : option f64 :=
  if f64_eq a (f64_of_Z 0) then None else Some (f64_div (f64_sub b a) (f64_abs a)).
Definition same_metric (old new : option f64) : bool :=
  match old, new with Some a, Some b => f64_eq a b | None, None => true | _, _ => false end.
Definition metric_row (a b : gmap string f64) (noise : f64) (metric : string) : option json :=
  let old := a !! metric in
  let new := b !! metric in
  if same_metric old new then None else
  let relative := x ← old; y ← new; relative_change x y in
  if is_some_and relative (λ r, f64_le (f64_abs r) noise) then None else
  Some (ser_struct [("metric", Some (JString metric)); ("before", Some (ser_option f64_value old));
    ("after", Some (ser_option f64_value new)); ("relative_change", Some (ser_option f64_value relative));
    ("noise", Some (f64_value noise))]).
Definition number_changes (a b : option json) (noise : f64) : result (list json) :=
  a ← option_metrics a;
  b ← option_metrics b;
  Ok (filter_map (metric_row a b noise) (members (list_to_set (keys a ++ keys b) : gset string))).

Definition parse_data (f : option FileData) : result (option json) :=
  match f with
  | None => Ok None
  | Some f => text ← ctx "stored JSON probe is not text" (fd_text f); v ← json_parse text; Ok (Some v)
  end.
Definition change_name (a b : option FileData) : string :=
  if is_none a then "add" else if is_none b then "remove" else "modify".
Definition text_or_empty (f : option FileData) : string := default "" (f ≫= fd_text).
(** The rows of one path whose contents differ. *)
Definition compare_file (probe : Probe) (path : string) (a b : option FileData) : result (list json) :=
  match pr_kind probe with
  | KScreenshots => Err "screenshots compare decoded outputs"
  | KFiles =>
      if forallb (λ f, is_some (fd_text f)) (option_list a ++ option_list b) then
        Ok [ser_struct [("path", Some (JString path)); ("kind", Some (JString "text"));
              ("change", Some (JString (change_name a b)));
              ("diff", Some (JString (unified_diff (text_or_empty a) (text_or_empty b) ("a/" +:+ path) ("b/" +:+ path))))]]
      else
        Ok [ser_struct [("path", Some (JString path)); ("kind", Some (JString "binary"));
              ("before", Some (ser_option FileData_to_value a)); ("after", Some (ser_option FileData_to_value b))]]
  | _ =>
      a ← parse_data a;
      b ← parse_data b;
      changes ← (if pr_kind probe == KJson then Ok (json_changes a b "") else number_changes a b (pr_noise probe));
      Ok (if changes is [] then [] else [ser_struct [("path", Some (JString path)); ("changes", Some (JArray changes))]])
  end.
Definition compare_path (old new : gmap string FileData) (probe : Probe) (out : list json) (path : string)
    : result (list json) :=
  let a := old !! path in
  let b := new !! path in
  if default false (x ← a; y ← b; Some (fd_sha256 x == fd_sha256 y)) then Ok out
  else rows ← compare_file probe path a b; Ok (out ++ rows).
Definition compare (old new : gmap string FileData) (probe : Probe) : result (list json) :=
  foldM (compare_path old new probe) [] (members (list_to_set (keys old ++ keys new) : gset string)).
End compare.

(** * Properties *)

(** ** Places in a JSON value *)

(** The element of an array that a token names by its decimal index. *)
Definition array_at (l : list json) (token : string) : option json :=
  i ← find (λ i, dec (Z.of_nat i) == token) (seq 0 (length l)); l !! i.
Definition step_in (v : json) (token : string) : option json :=
  match v with JObject m => jlookup token m | JArray l => array_at l token | _ => None end.
Fixpoint at_place (v : json) (place : list string) : option json :=
  match place with [] => Some v | token :: place => v ← step_in v token; at_place v place end.
(** The JSON pointer (RFC 6901) of a place. *)
Fixpoint pointer (place : list string) : string :=
  match place with [] => "" | token :: place => "/" +:+ escape_pointer token +:+ pointer place end.

(** A reader of JSON pointers: the token that it is in, and those that follow. *)
Fixpoint read_tokens (s : string) : option (string * list string) :=
  match s with
  | "" => Some ("", [])
  | String "/" s => '(h, t) ← read_tokens s; Some ("", h :: t)
  | String "~" (String "0" s) => '(h, t) ← read_tokens s; Some (String "~" h, t)
  | String "~" (String "1" s) => '(h, t) ← read_tokens s; Some (String "/" h, t)
  | String "~" _ => None
  | String c s => '(h, t) ← read_tokens s; Some (String c h, t)
  end.
Definition read_pointer (s : string) : option (list string) :=
  '(h, t) ← read_tokens s; if h == "" then Some t else None.
Lemma read_escaped t s : read_tokens (escape_pointer t +:+ s) = '(h, l) ← read_tokens s; Some (t +:+ h, l).
Proof.
  induction t as [|c t IH]; cbn [escape_pointer].
  - rewrite !str_app_nil_l. by destruct (read_tokens s) as [[]|].
  - rewrite str_app_assoc.
    destruct (Ascii.eqb_spec c "~") as [->|Ht]; [|destruct (Ascii.eqb_spec c "/") as [->|Hs]]; str_simpl.
    + cbn [read_tokens]. rewrite IH. by destruct (read_tokens s) as [[]|].
    + cbn [read_tokens]. rewrite IH. by destruct (read_tokens s) as [[]|].
    + assert (∀ r, read_tokens (String c r) = '(h, t) ← read_tokens r; Some (String c h, t)) as E.
      { intros r. destruct c as [[] [] [] [] [] [] [] []]; done. }
      rewrite E, IH. by destruct (read_tokens s) as [[]|].
Qed.
Lemma read_pointer_pointer place : read_pointer (pointer place) = Some place.
Proof.
  unfold read_pointer. assert (read_tokens (pointer place) = Some ("", place)) as ->; [|done].
  induction place as [|t place IH]; [done|]. cbn [pointer]. str_simpl. cbn [read_tokens].
  rewrite read_escaped, IH. cbn. by rewrite str_app_nil_r.
Qed.

Lemma escape_no_slash s : has_byte "/" (escape_pointer s) = false.
Proof.
  induction s as [|c s IH]; [done|]. cbn [escape_pointer]. rewrite has_byte_app, IH, orb_false_r.
  destruct (Ascii.eqb c "~") eqn:E; [done|]. destruct (Ascii.eqb c "/") eqn:E'; [done|].
  rewrite has_byte_cons. rewrite Ascii.eqb_sym, E'. done.
Qed.
Lemma escape_inj s t : escape_pointer s = escape_pointer t → s = t.
Proof.
  revert t. induction s as [|c s IH]; intros [|d t]; cbn [escape_pointer]; [done|..].
  - destruct (Ascii.eqb d "~"), (Ascii.eqb d "/"); done.
  - destruct (Ascii.eqb c "~"), (Ascii.eqb c "/"); done.
  - destruct (Ascii.eqb_spec c "~") as [-> |Hc]; destruct (Ascii.eqb_spec d "~") as [-> |Hd];
      try destruct (Ascii.eqb_spec c "/") as [-> |Hc']; try destruct (Ascii.eqb_spec d "/") as [-> |Hd'];
      str_simpl; intros [=]; subst; try done; f_equal; auto.
Qed.
Lemma escape_digits s : all_bytes is_ascii_digit s = true → escape_pointer s = s.
Proof.
  induction s as [|c s IH]; [done|]. cbn [all_bytes escape_pointer]. intros [Hc Hs]%andb_true_iff.
  rewrite IH by done. destruct (Ascii.eqb_spec c "~") as [-> |]; [done|].
  destruct (Ascii.eqb_spec c "/") as [-> |]; done.
Qed.
Lemma escape_dec n : escape_pointer (dec n) = dec n.
Proof. apply escape_digits, dec_all_digit. Qed.
Lemma slash_split a b q r :
  has_byte "/" a = false → has_byte "/" b = false →
  a +:+ pointer q = b +:+ pointer r → a = b.
Proof.
  assert (∀ p, pointer p = "" ∨ ∃ s, pointer p = String "/" s) as Hp by (intros []; [by left|right; by eexists]).
  revert b. induction a as [|c a IH]; intros [|d b] Ha Hb; str_simpl; rewrite ?str_app_nil_l.
  - done.
  - destruct (Hp q) as [-> |[s ->]]; [done|]. intros [= <- _]. rewrite has_byte_cons in Hb. done.
  - destruct (Hp r) as [-> |[s ->]]; [done|]. intros [= -> _]. rewrite has_byte_cons in Ha. done.
  - rewrite has_byte_cons in Ha, Hb. apply orb_false_iff in Ha as [_ Ha], Hb as [_ Hb].
    intros [= <- E]. f_equal. by apply IH.
Qed.
Lemma str_app_inv_l (a b c : string) : a +:+ b = a +:+ c → b = c.
Proof. induction a as [|x a IH]; str_simpl; [done|]. intros [= E]. auto. Qed.
(** Different first steps give different pointers. *)
Lemma pointer_head path s t q r :
  path +:+ pointer (s :: q) = path +:+ pointer (t :: r) → s = t.
Proof.
  intros E%str_app_inv_l. cbn [pointer] in E. apply str_app_inv_l in E.
  apply escape_inj. eapply slash_split; [apply escape_no_slash..|exact E].
Qed.

Lemma array_at_dec l i : i < length l → array_at l (dec (Z.of_nat i)) = l !! i.
Proof.
  intros Hi. unfold array_at. destruct (find _ _) as [j|] eqn:E.
  - apply find_some in E as [Hj Hd%eqb_eq]. simpl. f_equal. apply dec_inj in Hd; lia.
  - eapply (find_none _ _ i) in E; [|apply elem_of_seq; lia]. cbv beta in E. by rewrite eqb_refl in E.
Qed.
Lemma array_at_beyond l i : length l ≤ i → array_at l (dec (Z.of_nat i)) = None.
Proof.
  intros Hi. unfold array_at. destruct (find _ _) as [j|] eqn:E; [|done].
  apply find_some in E as [Hj%elem_of_seq Hd%eqb_eq]. apply dec_inj in Hd; lia.
Qed.
Lemma array_at_lookup l i : array_at l (dec (Z.of_nat i)) = l !! i.
Proof.
  destruct (Nat.lt_ge_cases i (length l)); [by apply array_at_dec|].
  rewrite array_at_beyond by done. symmetry. by apply lookup_ge_None.
Qed.
Lemma array_at_some l t v : array_at l t = Some v → ∃ i, t = dec (Z.of_nat i) ∧ l !! i = Some v.
Proof.
  unfold array_at. destruct (find _ _) as [i|] eqn:E; [|done]. apply find_some in E as [_ <-%eqb_eq].
  simpl. eauto.
Qed.

(** ** The differences of two values *)

Lemma jlookup_map {A B} (f : A → B) k (m : list (string * A)) :
  jlookup k (map (λ kv, (kv.1, f kv.2)) m) = f <$> jlookup k m.
Proof. induction m as [|[k' v] m IH]; simpl; [done|]. by destruct (String.eqb k k'). Qed.
Lemma flat_map_ext_elem {A B} (f g : A → list B) l : (∀ x, x ∈ l → f x = g x) → flat_map f l = flat_map g l.
Proof.
  induction l as [|x l IH]; intros E; simpl; [done|]. rewrite (E x) by left. f_equal. apply IH.
  intros y Hy. apply E. by right.
Qed.
Lemma flat_map_fmap {A B C} (f : B → list C) (g : A → B) l : flat_map f (g <$> l) = flat_map (λ x, f (g x)) l.
Proof. induction l as [|x l IH]; csimpl; [done|]. by rewrite IH. Qed.
(** The tokens that lead into either of two values. *)
Definition tokens (a b : json) : list string :=
  match a, b with
  | JObject ma, JObject mb => members (list_to_set (ma.*1 ++ mb.*1) : gset string)
  | JArray la, JArray lb => dec ∘ Z.of_nat <$> seq 0 (Nat.max (length la) (length lb))
  | _, _ => []
  end.
Definition same_shape (a b : json) : bool :=
  match a, b with JObject _, JObject _ | JArray _, JArray _ => true | _, _ => false end.
Lemma elem_of_key_union (ma mb : jobj) k :
  k ∈ members (list_to_set (ma.*1 ++ mb.*1) : gset string) ↔ k ∈ ma.*1 ∨ k ∈ mb.*1.
Proof. unfold members. rewrite elem_of_sort_by, elem_of_elements, elem_of_list_to_set, elem_of_app. done. Qed.

(** The recursion of [json_changes]. *)
Lemma deltas_eq a b path :
  deltas (Some a) (Some b) path =
    if a == b then [] else
    if same_shape a b then
      flat_map (λ t, deltas (step_in a t) (step_in b t) (path +:+ pointer [t])) (tokens a b)
    else [(path, Some a, Some b)].
Proof.
  assert ((Some b == Some a) = (a == b)) as Eab.
  { destruct (eqb a b) eqn:E; [apply eqb_true; by apply eqb_eq in E as ->|].
    apply eqb_ne in E. apply eqb_false. congruence. }
  assert (∀ t, path +:+ pointer [t] = path +:+ "/" +:+ escape_pointer t) as Ep.
  { intros t. cbn [pointer]. by rewrite str_app_nil_r. }
  destruct a as [| | | | |la|ma]; unfold deltas; cbn [value_changes]; rewrite Eab; try done;
    destruct (eqb _ b); try done; destruct b as [| | | | |lb|mb]; try done; cbn [same_shape tokens].
  - rewrite flat_map_fmap. apply flat_map_ext_elem. intros i Hi. cbn [compose step_in]. rewrite !array_at_lookup, Ep, escape_dec. change (map value_changes la) with (value_changes <$> la).
    rewrite list_lookup_fmap. destruct (la !! i) eqn:Ea; simpl; [done|].
    destruct (lb !! i) eqn:Eb; [done|]. apply elem_of_seq in Hi. apply lookup_ge_None in Ea, Eb. lia.
  - apply flat_map_ext_elem. intros k Hk%elem_of_key_union. cbn [step_in]. rewrite jlookup_map, Ep.
    destruct (jlookup k ma) eqn:Ea; simpl; [done|]. destruct (jlookup k mb) eqn:Eb; [done|].
    apply jlookup_none in Ea, Eb. naive_solver.
Qed.
Lemma deltas_none a b path : a = None ∨ b = None → deltas a b path = if a == b then [] else [(path, a, b)].
Proof.
  destruct a as [a|]; intros [?| ?]; simplify_eq.
  - by destruct a.
  - by destruct b.
  - done.
Qed.

Lemma json_step_ind (P : json → Prop) :
  (∀ a, (∀ t x, step_in a t = Some x → P x) → P a) → ∀ a, P a.
Proof.
  intros H a. induction a as [| | | | |l IH|m IH] using json_ind'; apply H; intros t x Hx; try done.
  - apply array_at_some in Hx as (i & _ & Hi). by eapply Forall_lookup_1 in IH.
  - apply jlookup_elem in Hx. rewrite Forall_forall in IH. by apply (IH (t, x)).
Qed.
Lemma step_in_jwf a t x : jwf a → step_in a t = Some x → jwf x.
Proof.
  destruct 1 as [| | | | |l Hl|m Hs Hm]; try done; intros Hx.
  - apply array_at_some in Hx as (i & _ & Hi). by eapply Forall_lookup_1 in Hl.
  - apply jlookup_elem in Hx. rewrite Forall_forall in Hm. by apply (Hm (t, x)).
Qed.
Lemma jlookup_below k (m : jobj) :
  Forall (λ kv, clt k kv.1 = true) m → jlookup k m = None.
Proof.
  intros Hm. apply jlookup_none. intros ([k' v] & -> & Hk)%list_elem_of_fmap.
  rewrite Forall_forall in Hm. specialize (Hm _ Hk). simpl in Hm. by rewrite clt_cle, cle_refl in Hm.
Qed.
Lemma jlookup_ext (m n : jobj) :
  StronglySorted (λ a b, clt a.1 b.1 = true) m → StronglySorted (λ a b, clt a.1 b.1 = true) n →
  (∀ k, jlookup k m = jlookup k n) → m = n.
Proof.
  intros Hm. revert n. induction Hm as [|[k v] m Hm IH Hk]; intros n Hn E.
  - destruct n as [|[k' v'] n]; [done|]. specialize (E k'). simpl in E. by rewrite String.eqb_refl in E.
  - destruct Hn as [|[k' v'] n Hn Hk'].
    { specialize (E k). simpl in E. by rewrite String.eqb_refl in E. }
    assert (k = k') as <-.
    { destruct (cmp k k') eqn:Ec; [by apply cmp_eq in Ec|exfalso..].
      - pose proof (E k) as Ek. rewrite (jlookup_below k ((k', v') :: n)) in Ek.
        + simpl in Ek. by rewrite String.eqb_refl in Ek.
        + constructor; [by apply clt_cmp|]. eapply Forall_impl; [exact Hk'|]. intros [k2 ?] ?. simpl in *.
          apply clt_cmp in H. apply clt_cmp. by eapply cmp_trans.
      - pose proof (E k') as Ek. rewrite (jlookup_below k' ((k, v) :: m)) in Ek.
        + simpl in Ek. by rewrite String.eqb_refl in Ek.
        + apply cmp_gt in Ec. constructor; [by apply clt_cmp|]. eapply Forall_impl; [exact Hk|].
          intros [k2 ?] ?. simpl in *. apply clt_cmp in H. apply clt_cmp. by eapply cmp_trans. }
    pose proof (E k) as Ek. simpl in Ek. rewrite String.eqb_refl in Ek. injection Ek as <-. f_equal.
    apply IH; [done|]. intros k2. specialize (E k2). simpl in E.
    destruct (String.eqb_spec k2 k) as [Ek2|]; [rewrite Ek2|done]. by rewrite !jlookup_below.
Qed.
(** Values of the same shape that agree behind every token are equal. *)
Lemma same_steps a b :
  jwf a → jwf b → same_shape a b = true → (∀ t, t ∈ tokens a b → step_in a t = step_in b t) → a = b.
Proof.
  destruct a as [| | | | |la|ma], b as [| | | | |lb|mb]; try done; intros Ha Hb _ E; f_equal; cbn [tokens step_in] in E.
  - apply list_eq. intros i. destruct (Nat.lt_ge_cases i (Nat.max (length la) (length lb))) as [Hi|Hi].
    + rewrite <-!array_at_lookup. apply E. apply list_elem_of_fmap. exists i. split; [done|]. apply elem_of_seq. lia.
    + transitivity (None : option json); [|symmetry]; apply lookup_ge_None; lia.
  - inversion Ha as [| | | | | |? Hs _]. inversion Hb as [| | | | | |? Hs' _]. apply jlookup_ext; [done|done|].
    intros k. destruct (decide (k ∈ ma.*1 ∨ k ∈ mb.*1)) as [Hk|Hk].
    + apply E. by apply elem_of_key_union.
    + transitivity (None : option json); [|symmetry]; apply jlookup_none; naive_solver.
Qed.
Lemma tokens_step a b t x :
  same_shape a b = true → step_in a t = Some x ∨ step_in b t = Some x → t ∈ tokens a b.
Proof.
  destruct a as [| | | | |la|ma], b as [| | | | |lb|mb]; try done; intros _ H; cbn [tokens step_in] in *.
  - assert (∃ i, t = dec (Z.of_nat i) ∧ i < Nat.max (length la) (length lb)) as (i & -> & Hi).
    { destruct H as [(i & -> & Hi%lookup_lt_Some)%array_at_some|(i & -> & Hi%lookup_lt_Some)%array_at_some];
        exists i; (split; [done|lia]). }
    apply list_elem_of_fmap. exists i. split; [done|]. apply elem_of_seq. lia.
  - apply elem_of_key_union. destruct H as [H%jlookup_elem|H%jlookup_elem]; [left|right];
      apply list_elem_of_fmap; by exists (t, x).
Qed.
Lemma tokens_NoDup a b : NoDup (tokens a b).
Proof.
  destruct a as [| | | | |la|ma], b as [| | | | |lb|mb]; try apply NoDup_nil_2; cbn [tokens].
  - apply NoDup_fmap_2_strong; [|apply NoDup_seq]. intros i j _ _ E. unfold compose in E. apply dec_inj in E; lia.
  - unfold members. apply NoDup_sort_by, NoDup_elements.
Qed.

Lemma deltas_sound a b path d : d ∈ deltas (Some a) b path →
  ∃ place, d.1.1 = path +:+ pointer place ∧ d.1.2 = at_place a place ∧ d.2 = (b ≫= λ b, at_place b place) ∧
    d.1.2 ≠ d.2.
Proof.
  revert b path d. induction a as [a IH] using json_step_ind. intros [b|] path d.
  2: { rewrite deltas_none by auto. intros ->%list_elem_of_singleton. exists []. by rewrite str_app_nil_r. }
  rewrite deltas_eq. destruct (eqb a b) eqn:E; [by intros ?%not_elem_of_nil|]. apply eqb_ne in E.
  destruct (same_shape a b).
  2: { intros ->%list_elem_of_singleton. exists []. rewrite str_app_nil_r. simpl. by split_and!; congruence. }
  rewrite list_elem_of_In, in_flat_map. intros (t & _ & Hd). rewrite <-list_elem_of_In in Hd.
  destruct (step_in a t) as [x|] eqn:Ea.
  - apply (IH t x Ea) in Hd as (place & -> & -> & -> & Hne). exists (t :: place).
    split; [cbn [pointer]; by rewrite str_app_nil_r, !str_app_assoc|]. cbn [at_place]. rewrite Ea. simpl.
    split; [done|]. split; [|done]. by destruct (step_in b t).
  - rewrite deltas_none in Hd by auto. destruct (step_in b t) as [y|] eqn:Eb; [|by apply not_elem_of_nil in Hd].
    apply list_elem_of_singleton in Hd as ->. exists [t]. cbn [at_place]. rewrite Ea. simpl. by rewrite Eb.
Qed.
Lemma deltas_complete a b path place :
  jwf a → (∀ b', b = Some b' → jwf b') → at_place a place ≠ (b ≫= λ b, at_place b place) →
  ∃ d q, d ∈ deltas (Some a) b path ∧ d.1.1 = path +:+ pointer q ∧ (q `prefix_of` place ∨ place `prefix_of` q).
Proof.
  revert b path place. induction a as [a IH] using json_step_ind. intros [b|] path place Ha Hb Hne.
  2: { exists (path, Some a, None), []. rewrite deltas_none by auto. rewrite str_app_nil_r.
       split; [left|]. split; [done|]. left. apply prefix_nil. }
  specialize (Hb b eq_refl). rewrite deltas_eq. destruct (eqb a b) eqn:E; [apply eqb_eq in E as ->; done|].
  apply eqb_ne in E. destruct (same_shape a b) eqn:Es.
  2: { exists (path, Some a, Some b), []. rewrite str_app_nil_r. split; [left|]. split; [done|]. left. apply prefix_nil. }
  assert (∀ t q, t ∈ tokens a b → at_place a (t :: q) ≠ at_place b (t :: q) →
    ∃ d r, d ∈ deltas (step_in a t) (step_in b t) (path +:+ pointer [t]) ∧ t ∈ tokens a b ∧
      d.1.1 = path +:+ pointer (t :: r) ∧ (r `prefix_of` q ∨ q `prefix_of` r)) as Hstep.
  { intros t q Ht Hq. cbn [at_place] in Hq. destruct (step_in a t) as [x|] eqn:Ea.
    - destruct (IH t x Ea (step_in b t) (path +:+ pointer [t]) q) as (d & r & Hd & Hp & Hr).
      + exact (step_in_jwf a t x Ha Ea).
      + intros b' Hb'. exact (step_in_jwf b t b' Hb Hb').
      + simpl in Hq. by destruct (step_in b t).
      + exists d, r. split; [done|]. split; [done|]. split; [|done]. rewrite Hp. cbn [pointer].
        by rewrite str_app_nil_r, !str_app_assoc.
    - destruct (step_in b t) as [y|] eqn:Eb; [|done]. exists (path +:+ pointer [t], None, Some y), [].
      split; [left|]. split; [done|]. split; [done|]. left. apply prefix_nil. }
  assert (∃ t q, t ∈ tokens a b ∧ at_place a (t :: q) ≠ at_place b (t :: q) ∧ (place = t :: q ∨ place = []))
    as (t & q & Ht & Hq & Hpl).
  { destruct place as [|t q].
    - destruct (decide (Forall (λ t, step_in a t = step_in b t) (tokens a b))) as [Hf|Hf].
      + exfalso. apply E. apply same_steps; [done..|]. by apply Forall_forall.
      + apply not_Forall_Exists in Hf; [|intros ?; apply _]. apply Exists_exists in Hf as (t & Ht & Hne').
        exists t, []. split; [done|]. split; [|by right]. cbn [at_place].
        unfold compose in Hne'. destruct (step_in a t), (step_in b t); simpl; congruence.
    - exists t, q. split; [|split; [done|by left]]. cbn [at_place] in Hne. simpl in Hne.
      destruct (step_in a t) as [x|] eqn:Ea; [by eapply tokens_step; [|left]|].
      destruct (step_in b t) as [y|] eqn:Eb; [by eapply tokens_step; [|right]|done]. }
  destruct (Hstep t q Ht Hq) as (d & r & Hd & _ & Hp & Hr). exists d, (t :: r). split; [|split; [done|]].
  - apply list_elem_of_In, in_flat_map. exists t. by rewrite <-!list_elem_of_In.
  - destruct Hpl as [-> | ->]; [|right; apply prefix_nil]. destruct Hr; [left|right]; by apply prefix_cons.
Qed.

Lemma NoDup_flat_map {A B K} (key : B → K) (f : A → list B) l :
  NoDup l → (∀ x, x ∈ l → NoDup (key <$> f x)) →
  (∀ x y u v, x ∈ l → y ∈ l → u ∈ f x → v ∈ f y → key u = key v → x = y) → NoDup (key <$> flat_map f l).
Proof.
  induction 1 as [|x l Hx Hl IH]; intros Hn Hd; simpl; [apply NoDup_nil_2|].
  rewrite fmap_app. apply NoDup_app. split; [apply Hn; left|]. split.
  - intros k (u & -> & Hu)%list_elem_of_fmap (v & Ek & Hv)%list_elem_of_fmap.
    rewrite list_elem_of_In, in_flat_map in Hv. destruct Hv as (y & Hy & Hv). apply list_elem_of_In in Hy, Hv.
    assert (x = y) as <- by (eapply (Hd x y u v); [left|by right|done..]). done.
  - apply IH; [intros y Hy; apply Hn; by right|]. intros y z u v Hy Hz. apply Hd; by right.
Qed.
Lemma deltas_NoDup a b path : NoDup (fst ∘ fst <$> deltas (Some a) b path).
Proof.
  revert b path. induction a as [a IH] using json_step_ind. intros [b|] path.
  2: { rewrite deltas_none by auto. apply NoDup_singleton. }
  rewrite deltas_eq. destruct (eqb a b); [apply NoDup_nil_2|]. destruct (same_shape a b); [|apply NoDup_singleton].
  apply NoDup_flat_map; [apply tokens_NoDup|..].
  - intros t _. destruct (step_in a t) as [x|] eqn:Ea; [by eapply IH|]. rewrite deltas_none by auto.
    destruct (eqb _ _); [apply NoDup_nil_2|apply NoDup_singleton].
  - assert (∀ t d, d ∈ deltas (step_in a t) (step_in b t) (path +:+ pointer [t]) →
      ∃ q, d.1.1 = path +:+ pointer (t :: q)) as Hp.
    { intros t d Hd. destruct (step_in a t) as [x|].
      - apply deltas_sound in Hd as (q & -> & _). exists q. cbn [pointer]. by rewrite str_app_nil_r, !str_app_assoc.
      - rewrite deltas_none in Hd by auto. destruct (eqb _ _); [by apply not_elem_of_nil in Hd|].
        apply list_elem_of_singleton in Hd as ->. by exists []. }
    intros s t d e _ _ (q & Hq)%Hp (r & Hr)%Hp E. unfold compose in E. rewrite Hq, Hr in E.
    by eapply pointer_head.
Qed.

(** What the two sides have at a place, and whether both are objects or both arrays. *)
Definition look (v : option json) (place : list string) : option json := v ≫= λ v, at_place v place.
Definition both_open (a b : option json) : Prop :=
  (∃ m m', a = Some (JObject m) ∧ b = Some (JObject m')) ∨ (∃ l l', a = Some (JArray l) ∧ b = Some (JArray l')).
(** The places of the differences: the first ones, from the root on, where the sides are not both
    objects or both arrays, if they differ there. *)
Definition difference (a b : option json) (place : list string) : Prop :=
  look a place ≠ look b place ∧ ¬ both_open (look a place) (look b place) ∧
  ∀ q t r, place = q ++ t :: r → both_open (look a q) (look b q).
Lemma both_open_shape a b : both_open (Some a) (Some b) ↔ same_shape a b = true.
Proof. unfold both_open. destruct a, b; cbn; naive_solver. Qed.
Lemma difference_nil a b : difference a b [] ↔ a ≠ b ∧ ¬ both_open a b.
Proof.
  unfold difference, look. cbn. destruct a, b; cbn; (split; [tauto|]); intros [? ?]; (split; [done|]);
    (split; [done|]); intros [|? ?] ? ? [=].
Qed.
Lemma difference_cons a b t place :
  difference a b (t :: place) ↔ both_open a b ∧ difference (a ≫= λ a, step_in a t) (b ≫= λ b, step_in b t) place.
Proof.
  assert (∀ v q, look v (t :: q) = look (v ≫= λ v, step_in v t) q) as Hl by (by intros [v|] q).
  assert (∀ v, look v [] = v) as Hn by (by intros [v|]).
  unfold difference. rewrite !Hl. split.
  - intros (H1 & H2 & H3). split; [specialize (H3 [] t place eq_refl); by rewrite !Hn in H3|].
    split; [done|]. split; [done|]. intros q u r ->. rewrite <-!Hl. by apply (H3 (t :: q) u r).
  - intros (H0 & H1 & H2 & H3). split; [done|]. split; [done|]. intros [|u q] v r [= <- E]; [by rewrite !Hn|].
    rewrite !Hl. by eapply H3.
Qed.
(** The delta of a place below [path]. *)
Definition delta_at (a b : option json) (path : string) (place : list string) : Delta :=
  (path +:+ pointer place, look a place, look b place).
Lemma difference_root a b path d :
  ¬ both_open a b → a ≠ b → (∃ place, difference a b place ∧ d = delta_at a b path place) ↔ d ∈ [(path, a, b)].
Proof.
  intros Hn Hne. rewrite list_elem_of_singleton. unfold delta_at. split.
  - intros ([|t place] & Hd & ->); [|by apply difference_cons in Hd as [? _]].
    rewrite str_app_nil_r. by destruct a, b.
  - intros ->. exists []. rewrite difference_nil, str_app_nil_r. by destruct a, b.
Qed.
Lemma difference_same a path d : (∃ place, difference a a place ∧ d = delta_at a a path place) ↔ d ∈ [].
Proof. rewrite elem_of_nil. split; [|done]. by intros (place & (Hd & _) & _). Qed.
Lemma not_open_none a b : a = None ∨ b = None → ¬ both_open a b.
Proof. unfold both_open. naive_solver. Qed.
Lemma deltas_missing a b path d :
  a = None ∨ b = None → d ∈ deltas a b path ↔ ∃ place, difference a b place ∧ d = delta_at a b path place.
Proof.
  intros Hn. rewrite deltas_none by done. destruct (eqb a b) eqn:E.
  - apply eqb_eq in E as ->. by rewrite difference_same.
  - apply eqb_ne in E. by rewrite difference_root by (done || by apply not_open_none).
Qed.
Lemma pointer_below path t place : (path +:+ pointer [t]) +:+ pointer place = path +:+ pointer (t :: place).
Proof. cbn [pointer]. by rewrite str_app_nil_r, !str_app_assoc. Qed.
(** [deltas] lists the differences. *)
Lemma deltas_difference a b path d :
  d ∈ deltas a b path ↔ ∃ place, difference a b place ∧ d = delta_at a b path place.
Proof.
  destruct a as [a|]; [|apply deltas_missing; by left].
  revert b path d. induction a as [a IH] using json_step_ind. intros [b|] path d; [|apply deltas_missing; by right].
  rewrite deltas_eq. destruct (eqb a b) eqn:E; [apply eqb_eq in E as ->; by rewrite difference_same|]. apply eqb_ne in E.
  destruct (same_shape a b) eqn:Es.
  2: { rewrite difference_root; [done| |congruence]. by rewrite both_open_shape, Es. }
  assert (∀ t, d ∈ deltas (step_in a t) (step_in b t) (path +:+ pointer [t]) ↔
    ∃ place, difference (step_in a t) (step_in b t) place ∧ d = delta_at (Some a) (Some b) path (t :: place)) as Hstep.
  { intros t. trans (∃ place, difference (step_in a t) (step_in b t) place ∧
      d = delta_at (step_in a t) (step_in b t) (path +:+ pointer [t]) place).
    - destruct (step_in a t) as [x|] eqn:Ea; [by apply (IH t x Ea)|apply deltas_missing; by left].
    - unfold delta_at. setoid_rewrite pointer_below. done. }
  rewrite list_elem_of_In, in_flat_map. setoid_rewrite <-list_elem_of_In. setoid_rewrite Hstep. split.
  - intros (t & _ & place & Hd & ->). exists (t :: place). split; [|done].
    apply difference_cons. split; [by apply both_open_shape|done].
  - intros ([|t place] & Hd & ->).
    + apply difference_nil in Hd as [_ Hd]. destruct Hd. by apply both_open_shape.
    + apply difference_cons in Hd as [_ Hd]. exists t. split; [|by exists place]. cbn in Hd.
      destruct (step_in a t) as [x|] eqn:Ea; [by eapply tokens_step; [done|left]|].
      destruct (step_in b t) as [y|] eqn:Eb; [by eapply tokens_step; [done|right]|]. by destruct Hd.
Qed.

(** ** Stored results *)

Section stored_facts.
Context `{HU : Uuid, HE : Encodings, HC : Crypto, HJ : JsonText, HL : Unicode}.

(** A check result of the subject that nobody revoked. *)
Definition active_check (p : Project) (subject : Subject) (id : string) (record : LogRecord) : Prop :=
  ∃ i a, (i, a) ∈ p_attestations p ∧ at_kind a = "check" ∧ at_subject a = subject ∧
    at_attestation_id a = id ∧ is_revoked p id = false ∧ p_records p !! i = Some record.

Lemma foldl_insert_elem {V} (l : list (string * V)) : ∀ (m : gmap string V) k v,
  foldl (λ m ir, <[ir.1 := ir.2]> m) m l !! k = Some v → m !! k = Some v ∨ (k, v) ∈ l.
Proof.
  induction l as [|[k' v'] l IH]; intros m k v; simpl; [by left|]. intros [H|H]%IH; [|right; by right].
  simpl in H. destruct (decide (k = k')) as [-> |].
  - rewrite lookup_insert_eq in H. injection H as ->. right. left.
  - rewrite lookup_insert_ne in H by done. by left.
Qed.
Lemma active_records_some p subject id record :
  active_records p subject !! id = Some record → active_check p subject id record.
Proof.
  unfold active_records. intros [H|H]%foldl_insert_elem; [done|].
  apply list_elem_of_omap in H as ([i a] & Hin & H). apply elem_of_filterb in Hin as [Hin Hc].
  cbv beta in Hc. apply andb_true_iff in Hc as [[Hk%eqb_eq Hs%eqb_eq]%andb_true_iff Hr%negb_true_iff].
  simpl in *. destruct (p_records p !! i) as [rec|] eqn:E; [|done]. injection H as <- <-.
  exists i, a. by split_and!.
Qed.

(** The last of the results that are found. *)
Lemma foldl_last {A B} (f : A → option B) l : ∀ o,
  (∀ r, foldl (λ latest x, match f x with Some r => Some r | None => latest end) o l = Some r →
    o = Some r ∨ ∃ x, x ∈ l ∧ f x = Some r) ∧
  (foldl (λ latest x, match f x with Some r => Some r | None => latest end) o l = None ↔
    o = None ∧ ∀ x, x ∈ l → f x = None).
Proof.
  induction l as [|x l IH]; intros o; simpl.
  - split; [by left|]. split; [|by intros []]. intros ->. split; [done|]. by intros x ?%not_elem_of_nil.
  - destruct (f x) as [r|] eqn:E; [destruct (IH (Some r)) as [Hs Hn]|destruct (IH o) as [Hs Hn]].
    + split.
      * intros r' [[= <-]|(y & Hy & Hr)]%Hs; right; [exists x|exists y]; (split; [|done]); [left|by right].
      * rewrite Hn. split; [by intros []|]. intros [_ Hx]. by rewrite (Hx x) in E by left.
    + split.
      * intros r' [?|(y & Hy & Hr)]%Hs; [by left|]. right. exists y. split; [by right|done].
      * rewrite Hn. split; intros [? Hx]; (split; [done|]); [|intros y Hy; apply Hx; by right].
        intros y [-> |Hy]%elem_of_cons; auto.
Qed.

(** What makes a record a run of a probe: it names the probe, its definition and the subject, the
    probe's ref leads to its output state, and this is a derived state of the subject for the probe,
    whose files are at hand. *)
Record run_recorded (p : Project) (subject : Subject) (name : string) (definition : Probe) (c : ProbeContext)
    (record : LogRecord) (r : RunResult) : Prop := {
  rd_probe : as_str (r_data record).["check"].["probe"] = Some name;
  rd_definition : (r_data record).["check"].["definition"] = Probe_to_value definition;
  rd_subject : rr_subject r = subject;
  rd_argv : rr_argv r = pr_run definition;
  rd_reused : rr_reused r = true;
  rd_read : ∃ reused, RunResult_from_value (r_data record).["check"] =
    Ok (mkRunResult (rr_probe r) (rr_subject r) (rr_argv r) (rr_exit r) (rr_output_state r) reused);
  rd_root : ∃ k root, p_refs p !! k = Some root ∧ rs_target root = rr_output_state r ∧
    rs_name root = "derived/probe-v1/" +:+ name +:+ "/" +:+ su_id subject ∧
    ∀ e, rs_expires_at root = Some e → (pc_now c < e)%Z;
  rd_state : ∃ s, state p (rr_output_state r) = Some s ∧ st_kind s = Derived ∧
    st_context s = Some ("probe-v1/" +:+ name) ∧ st_derived_from s = Some (su_id subject);
  rd_outputs : is_Some (pc_outputs c !! rr_output_state r) }.

Lemma root_found p reference now root :
  find (λ r, rs_name r == reference) (ref_list p reference now) = Some root →
  ∃ k, p_refs p !! k = Some root ∧ rs_name root = reference ∧
    ∀ e, rs_expires_at root = Some e → (now < e)%Z.
Proof.
  intros [Hin Hn%eqb_eq]%find_some. apply elem_of_filterb in Hin as [Hv Hf].
  apply elem_of_values in Hv as [k Hk]. cbv beta in Hf. apply andb_true_iff in Hf as [_ He].
  exists k. split; [done|]. split; [done|]. intros e Ee. rewrite Ee in He. simpl in He. lia.
Qed.
Lemma run_of_recorded p subject name definition c record r
    (reference := "derived/probe-v1/" +:+ name +:+ "/" +:+ su_id subject)
    (root := find (λ r, rs_name r == reference) (ref_list p reference (pc_now c))) :
  run_of p subject name definition c root record = Some r → run_recorded p subject name definition c record r.
Proof.
  unfold run_of. destruct (negb _ || negb _) eqn:E1; [done|].
  apply orb_false_iff in E1 as [Hp%negb_false_iff%eqb_eq Hd%negb_false_iff%eqb_eq].
  destruct (RunResult_from_value _) as [run|] eqn:Er; simpl; [|done].
  destruct (negb _ || _ || _) eqn:E2; [done|].
  apply orb_false_iff in E2 as [[Hs%negb_false_iff%eqb_eq Ha%negb_false_iff%eqb_eq]%orb_false_iff Hr%negb_false_iff%eqb_eq].
  destruct (state p _) as [s|] eqn:Est; simpl; [|done]. destruct (negb _ || _ || _ || _) eqn:E3; [done|].
  apply orb_false_iff in E3 as [[[Hk%negb_false_iff%eqb_eq Hc%negb_false_iff%eqb_eq]%orb_false_iff
    Hf%negb_false_iff%eqb_eq]%orb_false_iff Ho%negb_false_iff].
  intros [= <-]. split; simpl; try done.
  - destruct run. simpl in *. eauto.
  - destruct root as [rt|] eqn:Ert; [|done]. injection Hr as Hr.
    apply root_found in Ert as (k & Hk' & Hn & He). by exists k, rt.
  - by exists s.
  - by destruct (pc_outputs c !! _).
Qed.
End stored_facts.

(** ** Main results *)

(** The row that reports a place. *)
Definition place_row (place : list string) (a b : option json) : json :=
  JObject [("after", default JNull b); ("before", default JNull a);
    ("change", JString (match a, b with None, _ => "add" | _, None => "remove" | _, _ => "modify" end));
    ("key", JString (pointer place))].

(** C21. The differences of two JSON values are exact: there is one row for each place where the values
    differ and which is the first on its way from the root where they are not both objects or both
    arrays, and no other row; the row has the values of the two sides, in their order, what kind of
    change it is, and the place as a JSON pointer, which reads back as the place. Equal values, and
    only they, have no rows. *)
Theorem json_changes_exact a b (rows := json_changes (Some a) (Some b) "") :
  jwf a → jwf b →
  (∀ row, row ∈ rows ↔ ∃ place, difference (Some a) (Some b) place ∧
     row = place_row place (at_place a place) (at_place b place)) ∧
  NoDup rows ∧ (∀ place, read_pointer (pointer place) = Some place) ∧ (rows = [] ↔ a = b).
Proof.
  intros Ha Hb.
  assert (∀ path x y, delta_row (path, x, y) = JObject [("after", default JNull y); ("before", default JNull x);
    ("change", JString (match x, y with None, _ => "add" | _, None => "remove" | _, _ => "modify" end)); ("key", JString path)]) as Hrow
    by (by intros path [x|] [y|]).
  split; [|split; [|split; [apply read_pointer_pointer|]]].
  - intros row. unfold rows, json_changes. rewrite list_elem_of_fmap. setoid_rewrite deltas_difference. split.
    + intros (d & -> & place & Hd & ->). exists place. split; [done|]. apply Hrow.
    + intros (place & Hd & ->). eexists. split; [|by exists place]. symmetry. apply Hrow.
  - unfold rows, json_changes. apply (NoDup_fmap_1 (λ row, get row "key")). rewrite <-list_fmap_compose.
    assert ((λ row, get row "key") ∘ delta_row <$> deltas (Some a) (Some b) "" =
      (λ k, Some (JString k)) <$> (fst ∘ fst <$> deltas (Some a) (Some b) "")) as ->.
    { rewrite <-list_fmap_compose. apply list_fmap_ext. intros i [[k x] y] _. unfold compose. by rewrite Hrow. }
    apply NoDup_fmap_2; [by intros ? ? [=]|apply deltas_NoDup].
  - unfold rows, json_changes. split.
    + intros Hn. destruct (decide (a = b)) as [|Hne]; [done|].
      destruct (deltas_complete a (Some b) "" []) as (d & q & Hd & _); [done|by intros ? [= <-]|simpl; congruence|].
      apply fmap_nil_inv in Hn. rewrite Hn in Hd. by apply not_elem_of_nil in Hd.
    + intros ->. by rewrite deltas_eq, eqb_refl.
Qed.

Definition changed_before : json := JObject [("a/b", JObject [("~key", JArray [JInt 1])])].
Definition changed_after : json := JObject [("a/b", JObject [("~key", JArray [JInt 2])])].
Lemma json_changes_exact_witness :
  json_changes (Some changed_before) (Some changed_after) "" =
    [place_row ["a/b"; "~key"; "0"] (Some (JInt 1)) (Some (JInt 2))] ∧
  (json_changes (Some changed_before) (Some changed_after) "" = [] ↔ changed_before = changed_after) ∧
  difference (Some changed_before) (Some changed_after) ["a/b"; "~key"; "0"].
Proof.
  destruct (json_changes_exact changed_before changed_after) as (Hr & _ & _ & He); [repeat constructor..|].
  assert (json_changes (Some changed_before) (Some changed_after) "" =
    [place_row ["a/b"; "~key"; "0"] (Some (JInt 1)) (Some (JInt 2))]) as E by (vm_compute; reflexivity).
  split; [exact E|]. split; [exact He|].
  destruct (proj1 (Hr (place_row ["a/b"; "~key"; "0"] (Some (JInt 1)) (Some (JInt 2))))) as (place & Hd & Hp).
  { rewrite E. left. }
  assert (pointer ["a/b"; "~key"; "0"] = pointer place) as Ep by (by injection Hp).
  apply (f_equal read_pointer) in Ep. rewrite !read_pointer_pointer in Ep. by injection Ep as <-.
Defined.

(** A stored probe result is the recorded one: looking it up never fails, what it gives is the
    result of a check record of that subject that nobody revoked, and it gives none just if no
    run is recorded for the command or no such record qualifies. *)
Theorem stored_authentic `{HU : Uuid, HE : Encodings, HC : Crypto, HJ : JsonText, HL : Unicode}
    p subject name definition c :
  ∃ o, stored p subject name definition c = Ok o ∧
    (∀ r, o = Some r → check_exit p (su_id subject) (pr_run definition) None ≠ None ∧
       ∃ id record, active_check p subject id record ∧ run_recorded p subject name definition c record r) ∧
    (o = None → check_exit p (su_id subject) (pr_run definition) None ≠ None →
       ∀ id record, active_records p subject !! id = Some record →
         run_of p subject name definition c
           (find (λ r, rs_name r == "derived/probe-v1/" +:+ name +:+ "/" +:+ su_id subject)
              (ref_list p ("derived/probe-v1/" +:+ name +:+ "/" +:+ su_id subject) (pc_now c))) record = None).
Proof.
  unfold stored. destruct (check_exit _ _ _ _) as [code|] eqn:E; simpl.
  2: { exists None. split; [done|]. split; [done|]. intros _ []. done. }
  eexists. split; [done|]. match goal with |- context [foldl ?g None ?l] => destruct (foldl_last (run_of p subject name definition c
    (find (λ r, rs_name r == "derived/probe-v1/" +:+ name +:+ "/" +:+ su_id subject)
       (ref_list p ("derived/probe-v1/" +:+ name +:+ "/" +:+ su_id subject) (pc_now c)))) l None) as [Hs Hn] end.
  split.
  - intros r Hr. split; [done|]. destruct (Hs r Hr) as [|(record & Hin & Hrun)]; [done|].
    apply elem_of_values in Hin as [id Hid]. exists id, record.
    split; [by apply active_records_some|by apply run_of_recorded].
  - intros Ho _ id record Hid. apply Hn in Ho as [_ Ho]. apply Ho. apply elem_of_values. by exists id.
Qed.
