(* ===== verification/Utf8.v ===== *)
(** Decoding UTF-8 in pieces: where [std::str::from_utf8] stops, and how that relates to the
    characters of a string and to [String::from_utf8_lossy] of a longer input.

    [utf8_head] names what the first bytes of an input are: a character, a broken piece, or the
    beginning of a character whose end is missing. The three decoders of a whole input step along
    such pieces, and a piece that is complete does not depend on what follows it. *)

From S2P Require Import Prelude Strs Canonical.

(** [&s[n..]] and [&s[..n]]. *)
Fixpoint str_drop (n : nat) (s : string) : string :=
  match n, s with S n, String _ s => str_drop n s | _, _ => s end.
Fixpoint str_take (n : nat) (s : string) : string :=
  match n, s with S n, String a s => String a (str_take n s) | _, _ => "" end.

(** [std::str::from_utf8(s)]: [None] when [s] is UTF-8, otherwise the error's [valid_up_to] and
    [error_len]. *)
Definition later (n : nat) : option (nat * option nat) → option (nat * option nat) :=
  fmap (λ '(valid_up_to, error_len), (n + valid_up_to, error_len)).
Fixpoint utf8_error (s : string) : option (nat * option nat) :=
  match s with
  | "" => None
  | String a s1 =>
      if byte_between 0 127 a then later 1 (utf8_error s1)
      else if byte_between 194 223 a then
        match s1 with
        | String b s2 => if is_cont b then later 2 (utf8_error s2) else Some (0, Some 1)
        | "" => Some (0, None)
        end
      else if byte_between 224 239 a then
        match s1 with
        | String b s2 =>
            if second3 a b then
              match s2 with
              | String c s3 => if is_cont c then later 3 (utf8_error s3) else Some (0, Some 2)
              | "" => Some (0, None)
              end
            else Some (0, Some 1)
        | "" => Some (0, None)
        end
      else if byte_between 240 244 a then
        match s1 with
        | String b s2 =>
            if second4 a b then
              match s2 with
              | String c s3 =>
                  if is_cont c then
                    match s3 with
                    | String d s4 => if is_cont d then later 4 (utf8_error s4) else Some (0, Some 3)
                    | "" => Some (0, None)
                    end
                  else Some (0, Some 2)
              | "" => Some (0, None)
              end
            else Some (0, Some 1)
        | "" => Some (0, None)
        end
      else Some (0, Some 1)
  end.

(** * Lemmas *)

Lemma str_take_drop n s : str_take n s +:+ str_drop n s = s.
Proof. revert s. induction n as [|n IH]; intros [|a s]; [done..|]. cbn. by rewrite str_app_cons, IH. Qed.
Lemma str_drop_length n s : String.length (str_drop n s) = String.length s - n.
Proof. revert s. induction n as [|n IH]; intros [|a s]; [done..|]. cbn. apply IH. Qed.
Lemma str_take_length n s : String.length (str_take n s) = n `min` String.length s.
Proof. revert s. induction n as [|n IH]; intros [|a s]; [done..|]. cbn. by rewrite IH. Qed.
Lemma str_drop_drop n m s : str_drop n (str_drop m s) = str_drop (m + n) s.
Proof. revert s. induction m as [|m IH]; intros [|a s]; [done| |by destruct n|]; [done|]. cbn. apply IH. Qed.
Lemma str_drop_app n a b : n ≤ String.length a → str_drop n (a +:+ b) = str_drop n a +:+ b.
Proof.
  revert a. induction n as [|n IH]; intros [|x a] Hn; cbn in Hn; try lia; [done..|].
  rewrite str_app_cons. cbn. apply IH. lia.
Qed.
Lemma str_take_app n a b : n ≤ String.length a → str_take n (a +:+ b) = str_take n a.
Proof.
  revert a. induction n as [|n IH]; intros [|x a] Hn; cbn in Hn; try lia; [done..|].
  rewrite str_app_cons. cbn. f_equal. apply IH. lia.
Qed.
Lemma str_take_add n k s : str_take (n + k) s = str_take n s +:+ str_take k (str_drop n s).
Proof.
  revert s. induction n as [|n IH]; intros [|a s]; [done..| |]; cbn; [by destruct k|].
  by rewrite str_app_cons, IH.
Qed.
Lemma str_drop_ge n s : String.length s ≤ n → str_drop n s = "".
Proof. revert s. induction n as [|n IH]; intros [|a s] Hn; cbn in *; try lia; [done..|]. apply IH. lia. Qed.
Lemma str_take_ge n s : String.length s ≤ n → str_take n s = s.
Proof. revert s. induction n as [|n IH]; intros [|a s] Hn; cbn in *; try lia; [done..|]. f_equal. apply IH. lia. Qed.
Lemma str_drop_app_length a b : str_drop (String.length a) (a +:+ b) = b.
Proof. induction a as [|x a IH]; [done|]. rewrite str_app_cons. apply IH. Qed.
Lemma str_take_app_length a b : str_take (String.length a) (a +:+ b) = a.
Proof. induction a as [|x a IH]; [by destruct b|]. rewrite str_app_cons. cbn. by rewrite IH. Qed.
Lemma str_length_0 s : String.length s = 0 → s = "".
Proof. by destruct s. Qed.

(** ** The first piece of an input *)

Inductive piece :=
| Char (n : nat)
| Broken (n : nat)
| Cut.

Definition utf8_head (a : ascii) (s : string) : piece :=
  if byte_between 0 127 a then Char 1
  else if byte_between 194 223 a then
    match s with String b _ => if is_cont b then Char 2 else Broken 1 | "" => Cut end
  else if byte_between 224 239 a then
    match s with
    | String b s2 =>
        if second3 a b
        then match s2 with String c _ => if is_cont c then Char 3 else Broken 2 | "" => Cut end
        else Broken 1
    | "" => Cut
    end
  else if byte_between 240 244 a then
    match s with
    | String b s2 =>
        if second4 a b then
          match s2 with
          | String c s3 =>
              if is_cont c
              then match s3 with String d _ => if is_cont d then Char 4 else Broken 3 | "" => Cut end
              else Broken 2
          | "" => Cut
          end
        else Broken 1
    | "" => Cut
    end
  else Broken 1.

Ltac head_cases :=
  repeat (match goal with
  | |- context [match ?s with "" => _ | String _ _ => _ end] => is_var s; destruct s
  | |- context [if ?c then _ else _] => destruct c eqn:?
  end; try (cbn; done)).

Lemma utf8_error_head a s :
  utf8_error (String a s) =
  match utf8_head a s with
  | Char n => later n (utf8_error (str_drop n (String a s)))
  | Broken n => Some (0, Some n)
  | Cut => Some (0, None)
  end.
Proof. unfold utf8_head. cbn [utf8_error]. head_cases. Qed.
Lemma from_utf8_lossy_head a s :
  from_utf8_lossy (String a s) =
  match utf8_head a s with
  | Char n => str_take n (String a s) +:+ from_utf8_lossy (str_drop n (String a s))
  | Broken n => replacement (from_utf8_lossy (str_drop n (String a s)))
  | Cut => replacement ""
  end.
Proof. unfold utf8_head. cbn [from_utf8_lossy]. head_cases. Qed.
Lemma utf8_head_bounds a s :
  match utf8_head a s with
  | Char n | Broken n => 0 < n ∧ n ≤ S (String.length s)
  | Cut => String.length s < 3
  end.
Proof. unfold utf8_head. head_cases; cbn; lia. Qed.
(** A complete piece does not depend on what follows. *)
Lemma utf8_head_app a s t : utf8_head a s ≠ Cut → utf8_head a (s +:+ t) = utf8_head a s.
Proof.
  unfold utf8_head. destruct s as [|b [|c [|d s]]]; rewrite ?str_app_cons, ?str_app_nil_l;
    repeat case_match; done.
Qed.

(** ** Characters *)

Lemma second3_val a b c (v := ((byte_val a - 224) * 4096 + cont_val b * 64 + cont_val c)%Z) :
  byte_between 224 239 a = true → is_cont c = true →
  second3 a b =
  is_cont b && is_cont c && (2048 <=? v)%Z && negb ((55296 <=? v)%Z && (v <=? 57343)%Z).
Proof.
  rewrite byte_between_true. intros Ha Hc. rewrite Hc. apply is_cont_true in Hc.
  apply eq_iff_eq_true. subst v. unfold second3, cont_val, is_cont.
  rewrite !orb_true_iff, !andb_true_iff, negb_true_iff, andb_false_iff, !byte_between_true,
    !Z.eqb_eq, !Z.leb_le, !Z.leb_gt. lia.
Qed.
Lemma second4_val a b c d
    (v := ((byte_val a - 240) * 262144 + cont_val b * 4096 + cont_val c * 64 + cont_val d)%Z) :
  byte_between 240 244 a = true → is_cont c = true → is_cont d = true →
  second4 a b =
  is_cont b && is_cont c && is_cont d && (65536 <=? v)%Z && (v <=? 1114111)%Z.
Proof.
  rewrite byte_between_true. intros Ha Hc Hd. rewrite Hc, Hd. apply is_cont_true in Hc, Hd.
  apply eq_iff_eq_true. subst v. unfold second4, cont_val, is_cont.
  rewrite !orb_true_iff, !andb_true_iff, !byte_between_true, !Z.eqb_eq, !Z.leb_le. lia.
Qed.

Lemma utf8_chars_head a s :
  match utf8_head a s with
  | Char n => ∃ v, utf8_chars (String a s) = cons v <$> utf8_chars (str_drop n (String a s))
  | _ => utf8_chars (String a s) = None
  end.
Proof.
  unfold utf8_head. cbn [utf8_chars].
  destruct (byte_between 0 127 a) eqn:E1; [by eexists|].
  destruct (byte_between 194 223 a) eqn:E2.
  { destruct s as [|b s]; [done|]. destruct (is_cont b); [by eexists|done]. }
  destruct (byte_between 224 239 a) eqn:E3.
  { destruct s as [|b [|c s]]; [done|by destruct (second3 a b)|].
    destruct (is_cont c) eqn:Ec.
    - rewrite (second3_val _ _ _ E3 Ec), Ec.
      match goal with |- context [if ?c then Char 3 else _] => destruct c end; [by eexists|done].
    - rewrite andb_false_r. by destruct (second3 a b). }
  destruct (byte_between 240 244 a) eqn:E4; [|done].
  destruct s as [|b [|c [|d s]]]; [done|by destruct (second4 a b)
    |by destruct (second4 a b), (is_cont c)|].
  destruct (is_cont c) eqn:Ec; [|rewrite andb_false_r; by destruct (second4 a b)].
  destruct (is_cont d) eqn:Ed; [|rewrite andb_false_r; by destruct (second4 a b)].
  rewrite (second4_val _ _ _ _ E4 Ec Ed), Ec, Ed.
  match goal with |- context [if ?c then Char 4 else _] => destruct c end; [by eexists|done].
Qed.
(** The value of a complete character does not depend on what follows. *)
Lemma utf8_chars_head_app a s t n v :
  utf8_head a s = Char n → utf8_chars (String a s) = cons v <$> utf8_chars (str_drop n (String a s)) →
  is_some (utf8_chars (str_drop n (String a s))) = true →
  utf8_chars (String a (s +:+ t)) = cons v <$> utf8_chars (str_drop n (String a s) +:+ t).
Proof.
  unfold utf8_head. cbn [utf8_chars]. intros Hn Hv Hs.
  destruct (byte_between 0 127 a) eqn:E1.
  { simplify_eq. cbn in *. destruct (utf8_chars s); [|done]. cbn in Hv. by simplify_eq. }
  destruct (byte_between 194 223 a) eqn:E2.
  { destruct s as [|b s]; [done|]. rewrite str_app_cons. destruct (is_cont b); simplify_eq.
    cbn in *. destruct (utf8_chars s); [|done]. cbn in Hv. by simplify_eq. }
  destruct (byte_between 224 239 a) eqn:E3.
  { destruct s as [|b [|c s]]; [done|by destruct (second3 a b)|]. rewrite !str_app_cons.
    repeat case_match; simplify_eq; cbn in *; destruct (utf8_chars s); cbn in *; by simplify_eq. }
  destruct (byte_between 240 244 a) eqn:E4; [|done].
  destruct s as [|b [|c [|d s]]]; [done|by destruct (second4 a b)
    |by destruct (second4 a b), (is_cont c)|]. rewrite !str_app_cons.
  repeat case_match; simplify_eq; cbn in *; destruct (utf8_chars s); cbn in *; by simplify_eq.
Qed.

(** Induction along the pieces of an input. *)
Lemma str_length_ind (P : string → Prop) :
  (∀ s, (∀ t, String.length t < String.length s → P t) → P s) → ∀ s, P s.
Proof.
  intros H s. remember (String.length s) as n eqn:Hn. revert s Hn.
  induction (lt_wf n) as [n _ IH]. intros s ->. apply H. intros t Ht. by eapply IH.
Qed.
Lemma piece_shorter a s n : 0 < n → String.length (str_drop n (String a s)) < String.length (String a s).
Proof. rewrite str_drop_length. cbn. lia. Qed.

Lemma utf8_chars_app a b l :
  utf8_chars a = Some l → utf8_chars (a +:+ b) = app l <$> utf8_chars b.
Proof.
  revert l. induction a as [a IH] using str_length_ind. intros l Ha. destruct a as [|x a].
  { cbn in Ha. simplify_eq. rewrite str_app_nil_l. by destruct (utf8_chars b). }
  pose proof (utf8_chars_head x a) as Hh. pose proof (utf8_head_bounds x a) as Hb.
  destruct (utf8_head x a) as [n| |] eqn:E; try congruence.
  destruct Hh as [v Hv]. pose proof Hv as Hv'. rewrite Ha in Hv.
  symmetry in Hv. apply fmap_Some in Hv as (l' & Hl' & ->).
  rewrite str_app_cons, (utf8_chars_head_app x a b n v E Hv') by (by rewrite Hl').
  rewrite (IH _ (piece_shorter x a n (proj1 Hb)) _ Hl'). by destruct (utf8_chars b).
Qed.
Lemma utf8_valid_app a b : utf8_valid a = true → utf8_valid b = true → utf8_valid (a +:+ b) = true.
Proof.
  unfold utf8_valid. destruct (utf8_chars a) as [l|] eqn:E; [|done]. intros _.
  rewrite (utf8_chars_app _ _ _ E). by destruct (utf8_chars b).
Qed.
Lemma chars_app a b :
  utf8_valid a = true → utf8_valid b = true → chars (a +:+ b) = chars a ++ chars b.
Proof.
  unfold utf8_valid, chars. destruct (utf8_chars a) as [l|] eqn:E; [|done]. intros _.
  rewrite (utf8_chars_app _ _ _ E). by destruct (utf8_chars b).
Qed.
Lemma utf8_error_valid s : utf8_error s = None ↔ utf8_valid s = true.
Proof.
  unfold utf8_valid. induction s as [s IH] using str_length_ind. destruct s as [|a s]; [done|].
  pose proof (utf8_chars_head a s) as Hh. pose proof (utf8_head_bounds a s) as Hb.
  rewrite utf8_error_head. destruct (utf8_head a s) as [n|n|]; [|by rewrite Hh..].
  destruct Hh as [v ->]. specialize (IH _ (piece_shorter a s n (proj1 Hb))).
  destruct (utf8_error _), (utf8_chars _); cbn in *; naive_solver.
Qed.

(** A character on its own is UTF-8. *)
Lemma utf8_head_take a s n : utf8_head a s = Char n → utf8_error (str_take n (String a s)) = None.
Proof.
  intros E. pose proof (utf8_head_bounds a s) as Hb. rewrite E in Hb.
  destruct n as [|n]; [lia|]. cbn [str_take]. rewrite utf8_error_head.
  assert (utf8_head a (str_take n s) = Char (S n)) as ->.
  { unfold utf8_head in *. repeat case_match; simplify_eq; cbn in *;
      repeat (case_match; simplify_eq; cbn in *); congruence. }
  cbn [str_drop]. rewrite str_drop_ge; [done|]. rewrite str_take_length. lia.
Qed.

(** ** Lossy decoding *)

Lemma replacement_app s : replacement s = replacement "" +:+ s.
Proof. done. Qed.
Lemma from_utf8_lossy_valid s : utf8_valid (from_utf8_lossy s) = true.
Proof.
  induction s as [s IH] using str_length_ind. destruct s as [|a s]; [done|].
  pose proof (utf8_head_bounds a s) as Hb. rewrite from_utf8_lossy_head.
  destruct (utf8_head a s) as [n|n|] eqn:E; [| |done].
  - apply utf8_valid_app; [|apply IH, piece_shorter, Hb].
    by apply utf8_error_valid, utf8_head_take.
  - rewrite replacement_app. apply utf8_valid_app; [done|apply IH, piece_shorter, Hb].
Qed.
(** Decoding goes on behind a valid prefix, behind a broken piece, and at an incomplete end. *)
Lemma from_utf8_lossy_step s t :
  from_utf8_lossy (s +:+ t) =
  match utf8_error s with
  | None => s +:+ from_utf8_lossy t
  | Some (v, Some n) =>
      str_take v s +:+ replacement (from_utf8_lossy (str_drop (v + n) s +:+ t))
  | Some (v, None) => str_take v s +:+ from_utf8_lossy (str_drop v s +:+ t)
  end.
Proof.
  induction s as [s IH] using str_length_ind. destruct s as [|a s]; [done|].
  pose proof (utf8_head_bounds a s) as Hb. rewrite utf8_error_head.
  rewrite str_app_cons, from_utf8_lossy_head.
  destruct (utf8_head a s) as [n|n|] eqn:E.
  - rewrite utf8_head_app, E by congruence. rewrite <-str_app_cons.
    rewrite str_drop_app, str_take_app by (cbn; lia).
    rewrite (IH _ (piece_shorter a s n (proj1 Hb))).
    destruct (utf8_error (str_drop n (String a s))) as [[v [k|]]|]; cbn [later fmap option_fmap option_map].
    + by rewrite str_take_add, str_app_assoc, str_drop_drop, Nat.add_assoc.
    + by rewrite str_take_add, str_app_assoc, str_drop_drop.
    + by rewrite <-str_app_assoc, str_take_drop.
  - rewrite utf8_head_app, E by congruence. rewrite <-str_app_cons.
    rewrite str_drop_app by (cbn; lia). done.
  - rewrite <-from_utf8_lossy_head, <-str_app_cons. done.
Qed.
Lemma from_utf8_lossy_cut s v : utf8_error s = Some (v, None) → from_utf8_lossy s = str_take v s +:+ replacement "".
Proof.
  revert v. induction s as [s IH] using str_length_ind. intros v. destruct s as [|a s]; [done|].
  pose proof (utf8_head_bounds a s) as Hb. rewrite utf8_error_head, from_utf8_lossy_head.
  destruct (utf8_head a s) as [n|n|] eqn:E; [|done|by intros [= <-]].
  intros Hv. apply fmap_Some in Hv as ([v' l] & Hv & [= -> <-]).
  rewrite (IH _ (piece_shorter a s n (proj1 Hb)) _ Hv).
  by rewrite <-str_app_assoc, str_take_add.
Qed.
Lemma utf8_error_bounds s v l :
  utf8_error s = Some (v, l) →
  v ≤ String.length s ∧
  match l with
  | Some n => 0 < n ∧ v + n ≤ String.length s
  | None => 0 < String.length s - v ≤ 3
  end.
Proof.
  revert v. induction s as [s IH] using str_length_ind. intros v. destruct s as [|a s]; [done|].
  pose proof (utf8_head_bounds a s) as Hb. rewrite utf8_error_head. cbn [String.length].
  destruct (utf8_head a s) as [n|n|] eqn:E.
  - intros Hv. apply fmap_Some in Hv as ([v' l'] & Hv & [= -> ->]).
    apply (IH _ (piece_shorter a s n (proj1 Hb))) in Hv. rewrite str_drop_length in Hv.
    cbn [String.length] in Hv. destruct l'; lia.
  - intros [= <- <-]. lia.
  - intros [= <- <-]. lia.
Qed.

(** ** Encoding *)

Lemma utf8_chars_encode v : scalar v → utf8_chars (encode_utf8 v) = Some [v].
Proof.
  intros [Hr Hs]. unfold encode_utf8.
  destruct (Z.ltb_spec v 128); [|destruct (Z.ltb_spec v 2048); [|destruct (Z.ltb_spec v 65536)]];
    cbn [utf8_chars]; unfold byte_between, is_cont, byte_between, cont_val;
    rewrite !byte_val_of by div_lia;
    repeat (match goal with |- context [Z.leb ?a ?b] => destruct (Z.leb_spec a b); [|try div_lia] end;
            cbn [andb negb]); try div_lia; try (cbn; repeat f_equal; div_lia).
Qed.
Lemma utf8_chars_encode_all l :
  Forall scalar l → utf8_chars (join "" (encode_utf8 <$> l)) = Some l.
Proof.
  induction 1 as [|v l Hv _ IH]; [done|]. rewrite fmap_cons, join_nil_cons.
  by rewrite (utf8_chars_app _ _ _ (utf8_chars_encode v Hv)), IH.
Qed.

(** ** Lossy decoding of a part *)

Lemma from_utf8_lossy_length s : String.length (from_utf8_lossy s) ≤ 3 * String.length s.
Proof.
  induction s as [s IH] using str_length_ind. destruct s as [|a s]; [done|].
  pose proof (utf8_head_bounds a s) as Hb. rewrite from_utf8_lossy_head.
  destruct (utf8_head a s) as [n|n|]; cbn [replacement String.length]; [| |lia];
    specialize (IH _ (piece_shorter a s n (proj1 Hb)));
    rewrite str_drop_length in IH; cbn [String.length] in IH; [|lia].
  rewrite str_length_app, str_take_length. cbn [String.length]. lia.
Qed.
(** No character continues into [t]. *)
Definition fresh_start (t : string) : bool :=
  match t with "" => true | String a _ => negb (is_cont a) end.
Lemma second3_cont a b : second3 a b = true → is_cont b = true.
Proof.
  unfold second3, is_cont. rewrite !orb_true_iff, !andb_true_iff, !byte_between_true. lia.
Qed.
Lemma second4_cont a b : second4 a b = true → is_cont b = true.
Proof.
  unfold second4, is_cont. rewrite !orb_true_iff, !andb_true_iff, !byte_between_true. lia.
Qed.
Lemma utf8_head_cut a s b t :
  utf8_head a s = Cut → is_cont b = false →
  utf8_head a (s +:+ String b t) = Broken (S (String.length s)).
Proof.
  intros E Hb. assert (second3 a b = false) as H3.
  { apply not_true_iff_false. intros ?%second3_cont. congruence. }
  assert (second4 a b = false) as H4.
  { apply not_true_iff_false. intros ?%second4_cont. congruence. }
  unfold utf8_head in *. destruct s as [|c [|d [|e s]]];
    rewrite ?str_app_cons, ?str_app_nil_l; repeat (case_match; simplify_eq; try done).
Qed.
Lemma from_utf8_lossy_app s t :
  fresh_start t = true → from_utf8_lossy (s +:+ t) = from_utf8_lossy s +:+ from_utf8_lossy t.
Proof.
  intros Ht. induction s as [s IH] using str_length_ind. destruct s as [|a s]; [done|].
  pose proof (utf8_head_bounds a s) as Hb. rewrite str_app_cons, !from_utf8_lossy_head.
  destruct (utf8_head a s) as [n|n|] eqn:E.
  - rewrite utf8_head_app, E by congruence. rewrite <-str_app_cons.
    rewrite str_drop_app, str_take_app by (cbn; lia).
    by rewrite (IH _ (piece_shorter a s n (proj1 Hb))), str_app_assoc.
  - rewrite utf8_head_app, E by congruence. rewrite <-str_app_cons.
    rewrite str_drop_app by (cbn; lia). by rewrite (IH _ (piece_shorter a s n (proj1 Hb))).
  - destruct t as [|b t]; [by rewrite str_app_nil_r, E|]. cbn in Ht. apply negb_true_iff in Ht.
    rewrite (utf8_head_cut _ _ _ _ E Ht), <-str_app_cons.
    change (S (String.length s)) with (String.length (String a s)). by rewrite str_drop_app_length.
Qed.
Lemma utf8_valid_fresh s : utf8_valid s = true → fresh_start s = true.
Proof.
  destruct s as [|a s]; [done|]. intros Hv%utf8_error_valid. cbn. apply negb_true_iff, not_true_iff_false.
  intros Ha%is_cont_true. rewrite utf8_error_head in Hv.
  assert (utf8_head a s = Broken 1) as Hh; [|by rewrite Hh in Hv].
  unfold utf8_head.
  rewrite (proj2 (byte_between_false 0 127 a)), (proj2 (byte_between_false 194 223 a)),
    (proj2 (byte_between_false 224 239 a)), (proj2 (byte_between_false 240 244 a)) by lia. done.
Qed.
(** Text in the middle of any bytes comes out as it is. *)
Lemma from_utf8_lossy_middle a t b :
  utf8_valid t = true → t ≠ "" →
  from_utf8_lossy (a +:+ t +:+ b) = from_utf8_lossy a +:+ t +:+ from_utf8_lossy b.
Proof.
  intros Ht Hne. rewrite from_utf8_lossy_app.
  - f_equal. rewrite from_utf8_lossy_step. by rewrite (proj2 (utf8_error_valid t) Ht).
  - apply utf8_valid_fresh in Ht. by destruct t.
Qed.
