(* ===== verification/Patches.v ===== *)
(** What the text of a patch ([hunks] of [layr-model/src/diff.rs]) does to a file: a reader of unified
    diffs, written from the format alone, applies the text to the old file and gives the new one.

    Patches show text, with a replacement character for every broken piece of UTF-8, so in general
    they are about the files as they are shown ([from_utf8_lossy]), which for UTF-8 files is as
    they are. *)

From S2P Require Import Prelude Strs Json F64 Canonical Types Extern Utf8 Diff.

(** * Reading and applying a patch *)

Notation lf := (byte_of 10).
Definition NO_NEWLINE : string := "\ No newline at end of file".

(** The lines of a text, each with its line feed; the last one may have none. *)
Fixpoint with_ends (pieces : list string) : list string :=
  match pieces with
  | [] => []
  | [l] => if is_empty l then [] else [l]
  | l :: pieces => (l +:+ LF) :: with_ends pieces
  end.
Definition file_lines (d : string) : list string := with_ends (split lf d).
(** The lines of a patch: a mark after a line says that it has no line feed. *)
Fixpoint merge_marks (pieces : list string) : option (list string) :=
  match pieces with
  | [] => None
  | [l] => if is_empty l then Some [] else None
  | l :: ((m :: rest) as more) =>
      if m == NO_NEWLINE then cons l <$> merge_marks rest else cons (l +:+ LF) <$> merge_marks more
  end.
Definition patch_lines (text : string) : option (list string) := merge_marks (split lf text).

(** [@@ -start,len +start,len @@ function]. A length of 1 may be left out; lines are counted from 1,
    and an empty range names the line before it. *)
Fixpoint read_number (acc : Z) (s : string) : Z * string :=
  match s with
  | String c s' => if is_ascii_digit c then read_number (10 * acc + (byte_val c - 48)) s' else (acc, s)
  | "" => (acc, s)
  end.
Definition read_range (s : string) : option (nat * nat * string) :=
  let '(start, s) := read_number 0 s in
  let '(len, s) := match strip_prefix "," s with Some s => read_number 0 s | None => (1%Z, s) end in
  let start := Z.to_nat start in
  if (len =? 0)%Z then Some (start, 0, s)
  else if start =? 0 then None else Some (start - 1, Z.to_nat len, s).
Definition read_header (s : string) : option (nat * nat * (nat * nat)) :=
  s ← strip_prefix "@@ -" s;
  '(old, s) ← read_range s;
  s ← strip_prefix " +" s;
  '(new, s) ← read_range s;
  _ ← strip_prefix " @@" s;
  Some (old, new).

(** [pos] lines of the old file are done, [npos] lines of the new one are written, [old] are the lines
    that follow, and the current hunk still has [o] old and [n] new lines. *)
Fixpoint apply_lines (patch : list string) (pos npos : nat) (old : list string) (o n : nat) : option (list string) :=
  match patch with
  | [] => if (o =? 0) && (n =? 0) then Some old else None
  | l :: patch =>
      if (o =? 0) && (n =? 0) then
        '((start, o), (nstart, n)) ← read_header l;
        let k := start - pos in
        if (pos <=? start) && (k <=? length old) && (nstart =? npos + k)
        then app (take k old) <$> apply_lines patch start nstart (drop k old) o n else None
      else
        match l, old, o, n with
        | String " " x, y :: old, S o, S n =>
            if x == y then cons x <$> apply_lines patch (S pos) (S npos) old o n else None
        | String "-" x, y :: old, S o, n => if x == y then apply_lines patch (S pos) npos old o n else None
        | String "+" x, old, o, S n => cons x <$> apply_lines patch pos (S npos) old o n
        | _, _, _, _ => None
        end
  end.
Definition apply_patch (text file : string) : option string :=
  patch ← patch_lines text;
  lines ← apply_lines patch 0 0 (file_lines file) 0 0;
  Some (foldr String.append "" lines).

(** * Properties *)

(** ** Lines *)

Lemma split_lines_go_ends d : ∀ line,
  split_lines_go line d = with_ends ((line +:+ (split_go lf d).1) :: (split_go lf d).2).
Proof.
  induction d as [|c d IH]; intros line; cbn [split_lines_go split_go].
  - cbn [fst snd with_ends]. by rewrite str_app_nil_r.
  - rewrite !IH. destruct (split_go lf d) as [h t]. cbn [fst snd].
    destruct (Ascii.eqb_spec c lf) as [->|Hc]; cbn [fst snd].
    + by rewrite str_app_nil_r, str_app_nil_l.
    + by rewrite str_app_assoc.
Qed.
Lemma split_lines_file d : split_lines d = file_lines d.
Proof. unfold split_lines, file_lines. by rewrite split_lines_go_ends, split_cons, str_app_nil_l. Qed.
Lemma split_app_sep c a b : has_byte c a = false → split c (a +:+ String c b) = a :: split c b.
Proof.
  intros Ha. rewrite !split_cons. induction a as [|x a IH]; str_simpl.
  - cbn. destruct (split_go c b) as [h t]. by rewrite Ascii.eqb_refl.
  - rewrite has_byte_cons in Ha. apply orb_false_iff in Ha as [Hx Ha]. specialize (IH Ha). cbn [split_go].
    rewrite Ascii.eqb_sym in Hx. destruct (split_go c (a +:+ String c b)) as [h t]. rewrite Hx. cbn in *. by simplify_eq.
Qed.
Lemma split_none c a : has_byte c a = false → split c a = [a].
Proof.
  intros Ha. rewrite split_cons. induction a as [|x a IH]; [done|].
  rewrite has_byte_cons in Ha. apply orb_false_iff in Ha as [Hx Ha]. specialize (IH Ha). cbn [split_go].
  rewrite Ascii.eqb_sym in Hx. destruct (split_go c a) as [h t]. rewrite Hx. cbn in *. by simplify_eq.
Qed.
Lemma split_nonempty c s : split c s ≠ [].
Proof. by rewrite split_cons. Qed.
Lemma file_lines_cons a b : has_byte lf a = false → file_lines (a +:+ String lf b) = (a +:+ LF) :: file_lines b.
Proof.
  intros Ha. unfold file_lines. rewrite split_app_sep by done. pose proof (split_nonempty lf b) as Hn.
  by destruct (split lf b).
Qed.
Lemma has_byte_first c d : has_byte c d = true → ∃ a b, d = a +:+ String c b ∧ has_byte c a = false.
Proof.
  induction d as [|x d IH]; [done|]. rewrite has_byte_cons. destruct (Ascii.eqb_spec c x) as [<-|Hx].
  - intros _. by exists "", d.
  - cbn. intros (a & b & -> & Ha)%IH. exists (String x a), b. split; [done|].
    rewrite has_byte_cons, Ha. by apply Ascii.eqb_neq in Hx as ->.
Qed.
(** A text is a last line, or a line and a text. *)
Lemma lines_ind (P : string → Prop) :
  (∀ a, has_byte lf a = false → P a) → (∀ a b, has_byte lf a = false → P b → P (a +:+ String lf b)) → ∀ d, P d.
Proof.
  intros Hl Hc d. induction d as [d IH] using str_length_ind. destruct (has_byte lf d) eqn:Hb; [|by apply Hl].
  apply has_byte_first in Hb as (a & b & -> & Ha). apply Hc; [done|]. apply IH. rewrite str_length_app. cbn. lia.
Qed.
Lemma file_lines_last a : has_byte lf a = false → file_lines a = if is_empty a then [] else [a].
Proof. intros Ha. unfold file_lines. by rewrite split_none. Qed.

(** What a line is: bytes without a line feed, which may follow them. *)
Definition line_of (l : string) : Prop := ∃ a, has_byte lf a = false ∧ (l = a +:+ LF ∨ l = a ∧ a ≠ "").
Lemma file_lines_line d : Forall line_of (file_lines d).
Proof.
  induction d as [a Ha|a b Ha IH] using lines_ind.
  - rewrite file_lines_last by done. unfold is_empty. destruct (a == "") eqn:E; [constructor|].
    apply eqb_ne in E. repeat constructor. exists a. auto.
  - rewrite file_lines_cons by done. constructor; [|done]. exists a. auto.
Qed.

(** ** Lines as they are shown *)

Lemma no_byte_take c n s : has_byte c s = false → has_byte c (str_take n s) = false.
Proof. intros Hs. rewrite <-(str_take_drop n s), has_byte_app in Hs. by apply orb_false_iff in Hs as [? _]. Qed.
Lemma no_byte_drop c n s : has_byte c s = false → has_byte c (str_drop n s) = false.
Proof. intros Hs. rewrite <-(str_take_drop n s), has_byte_app in Hs. by apply orb_false_iff in Hs as [_ ?]. Qed.
Lemma lossy_no_lf s : has_byte lf s = false → has_byte lf (from_utf8_lossy s) = false.
Proof.
  induction s as [s IH] using str_length_ind. intros Hs. destruct s as [|a s]; [done|].
  pose proof (utf8_head_bounds a s) as Hb. rewrite from_utf8_lossy_head.
  destruct (utf8_head a s) as [n|n|]; [| |done].
  - rewrite has_byte_app, no_byte_take by done. apply IH; [apply piece_shorter, Hb|by apply no_byte_drop].
  - rewrite replacement_app, has_byte_app. cbn. apply IH; [apply piece_shorter, Hb|by apply no_byte_drop].
Qed.
Lemma lossy_empty s : from_utf8_lossy s = "" → s = "".
Proof.
  destruct s as [|a s]; [done|]. rewrite from_utf8_lossy_head. pose proof (utf8_head_bounds a s) as Hb.
  destruct (utf8_head a s) as [[|n]|n|]; [lia|done..].
Qed.
Lemma lossy_line a b : from_utf8_lossy (a +:+ String lf b) = from_utf8_lossy a +:+ String lf (from_utf8_lossy b).
Proof. change (String lf b) with (LF +:+ b). by rewrite from_utf8_lossy_middle. Qed.
Lemma lossy_lines d : file_lines (from_utf8_lossy d) = from_utf8_lossy <$> file_lines d.
Proof.
  induction d as [a Ha|a b Ha IH] using lines_ind.
  - rewrite !file_lines_last by (done || by apply lossy_no_lf). unfold is_empty. destruct (a == "") eqn:E.
    + by apply eqb_eq in E as ->.
    + apply eqb_ne in E. assert ((from_utf8_lossy a == "") = false) as ->; [|done].
      apply eqb_false. intros H%lossy_empty. done.
  - rewrite lossy_line, !file_lines_cons by (done || by apply lossy_no_lf). rewrite IH. csimpl. f_equal.
    symmetry. apply (lossy_line a "").
Qed.
Lemma lossy_valid s : utf8_valid s = true → from_utf8_lossy s = s.
Proof.
  intros Hv%utf8_error_valid. pose proof (from_utf8_lossy_step s "") as H. rewrite Hv in H.
  by rewrite !str_app_nil_r in H.
Qed.

(** ** The lines of a patch *)

(** How a line stands in a patch. *)
Definition shown (l : string) : string := l +:+ (if ends_with LF l then "" else LF +:+ NO_NEWLINE +:+ LF).
Definition plain_line (l : string) : Prop := line_of l ∧ starts_with "\" l = false.
Lemma shown_line a : has_byte lf a = false → shown (a +:+ LF) = a +:+ LF ∧ shown a = a +:+ LF +:+ NO_NEWLINE +:+ LF.
Proof.
  intros Ha. unfold shown. assert (ends_with LF (a +:+ LF) = true) as -> by (apply ends_with_true; eauto).
  rewrite str_app_nil_r. split; [done|]. assert (ends_with LF a = false) as ->; [|done].
  apply not_true_iff_false. intros [r ->]%ends_with_true. by rewrite has_byte_app, orb_true_r in Ha.
Qed.
Lemma shown_split l text :
  plain_line l → ∃ a, head (split lf (shown l +:+ text)) = Some a ∧ a ≠ NO_NEWLINE ∧
    (l = a +:+ LF ∧ split lf (shown l +:+ text) = a :: split lf text ∨
     l = a ∧ split lf (shown l +:+ text) = a :: NO_NEWLINE :: split lf text).
Proof.
  intros [(a & Ha & Hl) Hb]. exists a. destruct (shown_line a Ha) as [E1 E2].
  assert (a ≠ NO_NEWLINE) as Hn by (intros ->; by destruct Hl as [->|[-> _]]).
  destruct Hl as [->|[-> _]].
  - rewrite E1, str_app_assoc. change (LF +:+ text) with (String lf text). rewrite split_app_sep by done. auto.
  - rewrite E2, !str_app_assoc. change (LF +:+ NO_NEWLINE +:+ LF +:+ text) with (String lf (NO_NEWLINE +:+ String lf text)).
    rewrite !split_app_sep by done. auto.
Qed.
Lemma patch_lines_shown ls : Forall plain_line ls → patch_lines (foldr (λ l acc, shown l +:+ acc) "" ls) = Some ls.
Proof.
  unfold patch_lines. induction 1 as [|l ls Hl Hls IH]; [done|]. cbn [foldr].
  set (text := foldr _ "" ls) in *.
  assert (∃ m rest, split lf text = m :: rest ∧ m ≠ NO_NEWLINE) as (m & rest & Es & Hm).
  { unfold text. destruct Hls as [|l' ls Hl' _]; [by exists "", []|]. cbn [foldr].
    destruct (shown_split l' (foldr (λ l acc, shown l +:+ acc) "" ls) Hl') as (a & Hh & Hn & _).
    destruct (split lf _) as [|x rest]; [done|]. injection Hh as ->. eauto. }
  destruct (shown_split l text Hl) as (a & _ & Hn & [[-> ->]|[-> ->]]); cbn [merge_marks]; rewrite Es.
  - assert ((m == NO_NEWLINE) = false) as -> by (by apply eqb_false). rewrite <-Es, IH. done.
  - rewrite eqb_refl, <-Es, IH. done.
Qed.

(** ** Headers *)

Lemma read_number_app s t acc :
  all_bytes is_ascii_digit s = true → (∀ c t', t = String c t' → is_ascii_digit c = false) →
  read_number acc (s +:+ t) = (dec_val acc s, t).
Proof.
  revert acc. induction s as [|c s IH]; intros acc Hs Ht; str_simpl.
  - destruct t as [|c t]; [done|]. cbn. by rewrite (Ht c t eq_refl).
  - cbn [all_bytes] in Hs. apply andb_true_iff in Hs as [Hc Hs]. cbn [read_number dec_val]. rewrite Hc. by apply IH.
Qed.
Lemma read_dec n t :
  (∀ c t', t = String c t' → is_ascii_digit c = false) → read_number 0 (dec (Z.of_nat n) +:+ t) = (Z.of_nat n, t).
Proof. intros Ht. rewrite read_number_app by (done || apply dec_all_digit). by rewrite dec_val_dec by lia. Qed.
Lemma read_range_printed start len t : read_range (range start len +:+ String " " t) = Some (start, len, String " " t).
Proof.
  unfold read_range, range. set (s := if len =? 0 then start else start + 1).
  assert (∀ c t', String " " t = String c t' → is_ascii_digit c = false) as Hsp by (by intros c t' [= <- _]).
  destruct (Nat.eqb_spec len 1) as [->|Hl].
  - rewrite read_dec by done. cbn. subst s. cbn.
    destruct (Nat.eqb_spec (Z.to_nat (Z.of_nat (start + 1))) 0); [lia|]. repeat f_equal. lia.
  - rewrite str_app_assoc. rewrite read_dec by (by intros c t' [= <- _]). str_simpl. cbn [strip_prefix].
    rewrite Ascii.eqb_refl, read_dec by done. subst s. destruct (Nat.eqb_spec len 0) as [->|Hl0].
    + cbn. by rewrite Nat2Z.id.
    + destruct (Z.eqb_spec (Z.of_nat len) 0); [lia|]. rewrite !Nat2Z.id.
      destruct (Nat.eqb_spec (start + 1) 0); [lia|]. repeat f_equal. lia.
Qed.
(** The first line of a hunk. *)
Definition header (h : Hunk) : string :=
  "@@ -" +:+ range (hk_old h).1 (hk_old h).2 +:+ " +" +:+ range (hk_new h).1 (hk_new h).2 +:+ " @@" +:+ hk_func h +:+ LF.
Lemma read_header_printed h : read_header (header h) = Some (hk_old h, hk_new h).
Proof.
  unfold read_header, header. rewrite strip_prefix_app. cbn [mbind option_bind].
  str_simpl. rewrite read_range_printed. cbn [mbind option_bind].
  change (String " " (String "+" ?r)) with (" +" +:+ r). rewrite strip_prefix_app. cbn [mbind option_bind].
  str_simpl. rewrite read_range_printed. cbn [mbind option_bind].
  change (String " " (String "@" (String "@" ?r))) with (" @@" +:+ r). rewrite strip_prefix_app. cbn.
  by destruct (hk_old h), (hk_new h).
Qed.

(** ** Function names are one line *)

Notation encode_all := (foldr (λ c acc, encode_utf8 c +:+ acc) "").
Lemma encode_all_join l : encode_all l = join "" (encode_utf8 <$> l).
Proof. induction l as [|c l IH]; [done|]. rewrite fmap_cons, join_nil_cons. cbn [foldr]. by rewrite IH. Qed.
Lemma encode_no_lf c : scalar c → c ≠ 10%Z → has_byte lf (encode_utf8 c) = false.
Proof.
  intros [Hr _] Hc. unfold encode_utf8.
  assert (∀ v, (0 <= v < 256)%Z → v ≠ 10%Z → Ascii.eqb lf (byte_of v) = false) as Hb.
  { intros v Hv Hn. apply Ascii.eqb_neq. intros E%(f_equal byte_val). rewrite !byte_val_of in E; lia. }
  destruct (Z.ltb_spec c 128); [|destruct (Z.ltb_spec c 2048); [|destruct (Z.ltb_spec c 65536)]];
    rewrite !has_byte_cons, !Hb by div_lia; done.
Qed.
Lemma encode_all_no_lf l : Forall scalar l → 10%Z ∉ l → has_byte lf (encode_all l) = false.
Proof.
  induction 1 as [|c l Hc _ IH]; [done|]. intros [Hn Hl]%not_elem_of_cons. cbn [foldr].
  rewrite has_byte_app, IH by done. rewrite encode_no_lf; [done|done|congruence].
Qed.
Lemma chars_no_lf s : has_byte lf s = false → 10%Z ∉ chars s.
Proof.
  intros Hs Hin. unfold chars in Hin. destruct (utf8_chars s) as [l|] eqn:E; [|by apply not_elem_of_nil in Hin].
  cbn in Hin. apply utf8_chars_spec in E as [<- _]. apply list_elem_of_split in Hin as (l1 & l2 & ->).
  rewrite <-encode_all_join, foldr_app in Hs. cbn [foldr] in Hs. clear -Hs. induction l1 as [|c l1 IH]; cbn in Hs.
  - by rewrite has_byte_app in Hs.
  - rewrite has_byte_app in Hs. apply orb_false_iff in Hs as [_ Hs]. auto.
Qed.
Lemma drop_while_suffix {A} (p : A → bool) l : ∃ k, l = k ++ drop_while p l.
Proof.
  induction l as [|x l [k IH]]; [by exists []|]. cbn. destruct (p x); [|by exists []].
  exists (x :: k). cbn. by rewrite <-IH.
Qed.
(** The trimmed characters of a line. *)
Lemma trim_end_line l :
  line_of l → ∃ cs, trim_end (from_utf8_lossy l) = encode_all cs ∧ Forall scalar cs ∧ 10%Z ∉ cs.
Proof.
  intros (a & Ha & Hl). unfold trim_end. eexists. split; [done|].
  assert (∃ cs, rev (drop_while is_whitespace (rev (chars (from_utf8_lossy l)))) `prefix_of` cs ∧ Forall scalar cs ∧ 10%Z ∉ cs)
    as (cs & [k Hk] & Hs & Hn).
  { exists (chars (from_utf8_lossy a)). split; [|split; [apply chars_scalar|by apply chars_no_lf, lossy_no_lf]].
    assert (∀ m, rev (drop_while is_whitespace (rev m)) `prefix_of` m) as Hp.
    { intros m. destruct (drop_while_suffix is_whitespace (rev m)) as [k Hk]. exists (rev k).
      rewrite <-(rev_involutive m) at 1. rewrite Hk at 1. by rewrite rev_app_distr. }
    destruct Hl as [->|[-> _]]; [|apply Hp].
    change LF with (String lf ""). rewrite lossy_line, chars_app; [|apply from_utf8_lossy_valid|done].
    rewrite rev_app_distr. cbn. apply Hp. }
  rewrite Hk in Hs, Hn. apply Forall_app in Hs as [Hs _]. split; [done|]. intros Hin. apply Hn. apply elem_of_app. auto.
Qed.
Lemma funcname_line ol n : Forall line_of ol → has_byte lf (funcname ol n) = false.
Proof.
  intros Hol. unfold funcname. assert (Forall line_of (rev (take n ol))) as H.
  { apply Forall_rev. by apply Forall_take. }
  induction H as [|l ls Hl _ IH]; [done|]. cbn [funcname_go]. destruct l as [|c l']; [done|].
  destruct (_ || _); [|done]. rewrite has_byte_app. change (has_byte lf " ") with false. cbn [orb]. unfold take_chars.
  destruct (trim_end_line _ Hl) as (cs & -> & Hs & Hn). apply encode_all_no_lf.
  - apply Forall_take, chars_scalar.
  - unfold chars. rewrite encode_all_join, utf8_chars_encode_all by done. cbn.
    intros Hin. apply Hn. rewrite <-(take_drop 80 cs). apply elem_of_app. auto.
Qed.

(** ** Hunks *)

(** The lines of a hunk in a patch. *)
Definition show_line (pl : ascii * string) : string := String pl.1 (from_utf8_lossy pl.2).
Definition hunk_lines (h : Hunk) : list string := header h :: (show_line <$> hk_lines h).
Definition sound_mark (pl : ascii * string) : Prop := pl.1 ∈ [" "; "-"; "+"]%char ∧ line_of pl.2.
Definition sound_hunk (h : Hunk) : Prop := has_byte lf (hk_func h) = false ∧ Forall sound_mark (hk_lines h).

Lemma line_of_lossy l : line_of l → line_of (from_utf8_lossy l).
Proof.
  intros (a & Ha & Hl). exists (from_utf8_lossy a). split; [by apply lossy_no_lf|].
  destruct Hl as [->|[-> Hn]]; [left; apply (lossy_line a "")|right]. split; [done|]. intros H%lossy_empty. done.
Qed.
Lemma ends_with_lossy l : line_of l → ends_with LF (from_utf8_lossy l) = ends_with LF l.
Proof.
  intros (a & Ha & [->|[-> _]]).
  - change LF with (String lf "") at 2. rewrite lossy_line. change (from_utf8_lossy a +:+ String lf (from_utf8_lossy "")) with (from_utf8_lossy a +:+ LF).
    transitivity true; [|symmetry]; apply ends_with_true; eauto.
  - assert (∀ s, has_byte lf s = false → ends_with LF s = false) as Hn.
    { intros s Hs. apply not_true_iff_false. intros [r ->]%ends_with_true. by rewrite has_byte_app, orb_true_r in Hs. }
    rewrite !Hn; [done|done|by apply lossy_no_lf].
Qed.
Lemma ends_with_cons c l : line_of l → ends_with LF (String c l) = ends_with LF l.
Proof.
  intros (a & Ha & Hl). apply eq_true_iff_eq. rewrite !ends_with_true. split; intros [r E].
  - destruct r as [|x r]; str_simpl; cbn in E.
    + exfalso. injection E as -> E. by destruct Hl as [->|[-> ?]]; [destruct a|].
    + injection E as -> ->. eauto.
  - exists (String c r). by rewrite E.
Qed.
Lemma push_line_shown mark l : line_of l → push_line mark l = shown (show_line (mark, l)).
Proof.
  intros Hl. unfold push_line, shown, show_line. cbn [fst snd].
  by rewrite ends_with_cons, ends_with_lossy by (done || by apply line_of_lossy).
Qed.
Lemma print_hunk_shown h text :
  sound_hunk h → print_hunk h +:+ text = foldr (λ l acc, shown l +:+ acc) text (hunk_lines h).
Proof.
  intros [Hf Hm]. unfold print_hunk, hunk_lines. cbn [foldr].
  assert (shown (header h) = header h) as ->.
  { unfold shown, header. replace (ends_with LF _) with true; [by rewrite str_app_nil_r|]. symmetry. apply ends_with_true.
    exists ("@@ -" +:+ range (hk_old h).1 (hk_old h).2 +:+ " +" +:+ range (hk_new h).1 (hk_new h).2 +:+ " @@" +:+ hk_func h).
    by rewrite !str_app_assoc. }
  unfold header. rewrite !str_app_assoc. do 7 f_equal. clear Hf.
  induction Hm as [|[mark l] ls [_ Hl] _ IH]; [done|]. csimpl. rewrite str_app_assoc, IH. by rewrite push_line_shown.
Qed.
Lemma hunk_lines_plain h : sound_hunk h → Forall plain_line (hunk_lines h).
Proof.
  intros [Hf Hm]. constructor.
  - split; [|done]. unfold header. eexists. split; [|left; by rewrite <-!str_app_assoc].
    rewrite !has_byte_app, Hf. unfold range.
    assert (∀ n, has_byte lf (dec n) = false) as Hd.
    { intros n. by apply (all_bytes_no_byte is_ascii_digit); [apply dec_all_digit|]. }
    by repeat case_match; rewrite ?has_byte_app, ?Hd.
  - apply Forall_fmap. eapply Forall_impl; [exact Hm|]. intros [mark l] [Hk Hl]. unfold compose, show_line. cbn in *.
    apply line_of_lossy in Hl as (a & Ha & Hl). split.
    + exists (String mark a). split; [|destruct Hl as [->|[-> _]]; [by left|by right]].
      rewrite has_byte_cons, Ha. rewrite !elem_of_cons in Hk. by destruct Hk as [->|[->|[->|?%not_elem_of_nil]]].
    + rewrite !elem_of_cons in Hk. by destruct Hk as [->|[->|[->|?%not_elem_of_nil]]].
Qed.
(** The body of a hunk takes its old lines and gives its new ones. *)
Lemma print_hunks_shown hs :
  Forall sound_hunk hs →
  foldr (λ h acc, print_hunk h +:+ acc) "" hs = foldr (λ l acc, shown l +:+ acc) "" (concat (hunk_lines <$> hs)).
Proof.
  induction 1 as [|h hs Hh _ IH]; [done|]. rewrite fmap_cons. cbn [foldr concat]. by rewrite foldr_app, <-IH, print_hunk_shown.
Qed.
Lemma hunks_lines_plain hs : Forall sound_hunk hs → Forall plain_line (concat (hunk_lines <$> hs)).
Proof. intros H. apply Forall_concat, Forall_fmap. eapply Forall_impl; [exact H|]. apply hunk_lines_plain. Qed.

Lemma apply_body f ms rest pos npos old :
  Forall (λ pl : ascii * string, pl.1 ∈ [" "; "-"; "+"]%char) ms →
  apply_lines (((λ pl : ascii * string, String pl.1 (f pl.2)) <$> ms) ++ rest) pos npos ((f <$> old_side ms) ++ old)
    (length (old_side ms)) (length (new_side ms)) =
  app (f <$> new_side ms) <$>
    apply_lines rest (pos + length (old_side ms)) (npos + length (new_side ms)) old 0 0.
Proof.
  intros Hm. revert pos npos. induction Hm as [|[mark l] ms Hk _ IH]; intros pos npos.
  - cbn. rewrite !Nat.add_0_r. by destruct (apply_lines _ _ _ _ _ _).
  - rewrite !elem_of_cons in Hk. cbn in Hk. rewrite fmap_cons. cbn [app apply_lines fst snd].
    destruct Hk as [->|[->|[->|?%not_elem_of_nil]]]; [| | |done].
    + change (old_side ((" "%char, l) :: ms)) with (l :: old_side ms).
      change (new_side ((" "%char, l) :: ms)) with (l :: new_side ms). csimpl. rewrite eqb_refl, IH.
      rewrite !Nat.add_succ_r. cbn. by destruct (apply_lines _ _ _ _ _ _).
    + change (old_side (("-"%char, l) :: ms)) with (l :: old_side ms).
      change (new_side (("-"%char, l) :: ms)) with (new_side ms). csimpl. rewrite eqb_refl, IH.
      by rewrite !Nat.add_succ_r.
    + change (old_side (("+"%char, l) :: ms)) with (old_side ms).
      change (new_side (("+"%char, l) :: ms)) with (l :: new_side ms). csimpl. rewrite andb_false_r.
      rewrite IH, !Nat.add_succ_r. cbn. destruct (f <$> old_side ms); by destruct (apply_lines _ _ _ _ _ _).
Qed.

Section made.
Context `{HE : Encodings, HS : Similar}.

Lemma slice_elem lines start n l : slice lines start n = Ok l → ∀ x, x ∈ l → x ∈ lines.
Proof.
  unfold slice. intros H x Hx. apply collect_ok in H. apply list_elem_of_lookup in Hx as [i Hi].
  destruct (Forall2_lookup_r _ _ _ _ _ H Hi) as (j & _ & E). apply ctx_ok in E. by eapply list_elem_of_lookup_2.
Qed.
Lemma op_lines_sound ol nl op l :
  Forall line_of ol → Forall line_of nl → op_lines ol nl op = Ok l → Forall sound_mark l.
Proof.
  rewrite !Forall_forall. intros Ho Hn H.
  assert (∀ (lines : list string) (mark : ascii) (k : list string), (∀ x, x ∈ lines → line_of x) → mark ∈ [" "; "-"; "+"]%char → (∀ x, x ∈ k → x ∈ lines) →
    ∀ y, y ∈ mark_lines mark k → sound_mark y) as Hm.
  { intros lines mark k Hl Hk Hin y. unfold mark_lines. rewrite list_elem_of_fmap. intros (x & -> & Hx).
    split; [done|]. cbn. auto. }
  destruct op; cbn [op_lines] in H; inv_ok; intros y Hy.
  - eapply (Hm ol); [done| |by eapply slice_elem|done]. set_solver.
  - eapply (Hm ol); [done| |by eapply slice_elem|done]. set_solver.
  - eapply (Hm nl); [done| |by eapply slice_elem|done]. set_solver.
  - apply elem_of_app in Hy as [Hy|Hy]; [eapply (Hm ol)|eapply (Hm nl)];
      [done| |by eapply slice_elem|done|done| |by eapply slice_elem|done]; set_solver.
Qed.
Lemma make_hunk_sound ol nl g h :
  Forall line_of ol → Forall line_of nl → make_hunk ol nl g = Ok h → sound_hunk h.
Proof.
  intros Ho Hn H. unfold make_hunk in H. inv_ok. split; [by apply funcname_line|]. cbn.
  match goal with H : collect _ _ = Ok ?l |- _ => apply collect_ok in H; rename H into Hc end.
  apply Forall_concat. clear -Hc Ho Hn. induction Hc as [|op l k ls Hl _ IH]; constructor; eauto using op_lines_sound.
Qed.
Lemma apply_from ol nl i j gs :
  Forall line_of ol → Forall line_of nl → spread ol nl i j gs → i ≤ length ol → j ≤ length nl →
  ∃ hs, collect (make_hunk ol nl) gs = Ok hs ∧ Forall sound_hunk hs ∧
    apply_lines (concat (hunk_lines <$> hs)) i j (from_utf8_lossy <$> drop i ol) 0 0 = Some (from_utf8_lossy <$> drop j nl).
Proof.
  intros Ho Hn. induction 1 as [i j E|i j n g i' j' gs E Hi Hj Hg Hal Hsp IH]; intros Hil Hjl.
  { exists []. split; [done|]. split; [done|]. cbn. by rewrite E. }
  destruct (make_hunk_ok _ _ _ _ _ _ _ Hal Hg Hi Hj) as (h & Hh & Eo & En & Hos & Hns & Hii & Hjj).
  destruct IH as (hs & Hhs & Hsound & Ha); [lia..|]. exists (h :: hs). cbn [collect]. rewrite Hh. rsimpl. rewrite Hhs. rsimpl.
  pose proof (make_hunk_sound _ _ _ _ Ho Hn Hh) as Hs. split; [done|]. split; [by constructor|].
  rewrite fmap_cons. cbn [concat]. change (hunk_lines h) with (header h :: (show_line <$> hk_lines h)).
  cbn [app apply_lines Nat.eqb andb]. rewrite read_header_printed, Eo, En. cbn [mbind option_bind].
  replace (i + n - i) with n by lia. rewrite length_fmap, length_drop.
  rewrite (proj2 (Nat.leb_le i (i + n))), (proj2 (Nat.leb_le n _)), Nat.eqb_refl by lia. cbn [andb].
  rewrite <-fmap_drop, drop_drop.
  assert (drop (i + n) ol = old_side (hk_lines h) ++ drop i' ol) as ->.
  { rewrite Hos, <-(take_drop (i' - (i + n)) (drop (i + n) ol)) at 1. rewrite drop_drop. do 2 f_equal. lia. }
  assert (length (old_side (hk_lines h)) = i' - (i + n)) as El1 by (rewrite Hos, length_take, length_drop; lia).
  assert (length (new_side (hk_lines h)) = j' - (j + n)) as El2 by (rewrite Hns, length_take, length_drop; lia).
  rewrite <-El1, <-El2, fmap_app. unfold show_line. rewrite apply_body.
  2: { destruct Hs as [_ Hm]. eapply Forall_impl; [exact Hm|]. by intros pl [? _]. }
  rewrite El1, El2. replace (i + n + (i' - (i + n))) with i' by lia. replace (j + n + (j' - (j + n))) with j' by lia.
  rewrite Ha. cbn. f_equal. rewrite <-fmap_take, E, Hns, <-!fmap_app. f_equal.
  rewrite <-(take_drop n (drop j nl)) at 2. f_equal. rewrite drop_drop.
  rewrite <-(take_drop (j' - (j + n)) (drop (j + n) nl)) at 2. f_equal. rewrite drop_drop. f_equal. lia.
Qed.
End made.

(** ** Main results *)

(** C22. The text of a patch turns the old file into the new one. [hunks] never fails, and a reader of
    unified diffs that knows only the format (headers with their ranges, marked lines, the mark of a
    missing line feed) accepts its text and, from the old file, gives the new file, both as shown: with
    a replacement character for each broken piece of UTF-8. For files in UTF-8 that is the new file,
    byte for byte. The counts of added and removed lines balance the lengths of the two files. *)
Theorem hunks_apply `{HE : Encodings, HS : Similar, !SimilarSpec HS} old new context :
  (∃ text, hunks old new context = Ok text ∧
     apply_patch text (from_utf8_lossy old) = Some (from_utf8_lossy new) ∧
     (utf8_valid old = true → utf8_valid new = true → apply_patch text old = Some new)) ∧
  ∀ fd, diff_is_binary fd = false →
    (line_counts fd).1 + length (split_lines (side_data (df_old fd))) =
    (line_counts fd).2 + length (split_lines (side_data (df_new fd))).
Proof.
  split.
  - destruct (apply_from (file_lines old) (file_lines new) 0 0 (group_ops (capture_diff (file_lines old) (file_lines new)) context))
      as (hs & Hh & Hs & Ha); try apply file_lines_line; [apply groups_spread|lia|lia|].
    unfold hunks, make_hunks. rewrite !split_lines_file, Hh. rsimpl. eexists. split; [done|].
    assert (apply_patch (foldr (λ h acc, print_hunk h +:+ acc) "" hs) (from_utf8_lossy old) = Some (from_utf8_lossy new)) as E.
    { unfold apply_patch. rewrite print_hunks_shown, patch_lines_shown by auto using hunks_lines_plain. cbn [mbind option_bind].
      rewrite !drop_0 in Ha. rewrite lossy_lines, Ha. cbn [mbind option_bind].
      by rewrite <-lossy_lines, <-split_lines_file, split_lines_concat. }
    split; [done|]. intros Ho Hn. by rewrite !lossy_valid in E.
  - intros fd Hb. unfold line_counts. rewrite Hb.
    pose proof (counts_aligned _ _ _ _ _ _ _ (capture_aligned (split_lines (side_data (df_old fd)))
      (split_lines (side_data (df_new fd)))) 0 0). lia.
Qed.
Definition old_text : string := "one" +:+ LF +:+ "two".
Definition new_text : string := "one" +:+ LF +:+ "2" +:+ LF.
Lemma hunks_apply_witness :
  ∃ text, @hunks similar_plain old_text new_text 3 = Ok text ∧ apply_patch text old_text = Some new_text.
Proof.
  destruct (proj1 (@hunks_apply encodings_hex similar_plain _ old_text new_text 3)) as (text & E & _ & H).
  exists text. split; [exact E|]. apply H; vm_compute; reflexivity.
Defined.
