(* ===== verification/MonitorTypes.v ===== *)
(** The record of a monitored command as [runtime-schema/src/monitor_record.rs] declares it, and
    the checked conversions of its bounded integers, texts and times.

    A [MonitorInteger<MIN, MAX>] is its [i64], a [MonitorText] its string, a [MonitorTime] its
    [f64]; the conversion that makes one checks the bounds. *)

From coqutil Require Export Datatypes.RecordSettersUsingExistingGetters.
From S2P Require Import Prelude Strs Json F64.

(** ** Bounded values *)

(** [MonitorTime::try_from]. *)
Definition MonitorTime_try_from (value : f64) : option f64 :=
  if is_finite value && f64_le (S754_zero false) value then Some value else None.
(** [BoundedInteger::<MIN, MAX>::try_from] and [BoundedText::<MIN, MAX>::try_from]. *)
Definition BoundedInteger_try_from (min max n : Z) : option Z :=
  if (min <=? n)%Z && (n <=? max)%Z then Some n else None.
Definition BoundedText_try_from (min max : nat) (value : string) : option string :=
  if (min <=? length (chars value)) && (length (chars value) <=? max) then Some value else None.
(** [values.dedup()] drops an element equal to the one before it. *)
Fixpoint dedup (l : list Z) : list Z :=
  match l with
  | x :: (y :: _) as l' => if (x =? y)%Z then dedup l' else x :: dedup l'
  | _ => l
  end.
Definition MonitorExitCodes_try_from (values : list Z) : option (list Z) :=
  if (1 <=? length values) && (length values <=? 16)
  then mapM (BoundedInteger_try_from 0 255) (dedup (sort_by cle values))
  else None.

Definition max_safe_integer : Z := 9007199254740991.

(** ** Enumerations *)

Inductive MonitorStatus := Approval | Starting | Running | Completed | Failed | Cancelled | Lost.
#[export] Instance MonitorStatus_eq_dec : EqDecision MonitorStatus.
Proof. solve_decision. Defined.
Definition status_text (s : MonitorStatus) : string :=
  match s with
  | Approval => "approval" | Starting => "starting" | Running => "running"
  | Completed => "completed" | Failed => "failed" | Cancelled => "cancelled" | Lost => "lost"
  end.
Definition terminal (s : MonitorStatus) : bool :=
  match s with Completed | Failed | Cancelled | Lost => true | _ => false end.

Inductive MonitorWakeOn := WakeExit | WakeFailure.
Inductive MonitorStream := Stdout | Stderr.
Inductive MonitorInputStatus := Submitted | Acknowledged | InputFailed | Uncertain.
Inductive MonitorCancelStatus := CancelPending | CancelWritten | CancelDone | CancelUnknown.
#[export] Instance MonitorWakeOn_eq_dec : EqDecision MonitorWakeOn.
Proof. solve_decision. Defined.
#[export] Instance MonitorStream_eq_dec : EqDecision MonitorStream.
Proof. solve_decision. Defined.
#[export] Instance MonitorInputStatus_eq_dec : EqDecision MonitorInputStatus.
Proof. solve_decision. Defined.
#[export] Instance MonitorCancelStatus_eq_dec : EqDecision MonitorCancelStatus.
Proof. solve_decision. Defined.

(** ** Parts of the record *)

Record AdmittedRequest := { ar_id : string; ar_signature : string; ar_created : Z }.
#[export] Instance AdmittedRequest_eq_dec : EqDecision AdmittedRequest.
Proof. solve_decision. Defined.
Record MonitorOperationEvidence := {
  ev_thread_id : option string;
  ev_root_request_id : option string;
  ev_provider_generation : option Z;
  ev_provider_request : option AdmittedRequest }.
#[export] Instance MonitorOperationEvidence_eq_dec : EqDecision MonitorOperationEvidence.
Proof. solve_decision. Defined.
Record MonitorOperationRecord := {
  op_account_key : string;
  op_agent : string;
  op_connection_id : string;
  op_epoch : Z;
  op_evidence : MonitorOperationEvidence }.
#[export] Instance MonitorOperationRecord_eq_dec : EqDecision MonitorOperationRecord.
Proof. solve_decision. Defined.
(** [MonitorOperationRecord::same_identity]: everything but the thread id. *)
Definition same_identity (a b : MonitorOperationRecord) : bool :=
  (op_agent a == op_agent b) && (op_epoch a =? op_epoch b)%Z &&
  (op_account_key a == op_account_key b) && (op_connection_id a == op_connection_id b) &&
  (ev_root_request_id (op_evidence a) == ev_root_request_id (op_evidence b)) &&
  (ev_provider_generation (op_evidence a) == ev_provider_generation (op_evidence b)) &&
  (ev_provider_request (op_evidence a) == ev_provider_request (op_evidence b)).

Record MonitorSize := { rows : Z; cols : Z }.
Record MonitorWriteParams := { w_process_id : string; w_delta_base64 : string; w_close_stdin : bool }.
Record MonitorResizeParams := { rs_process_id : string; rs_size : MonitorSize }.
Inductive MonitorInputMethod :=
| Write (params : MonitorWriteParams)
| Resize (params : MonitorResizeParams).
Record MonitorInputAttempt := {
  at_id : string;
  at_operation : MonitorOperationRecord;
  at_method : MonitorInputMethod;
  at_status : MonitorInputStatus;
  at_created : f64;
  at_finished : option f64;
  at_error : option string;
  at_response : option json }.

Inductive ReattachState :=
| RecoveryRunning (started_at : f64)
| NotReattachable (started_at : option f64).
Record ReattachRecovery := {
  rr_account_key : string;
  rr_epoch : Z;
  rr_state : ReattachState;
  rr_proof : option string;
  rr_error : option string;
  rr_finished : option f64 }.

Inductive MonitorProbeResult :=
| ProbeCompleted (exit_code : Z) (output : string)
| ProbeFailed (error : string).
Inductive MonitorQueueEvent :=
| QOutput (cursor : string) (offset byte_length : Z) (delta_base64 : string)
    (stream : MonitorStream) (operation : MonitorOperationRecord)
| QProbe (cursor : string) (generation : Z) (result : MonitorProbeResult) (byte_length : Z)
    (operation : MonitorOperationRecord)
| QExit (cursor : string) (code : option Z) (error : option string) (finished : f64)
    (byte_length : Z) (operation : MonitorOperationRecord).

Record OutputMatchExcerpt := { oe_excerpt : string; oe_log_offset : Z }.
(** [StreamValues<T>]: one optional value for each stream. *)
Record StreamValues (T : Type) := { sv_stdout : option T; sv_stderr : option T }.
Arguments sv_stdout {T} _.
Arguments sv_stderr {T} _.
Definition StreamValues_default {T} : StreamValues T := {| sv_stdout := None; sv_stderr := None |}.
Definition sv_get {T} (v : StreamValues T) (stream : MonitorStream) : option T :=
  match stream with Stdout => sv_stdout v | Stderr => sv_stderr v end.
(** [*v.slot(stream) = x]. *)
Definition sv_set {T} (v : StreamValues T) (stream : MonitorStream) (x : option T) : StreamValues T :=
  match stream with
  | Stdout => {| sv_stdout := x; sv_stderr := sv_stderr v |}
  | Stderr => {| sv_stdout := sv_stdout v; sv_stderr := x |}
  end.
Record OutputWakeBudget := {
  tokens : f64;
  updated_at : f64;
  suppressed_matches : Z;
  total_suppressed_matches : Z;
  paused : bool;
  flood_since : option f64;
  last_suppressed_at : option f64;
  notice_sent : bool }.
Record MonitorCancelDispatch := {
  cd_status : MonitorCancelStatus;
  cd_attempts : option Z;
  cd_updated_at : option f64;
  cd_next_attempt_at : option f64;
  cd_error : option string }.
Record LivenessProbe := {
  lp_generation : Z;
  lp_root_request_id : string;
  lp_provider_request : option AdmittedRequest }.
Record ShellPressureCleanup := { sp_at : f64; sp_generation : Z }.
Record DeliveryFailure := { df_cursor : string; df_error : string }.
Record MonitorTaskGate := { tg_task_id : string; tg_result_id : string }.
Record MonitorProbeLease := { stall_probe_generation : Z; stall_probe_started : f64 }.

#[export] Instance MonitorSize_eq_dec : EqDecision MonitorSize.
Proof. solve_decision. Defined.
#[export] Instance MonitorWriteParams_eq_dec : EqDecision MonitorWriteParams.
Proof. solve_decision. Defined.
#[export] Instance MonitorResizeParams_eq_dec : EqDecision MonitorResizeParams.
Proof. solve_decision. Defined.
#[export] Instance MonitorInputMethod_eq_dec : EqDecision MonitorInputMethod.
Proof. solve_decision. Defined.
#[export] Instance MonitorInputAttempt_eq_dec : EqDecision MonitorInputAttempt.
Proof. solve_decision. Defined.
#[export] Instance ReattachState_eq_dec : EqDecision ReattachState.
Proof. solve_decision. Defined.
#[export] Instance ReattachRecovery_eq_dec : EqDecision ReattachRecovery.
Proof. solve_decision. Defined.
#[export] Instance MonitorProbeResult_eq_dec : EqDecision MonitorProbeResult.
Proof. solve_decision. Defined.
#[export] Instance MonitorQueueEvent_eq_dec : EqDecision MonitorQueueEvent.
Proof. solve_decision. Defined.
#[export] Instance OutputMatchExcerpt_eq_dec : EqDecision OutputMatchExcerpt.
Proof. solve_decision. Defined.
#[export] Instance StreamValues_eq_dec {T} `{EqDecision T} : EqDecision (StreamValues T).
Proof. solve_decision. Defined.
#[export] Instance OutputWakeBudget_eq_dec : EqDecision OutputWakeBudget.
Proof. solve_decision. Defined.
#[export] Instance MonitorCancelDispatch_eq_dec : EqDecision MonitorCancelDispatch.
Proof. solve_decision. Defined.
#[export] Instance LivenessProbe_eq_dec : EqDecision LivenessProbe.
Proof. solve_decision. Defined.
#[export] Instance ShellPressureCleanup_eq_dec : EqDecision ShellPressureCleanup.
Proof. solve_decision. Defined.
#[export] Instance DeliveryFailure_eq_dec : EqDecision DeliveryFailure.
Proof. solve_decision. Defined.
#[export] Instance MonitorTaskGate_eq_dec : EqDecision MonitorTaskGate.
Proof. solve_decision. Defined.
#[export] Instance MonitorProbeLease_eq_dec : EqDecision MonitorProbeLease.
Proof. solve_decision. Defined.

(** ** The record *)

Record MonitorRecord := {
  m_activity_at : f64;
  m_activity_generation : Z;
  m_agent : string;
  m_bytes : Z;
  m_cancel_requested : option bool;
  m_command : string;
  m_configuration_pending : option bool;
  m_created : f64;
  m_cwd : string;
  m_epoch : Z;
  m_error : option string;
  m_exit_code : option Z;
  m_finished : option f64;
  m_id : string;
  m_input_attempt : option MonitorInputAttempt;
  m_last_input_attempt : option MonitorInputAttempt;
  m_reattach_recovery : option ReattachRecovery;
  m_stream_queue : option (list MonitorQueueEvent);
  m_stream_ack_cursor : option string;
  m_account_key : option string;
  m_cancel_dispatch : option MonitorCancelDispatch;
  m_cancel_provider_request : option AdmittedRequest;
  m_cancel_root_request_id : option string;
  m_root_request_id : option string;
  m_reattached_connection_id : option string;
  m_last_stall_at : option f64;
  m_late_answer_at : option f64;
  m_liveness_probe : option LivenessProbe;
  m_last_liveness_result : option MonitorProbeResult;
  m_stdin_error : option string;
  m_restart_after : option string;
  m_restart_signature : option string;
  m_shell_pressure_cleanup : option ShellPressureCleanup;
  m_delivery_failure : option DeliveryFailure;
  m_task_gate : option MonitorTaskGate;
  m_request_id : string;
  m_turn_id : option string;
  m_output_event_count : option Z;
  m_output_event_ids : option (list string);
  m_output_event_sequence : option Z;
  m_output_patterns : option (list string);
  m_output_truncated : option bool;
  m_output_line_offsets : option (StreamValues (list (option Z)));
  m_output_line_tail : option (StreamValues string);
  m_output_match_excerpts : option (gmap string OutputMatchExcerpt);
  m_output_matcher_tail : option (StreamValues string);
  m_output_matches_pending : option (gmap string Z);
  m_output_matches_total : option (gmap string Z);
  m_output_utf8_pending : option (StreamValues string);
  m_output_wake_at : option f64;
  m_output_wake_budget : option OutputWakeBudget;
  m_interactive : bool;
  m_last_exit_code : option Z;
  m_liveness_command : string;
  m_log : string;
  m_operation : option MonitorOperationRecord;
  m_rule_id : option string;
  m_stall_probe : option MonitorProbeLease;
  m_stall_timeout_seconds : Z;
  m_stall_wake_generation : Z;
  m_status : MonitorStatus;
  m_stdin_close_requested : option string;
  m_stdin_closed : option bool;
  m_success_exit_codes : list Z;
  m_tail : string;
  m_timeout_ms : Z;
  m_wake_on : MonitorWakeOn }.
#[export] Instance MonitorRecord_eq_dec : EqDecision MonitorRecord.
Proof. solve_decision. Defined.

(** Read fields of updated records. *)
Ltac msimpl := cbn [set
  m_activity_at m_activity_generation m_agent m_bytes m_cancel_requested m_command
  m_configuration_pending m_created m_cwd m_epoch m_error m_exit_code m_finished m_id
  m_input_attempt m_last_input_attempt m_reattach_recovery m_stream_queue
  m_stream_ack_cursor m_account_key m_cancel_dispatch m_cancel_provider_request
  m_cancel_root_request_id m_root_request_id m_reattached_connection_id m_last_stall_at
  m_late_answer_at m_liveness_probe m_last_liveness_result m_stdin_error m_restart_after
  m_restart_signature m_shell_pressure_cleanup m_delivery_failure m_task_gate m_request_id
  m_turn_id m_output_event_count m_output_event_ids m_output_event_sequence
  m_output_patterns m_output_truncated m_output_line_offsets m_output_line_tail
  m_output_match_excerpts m_output_matcher_tail m_output_matches_pending
  m_output_matches_total m_output_utf8_pending m_output_wake_at m_output_wake_budget
  m_interactive m_last_exit_code m_liveness_command m_log m_operation m_rule_id
  m_stall_probe m_stall_timeout_seconds m_stall_wake_generation m_status
  m_stdin_close_requested m_stdin_closed m_success_exit_codes m_tail m_timeout_ms m_wake_on];
  repeat match goal with |- context [@RecordSettersUsingExistingGetters.const ?E ?v ?x] =>
    change (@RecordSettersUsingExistingGetters.const E v x) with v end.
Tactic Notation "msimpl" "in" hyp(H) := cbn [set
  m_activity_at m_activity_generation m_agent m_bytes m_cancel_requested m_command
  m_configuration_pending m_created m_cwd m_epoch m_error m_exit_code m_finished m_id
  m_input_attempt m_last_input_attempt m_reattach_recovery m_stream_queue
  m_stream_ack_cursor m_account_key m_cancel_dispatch m_cancel_provider_request
  m_cancel_root_request_id m_root_request_id m_reattached_connection_id m_last_stall_at
  m_late_answer_at m_liveness_probe m_last_liveness_result m_stdin_error m_restart_after
  m_restart_signature m_shell_pressure_cleanup m_delivery_failure m_task_gate m_request_id
  m_turn_id m_output_event_count m_output_event_ids m_output_event_sequence
  m_output_patterns m_output_truncated m_output_line_offsets m_output_line_tail
  m_output_match_excerpts m_output_matcher_tail m_output_matches_pending
  m_output_matches_total m_output_utf8_pending m_output_wake_at m_output_wake_budget
  m_interactive m_last_exit_code m_liveness_command m_log m_operation m_rule_id
  m_stall_probe m_stall_timeout_seconds m_stall_wake_generation m_status
  m_stdin_close_requested m_stdin_closed m_success_exit_codes m_tail m_timeout_ms m_wake_on] in H;
  repeat match type of H with context [@RecordSettersUsingExistingGetters.const ?E ?v ?x] =>
    change (@RecordSettersUsingExistingGetters.const E v x) with v in H end.
