(* ===== verification/MonitorMatches.v ===== *)
(** The output of a monitored command ([runtime-services/src/monitor_matches.rs]): decoding its
    bytes into the retained tail, counting literal patterns as chunks arrive, and the budget of
    wake events that reports the counts.

    Bytes are byte strings. The record keeps them in base64, through [Encodings]. *)

From S2P Require Import Prelude Strs Json F64 Canonical Extern Utf8 MonitorTypes.

Notation f64_zero := (S754_zero false).

(** ** Limits *)

Definition MONITOR_OUTPUT_MAX_PATTERNS : nat := 16.
Definition MONITOR_OUTPUT_MAX_PATTERN_BYTES : nat := 256.
Definition MONITOR_OUTPUT_MAX_MATCH_COUNT : Z := 2147483647.
Definition MONITOR_OUTPUT_WAKE_COOLDOWN_SECONDS : f64 := f64_of_Z 1.
Definition MONITOR_OUTPUT_RETAINED_EVENT_IDS : nat := 32.
Definition MONITOR_OUTPUT_TAIL_CODEPOINTS : nat := Z.to_nat 12000.
Definition OUTPUT_WAKE_CAPACITY : f64 := f64_of_Z 10.
Definition OUTPUT_WAKE_REFILL_SECONDS : f64 := f64_of_Z 2.
Definition OUTPUT_WAKE_RECOVERY_SECONDS : f64 := f64_mul (f64_of_Z 3) OUTPUT_WAKE_REFILL_SECONDS.
Definition OUTPUT_WAKE_FLOOD_SECONDS : f64 := f64_of_Z 30.
Definition OUTPUT_EXCERPT_BYTES : nat := 1024.
Definition OUTPUT_CONTEXT_BYTES : nat := OUTPUT_EXCERPT_BYTES.

(** ** Strings *)

Definition newline : ascii := byte_of 10.
Definition is_newline (a : ascii) : bool := Ascii.eqb a newline.
(** [s.iter().position(p)] and [s.iter().rposition(p)]. *)
Fixpoint str_position (p : ascii → bool) (s : string) : option nat :=
  match s with "" => None | String a s => if p a then Some 0 else S <$> str_position p s end.
Fixpoint str_rposition (p : ascii → bool) (s : string) : option nat :=
  match s with
  | "" => None
  | String a s =>
      match str_rposition p s with
      | Some n => Some (S n)
      | None => if p a then Some 0 else None
      end
  end.
(** [s.windows(n)]. *)
Definition windows (n : nat) (s : string) : list string :=
  (λ i, str_take n (str_drop i s)) <$> seq 0 (String.length s + 1 - n).
(** [s.is_char_boundary(n)], and the loop that steps back to a boundary. *)
Definition is_char_boundary (s : string) (n : nat) : bool :=
  (n =? 0) || (n =? String.length s) ||
  match str_drop n s with String a _ => negb (is_cont a) | "" => false end.
Fixpoint floor_boundary (s : string) (n : nat) : nat :=
  if is_char_boundary s n then n else match n with O => O | S n => floor_boundary s n end.
(** [s.parse::<usize>()]. *)
Definition parse_usize (s : string) : option nat :=
  let s := default s (strip_prefix "+" s) in
  if is_empty s || negb (all_bytes is_ascii_digit s) then None
  else Z.to_nat <$> parse_uint u64_max s.
Definition saturating_add (a b : Z) : Z := Z.min u64_max (a + b).

Definition stream_text (stream : MonitorStream) : string :=
  match stream with Stdout => "stdout" | Stderr => "stderr" end.
(** [format!("{stream}:{index}")]. *)
Definition match_key (stream : string) (index : nat) : string :=
  stream +:+ ":" +:+ dec (Z.of_nat index).

(** ** Events *)

Record OutputMatch := {
  om_stream : string;
  om_pattern : string;
  om_count : Z;
  om_excerpt : option string;
  om_log_offset : option Z }.
Record OutputEvent := {
  ov_monitor_id : string;
  ov_epoch : Z;
  ov_sequence : Z;
  ov_matches : list OutputMatch;
  ov_final_chunk : bool;
  ov_suppressed_matches : option Z;
  ov_message : option string;
  ov_output_wakes_paused : option bool }.
Record OutputMatchSummary := {
  os_events : Z;
  os_matches : list OutputMatch;
  os_pending : list OutputMatch;
  os_suppressed_matches : option Z;
  os_output_wakes_paused : option bool }.

Definition new_budget (now : f64) : OutputWakeBudget := {|
  tokens := OUTPUT_WAKE_CAPACITY;
  updated_at := now;
  suppressed_matches := 0;
  total_suppressed_matches := 0;
  paused := false;
  flood_since := None;
  last_suppressed_at := None;
  notice_sent := false |}.

(** [fields.as_ref().and_then(|v| v.get(stream))]. *)
Definition stream_value {T} (fields : option (StreamValues T)) (stream : MonitorStream) : option T :=
  fields ≫= λ v, sv_get v stream.
(** [*fields.get_or_insert_with(StreamValues::default).slot(stream) = x]. *)
Definition set_stream {T} (fields : option (StreamValues T)) (stream : MonitorStream) (x : option T)
  : option (StreamValues T) :=
  Some (sv_set (default StreamValues_default fields) stream x).

Section matches.
Context `{HE : Encodings}.

Definition bytes (fields : option (StreamValues string)) (stream : MonitorStream) : result string :=
  match stream_value fields stream with
  | None => Ok ""
  | Some value => ctx "Invalid monitor output receipt: invalid saved matcher bytes" (base64_decode value)
  end.
Definition save_bytes (fields : option (StreamValues string)) (stream : MonitorStream) (b : string)
  : option (StreamValues string) :=
  set_stream fields stream (if is_empty b then None else Some (base64_encode b)).

(** ** Validation of a stored record *)

Definition valid_budget (budget : OutputWakeBudget) : bool :=
  (f64_le f64_zero (tokens budget) && f64_le (tokens budget) OUTPUT_WAKE_CAPACITY) &&
  is_finite (updated_at budget) && negb (f64_lt (updated_at budget) f64_zero) &&
  forallb (λ time, is_finite time && negb (f64_lt time f64_zero))
    (omap id [flood_since budget; last_suppressed_at budget]).
(** The loop over the offsets: known offsets are a suffix, increasing and below [limit]. *)
Definition check_offset (limit : Z) (last : option Z) (value : option Z) : result (option Z) :=
  match value with
  | Some offset =>
      if (offset <? limit)%Z && is_none_or last (λ previous, (previous <? offset)%Z)
      then Ok (Some offset) else Err "outputLineOffsets"
  | None => if is_none last then Ok last else Err "outputLineOffsets"
  end.
Definition validate_stream (record : MonitorRecord) (stream : MonitorStream) : result () :=
  when (is_some (stream_value (m_output_line_tail record) stream))
    (context ← match bytes (m_output_line_tail record) stream with
               | Ok b => Ok b | Err _ => Err "outputLineTail" end;
     offsets ← ctx "outputLineOffsets" (stream_value (m_output_line_offsets record) stream);
     bail_if ((OUTPUT_CONTEXT_BYTES <? String.length context) ||
              negb (length offsets =? String.length context)) "outputLineOffsets";;
     foldM (check_offset (m_bytes record)) None offsets;; Ok tt).
Definition validate (record : MonitorRecord) : result () :=
  bail_if (is_some_and (m_output_wake_budget record) (λ b, negb (valid_budget b))) "outputWakeBudget";;
  for_each (validate_stream record) [Stdout; Stderr];;
  bail_if (is_some_and (m_output_match_excerpts record) (λ excerpts,
    (MONITOR_OUTPUT_MAX_PATTERNS * 2 <? size excerpts) ||
    existsb (λ value, (OUTPUT_EXCERPT_BYTES <? String.length (oe_excerpt value)) ||
                      (m_bytes record <=? oe_log_offset value)%Z) (values excerpts)))
    "outputMatchExcerpts".

Definition pattern_step (result : list string) (value : string) : Prelude.result (list string) :=
  bail_if (is_empty value) "output_patterns must contain up to 16 non-empty literal strings";;
  bail_if (MONITOR_OUTPUT_MAX_PATTERN_BYTES <? String.length value)
    "Each output pattern must be at most 256 UTF-8 bytes";;
  bail_if (memb value result) "output_patterns must not contain duplicate strings";;
  Ok (result ++ [value]).
Definition patterns (values : option (list string)) : result (list string) :=
  match values with
  | None => Ok []
  | Some values =>
      bail_if ((length values =? 0) || (MONITOR_OUTPUT_MAX_PATTERNS <? length values))
        "output_patterns must contain up to 16 non-empty literal strings";;
      foldM pattern_step [] values
  end.

(** ** The tail *)

(** The last [n] characters of a text, collected into a string. *)
Definition last_chars (n : nat) (text : string) : string :=
  join "" (encode_utf8 <$> drop (length (chars text) - n) (chars text)).
Definition append_tail (record : MonitorRecord) (text : string) : result MonitorRecord :=
  if is_empty text then Ok record else
  tail ← ctx "Invalid monitor output receipt: monitor tail exceeds bound"
    (BoundedText_try_from 0 MONITOR_OUTPUT_TAIL_CODEPOINTS
      (last_chars MONITOR_OUTPUT_TAIL_CODEPOINTS (m_tail record +:+ text)));
  Ok (record <| m_tail := tail |>).
(** The loop of [decode]: the text of [remaining] and the bytes it keeps. Every round but the last
    drops a byte, so the length of [remaining] bounds the rounds. *)
Fixpoint decode_loop (fuel : nat) (final_chunk : bool) (remaining text : string) : string * string :=
  match utf8_error remaining with
  | None => (text +:+ remaining, "")
  | Some (valid_up_to, error_len) =>
      let text := text +:+ str_take valid_up_to remaining in
      let remaining := str_drop valid_up_to remaining in
      match error_len with
      | Some n =>
          match fuel with
          | O => (text, remaining)
          | S fuel => decode_loop fuel final_chunk (str_drop n remaining) (text +:+ replacement "")
          end
      | None => if final_chunk then (text +:+ replacement "", "") else (text, remaining)
      end
  end.
Definition decode_bytes (final_chunk : bool) (combined : string) : string * string :=
  decode_loop (String.length combined) final_chunk combined "".
Definition decode (record : MonitorRecord) (stream : MonitorStream) (chunk : string)
    (final_chunk : bool) : result MonitorRecord :=
  saved ← bytes (m_output_utf8_pending record) stream;
  let '(text, remaining) := decode_bytes final_chunk (saved +:+ chunk) in
  append_tail (record <| m_output_utf8_pending ::= λ f, save_bytes f stream remaining |>) text.

(** ** Counting *)

Definition increment (values : option (gmap string Z)) (key : string) (count : nat)
  : option (gmap string Z) :=
  let values := default ∅ values in
  let entry := default 0%Z (values !! key) in
  Some (<[key := Z.min MONITOR_OUTPUT_MAX_MATCH_COUNT (saturating_add entry (Z.of_nat count))]> values).
(** Where [needle] occurs in [combined], from [start] on. *)
Definition hits (needle combined : string) (start : nat) : list nat :=
  filter_map (λ '(index, part), if part == needle then Some (start + index) else None)
    (enumerate (windows (String.length needle) (str_drop start combined))).
(** The line around the match at [first], cut to the excerpt's size. (An index behind the end of
    [offsets] would panic; [first_known <= first + needle.len() - 1] excludes it.) *)
Definition match_excerpt (needle combined : string) (offsets : list (option Z)) (first_known first : nat)
  : result OutputMatchExcerpt :=
  let line_start := default 0 (S <$> str_rposition is_newline (str_take first combined)) in
  let raw_limit := OUTPUT_EXCERPT_BYTES / 3 in
  let match_end := first + String.length needle in
  let excerpt_start := (line_start `max` (match_end - raw_limit)) `max` first_known in
  let line_end :=
    match str_position is_newline (str_drop match_end combined) with
    | Some index => match_end + index
    | None => String.length combined
    end in
  let excerpt_end := line_end `min` (excerpt_start + raw_limit) in
  let excerpt := from_utf8_lossy (str_take (excerpt_end - excerpt_start) (str_drop excerpt_start combined)) in
  let stop := floor_boundary excerpt (String.length excerpt `min` OUTPUT_EXCERPT_BYTES) in
  log_offset ← ctx "Invalid monitor output receipt: missing output offset"
    (default None (offsets !! excerpt_start));
  Ok {| oe_excerpt := str_take stop excerpt; oe_log_offset := log_offset |}.
(** One round of the loop over the patterns, with the longest pattern so far. *)
Definition append_pattern (stream previous combined : string) (offsets : list (option Z))
    (first_known : nat) (state : MonitorRecord * nat) (item : nat * string)
  : result (MonitorRecord * nat) :=
  let '(record, longest) := state in
  let '(index, needle) := item in
  bail_if (is_empty needle || (MONITOR_OUTPUT_MAX_PATTERN_BYTES <? String.length needle))
    "Invalid monitor output receipt: invalid saved pattern size";;
  let longest := longest `max` String.length needle in
  let start := String.length previous - (String.length needle - 1) in
  match hits needle combined start with
  | [] => Ok (record, longest)
  | first :: rest =>
      let count := 1 + length rest in
      let key := match_key stream index in
      let record := record <| m_output_matches_pending ::= λ v, increment v key count |>
                           <| m_output_matches_total ::= λ v, increment v key count |> in
      let excerpts := default ∅ (m_output_match_excerpts record) in
      match excerpts !! key with
      | Some _ => Ok (record <| m_output_match_excerpts := Some excerpts |>, longest)
      | None =>
          entry ← match_excerpt needle combined offsets first_known first;
          Ok (record <| m_output_match_excerpts := Some (<[key := entry]> excerpts) |>, longest)
      end
  end.
Definition stream_kind (stream : string) : result MonitorStream :=
  if stream == "stdout" then Ok Stdout else if stream == "stderr" then Ok Stderr
  else Err "Invalid monitor output receipt: invalid output stream".
Definition append (record : MonitorRecord) (stream chunk : string) (match_output : bool)
  : result MonitorRecord :=
  kind ← stream_kind stream;
  record ← decode record kind chunk false;
  let patterns := default [] (m_output_patterns record) in
  if negb match_output || (length patterns =? 0) || is_empty chunk then Ok record else
  matcher_tail ← bytes (m_output_matcher_tail record) kind;
  previous ← (if is_some (stream_value (m_output_line_tail record) kind)
              then bytes (m_output_line_tail record) kind else Ok matcher_tail);
  let offset := m_bytes record in
  let known :=
    match stream_value (m_output_line_offsets record) kind with
    | Some v => if length v =? String.length previous then v else replicate (String.length previous) None
    | None => replicate (String.length previous) None
    end in
  let offsets :=
    known ++ ((λ index, Some (offset + Z.of_nat index)%Z) <$> seq 0 (String.length chunk)) in
  let first_known := default (String.length previous) (position is_some offsets) in
  let combined := previous +:+ chunk in
  let record := record <| m_output_matches_pending ::= λ v, Some (default ∅ v) |>
                       <| m_output_matches_total ::= λ v, Some (default ∅ v) |> in
  '(record, longest) ← foldM (append_pattern stream previous combined offsets first_known)
    (record, 0) (enumerate patterns);
  let context_start := String.length combined - OUTPUT_CONTEXT_BYTES in
  let record := record
    <| m_output_line_tail ::= λ v, save_bytes v kind (str_drop context_start combined) |>
    <| m_output_line_offsets ::= λ v, set_stream v kind (Some (drop context_start offsets)) |> in
  let keep := longest - 1 in
  Ok (record <| m_output_matcher_tail ::= λ v,
        save_bytes v kind (str_drop (String.length combined - keep) combined) |>).
Definition flush (record : MonitorRecord) : result MonitorRecord :=
  record ← foldM (λ record stream, decode record stream "" true) record [Stdout; Stderr];
  Ok (record <| m_output_matcher_tail := None |>).
End matches.

(** ** Reporting *)

Definition count_entry (record : MonitorRecord) (entry : string * Z) : option OutputMatch :=
  let '(key, count) := entry in
  '(stream, index) ← split_once ":" key;
  patterns ← m_output_patterns record;
  index ← parse_usize index;
  pattern ← patterns !! index;
  if (0 <? count)%Z then
    Some {| om_stream := stream; om_pattern := pattern; om_count := count;
            om_excerpt := None; om_log_offset := None |}
  else None.
Definition counts (record : MonitorRecord) (values : option (gmap string Z)) : list OutputMatch :=
  filter_map (count_entry record) (from_option entries [] values).

(** The loop that adds the excerpts to the matches of an event; [None] leaves [pending]. *)
Definition add_excerpt (record : MonitorRecord) (excerpts : gmap string OutputMatchExcerpt)
    (item : OutputMatch) : option OutputMatch :=
  patterns ← m_output_patterns record;
  index ← position (λ pattern, pattern == om_pattern item) patterns;
  Some match excerpts !! match_key (om_stream item) index with
       | Some excerpt => item <| om_excerpt := Some (oe_excerpt excerpt) |>
                              <| om_log_offset := Some (oe_log_offset excerpt) |>
       | None => item
       end.
(** The budget of [pending] when time has come to [now]. *)
Definition refill (budget : OutputWakeBudget) (now : f64) : OutputWakeBudget :=
  let budget := budget
    <| tokens ::= λ t, f64_min (f64_add t (f64_div (f64_max (f64_sub now (updated_at budget)) f64_zero)
                                                   OUTPUT_WAKE_REFILL_SECONDS)) OUTPUT_WAKE_CAPACITY |> in
  let budget := budget <| updated_at ::= λ u, f64_max now u |> in
  if negb (paused budget) && is_some_and (last_suppressed_at budget)
       (λ last, f64_lt OUTPUT_WAKE_RECOVERY_SECONDS (f64_sub now last))
  then budget <| flood_since := None |> else budget.
(** What [pending] does to the budget for a batch of [count] matches: the budget, whether it is
    suppressed, whether a notice of that is due, and whether output wakes are paused from now on. *)
Definition spend (budget : OutputWakeBudget) (now : f64) (count : Z) (final_chunk : bool)
  : OutputWakeBudget * bool * bool * bool :=
  if paused budget || f64_lt (tokens budget) (f64_of_Z 1) then
    let budget := budget <| suppressed_matches ::= λ n, saturating_add n count |>
                         <| total_suppressed_matches ::= λ n, saturating_add n count |> in
    if paused budget then (budget, true, false, false) else
    let since := default now (flood_since budget) in
    let newly_paused := f64_le OUTPUT_WAKE_FLOOD_SECONDS (f64_sub now since) in
    let notice := negb (notice_sent budget) || newly_paused || final_chunk in
    (budget <| flood_since := Some since |> <| last_suppressed_at := Some now |>
            <| paused := newly_paused |> <| notice_sent := true |>, true, notice, newly_paused)
  else (budget <| tokens ::= λ t, f64_sub t (f64_of_Z 1) |>, false, false, false).
Definition suppressed_message (suppressed : Z) (newly_paused : bool) : string :=
  if newly_paused then
    "Output-match wakes paused after sustained output. " +:+ dec suppressed +:+ " matches suppressed. The command and exit wake remain active. To resume output wakes, cancel this monitor and start a new monitor with more selective output_patterns."
  else dec suppressed +:+ " output matches suppressed by the monitor wake budget.".

(** [pending]: the record as it leaves it, and the event to send. *)
Definition pending (record : MonitorRecord) (now : f64) (final_chunk : bool)
  : MonitorRecord * option (string * OutputEvent) :=
  let matches := counts record (m_output_matches_pending record) in
  if (length matches =? 0) ||
     (negb final_chunk && f64_lt (f64_sub now (default f64_zero (m_output_wake_at record)))
                                 MONITOR_OUTPUT_WAKE_COOLDOWN_SECONDS)
  then (record, None) else
  match from_option (λ excerpts, mapM (add_excerpt record excerpts) matches) (Some matches)
          (m_output_match_excerpts record) with
  | None => (record, None)
  | Some matches =>
      let count := foldl saturating_add 0%Z (om_count <$> matches) in
      let budget := refill (default (new_budget now) (m_output_wake_budget record)) now in
      let '(budget, suppress, notice, newly_paused) := spend budget now count final_chunk in
      let suppressed := if newly_paused then total_suppressed_matches budget
                        else suppressed_matches budget in
      let budget := if negb suppress || notice then budget <| suppressed_matches := 0%Z |> else budget in
      let record := record <| m_output_matches_pending := Some ∅ |>
                           <| m_output_match_excerpts := Some ∅ |>
                           <| m_output_wake_budget := Some budget |> in
      if suppress && negb notice then (record, None) else
      let sequence := (default 0 (m_output_event_sequence record) + 1)%Z in
      if (u64_max <? sequence)%Z then (record, None) else
      let id := "monitor-output:" +:+ m_id record +:+ ":" +:+ sdec (m_epoch record) +:+ ":" +:+ dec sequence in
      let ids := default [] (m_output_event_ids record) ++ [id] in
      let record := record
        <| m_output_event_ids := Some (drop (length ids - MONITOR_OUTPUT_RETAINED_EVENT_IDS) ids) |>
        <| m_output_event_sequence := Some sequence |>
        <| m_output_event_count := Some (Z.min MONITOR_OUTPUT_MAX_MATCH_COUNT
             (saturating_add (default 0%Z (m_output_event_count record)) 1)) |>
        <| m_output_wake_at := Some now |>
        <| m_output_matches_pending := Some ∅ |> in
      (record, Some (id, {|
        ov_monitor_id := m_id record;
        ov_epoch := m_epoch record;
        ov_sequence := sequence;
        ov_matches := matches;
        ov_final_chunk := final_chunk;
        ov_suppressed_matches := if (0 <? suppressed)%Z then Some suppressed else None;
        ov_message := if (0 <? suppressed)%Z then Some (suppressed_message suppressed newly_paused) else None;
        ov_output_wakes_paused := if newly_paused then Some true else None |}))
  end.
Definition summary (record : MonitorRecord) : option OutputMatchSummary :=
  if is_none_or (m_output_patterns record) (λ p, length p =? 0) then None else
  let budget := m_output_wake_budget record ≫= λ b,
    if (0 <? total_suppressed_matches b)%Z then Some b else None in
  Some {| os_events := default 0%Z (m_output_event_count record);
          os_matches := counts record (m_output_matches_total record);
          os_pending := counts record (m_output_matches_pending record);
          os_suppressed_matches := total_suppressed_matches <$> budget;
          os_output_wakes_paused := paused <$> budget |}.

(** * Decoding *)

Lemma utf8_error_take s v l : utf8_error s = Some (v, l) → utf8_valid (str_take v s) = true.
Proof.
  revert v. induction s as [s IH] using str_length_ind. intros v. destruct s as [|a s]; [done|].
  pose proof (utf8_head_bounds a s) as Hb. rewrite utf8_error_head.
  destruct (utf8_head a s) as [n|n|] eqn:E; [|by intros [= <- _]..].
  intros Hv. apply fmap_Some in Hv as ([v' l'] & Hv & [= -> ->]).
  pose proof (IH _ (piece_shorter a s n (proj1 Hb)) _ Hv) as Hval.
  rewrite str_take_add. apply utf8_valid_app; [|done].
  by apply utf8_error_valid, utf8_head_take.
Qed.

(** The whole input decodes to its lossy text. *)
Lemma decode_loop_final fuel s text :
  String.length s ≤ fuel → decode_loop fuel true s text = (text +:+ from_utf8_lossy s, "").
Proof.
  revert s text. induction fuel as [|fuel IH]; intros s text Hf; cbn [decode_loop];
    pose proof (from_utf8_lossy_step s "") as Hs; rewrite str_app_nil_r in Hs; rewrite Hs;
    (destruct (utf8_error s) as [[v [n|]]|] eqn:E; [pose proof (utf8_error_bounds _ _ _ E) as Hb; cbn in Hb| |by rewrite str_app_nil_r]).
  - lia.
  - rewrite <-Hs, (from_utf8_lossy_cut _ _ E). by rewrite str_app_assoc.
  - rewrite IH by (rewrite !str_drop_length; lia).
    by rewrite str_app_nil_r, str_drop_drop, !str_app_assoc.
  - rewrite <-Hs, (from_utf8_lossy_cut _ _ E). by rewrite str_app_assoc.
Qed.
Lemma decode_bytes_final s : decode_bytes true s = (from_utf8_lossy s, "").
Proof. apply decode_loop_final. done. Qed.
(** In the middle of the input, the text so far and the bytes kept decode, with what follows, to
    the lossy text of everything. *)
Lemma decode_loop_more fuel s text :
  String.length s ≤ fuel →
  ∃ t rest, decode_loop fuel false s text = (text +:+ t, rest) ∧ utf8_valid t = true ∧
    String.length rest ≤ 3 ∧
    ∀ more, from_utf8_lossy (s +:+ more) = t +:+ from_utf8_lossy (rest +:+ more).
Proof.
  revert s text. induction fuel as [|fuel IH]; intros s text Hf; cbn [decode_loop];
    destruct (utf8_error s) as [[v [n|]]|] eqn:E;
    try (pose proof (utf8_error_bounds _ _ _ E) as Hb; cbn in Hb); try lia.
  - exists s, "". split_and!; [done|by apply utf8_error_valid|cbn; lia|]. intros more.
    by rewrite from_utf8_lossy_step, E.
  - destruct (IH (str_drop n (str_drop v s)) ((text +:+ str_take v s) +:+ replacement ""))
      as (t & rest & -> & Ht & Hr & Hm); [rewrite !str_drop_length; lia|].
    exists (str_take v s +:+ replacement "" +:+ t), rest. split_and!; [by rewrite !str_app_assoc| |done|].
    { apply utf8_valid_app; [by eapply utf8_error_take|]. by apply utf8_valid_app. }
    intros more. rewrite from_utf8_lossy_step, E, replacement_app, <-str_drop_drop, Hm.
    by rewrite !str_app_assoc.
  - exists (str_take v s), (str_drop v s). split_and!; [done|by eapply utf8_error_take| |].
    { rewrite str_drop_length. lia. }
    intros more. by rewrite from_utf8_lossy_step, E.
  - exists s, "". split_and!; [done|by apply utf8_error_valid|cbn; lia|]. intros more.
    by rewrite from_utf8_lossy_step, E.
Qed.
Lemma decode_bytes_more s :
  ∃ t rest, decode_bytes false s = (t, rest) ∧ utf8_valid t = true ∧ String.length rest ≤ 3 ∧
    ∀ more, from_utf8_lossy (s +:+ more) = t +:+ from_utf8_lossy (rest +:+ more).
Proof. destruct (decode_loop_more _ s "" (Nat.le_refl _)) as (t & rest & H); eauto. Qed.

(** * Counting *)

(** How often [needle] occurs in [s], overlapping occurrences counted each. *)
Fixpoint occurrences (needle s : string) : nat :=
  match s with
  | "" => 0
  | String _ s' => (if starts_with needle s then 1 else 0) + occurrences needle s'
  end.

Lemma starts_with_take needle s : starts_with needle s = (str_take (String.length needle) s == needle).
Proof.
  apply eq_iff_eq_true. rewrite starts_with_true. unfold eqb. rewrite bool_decide_eq_true. split.
  - intros [r ->]. apply str_take_app_length.
  - intros H. exists (str_drop (String.length needle) s). by rewrite <-H at 1; rewrite str_take_drop.
Qed.
Lemma starts_with_short needle s : String.length s < String.length needle → starts_with needle s = false.
Proof.
  intros H. apply not_true_iff_false. rewrite starts_with_true. intros [r ->].
  rewrite str_length_app in H. lia.
Qed.
Lemma starts_with_app needle a b :
  String.length needle ≤ String.length a → starts_with needle (a +:+ b) = starts_with needle a.
Proof. intros H. by rewrite !starts_with_take, str_take_app. Qed.
Lemma occurrences_short needle s : String.length s < String.length needle → occurrences needle s = 0.
Proof.
  induction s as [|a s IH]; [done|]. intros H. cbn [occurrences].
  rewrite starts_with_short, IH; [done| |done]. cbn in H. lia.
Qed.
(** The occurrences in [a +:+ b] are those in [a] and those that end in [b], which the last
    [n - 1] bytes of [a] decide. *)
Lemma occurrences_app needle a b :
  needle ≠ "" →
  occurrences needle (a +:+ b) =
  occurrences needle a + occurrences needle (str_drop (String.length a - (String.length needle - 1)) a +:+ b).
Proof.
  intros Hn. assert (0 < String.length needle) by (destruct needle; [done|cbn; lia]).
  induction a as [|x a IH]; [by rewrite str_app_nil_l|].
  destruct (decide (String.length needle ≤ String.length (String x a))) as [Hl|Hl].
  - rewrite str_app_cons. cbn [occurrences]. rewrite <-str_app_cons, starts_with_app, IH by done.
    cbn [String.length] in Hl |- *.
    replace (S (String.length a) - (String.length needle - 1))
      with (S (String.length a - (String.length needle - 1))) by lia. cbn [str_drop]. lia.
  - rewrite (occurrences_short needle (String x a)) by lia.
    by replace (String.length (String x a) - (String.length needle - 1)) with 0 by lia.
Qed.

(** The hits from [start] on are the occurrences there. *)
Lemma hits_aux needle s start k :
  needle ≠ "" →
  length (omap (λ '(index, part), if part == needle then Some (start + index) else None)
    (zip (seq k (length (windows (String.length needle) s))) (windows (String.length needle) s))) =
  occurrences needle s.
Proof.
  intros Hn. assert (0 < String.length needle) by (destruct needle; [done|cbn; lia]).
  unfold windows. rewrite length_fmap, length_seq. revert k.
  induction s as [|a s IH]; intros k.
  { by replace (String.length "" + 1 - String.length needle) with 0 by (cbn; lia). }
  destruct (decide (String.length needle ≤ String.length (String a s))) as [Hl|Hl].
  - cbn [String.length] in *.
    replace (S (String.length s) + 1 - String.length needle)
      with (S (String.length s + 1 - String.length needle)) by lia.
    cbn [seq]. rewrite fmap_cons, <-(fmap_S_seq 0), <-list_fmap_compose. unfold compose.
    cbn [zip zip_with occurrences str_drop]. rewrite starts_with_take. specialize (IH (S k)).
    cbn [omap list_omap]. destruct (_ == needle); cbn [length]; by rewrite IH.
  - rewrite occurrences_short by lia.
    by replace (String.length (String a s) + 1 - String.length needle) with 0 by (cbn in *; lia).
Qed.
Lemma hits_length needle combined start :
  needle ≠ "" → length (hits needle combined start) = occurrences needle (str_drop start combined).
Proof. apply hits_aux. Qed.
Lemma hits_elem needle combined start i :
  needle ≠ "" → i ∈ hits needle combined start →
  start ≤ i ∧ i + String.length needle ≤ String.length combined ∧
  str_take (String.length needle) (str_drop i combined) = needle.
Proof.
  intros Hn Hi. assert (0 < String.length needle) by (destruct needle; [done|cbn; lia]).
  apply list_elem_of_omap in Hi as ([j part] & Hj & Hi). unfold eqb in Hi.
  case_bool_decide as Hp; [|done]. injection Hi as <-.
  apply list_elem_of_lookup in Hj as [k Hk]. unfold enumerate in Hk.
  apply lookup_zip_with_Some in Hk as (j' & part' & [= -> ->] & Hj & Hpart).
  apply lookup_seq in Hj as [-> Hj]. cbn in *. unfold windows in Hpart.
  apply list_lookup_fmap_Some in Hpart as (x & -> & Hx).
  apply lookup_seq in Hx as [-> Hx]. cbn in *. rewrite str_drop_drop in Hp. rewrite Hp.
  rewrite str_drop_length in Hx. split_and!; [lia|lia|done].
Qed.

(** * Excerpts *)

Lemma str_rposition_lt p s n : str_rposition p s = Some n → n < String.length s.
Proof.
  revert n. induction s as [|a s IH]; intros n; cbn; [done|].
  destruct (str_rposition p s) as [k|]; [intros [= <-]; specialize (IH k eq_refl); lia|].
  destruct (p a); [intros [= <-]; lia|done].
Qed.
Lemma floor_boundary_le s n : floor_boundary s n ≤ n.
Proof. induction n as [|n IH]; cbn [floor_boundary]; destruct (is_char_boundary _ _); lia. Qed.
Lemma floor_boundary_length s : floor_boundary s (String.length s) = String.length s.
Proof.
  assert (is_char_boundary s (String.length s) = true) as H.
  { unfold is_char_boundary. by rewrite Nat.eqb_refl, orb_true_r. }
  destruct (String.length s); cbn [floor_boundary]; by rewrite H.
Qed.

(** Offsets that are known from [first_known] on, and below [limit]. *)
Definition offsets_known (offsets : list (option Z)) (first_known : nat) (limit : Z) : Prop :=
  ∀ i, first_known ≤ i < length offsets →
       ∃ z, offsets !! i = Some (Some z) ∧ (0 <= z < limit)%Z.

Section excerpt.
Context (needle combined : string) (offsets : list (option Z)) (first_known first : nat) (limit : Z).
Hypothesis Hneedle : needle ≠ "".
Hypothesis Hsize : String.length needle ≤ MONITOR_OUTPUT_MAX_PATTERN_BYTES.
Hypothesis Hend : first + String.length needle ≤ String.length combined.
Hypothesis Hknown : first_known < first + String.length needle.
Hypothesis Hlen : length offsets = String.length combined.
Hypothesis Hoff : offsets_known offsets first_known limit.

Lemma line_start_le :
  default 0 (S <$> str_rposition is_newline (str_take first combined)) ≤ first.
Proof.
  destruct (str_rposition _ _) as [n|] eqn:E; cbn; [|lia].
  apply str_rposition_lt in E. rewrite str_take_length in E. lia.
Qed.
(** The excerpt is within bounds: its start is an index of [offsets] and its size is limited. *)
Lemma match_excerpt_ok :
  ∃ e, match_excerpt needle combined offsets first_known first = Ok e ∧
    String.length (oe_excerpt e) ≤ OUTPUT_EXCERPT_BYTES ∧ (0 <= oe_log_offset e < limit)%Z.
Proof.
  pose proof line_start_le as Hline. unfold match_excerpt.
  set (line_start := default 0 _) in *.
  assert (0 < String.length needle) as Hpos by (destruct needle; [done|cbn; lia]).
  set (start := (line_start `max` (first + String.length needle - OUTPUT_EXCERPT_BYTES / 3)) `max` first_known).
  assert (start < first + String.length needle) as Hs.
  { subst start. assert (0 < OUTPUT_EXCERPT_BYTES / 3) by (vm_compute; lia). lia. }
  destruct (Hoff start) as (z & Hz & Hlim); [rewrite Hlen; split; [subst start|]; lia|].
  rewrite Hz. eexists. split; [reflexivity|]. cbn [oe_excerpt oe_log_offset]. split; [|done].
  rewrite str_take_length. etrans; [apply Nat.le_min_l|]. etrans; [apply floor_boundary_le|]. lia.
Qed.
(** The matched text remains in the excerpt, if its log offsets are known. *)
Lemma match_excerpt_contains e :
  utf8_valid needle = true → first_known ≤ first →
  str_take (String.length needle) (str_drop first combined) = needle →
  match_excerpt needle combined offsets first_known first = Ok e →
  contains_str needle (oe_excerpt e) = true.
Proof.
  intros Hv Hk Hhit He. pose proof line_start_le as Hline. unfold match_excerpt in He.
  set (line_start := default 0 _) in *.
  set (start := (line_start `max` (first + String.length needle - OUTPUT_EXCERPT_BYTES / 3)) `max` first_known) in *.
  set (line_end := match str_position _ _ with Some _ => _ | None => _ end) in *.
  assert (OUTPUT_EXCERPT_BYTES / 3 = 341) as Hlimit by reflexivity. rewrite Hlimit in *.
  unfold MONITOR_OUTPUT_MAX_PATTERN_BYTES in Hsize.
  assert (first + String.length needle ≤ line_end) as Hle by (subst line_end; case_match; lia).
  assert (start ≤ first) as Hs by (subst start; lia).
  set (stop := line_end `min` (start + 341)) in *.
  assert (first + String.length needle ≤ stop ≤ start + 341) as Hstop by (subst stop start; lia).
  set (piece := str_take (stop - start) (str_drop start combined)) in *.
  assert (∃ a b, piece = a +:+ needle +:+ b) as (a & b & Hpiece).
  { exists (str_take (first - start) (str_drop start combined)).
    exists (str_take (stop - first - String.length needle) (str_drop (String.length needle) (str_drop first combined))).
    subst piece. replace (stop - start) with
      ((first - start) + (String.length needle + (stop - first - String.length needle))) by lia.
    rewrite !str_take_add, !str_drop_drop. replace (start + (first - start)) with first by lia.
    by rewrite Hhit. }
  assert (String.length (from_utf8_lossy piece) ≤ OUTPUT_EXCERPT_BYTES) as Hsmall.
  { etrans; [apply from_utf8_lossy_length|]. subst piece. rewrite str_take_length.
    unfold OUTPUT_EXCERPT_BYTES. lia. }
  rewrite Nat.min_l, floor_boundary_length in He by done. inv_ok. cbn [oe_excerpt].
  rewrite str_take_ge by done. rewrite Hpiece, from_utf8_lossy_middle by done.
  apply contains_str_true. eauto.
Qed.
End excerpt.

(** * One chunk *)

Lemma match_key_inj st st' i j :
  match_key (stream_text st) i = match_key (stream_text st') j → st = st' ∧ i = j.
Proof.
  unfold match_key. intros H.
  assert (String.length (stream_text st) = String.length (stream_text st')) as Hl by (by destruct st, st').
  apply str_app_inj_len in H as [Hs H]; [|done]. split; [by destruct st, st'|].
  injection H as H. apply dec_inj in H; lia.
Qed.

Definition count_of (values : option (gmap string Z)) (key : string) : Z :=
  default 0%Z (default ∅ values !! key).
(** A saturated count. *)
Definition capped (n : Z) : Z := Z.min MONITOR_OUTPUT_MAX_MATCH_COUNT n.
Lemma count_increment values key n key' :
  (0 <= count_of values key' <= MONITOR_OUTPUT_MAX_MATCH_COUNT)%Z →
  count_of (increment values key n) key' =
  if decide (key' = key) then capped (count_of values key' + Z.of_nat n) else count_of values key'.
Proof.
  intros Hb. unfold increment, count_of, capped, saturating_add in *. cbn [from_option id].
  case_decide as E; [subst|by rewrite lookup_insert_ne by done].
  rewrite lookup_insert_eq. cbn. unfold MONITOR_OUTPUT_MAX_MATCH_COUNT, u64_max in *. lia.
Qed.
Definition counts_ok (values : option (gmap string Z)) : Prop :=
  ∀ key, (0 <= count_of values key <= MONITOR_OUTPUT_MAX_MATCH_COUNT)%Z.
Lemma counts_ok_increment values key n : counts_ok values → counts_ok (increment values key n).
Proof.
  intros H key'. rewrite count_increment by apply H. specialize (H key'). case_decide; [|done].
  unfold capped, MONITOR_OUTPUT_MAX_MATCH_COUNT in *. lia.
Qed.
Lemma capped_0 n : (n <= MONITOR_OUTPUT_MAX_MATCH_COUNT)%Z → capped (n + 0) = n.
Proof. unfold capped. lia. Qed.
Lemma capped_add a b : (0 <= b)%Z → capped (capped a + b) = capped (a + b).
Proof. unfold capped, MONITOR_OUTPUT_MAX_MATCH_COUNT. lia. Qed.

Definition excerpt_ok (limit : Z) (e : OutputMatchExcerpt) : Prop :=
  String.length (oe_excerpt e) ≤ OUTPUT_EXCERPT_BYTES ∧ (0 <= oe_log_offset e < limit)%Z.
Definition pattern_ok (p : string) : Prop :=
  p ≠ "" ∧ String.length p ≤ MONITOR_OUTPUT_MAX_PATTERN_BYTES.

(** [record] with other counts and excerpts. *)
Definition with_counts (record : MonitorRecord) pend total excerpts : MonitorRecord :=
  record <| m_output_matches_pending := pend |> <| m_output_matches_total := total |>
         <| m_output_match_excerpts := excerpts |>.

Section patterns.
Context (stream previous chunk : string) (offsets : list (option Z)) (first_known : nat) (limit : Z).
Let combined := previous +:+ chunk.
Let key i := match_key stream i.
Hypothesis Hkey : ∀ i j, key i = key j → i = j.
Hypothesis Hknown : first_known ≤ String.length previous.
Hypothesis Hlen : length offsets = String.length combined.
Hypothesis Hoff : offsets_known offsets first_known limit.

(** The occurrences of a pattern that end in the chunk. *)
Definition new_hits (needle : string) : Z :=
  Z.of_nat (occurrences needle (str_drop (String.length previous - (String.length needle - 1)) combined)).

(** An excerpt made for a pattern: the pattern is in it, when every log offset is known. *)
Definition excerpt_of (p : string) (e : OutputMatchExcerpt) : Prop :=
  excerpt_ok limit e ∧ (first_known = 0 → utf8_valid p = true → contains_str p (oe_excerpt e) = true).

Definition pattern_effect (p : string) (i : nat) (v v' : option (gmap string Z)) : Prop :=
  ∀ key', count_of v' key' =
    if decide (key' = key i) then capped (count_of v key' + new_hits p) else count_of v key'.

Lemma append_pattern_ok record longest index needle :
  pattern_ok needle →
  counts_ok (m_output_matches_pending record) → counts_ok (m_output_matches_total record) →
  ∃ pend total excerpts,
    append_pattern stream previous combined offsets first_known (record, longest) (index, needle)
    = Ok (with_counts record pend total excerpts, longest `max` String.length needle) ∧
    counts_ok pend ∧ counts_ok total ∧
    pattern_effect needle index (m_output_matches_pending record) pend ∧
    pattern_effect needle index (m_output_matches_total record) total ∧
    ∀ key' e, default ∅ excerpts !! key' = Some e →
      default ∅ (m_output_match_excerpts record) !! key' = Some e ∨ (key' = key index ∧ excerpt_of needle e).
Proof.
  intros [Hne Hsize] Hp Ht. unfold append_pattern.
  destruct needle as [|c needle']; [done|]. set (needle := String c needle') in *.
  rewrite (proj2 (Nat.ltb_ge _ _) Hsize). cbn [is_empty orb bail_if mbind result_bind].
  set (start := String.length previous - (String.length needle - 1)).
  pose proof (hits_length needle combined start Hne) as Hlength.
  destruct (hits needle combined start) as [|first rest] eqn:E.
  { exists (m_output_matches_pending record), (m_output_matches_total record), (m_output_match_excerpts record).
    assert (∀ v, counts_ok v → pattern_effect needle index v v) as Hsame.
    { intros v Hv key'. unfold new_hits. fold start. rewrite <-Hlength. case_decide; [|done].
      cbn. rewrite capped_0; [done|apply Hv]. }
    split_and!; auto. by destruct record. }
  assert (∀ v, counts_ok v → pattern_effect needle index v (increment v (key index) (1 + length rest))) as Hinc.
  { intros v Hv key'. rewrite count_increment by apply Hv. unfold new_hits. fold start.
    by rewrite <-Hlength. }
  destruct (hits_elem needle combined start first Hne) as (H1 & H2 & H3).
  { rewrite E. left. }
  assert (0 < String.length needle) by (cbn; lia).
  destruct (match_excerpt_ok needle combined offsets first_known first limit Hne Hsize H2)
    as (entry & He & Hentry); [subst start; lia|done|done|].
  cbn [m_output_match_excerpts set]. change (match_key stream index) with (key index).
  set (inc := λ v, increment v (key index) (1 + length rest)).
  destruct (default ∅ (m_output_match_excerpts record) !! key index) as [old|] eqn:Eold.
  - exists (inc (m_output_matches_pending record)), (inc (m_output_matches_total record)). eexists.
    split; [reflexivity|]. split_and!; subst inc; cbv beta; auto using counts_ok_increment.
  - rewrite He. exists (inc (m_output_matches_pending record)), (inc (m_output_matches_total record)). eexists.
    split; [reflexivity|]. split_and!; subst inc; cbv beta; auto using counts_ok_increment.
    intros key' e Hk. cbn in Hk. destruct (decide (key' = key index)) as [->|].
    + rewrite lookup_insert_eq in Hk. simplify_eq. right. split; [done|]. split; [done|]. intros -> Hv.
      eapply match_excerpt_contains; [..|exact He]; done || lia.
    + rewrite lookup_insert_ne in Hk by done. by left.
Qed.

Definition patterns_effect (ps : list string) (k : nat) (v v' : option (gmap string Z)) : Prop :=
  (∀ j p, ps !! j = Some p → count_of v' (key (k + j)) = capped (count_of v (key (k + j)) + new_hits p)) ∧
  (∀ key', (∀ j, j < length ps → key' ≠ key (k + j)) → count_of v' key' = count_of v key').
Lemma patterns_effect_cons p ps k v v1 v2 :
  pattern_effect p k v v1 → patterns_effect ps (S k) v1 v2 → patterns_effect (p :: ps) k v v2.
Proof.
  intros H1 [H2 H3]. split.
  - intros [|j] q Hq; cbn in Hq.
    + simplify_eq. rewrite H3, H1.
      * rewrite Nat.add_0_r. by rewrite decide_True.
      * intros j _ Heq%Hkey. lia.
    + replace (k + S j) with (S k + j) by lia. rewrite (H2 j q Hq), H1, decide_False; [done|].
      intros Heq%Hkey. lia.
  - intros key' Hk. rewrite H3, H1, decide_False; [done| |].
    + rewrite <-(Nat.add_0_r k). apply Hk. cbn. lia.
    + intros j Hj. replace (S k + j) with (k + S j) by lia. apply Hk. cbn. lia.
Qed.

Lemma append_patterns_ok ps k record longest :
  Forall pattern_ok ps →
  counts_ok (m_output_matches_pending record) → counts_ok (m_output_matches_total record) →
  ∃ pend total excerpts longest',
    foldM (append_pattern stream previous combined offsets first_known) (record, longest)
      (zip (seq k (length ps)) ps) = Ok (with_counts record pend total excerpts, longest') ∧
    counts_ok pend ∧ counts_ok total ∧
    patterns_effect ps k (m_output_matches_pending record) pend ∧
    patterns_effect ps k (m_output_matches_total record) total ∧
    ∀ key' e, default ∅ excerpts !! key' = Some e →
      default ∅ (m_output_match_excerpts record) !! key' = Some e ∨
      ∃ j p, ps !! j = Some p ∧ key' = key (k + j) ∧ excerpt_of p e.
Proof.
  intros Hps. revert k record longest. induction Hps as [|p ps Hp Hps IH]; intros k record longest Hpend Htotal.
  { exists (m_output_matches_pending record), (m_output_matches_total record),
      (m_output_match_excerpts record), longest. split_and!; auto; [by destruct record|done..]. }
  destruct (append_pattern_ok record longest k p Hp Hpend Htotal)
    as (pend1 & total1 & exc1 & H1 & Hp1 & Ht1 & Ep1 & Et1 & Hx1).
  destruct (IH (S k) (with_counts record pend1 total1 exc1) (longest `max` String.length p) Hp1 Ht1)
    as (pend2 & total2 & exc2 & longest2 & H2 & Hp2 & Ht2 & Ep2 & Et2 & Hx2).
  exists pend2, total2, exc2, longest2. cbn [seq zip zip_with length foldM]. rewrite H1. rsimpl.
  split; [exact H2|]. split_and!; [done|done|by eapply patterns_effect_cons..|].
  intros key' e He. destruct (Hx2 key' e He) as [Hold|(j & q & Hj & -> & Hok)].
  - destruct (Hx1 key' e Hold) as [?|[-> Hok]]; [by left|right].
    exists 0, p. by rewrite Nat.add_0_r.
  - right. exists (S j), q. by replace (k + S j) with (S k + j) by lia.
Qed.
End patterns.

(** * The fields of a record that output changes *)

(** [record] without what its output accounts for. *)
Definition core (record : MonitorRecord) : MonitorRecord :=
  record <| m_tail := "" |> <| m_output_utf8_pending := None |>
         <| m_output_matches_pending := None |> <| m_output_matches_total := None |>
         <| m_output_match_excerpts := None |> <| m_output_line_tail := None |>
         <| m_output_line_offsets := None |> <| m_output_matcher_tail := None |>.
(** And without what its output events account for. *)
Definition bare (record : MonitorRecord) : MonitorRecord :=
  let record := core record in
  record <| m_output_wake_budget := None |> <| m_output_event_ids := None |>
         <| m_output_event_sequence := None |> <| m_output_event_count := None |>
         <| m_output_wake_at := None |>.

(** [r'] differs from [r] in that only. *)
Definition keeps (r r' : MonitorRecord) : Prop := core r' = core r.
#[export] Instance keeps_preorder : PreOrder keeps.
Proof. split; [done|]. unfold keeps. intros a b c. congruence. Qed.
Definition holds (r r' : MonitorRecord) : Prop := bare r' = bare r.
#[export] Instance holds_preorder : PreOrder holds.
Proof. split; [done|]. unfold holds. intros a b c. congruence. Qed.
Lemma keeps_holds r r' : keeps r r' → holds r r'.
Proof. unfold keeps, holds, bare. by intros ->. Qed.
Lemma holds_field {A} (f : MonitorRecord → A) r r' :
  (∀ r, f (bare r) = f r) → holds r r' → f r' = f r.
Proof. intros Hf H. by rewrite <-(Hf r'), H, Hf. Qed.
Lemma keeps_field {A} (f : MonitorRecord → A) r r' :
  (∀ r, f (core r) = f r) → keeps r r' → f r' = f r.
Proof. intros Hf H. by rewrite <-(Hf r'), H, Hf. Qed.

Section frame.
Context `{HE : Encodings}.

Lemma append_tail_core r text r' : append_tail r text = Ok r' → keeps r r'.
Proof. unfold append_tail. intros H. case_match; inv_ok; done. Qed.
Lemma decode_core r st chunk final r' : decode r st chunk final = Ok r' → keeps r r'.
Proof. unfold decode. intros H. inv_ok. by match goal with H : append_tail _ _ = _ |- _ => apply append_tail_core in H end. Qed.
Lemma append_pattern_core stream previous combined offsets first_known r l item r' l' :
  append_pattern stream previous combined offsets first_known (r, l) item = Ok (r', l') → keeps r r'.
Proof. unfold append_pattern. intros H. repeat (case_match; inv_ok); try done. Qed.
Lemma append_patterns_core stream previous combined offsets first_known items r l r' l' :
  foldM (append_pattern stream previous combined offsets first_known) (r, l) items = Ok (r', l') →
  keeps r r'.
Proof.
  revert r l. induction items as [|item items IH]; intros r l H; cbn [foldM] in H; inv_ok; [done|].
  destruct x as [r1 l1]. etrans; [by eapply append_pattern_core|by eapply IH].
Qed.
Lemma append_core r stream chunk match_output r' :
  append r stream chunk match_output = Ok r' → keeps r r'.
Proof.
  unfold append. intros H. inv_ok.
  match goal with H : decode _ _ _ _ = _ |- _ => apply decode_core in H as Hd end.
  match goal with H : (if ?b then _ else _) = Ok _ |- _ => destruct b end; inv_ok; [done|].
  match goal with H : foldM _ _ _ = _ |- _ => apply append_patterns_core in H as Hp end.
  etrans; [exact Hd|exact Hp].
Qed.
Lemma flush_core r r' : flush r = Ok r' → keeps r r'.
Proof.
  unfold flush. cbn [foldM]. intros H. inv_ok.
  repeat match goal with H : decode _ _ _ _ = _ |- _ => apply decode_core in H end.
  etrans; [eassumption|eassumption].
Qed.
End frame.
Lemma pending_holds r now final : holds r (pending r now final).1.
Proof. unfold pending, spend. repeat (case_match; try done). Qed.

(** * Events *)

Definition event_sequence (r : MonitorRecord) : Z := default 0%Z (m_output_event_sequence r).
Definition event_id (r : MonitorRecord) (sequence : Z) : string :=
  "monitor-output:" +:+ m_id r +:+ ":" +:+ sdec (m_epoch r) +:+ ":" +:+ dec sequence.
(** An event takes the next number; without one the number stays. *)
Lemma pending_sequence r now final r' ev :
  pending r now final = (r', ev) →
  match ev with
  | None => event_sequence r' = event_sequence r
  | Some (id, e) =>
      event_sequence r' = (event_sequence r + 1)%Z ∧ ov_sequence e = event_sequence r' ∧
      id = event_id r (event_sequence r')
  end.
Proof.
  unfold pending. intros H. case_match; [by simplify_eq|]. case_match; [|by simplify_eq].
  destruct (spend _ _ _ _) as [[[budget suppress] notice] newly_paused].
  case_match; [by simplify_eq|]. case_match; [by simplify_eq|].
  injection H as <- <-. done.
Qed.
