(* ===== verification/MonitorOutput.v ===== *)
(** What the output fields of a monitor's record say about the bytes of the command.

    [output_ok] is the invariant of the fields: saved bytes decode, log offsets are known for the
    newest bytes and increase, excerpts and counts are bounded. Handling a chunk never fails on such
    a record and keeps it, and the output fields of the record pass [validate]. *)

From S2P Require Import Prelude Strs Json F64 Canonical Extern Utf8 MonitorTypes MonitorMatches.

(** * The tail *)

Lemma last_chars_spec n s :
  utf8_valid s = true →
  utf8_valid (last_chars n s) = true ∧ chars (last_chars n s) = drop (length (chars s) - n) (chars s).
Proof.
  intros _. pose proof (chars_scalar s) as Hs. unfold last_chars.
  assert (utf8_chars (join "" (encode_utf8 <$> drop (length (chars s) - n) (chars s)))
          = Some (drop (length (chars s) - n) (chars s))) as E.
  { apply utf8_chars_encode_all. by apply Forall_drop. }
  set (t := join "" _) in *. clearbody t. unfold utf8_valid, chars in *. by rewrite E.
Qed.
Lemma last_chars_id n s : utf8_valid s = true → length (chars s) ≤ n → last_chars n s = s.
Proof.
  intros Hs Hn. destruct (last_chars_spec n s Hs) as [Hv Hc].
  apply chars_inj; [done..|]. rewrite Hc. by replace (length (chars s) - n) with 0 by lia.
Qed.
(** The last characters of a text and of its last characters with more text behind. *)
Lemma last_chars_app n a b :
  utf8_valid a = true → utf8_valid b = true →
  last_chars n (last_chars n a +:+ b) = last_chars n (a +:+ b).
Proof.
  intros Ha Hb. destruct (last_chars_spec n a Ha) as [Hv Hc].
  destruct (last_chars_spec n (a +:+ b)) as [Hv1 Hc1]; [by apply utf8_valid_app|].
  destruct (last_chars_spec n (last_chars n a +:+ b)) as [Hv2 Hc2]; [by apply utf8_valid_app|].
  apply chars_inj; [done..|]. rewrite Hc2, Hc1, !chars_app, Hc by done.
  rewrite !length_app, length_drop.
  rewrite !drop_app, !length_drop, drop_drop. f_equal; f_equal; lia.
Qed.

Definition tail_ok (record : MonitorRecord) : Prop :=
  utf8_valid (m_tail record) = true ∧ length (chars (m_tail record)) ≤ MONITOR_OUTPUT_TAIL_CODEPOINTS.

Lemma append_tail_ok r text :
  tail_ok r → utf8_valid text = true →
  append_tail r text =
  Ok (r <| m_tail := last_chars MONITOR_OUTPUT_TAIL_CODEPOINTS (m_tail r +:+ text) |>).
Proof.
  intros [Hv Hn] Ht. unfold append_tail. destruct (is_empty text) eqn:E.
  { unfold is_empty in E. inv_ok. rewrite str_app_nil_r, last_chars_id by done. by destruct r. }
  destruct (last_chars_spec MONITOR_OUTPUT_TAIL_CODEPOINTS (m_tail r +:+ text)) as [Hv' Hc];
    [by apply utf8_valid_app|].
  unfold BoundedText_try_from. rewrite Hc, length_drop.
  rewrite (proj2 (Nat.leb_le _ _)) by lia. rewrite (proj2 (Nat.leb_le _ _)) by lia. done.
Qed.
Lemma tail_ok_append r text :
  tail_ok r → utf8_valid text = true →
  tail_ok (r <| m_tail := last_chars MONITOR_OUTPUT_TAIL_CODEPOINTS (m_tail r +:+ text) |>).
Proof.
  intros [Hv Hn] Ht.
  destruct (last_chars_spec MONITOR_OUTPUT_TAIL_CODEPOINTS (m_tail r +:+ text)) as [Hv' Hc];
    [by apply utf8_valid_app|].
  split; [exact Hv'|]. etrans; [apply Nat.eq_le_incl, (f_equal length Hc)|]. rewrite length_drop. lia.
Qed.

(** * Saved bytes *)

Section saved.
Context `{HE : Encodings, !EncodingsSpec HE}.

Lemma stream_value_set {T} (f : option (StreamValues T)) st x st' :
  stream_value (set_stream f st x) st' = if decide (st' = st) then x else stream_value f st'.
Proof. destruct f as [[]|], st, st'; done. Qed.
Lemma bytes_save f st b st' :
  bytes (save_bytes f st b) st' = if decide (st' = st) then Ok b else bytes f st'.
Proof.
  unfold bytes, save_bytes. rewrite stream_value_set. case_decide; [|done].
  destruct (is_empty b) eqn:E; [|by rewrite base64_decode_encode].
  unfold is_empty in E. by inv_ok.
Qed.

(** What [decode] does to a record whose saved bytes decode. *)
Lemma decode_ok r st chunk final saved text rest :
  tail_ok r → bytes (m_output_utf8_pending r) st = Ok saved →
  decode_bytes final (saved +:+ chunk) = (text, rest) →
  decode r st chunk final =
  Ok (r <| m_output_utf8_pending ::= λ f, save_bytes f st rest |>
        <| m_tail := last_chars MONITOR_OUTPUT_TAIL_CODEPOINTS (m_tail r +:+ text) |>).
Proof.
  intros Htail Hs Hd. unfold decode. rewrite Hs. rsimpl. rewrite Hd.
  enough (utf8_valid text = true) as Ht.
  { match goal with |- append_tail ?r1 _ = _ => exact (append_tail_ok r1 text Htail Ht) end. }
  destruct final.
  - rewrite decode_bytes_final in Hd. injection Hd as <- _. apply from_utf8_lossy_valid.
  - destruct (decode_bytes_more (saved +:+ chunk)) as (t & rest' & Hd' & Ht & _). congruence.
Qed.
End saved.

(** * The invariant *)

(** The log offsets of saved bytes: unknown ones first, then increasing ones below [limit]. *)
Definition known_offsets (k : nat) (zs : list Z) : list (option Z) := replicate k None ++ (Some <$> zs).
Definition offsets_ok (limit : Z) (zs : list Z) : Prop :=
  StronglySorted Z.lt zs ∧ Forall (λ z, (0 <= z < limit)%Z) zs.

Section invariant.
Context `{HE : Encodings}.

Definition line_ok (r : MonitorRecord) (st : MonitorStream) : Prop :=
  match stream_value (m_output_line_tail r) st with
  | None => stream_value (m_output_line_offsets r) st = None
  | Some _ => ∃ context k zs,
      bytes (m_output_line_tail r) st = Ok context ∧
      String.length context ≤ OUTPUT_CONTEXT_BYTES ∧
      stream_value (m_output_line_offsets r) st = Some (known_offsets k zs) ∧
      k + length zs = String.length context ∧ offsets_ok (m_bytes r) zs
  end.
Definition match_key_of (r : MonitorRecord) (key : string) : Prop :=
  ∃ st i, i < length (default [] (m_output_patterns r)) ∧ key = match_key (stream_text st) i.

Record output_ok (r : MonitorRecord) : Prop := {
  ok_bytes : (0 <= m_bytes r)%Z;
  ok_tail : tail_ok r;
  ok_utf8 st : ∃ b, bytes (m_output_utf8_pending r) st = Ok b;
  ok_matcher st : ∃ b, bytes (m_output_matcher_tail r) st = Ok b;
  ok_line st : line_ok r st;
  ok_patterns : Forall pattern_ok (default [] (m_output_patterns r));
  ok_patterns_length : length (default [] (m_output_patterns r)) ≤ MONITOR_OUTPUT_MAX_PATTERNS;
  ok_pending : counts_ok (m_output_matches_pending r);
  ok_total : counts_ok (m_output_matches_total r);
  ok_excerpts key e : default ∅ (m_output_match_excerpts r) !! key = Some e →
    match_key_of r key ∧ excerpt_ok (m_bytes r) e }.
(** The wake budget, when there is one, is within its bounds. *)
Definition budget_ok (r : MonitorRecord) : Prop :=
  ∀ b, m_output_wake_budget r = Some b → valid_budget b = true.

(** ** The invariant gives what [validate] checks *)

Lemma check_offsets_known limit k zs last :
  offsets_ok limit zs → (k ≠ 0 → last = None) →
  (∀ l z, last = Some l → z ∈ zs → (l < z)%Z) →
  is_ok (foldM (check_offset limit) last (known_offsets k zs)) = true.
Proof.
  intros [Hs Hb] Hk Hl. revert last Hk Hl. induction k as [|k IH]; intros last Hk Hl.
  - unfold known_offsets. cbn [replicate app]. revert last Hk Hl.
    induction Hs as [|z zs Hzs IHz Hz]; intros last Hk Hl; [done|].
    apply Forall_cons in Hb as [Hz1 Hb]. cbn [fmap list_fmap foldM check_offset].
    rewrite (proj2 (Z.ltb_lt _ _)) by lia. cbn [andb].
    assert (is_none_or last (λ previous, (previous <? z)%Z) = true) as ->.
    { destruct last as [l|]; [|done]. cbn. apply Z.ltb_lt. eapply Hl; [done|left]. }
    rsimpl. apply IHz; [done|done|]. intros l y [= <-] Hy.
    by rewrite Forall_forall in Hz; apply Hz.
  - rewrite (Hk ltac:(done)) in *. unfold known_offsets in *. cbn [replicate app foldM check_offset is_none].
    rsimpl. apply IH; done.
Qed.
Lemma known_offsets_length k zs : length (known_offsets k zs) = k + length zs.
Proof. unfold known_offsets. by rewrite length_app, length_replicate, length_fmap. Qed.
Lemma validate_stream_ok r st : line_ok r st → validate_stream r st = Ok tt.
Proof.
  unfold line_ok, validate_stream. destruct (stream_value (m_output_line_tail r) st) as [t|] eqn:E; [|done].
  intros (context & k & zs & Hc & Hlen & Ho & Hk & Hz). cbn [is_some when]. rewrite Hc, Ho. rsimpl.
  rewrite known_offsets_length, Hk, Nat.eqb_refl, (proj2 (Nat.ltb_ge _ _) Hlen). rsimpl.
  pose proof (check_offsets_known (m_bytes r) k zs None Hz) as H.
  destruct (foldM _ _ _); [done|]. cbn in H. discriminate H; done.
Qed.
Lemma size_list_le (l : list string) : size (list_to_set l : gset string) ≤ length l.
Proof.
  induction l as [|x l IH]; [done|]. cbn [list_to_set length].
  destruct (decide (x ∈ (list_to_set l : gset string))) as [Hx|Hx].
  - replace ({[x]} ∪ list_to_set l) with (list_to_set l : gset string) by set_solver. lia.
  - rewrite size_union, size_singleton by set_solver. lia.
Qed.
(** There is at most one excerpt for a stream and a pattern. *)
Lemma excerpts_size (r : MonitorRecord) (excerpts : gmap string OutputMatchExcerpt) :
  (∀ key e, excerpts !! key = Some e → match_key_of r key) →
  size excerpts ≤ 2 * length (default [] (m_output_patterns r)).
Proof.
  intros H. set (n := length (default [] (m_output_patterns r))) in *.
  set (all := (match_key "stdout" <$> seq 0 n) ++ (match_key "stderr" <$> seq 0 n)).
  rewrite <-(size_dom (D:=gset string)).
  etrans; [apply (subseteq_size _ (list_to_set all : gset string))|].
  - intros key [e He]%elem_of_dom. apply elem_of_list_to_set. destruct (H key e He) as (st & i & Hi & ->).
    apply elem_of_app. destruct st; [left|right]; apply list_elem_of_fmap_2, elem_of_seq; subst n; lia.
  - etrans; [apply size_list_le|]. subst all. rewrite length_app, !length_fmap, !length_seq. lia.
Qed.
Lemma output_ok_validate r : output_ok r → budget_ok r → validate r = Ok tt.
Proof.
  intros Hr Hb. unfold validate.
  assert (is_some_and (m_output_wake_budget r) (λ b, negb (valid_budget b)) = false) as ->.
  { destruct (m_output_wake_budget r) as [b|] eqn:Eb; [|done]. cbn. by rewrite (Hb b Eb). }
  rsimpl. cbn [for_each foldM]. unfold for_each. cbn [foldM].
  rewrite !validate_stream_ok by apply Hr. rsimpl.
  pose proof (ok_excerpts r Hr) as Hx. destruct (m_output_match_excerpts r) as [excerpts|]; [|done].
  cbn [is_some_and from_option id] in *. rewrite orb_false_intro; [done| |].
  - apply Nat.ltb_ge. etrans; [by eapply excerpts_size; intros; eapply Hx|].
    pose proof (ok_patterns_length r Hr). lia.
  - apply not_true_iff_false. rewrite existsb_exists. intros (e & He & Hbad).
    apply list_elem_of_In, elem_of_values in He as [key He]. apply Hx in He as (_ & Hlen & Hoff).
    apply orb_true_iff in Hbad as [Hbad%Nat.ltb_lt|Hbad%Z.leb_le]; lia.
Qed.
End invariant.

(** * One chunk *)

Lemma position_known k zs : zs ≠ [] → position is_some (known_offsets k zs) = Some k.
Proof.
  intros Hz. unfold known_offsets. induction k as [|k IH]; cbn; [by destruct zs|]. by rewrite IH.
Qed.
Lemma known_offsets_known k zs limit :
  Forall (λ z, (0 <= z < limit)%Z) zs → offsets_known (known_offsets k zs) k limit.
Proof.
  intros Hz i Hi. rewrite known_offsets_length in Hi. unfold known_offsets.
  rewrite lookup_app_r by (rewrite length_replicate; lia). rewrite length_replicate, list_lookup_fmap.
  destruct (lookup_lt_is_Some_2 zs (i - k)) as [z Hz']; [lia|]. rewrite Hz'. exists z. split; [done|].
  exact (Forall_lookup_1 _ _ _ _ Hz Hz').
Qed.
Lemma known_offsets_drop n k zs : drop n (known_offsets k zs) = known_offsets (k - n) (drop (n - k) zs).
Proof.
  unfold known_offsets. by rewrite drop_app, length_replicate, drop_replicate, fmap_drop.
Qed.
(** The offsets of a chunk whose first byte is at [offset] of the log. *)
Definition chunk_offsets (offset : Z) (n : nat) : list Z := (λ i, (offset + Z.of_nat i)%Z) <$> seq 0 n.
Lemma chunk_offsets_sorted offset n : StronglySorted Z.lt (chunk_offsets offset n).
Proof.
  unfold chunk_offsets. generalize 0. induction n as [|n IH]; intros k; cbn; constructor; [apply IH|].
  apply Forall_forall. intros z Hz. apply list_elem_of_fmap in Hz as (i & -> & Hi%elem_of_seq). lia.
Qed.
Lemma offsets_ok_app limit zs n :
  (0 <= limit)%Z → offsets_ok limit zs →
  offsets_ok (limit + Z.of_nat n) (zs ++ chunk_offsets limit n).
Proof.
  intros Hl [Hs Hb]. pose proof (chunk_offsets_sorted limit n) as Hc.
  assert (Forall (λ z, (limit <= z < limit + Z.of_nat n)%Z) (chunk_offsets limit n)) as Hn.
  { apply Forall_forall. intros z Hz. apply list_elem_of_fmap in Hz as (i & -> & Hi%elem_of_seq). lia. }
  split.
  - induction Hs as [|z zs Hs IH Hz]; [done|]. apply Forall_cons in Hb as [Hz1 Hb]. cbn. constructor; [by apply IH|].
    apply Forall_app. split; [done|]. eapply Forall_impl; [exact Hn|]. cbn. lia.
  - apply Forall_app. split; (eapply Forall_impl; [eassumption|]); cbn; lia.
Qed.
Lemma offsets_ok_drop limit zs n : offsets_ok limit zs → offsets_ok limit (drop n zs).
Proof.
  intros [Hs Hb]. split; [|by apply Forall_drop].
  eapply StronglySorted_sublist; [apply sublist_drop|exact Hs].
Qed.

Section chunk.
Context `{HE : Encodings, !EncodingsSpec HE}.

(** What [append] finds of the stream before the chunk. *)
Definition previous_bytes (r : MonitorRecord) (st : MonitorStream) : result string :=
  matcher_tail ← bytes (m_output_matcher_tail r) st;
  if is_some (stream_value (m_output_line_tail r) st) then bytes (m_output_line_tail r) st else Ok matcher_tail.
Definition previous_offsets (r : MonitorRecord) (st : MonitorStream) (n : nat) : list (option Z) :=
  match stream_value (m_output_line_offsets r) st with
  | Some v => if length v =? n then v else replicate n None
  | None => replicate n None
  end.
Lemma previous_ok r st :
  output_ok r →
  ∃ previous k zs, previous_bytes r st = Ok previous ∧
    previous_offsets r st (String.length previous) = known_offsets k zs ∧
    k + length zs = String.length previous ∧ offsets_ok (m_bytes r) zs.
Proof.
  intros Hr. unfold previous_bytes, previous_offsets. destruct (ok_matcher r Hr st) as [mt Hmt].
  pose proof (ok_line r Hr st) as Hl. unfold line_ok in Hl. rewrite Hmt. rsimpl.
  destruct (stream_value (m_output_line_tail r) st) as [t|].
  - destruct Hl as (context & k & zs & Hc & _ & Ho & Hk & Hz). cbn [is_some]. rewrite Hc, Ho.
    exists context, k, zs. split_and!; [done| |done|done]. by rewrite known_offsets_length, Hk, Nat.eqb_refl.
  - rewrite Hl. exists mt, (String.length mt), []. split_and!; [done| |cbn; lia|split; constructor].
    unfold known_offsets. by rewrite app_nil_r.
Qed.

Definition matching (r : MonitorRecord) (chunk : string) (match_output : bool) : bool :=
  match_output && negb (length (default [] (m_output_patterns r)) =? 0) && negb (is_empty chunk).

(** The decoding of a chunk, for the stream and the tail. *)
Definition decoded (r : MonitorRecord) (st : MonitorStream) (chunk : string) (r' : MonitorRecord) : Prop :=
  ∃ saved text rest,
    bytes (m_output_utf8_pending r) st = Ok saved ∧
    decode_bytes false (saved +:+ chunk) = (text, rest) ∧
    (∀ st', bytes (m_output_utf8_pending r') st' =
            if decide (st' = st) then Ok rest else bytes (m_output_utf8_pending r) st') ∧
    m_tail r' = last_chars MONITOR_OUTPUT_TAIL_CODEPOINTS (m_tail r +:+ text).
(** The saved bytes of a stream have log offsets. *)
Definition all_known (r : MonitorRecord) (st : MonitorStream) : Prop :=
  ∀ previous, previous_bytes r st = Ok previous →
    Forall (λ o, is_some o = true) (previous_offsets r st (String.length previous)).
Definition excerpts_of (r : MonitorRecord) : gmap string OutputMatchExcerpt := default ∅ (m_output_match_excerpts r).
(** The counting of a chunk: the newest bytes of the stream are kept, and each pattern's count
    grows by the occurrences that end in the chunk. *)
Definition counted (r : MonitorRecord) (st : MonitorStream) (chunk : string) (r' : MonitorRecord) : Prop :=
  ∃ previous,
    previous_bytes r st = Ok previous ∧
    (∀ st', previous_bytes r' st' =
       if decide (st' = st)
       then Ok (str_drop (String.length (previous +:+ chunk) - OUTPUT_CONTEXT_BYTES) (previous +:+ chunk))
       else previous_bytes r st') ∧
    (∀ st', is_some (stream_value (m_output_line_tail r') st') =
            (if decide (st' = st) then true else is_some (stream_value (m_output_line_tail r) st'))) ∧
    (∀ st' i p, default [] (m_output_patterns r) !! i = Some p →
      count_of (m_output_matches_total r') (match_key (stream_text st') i) =
      if decide (st' = st)
      then capped (count_of (m_output_matches_total r) (match_key (stream_text st') i) + new_hits previous chunk p)
      else count_of (m_output_matches_total r) (match_key (stream_text st') i)) ∧
    ∀ key, count_of (m_output_matches_pending r') key = count_of (m_output_matches_pending r) key ∨
      ∃ i p, default [] (m_output_patterns r) !! i = Some p ∧ key = match_key (stream_text st) i ∧
        count_of (m_output_matches_pending r') key =
        capped (count_of (m_output_matches_pending r) key + new_hits previous chunk p).
(** The excerpts after it: those of before, and excerpts of the patterns found. *)
Definition excerpted (r : MonitorRecord) (st : MonitorStream) (r' : MonitorRecord) : Prop :=
  (∀ st', all_known r st' → all_known r' st') ∧
  ∀ key e, excerpts_of r' !! key = Some e →
    excerpts_of r !! key = Some e ∨
    ∃ i p, default [] (m_output_patterns r) !! i = Some p ∧ key = match_key (stream_text st) i ∧
      (all_known r st → utf8_valid p = true → contains_str p (oe_excerpt e) = true).
Definition uncounted (r r' : MonitorRecord) : Prop :=
  (∀ st, previous_bytes r' st = previous_bytes r st) ∧
  m_output_line_tail r' = m_output_line_tail r ∧
  m_output_matches_total r' = m_output_matches_total r ∧
  m_output_line_offsets r' = m_output_line_offsets r ∧
  m_output_match_excerpts r' = m_output_match_excerpts r ∧
  m_output_matches_pending r' = m_output_matches_pending r.
Lemma all_known_same r r' st :
  previous_bytes r' st = previous_bytes r st →
  stream_value (m_output_line_offsets r') st = stream_value (m_output_line_offsets r) st →
  all_known r st → all_known r' st.
Proof. unfold all_known, previous_offsets. by intros -> ->. Qed.
Lemma uncounted_excerpted r st r' : uncounted r r' → excerpted r st r'.
Proof.
  intros (H1 & _ & _ & H2 & H3 & _). split.
  - intros st'. apply all_known_same; [done|by rewrite H2].
  - unfold excerpts_of. rewrite H3. by left.
Qed.
Lemma known_offsets_all k zs : Forall (λ o, is_some o = true) (known_offsets k zs) ↔ k = 0.
Proof.
  unfold known_offsets. rewrite Forall_app. split; [|intros ->; split; [done|]].
  - intros [H _]. destruct k; [done|]. by inversion H.
  - apply Forall_fmap, Forall_true. done.
Qed.

Lemma stream_kind_text st : stream_kind (stream_text st) = Ok st.
Proof. by destruct st. Qed.

(** The record after a chunk that is only decoded. *)
Lemma decode_chunk_ok r st chunk :
  output_ok r →
  ∃ r1, decode r st chunk false = Ok r1 ∧ decoded r st chunk r1 ∧ uncounted r r1 ∧ output_ok r1 ∧ keeps r r1.
Proof.
  intros Hr. destruct (ok_utf8 r Hr st) as [saved Hs].
  destruct (decode_bytes_more (saved +:+ chunk)) as (text & rest & Hd & Ht & _).
  eexists. split; [by eapply decode_ok; [apply Hr|exact Hs|exact Hd]|]. split_and!.
  - exists saved, text, rest. split_and!; [done|done| |done]. intros st'. exact (bytes_save _ _ _ _).
  - done.
  - split; try apply Hr.
    + apply (tail_ok_append r text (ok_tail r Hr) Ht).
    + intros st'. destruct (ok_utf8 r Hr st') as [b Hb]. cbn. rewrite bytes_save. case_decide; eauto.
  - done.
Qed.

(** The record [append] builds from the record [r] with the counts updated. *)
Definition saved_context (r : MonitorRecord) (st : MonitorStream) (combined : string)
    (offsets : list (option Z)) (keep : nat) : MonitorRecord :=
  let context_start := String.length combined - OUTPUT_CONTEXT_BYTES in
  r <| m_output_line_tail ::= λ v, save_bytes v st (str_drop context_start combined) |>
    <| m_output_line_offsets ::= λ v, set_stream v st (Some (drop context_start offsets)) |>
    <| m_output_matcher_tail ::= λ v, save_bytes v st (str_drop (String.length combined - keep) combined) |>.

Lemma str_drop_nonempty (s : string) n : s ≠ "" → 0 < n → is_empty (str_drop (String.length s - n) s) = false.
Proof.
  intros Hne Hn. apply not_true_iff_false. intros E%eqb_eq. apply (f_equal String.length) in E.
  rewrite str_drop_length in E. destruct s; [done|]. cbn [String.length] in E. lia.
Qed.
Lemma saved_line_some v st combined st' :
  combined ≠ "" →
  is_some (stream_value (save_bytes v st (str_drop (String.length combined - OUTPUT_CONTEXT_BYTES) combined)) st') =
  if decide (st' = st) then true else is_some (stream_value v st').
Proof.
  intros Hne. unfold save_bytes. rewrite stream_value_set.
  rewrite str_drop_nonempty by (done || unfold OUTPUT_CONTEXT_BYTES, OUTPUT_EXCERPT_BYTES; lia).
  by case_decide.
Qed.
Lemma saved_context_previous r st combined offsets keep st' :
  combined ≠ "" → (∀ st, ∃ b, bytes (m_output_matcher_tail r) st = Ok b) →
  previous_bytes (saved_context r st combined offsets keep) st' =
  if decide (st' = st) then Ok (str_drop (String.length combined - OUTPUT_CONTEXT_BYTES) combined)
  else previous_bytes r st'.
Proof.
  intros Hne Hm. destruct (Hm st') as [b Hb]. unfold previous_bytes, saved_context. msimpl.
  rewrite !bytes_save, saved_line_some, Hb by done. by destruct (decide (st' = st)) as [->|].
Qed.
Lemma saved_context_line r st combined k zs keep st' (limit : Z) :
  combined ≠ "" → k + length zs = String.length combined → offsets_ok limit zs →
  (st' ≠ st → line_ok (r <| m_bytes := limit |>) st') →
  line_ok ((saved_context r st combined (known_offsets k zs) keep) <| m_bytes := limit |>) st'.
Proof.
  intros Hne Hk Hz Hother. unfold line_ok, saved_context in *. msimpl.
  unfold save_bytes at 1. rewrite !stream_value_set, bytes_save.
  destruct (decide (st' = st)) as [->|Hst]; [|by apply Hother].
  rewrite str_drop_nonempty by (done || unfold OUTPUT_CONTEXT_BYTES, OUTPUT_EXCERPT_BYTES; lia).
  set (n := String.length combined - OUTPUT_CONTEXT_BYTES).
  exists (str_drop n combined), (k - n), (drop (n - k) zs).
  rewrite known_offsets_drop, str_drop_length, length_drop.
  split_and!; [done|subst n; lia|done|lia|by apply offsets_ok_drop].
Qed.

Lemma saved_context_known r1 r st combined k zs keep st' :
  combined ≠ "" → (∀ st, ∃ b, bytes (m_output_matcher_tail r) st = Ok b) →
  (∀ st, previous_bytes r st = previous_bytes r1 st) → m_output_line_offsets r = m_output_line_offsets r1 →
  k + length zs = String.length combined → (all_known r1 st → k = 0) → all_known r1 st' →
  all_known (saved_context r st combined (known_offsets k zs) keep) st'.
Proof.
  intros Hne Hm Hpb Hlo Hk Hall Ha. destruct (decide (st' = st)) as [->|Hst].
  - intros previous Hp. rewrite saved_context_previous, decide_True in Hp by done. injection Hp as <-.
    unfold previous_offsets, saved_context. msimpl. rewrite stream_value_set, decide_True by done.
    rewrite length_drop, known_offsets_length, str_drop_length, Hk, Nat.eqb_refl, known_offsets_drop.
    apply known_offsets_all. rewrite (Hall Ha). done.
  - apply (all_known_same r1); [rewrite saved_context_previous, decide_False by done; apply Hpb| |done].
    unfold saved_context. msimpl. rewrite stream_value_set, decide_False by done. by rewrite Hlo.
Qed.

Lemma patterns_effect_inv st previous chunk ps v v' key :
  patterns_effect (stream_text st) previous chunk ps 0 v v' →
  count_of v' key = count_of v key ∨
  ∃ i p, ps !! i = Some p ∧ key = match_key (stream_text st) i ∧
    count_of v' key = capped (count_of v key + new_hits previous chunk p).
Proof.
  intros [H1 H2]. destruct (decide (Exists (λ i, key = match_key (stream_text st) i) (seq 0 (length ps)))) as [He|He].
  - apply Exists_exists in He as (i & Hi & ->). apply elem_of_seq in Hi as [_ Hi].
    destruct (lookup_lt_is_Some_2 ps i Hi) as [p Hp]. right. exists i, p. split; [done|]. split; [done|]. exact (H1 i p Hp).
  - left. apply H2. intros j Hj ->. apply He, Exists_exists. exists j. split; [apply elem_of_seq; lia|done].
Qed.

(** The counting part of [append], from the decoded record on. *)
Lemma append_counting r1 st chunk previous :
  output_ok r1 → matching r1 chunk true = true → previous_bytes r1 st = Ok previous →
  ∃ k zs pend total excerpts longest,
    (matcher_tail ← bytes (m_output_matcher_tail r1) st;
     previous ← (if is_some (stream_value (m_output_line_tail r1) st)
                 then bytes (m_output_line_tail r1) st else Ok matcher_tail);
     let offsets := previous_offsets r1 st (String.length previous) ++
       ((λ index, Some (m_bytes r1 + Z.of_nat index)%Z) <$> seq 0 (String.length chunk)) in
     '(record, longest) ← foldM (append_pattern (stream_text st) previous (previous +:+ chunk) offsets
         (default (String.length previous) (position is_some offsets)))
       (r1 <| m_output_matches_pending ::= λ v, Some (default ∅ v) |>
           <| m_output_matches_total ::= λ v, Some (default ∅ v) |>, 0)
       (enumerate (default [] (m_output_patterns r1)));
     Ok (saved_context record st (previous +:+ chunk) offsets (longest - 1)))
    = Ok (saved_context (with_counts r1 pend total excerpts) st (previous +:+ chunk)
            (known_offsets k zs) longest) ∧
    k + length zs = String.length (previous +:+ chunk) ∧
    offsets_ok (m_bytes r1 + Z.of_nat (String.length chunk)) zs ∧
    counts_ok pend ∧ counts_ok total ∧
    patterns_effect (stream_text st) previous chunk (default [] (m_output_patterns r1)) 0
      (m_output_matches_total r1) total ∧
    patterns_effect (stream_text st) previous chunk (default [] (m_output_patterns r1)) 0
      (m_output_matches_pending r1) pend ∧
    (∀ key' e, default ∅ excerpts !! key' = Some e →
      match_key_of r1 key' ∧ excerpt_ok (m_bytes r1 + Z.of_nat (String.length chunk)) e) ∧
    (all_known r1 st → k = 0) ∧
    ∀ key' e, default ∅ excerpts !! key' = Some e →
      excerpts_of r1 !! key' = Some e ∨
      ∃ i p, default [] (m_output_patterns r1) !! i = Some p ∧ key' = match_key (stream_text st) i ∧
        (k = 0 → utf8_valid p = true → contains_str p (oe_excerpt e) = true).
Proof.
  intros Hr Hm Hprev. destruct (previous_ok r1 st Hr) as (previous' & k & zs & Hp & Ho & Hk & Hz).
  rewrite Hprev in Hp. injection Hp as <-.
  assert (all_known r1 st → k = 0) as Hall.
  { intros Ha. specialize (Ha _ Hprev). rewrite Ho in Ha. by apply known_offsets_all in Ha. }
  unfold previous_bytes in Hprev. destruct (bytes (m_output_matcher_tail r1) st) as [mt|]; [|done].
  cbn [mbind result_bind] in Hprev |- *. rewrite Hprev. rsimpl. rewrite Ho.
  assert (known_offsets k zs ++ ((λ index, Some (m_bytes r1 + Z.of_nat index)%Z) <$> seq 0 (String.length chunk))
    = known_offsets k (zs ++ chunk_offsets (m_bytes r1) (String.length chunk))) as ->.
  { unfold known_offsets, chunk_offsets. by rewrite fmap_app, <-list_fmap_compose, app_assoc. }
  set (zs' := zs ++ chunk_offsets (m_bytes r1) (String.length chunk)).
  unfold matching in Hm. inv_ok.
  assert (length zs' = length zs + String.length chunk) as Hzlen.
  { subst zs'. unfold chunk_offsets. by rewrite length_app, length_fmap, length_seq. }
  assert (zs' ≠ []) as Hne.
  { intros Hnil. rewrite Hnil in Hzlen. cbn in Hzlen. destruct chunk; [done|cbn in Hzlen; lia]. }
  rewrite (position_known k zs' Hne). cbn [from_option id].
  pose proof (offsets_ok_app (m_bytes r1) zs (String.length chunk) (ok_bytes r1 Hr) Hz) as Hz'.
  fold zs' in Hz'.
  assert (k + length zs' = String.length (previous +:+ chunk)) as Hlen.
  { rewrite str_length_app. lia. }
  set (r2 := r1 <| m_output_matches_pending ::= _ |> <| m_output_matches_total ::= _ |>).
  destruct (append_patterns_ok (stream_text st) previous chunk (known_offsets k zs') k
    (m_bytes r1 + Z.of_nat (String.length chunk)) (λ i j H, proj2 (match_key_inj st st i j H))
    ltac:(lia) ltac:(by rewrite known_offsets_length) (known_offsets_known _ _ _ (proj2 Hz'))
    (default [] (m_output_patterns r1)) 0 r2 0 (ok_patterns r1 Hr) (ok_pending r1 Hr) (ok_total r1 Hr))
    as (pend & total & excerpts & longest & Hfold & Hcp & Hct & Hep & Het & Hx).
  exists k, zs', pend, total, excerpts, (longest - 1). unfold enumerate. rewrite Hfold. rsimpl.
  do 7 (split; [done|]). split; [|split; [done|]].
  - intros key' e He. destruct (Hx key' e He) as [Hold|(j & p & Hj & -> & Hok & _)].
    + destruct (ok_excerpts r1 Hr key' e Hold) as [Hkey [Hs1 Hs2]]. split; [done|]. split; [done|].
      split; [lia|]. pose proof (String.length chunk). lia.
    + split; [|done]. exists st, j. split; [by eapply lookup_lt_Some|done].
  - intros key' e He. destruct (Hx key' e He) as [Hold|(j & p & Hj & -> & _ & Hc)]; [by left|right].
    exists j, p. done.
Qed.

Lemma with_bytes_ok r limit : output_ok r → (m_bytes r <= limit)%Z → output_ok (r <| m_bytes := limit |>).
Proof.
  intros Hr Hl. pose proof (ok_bytes r Hr). split; try apply Hr; msimpl; [lia| |].
  - intros st. pose proof (ok_line r Hr st) as H1. unfold line_ok in *. msimpl. case_match; [|done].
    destruct H1 as (context & k & zs & ? & ? & ? & ? & [? Hb]). exists context, k, zs.
    split_and!; [done..|]. split; [done|]. eapply Forall_impl; [exact Hb|]. cbn. lia.
  - intros key e He. destruct (ok_excerpts r Hr key e He) as [Hk [H1 H2]]. split; [done|].
    split; [done|]. lia.
Qed.

(** Handling a chunk never fails on a good record, and leaves a good record once its bytes are
    counted. *)
Lemma append_ok r st chunk match_output :
  output_ok r →
  ∃ r', append r (stream_text st) chunk match_output = Ok r' ∧
    decoded r st chunk r' ∧
    (if matching r chunk match_output then counted r st chunk r' else uncounted r r') ∧
    excerpted r st r' ∧
    output_ok (r' <| m_bytes := (m_bytes r + Z.of_nat (String.length chunk))%Z |>).
Proof.
  intros Hr. destruct (decode_chunk_ok r st chunk Hr) as (r1 & Hd & Hdec & Hun & Hr1 & Hkeep).
  assert (m_output_patterns r1 = m_output_patterns r) as Hps by exact (keeps_field m_output_patterns _ _ (λ _, eq_refl) Hkeep).
  assert (m_bytes r1 = m_bytes r) as Hb by exact (keeps_field m_bytes _ _ (λ _, eq_refl) Hkeep).
  unfold append. rewrite stream_kind_text. rsimpl. rewrite Hd. rsimpl.
  destruct (matching r chunk match_output) eqn:Hm.
  - assert (matching r1 chunk true = true) as Hm1.
    { unfold matching in *. rewrite Hps. by destruct match_output. }
    assert (negb match_output || (length (default [] (m_output_patterns r1)) =? 0) || is_empty chunk = false) as ->.
    { unfold matching in Hm. rewrite Hps. inv_ok. repeat match goal with H : ?b = _ |- context [?b] => rewrite H end. done. }
    destruct (previous_ok r1 st Hr1) as (previous & k0 & zs0 & Hprev & _).
    destruct (append_counting r1 st chunk previous Hr1 Hm1 Hprev)
      as (k & zs & pend & total & excerpts & longest & Heq & Hk & Hz & Hcp & Hct & Het & Hep & Hx & Hall & Hc).
    eexists. split; [exact Heq|].
    assert (previous +:+ chunk ≠ "") as Hne.
    { unfold matching in Hm1. inv_ok. intros Hnil%(f_equal String.length). rewrite str_length_app in Hnil.
      destruct chunk; [done|cbn in Hnil; lia]. }
    split_and!.
    + destruct Hdec as (saved & text & rest & H1 & H2 & H3 & H4). exists saved, text, rest. done.
    + exists previous. split_and!.
      * by rewrite <-(proj1 Hun st).
      * intros st'. rewrite (saved_context_previous _ _ _ _ _ _ Hne) by apply Hr1.
        case_decide; [done|]. by rewrite <-(proj1 Hun st').
      * intros st'. rewrite <-(proj1 (proj2 Hun)). unfold saved_context. msimpl.
        by apply saved_line_some.
      * intros st' i p Hp. rewrite <-Hps in Hp. destruct Het as [He1 He2].
        rewrite <-(proj1 (proj2 (proj2 Hun))). change (m_output_matches_total (saved_context _ _ _ _ _)) with total.
        case_decide as Hst; [subst; by apply (He1 i p)|]. apply He2.
        intros j _ Heq'%match_key_inj. by destruct Heq'.
      * rewrite <-Hps. replace (m_output_matches_pending r) with (m_output_matches_pending r1) by apply Hun.
        intros key. exact (patterns_effect_inv _ _ _ _ _ _ key Hep).
    + pose proof (uncounted_excerpted r st r1 Hun) as [Hk1 _]. destruct Hun as (Hu1 & _ & _ & Hu4 & Hu5 & _). split.
      * intros st' Ha%Hk1. apply (saved_context_known r1); [done|apply Hr1|done..].
      * intros key e He. destruct (Hc key e He) as [Hold|(i & p & Hi & -> & Hcont)]; [left|right].
        { unfold excerpts_of in *. by rewrite <-Hu5. }
        exists i, p. rewrite <-Hps. split; [done|]. split; [done|]. auto.
    + rewrite <-Hb. split.
      * pose proof (ok_bytes r1 Hr1). msimpl. lia.
      * apply Hr1.
      * apply Hr1.
      * intros st'. destruct (ok_matcher r1 Hr1 st') as [b Hb']. unfold saved_context. msimpl.
        rewrite bytes_save. case_decide; eauto.
      * intros st'. apply saved_context_line; [done..|]. intros _.
        apply (ok_line _ (with_bytes_ok r1 (m_bytes r1 + Z.of_nat (String.length chunk)) Hr1 ltac:(lia))).
      * apply Hr1.
      * apply Hr1.
      * exact Hcp.
      * exact Hct.
      * exact Hx.
  - assert (negb match_output || (length (default [] (m_output_patterns r1)) =? 0) || is_empty chunk = true) as ->.
    { unfold matching in Hm. rewrite Hps. by destruct match_output, (_ =? 0), (is_empty chunk). }
    exists r1. do 3 (split; [done|]). split; [by apply uncounted_excerpted|]. apply with_bytes_ok; [done|]. lia.
Qed.
End chunk.


(** * Reports and the end of the output *)

(** [record] without what reporting its output changes. *)
Definition unreported (record : MonitorRecord) : MonitorRecord :=
  record <| m_output_matches_pending := None |> <| m_output_match_excerpts := None |>
         <| m_output_wake_budget := None |> <| m_output_event_ids := None |>
         <| m_output_event_sequence := None |> <| m_output_event_count := None |>
         <| m_output_wake_at := None |>.
Definition reports (r r' : MonitorRecord) : Prop :=
  unreported r' = unreported r ∧
  ((m_output_matches_pending r' = m_output_matches_pending r ∧
    m_output_match_excerpts r' = m_output_match_excerpts r) ∨
   (m_output_matches_pending r' = Some ∅ ∧ m_output_match_excerpts r' = Some ∅)).
Lemma pending_reports r now final : reports r (pending r now final).1.
Proof.
  unfold pending, spend, reports.
  repeat (case_match; try (cbn; split; [done|]; first [by left|by right])).
Qed.
Lemma reports_field {A} (f : MonitorRecord → A) r r' :
  (∀ r, f (unreported r) = f r) → reports r r' → f r' = f r.
Proof. intros Hf [H _]. by rewrite <-(Hf r'), H, Hf. Qed.

Section finish.
Context `{HE : Encodings, !EncodingsSpec HE}.

(** The fields [output_ok] is about. *)
Definition same_output (r r' : MonitorRecord) : Prop :=
  m_bytes r' = m_bytes r ∧ m_tail r' = m_tail r ∧
  m_output_utf8_pending r' = m_output_utf8_pending r ∧
  m_output_matcher_tail r' = m_output_matcher_tail r ∧
  m_output_line_tail r' = m_output_line_tail r ∧
  m_output_line_offsets r' = m_output_line_offsets r ∧
  m_output_patterns r' = m_output_patterns r ∧
  m_output_matches_total r' = m_output_matches_total r ∧
  (∀ key e, excerpts_of r' !! key = Some e → excerpts_of r !! key = Some e) ∧
  (m_output_matches_pending r' = m_output_matches_pending r ∨ m_output_matches_pending r' = Some ∅).
Lemma counts_ok_empty : counts_ok (Some ∅).
Proof. intros key. unfold count_of, MONITOR_OUTPUT_MAX_MATCH_COUNT. cbn [from_option id]. rewrite lookup_empty. cbn. lia. Qed.
Lemma output_ok_same r r' : output_ok r → same_output r r' → output_ok r'.
Proof.
  intros Hr (H1 & H2 & H3 & H4 & H5 & H6 & H7 & H8 & Hx & Hp).
  split; rewrite ?H1, ?H2, ?H3, ?H4, ?H7, ?H8; try apply Hr.
  - unfold tail_ok. rewrite H2. apply Hr.
  - intros st. unfold line_ok. rewrite H1, H5, H6. apply Hr.
  - destruct Hp as [-> | ->]; [apply Hr|apply counts_ok_empty].
  - intros key e He%Hx. unfold match_key_of. rewrite H7. by apply Hr.
Qed.
Lemma reports_same r r' : reports r r' → same_output r r'.
Proof.
  intros H. split_and!; [exact (reports_field m_bytes _ _ (λ _, eq_refl) H)
    |exact (reports_field m_tail _ _ (λ _, eq_refl) H)
    |exact (reports_field m_output_utf8_pending _ _ (λ _, eq_refl) H)
    |exact (reports_field m_output_matcher_tail _ _ (λ _, eq_refl) H)
    |exact (reports_field m_output_line_tail _ _ (λ _, eq_refl) H)
    |exact (reports_field m_output_line_offsets _ _ (λ _, eq_refl) H)
    |exact (reports_field m_output_patterns _ _ (λ _, eq_refl) H)
    |exact (reports_field m_output_matches_total _ _ (λ _, eq_refl) H)|..];
    destruct H as [_ [[Hp H]|[Hp H]]]; unfold excerpts_of; rewrite ?H, ?Hp; auto.
  intros key e. cbn [from_option id]. by rewrite lookup_empty.
Qed.
Lemma reports_ok r r' : output_ok r → reports r r' → output_ok r'.
Proof.
  intros Hr H%reports_same. by eapply output_ok_same.
Qed.

(** The end of the output: what is kept of an unfinished character comes out as replacements. *)
Lemma flush_ok r :
  output_ok r →
  ∃ r' so se, flush r = Ok r' ∧ output_ok r' ∧
    bytes (m_output_utf8_pending r) Stdout = Ok so ∧ bytes (m_output_utf8_pending r) Stderr = Ok se ∧
    (∀ st, bytes (m_output_utf8_pending r') st = Ok "") ∧
    m_tail r' = last_chars MONITOR_OUTPUT_TAIL_CODEPOINTS (m_tail r +:+ from_utf8_lossy so +:+ from_utf8_lossy se) ∧
    m_output_line_tail r' = m_output_line_tail r ∧ m_output_matcher_tail r' = None ∧
    m_output_matches_total r' = m_output_matches_total r ∧ m_bytes r' = m_bytes r ∧
    m_output_line_offsets r' = m_output_line_offsets r ∧ m_output_match_excerpts r' = m_output_match_excerpts r ∧
    m_output_matches_pending r' = m_output_matches_pending r.
Proof.
  intros Hr. destruct (ok_utf8 r Hr Stdout) as [so Hso], (ok_utf8 r Hr Stderr) as [se Hse].
  pose proof (from_utf8_lossy_valid so) as Hvo. pose proof (from_utf8_lossy_valid se) as Hve.
  pose proof (ok_tail r Hr) as Ht.
  pose proof (decode_bytes_final (so +:+ "")) as Hdo. rewrite str_app_nil_r in Hdo at 2.
  pose proof (decode_bytes_final (se +:+ "")) as Hde. rewrite str_app_nil_r in Hde at 2.
  unfold flush. cbn [foldM]. rewrite (decode_ok r Stdout "" true so _ _ Ht Hso Hdo). rsimpl.
  pose proof (tail_ok_append r _ Ht Hvo) as Ht1.
  set (r1 := r <| m_output_utf8_pending ::= _ |> <| m_tail := _ |>).
  assert (bytes (m_output_utf8_pending r1) Stderr = Ok se) as Hse1.
  { subst r1. msimpl. by rewrite bytes_save. }
  rewrite (decode_ok r1 Stderr "" true se _ _ Ht1 Hse1 Hde). rsimpl.
  pose proof (tail_ok_append r1 _ Ht1 Hve) as Ht2.
  eexists _, so, se. split; [reflexivity|]. subst r1. split_and!; try done.
  - split; try apply Hr; try done; msimpl.
    + intros st. rewrite !bytes_save. repeat case_decide; eauto. destruct st; done.
    + intros st. eexists. done.
  - intros st. msimpl. rewrite !bytes_save. repeat case_decide; try done. by destruct st.
  - msimpl. rewrite last_chars_app; [by rewrite str_app_assoc|apply utf8_valid_app; [apply Ht|done]|done].
Qed.
End finish.
