(* ===== verification/MonitorPolicy.v ===== *)
(** The decisions of a monitored command ([runtime-services/src/monitor_policy.rs]): what the
    record becomes, which effects follow and what the caller is told, when it is created, started,
    writes output, stalls, receives input, is cancelled, finishes, or is looked for after a restart.

    A refusal is [Err] with its text. Every decision is a function of the stored record, the owner
    and the time; JSON schemas are the parameter [Schemas]. *)

From S2P Require Import Prelude Strs Json F64 Extern MonitorTypes MonitorMatches.

(** [studio_runtime_schema::validate(name, value)], over the crate [jsonschema]. *)
Class Schemas := schema_validate : string → json → result bool.
(** [Uuid::new_v5(&Uuid::NAMESPACE_URL, name).to_string()]. *)
Class UuidV5 := uuid_v5_url : string → string.

Definition CHUNK_BYTES : nat := Z.to_nat 65536.
Definition PROBE_LEASE_SECONDS : f64 := f64_of_Z 90.
Definition MONITOR_REATTACH_WINDOW_SECONDS : f64 := f64_of_Z 600.
Definition MONITOR_LATE_ANSWER_SECONDS : f64 := f64_of_Z 3600.
Definition DEADLINE_PASSED : string := "deadline_passed".
Definition DEADLINE_LOST_ERROR : string :=
  "Command deadline passed without an answer. Outcome unknown; not rerun.".

Definition monitor_time (value : f64) : result f64 := ctx "Invalid monitor time" (MonitorTime_try_from value).
Definition monitor_integer (min max value : Z) : result Z :=
  ctx "Monitor counter exhausted" (BoundedInteger_try_from min max value).
Definition monitor_text (value : string) : result string :=
  ctx "Monitor text exceeds bound" (BoundedText_try_from 0 (Z.to_nat 12000) value).

(** ** The owner *)

Record Actor := {
  ac_id : string;
  ac_epoch : Z;
  ac_auto_wake : bool;
  ac_deleted_at : option f64;
  ac_account_key : string }.
Definition default_account : string := "default".
Definition de_f64 (j : json) : result f64 := ctx "invalid type, expected a number" (as_f64 j).
Definition Actor_from_value (j : json) : result Actor :=
  f ← de_struct ["id"; "epoch"; "autoWake"; "deletedAt"; "accountKey"] [] false j;
  id ← f_req de_string f "id";
  epoch ← f_req de_i64 f "epoch";
  auto_wake ← f_req de_bool f "autoWake";
  deleted_at ← f_def (de_option de_f64) None f "deletedAt";
  account_key ← f_def de_string default_account f "accountKey";
  Ok {| ac_id := id; ac_epoch := epoch; ac_auto_wake := auto_wake; ac_deleted_at := deleted_at;
        ac_account_key := account_key |}.

Record MonitorSnapshot := { sn_record : MonitorRecord; sn_actor : Actor }.

(** ** Questions about a snapshot *)

Definition is_recovery_running (recovery : ReattachRecovery) : bool :=
  match rr_state recovery with RecoveryRunning _ => true | NotReattachable _ => false end.
Definition active_status (s : MonitorStatus) : bool :=
  match s with Running | Starting | Approval => true | _ => false end.
Definition active (s : MonitorSnapshot) : bool := active_status (m_status (sn_record s)).
Definition unsubmitted_intent (s : MonitorSnapshot) : bool :=
  is_none (m_operation (sn_record s)) &&
  match m_status (sn_record s) with Starting | Approval => true | _ => false end.
Definition recovering (s : MonitorSnapshot) : bool :=
  is_some_and (m_reattach_recovery (sn_record s)) is_recovery_running.
Definition deadline_lost (s : MonitorSnapshot) : bool :=
  (m_status (sn_record s) == Lost) &&
  is_none_or (m_rule_id (sn_record s)) is_empty &&
  is_some_and (m_reattach_recovery (sn_record s)) (λ recovery, rr_proof recovery == Some DEADLINE_PASSED).
Definition awaits_late_answer (s : MonitorSnapshot) (now : f64) : bool :=
  deadline_lost s &&
  is_some_and (m_finished (sn_record s)) (λ finished, f64_lt now (f64_add finished MONITOR_LATE_ANSWER_SECONDS)).
Definition reconciliation_deadline (s : MonitorSnapshot) : option f64 :=
  recovery ← m_reattach_recovery (sn_record s);
  match rr_state recovery with
  | RecoveryRunning started_at => Some (f64_add started_at MONITOR_REATTACH_WINDOW_SECONDS)
  | NotReattachable _ => None
  end.
Definition command_account (s : MonitorSnapshot) : string :=
  from_option op_account_key (ac_account_key (sn_actor s)) (m_operation (sn_record s)).
Definition active_owner (s : MonitorSnapshot) : bool :=
  is_none_or (ac_deleted_at (sn_actor s)) (λ at_, f64_eq at_ f64_zero) &&
  ac_auto_wake (sn_actor s) && (ac_epoch (sn_actor s) =? m_epoch (sn_record s))%Z.
Definition retains_approval_for (s : MonitorSnapshot) (agent : string) : bool :=
  (m_status (sn_record s) == Approval) && unsubmitted_intent s &&
  (m_agent (sn_record s) == agent) && active_owner s.
Definition check_operation (s : MonitorSnapshot) (operation : MonitorOperationRecord) : result () :=
  bail_if (is_none_or (m_operation (sn_record s)) (λ current, negb (same_identity current operation)))
    "Monitor operation identity changed".
(** A rule's command reports to its rule. *)
Definition has_rule (r : MonitorRecord) : bool := is_some_and (m_rule_id r) (λ id, negb (is_empty id)).

(** ** Decisions *)

Inductive Effect :=
| EOutputEvent (id : string) (payload : OutputEvent)
| ExitEvent
| StallEvent (generation : Z) (payload : json)
| EProbe (generation : Z) (command : string)
| ExpireApprovals
| Terminate
| Native (identity method : string) (params : json)
| RuleFinished.
Record Decision := { d_record : MonitorRecord; d_effects : list Effect; d_response : json }.
Definition decision (s : MonitorSnapshot) : Decision :=
  {| d_record := sn_record s; d_effects := []; d_response := JNull |}.
Definition finished_effect (r : MonitorRecord) : Effect := if has_rule r then RuleFinished else ExitEvent.

Section policy.
Context `{HE : Encodings} `{HS : Schemas}.

(** [MonitorSnapshot::checked_stored]: [Err] names the location that is invalid. *)
Definition checked_stored (typed : MonitorRecord) (actor : json) : result MonitorSnapshot :=
  valid ← match schema_validate "PersistedAgentRecord" actor with Ok b => Ok b | Err _ => Err "agent" end;
  ensure valid "agent";;
  validate typed;;
  actor ← match Actor_from_value actor with Ok a => Ok a | Err _ => Err "agent" end;
  bail_if (negb (m_agent typed == ac_id actor)) "agent/id";;
  bail_if (is_some_and (m_operation typed) (λ operation,
    negb (op_agent operation == m_agent typed) || negb (op_epoch operation =? m_epoch typed)%Z)) "operation";;
  Ok {| sn_record := typed; sn_actor := actor |}.

Definition cancel (s : MonitorSnapshot) (owner : option string) (now : f64) : result Decision :=
  let f := sn_record s in
  bail_if (is_some_and owner (λ owner, negb (owner == m_agent f))) "This command belongs to another agent";;
  let d := {| d_record := f; d_effects := [];
              d_response := JObject [("id", JString (m_id f)); ("status", JString (status_text (m_status f)))] |} in
  if negb (active_status (m_status f)) then Ok d else
  let running := m_status f == Running in
  let response := set_key (d_response d) "cancelRequested" (JBool running) in
  if running && (m_cancel_requested f == Some true)
  then Ok {| d_record := f; d_effects := []; d_response := response |}
  else if running then
    Ok {| d_record := f <| m_cancel_requested := Some true |>;
          d_effects := [Terminate; ExpireApprovals]; d_response := response |}
  else
    finished ← monitor_time now;
    Ok {| d_record := f <| m_status := Cancelled |> <| m_finished := Some finished |>
                        <| m_configuration_pending := Some false |>;
          d_effects := [finished_effect f; ExpireApprovals];
          d_response := set_key response "status" (JString "cancelled") |}.

(** [output_effect] on a record that is being decided. *)
Definition output_effect (s : MonitorSnapshot) (record : MonitorRecord) (now : f64) (final_chunk : bool)
  : MonitorRecord * list Effect :=
  if is_none (m_rule_id (sn_record s)) && active_owner s then
    match pending record now final_chunk with
    | (record, Some (id, payload)) => (record, [EOutputEvent id payload])
    | (record, None) => (record, [])
    end
  else (record, []).

Definition output_stream (s : MonitorSnapshot) (operation : MonitorOperationRecord)
    (stream chunk : string) (now : f64) : result Decision :=
  check_operation s operation;;
  let f := sn_record s in
  if negb (m_status f == Running) then Ok (decision s) else
  bail_if (CHUNK_BYTES <? String.length chunk) "Monitor output chunk exceeds bound";;
  let bytes := (m_bytes f + Z.of_nat (String.length chunk))%Z in
  bail_if (u64_max <? bytes)%Z "Monitor output counter exhausted";;
  record ← append f stream chunk (active_owner s);
  let '(record, effects) := output_effect s record now false in
  bail_if (i64_max <? bytes)%Z "Monitor output counter exhausted";;
  bytes ← monitor_integer 0 max_safe_integer bytes;
  let record := record <| m_bytes := bytes |> in
  if is_empty chunk then Ok {| d_record := record; d_effects := effects; d_response := JNull |} else
  activity_at ← monitor_time now;
  bail_if (i64_max <? m_activity_generation f + 1)%Z "Monitor activity counter exhausted";;
  generation ← monitor_integer 0 max_safe_integer (m_activity_generation f + 1);
  Ok {| d_record := record <| m_activity_at := activity_at |> <| m_activity_generation := generation |>;
        d_effects := effects; d_response := JNull |}.

Definition exit_status (f : MonitorRecord) (code : option Z) (error : option string) : MonitorStatus :=
  if m_cancel_requested f == Some true then Cancelled
  else if is_some_and error (λ e, negb (is_empty e)) ||
          negb (is_some_and code (λ c, existsb (λ value, (value =? c)%Z) (m_success_exit_codes f)))
  then Failed else Completed.
Definition finish (s : MonitorSnapshot) (operation : option MonitorOperationRecord) (code : option Z)
    (error : option string) (now : f64) : result Decision :=
  let f := sn_record s in
  bail_if match m_operation f, operation with
          | Some current, Some expected => negb (same_identity current expected)
          | None, None => false
          | _, _ => true
          end "Monitor result belongs to a different command operation";;
  bail_if (is_none code && is_none_or error is_empty) "Monitor result has no definitive outcome";;
  bail_if (is_none operation && (m_status f == Running))
    "A submitted command requires a native operation identity";;
  let late := deadline_lost s in
  if negb (terminal (m_status f)) || late then
    record ← flush (f <| m_reattach_recovery := None |>);
    let '(record, effects) := output_effect s record now true in
    error_text ← match error with Some e => Some <$> monitor_text e | None => Ok None end;
    finished ← monitor_time now;
    let record := record
      <| m_status := exit_status f code error |> <| m_exit_code := code |> <| m_error := error_text |>
      <| m_finished := Some finished |> <| m_configuration_pending := Some false |> in
    let record :=
      if (m_cancel_requested f == Some true) && is_some (m_cancel_dispatch f) then
        record <| m_cancel_dispatch := Some {|
          cd_status := CancelDone; cd_attempts := None; cd_updated_at := Some now;
          cd_next_attempt_at := None; cd_error := None |} |>
      else record in
    let record := if late then record <| m_late_answer_at := Some now |> else record in
    Ok {| d_record := record; d_effects := effects ++ [finished_effect f]; d_response := JNull |}
  else Ok {| d_record := f; d_effects := [finished_effect f]; d_response := JNull |}.

Definition stall_payload (id : string) (quiet : Z) : json :=
  JObject [("id", JString id);
           ("message", JString ("no output for " +:+ dec (quiet / 60) +:+ " min; process still running"));
           ("quietSeconds", JInt quiet); ("status", JString "running")].
Definition quiet_seconds (f : MonitorRecord) (now : f64) : Z :=
  f64_to_u64 (f64_max (f64_sub now (m_activity_at f)) f64_zero).
Definition tick (s : MonitorSnapshot) (now : f64) : result Decision :=
  let f := sn_record s in
  if recovering s then Ok (decision s) else
  let '(record, effects) :=
    if m_status f == Running then output_effect s f now false else (f, []) in
  let quiet := quiet_seconds f now in
  let unchanged := {| d_record := record; d_effects := effects; d_response := JNull |} in
  if negb (m_status f == Running) || (m_cancel_requested f == Some true) || negb (active_owner s) ||
     (m_stall_timeout_seconds f =? 0)%Z || (quiet <? m_stall_timeout_seconds f)%Z ||
     (m_activity_generation f <=? m_stall_wake_generation f)%Z
  then Ok unchanged else
  if is_some_and (m_stall_probe f) (λ lease,
       (stall_probe_generation lease =? m_activity_generation f)%Z &&
       f64_lt (f64_sub now (stall_probe_started lease)) PROBE_LEASE_SECONDS)
  then Ok unchanged else
  let record := record <| m_last_stall_at := Some now |> in
  if is_empty (m_liveness_command f) then
    generation ← monitor_integer (-1) max_safe_integer (m_activity_generation f);
    Ok {| d_record := record <| m_stall_wake_generation := generation |> <| m_stall_probe := None |>;
          d_effects := effects ++ [StallEvent (m_activity_generation f) (stall_payload (m_id f) quiet)];
          d_response := JNull |}
  else
    generation ← monitor_integer 0 max_safe_integer (m_activity_generation f);
    started ← monitor_time now;
    Ok {| d_record := record <| m_stall_probe := Some {| stall_probe_generation := generation;
                                                         stall_probe_started := started |} |>;
          d_effects := effects ++ [EProbe (m_activity_generation f) (m_liveness_command f)];
          d_response := JNull |}.

Definition probe_result_value (result : MonitorProbeResult) : json :=
  match result with
  | ProbeCompleted code output => JObject [("exitCode", JInt code); ("output", JString output)]
  | ProbeFailed error => JObject [("error", JString error)]
  end.
Definition probe_result (s : MonitorSnapshot) (generation : Z) (result : MonitorProbeResult) (now : f64)
  : Prelude.result Decision :=
  let f := sn_record s in
  if negb (m_status f == Running) ||
     is_some_and (ac_deleted_at (sn_actor s)) (λ at_, negb (f64_eq at_ f64_zero)) ||
     negb (ac_epoch (sn_actor s) =? m_epoch f)%Z ||
     negb (stall_probe_generation <$> m_stall_probe f == Some generation) ||
     negb (m_activity_generation f =? generation)%Z
  then Ok (decision s) else
  let payload := set_key (stall_payload (m_id f) (quiet_seconds f now)) "livenessResult" (probe_result_value result) in
  wake ← monitor_integer (-1) max_safe_integer generation;
  Ok {| d_record := f <| m_stall_wake_generation := wake |> <| m_last_liveness_result := Some result |>
                      <| m_stall_probe := None |>;
        d_effects := [StallEvent generation payload]; d_response := JNull |}.

(** ** Input *)

Record Input := { in_text : string; in_rows : option Z; in_cols : option Z; in_close_stdin : bool }.
Definition input_effect_identity (monitor ticket : string) : string :=
  "monitor-input:" +:+ monitor +:+ ":" +:+ ticket.
Definition input_effect_ticket (monitor identity : string) : option string :=
  ticket ← strip_prefix (input_effect_identity monitor "") identity;
  if is_empty ticket then None else Some ticket.
(** The request's JSON that the schema checks: dimensions only when they are given. *)
Definition input_value (id : string) (input : Input) : json :=
  ser_struct [("text", Some (JString (in_text input))); ("rows", JInt <$> in_rows input);
              ("cols", JInt <$> in_cols input); ("closeStdin", Some (JBool (in_close_stdin input)));
              ("id", Some (JString id))].
Definition begin_input (s : MonitorSnapshot) (operation : MonitorOperationRecord) (attempt_id : string)
    (input : Input) (now : f64) : result Decision :=
  check_operation s operation;;
  let f := sn_record s in
  valid ← match schema_validate "MonitorInput" (input_value (m_id f) input) with
          | Ok b => Ok b | Err _ => Err "Invalid monitor input schema" end;
  ensure valid "Invalid monitor input";;
  bail_if (negb (m_status f == Running) || negb (active_owner s) || (m_cancel_requested f == Some true) ||
           negb (m_interactive f)) "This interactive monitor is not active";;
  bail_if (is_some (m_input_attempt f))
    "The previous monitor input outcome is unknown; do not repeat it";;
  bail_if (is_some_and (m_last_input_attempt f) (λ attempt, at_id attempt == attempt_id))
    "Monitor input ticket already settled";;
  let resize := is_some (in_rows input) || is_some (in_cols input) in
  '(method, params, input_method) ← (
    if resize then
      let size := {| rows := default 24%Z (in_rows input); cols := default 80%Z (in_cols input) |} in
      Ok ("command/exec/resize",
          JObject [("processId", JString (m_id f));
                   ("size", JObject [("cols", JInt (cols size)); ("rows", JInt (rows size))])],
          Resize {| rs_process_id := m_id f; rs_size := size |})
    else
      bail_if ((m_stdin_closed f == Some true) || is_some (m_stdin_close_requested f))
        "This monitor stdin is closed or its close acknowledgement is pending";;
      let delta := base64_encode (in_text input) in
      Ok ("command/exec/write",
          JObject [("closeStdin", JBool (in_close_stdin input)); ("deltaBase64", JString delta);
                   ("processId", JString (m_id f))],
          Write {| w_process_id := m_id f; w_delta_base64 := delta; w_close_stdin := in_close_stdin input |}));
  let record := f <| m_input_attempt := Some {|
    at_id := attempt_id; at_operation := operation; at_method := input_method; at_status := Submitted;
    at_created := now; at_finished := None; at_error := None; at_response := None |} |> in
  let record :=
    if negb resize && in_close_stdin input
    then record <| m_stdin_close_requested := Some attempt_id |> <| m_stdin_error := None |>
    else record in
  Ok {| d_record := record;
        d_effects := [Native (input_effect_identity (m_id f) attempt_id) method params];
        d_response := JNull |}.

Inductive InputOutcome :=
| OExpired
| OAcknowledged
| ORejected (error : string)
| OUnknown (error : string).
Definition outcome_status (outcome : InputOutcome) : MonitorInputStatus :=
  match outcome with
  | OAcknowledged => Acknowledged
  | ORejected _ | OExpired => InputFailed
  | OUnknown _ => Uncertain
  end.
Definition outcome_error (outcome : InputOutcome) : option string :=
  match outcome with
  | OAcknowledged => None
  | OExpired => Some "Request id expired"
  | ORejected error | OUnknown error => Some error
  end.
Definition is_unknown (outcome : InputOutcome) : bool := match outcome with OUnknown _ => true | _ => false end.
Definition settle_input (s : MonitorSnapshot) (operation : MonitorOperationRecord) (attempt_id : string)
    (outcome : InputOutcome) (now : f64) : result Decision :=
  check_operation s operation;;
  let f := sn_record s in
  if negb (active_owner s) || negb (m_status f == Running) || (m_cancel_requested f == Some true)
  then Ok (decision s) else
  match m_input_attempt f with
  | None => Ok (decision s)
  | Some attempt =>
      bail_if (negb (at_id attempt == attempt_id) ||
               negb (op_agent (at_operation attempt) == op_agent operation) ||
               negb (op_epoch (at_operation attempt) =? op_epoch operation)%Z ||
               negb (op_account_key (at_operation attempt) == op_account_key operation) ||
               negb (op_connection_id (at_operation attempt) == op_connection_id operation))
        "Monitor input receipt identity changed";;
      let error := outcome_error outcome in
      bail_if (is_some_and error (λ e, Z.to_nat 12000 <? length (chars e))) "Monitor input error exceeds bound";;
      let receipt := attempt <| at_finished := Some now |> <| at_status := outcome_status outcome |> in
      let receipt := if is_some error then receipt <| at_error := error |> else receipt in
      let record :=
        if is_unknown outcome then f <| m_input_attempt := Some receipt |>
        else f <| m_input_attempt := None |> <| m_last_input_attempt := Some receipt |> in
      let record :=
        if m_stdin_close_requested f == Some attempt_id then
          let record := if is_unknown outcome then record else record <| m_stdin_close_requested := None |> in
          let record := if is_some error then record <| m_stdin_error := error |> else record in
          match outcome with
          | OAcknowledged => record <| m_stdin_closed := Some true |> <| m_stdin_error := None |>
          | _ => record
          end
        else record in
      Ok {| d_record := record; d_effects := []; d_response := JNull |}
  end.

(** ** Start and restart *)

Definition start (s : MonitorSnapshot) (operation : MonitorOperationRecord) (params : json) (now : f64)
  : result Decision :=
  let f := sn_record s in
  bail_if (negb (m_status f == Starting) || negb (active_owner s) ||
           negb (op_agent operation == m_agent f) || negb (op_epoch operation =? ac_epoch (sn_actor s))%Z ||
           negb (op_account_key operation == ac_account_key (sn_actor s)))
    "Monitor start ownership changed";;
  bail_if (negb (get params "processId" ≫= as_str == Some (m_id f)) ||
           negb (get params "cwd" ≫= as_str == Some (m_cwd f)) ||
           negb (get params "timeoutMs" ≫= as_i64 == Some (m_timeout_ms f)) ||
           negb (is_some_and (get params "sandboxPolicy") is_object ||
                 is_some_and (get params "permissionProfile") is_string))
    "Monitor preparation does not match its command";;
  activity_at ← monitor_time now;
  generation ← monitor_integer 0 max_safe_integer 0;
  wake ← monitor_integer (-1) max_safe_integer (-1);
  Ok {| d_record := f <| m_operation := Some operation |> <| m_status := Running |> <| m_error := None |>
                      <| m_configuration_pending := Some false |> <| m_activity_at := activity_at |>
                      <| m_activity_generation := generation |> <| m_stall_wake_generation := wake |>;
        d_effects := [Native ("monitor:" +:+ m_id f) "command/exec" params];
        d_response := JNull |}.

Record ReattachProof := {
  rp_operation : MonitorOperationRecord;
  rp_operation_id : string;
  rp_native_id : option Z;
  rp_current_connection : string }.
Definition restart_recovery (s : MonitorSnapshot) (now : f64) : result Decision :=
  bail_if (negb (active s)) "Monitor is not active";;
  if recovering s then Ok (decision s) else
  let f := sn_record s in
  Ok {| d_record := f <| m_reattach_recovery := Some {|
          rr_account_key := command_account s; rr_epoch := ac_epoch (sn_actor s);
          rr_state := RecoveryRunning now; rr_proof := None; rr_error := None; rr_finished := None |} |>;
        d_effects := []; d_response := JNull |}.
Definition restart_lost (s : MonitorSnapshot) (reason : string) (now : f64) : result Decision :=
  let f := sn_record s in
  match m_reattach_recovery f with
  | Some recovery =>
      match rr_state recovery with
      | RecoveryRunning started_at =>
          finished ← monitor_time now;
          error ← monitor_text (if reason == DEADLINE_PASSED then DEADLINE_LOST_ERROR
            else "Command outcome unknown after losing the provider result; not rerun.");
          Ok {| d_record := f
                  <| m_reattach_recovery := Some (recovery <| rr_state := NotReattachable (Some started_at) |>
                                                           <| rr_proof := Some reason |>) |>
                  <| m_status := Lost |> <| m_finished := Some finished |> <| m_error := Some error |>;
                d_effects := [if is_some (m_rule_id f) then RuleFinished else ExitEvent];
                d_response := JNull |}
      | NotReattachable _ => Ok (decision s)
      end
  | None => Ok (decision s)
  end.
Definition reattach (s : MonitorSnapshot) (proof : ReattachProof) : result Decision :=
  check_operation s (rp_operation proof);;
  let f := sn_record s in
  bail_if (negb (active s) || negb (rp_operation_id proof == "monitor:" +:+ m_id f) ||
           is_empty (rp_current_connection proof) ||
           negb (op_account_key (rp_operation proof) == command_account s) ||
           is_none_or (m_reattach_recovery f) (λ recovery,
             negb (is_recovery_running recovery) || negb (rr_epoch recovery =? ac_epoch (sn_actor s))%Z ||
             negb (rr_account_key recovery == command_account s)))
    "Monitor reattach proof does not match its command";;
  let record := f <| m_status := Running |>
                  <| m_reattached_connection_id := Some (rp_current_connection proof) |>
                  <| m_reattach_recovery := None |> in
  if active_owner s then Ok {| d_record := record; d_effects := []; d_response := JNull |}
  else Ok {| d_record := record <| m_cancel_requested := Some true |>; d_effects := [Terminate];
             d_response := JNull |}.

(** ** Creation *)

Record MonitorCreateInput := {
  ci_command : string;
  ci_timeout_ms : option Z;
  ci_stall_timeout_seconds : option Z;
  ci_liveness_command : option string;
  ci_wake_on : option MonitorWakeOn;
  ci_success_exit_codes : option (list Z);
  ci_interactive : option bool;
  ci_output_patterns : option (list string) }.
Record MonitorCreateOwner := {
  co_id : string;
  co_epoch : Z;
  co_cwd : string;
  co_turn_id : option string;
  co_yolo_mode : option bool;
  co_approval_policy : option string }.
Definition MonitorCreateOwner_from_value (j : json) : result MonitorCreateOwner :=
  f ← de_struct ["id"; "epoch"; "cwd"; "turnId"; "yoloMode"; "approvalPolicy"] [] false j;
  id ← f_req de_string f "id";
  epoch ← f_req de_i64 f "epoch";
  cwd ← f_req de_string f "cwd";
  turn_id ← f_opt de_string f "turnId";
  yolo_mode ← f_opt de_bool f "yoloMode";
  approval_policy ← f_opt de_string f "approvalPolicy";
  Ok {| co_id := id; co_epoch := epoch; co_cwd := cwd; co_turn_id := turn_id;
        co_yolo_mode := yolo_mode; co_approval_policy := approval_policy |}.
Definition create_record `{HU : UuidV5} (actor : json) (input : MonitorCreateInput)
    (request_id log_root : string) (now : f64) : result MonitorRecord :=
  owner ← match MonitorCreateOwner_from_value actor with Ok o => Ok o | Err _ => Err "Unknown agent" end;
  bail_if (trim_is_empty (ci_command input)) "Supply a command";;
  output_patterns ← patterns (ci_output_patterns input);
  let approved := default (co_approval_policy owner == Some "never") (co_yolo_mode owner) in
  let id := uuid_v5_url request_id in
  epoch ← monitor_integer 0 max_safe_integer (co_epoch owner);
  command ← monitor_text (ci_command input);
  timeout_ms ← monitor_integer 1000 86400000 (default 3600000%Z (ci_timeout_ms input));
  stall_timeout_seconds ← monitor_integer 0 31536000 (default 1800%Z (ci_stall_timeout_seconds input));
  liveness_command ← monitor_text (str_trim (default "" (ci_liveness_command input)));
  activity_at ← monitor_time now;
  activity_generation ← monitor_integer 0 max_safe_integer 0;
  stall_wake_generation ← monitor_integer (-1) max_safe_integer (-1);
  success_exit_codes ← ctx "Invalid monitor exit codes"
    (MonitorExitCodes_try_from (default [0%Z] (ci_success_exit_codes input)));
  created ← monitor_time now;
  tail ← monitor_text "";
  bytes ← monitor_integer 0 max_safe_integer 0;
  let record := {|
    m_id := id; m_agent := co_id owner; m_epoch := epoch; m_turn_id := co_turn_id owner;
    m_request_id := request_id; m_command := command; m_cwd := co_cwd owner; m_timeout_ms := timeout_ms;
    m_stall_timeout_seconds := stall_timeout_seconds; m_liveness_command := liveness_command;
    m_activity_at := activity_at; m_activity_generation := activity_generation;
    m_stall_wake_generation := stall_wake_generation; m_wake_on := default WakeExit (ci_wake_on input);
    m_success_exit_codes := success_exit_codes; m_status := if approved then Starting else Approval;
    m_created := created; m_exit_code := None; m_tail := tail; m_bytes := bytes;
    m_interactive := default false (ci_interactive input); m_rule_id := None;
    m_log := log_root +:+ "/" +:+ id +:+ ".log"; m_output_patterns := Some output_patterns;
    m_output_truncated := None; m_output_event_sequence := Some 0%Z; m_output_event_count := Some 0%Z;
    m_output_event_ids := Some []; m_cancel_requested := None; m_configuration_pending := None;
    m_error := None; m_finished := None; m_input_attempt := None; m_last_input_attempt := None;
    m_reattach_recovery := None; m_stream_queue := None; m_stream_ack_cursor := None;
    m_account_key := None; m_cancel_dispatch := None; m_cancel_provider_request := None;
    m_cancel_root_request_id := None; m_root_request_id := None; m_reattached_connection_id := None;
    m_last_stall_at := None; m_late_answer_at := None; m_liveness_probe := None;
    m_last_liveness_result := None; m_stdin_error := None; m_restart_after := None;
    m_restart_signature := None; m_shell_pressure_cleanup := None; m_delivery_failure := None;
    m_task_gate := None; m_output_line_offsets := None; m_output_line_tail := None;
    m_output_match_excerpts := None; m_output_matcher_tail := None; m_output_matches_pending := None;
    m_output_matches_total := None; m_output_utf8_pending := None; m_output_wake_at := None;
    m_output_wake_budget := None; m_last_exit_code := None; m_operation := None; m_stall_probe := None;
    m_stdin_close_requested := None; m_stdin_closed := None |} in
  checked_stored record actor;;
  Ok record.

Definition same_request (previous proposed : MonitorRecord) : bool :=
  (m_agent previous == m_agent proposed) && (m_command previous == m_command proposed) &&
  (m_timeout_ms previous =? m_timeout_ms proposed)%Z &&
  Bool.eqb (m_interactive previous) (m_interactive proposed) &&
  (m_wake_on previous == m_wake_on proposed) &&
  (m_success_exit_codes previous == m_success_exit_codes proposed) &&
  (m_stall_timeout_seconds previous =? m_stall_timeout_seconds proposed)%Z &&
  (m_liveness_command previous == m_liveness_command proposed) &&
  (default [] (m_output_patterns previous) == default [] (m_output_patterns proposed)).
End policy.
