(* ===== verification/MonitorQueue.v ===== *)
(** The durable queue of what a monitored command sends ([runtime-services/src/monitor_event_queue.rs])
    and the delivery of its output to the log and the record ([monitor_output.rs]).

    Functions that may store the record give [Some] record when they do. The account of the owner
    and the scope of the command's provider call are what the caller has read; the log file is its
    content, and a file that is missing is empty. *)

From S2P Require Import Prelude Strs Json F64 Canonical Extern Utf8 MonitorTypes MonitorMatches.
From S2P Require Import MonitorPolicy.

(** ** Queued events *)

Definition queue_cursor (e : MonitorQueueEvent) : string :=
  match e with QOutput cursor _ _ _ _ _ | QProbe cursor _ _ _ _ | QExit cursor _ _ _ _ _ => cursor end.
Definition queue_length (e : MonitorQueueEvent) : Z :=
  match e with
  | QOutput _ _ byte_length _ _ _ | QProbe _ _ _ byte_length _ | QExit _ _ _ _ byte_length _ => byte_length
  end.
Definition queue_operation (e : MonitorQueueEvent) : MonitorOperationRecord :=
  match e with
  | QOutput _ _ _ _ _ operation | QProbe _ _ _ _ operation | QExit _ _ _ _ _ operation => operation
  end.
Definition queued_bytes (queue : list MonitorQueueEvent) : Z := foldr Z.add 0%Z (queue_length <$> queue).

Definition MAX_EVENTS : nat := 128.
Definition STREAM_QUEUE_MAX_BYTES : Z := 1048576.
Definition RESERVED_EVENTS : nat := 2.
Definition TERMINAL_RECEIPT_RESERVE_BYTES : Z := 65536.
Definition PROBE_RESULT_MAX_BYTES : Z := 32768.
Definition EXIT_RECEIPT_MAX_ERROR_BYTES : nat := Z.to_nat 12000.

Record JournalEventScope := {
  js_account : string;
  js_cursor_scope : string;
  js_generation : Z;
  js_cursor : Z;
  js_expected_agent : option string }.
Record OutputDelta := { od_delta_base64 : string; od_stream : option MonitorStream }.

Definition queue_of (r : MonitorRecord) : list MonitorQueueEvent := default [] (m_stream_queue r).
Definition find_cursor (queue : list MonitorQueueEvent) (cursor : string) : option MonitorQueueEvent :=
  List.find (λ item, queue_cursor item == cursor) queue.
(** The log offset of an output event that is put behind [queue]. *)
Definition next_offset (committed_offset : Z) (queue : list MonitorQueueEvent) : Z :=
  match last queue with
  | None => committed_offset
  | Some item =>
      let offset := match item with QOutput _ offset _ _ _ _ => offset | _ => committed_offset end in
      saturating_add offset (queue_length item)
  end.

Section queue.
Context `{HE : Encodings} `{HJ : JsonText}.

(** [enqueue_output_with_scope_in_transaction]: [owner_account] is the account of the owner's row,
    [original] the generation and account of the command's provider call. *)
Definition enqueue_output (record : option MonitorRecord) (owner_account : option string)
    (original : option (Z * string)) (scope : JournalEventScope) (params : OutputDelta)
  : result (option MonitorRecord * bool) :=
  match record with None => Ok (None, false) | Some record =>
  match m_operation record with None => Ok (None, false) | Some operation =>
  if negb (m_status record == Running) || negb (op_account_key operation == js_account scope) ||
     negb (op_agent operation == m_agent record) || negb (m_epoch record =? op_epoch operation)%Z ||
     is_some_and (js_expected_agent scope) (λ agent, negb (m_agent record == agent))
  then Ok (None, false) else
  if is_some_and owner_account (λ account, negb (account == js_account scope)) &&
     is_none_or original (λ '(generation, account),
       negb (generation =? js_generation scope)%Z || negb (account == js_account scope))
  then Ok (None, false) else
  let encoded := od_delta_base64 params in
  let stream := default Stdout (od_stream params) in
  bytes ← ctx "invalid notification" (base64_decode encoded);
  let key := js_cursor_scope scope +:+ ":" +:+ dec (js_generation scope) +:+ ":" +:+ dec (js_cursor scope) in
  let queue := queue_of record in
  match find_cursor queue key with
  | Some (QOutput _ _ _ delta_base64 saved _) =>
      if (delta_base64 == encoded) && (saved == stream) then Ok (None, true) else Err "conflicting delivery"
  | Some _ => Err "conflicting delivery"
  | None =>
      if m_stream_ack_cursor record == Some key then Ok (None, true) else
      let size := Z.of_nat (String.length bytes) in
      bail_if ((MAX_EVENTS - RESERVED_EVENTS <=? length queue) ||
               (STREAM_QUEUE_MAX_BYTES - TERMINAL_RECEIPT_RESERVE_BYTES <?
                saturating_add (queued_bytes queue) size)%Z) "stream capacity";;
      Ok (Some (record <| m_stream_queue := Some (queue ++
        [QOutput key (next_offset (m_bytes record) queue) size encoded stream operation]) |>), true)
  end
  end end.

(** [enqueue_probe] and [enqueue_exit_in_transaction], on the stored record. *)
Definition enqueue_probe (record : MonitorRecord) (operation : MonitorOperationRecord) (generation : Z)
    (result : MonitorProbeResult) : Prelude.result (option MonitorRecord) :=
  let cursor := "liveness:" +:+ m_id record +:+ ":" +:+ sdec generation in
  bail_if (negb (m_operation record == Some operation)) "monitor probe operation changed";;
  if m_stream_ack_cursor record == Some cursor then Ok None else
  let queue := queue_of record in
  match find_cursor queue cursor with
  | Some (QProbe _ saved prior _ _) =>
      if (saved =? generation)%Z && (prior == result) then Ok None else Err "conflicting monitor probe"
  | Some _ => Err "conflicting monitor probe"
  | None =>
      let result_bytes := Z.of_nat (String.length (json_print (probe_result_value result))) in
      bail_if ((MAX_EVENTS - 1 <=? length queue) || (PROBE_RESULT_MAX_BYTES <? result_bytes)%Z ||
               (STREAM_QUEUE_MAX_BYTES - TERMINAL_RECEIPT_RESERVE_BYTES <?
                saturating_add (queued_bytes queue) result_bytes)%Z) "Monitor output queue is full";;
      Ok (Some (record <| m_stream_queue := Some (queue ++ [QProbe cursor generation result result_bytes operation]) |>))
  end.
Definition enqueue_exit (record : MonitorRecord) (operation : MonitorOperationRecord) (cursor : string)
    (code : option Z) (error : option string) (finished : f64) : result (option MonitorRecord * bool) :=
  let error := (λ value, str_take (floor_boundary value
    (String.length value `min` EXIT_RECEIPT_MAX_ERROR_BYTES)) value) <$> error in
  bail_if (is_none_or (m_operation record) (λ saved, negb (same_identity saved operation)))
    "monitor operation changed";;
  if m_stream_ack_cursor record == Some cursor then Ok (None, true) else
  let queue := queue_of record in
  match find_cursor queue cursor with
  | Some (QExit _ saved_code saved_error _ _ _) =>
      if (saved_code == code) && (saved_error == error) then Ok (None, true) else Err "conflicting monitor result"
  | Some _ => Err "conflicting monitor result"
  | None =>
      let error_bytes := from_option (λ value, Z.of_nat (String.length value)) 0%Z error in
      if (MAX_EVENTS <=? length queue) ||
         (STREAM_QUEUE_MAX_BYTES <? saturating_add (queued_bytes queue) error_bytes)%Z
      then Ok (None, false) else
      Ok (Some (record <| m_stream_queue := Some (queue ++ [QExit cursor code error finished error_bytes operation]) |>), true)
  end.

(** ** The consumer *)

Inductive MonitorEvent :=
| EvOutput (offset : Z) (stream : string) (bytes : string)
| EvExit (code : option Z) (error : option string) (finished : f64)
| EvProbe (generation : Z) (result : MonitorProbeResult).
Record Delivery := {
  dl_id : string;
  dl_operation : MonitorOperationRecord;
  dl_cursor : string;
  dl_event : MonitorEvent }.
Definition event_of (item : MonitorQueueEvent) : result MonitorEvent :=
  match item with
  | QExit _ code error finished _ _ => Ok (EvExit code error finished)
  | QProbe _ generation result _ _ => Ok (EvProbe generation result)
  | QOutput _ offset byte_length delta_base64 stream _ =>
      bytes ← ctx "monitor output encoding" (base64_decode delta_base64);
      bail_if (negb (byte_length =? Z.of_nat (String.length bytes))%Z) "monitor output size";;
      Ok (EvOutput offset (stream_text stream) bytes)
  end.
(** [next], for a record whose queue is not empty. *)
Definition next (record : MonitorRecord) : result Delivery :=
  item ← ctx "monitor output head" (head (queue_of record));
  bail_if (is_empty (queue_cursor item)) "monitor output cursor";;
  event ← event_of item;
  Ok {| dl_id := m_id record; dl_operation := queue_operation item; dl_cursor := queue_cursor item;
        dl_event := event |}.
Definition acknowledge (record : MonitorRecord) (delivery : Delivery) : result (option MonitorRecord) :=
  if m_stream_ack_cursor record == Some (dl_cursor delivery) then Ok None else
  bail_if (negb (m_operation record == Some (dl_operation delivery))) "monitor operation changed";;
  queue ← ctx "monitor output queue" (m_stream_queue record);
  bail_if (negb (queue_cursor <$> head queue == Some (dl_cursor delivery))) "monitor output ACK order";;
  Ok (Some (record <| m_stream_queue := Some (tail queue) |>
                   <| m_stream_ack_cursor := Some (dl_cursor delivery) |>)).

(** ** The log *)

(** [bytes.chunks(n)]. Each round takes at least one byte, so the length of [s] bounds the rounds. *)
Fixpoint str_chunks (fuel n : nat) (s : string) : list string :=
  match fuel with
  | O => []
  | S fuel => if is_empty s then [] else str_take n s :: str_chunks fuel n (str_drop n s)
  end.
(** The calls of [append_chunk] that [append_stream] makes: index and bytes. *)
Definition stream_chunks (bytes : string) : list string :=
  if is_empty bytes then [""] else str_chunks (String.length bytes) CHUNK_BYTES bytes.
Definition chunk_offset (offset : Z) (index : nat) : result Z :=
  let offset := (offset + Z.of_nat (index * CHUNK_BYTES))%Z in
  bail_if (u64_max <? offset)%Z "cursor overflow";; Ok offset.
(** The file with [bytes] written at [position]. *)
Definition write_at (file : string) (position : nat) (bytes : string) : string :=
  str_take position file +:+ bytes +:+ str_drop (position + String.length bytes) file.
(** [append_chunk] up to the write: [None] when there is nothing to do, otherwise the position and
    the bytes to write. *)
Definition append_check (before : MonitorRecord) (log : string) (operation : MonitorOperationRecord)
    (offset : Z) (bytes : string) : result (option (nat * string)) :=
  let count := m_bytes before in
  bail_if (is_none_or (m_operation before) (λ current, negb (same_identity current operation)))
    "operation identity changed";;
  if negb (m_status before == Running) then Ok None else
  bail_if (count <? offset)%Z "cursor has a gap";;
  let offset' := Z.to_nat offset in
  bail_if (String.length log <? offset') "log is missing committed output";;
  let existing := (String.length log - offset') `min` String.length bytes in
  bail_if (negb (str_take existing (str_drop offset' log) == str_take existing bytes))
    "receipt bytes differ at committed offset";;
  if (offset <? count)%Z then
    bail_if (count <? offset + Z.of_nat (String.length bytes))%Z "receipt overlaps committed cursor";;
    Ok None
  else Ok (Some (offset' + existing, str_drop existing bytes)).
End queue.
