(* ===== verification/MonitorSteps.v ===== *)
(** The life of a monitored command as a sequence of transactions
    ([runtime-services/src/monitor_runtime.rs], [monitor_driver.rs], [monitor_output.rs],
    [shell_policy.rs] and [monitor_runtime_wiring.rs]): each reads the stored record with its owner,
    takes a decision of [MonitorPolicy], checks the record that results and stores it with the
    effects. The reservation of a stop, its settlement and the check-ins of the shell policy are
    decisions of this file.

    [step] is one transaction, [run] a sequence of them in any order, each with the owner and the
    time it happens to see. Between them anything may write the fields that [side_write] names: the
    queue of events with its acknowledgement, the identity of the provider's request, the marks of
    restarts, and the gate of the owner's task. Invariants of runs show what the effects add up to. *)

From S2P Require Import Prelude Strs Json F64 Canonical Extern Utf8 MonitorTypes MonitorMatches.
From S2P Require Import MonitorOutput MonitorPolicy.

(** ** Transactions *)

Section transactions.
Context `{HE : Encodings} `{HS : Schemas}.

(** The record's part of [answer_approval], for a pending request. *)
Definition answer_approval (s : MonitorSnapshot) (accepted : bool) (now : f64) : result Decision :=
  let f := sn_record s in
  bail_if (negb (m_status f == Approval) || negb (m_epoch f =? ac_epoch (sn_actor s))%Z ||
           negb (ac_auto_wake (sn_actor s)) ||
           is_some_and (ac_deleted_at (sn_actor s)) (λ at_, negb (f64_eq at_ f64_zero)))
    "Command watch was stopped";;
  if accepted then Ok {| d_record := f <| m_status := Starting |>; d_effects := []; d_response := JNull |} else
  finished ← ctx "Invalid monitor clock" (MonitorTime_try_from now);
  Ok {| d_record := f <| m_status := Cancelled |> <| m_finished := Some finished |>
                      <| m_configuration_pending := Some false |>;
        d_effects := []; d_response := JNull |}.
(** [initialize_input_identity]. *)
Definition initialize_input_identity (d : Decision) (root : string) : Decision :=
  {| d_record := let f := d_record d in
       match m_input_attempt f with
       | Some attempt =>
           let operation := at_operation attempt in
           let evidence := op_evidence operation in
           f <| m_input_attempt := Some (attempt <| at_operation := operation <| op_evidence :=
             evidence <| ev_root_request_id := Some root |> <| ev_provider_request := None |> |> |>) |>
       | None => f
       end;
     d_effects := d_effects d; d_response := d_response d |}.
Definition reserve_input (s : MonitorSnapshot) (operation : MonitorOperationRecord) (attempt_id root : string)
    (input : Input) (now : f64) : result Decision :=
  d ← begin_input s operation attempt_id input now;
  Ok (initialize_input_identity d root).
(** One row of [recover_active_monitors]. *)
Definition recover_active_monitor (s : MonitorSnapshot) (now : f64) : result Decision :=
  if recovering s || unsubmitted_intent s then Ok (decision s) else restart_recovery s now.
Definition reconcile_unknown (s : MonitorSnapshot) (now : f64) : result Decision :=
  if negb (active s) then Ok (decision s) else restart_recovery s now.
Definition reconcile_orphan (s : MonitorSnapshot) (now : f64) : result Decision :=
  let f := sn_record s in
  if negb (m_status f == Running) || is_none (m_operation f) || recovering s || is_some (m_rule_id f) ||
     is_some_and (m_stream_queue f) (λ queue, negb (length queue =? 0))
  then Ok (decision s) else restart_recovery s now.
(** [reason.chars().take(12000).collect()]. *)
Definition take_reason (reason : string) : string :=
  join "" (encode_utf8 <$> take (Z.to_nat 12000) (chars reason)).
Definition settle_unanswered (s : MonitorSnapshot) (actor : json) (operation : MonitorOperationRecord)
    (reason : string) (now : f64) : result Decision :=
  check_operation s operation;;
  if negb (active s) then Ok (decision s) else
  recovery ← restart_recovery s now;
  recovering ← checked_stored (d_record recovery) actor;
  restart_lost recovering (take_reason reason) now.
Definition settle_reattach (s : MonitorSnapshot) (reason : string) (now : f64) : result Decision :=
  restart_lost s (take_reason reason) now.
Definition reattach_transaction (s : MonitorSnapshot) (proof : ReattachProof) : result Decision :=
  let f := sn_record s in
  if negb (recovering s) &&
     is_some_and (m_operation f) (λ current, same_identity current (rp_operation proof)) &&
     (rp_operation_id proof == "monitor:" +:+ m_id f) && negb (is_empty (rp_current_connection proof))
  then Ok (decision s) else reattach s proof.
Definition quarantine_delivery (s : MonitorSnapshot) (cursor error : string) (now : f64) : result Decision :=
  let f := sn_record s in
  error_text ← ctx "Invalid monitor error"
    (BoundedText_try_from 0 (Z.to_nat 12000) (error +:+ " at delivery cursor " +:+ cursor));
  finished ← ctx "Invalid monitor clock" (MonitorTime_try_from now);
  Ok {| d_record := f <| m_status := Failed |> <| m_error := Some error_text |>
                      <| m_finished := Some finished |> <| m_configuration_pending := Some false |>
                      <| m_delivery_failure := Some {| df_cursor := cursor; df_error := error |} |>;
        d_effects := [finished_effect f]; d_response := JNull |}.

(** [bind_rule_in_transaction]. *)
Definition bind_rule (s : MonitorSnapshot) (rule_id account_key : string) : result Decision :=
  let f := sn_record s in
  let changed saved given := is_some_and saved (λ v, negb (is_empty v) && negb (v == given)) in
  bail_if (negb ((m_status f == Starting) || (m_status f == Approval)) ||
           changed (m_rule_id f) rule_id || changed (m_account_key f) account_key)
    "Rule monitor admission identity changed";;
  Ok {| d_record := f <| m_rule_id := Some rule_id |> <| m_account_key := Some account_key |>;
        d_effects := []; d_response := JNull |}.

(** [reserve_cancel]: [root] is the identity issued for the provider's request. *)
Definition is_terminate (e : Effect) : bool := match e with Terminate => true | _ => false end.
Definition TERMINATION_UNAVAILABLE : string :=
  "Cancel requested. Process termination was not confirmed: monitor operation metadata is unavailable".
Definition reserve_cancel (s : MonitorSnapshot) (owner : option string) (root : string) (now : f64)
  : result Decision :=
  d ← cancel s owner now;
  let f := sn_record s in
  let record := if is_some owner then (d_record d) <| m_shell_pressure_cleanup := None |> else d_record d in
  let dispatch := m_cancel_dispatch f in
  let needs_dispatch := existsb is_terminate (d_effects d) ||
    ((m_status f == Running) && (m_cancel_requested f == Some true) &&
     is_none_or dispatch (λ dispatch, (cd_status dispatch == CancelPending) &&
       is_none_or (cd_next_attempt_at dispatch) (λ retry_at, f64_le retry_at now))) in
  let previous_attempts := default 0%Z (dispatch ≫= cd_attempts) in
  let pending := {| cd_status := CancelPending; cd_attempts := Some previous_attempts; cd_updated_at := None;
                    cd_next_attempt_at := None; cd_error := None |} in
  let record := if needs_dispatch then record <| m_cancel_dispatch := Some pending |> else record in
  let effects := if needs_dispatch && negb (existsb is_terminate (d_effects d))
                 then d_effects d ++ [Terminate] else d_effects d in
  let terminate := existsb is_terminate effects in
  '(record, response) ←
    (if terminate && is_none (m_operation f) then
       error ← ctx "Invalid monitor error" (BoundedText_try_from 0 (Z.to_nat 12000) TERMINATION_UNAVAILABLE);
       Ok (record <| m_cancel_dispatch := Some (pending <| cd_status := CancelUnknown |>
                                                        <| cd_error := Some TERMINATION_UNAVAILABLE |>) |>
                  <| m_error := Some error |>,
           set_key (d_response d) "error" (JString TERMINATION_UNAVAILABLE))
     else Ok (record, d_response d));
  let record := if terminate && is_some (m_operation f) && is_none (m_cancel_root_request_id record)
                then record <| m_cancel_root_request_id := Some root |> else record in
  Ok {| d_record := record; d_effects := effects; d_response := response |}.

(** What became of the provider's request to stop the command. *)
Inductive NotSentReason := Transient | MonitorMissing | SessionMissing | NotSentExpired.
#[export] Instance NotSentReason_eq_dec : EqDecision NotSentReason.
Proof. solve_decision. Defined.
Inductive Submission :=
| Written
| NotSent (reason : NotSentReason) (error : string)
| SubmissionUnknown.
Definition receipt_parts (receipt : Submission)
  : MonitorCancelStatus * option string * option NotSentReason :=
  match receipt with
  | Written => (CancelWritten, None, None)
  | NotSent Transient error => (CancelPending, Some error, Some Transient)
  | NotSent MonitorMissing error => (CancelDone, Some error, Some MonitorMissing)
  | NotSent _ error => (CancelUnknown, Some error, None)
  | SubmissionUnknown => (CancelUnknown, Some "Cancel dispatch outcome unknown", None)
  end.
(** 2^min(attempts - 1, 6) seconds, at most 64. *)
Definition cancel_retry_delay (attempts : Z) : f64 :=
  f64_min (f64_of_Z (2 ^ Z.min (Z.max 0 (attempts - 1)) 6)) (f64_of_Z 64).
Definition is_output (item : MonitorQueueEvent) : bool :=
  match item with QOutput _ _ _ _ _ _ => true | _ => false end.
(** The settlement of [cancel] in [monitor_driver.rs]. [cleanup_allowed] is what the shell policy
    says of an automatic stop. The exit it queues behind queued output is a write of the queue. *)
Definition settle_cancel (s : MonitorSnapshot) (operation : MonitorOperationRecord) (receipt : Submission)
    (cleanup_allowed : bool) (now : f64) : result Decision :=
  let f := sn_record s in
  let '(status, error, retry_reason) := receipt_parts receipt in
  if is_some_and (m_operation f) (λ saved, same_identity saved operation) && (m_status f == Running) &&
     (m_cancel_requested f == Some true) then
    let missing := retry_reason == Some MonitorMissing in
    let transient := retry_reason == Some Transient in
    let queued_output := missing && is_some_and (m_stream_queue f) (existsb is_output) in
    d ← (if missing && negb queued_output then finish s (Some operation) None error now else Ok (decision s));
    let previous_attempts := default 0%Z (m_cancel_dispatch f ≫= cd_attempts) in
    let attempts := if transient then saturating_add previous_attempts 1 else previous_attempts in
    let error := take_reason <$> error in
    let dispatch := {| cd_status := status; cd_attempts := Some attempts; cd_updated_at := Some now;
      cd_next_attempt_at := if transient then Some (f64_add now (cancel_retry_delay attempts)) else None;
      cd_error := error |} in
    record ← (match error with
              | Some error =>
                  if status == CancelUnknown then
                    text ← ctx "Invalid monitor error" (BoundedText_try_from 0 (Z.to_nat 12000) error);
                    Ok ((d_record d) <| m_error := Some text |>)
                  else Ok (d_record d)
              | None => Ok (d_record d)
              end);
    let record := record <| m_cancel_dispatch := Some dispatch |> in
    let record :=
      if transient && is_some (m_shell_pressure_cleanup f) && negb cleanup_allowed
      then record <| m_cancel_requested := Some false |> <| m_cancel_dispatch := None |>
                  <| m_shell_pressure_cleanup := None |>
      else record in
    Ok {| d_record := record; d_effects := d_effects d; d_response := d_response d |}
  else Ok (decision s).

(** [maintain_monitor] of [shell_policy.rs], from the settings, the memory pressure and the owner's
    row: whether the owner may be disturbed, and when it was last active and last cleaned up after. *)
Record Shell := {
  sh_eligible : bool;
  sh_critical : bool;
  sh_pressure_cleanup : bool;
  sh_quiet_threshold_ms : Z;
  sh_last_active : option f64;
  sh_last_reap : option f64 }.
Definition PRESSURE_IDLE_MS : f64 := f64_of_Z 1800000.
Definition PRESSURE_RESTART_GUARD_MS : f64 := f64_of_Z 1800000.
Definition elapsed_ms (now since : f64) : f64 := f64_mul (f64_max (f64_sub now since) f64_zero) (f64_of_Z 1000).
Definition maintain_monitor (s : MonitorSnapshot) (shell : Shell) (now : f64) : result Decision :=
  let f := sn_record s in
  if negb (m_epoch f =? ac_epoch (sn_actor s))%Z then Ok (decision s) else
  if negb (m_status f == Running) || (m_cancel_requested f == Some true) || is_some (m_rule_id f) ||
     is_some (m_reattach_recovery f) || is_none (m_operation f) || negb (sh_eligible shell)
  then Ok (decision s) else
  let generation := m_activity_generation f in
  let quiet_ms := elapsed_ms now (m_activity_at f) in
  let last_active := default now (sh_last_active shell) in
  let session_idle_ms := elapsed_ms now last_active in
  let restart_guard := is_some_and (sh_last_reap shell) (λ last,
    f64_lt last_active last && f64_lt last (m_created f) &&
    f64_lt (f64_mul (f64_sub (m_created f) last) (f64_of_Z 1000)) PRESSURE_RESTART_GUARD_MS) in
  let reap := sh_critical shell && sh_pressure_cleanup shell && negb restart_guard &&
    f64_le PRESSURE_IDLE_MS quiet_ms && f64_le PRESSURE_IDLE_MS session_idle_ms in
  if negb reap && ((sh_quiet_threshold_ms shell =? 0)%Z ||
                   f64_lt quiet_ms (f64_of_Z (sh_quiet_threshold_ms shell)) ||
                   (generation <=? m_stall_wake_generation f)%Z)
  then Ok (decision s) else
  wake ← monitor_integer (-1) max_safe_integer generation;
  let record := f <| m_stall_wake_generation := wake |> in
  Ok {| d_record := if reap then record <| m_cancel_requested := Some true |>
          <| m_cancel_dispatch := Some {| cd_status := CancelPending; cd_attempts := Some 0%Z;
               cd_updated_at := None; cd_next_attempt_at := None; cd_error := None |} |>
          <| m_shell_pressure_cleanup := Some {| sp_at := now; sp_generation := generation |} |>
        else record;
        d_effects := []; d_response := JNull |}.

Inductive request :=
| RAnswer (accepted : bool)
| RStart (operation : MonitorOperationRecord) (params : json)
| ROutput (operation : MonitorOperationRecord) (stream chunk : string)
| RTick
| RProbe (generation : Z) (result : MonitorProbeResult)
| RCancel (owner : option string)
| RFinish (operation : option MonitorOperationRecord) (code : option Z) (error : option string)
| RInput (operation : MonitorOperationRecord) (attempt_id root : string) (input : Input)
| RSettleInput (operation : MonitorOperationRecord) (attempt_id : string) (outcome : InputOutcome)
| RRecover
| RUnknown
| ROrphan
| RUnanswered (operation : MonitorOperationRecord) (reason : string)
| RSettleReattach (reason : string)
| RReattach (proof : ReattachProof)
| RQuarantine (cursor error : string)
| RBindRule (rule_id account_key : string)
| RReserveCancel (owner : option string) (root : string)
| RSettleCancel (operation : MonitorOperationRecord) (receipt : Submission) (cleanup_allowed : bool)
| RMaintain (shell : Shell).

Definition handle (s : MonitorSnapshot) (actor : json) (q : request) (now : f64) : result Decision :=
  match q with
  | RAnswer accepted => answer_approval s accepted now
  | RStart operation params => start s operation params now
  | ROutput operation stream chunk => output_stream s operation stream chunk now
  | RTick => tick s now
  | RProbe generation result => probe_result s generation result now
  | RCancel owner => cancel s owner now
  | RFinish operation code error => finish s operation code error now
  | RInput operation attempt_id root input => reserve_input s operation attempt_id root input now
  | RSettleInput operation attempt_id outcome => settle_input s operation attempt_id outcome now
  | RRecover => recover_active_monitor s now
  | RUnknown => reconcile_unknown s now
  | ROrphan => reconcile_orphan s now
  | RUnanswered operation reason => settle_unanswered s actor operation reason now
  | RSettleReattach reason => settle_reattach s reason now
  | RReattach proof => reattach_transaction s proof
  | RQuarantine cursor error => quarantine_delivery s cursor error now
  | RBindRule rule_id account_key => bind_rule s rule_id account_key
  | RReserveCancel owner root => reserve_cancel s owner root now
  | RSettleCancel operation receipt cleanup_allowed => settle_cancel s operation receipt cleanup_allowed now
  | RMaintain shell => maintain_monitor s shell now
  end.
(** What the callers of a transaction have made sure of: [recover_active_monitors] goes over the
    active rows; [reconcile_unknown] follows the start or the reattachment of the command, both of
    which know its operation; [attach_batch] settles the active rows it is going over. *)
Definition allowed (r : MonitorRecord) (q : request) : bool :=
  match q with
  | RRecover => active_status (m_status r)
  | RUnknown => is_some (m_operation r)
  | RSettleReattach _ => active_status (m_status r)
  | _ => true
  end.
(** [snapshot], the decision, and [apply], which checks the record before it writes. *)
Definition commit (r : MonitorRecord) (actor : json) (q : request) (now : f64)
  : result (MonitorSnapshot * Decision) :=
  s ← checked_stored r actor;
  d ← handle s actor q now;
  checked_stored (d_record d) actor;;
  Ok (s, d).

Record entry := {
  e_snapshot : MonitorSnapshot;
  e_request : request;
  e_now : f64;
  e_effects : list Effect }.
Inductive step (r : MonitorRecord) : entry → MonitorRecord → Prop :=
| Step actor q now s d :
    allowed r q = true → commit r actor q now = Ok (s, d) →
    step r {| e_snapshot := s; e_request := q; e_now := now; e_effects := d_effects d |} (d_record d).
(** Writes of the record that take no decision: those of the queue of events ([MonitorQueue]), the
    identities that [provider_root] and [provider_request_identity] give to provider requests, and
    what the restart of a command and the gate of a task add to a new record. *)
Definition side_write (r r' : MonitorRecord) : Prop :=
  r' = r <| m_stream_queue := m_stream_queue r' |> <| m_stream_ack_cursor := m_stream_ack_cursor r' |>
         <| m_root_request_id := m_root_request_id r' |> <| m_liveness_probe := m_liveness_probe r' |>
         <| m_restart_after := m_restart_after r' |> <| m_restart_signature := m_restart_signature r' |>
         <| m_task_gate := m_task_gate r' |>.
Inductive run (r0 : MonitorRecord) : list entry → MonitorRecord → Prop :=
| run_nil : run r0 [] r0
| run_snoc trace r e r' : run r0 trace r → step r e r' → run r0 (trace ++ [e]) r'
| run_write trace r r' : run r0 trace r → side_write r r' → run r0 trace r'.
End transactions.

(** * What a transaction changes *)

(** The part of the record that the protocol with the owner and the provider depends on. *)
Record control := {
  c_status : MonitorStatus;
  c_operation : option MonitorOperationRecord;
  c_generation : Z;
  c_wake : Z;
  c_lease : option Z;
  c_attempt : option string;
  c_sequence : Z }.
Definition control_of (r : MonitorRecord) : control := {|
  c_status := m_status r;
  c_operation := m_operation r;
  c_generation := m_activity_generation r;
  c_wake := m_stall_wake_generation r;
  c_lease := stall_probe_generation <$> m_stall_probe r;
  c_attempt := at_id <$> m_input_attempt r;
  c_sequence := event_sequence r |}.

(** What the effects of a transaction say: commands run, stall notices by generation, output
    events by number, inputs by identity. *)
Record report := {
  p_execs : nat;
  p_stalls : list Z;
  p_outputs : list Z;
  p_inputs : list string }.
Definition report_of (effects : list Effect) : report := {|
  p_execs := length (filterb (λ e, match e with Native _ method _ => method == "command/exec" | _ => false end) effects);
  p_stalls := omap (λ e, match e with StallEvent g _ => Some g | _ => None end) effects;
  p_outputs := omap (λ e, match e with EOutputEvent _ ev => Some (ov_sequence ev) | _ => None end) effects;
  p_inputs := omap (λ e, match e with
                         | Native id method _ => if method == "command/exec" then None else Some id
                         | _ => None end) effects |}.
Definition silent : report := {| p_execs := 0; p_stalls := []; p_outputs := []; p_inputs := [] |}.

(** The protocol: the transitions a monitor can make. *)
Inductive emits (sequence : Z) : list Z → Z → Prop :=
| emits_none : emits sequence [] sequence
| emits_one : emits sequence [(sequence + 1)%Z] (sequence + 1).
Definition settled (s : MonitorStatus) : Prop := s = Completed ∨ s = Failed ∨ s = Cancelled.
Inductive protocol (k : control) : report → control → Prop :=
| P_none : protocol k silent k
| P_status status :
    active_status (c_status k) = true →
    (c_status k = Approval ∧ status = Starting) ∨
    (c_status k ≠ Running ∧ status = Cancelled) ∨ status = Lost ∨
    (status = Running ∧ c_operation k ≠ None) →
    protocol k silent (k <| c_status := status |>)
| P_start operation :
    c_status k = Starting →
    protocol k {| p_execs := 1; p_stalls := []; p_outputs := []; p_inputs := [] |}
      (k <| c_status := Running |> <| c_operation := Some operation |>
         <| c_generation := 0%Z |> <| c_wake := (-1)%Z |>)
| P_output generation outputs sequence :
    c_status k = Running →
    generation = c_generation k ∨ generation = (c_generation k + 1)%Z →
    emits (c_sequence k) outputs sequence →
    protocol k {| p_execs := 0; p_stalls := []; p_outputs := outputs; p_inputs := [] |}
      (k <| c_generation := generation |> <| c_sequence := sequence |>)
| P_stall outputs sequence :
    c_status k = Running → (c_wake k < c_generation k)%Z → emits (c_sequence k) outputs sequence →
    protocol k {| p_execs := 0; p_stalls := [c_generation k]; p_outputs := outputs; p_inputs := [] |}
      (k <| c_wake := c_generation k |> <| c_lease := None |> <| c_sequence := sequence |>)
| P_probe outputs sequence :
    c_status k = Running → (c_wake k < c_generation k)%Z → emits (c_sequence k) outputs sequence →
    protocol k {| p_execs := 0; p_stalls := []; p_outputs := outputs; p_inputs := [] |}
      (k <| c_lease := Some (c_generation k) |> <| c_sequence := sequence |>)
| P_probed :
    c_status k = Running → c_lease k = Some (c_generation k) →
    protocol k {| p_execs := 0; p_stalls := [c_generation k]; p_outputs := []; p_inputs := [] |}
      (k <| c_wake := c_generation k |> <| c_lease := None |>)
| P_finish status outputs sequence :
    settled status → c_status k ≠ Running ∨ c_operation k ≠ None →
    emits (c_sequence k) outputs sequence →
    protocol k {| p_execs := 0; p_stalls := []; p_outputs := outputs; p_inputs := [] |}
      (k <| c_status := status |> <| c_sequence := sequence |>)
| P_input ticket identity :
    c_status k = Running → c_operation k ≠ None → c_attempt k = None →
    protocol k {| p_execs := 0; p_stalls := []; p_outputs := []; p_inputs := [identity] |}
      (k <| c_attempt := Some ticket |>)
| P_settle :
    c_status k = Running → c_attempt k ≠ None → protocol k silent (k <| c_attempt := None |>)
| P_quiet :
    c_status k = Running → c_operation k ≠ None → protocol k silent (k <| c_wake := c_generation k |>)
| P_fail : protocol k silent (k <| c_status := Failed |>).

Lemma side_refl r : side_write r r.
Proof. by destruct r. Qed.
Lemma side_trans r r' r'' : side_write r r' → side_write r' r'' → side_write r r''.
Proof. intros H1 H2. unfold side_write. etransitivity; [exact H2|]. by rewrite H1. Qed.
Lemma control_side r r' : side_write r r' → control_of r' = control_of r.
Proof. by intros ->. Qed.
(** The fields of a stop that is under way. *)
Definition calm (r : MonitorRecord) : MonitorRecord :=
  r <| m_cancel_dispatch := None |> <| m_error := None |> <| m_cancel_requested := None |>
    <| m_shell_pressure_cleanup := None |> <| m_cancel_root_request_id := None |>.
Definition stopping (r r' : MonitorRecord) : Prop := calm r' = calm r.
Lemma stopping_field {A} (f : MonitorRecord → A) r r' : (∀ r, f (calm r) = f r) → stopping r r' → f r' = f r.
Proof. intros Hf H. by rewrite <-(Hf r'), H, Hf. Qed.
Lemma control_stopping r r' : stopping r r' → control_of r' = control_of r.
Proof. by apply stopping_field. Qed.

Lemma control_holds r r' :
  holds r r' →
  control_of r' = (control_of r) <| c_sequence := event_sequence r' |>.
Proof.
  intros H. unfold control_of. cbn.
  rewrite (holds_field m_status r r' (λ _, eq_refl) H), (holds_field m_operation r r' (λ _, eq_refl) H),
    (holds_field m_activity_generation r r' (λ _, eq_refl) H),
    (holds_field m_stall_wake_generation r r' (λ _, eq_refl) H),
    (holds_field m_stall_probe r r' (λ _, eq_refl) H), (holds_field m_input_attempt r r' (λ _, eq_refl) H).
  done.
Qed.
Lemma output_effect_spec s r now final r' es :
  output_effect s r now final = (r', es) →
  holds r r' ∧ ∃ outputs, emits (event_sequence r) outputs (event_sequence r') ∧
    ((es = [] ∧ outputs = []) ∨ ∃ id ev, es = [EOutputEvent id ev] ∧ outputs = [ov_sequence ev]).
Proof.
  unfold output_effect. intros H. case_match; [|simplify_eq; split; [done|exists []; split; [constructor|by left]]].
  pose proof (pending_holds r now final) as Hh.
  destruct (pending r now final) as [r1 [[id ev]|]] eqn:E; injection H as <- <-;
    (split; [done|]); apply pending_sequence in E.
  - destruct E as (E1 & E2 & _). exists [ov_sequence ev]. rewrite E2, E1. split; [constructor|right; eauto].
    exists id, ev. by rewrite E2, E1.
  - exists []. rewrite E. split; [constructor|by left].
Qed.

(** [inv_ok] that remembers what a pair was. *)
Ltac inv_pair :=
  repeat first
    [ match goal with H : (let '(_, _) := ?x in _) = Ok _ |- _ => destruct x as [? ?] eqn:? end
    | inv_ok_step ]; simplify_eq.

Section decisions.
Context `{HE : Encodings} `{HS : Schemas}.

Lemma monitor_integer_ok min max v z : monitor_integer min max v = Ok z → z = v ∧ (min <= v <= max)%Z.
Proof.
  unfold monitor_integer, BoundedInteger_try_from. intros H. inv_ok. lia.
Qed.
Lemma monitor_time_ok v t : monitor_time v = Ok t → t = v ∧ MonitorTime_try_from v = Some v.
Proof. unfold monitor_time, MonitorTime_try_from. intros H. inv_ok. done. Qed.

Lemma error_text_ok error t :
  match error with Some e => Some <$> monitor_text e | None => Ok None end = Ok t → t = error.
Proof.
  destruct error as [e|]; [|by intros [= <-]]. unfold monitor_text, BoundedText_try_from.
  destruct (_ && _); [by intros [= <-]|done].
Qed.

(** ** Each decision, as what it makes of the record *)

Lemma output_stream_inv s operation stream chunk now d (f := sn_record s) :
  output_stream s operation stream chunk now = Ok d →
  check_operation s operation = Ok tt ∧
  (d = decision s ∧ m_status f ≠ Running ∨
   m_status f = Running ∧ String.length chunk ≤ CHUNK_BYTES ∧
   ∃ r1 r2 es,
     append f stream chunk (active_owner s) = Ok r1 ∧ output_effect s r1 now false = (r2, es) ∧
     (0 <= m_bytes f + Z.of_nat (String.length chunk) <= max_safe_integer)%Z ∧
     d_effects d = es ∧
     let r3 := r2 <| m_bytes := (m_bytes f + Z.of_nat (String.length chunk))%Z |> in
     (chunk = "" ∧ d_record d = r3 ∨
      chunk ≠ "" ∧ MonitorTime_try_from now = Some now ∧
      d_record d = r3 <| m_activity_at := now |> <| m_activity_generation := (m_activity_generation f + 1)%Z |>)).
Proof.
  unfold output_stream. fold f. intros H. apply bind_ok in H as ([] & Hop & H). split; [done|].
  destruct (m_status f == Running) eqn:E; cbn [negb] in H; inv_pair; [right|by left]. split; [done|].
  match goal with H : (CHUNK_BYTES <? _) = false |- _ => apply Nat.ltb_ge in H end. split; [done|].
  repeat match goal with H : monitor_integer _ _ _ = Ok _ |- _ => apply monitor_integer_ok in H as [-> ?] end.
  eexists _, _, _. split; [done|]. split; [done|]. split; [done|].
  destruct (is_empty chunk) eqn:Ec; unfold is_empty in Ec; inv_pair; [split; [done|by left]|].
  repeat match goal with H : monitor_integer _ _ _ = Ok _ |- _ => apply monitor_integer_ok in H as [-> ?] end.
  repeat match goal with H : monitor_time _ = Ok _ |- _ => apply monitor_time_ok in H as [-> ?] end.
  split; [done|]. by right.
Qed.

Lemma tick_inv s now d (f := sn_record s) :
  tick s now = Ok d →
  d = decision s ∨
  recovering s = false ∧ ∃ r1 es,
    (m_status f = Running ∧ output_effect s f now false = (r1, es) ∨ m_status f ≠ Running ∧ r1 = f ∧ es = []) ∧
    (d_record d = r1 ∧ d_effects d = es ∨
     m_status f = Running ∧ (m_stall_wake_generation f < m_activity_generation f)%Z ∧
     (let r2 := r1 <| m_last_stall_at := Some now |> in
      ∃ payload,
        d_record d = r2 <| m_stall_wake_generation := m_activity_generation f |> <| m_stall_probe := None |> ∧
        d_effects d = es ++ [StallEvent (m_activity_generation f) payload]) ∨
     m_status f = Running ∧ (m_stall_wake_generation f < m_activity_generation f)%Z ∧
     let r2 := r1 <| m_last_stall_at := Some now |> in
     d_record d = r2 <| m_stall_probe := Some {| stall_probe_generation := m_activity_generation f;
                                                 stall_probe_started := now |} |> ∧
     d_effects d = es ++ [EProbe (m_activity_generation f) (m_liveness_command f)]).
Proof.
  unfold tick. fold f. intros H. destruct (recovering s); [left; by simplify_eq|right]. split; [done|].
  destruct (if m_status f == Running then _ else _) as [r1 es] eqn:Eo. exists r1, es. split.
  { destruct (m_status f == Running) eqn:E; inv_ok; auto. }
  match type of H with (if ?b then _ else _) = _ => destruct b eqn:Eb end; [left; by inv_ok|].
  match type of H with (if ?b then _ else _) = _ => destruct b end; [left; by inv_ok|].
  inv_ok. repeat match goal with H : (_ <=? _)%Z = false |- _ => apply Z.leb_gt in H end.
  right. destruct (is_empty (m_liveness_command f)); [left|right]; inv_pair;
    repeat match goal with H : monitor_integer _ _ _ = Ok _ |- _ => apply monitor_integer_ok in H as [-> ?] end;
    repeat match goal with H : monitor_time _ = Ok _ |- _ => apply monitor_time_ok in H as [-> ?] end;
    (split; [done|]); (split; [done|]); cbn [d_record d_effects]; eauto.
Qed.

(** The record of a command that has finished, [r] being the record with its output reported. *)
Definition finished_record (f r : MonitorRecord) (code : option Z) (error : option string) (now : f64)
    (late : bool) : MonitorRecord :=
  let record := r
    <| m_status := exit_status f code error |> <| m_exit_code := code |> <| m_error := error |>
    <| m_finished := Some now |> <| m_configuration_pending := Some false |> in
  let record :=
    if (m_cancel_requested f == Some true) && is_some (m_cancel_dispatch f) then
      record <| m_cancel_dispatch := Some {|
        cd_status := CancelDone; cd_attempts := None; cd_updated_at := Some now;
        cd_next_attempt_at := None; cd_error := None |} |>
    else record in
  if late then record <| m_late_answer_at := Some now |> else record.
Lemma finish_inv s operation code error now d (f := sn_record s) :
  finish s operation code error now = Ok d →
  (m_status f = Running → m_operation f ≠ None) ∧
  (d_record d = f ∧ d_effects d = [finished_effect f] ∧ terminal (m_status f) = true ∧ deadline_lost s = false ∨
   (terminal (m_status f) = false ∨ deadline_lost s = true) ∧ ∃ r1 r2 es,
     flush (f <| m_reattach_recovery := None |>) = Ok r1 ∧ output_effect s r1 now true = (r2, es) ∧
     MonitorTime_try_from now = Some now ∧
     d_record d = finished_record f r2 code error now (deadline_lost s) ∧
     d_effects d = es ++ [finished_effect f]).
Proof.
  unfold finish. fold f. intros H.
  apply bind_ok in H as ([] & Hop%bail_if_ok & H). apply bind_ok in H as ([] & Hcode%bail_if_ok & H).
  apply bind_ok in H as ([] & Hrun%bail_if_ok & H). split.
  { intros Hr Hnone. rewrite Hr, Hnone in *. destruct operation; [done|].
    cbn in Hrun. by rewrite eqb_refl in Hrun. }
  destruct (terminal (m_status f)) eqn:Et, (deadline_lost s) eqn:El; cbn [negb orb] in H;
    try (left; by inv_ok); right; (split; [by auto|]); inv_pair;
    repeat match goal with H : monitor_time _ = Ok _ |- _ => apply monitor_time_ok in H as [-> ?] end;
    (eexists _, _, _; split; [done|]; split; [done|]; split; [done|]; split; [|done]);
    match goal with H : match error with Some _ => _ | None => _ end = Ok _ |- _ =>
      apply error_text_ok in H as -> end; done.
Qed.

Lemma restart_recovery_inv s now d (f := sn_record s) :
  restart_recovery s now = Ok d →
  active s = true ∧ d_effects d = [] ∧
  (d_record d = f ∨ ∃ recovery, is_recovery_running recovery = true ∧ rr_proof recovery = None ∧
     d_record d = f <| m_reattach_recovery := Some recovery |>).
Proof.
  unfold restart_recovery. fold f. intros H. inv_ok. split; [done|].
  destruct (recovering s); inv_ok; [by auto|]. split; [done|]. right. eexists. split_and!; [..|reflexivity]; done.
Qed.
Lemma restart_lost_inv s reason now d (f := sn_record s) :
  restart_lost s reason now = Ok d →
  d = decision s ∨
  recovering s = true ∧ (d_effects d = [RuleFinished] ∨ d_effects d = [ExitEvent]) ∧
  ∃ recovery error, is_recovery_running recovery = false ∧ rr_proof recovery = Some reason ∧
    d_record d = f <| m_reattach_recovery := Some recovery |> <| m_status := Lost |>
                   <| m_finished := Some now |> <| m_error := Some error |>.
Proof.
  unfold restart_lost, recovering. fold f. intros H.
  destruct (m_reattach_recovery f) as [recovery|] eqn:Er; [|left; by inv_ok].
  cbn [is_some_and]. unfold is_recovery_running at 1.
  destruct (rr_state recovery) as [started|started] eqn:Es; [right|left; by inv_ok]. inv_pair.
  repeat match goal with H : monitor_time _ = Ok _ |- _ => apply monitor_time_ok in H as [-> ?] end.
  split; [done|]. split; [cbn; destruct (is_some (m_rule_id f)); auto|].
  eexists _, _. split_and!; [..|reflexivity]; done.
Qed.
Lemma checked_stored_inv r actor s :
  checked_stored r actor = Ok s →
  sn_record s = r ∧ validate r = Ok tt ∧ m_agent r = ac_id (sn_actor s) ∧
  ∀ operation, m_operation r = Some operation → op_agent operation = m_agent r ∧ op_epoch operation = m_epoch r.
Proof.
  unfold checked_stored. intros H. inv_pair. split_and!; [done..|]. cbn.
  intros operation Ho. rewrite Ho in *. cbn in *. inv_ok.
  match goal with H : (_ =? _)%Z = true |- _ => apply Z.eqb_eq in H end. done.
Qed.
Lemma check_operation_inv s operation :
  check_operation s operation = Ok tt →
  ∃ current, m_operation (sn_record s) = Some current ∧ same_identity current operation = true.
Proof.
  unfold check_operation. intros H. inv_ok. destruct (m_operation (sn_record s)) as [current|]; [|done].
  cbn in *. inv_ok. eauto.
Qed.
End decisions.

(** ** Stopping a command *)

Section stopping.
Context `{HE : Encodings} `{HS : Schemas}.

Ltac split_if := repeat match goal with |- context [if ?b then _ else _] => destruct b end.
Lemma reserve_cancel_inv s owner root now d :
  reserve_cancel s owner root now = Ok d →
  ∃ d0, cancel s owner now = Ok d0 ∧ stopping (d_record d0) (d_record d) ∧
    (d_effects d = d_effects d0 ∨ d_effects d = d_effects d0 ++ [Terminate]).
Proof.
  unfold reserve_cancel. intros H. apply bind_ok in H as (d0 & Hc & H). exists d0. split; [done|].
  apply bind_ok in H as ([record response] & Hr & H). injection H as <-. cbn [d_record d_effects]. split.
  - assert (stopping (d_record d0) record) as Hs.
    { match type of Hr with (if ?b then _ else _) = _ => destruct b end; inv_ok; split_if; reflexivity. }
    unfold stopping in *. rewrite <-Hs. split_if; reflexivity.
  - match goal with |- context [if ?b then _ else _] => destruct b end; auto.
Qed.
Lemma settle_cancel_inv s operation receipt cleanup_allowed now d (f := sn_record s) :
  settle_cancel s operation receipt cleanup_allowed now = Ok d →
  d = decision s ∨
  m_status f = Running ∧ ∃ d0,
    (d0 = decision s ∨ ∃ error, finish s (Some operation) None error now = Ok d0) ∧
    stopping (d_record d0) (d_record d) ∧ d_effects d = d_effects d0.
Proof.
  unfold settle_cancel. fold f. destruct (receipt_parts receipt) as [[status error] retry_reason]. intros H.
  match type of H with (if ?b then _ else _) = _ => destruct b eqn:Eb end; [right|left; by inv_ok].
  split; [by inv_ok|]. apply bind_ok in H as (d0 & Hd0 & H). apply bind_ok in H as (record & Hr & H).
  injection H as <-. exists d0. cbn [d_record d_effects]. split; [|split; [|done]].
  - match type of Hd0 with (if ?b then _ else _) = _ => destruct b end; [eauto|left; by inv_ok].
  - assert (stopping (d_record d0) record) as Hs by (repeat case_match; by inv_ok).
    unfold stopping in *. rewrite <-Hs. split_if; reflexivity.
Qed.
Lemma maintain_inv s shell now d (f := sn_record s) :
  maintain_monitor s shell now = Ok d →
  d_effects d = [] ∧
  (d_record d = f ∨
   m_status f = Running ∧ m_operation f ≠ None ∧
   stopping (f <| m_stall_wake_generation := m_activity_generation f |>) (d_record d)).
Proof.
  unfold maintain_monitor. fold f. intros H.
  match type of H with (if ?b then _ else _) = _ => destruct b end; [by inv_ok; auto|].
  match type of H with (if ?b then _ else _) = _ => destruct b eqn:Eb end; [by inv_ok; auto|].
  match type of H with (if ?b then _ else _) = _ => destruct b end; [by inv_ok; auto|].
  apply bind_ok in H as (wake & [-> _]%monitor_integer_ok & [= <-]). split; [done|right].
  inv_ok. split; [done|]. split; [by destruct (m_operation f)|]. cbn [d_record].
  split_if; reflexivity.
Qed.
End stopping.

(** ** The decisions follow the protocol *)

Section protocol.
Context `{HE : Encodings} `{HS : Schemas}.

Lemma output_stream_protocol s operation stream chunk now d :
  output_stream s operation stream chunk now = Ok d →
  protocol (control_of (sn_record s)) (report_of (d_effects d)) (control_of (d_record d)).
Proof.
  intros [_ [[-> _]|(Hrun & _ & r1 & r2 & es & Ha & Ho & _ & -> & Hd)]]%output_stream_inv; [constructor|].
  apply append_core in Ha as Hk. apply output_effect_spec in Ho as (Hh & outputs & He & Hes).
  assert (event_sequence r1 = event_sequence (sn_record s)) as Hseq.
  { unfold event_sequence. by rewrite (keeps_field m_output_event_sequence _ _ (λ _, eq_refl) Hk). }
  rewrite Hseq in He.
  assert (control_of r2 = (control_of (sn_record s)) <| c_sequence := event_sequence r2 |>) as Hc.
  { apply control_holds. etrans; [by apply keeps_holds|done]. }
  assert (report_of es = {| p_execs := 0; p_stalls := []; p_outputs := outputs; p_inputs := [] |}) as ->.
  { destruct Hes as [[-> ->]|(id & ev & -> & ->)]; done. }
  destruct Hd as [[-> ->]|(_ & _ & ->)].
  - change (control_of (r2 <| m_bytes := _ |>)) with (control_of r2). rewrite Hc.
    exact (P_output (control_of (sn_record s)) _ _ _ Hrun (or_introl eq_refl) He).
  - match goal with |- protocol _ _ ?k => replace k with
      ((control_of r2) <| c_generation := (m_activity_generation (sn_record s) + 1)%Z |>) by done end.
    rewrite Hc. exact (P_output (control_of (sn_record s)) _ _ _ Hrun (or_intror eq_refl) He).
Qed.

(** The effects of an output report and one more effect. *)
Lemma report_snoc es outputs e :
  (es = [] ∧ outputs = []) ∨ (∃ id ev, es = [EOutputEvent id ev] ∧ outputs = [ov_sequence ev]) →
  p_outputs (report_of [e]) = [] →
  report_of (es ++ [e]) = (report_of [e]) <| p_outputs := outputs |>.
Proof. intros [[-> ->]|(id & ev & -> & ->)] He; [|by destruct e]. cbn. unfold report_of in *. cbn in *. by destruct e. Qed.

Lemma tick_protocol s now d :
  tick s now = Ok d →
  protocol (control_of (sn_record s)) (report_of (d_effects d)) (control_of (d_record d)).
Proof.
  intros [->|(_ & r1 & es & Hout & Hd)]%tick_inv; [constructor|].
  set (f := sn_record s) in *.
  destruct Hout as [[Hrun Ho]|(Hrun & -> & ->)];
    [|destruct Hd as [[-> ->]|[(? & _)|(? & _)]]; [constructor|done|done]].
  apply output_effect_spec in Ho as (Hh & outputs & He & Hes). apply control_holds in Hh as Hc.
  destruct Hd as [[-> ->]|[(_ & Hw & payload & -> & ->)|(_ & Hw & -> & ->)]].
  - rewrite Hc. destruct Hes as [[-> ->]|(id & ev & -> & ->)];
      exact (P_output (control_of f) _ _ _ Hrun (or_introl eq_refl) He).
  - rewrite (report_snoc _ _ _ Hes) by done.
    match goal with |- protocol _ _ ?k => replace k with
      ((control_of r1) <| c_wake := m_activity_generation f |> <| c_lease := None |>) by done end.
    rewrite Hc. exact (P_stall (control_of f) _ _ Hrun Hw He).
  - rewrite (report_snoc _ _ _ Hes) by done.
    match goal with |- protocol _ _ ?k => replace k with
      ((control_of r1) <| c_lease := Some (m_activity_generation f) |>) by done end.
    rewrite Hc. exact (P_probe (control_of f) _ _ Hrun Hw He).
Qed.
Lemma exit_status_settled f code error : settled (exit_status f code error).
Proof. unfold exit_status, settled. repeat case_match; auto. Qed.
Lemma finish_protocol s operation code error now d :
  finish s operation code error now = Ok d →
  protocol (control_of (sn_record s)) (report_of (d_effects d)) (control_of (d_record d)).
Proof.
  intros [Hop [(-> & -> & _)|(_ & r1 & r2 & es & Hf & Ho & _ & -> & ->)]]%finish_inv.
  { unfold finished_effect. case_match; constructor. }
  set (f := sn_record s) in *. apply flush_core in Hf as Hk.
  apply output_effect_spec in Ho as (Hh & outputs & He & Hes).
  assert (event_sequence r1 = event_sequence f) as Hseq.
  { unfold event_sequence. by rewrite (keeps_field m_output_event_sequence _ _ (λ _, eq_refl) Hk). }
  rewrite Hseq in He.
  assert (control_of r2 = (control_of f) <| c_sequence := event_sequence r2 |>) as Hc.
  { rewrite (control_holds r1 r2 Hh). f_equal. rewrite (control_holds _ r1 (keeps_holds _ _ Hk)), Hseq. done. }
  rewrite (report_snoc _ _ _ Hes) by (unfold finished_effect; by case_match).
  assert (report_of [finished_effect f] = silent) as -> by (unfold finished_effect; by case_match).
  match goal with |- protocol _ _ ?k => replace k with
    ((control_of r2) <| c_status := exit_status f code error |>) by (unfold finished_record; by repeat case_match) end.
  rewrite Hc. refine (P_finish (control_of f) _ _ _ (exit_status_settled f code error) _ He).
  cbn. destruct (decide (m_status f = Running)); auto.
Qed.

Lemma answer_protocol s accepted now d :
  answer_approval s accepted now = Ok d →
  protocol (control_of (sn_record s)) (report_of (d_effects d)) (control_of (d_record d)).
Proof.
  unfold answer_approval. set (f := sn_record s). intros H. inv_ok.
  destruct accepted; inv_ok.
  - refine (P_status (control_of f) Starting _ _); cbn; [by rewrite H|by left].
  - refine (P_status (control_of f) Cancelled _ _); cbn; rewrite H; [done|right; left; done].
Qed.
Lemma start_protocol s operation params now d :
  start s operation params now = Ok d →
  protocol (control_of (sn_record s)) (report_of (d_effects d)) (control_of (d_record d)).
Proof.
  unfold start. set (f := sn_record s). intros H. inv_ok.
  repeat match goal with H : monitor_integer _ _ _ = Ok _ |- _ => apply monitor_integer_ok in H as [-> ?] end.
  by refine (P_start (control_of f) operation _).
Qed.
Lemma probe_protocol s generation result now d :
  probe_result s generation result now = Ok d →
  protocol (control_of (sn_record s)) (report_of (d_effects d)) (control_of (d_record d)).
Proof.
  unfold probe_result. set (f := sn_record s). intros H.
  match type of H with (if ?b then _ else _) = _ => destruct b eqn:Eb end; inv_ok; [constructor|].
  repeat match goal with H : monitor_integer _ _ _ = Ok _ |- _ => apply monitor_integer_ok in H as [-> ?] end.
  match goal with H : (_ =? generation)%Z = true |- _ => apply Z.eqb_eq in H as <- end.
  by refine (P_probed (control_of f) _ _).
Qed.
Lemma cancel_protocol s owner now d :
  cancel s owner now = Ok d →
  protocol (control_of (sn_record s)) (report_of (d_effects d)) (control_of (d_record d)).
Proof.
  unfold cancel. set (f := sn_record s). intros H. inv_ok.
  destruct (active_status (m_status f)) eqn:Ea; cbn [negb] in *; inv_ok; [|constructor].
  destruct (m_status f == Running) eqn:Er; cbn [andb] in *.
  - case_match; inv_ok; constructor.
  - inv_ok. unfold finished_effect.
    replace (report_of _) with silent by (by case_match).
    refine (P_status (control_of f) Cancelled _ _); cbn; [done|right; left; done].
Qed.
Lemma input_protocol s operation attempt_id root input now d :
  reserve_input s operation attempt_id root input now = Ok d →
  protocol (control_of (sn_record s)) (report_of (d_effects d)) (control_of (d_record d)).
Proof.
  unfold reserve_input, begin_input. set (f := sn_record s). intros H. inv_ok.
  apply check_operation_inv in H as (current & Hop & _). fold f in Hop.
  assert (m_input_attempt f = None) as Hnone by (by destruct (m_input_attempt f)).
  assert (c_operation (control_of f) ≠ None) as Hsome by (cbn; by rewrite Hop).
  repeat case_match; inv_ok;
    (refine (P_input (control_of f) attempt_id _ _ Hsome _); cbn; [done|by rewrite Hnone]).
Qed.
Lemma settle_input_protocol s operation attempt_id outcome now d :
  settle_input s operation attempt_id outcome now = Ok d →
  protocol (control_of (sn_record s)) (report_of (d_effects d)) (control_of (d_record d)).
Proof.
  unfold settle_input. set (f := sn_record s). intros H. inv_ok.
  match goal with H : (if ?b then _ else _) = _ |- _ => destruct b eqn:Eb end; inv_ok; [constructor|].
  destruct (m_input_attempt f) as [attempt|] eqn:Ea; inv_ok; [|constructor].
  assert (c_attempt (control_of f) ≠ None) as Hsome by (cbn; by rewrite Ea).
  destruct (is_unknown outcome) eqn:Eu.
  - match goal with |- protocol _ _ ?k => replace k with (control_of f) end; [constructor|].
    unfold control_of. cbn [d_record]. repeat case_match; cbn; by rewrite Ea.
  - match goal with |- protocol _ _ ?k => replace k with ((control_of f) <| c_attempt := None |>) end;
      [by refine (P_settle (control_of f) _ Hsome)|].
    unfold control_of. cbn [d_record]. by repeat case_match.
Qed.

Lemma recovery_protocol s now d :
  restart_recovery s now = Ok d →
  protocol (control_of (sn_record s)) (report_of (d_effects d)) (control_of (d_record d)).
Proof. intros (_ & -> & [->|(recovery & _ & _ & ->)])%restart_recovery_inv; constructor. Qed.
Lemma lost_protocol s reason now d :
  restart_lost s reason now = Ok d → active s = true →
  protocol (control_of (sn_record s)) (report_of (d_effects d)) (control_of (d_record d)).
Proof.
  intros [->|(_ & He & recovery & error & _ & _ & ->)]%restart_lost_inv Ha; [constructor|].
  replace (report_of (d_effects d)) with silent by (by destruct He as [-> | ->]).
  refine (P_status (control_of (sn_record s)) Lost _ _); [exact Ha|by right; right; left].
Qed.
Lemma unanswered_protocol s actor operation reason now d :
  settle_unanswered s actor operation reason now = Ok d →
  protocol (control_of (sn_record s)) (report_of (d_effects d)) (control_of (d_record d)).
Proof.
  unfold settle_unanswered. intros H. inv_ok.
  destruct (active s) eqn:Ea; cbn [negb] in *; inv_ok; [|constructor].
  match goal with H : restart_recovery _ _ = Ok _ |- _ => apply restart_recovery_inv in H as (_ & _ & Hr) end.
  match goal with H : checked_stored _ _ = Ok _ |- _ => apply checked_stored_inv in H as (Hs & _) end.
  match goal with H : restart_lost _ _ _ = Ok _ |- _ => apply lost_protocol in H end.
  - rewrite Hs in *. destruct Hr as [Hr|(recovery & _ & _ & Hr)]; rewrite Hr in *; assumption.
  - unfold active in *. rewrite Hs. destruct Hr as [->|(recovery & _ & _ & ->)]; exact Ea.
Qed.
Lemma reattach_protocol s proof d :
  reattach_transaction s proof = Ok d →
  protocol (control_of (sn_record s)) (report_of (d_effects d)) (control_of (d_record d)).
Proof.
  unfold reattach_transaction, reattach. set (f := sn_record s). intros H.
  match type of H with (if ?b then _ else _) = _ => destruct b end; inv_ok; [constructor|].
  match goal with H : check_operation _ _ = Ok _ |- _ => apply check_operation_inv in H as (current & Hop & _) end.
  fold f in Hop. assert (c_operation (control_of f) ≠ None) as Hsome by (cbn; by rewrite Hop).
  destruct (active_owner s); inv_ok;
    (refine (P_status (control_of f) Running _ _); [done|by right; right; right]).
Qed.

Lemma reserve_cancel_protocol s owner root now d :
  reserve_cancel s owner root now = Ok d →
  protocol (control_of (sn_record s)) (report_of (d_effects d)) (control_of (d_record d)).
Proof.
  intros (d0 & Hc%cancel_protocol & ->%control_stopping & He)%reserve_cancel_inv.
  replace (report_of (d_effects d)) with (report_of (d_effects d0)); [done|].
  destruct He as [-> | ->]; [done|]. unfold report_of, filterb. rewrite List.filter_app, !omap_app, length_app. cbn.
  by rewrite !app_nil_r, Nat.add_0_r.
Qed.
Lemma settle_cancel_protocol s operation receipt cleanup_allowed now d :
  settle_cancel s operation receipt cleanup_allowed now = Ok d →
  protocol (control_of (sn_record s)) (report_of (d_effects d)) (control_of (d_record d)).
Proof.
  intros [->|(_ & d0 & [->|[error Hf%finish_protocol]] & ->%control_stopping & ->)]%settle_cancel_inv;
    [constructor|constructor|done].
Qed.
Lemma maintain_protocol s shell now d :
  maintain_monitor s shell now = Ok d →
  protocol (control_of (sn_record s)) (report_of (d_effects d)) (control_of (d_record d)).
Proof.
  intros (-> & [->|(Hs & Ho & ->%control_stopping)])%maintain_inv; [constructor|].
  by refine (P_quiet (control_of (sn_record s)) _ _).
Qed.

Lemma handle_protocol s actor q now d :
  allowed (sn_record s) q = true → handle s actor q now = Ok d →
  protocol (control_of (sn_record s)) (report_of (d_effects d)) (control_of (d_record d)).
Proof.
  destruct q; cbn [handle allowed]; intros Ha H.
  - by eapply answer_protocol.
  - by eapply start_protocol.
  - by eapply output_stream_protocol.
  - by eapply tick_protocol.
  - by eapply probe_protocol.
  - by eapply cancel_protocol.
  - by eapply finish_protocol.
  - by eapply input_protocol.
  - by eapply settle_input_protocol.
  - unfold recover_active_monitor in H. case_match; inv_ok; [constructor|by eapply recovery_protocol].
  - unfold reconcile_unknown in H. case_match; inv_ok; [constructor|by eapply recovery_protocol].
  - unfold reconcile_orphan in H.
    match type of H with (if ?b then _ else _) = _ => destruct b end; inv_ok;
      [constructor|by eapply recovery_protocol].
  - by eapply unanswered_protocol.
  - by eapply lost_protocol.
  - by eapply reattach_protocol.
  - unfold quarantine_delivery in H. inv_ok. unfold finished_effect.
    replace (report_of _) with silent by (by case_match). exact (P_fail (control_of (sn_record s))).
  - unfold bind_rule in H. inv_ok. constructor.
  - by eapply reserve_cancel_protocol.
  - by eapply settle_cancel_protocol.
  - by eapply maintain_protocol.
Qed.
End protocol.

(** * Runs of the protocol *)

Inductive protocol_run (k0 : control) : list report → control → Prop :=
| prun_nil : protocol_run k0 [] k0
| prun_snoc reports k p k' :
    protocol_run k0 reports k → protocol k p k' → protocol_run k0 (reports ++ [p]) k'.

(** A command that was just created. *)
Definition fresh (k : control) : Prop :=
  (c_status k = Approval ∨ c_status k = Starting) ∧ c_operation k = None ∧
  c_lease k = None ∧ c_sequence k = 0%Z.

Definition execs (reports : list report) : nat := sum_list (p_execs <$> reports).
Definition stalls (reports : list report) : list Z := mjoin (p_stalls <$> reports).
Definition outputs (reports : list report) : list Z := mjoin (p_outputs <$> reports).

Lemma execs_snoc reports p : execs (reports ++ [p]) = execs reports + p_execs p.
Proof. unfold execs. rewrite fmap_app, sum_list_with_app. cbn. lia. Qed.
Lemma stalls_snoc reports p : stalls (reports ++ [p]) = stalls reports ++ p_stalls p.
Proof. unfold stalls. rewrite fmap_app, join_app. cbn. by rewrite app_nil_r. Qed.
Lemma outputs_snoc reports p : outputs (reports ++ [p]) = outputs reports ++ p_outputs p.
Proof. unfold outputs. rewrite fmap_app, join_app. cbn. by rewrite app_nil_r. Qed.

(** What holds after every transition: a command was run exactly if the record has its operation,
    which the states before and after the start show; every stall notice is of a later generation
    than the one before, and so is a probe that is under way; output events are numbered from 1. *)
Record protocol_inv (reports : list report) (k : control) : Prop := {
  pi_execs : execs reports = if is_some (c_operation k) then 1 else 0;
  pi_before : c_status k = Approval ∨ c_status k = Starting → c_operation k = None;
  pi_running : c_status k = Running → c_operation k ≠ None;
  pi_quiet : c_operation k = None → stalls reports = [] ∧ c_lease k = None;
  pi_stalls : StronglySorted Z.lt (stalls reports) ∧ Forall (λ g, (g <= c_wake k)%Z) (stalls reports);
  pi_lease g : c_lease k = Some g → Forall (λ h, (h < g)%Z) (stalls reports);
  pi_wake : c_operation k ≠ None → (c_wake k <= c_generation k)%Z;
  pi_sequence : (0 <= c_sequence k)%Z;
  pi_outputs : outputs reports = seqZ 1 (c_sequence k) }.

Lemma sorted_snoc l g :
  StronglySorted Z.lt l → Forall (λ h, (h < g)%Z) l →
  StronglySorted Z.lt (l ++ [g]) ∧ Forall (λ h, (h <= g)%Z) (l ++ [g]).
Proof.
  intros Hs Hf. split.
  - induction Hs as [|x l Hs IH Hx]; cbn; [by repeat constructor|].
    apply Forall_cons in Hf as [Hx' Hf]. constructor; [by apply IH|].
    apply Forall_app. split; [done|]. by constructor.
  - apply Forall_app. split; [|by repeat constructor; lia].
    eapply Forall_impl; [exact Hf|]. cbn. lia.
Qed.
Lemma below l wake g : (wake < g)%Z → Forall (λ h, (h <= wake)%Z) l → Forall (λ h, (h < g)%Z) l.
Proof. intros Hw Hf. eapply Forall_impl; [exact Hf|]. cbn. lia. Qed.
Lemma emits_seqZ n outs m :
  (0 <= n)%Z → emits n outs m → (0 <= m)%Z ∧ seqZ 1 n ++ outs = seqZ 1 m.
Proof.
  intros Hn [|]; [by rewrite app_nil_r|]. split; [lia|].
  rewrite seqZ_app by lia. f_equal. rewrite seqZ_cons by lia. by rewrite (Z.add_comm 1 n).
Qed.

Lemma protocol_inv_step reports k p k' :
  protocol_inv reports k → protocol k p k' → protocol_inv (reports ++ [p]) k'.
Proof.
  intros [H1 H2 H3 H4 H5 H6 Hw H7 H8] Hp.
  destruct Hp as [|status Ha Hstatus|operation Hs|generation outs seq Hs Hg He|outs seq Hs Hk He
    |outs seq Hs Hk He|Hs Hl|status outs seq Hsettled Hop He|ticket identity Hs Hop Hn|Hs Hn|Hs Hop|];
    try (apply (emits_seqZ _ _ _ H7) in He as [He1 He2]);
    split; rewrite ?execs_snoc, ?stalls_snoc, ?outputs_snoc;
    cbn; unfold RecordSettersUsingExistingGetters.const;
    rewrite ?Nat.add_0_r, ?app_nil_r, ?H8; try done; try tauto.
  - naive_solver.
  - naive_solver.
  - rewrite H1, (H2 (or_intror Hs)). done.
  - naive_solver.
  - destruct (H4 (H2 (or_intror Hs))) as [-> _]. by split; constructor.
  - intros Hop. specialize (Hw Hop). lia.
  - apply sorted_snoc; [apply H5|by eapply below, H5].
  - intros g [= <-]. by eapply below, H5.
  - apply sorted_snoc; [apply H5|by apply H6].
  - unfold settled in Hsettled. naive_solver.
  - unfold settled in Hsettled. naive_solver.
  - split; [apply H5|]. eapply Forall_impl; [apply H5|]. cbn. specialize (Hw Hop). lia.
  - naive_solver.
Qed.
Lemma protocol_run_inv k0 reports k :
  fresh k0 → protocol_run k0 reports k → protocol_inv reports k.
Proof.
  intros (Hs & Ho & Hl & Hq). induction 1 as [|reports k p k' _ IH Hp]; [|by eapply protocol_inv_step].
  split; rewrite ?Ho, ?Hl, ?Hq; try done; [|by split; constructor].
  intros Hr. destruct Hs; congruence.
Qed.

(** The transactions of a monitor are a run of the protocol. *)
Section refinement.
Context `{HE : Encodings} `{HS : Schemas}.

Lemma step_inv r e r' :
  step r e r' →
  sn_record (e_snapshot e) = r ∧ allowed r (e_request e) = true ∧
  ∃ actor d, checked_stored r actor = Ok (e_snapshot e) ∧
    handle (e_snapshot e) actor (e_request e) (e_now e) = Ok d ∧
    is_ok (checked_stored r' actor) = true ∧ d_record d = r' ∧ d_effects d = e_effects e.
Proof.
  intros [actor q now s d Ha Hc]. unfold commit in Hc. inv_pair.
  match goal with H : checked_stored r _ = Ok _ |- _ => pose proof (checked_stored_inv _ _ _ H) as (Hr & _) end.
  cbn. split; [done|]. split; [done|]. exists actor, d. split_and!; [done|done| |done|done].
  match goal with H : checked_stored (d_record d) _ = Ok _ |- _ => by rewrite H end.
Qed.
Lemma run_protocol r0 trace r :
  run r0 trace r → protocol_run (control_of r0) ((λ e, report_of (e_effects e)) <$> trace) (control_of r).
Proof.
  induction 1 as [|trace r e r' _ IH Hs|trace r r' _ IH ->%control_side]; [constructor| |exact IH].
  rewrite fmap_app. cbn. econstructor; [exact IH|]. apply step_inv in Hs as (Hr & Ha & actor & d & _ & Hh & _ & <- & <-). rewrite <-Hr in Ha |- *.
  by eapply handle_protocol.
Qed.

Lemma create_fresh `{HU : UuidV5} actor input request_id log_root now r :
  create_record actor input request_id log_root now = Ok r → fresh (control_of r).
Proof.
  unfold create_record. intros H. inv_ok. unfold fresh. cbn.
  split_and!; [|done..].
  match goal with |- context [if ?b then Starting else _] => destruct b end; auto.
Qed.

(** A command that has ended stays as it is: a stop by its owner drops the marker of an automatic
    stop, the real answer of a command lost at its deadline completes it, and a delivery that cannot
    be handled fails it. *)
Lemma terminal_step r e r' :
  step r e r' → terminal (m_status r) = true →
  r' = r ∨
  ((∃ owner root, e_request e = RReserveCancel (Some owner) root) ∧ r' = r <| m_shell_pressure_cleanup := None |>) ∨
  (deadline_lost (e_snapshot e) = true ∧ (∃ operation code error, e_request e = RFinish operation code error) ∧
   settled (m_status r') ∧ m_late_answer_at r' = Some (e_now e)) ∨
  (∃ cursor error, e_request e = RQuarantine cursor error ∧ m_status r' = Failed).
Proof.
  intros (Hr & Ha & actor & d & _ & Hh & _ & <- & _)%step_inv Ht. subst r.
  set (s := e_snapshot e) in *. set (f := sn_record s) in *.
  assert (active s = false) as Hact by (unfold active; fold f; by destruct (m_status f)).
  assert (m_status f ≠ Running) as Hrun by (by intros E; rewrite E in Ht).
  assert ((m_status f == Running) = false) as Hrunb by (by apply eqb_false).
  destruct (e_request e) eqn:Eq; cbn [handle allowed] in *.
  - exfalso. unfold answer_approval in Hh. fold f in Hh. inv_ok.
    match goal with H : m_status f = Approval |- _ => by rewrite H in Ht end.
  - exfalso. unfold start in Hh. fold f in Hh. inv_ok.
    match goal with H : m_status f = Starting |- _ => by rewrite H in Ht end.
  - apply output_stream_inv in Hh as [_ [[-> _]|[? _]]]; [by left|done].
  - apply tick_inv in Hh as [->|(_ & r1 & es & Ho & Hd)]; [by left|].
    destruct Ho as [[? _]|(_ & -> & ->)]; [done|]. destruct Hd as [[-> _]|[(? & _)|(? & _)]]; [by left|done|done].
  - unfold probe_result in Hh. fold f in Hh. rewrite Hrunb in Hh. cbn in Hh. inv_ok. by left.
  - unfold cancel in Hh. fold f in Hh. unfold active in Hact. fold f in Hact. rewrite Hact in Hh.
    cbn [negb] in Hh. inv_ok. by left.
  - apply finish_inv in Hh as [_ [(-> & _)|(Hor & r1 & r2 & es & _ & _ & _ & -> & _)]]; [by left|].
    destruct (deadline_lost s) eqn:El.
    + right. right. left. split_and!; [done|eauto| |].
      * unfold finished_record. cbn [m_late_answer_at]. fold f.
        replace (m_status _) with (exit_status f code error) by (by repeat case_match).
        apply exit_status_settled.
      * unfold finished_record. by repeat case_match.
    + exfalso. destruct Hor as [Hor|Hor]; [change (terminal (m_status f) = false) in Hor|]; congruence.
  - exfalso. unfold reserve_input, begin_input in Hh. fold f in Hh. rewrite Hrunb in Hh. inv_ok.
  - unfold settle_input in Hh. fold f in Hh. rewrite Hrunb in Hh. rewrite orb_true_r in Hh.
    cbn [orb] in Hh. inv_ok. by left.
  - exfalso. unfold active in Hact. fold f in Hact. congruence.
  - unfold reconcile_unknown in Hh. rewrite Hact in Hh. cbn [negb] in Hh. inv_ok. by left.
  - unfold reconcile_orphan in Hh. fold f in Hh. rewrite Hrunb in Hh. cbn in Hh. inv_ok. by left.
  - unfold settle_unanswered in Hh. rewrite Hact in Hh. cbn [negb] in Hh. inv_ok. by left.
  - exfalso. unfold active in Hact. fold f in Hact. congruence.
  - unfold reattach_transaction, reattach in Hh. fold f in Hh. rewrite Hact in Hh.
    match type of Hh with (if ?b then _ else _) = _ => destruct b end; inv_ok; by left.
  - unfold quarantine_delivery in Hh. inv_ok. do 3 right. eauto.
  - exfalso. unfold bind_rule in Hh. fold f in Hh. inv_ok. by destruct (m_status f).
  - unfold reserve_cancel, cancel in Hh. fold f in Hh. unfold active in Hact. fold f in Hact. rewrite Hact, Hrunb in Hh.
    cbn [negb] in Hh. inv_pair. cbn in *. inv_ok. destruct owner; cbn; eauto 6.
  - apply settle_cancel_inv in Hh as [->|[? _]]; [by left|done].
  - apply maintain_inv in Hh as [_ [->|[? _]]]; [by left|done].
Qed.
End refinement.
