(* ===== verification/MonitorHistory.v ===== *)
(** The output fields of a monitor's record after a whole run: the counts are those of the bytes
    the streams have delivered, the tail is the end of their text, and the record of a command that
    has ended is the outcome of its end. *)

From S2P Require Import Prelude Strs Json F64 Canonical Extern Utf8 MonitorTypes MonitorMatches.
From S2P Require Import MonitorOutput MonitorPolicy MonitorSteps.

(** ** What a run has delivered *)

(** The bytes a transaction adds to a stream, and those among them that are searched: the owner
    must be active. *)
Definition chunk_of (st : MonitorStream) (e : entry) : string :=
  match e_request e with
  | ROutput _ stream chunk =>
      if (m_status (sn_record (e_snapshot e)) == Running) && (stream == stream_text st) then chunk else ""
  | _ => ""
  end.
Definition searched_of (st : MonitorStream) (e : entry) : string :=
  if active_owner (e_snapshot e) then chunk_of st e else "".
Definition written (st : MonitorStream) (trace : list entry) : string := join "" (chunk_of st <$> trace).
Definition searched (st : MonitorStream) (trace : list entry) : string := join "" (searched_of st <$> trace).

Lemma join_nil_app l k : join "" (l ++ k) = join "" l +:+ join "" k.
Proof. induction l as [|x l IH]; [done|]. cbn [app]. by rewrite !join_nil_cons, IH, str_app_assoc. Qed.
Lemma written_snoc st trace e : written st (trace ++ [e]) = written st trace +:+ chunk_of st e.
Proof. unfold written. rewrite fmap_app, join_nil_app. done. Qed.
Lemma searched_snoc st trace e : searched st (trace ++ [e]) = searched st trace +:+ searched_of st e.
Proof. unfold searched. rewrite fmap_app, join_nil_app. done. Qed.

(** ** Transactions that do not touch the output *)

Definition outputs_request (q : request) : bool :=
  match q with ROutput _ _ _ | RTick | RFinish _ _ _ | RSettleCancel _ _ _ => true | _ => false end.
(** Fields that are the same by computation. *)
Ltac same_fields :=
  unfold same_output, excerpts_of; cbn; split_and!; try reflexivity; [by intros ?? ?|by left].
Lemma same_output_refl r : same_output r r.
Proof. same_fields. Qed.
Lemma same_output_trans r1 r2 r3 : same_output r1 r2 → same_output r2 r3 → same_output r1 r3.
Proof.
  intros (A1 & A2 & A3 & A4 & A5 & A6 & A7 & A8 & A9 & A10) (B1 & B2 & B3 & B4 & B5 & B6 & B7 & B8 & B9 & B10).
  unfold same_output. rewrite B1, B2, B3, B4, B5, B6, B7, B8. split_and!; try done; [by auto|].
  destruct B10 as [-> | ->]; auto.
Qed.
Lemma stopping_output r r' : stopping r r' → same_output r r'.
Proof.
  intros H. unfold same_output, excerpts_of.
  rewrite (stopping_field m_output_match_excerpts r r' (λ _, eq_refl) H).
  split_and!; try (by apply (λ Hf, stopping_field _ r r' Hf H)); [done|].
  left. by apply (λ Hf, stopping_field _ r r' Hf H).
Qed.
Lemma side_output r r' : side_write r r' → same_output r r'.
Proof. intros ->. same_fields. Qed.

Section frame.
Context `{HE : Encodings} `{HS : Schemas}.

Lemma handle_frame s actor q now d :
  handle s actor q now = Ok d → outputs_request q = false → same_output (sn_record s) (d_record d).
Proof.
  destruct q; cbn [handle outputs_request]; intros H Hq; try discriminate Hq.
  - unfold answer_approval in H. inv_ok. destruct accepted; inv_ok; same_fields.
  - unfold start in H. inv_ok. same_fields.
  - unfold probe_result in H. match type of H with (if ?b then _ else _) = _ => destruct b end; inv_ok; same_fields.
  - unfold cancel in H. inv_ok. repeat (case_match; inv_ok; try same_fields).
  - unfold reserve_input, begin_input in H. inv_ok. repeat (case_match; inv_ok; try same_fields).
  - unfold settle_input in H. inv_ok. repeat (case_match; inv_ok; try same_fields).
  - unfold recover_active_monitor in H. case_match; inv_ok; [same_fields|].
    apply restart_recovery_inv in H as (_ & _ & [->|(recovery & _ & _ & ->)]); same_fields.
  - unfold reconcile_unknown in H. case_match; inv_ok; [same_fields|].
    apply restart_recovery_inv in H as (_ & _ & [->|(recovery & _ & _ & ->)]); same_fields.
  - unfold reconcile_orphan in H. match type of H with (if ?b then _ else _) = _ => destruct b end; inv_ok; [same_fields|].
    apply restart_recovery_inv in H as (_ & _ & [->|(recovery & _ & _ & ->)]); same_fields.
  - unfold settle_unanswered in H. inv_ok. case_match; inv_ok; [same_fields|].
    match goal with H : restart_recovery _ _ = Ok _ |- _ => apply restart_recovery_inv in H as (_ & _ & Hr) end.
    match goal with H : checked_stored _ _ = Ok _ |- _ => apply checked_stored_inv in H as (Hs & _) end.
    match goal with H : restart_lost _ _ _ = Ok _ |- _ =>
      apply restart_lost_inv in H as [->|(_ & _ & recovery & error & _ & _ & ->)] end;
      cbn [d_record decision]; rewrite Hs; destruct Hr as [->|(recovery' & _ & _ & ->)]; same_fields.
  - apply restart_lost_inv in H as [->|(_ & _ & recovery & error & _ & _ & ->)]; same_fields.
  - unfold reattach_transaction, reattach in H.
    match type of H with (if ?b then _ else _) = _ => destruct b end; inv_ok; [same_fields|].
    destruct (active_owner s); inv_ok; same_fields.
  - unfold quarantine_delivery in H. inv_ok. same_fields.
  - unfold bind_rule in H. inv_ok. same_fields.
  - apply reserve_cancel_inv in H as (d0 & H & Hs%stopping_output & _). eapply same_output_trans; [|exact Hs].
    unfold cancel in H. inv_ok. repeat (case_match; inv_ok; try same_fields).
  - apply maintain_inv in H as (_ & [->|(_ & _ & Hs%stopping_output)]); [same_fields|exact Hs].
Qed.
End frame.

(** ** Transactions that do *)

Section steps.
Context `{HE : Encodings, !EncodingsSpec HE} `{HS : Schemas}.

Lemma output_effect_reports s r now final r' es : output_effect s r now final = (r', es) → reports r r'.
Proof.
  unfold output_effect. intros H. case_match; [|simplify_eq; split; [done|by left]].
  pose proof (pending_reports r now final) as Hp.
  destruct (pending r now final) as [r1 [[id ev]|]]; by injection H as <- <-.
Qed.
Lemma reports_bytes r r' limit : reports r r' → reports (r <| m_bytes := limit |>) (r' <| m_bytes := limit |>).
Proof.
  intros [H1 H2]. split; [|exact H2]. clear H2. destruct r, r'. unfold unreported in *. msimpl in H1. msimpl.
  by simplify_eq.
Qed.

Lemma stream_kind_inv stream st : stream_kind stream = Ok st → stream = stream_text st.
Proof. unfold stream_kind. intros H. repeat case_match; by inv_ok. Qed.

(** A chunk of the running command: decoded and counted on one stream. *)
Lemma output_step s operation stream chunk now d (f := sn_record s) :
  output_ok f → output_stream s operation stream chunk now = Ok d → m_status f = Running →
  ∃ st r1, stream = stream_text st ∧ append f stream chunk (active_owner s) = Ok r1 ∧ decoded f st chunk r1 ∧
    (if matching f chunk (active_owner s) then counted f st chunk r1 else uncounted f r1) ∧ excerpted f st r1 ∧
    let r2 := r1 <| m_bytes := (m_bytes f + Z.of_nat (String.length chunk))%Z |> in
    same_output r2 (d_record d) ∧ output_ok r2 ∧ m_output_patterns r1 = m_output_patterns f.
Proof.
  intros Hf [_ [[_ ?]|(_ & _ & r1 & r2 & es & Ha & Ho & _ & _ & Hd)]]%output_stream_inv Hrun; [done|].
  assert (∃ st, stream = stream_text st) as [st ->].
  { unfold append in Ha. apply bind_ok in Ha as (st & Hst & _). exists st. by apply stream_kind_inv. }
  destruct (append_ok f st chunk (active_owner s) Hf) as (r1' & Ha' & Hdec & Hc & Hx & Hok).
  fold f in Ha. rewrite Ha in Ha'. injection Ha' as <-.
  apply output_effect_reports, (reports_bytes _ _ (m_bytes f + Z.of_nat (String.length chunk))) in Ho.
  exists st, r1. do 5 (split; [done|]). split; [|split; [done|]].
  - apply reports_same in Ho. destruct Hd as [[_ ->]|(_ & _ & ->)]; exact Ho.
  - apply append_core in Ha. exact (keeps_field m_output_patterns _ _ (λ _, eq_refl) Ha).
Qed.
Lemma tick_step s now d (f := sn_record s) :
  output_ok f → tick s now = Ok d → same_output f (d_record d) ∧ output_ok (d_record d).
Proof.
  intros Hf [->|(_ & r1 & es & Hout & Hd)]%tick_inv; [split; [apply same_output_refl|done]|].
  assert (reports f r1) as Hr.
  { destruct Hout as [[_ Ho]|(_ & -> & _)]; [by eapply output_effect_reports|split; [done|by left]]. }
  pose proof (reports_ok _ _ Hf Hr) as Hok. pose proof (reports_same _ _ Hr) as Hs.
  destruct Hd as [[-> _]|[(_ & _ & payload & -> & _)|(_ & _ & -> & _)]]; [done|split..].
  - exact Hs.
  - eapply output_ok_same; [exact Hok|same_fields].
  - exact Hs.
  - eapply output_ok_same; [exact Hok|same_fields].
Qed.
(** The end: nothing happens, or the output is flushed. *)
Lemma finish_step s operation code error now d (f := sn_record s) :
  output_ok f → finish s operation code error now = Ok d →
  d_record d = f ∧ terminal (m_status f) = true ∨
  ∃ so se, output_ok (d_record d) ∧ settled (m_status (d_record d)) ∧
    bytes (m_output_utf8_pending f) Stdout = Ok so ∧ bytes (m_output_utf8_pending f) Stderr = Ok se ∧
    (∀ st, bytes (m_output_utf8_pending (d_record d)) st = Ok "") ∧
    m_tail (d_record d) =
      last_chars MONITOR_OUTPUT_TAIL_CODEPOINTS (m_tail f +:+ from_utf8_lossy so +:+ from_utf8_lossy se) ∧
    m_output_line_tail (d_record d) = m_output_line_tail f ∧ m_output_matcher_tail (d_record d) = None ∧
    m_output_matches_total (d_record d) = m_output_matches_total f ∧ m_bytes (d_record d) = m_bytes f ∧
    m_output_patterns (d_record d) = m_output_patterns f ∧
    m_output_line_offsets (d_record d) = m_output_line_offsets f ∧
    (∀ key e, excerpts_of (d_record d) !! key = Some e → excerpts_of f !! key = Some e) ∧
    (m_output_matches_pending (d_record d) = m_output_matches_pending f ∨
     m_output_matches_pending (d_record d) = Some ∅).
Proof.
  intros Hf [_ [(-> & _ & Ht & _)|(_ & r1 & r2 & es & Hfl & Ho & _ & Hd & _)]]%finish_inv; [by left|right].
  fold f in Hfl, Hd. set (f0 := f <| m_reattach_recovery := None |>) in *.
  assert (output_ok f0) as Hf0 by (eapply output_ok_same; [exact Hf|same_fields]).
  destruct (flush_ok f0 Hf0) as (r1' & so & se & Hfl' & Hok & Hso & Hse & Hu & Htail & Hl & Hm & Htot & Hb & Hlo & Hx & Hpend).
  rewrite Hfl in Hfl'. injection Hfl' as <-.
  apply output_effect_reports in Ho as Hr. pose proof (reports_ok _ _ Hok Hr) as Hok2.
  apply reports_same in Hr as (E1 & E2 & E3 & E4 & E5 & E6 & E7 & E8 & E9 & E10).
  apply flush_core in Hfl. pose proof (keeps_field m_output_patterns _ _ (λ _, eq_refl) Hfl) as Hps.
  assert (same_output r2 (d_record d)) as Hsame.
  { rewrite Hd. unfold finished_record. repeat case_match; same_fields. }
  pose proof Hsame as (F1 & F2 & F3 & F4 & F5 & F6 & F7 & F8 & F9 & F10).
  assert (m_status (d_record d) = exit_status f code error) as Hst.
  { rewrite Hd. unfold finished_record. by repeat case_match. }
  exists so, se. rewrite Hst, F1, F2, F3, F4, F5, F6, F7, F8, E1, E2, E3, E4, E5, E6, E7, E8.
  split_and!; try done; [by eapply output_ok_same|apply exit_status_settled| |].
  - intros key e He. apply F9, E9 in He. unfold excerpts_of in *. by rewrite Hx in He.
  - destruct F10 as [-> | ->]; [|auto]. destruct E10 as [-> | ->]; [left; exact Hpend|auto].
Qed.
End steps.

(** ** Counts *)

Section counts.
Context `{HE : Encodings, !EncodingsSpec HE} `{HS : Schemas}.

Definition newest (s : string) : string := str_drop (String.length s - OUTPUT_CONTEXT_BYTES) s.
Lemma newest_app s t : newest (newest s +:+ t) = newest (s +:+ t).
Proof.
  unfold newest. rewrite !str_length_app, str_drop_length.
  destruct (decide (String.length t ≤ OUTPUT_CONTEXT_BYTES)) as [Hl|Hl].
  - rewrite !str_drop_app by (rewrite ?str_drop_length; lia). rewrite str_drop_drop. f_equal. f_equal. lia.
  - assert (∀ a n, String.length a ≤ n → str_drop n (a +:+ t) = str_drop (n - String.length a) t) as Hd.
    { intros a n Hn. replace n with (String.length a + (n - String.length a)) at 1 by lia.
      by rewrite <-str_drop_drop, str_drop_app_length. }
    rewrite !Hd by (rewrite ?str_drop_length; lia). rewrite str_drop_length. f_equal. lia.
Qed.
(** Searching what is kept of a stream finds what searching all of it would. *)
Lemma new_hits_newest needle s chunk :
  pattern_ok needle →
  new_hits (newest s) chunk needle =
  (Z.of_nat (occurrences needle (s +:+ chunk)) - Z.of_nat (occurrences needle s))%Z.
Proof.
  intros [Hne Hsize]. rewrite (occurrences_app needle s chunk Hne). unfold new_hits, newest.
  unfold MONITOR_OUTPUT_MAX_PATTERN_BYTES in Hsize.
  set (n := String.length needle - 1). rewrite str_drop_length.
  rewrite str_drop_app by (rewrite str_drop_length; lia). rewrite str_drop_drop.
  replace (String.length s - OUTPUT_CONTEXT_BYTES + (String.length s - (String.length s - OUTPUT_CONTEXT_BYTES) - n))
    with (String.length s - n) by (unfold OUTPUT_CONTEXT_BYTES, OUTPUT_EXCERPT_BYTES; subst n; lia).
  lia.
Qed.

(** A count to report: it is of a pattern, and among its total. *)
Definition counted_before (ps : list string) (total : option (gmap string Z)) (key : string) (n : Z) : Prop :=
  ∃ st i p, ps !! i = Some p ∧ key = match_key (stream_text st) i ∧ (n <= count_of total key)%Z.
(** The counts and excerpts of a run with the patterns [ps]. *)
Record counts_of (ps : list string) (trace : list entry) (r : MonitorRecord) : Prop := {
  co_ok : output_ok r;
  co_patterns : m_output_patterns r = Some ps;
  co_bytes : m_bytes r = Z.of_nat (String.length (written Stdout trace) + String.length (written Stderr trace));
  co_line st : ps ≠ [] → stream_value (m_output_line_tail r) st = None → searched st trace = "";
  co_previous st : ps ≠ [] → previous_bytes r st = Ok (newest (searched st trace));
  co_total st i p : ps !! i = Some p →
    count_of (m_output_matches_total r) (match_key (stream_text st) i) =
    capped (Z.of_nat (occurrences p (searched st trace)));
  co_pending key : (0 < count_of (m_output_matches_pending r) key)%Z →
    counted_before ps (m_output_matches_total r) key (count_of (m_output_matches_pending r) key);
  co_known st : ps ≠ [] → all_known r st;
  co_excerpts key e : excerpts_of r !! key = Some e →
    ∃ st i p, ps !! i = Some p ∧ key = match_key (stream_text st) i ∧
      (utf8_valid p = true → contains_str p (oe_excerpt e) = true) }.

Lemma pending_kept (P : string → Z → Prop) v v' :
  v' = v ∨ v' = Some ∅ → (∀ key, (0 < count_of v key)%Z → P key (count_of v key)) →
  ∀ key, (0 < count_of v' key)%Z → P key (count_of v' key).
Proof.
  intros [-> | ->] H key; [apply H|]. unfold count_of. cbn [from_option id]. rewrite lookup_empty. cbn. lia.
Qed.
(** Another record with the same output, and a transaction without any. *)
Lemma counts_same ps trace r r' : counts_of ps trace r → same_output r r' → counts_of ps trace r'.
Proof.
  intros [H1 H2 H3 H4 H5 H6 Hp H7 H8] Hsame. pose proof (output_ok_same _ _ H1 Hsame) as Hok.
  destruct Hsame as (E1 & E2 & E3 & E4 & E5 & E6 & E7 & E8 & E9 & E10).
  split; rewrite ?E1, ?E5, ?E7, ?E8; try done.
  - intros st Hps. unfold previous_bytes. rewrite E4, E5. by apply H5.
  - by apply (pending_kept (counted_before ps (m_output_matches_total r)) _ _ E10).
  - intros st Hps. apply (all_known_same r); [unfold previous_bytes; by rewrite E4, E5|by rewrite E6|auto].
  - eauto.
Qed.
Lemma searched_idle trace e st : (∀ st, chunk_of st e = "") → searched st (trace ++ [e]) = searched st trace.
Proof. intros He. rewrite searched_snoc. unfold searched_of. rewrite He. by case_match; rewrite str_app_nil_r. Qed.
Lemma written_idle trace e st : (∀ st, chunk_of st e = "") → written st (trace ++ [e]) = written st trace.
Proof. intros He. by rewrite written_snoc, He, str_app_nil_r. Qed.
Lemma counts_idle ps trace r e : counts_of ps trace r → (∀ st, chunk_of st e = "") → counts_of ps (trace ++ [e]) r.
Proof.
  intros [H1 H2 H3 H4 H5 H6 Hp H7 H8] He.
  split; intros; rewrite ?searched_idle, ?written_idle by done; auto.
Qed.
Lemma counts_hits_nonneg previous chunk p : (0 <= new_hits previous chunk p)%Z.
Proof. unfold new_hits. lia. Qed.
Lemma chunk_of_output s operation st chunk now es st' :
  m_status (sn_record s) = Running →
  chunk_of st' {| e_snapshot := s; e_request := ROutput operation (stream_text st) chunk; e_now := now; e_effects := es |}
  = if decide (st' = st) then chunk else "".
Proof. intros Hs. unfold chunk_of. cbn. rewrite Hs. by destruct st, st'. Qed.
(** What is searched of a chunk that arrives. *)
Lemma searched_of_output s operation st chunk now es ps st' :
  let e := {| e_snapshot := s; e_request := ROutput operation (stream_text st) chunk; e_now := now; e_effects := es |} in
  m_status (sn_record s) = Running → m_output_patterns (sn_record s) = Some ps → ps ≠ [] →
  chunk_of st' e = (if decide (st' = st) then chunk else "") ∧
  searched_of st' e = if matching (sn_record s) chunk (active_owner s) then chunk_of st' e else "".
Proof.
  intros e Hs Hps Hne. subst e. rewrite chunk_of_output by done. split; [done|]. unfold searched_of, matching.
  rewrite chunk_of_output by done. cbn [e_snapshot]. rewrite Hps. cbn [from_option id]. destruct ps as [|p ps]; [done|]. cbn. rewrite andb_true_r.
  destruct (active_owner s); [|done]. unfold is_empty. destruct (chunk == "") eqn:E; [|done]. cbn.
  apply eqb_eq in E as ->. by case_match.
Qed.

(** A chunk that arrives. *)
Section arriving.
Context (ps : list string) (trace : list entry) (s : MonitorSnapshot) (operation : MonitorOperationRecord)
  (st : MonitorStream) (chunk : string) (now : f64) (es : list Effect) (r1 : MonitorRecord).
Let f := sn_record s.
Let e := {| e_snapshot := s; e_request := ROutput operation (stream_text st) chunk; e_now := now; e_effects := es |}.
Let found := matching f chunk (active_owner s).
Hypothesis Hbefore : counts_of ps trace f.
Hypothesis Hrun : m_status f = Running.
Hypothesis Hcount : if found then counted f st chunk r1 else uncounted f r1.
Hypothesis Hexcerpts : excerpted f st r1.

Lemma arriving_searched st' :
  ps ≠ [] → searched st' (trace ++ [e]) = searched st' trace +:+ (if found && bool_decide (st' = st) then chunk else "").
Proof.
  intros Hne. destruct (searched_of_output s operation st chunk now es ps st' Hrun (co_patterns _ _ _ Hbefore) Hne) as [Hch Hse].
  rewrite searched_snoc. fold e in Hse, Hch. rewrite Hse, Hch. subst found. case_bool_decide as Hd;
    [rewrite decide_True by done|rewrite decide_False by done]; by destruct (matching _ _ _).
Qed.
Lemma arriving_line st' :
  ps ≠ [] → stream_value (m_output_line_tail r1) st' = None → searched st' (trace ++ [e]) = "".
Proof.
  intros Hne. rewrite arriving_searched by done. pose proof (co_line _ _ _ Hbefore st' Hne) as H4. destruct found; cbn [andb].
  - destruct Hcount as (previous & _ & _ & Hl & _). specialize (Hl st'). intros Hn. rewrite Hn in Hl. revert Hl.
    case_decide; [done|]. rewrite bool_decide_eq_false_2 by done. intros Hl. rewrite H4, str_app_nil_r; [done|].
    fold f in Hl |- *. by destruct (stream_value (m_output_line_tail f) st').
  - destruct Hcount as (_ & -> & _). intros Hn. by rewrite H4.
Qed.
Lemma arriving_previous st' :
  ps ≠ [] → previous_bytes r1 st' = Ok (newest (searched st' (trace ++ [e]))).
Proof.
  intros Hne. rewrite arriving_searched by done. pose proof (co_previous _ _ _ Hbefore) as H5. destruct found; cbn [andb].
  - destruct Hcount as (previous & Hp & Hpr & _). rewrite Hpr. case_decide as Hd.
    + rewrite bool_decide_eq_true_2 by done. subst st'. rewrite H5 in Hp by done. injection Hp as <-. f_equal. apply newest_app.
    + rewrite bool_decide_eq_false_2, str_app_nil_r by done. by apply H5.
  - destruct Hcount as (-> & _). rewrite str_app_nil_r. by apply H5.
Qed.
Lemma arriving_total st' i p :
  ps !! i = Some p →
  count_of (m_output_matches_total r1) (match_key (stream_text st') i) =
  capped (Z.of_nat (occurrences p (searched st' (trace ++ [e])))).
Proof.
  intros Hi. assert (ps ≠ []) as Hne by (by intros ->). destruct Hbefore as [H1 H2 _ _ H5 H6 _ _ _].
  pose proof (ok_patterns _ H1) as Hpo. rewrite H2 in Hpo. pose proof (Forall_lookup_1 _ _ _ _ Hpo Hi) as Hp.
  rewrite arriving_searched by done. destruct found; cbn [andb].
  - destruct Hcount as (previous & Hpv & _ & _ & Htot & _). fold f in Htot. rewrite Htot with (p := p) by by rewrite H2.
    case_decide as Hd; [|rewrite bool_decide_eq_false_2, str_app_nil_r by done; by apply H6]. subst st'.
    rewrite bool_decide_eq_true_2 by done. rewrite H5 in Hpv by done. injection Hpv as <-.
    rewrite (H6 st i p Hi), capped_add by apply counts_hits_nonneg. rewrite new_hits_newest by done. f_equal. lia.
  - destruct Hcount as (_ & _ & -> & _). rewrite str_app_nil_r. by apply H6.
Qed.
Lemma arriving_pending key :
  (0 < count_of (m_output_matches_pending r1) key)%Z →
  counted_before ps (m_output_matches_total r1) key (count_of (m_output_matches_pending r1) key).
Proof.
  destruct Hbefore as [H1 H2 _ _ _ _ Hp _ _].
  destruct found; [|destruct Hcount as (_ & _ & -> & _ & _ & ->); apply Hp].
  destruct Hcount as (previous & _ & _ & _ & Htot & Hpd). destruct (Hpd key) as [->|(i & p & Hi & -> & ->)].
  - intros (st' & i & p & Hi & -> & Hle)%Hp. exists st', i, p. split; [done|]. split; [done|].
    rewrite Htot with (p := p) by by rewrite H2. case_decide; [|done].
    pose proof (ok_total _ H1 (match_key (stream_text st') i)). pose proof (counts_hits_nonneg previous chunk p).
    unfold capped. fold f in H, Hle. lia.
  - intros _. rewrite H2 in Hi. exists st, i, p. split; [done|]. split; [done|].
    rewrite Htot with (p := p) by by rewrite H2. rewrite decide_True by done.
    pose proof (ok_total _ H1 (match_key (stream_text st) i)). specialize (Hp (match_key (stream_text st) i)). fold f in H, Hp.
    destruct (decide (0 < count_of (m_output_matches_pending f) (match_key (stream_text st) i))%Z) as [Hpos|Hpos];
      [destruct (Hp Hpos) as (_ & _ & _ & _ & _ & Hle)|]; unfold capped; lia.
Qed.
Lemma counts_append (r2 := r1 <| m_bytes := (m_bytes f + Z.of_nat (String.length chunk))%Z |>) :
  output_ok r2 → m_output_patterns r1 = m_output_patterns f → counts_of ps (trace ++ [e]) r2.
Proof.
  intros Hok Hps. pose proof Hbefore as [H1 H2 H3 _ _ _ _ H7 H8]. split; subst r2; msimpl.
  - done.
  - by rewrite Hps.
  - fold f in H3. rewrite H3, !written_snoc, !str_length_app. subst e. rewrite !chunk_of_output by done.
    destruct st; [rewrite (decide_False (P := Stderr = Stdout)), decide_True by done
                 |rewrite (decide_False (P := Stdout = Stderr)), decide_True by done]; cbn [String.length]; lia.
  - apply arriving_line.
  - exact arriving_previous.
  - exact arriving_total.
  - exact arriving_pending.
  - intros st' Hne. apply (proj1 Hexcerpts). auto.
  - intros key x Hk. destruct (proj2 Hexcerpts key x Hk) as [Hold|(i & p & Hi & -> & Hcont)]; [by apply H8|].
    fold f in H2. rewrite H2 in Hi. cbn in Hi. exists st, i, p. split; [done|]. split; [done|]. apply Hcont, H7. by intros ->.
Qed.
End arriving.

Lemma counts_output ps trace s operation stream chunk now d :
  let e := {| e_snapshot := s; e_request := ROutput operation stream chunk; e_now := now; e_effects := d_effects d |} in
  counts_of ps trace (sn_record s) → output_stream s operation stream chunk now = Ok d →
  m_status (sn_record s) = Running → counts_of ps (trace ++ [e]) (d_record d).
Proof.
  intros e Hc Ho Hrun.
  destruct (output_step _ _ _ _ _ _ (co_ok _ _ _ Hc) Ho Hrun) as (st & r1 & -> & _ & _ & Hcount & Hx & Hsame & Hok & Hps).
  eapply counts_same; [|exact Hsame]. by apply counts_append.
Qed.
(** A transaction of any kind. *)
Lemma chunk_of_other st e :
  (∀ operation stream chunk, e_request e = ROutput operation stream chunk → m_status (sn_record (e_snapshot e)) ≠ Running) →
  chunk_of st e = "".
Proof.
  intros H. unfold chunk_of. destruct (e_request e) eqn:E; try done.
  pose proof (H _ _ _ eq_refl) as Hn. apply eqb_false in Hn as ->. done.
Qed.
Lemma counts_finish ps trace s operation code error now d e :
  counts_of ps trace (sn_record s) → finish s operation code error now = Ok d → (∀ st, chunk_of st e = "") →
  counts_of ps (trace ++ [e]) (d_record d).
Proof.
  intros Hc Hf He. pose proof Hc as [H1 H2 H3 H4 H5 H6 Hp H7 H8].
  destruct (finish_step _ _ _ _ _ _ H1 Hf) as [[-> _]|(so & se & Hok & _ & _ & _ & _ & _ & El & Em & Et & Eb & Ep & Eo & Ex & Epd)].
  - by apply counts_idle.
  - assert (∀ st, written st (trace ++ [e]) = written st trace) as Hw.
    { intros st. by rewrite written_snoc, He, str_app_nil_r. }
    assert (∀ st, searched st (trace ++ [e]) = searched st trace) as Hs.
    { intros st. rewrite searched_snoc. unfold searched_of. rewrite He. by case_match; rewrite str_app_nil_r. }
    assert (∀ st, ps ≠ [] → previous_bytes (d_record d) st = previous_bytes (sn_record s) st) as Hpb.
    { intros st Hne. specialize (H4 st Hne). specialize (H5 st Hne). rewrite H5. unfold previous_bytes in *. rewrite El, Em.
      destruct (bytes (m_output_matcher_tail (sn_record s)) st); [|done].
      rsimpl. destruct (stream_value (m_output_line_tail (sn_record s)) st); [done|]. by rewrite H4. }
    split; [done|by rewrite Ep|by rewrite Eb, !Hw| | | | | |eauto].
    + intros st. rewrite El, Hs. apply H4.
    + intros st Hne. rewrite Hs, Hpb by done. by apply H5.
    + intros st. rewrite Et, Hs. apply H6.
    + rewrite Et. by apply (pending_kept (counted_before ps (m_output_matches_total (sn_record s))) _ _ Epd).
    + intros st Hne. apply (all_known_same (sn_record s)); [by apply Hpb|by rewrite Eo|by apply H7].
Qed.
Lemma counts_step ps trace r e r' : counts_of ps trace r → step r e r' → counts_of ps (trace ++ [e]) r'.
Proof.
  intros Hc (Hr & _ & actor & d & _ & Hh & _ & <- & He)%step_inv. destruct e as [s q now es]. cbn in *. subst r es.
  destruct (outputs_request q) eqn:Eq.
  - destruct q as [| |operation stream chunk| | | |operation code error| | | | | | | | | | | |operation receipt allowed|]; try done; cbn [handle] in Hh.
    + destruct (decide (m_status (sn_record s) = Running)); [by eapply counts_output|].
      apply output_stream_inv in Hh as [_ [[-> _]|[? _]]]; [|done].
      apply counts_idle; [done|]. intros st. by apply chunk_of_other.
    + apply tick_step in Hh as [Hs Hok]; [|apply Hc].
      apply counts_idle; [by eapply counts_same|]. intros st. by apply chunk_of_other.
    + eapply counts_finish; [done|done|]. intros st. by apply chunk_of_other.
    + assert (∀ st, chunk_of st {| e_snapshot := s; e_request := RSettleCancel operation receipt allowed; e_now := now;
                                   e_effects := d_effects d |} = "") as He by (intros st; by apply chunk_of_other).
      apply settle_cancel_inv in Hh as [->|(_ & d0 & Hd0 & Hs%stopping_output & _)]; [by apply counts_idle|].
      eapply counts_same; [|exact Hs]. destruct Hd0 as [->|[error Hf]]; [by apply counts_idle|by eapply counts_finish].
  - apply handle_frame in Hh; [|done].
    apply counts_idle; [by eapply counts_same|].
    intros st. apply chunk_of_other. cbn. intros * ->. done.
Qed.
Lemma counts_run ps r0 trace r : counts_of ps [] r0 → run r0 trace r → counts_of ps trace r.
Proof.
  intros H0. induction 1 as [| |trace r r' _ IH Hw]; [done|by eapply counts_step|].
  eapply counts_same; [exact IH|by apply side_output].
Qed.

(** A command that was just created. *)
Lemma pattern_step_ok result value result' :
  pattern_step result value = Ok result' → Forall pattern_ok result →
  result' = result ++ [value] ∧ Forall pattern_ok result'.
Proof.
  unfold pattern_step. intros H Hr. inv_ok. split; [done|]. apply Forall_app. split; [done|]. constructor; [|done].
  unfold pattern_ok, is_empty in *. repeat match goal with H : (_ <? _) = false |- _ => apply Nat.ltb_ge in H end.
  split; [|done]. by apply eqb_ne.
Qed.
Lemma patterns_steps_ok values : ∀ result result',
  foldM pattern_step result values = Ok result' → Forall pattern_ok result →
  result' = result ++ values ∧ Forall pattern_ok result'.
Proof.
  induction values as [|v vs IH]; intros result result' H Hr; cbn [foldM] in H.
  - injection H as <-. by rewrite app_nil_r.
  - apply bind_ok in H as (result1 & [-> H1]%pattern_step_ok & H); [|done].
    apply IH in H as [-> H]; [|done]. by rewrite <-app_assoc in *.
Qed.
Lemma patterns_ok values ps :
  patterns values = Ok ps →
  ps = default [] values ∧ Forall pattern_ok ps ∧ length ps ≤ MONITOR_OUTPUT_MAX_PATTERNS.
Proof.
  destruct values as [values|]; cbn [patterns]; intros H; [|injection H as <-; cbn; split_and!; [done|done|lia]].
  inv_ok. match goal with H : (MONITOR_OUTPUT_MAX_PATTERNS <? _) = false |- _ => apply Nat.ltb_ge in H end.
  match goal with H : foldM _ _ _ = Ok _ |- _ => apply patterns_steps_ok in H as [-> Hps]; [|done] end. done.
Qed.
Lemma create_counts `{HU : UuidV5} actor input request_id log_root now r :
  create_record actor input request_id log_root now = Ok r →
  counts_of (default [] (ci_output_patterns input)) [] r.
Proof.
  unfold create_record. intros H. inv_ok.
  match goal with H : patterns _ = Ok _ |- _ => apply patterns_ok in H as (-> & Hps & Hl) end.
  repeat match goal with H : monitor_integer _ _ _ = Ok _ |- _ => apply monitor_integer_ok in H as [-> ?] end.
  match goal with H : monitor_text "" = Ok _ |- _ => injection H as <- end.
  split; msimpl; try done.
  - split; msimpl; try done; try (intros []; eexists; reflexivity).
    split; [done|cbn; lia].
  - intros [] _ previous Hp; injection Hp as <-; constructor.
Qed.
End counts.

(** ** Text *)

(** The stream of a chunk that a transaction takes. *)
Definition arrival (e : entry) : option MonitorStream :=
  match e_request e with
  | ROutput _ stream _ =>
      if m_status (sn_record (e_snapshot e)) == Running then
        if stream == stream_text Stdout then Some Stdout
        else if stream == stream_text Stderr then Some Stderr else None
      else None
  | _ => None
  end.
(** Pieces of text, each of one stream: all of it, and that of one stream. *)
Definition all_text (pieces : list (MonitorStream * string)) : string := join "" pieces.*2.
Definition text_of (st : MonitorStream) (pieces : list (MonitorStream * string)) : string :=
  join "" (filterb (λ p, p.1 == st) pieces).*2.

Lemma all_text_app l k : all_text (l ++ k) = all_text l +:+ all_text k.
Proof. unfold all_text. by rewrite fmap_app, join_nil_app. Qed.
Lemma text_of_app st l k : text_of st (l ++ k) = text_of st l +:+ text_of st k.
Proof. unfold text_of. unfold filterb. by rewrite List.filter_app, fmap_app, join_nil_app. Qed.
Lemma all_text_one st t : all_text [(st, t)] = t.
Proof. unfold all_text. cbn. done. Qed.
Lemma text_of_one st st' t : text_of st [(st', t)] = if decide (st = st') then t else "".
Proof. unfold text_of. by destruct st, st'. Qed.

Section text.
Context `{HE : Encodings, !EncodingsSpec HE} `{HS : Schemas}.

(** The text shown so far, and the bytes kept of an unfinished character: of a stream that is
    still open, they decode with whatever follows; of one that has ended, everything is shown. *)
Record text_inv (trace : list entry) (r : MonitorRecord) (pieces : list (MonitorStream * string))
    (rest : MonitorStream → string) (ended : bool) : Prop := {
  ti_ok : output_ok r;
  ti_valid : utf8_valid (all_text pieces) = true;
  ti_tail : m_tail r = last_chars MONITOR_OUTPUT_TAIL_CODEPOINTS (all_text pieces);
  ti_rest st : bytes (m_output_utf8_pending r) st = Ok (rest st) ∧ String.length (rest st) ≤ 3;
  ti_streams : pieces.*1 = omap arrival trace ++ if ended then [Stdout; Stderr] else [];
  ti_completed : m_status r = Completed → ended = true;
  ti_text st :
    if ended then rest st = "" ∧ text_of st pieces = from_utf8_lossy (written st trace) ∧ terminal (m_status r) = true
    else ∀ more, from_utf8_lossy (written st trace +:+ more) = text_of st pieces +:+ from_utf8_lossy (rest st +:+ more) }.

(** Only the end of the command completes it. *)
Definition ends (q : request) : bool := match q with RFinish _ _ _ | RSettleCancel _ _ _ => true | _ => false end.
Lemma completed_by_finish s actor q now d :
  handle s actor q now = Ok d → m_status (d_record d) = Completed →
  m_status (sn_record s) = Completed ∨ ends q = true.
Proof.
  destruct q; cbn [handle]; intros H Hc; try (right; reflexivity); left.
  - unfold answer_approval in H. inv_ok. destruct accepted; by inv_ok.
  - unfold start in H. by inv_ok.
  - apply output_stream_inv in H as [_ [[-> _]|(Hr & _ & r1 & r2 & es & Ha & Ho & _ & _ & Hd)]]; [done|exfalso].
    apply append_core in Ha. apply output_effect_spec in Ho as [Ho _].
    pose proof (keeps_field m_status _ _ (λ _, eq_refl) Ha) as E1. pose proof (holds_field m_status _ _ (λ _, eq_refl) Ho) as E2.
    destruct Hd as [[_ Hd]|(_ & _ & Hd)]; rewrite Hd in Hc; msimpl in Hc; by rewrite E2, E1, Hr in Hc.
  - apply tick_inv in H as [->|(_ & r1 & es & Hout & Hd)]; [done|].
    assert (m_status r1 = m_status (sn_record s)) as E.
    { destruct Hout as [[_ Ho]|(_ & -> & _)]; [|done]. apply output_effect_spec in Ho as [Ho _].
      exact (holds_field m_status _ _ (λ _, eq_refl) Ho). }
    destruct Hd as [[Hd _]|[(_ & _ & payload & Hd & _)|(_ & _ & Hd & _)]]; rewrite Hd in Hc; msimpl in Hc; by rewrite <-E.
  - unfold probe_result in H. match type of H with (if ?b then _ else _) = _ => destruct b end; by inv_ok.
  - unfold cancel in H. inv_ok. repeat (case_match; inv_ok; try done).
  - unfold reserve_input, begin_input in H. inv_ok. repeat (case_match; inv_ok; try done).
  - unfold settle_input in H. inv_ok. repeat (case_match; inv_ok; try done).
  - unfold recover_active_monitor in H. case_match; inv_ok; [done|].
    apply restart_recovery_inv in H as (_ & _ & [E|(recovery & _ & _ & E)]); by rewrite E in Hc.
  - unfold reconcile_unknown in H. case_match; inv_ok; [done|].
    apply restart_recovery_inv in H as (_ & _ & [E|(recovery & _ & _ & E)]); by rewrite E in Hc.
  - unfold reconcile_orphan in H. match type of H with (if ?b then _ else _) = _ => destruct b end; inv_ok; [done|].
    apply restart_recovery_inv in H as (_ & _ & [E|(recovery & _ & _ & E)]); by rewrite E in Hc.
  - unfold settle_unanswered in H. inv_ok. case_match; inv_ok; [done|].
    match goal with H : restart_recovery _ _ = Ok _ |- _ => apply restart_recovery_inv in H as (_ & _ & Hr) end.
    match goal with H : checked_stored _ _ = Ok _ |- _ => apply checked_stored_inv in H as (Hs & _) end.
    match goal with H : restart_lost _ _ _ = Ok _ |- _ =>
      apply restart_lost_inv in H as [E|(_ & _ & recovery & error & _ & _ & E)] end;
      rewrite E in Hc; [|done]. cbn [d_record decision] in Hc. rewrite Hs in Hc.
    destruct Hr as [Hr|(recovery' & _ & _ & Hr)]; by rewrite Hr in Hc.
  - apply restart_lost_inv in H as [E|(_ & _ & recovery & error & _ & _ & E)]; by rewrite E in Hc.
  - unfold reattach_transaction, reattach in H.
    match type of H with (if ?b then _ else _) = _ => destruct b end; inv_ok; [done|].
    destruct (active_owner s); by inv_ok.
  - unfold quarantine_delivery in H. by inv_ok.
  - unfold bind_rule in H. by inv_ok.
  - apply reserve_cancel_inv in H as (d0 & H & Hs & _). rewrite (stopping_field m_status _ _ (λ _, eq_refl) Hs) in Hc.
    unfold cancel in H. inv_ok. repeat (case_match; inv_ok; try done).
  - apply maintain_inv in H as (_ & [E|(_ & _ & Hs)]); [by rewrite E in Hc|].
    by rewrite (stopping_field m_status _ _ (λ _, eq_refl) Hs) in Hc.
Qed.

Lemma arrival_other e :
  (∀ operation stream chunk, e_request e = ROutput operation stream chunk → m_status (sn_record (e_snapshot e)) ≠ Running) →
  arrival e = None.
Proof.
  intros H. unfold arrival. destruct (e_request e) eqn:E; try done.
  pose proof (H _ _ _ eq_refl) as Hn. apply eqb_false in Hn as ->. done.
Qed.
Lemma arrivals_snoc trace e : omap arrival (trace ++ [e]) = omap arrival trace ++ option_list (arrival e).
Proof. rewrite omap_app. cbn. by destruct (arrival e). Qed.
Lemma text_frame trace r r' pieces rest ended :
  text_inv trace r pieces rest ended → same_output r r' → m_status r' = m_status r → text_inv trace r' pieces rest ended.
Proof.
  intros [H1 H2 H3 H4 H5 H6 H7] Hs Est. pose proof (output_ok_same _ _ H1 Hs). destruct Hs as (E1 & E2 & E3 & _).
  split; rewrite ?E2, ?E3, ?Est; done.
Qed.
Lemma text_same trace r e r' pieces rest ended :
  text_inv trace r pieces rest ended → same_output r r' → output_ok r' → (∀ st, chunk_of st e = "") →
  arrival e = None → (m_status r' = Completed → m_status r = Completed) →
  (terminal (m_status r) = true → terminal (m_status r') = true) →
  text_inv (trace ++ [e]) r' pieces rest ended.
Proof.
  intros [H1 H2 H3 H4 H5 H6 H7] (E1 & E2 & E3 & _) Hok He Ha Hcomp Hterm.
  assert (∀ st, written st (trace ++ [e]) = written st trace) as Hw.
  { intros st. by rewrite written_snoc, He, str_app_nil_r. }
  split; [done|done|by rewrite E2|by rewrite E3| |by auto|].
  - by rewrite arrivals_snoc, Ha, app_nil_r.
  - intros st. rewrite Hw. specialize (H7 st). destruct ended; [|done]. naive_solver.
Qed.

Lemma text_output trace s operation stream chunk now d pieces rest ended :
  let e := {| e_snapshot := s; e_request := ROutput operation stream chunk; e_now := now; e_effects := d_effects d |} in
  text_inv trace (sn_record s) pieces rest ended → output_stream s operation stream chunk now = Ok d →
  m_status (sn_record s) = Running →
  ∃ pieces' rest', text_inv (trace ++ [e]) (d_record d) pieces' rest' ended.
Proof.
  intros e [H1 H2 H3 H4 H5 H6 H7] Ho Hrun.
  assert (ended = false) as ->.
  { destruct ended; [|done]. destruct (H7 Stdout) as (_ & _ & Ht). by rewrite Hrun in Ht. }
  destruct (output_step _ _ _ _ _ _ H1 Ho Hrun) as (st & r1 & -> & _ & (saved & text & kept & Hs & Hd & Hkept & Ht) & _ & _ & Hsame & Hok & _).
  apply (output_ok_same _ _ Hok) in Hsame as Hok'. destruct Hsame as (_ & E2 & E3 & _). msimpl in E2. msimpl in E3.
  destruct (decode_bytes_more (saved +:+ chunk)) as (t & kept' & Hd' & Hv & Hl & Hmore).
  rewrite Hd in Hd'. injection Hd' as <- <-.
  destruct (H4 st) as [Hsv _]. rewrite Hs in Hsv. injection Hsv as ->.
  exists (pieces ++ [(st, text)]), (λ st', if decide (st' = st) then kept else rest st'). split.
  - done.
  - rewrite all_text_app, all_text_one. by apply utf8_valid_app.
  - rewrite E2, Ht, H3, all_text_app, all_text_one, last_chars_app by done. done.
  - intros st'. rewrite E3, Hkept. case_decide; [done|]. apply H4.
  - rewrite arrivals_snoc, fmap_app, H5, !app_nil_r. f_equal. subst e. unfold arrival. cbn. rewrite Hrun. by destruct st.
  - intros Hc. exfalso.
    destruct (completed_by_finish s JNull (ROutput operation (stream_text st) chunk) now d Ho Hc) as [E|E];
      [by rewrite E in Hrun|done].
  - intros st' more. rewrite written_snoc, text_of_app, text_of_one. subst e. rewrite chunk_of_output by done.
    case_decide; [subst st'|by rewrite !str_app_nil_r, (H7 st')].
    rewrite (str_app_assoc (written st trace)), (H7 st), <-(str_app_assoc (rest st)), Hmore, str_app_assoc. done.
Qed.
Lemma text_finish trace s operation code error now d e pieces rest ended :
  text_inv trace (sn_record s) pieces rest ended → finish s operation code error now = Ok d →
  (∀ st, chunk_of st e = "") → arrival e = None →
  ∃ pieces' rest' ended', text_inv (trace ++ [e]) (d_record d) pieces' rest' ended'.
Proof.
  intros Hi Hf He Ha. pose proof Hi as [H1 H2 H3 H4 H5 H6 H7].
  destruct (finish_step _ _ _ _ _ _ H1 Hf) as
    [[Hr Ht]|(so & se & Hok & Hset & Hso & Hse & Hu & Htail & _)].
  { exists pieces, rest, ended. apply (text_same trace (sn_record s)); rewrite ?Hr; apply same_output_refl || done. }
  assert (terminal (m_status (d_record d)) = true) as Hterm by (by destruct Hset as [-> | [-> | ->]]).
  assert (∀ st, written st (trace ++ [e]) = written st trace) as Hw.
  { intros st. by rewrite written_snoc, He, str_app_nil_r. }
  destruct (H4 Stdout) as [Ho _], (H4 Stderr) as [Hr _]. rewrite Hso in Ho. rewrite Hse in Hr.
  injection Ho as ->. injection Hr as ->.
  destruct ended.
  - exists pieces, (λ _, ""), true. destruct (H7 Stdout) as (Eo & _ & _), (H7 Stderr) as (Ee & _ & _).
    rewrite Eo, Ee in Htail. split; try done.
    + rewrite Htail, H3. cbn [from_utf8_lossy]. rewrite !str_app_nil_r, <-H3. apply last_chars_id; apply H1.
    + intros st. rewrite Hu. cbn. split; [done|lia].
    + by rewrite arrivals_snoc, Ha, app_nil_r.
    + intros st. rewrite Hw. destruct (H7 st) as (_ & ? & _). done.
  - exists (pieces ++ [(Stdout, from_utf8_lossy (rest Stdout)); (Stderr, from_utf8_lossy (rest Stderr))]), (λ _, ""), true.
    change [(Stdout, ?x); (Stderr, ?y)] with ([(Stdout, x)] ++ [(Stderr, y)]).
    pose proof (from_utf8_lossy_valid (rest Stdout)). pose proof (from_utf8_lossy_valid (rest Stderr)).
    split; try done.
    + rewrite !all_text_app, !all_text_one. by repeat apply utf8_valid_app.
    + rewrite Htail, H3, !all_text_app, !all_text_one, last_chars_app; [done|done|by apply utf8_valid_app].
    + intros st. rewrite Hu. cbn. split; [done|lia].
    + by rewrite arrivals_snoc, Ha, !fmap_app, H5, !app_nil_r.
    + intros st. rewrite Hw. split; [done|]. split; [|done].
      rewrite !text_of_app, !text_of_one. specialize (H7 st ""). rewrite !str_app_nil_r in H7. rewrite H7.
      destruct st; cbn; by rewrite ?str_app_nil_r.
Qed.

Lemma terminal_kept r e r' : step r e r' → terminal (m_status r) = true → terminal (m_status r') = true.
Proof.
  intros Hs Ht. destruct (terminal_step _ _ _ Hs Ht) as [->|[[_ ->]|[(_ & _ & Hset & _)|(? & ? & _ & ->)]]]; [done|done| |done].
  by destruct Hset as [-> | [-> | ->]].
Qed.
Lemma text_step trace r e r' pieces rest ended :
  text_inv trace r pieces rest ended → step r e r' →
  ∃ pieces' rest' ended', text_inv (trace ++ [e]) r' pieces' rest' ended'.
Proof.
  intros Hi Hstep. pose proof (terminal_kept _ _ _ Hstep) as Hterm.
  apply step_inv in Hstep as (Hr & _ & actor & d & _ & Hh & _ & <- & He).
  destruct e as [s q now es]. cbn [e_snapshot e_request e_now e_effects] in *. subst r es.
  pose proof (completed_by_finish _ _ _ _ _ Hh) as Hcomp. pose proof (ti_ok _ _ _ _ _ Hi) as Hok.
  assert (arrival_none : (∀ operation stream chunk, q ≠ ROutput operation stream chunk) →
    (∀ st, chunk_of st {| e_snapshot := s; e_request := q; e_now := now; e_effects := d_effects d |} = "") ∧
    arrival {| e_snapshot := s; e_request := q; e_now := now; e_effects := d_effects d |} = None).
  { intros Hno. split; [intros st; apply chunk_of_other|apply arrival_other]; cbn; intros * E; by destruct (Hno _ _ _ E). }
  destruct (ends q) eqn:Eends.
  { destruct arrival_none as [He Ha]; [by intros * ->|].
    destruct q as [| | | | | |operation code error| | | | | | | | | | | |operation receipt allowed|]; try done; cbn [handle] in Hh.
    - by eapply text_finish.
    - apply settle_cancel_inv in Hh as [->|(_ & d0 & Hd0 & Hs & _)].
      { exists pieces, rest, ended. apply (text_same trace (sn_record s)); try done. apply same_output_refl. }
      assert (∃ pieces' rest' ended', text_inv (trace ++ [{| e_snapshot := s; e_request := RSettleCancel operation receipt allowed;
        e_now := now; e_effects := d_effects d |}]) (d_record d0) pieces' rest' ended') as (pieces' & rest' & ended' & Hi').
      { destruct Hd0 as [->|[error Hf]]; [|by eapply text_finish].
        exists pieces, rest, ended. apply (text_same trace (sn_record s)); try done. apply same_output_refl. }
      exists pieces', rest', ended'. eapply text_frame; [exact Hi'|by apply stopping_output|].
      exact (stopping_field m_status _ _ (λ _, eq_refl) Hs). }
  assert (m_status (d_record d) = Completed → m_status (sn_record s) = Completed) as Hc.
  { intros [?|?]%Hcomp; [done|congruence]. }
  destruct (outputs_request q) eqn:Eq.
  - destruct q as [| |operation stream chunk| | | | | | | | | | | | | | | | |]; try done; cbn [handle] in Hh.
    + destruct (decide (m_status (sn_record s) = Running)).
      { destruct (text_output trace s operation stream chunk now d pieces rest ended) as (p' & r' & H); eauto. }
      apply output_stream_inv in Hh as [_ [[-> _]|[? _]]]; [|done].
      exists pieces, rest, ended. apply (text_same trace (sn_record s)); try done;
        [apply same_output_refl|intros st; by apply chunk_of_other|by apply arrival_other].
    + apply tick_step in Hh as [Hs Hok']; [|done]. exists pieces, rest, ended.
      apply (text_same trace (sn_record s)); try done; by intros; apply chunk_of_other || apply arrival_other.
  - apply handle_frame in Hh; [|done]. exists pieces, rest, ended.
    destruct arrival_none as [He Ha]; [by intros * ->|].
    apply (text_same trace (sn_record s)); try done. by eapply output_ok_same.
Qed.
Lemma text_run r0 trace r :
  run r0 trace r → (∃ pieces rest ended, text_inv [] r0 pieces rest ended) →
  ∃ pieces rest ended, text_inv trace r pieces rest ended.
Proof.
  induction 1 as [|trace r e r' _ IH Hstep|trace r r' _ IH Hw]; [done|..]; intros (pieces & rest & ended & Hi)%IH;
    [by eapply text_step|].
  exists pieces, rest, ended. eapply text_frame; [exact Hi|by apply side_output|by rewrite Hw].
Qed.
Lemma create_text `{HU : UuidV5} actor input request_id log_root now r :
  create_record actor input request_id log_root now = Ok r → text_inv [] r [] (λ _, "") false.
Proof.
  intros H. pose proof (co_ok _ _ _ (create_counts _ _ _ _ _ _ H)) as Hok.
  unfold create_record in H. inv_ok. match goal with H : monitor_text "" = Ok _ |- _ => injection H as <- end.
  split; msimpl; try done.
  - intros []; cbn; split; (done || lia).
  - by case_match.
Qed.
End text.

(** ** Events *)

(** A match that an event reports: it is of a pattern of the command, which occurs at least that often
    in what has been searched of the stream, and its excerpt shows it, if the pattern is UTF-8 (as
    every [String] is). *)
Definition match_true (ps : list string) (trace : list entry) (m : OutputMatch) : Prop :=
  ∃ st p, p ∈ ps ∧ om_stream m = stream_text st ∧ om_pattern m = p ∧
    (0 < om_count m <= Z.of_nat (occurrences p (searched st trace)))%Z ∧
    ∀ x, om_excerpt m = Some x → utf8_valid p = true → contains_str p x = true.
Definition event_true (ps : list string) (trace : list entry) (ev : OutputEvent) : Prop :=
  Forall (match_true ps trace) (ov_matches ev).
Definition events_true (ps : list string) (trace : list entry) (es : list Effect) : Prop :=
  ∀ id ev, EOutputEvent id ev ∈ es → event_true ps trace ev.

Lemma parse_index i : i < MONITOR_OUTPUT_MAX_PATTERNS → parse_usize (dec (Z.of_nat i)) = Some i.
Proof. intros Hi. do 16 (destruct i as [|i]; [reflexivity|]). unfold MONITOR_OUTPUT_MAX_PATTERNS in Hi. lia. Qed.
Lemma count_entry_key r ps st i p count m :
  m_output_patterns r = Some ps → ps !! i = Some p → length ps ≤ MONITOR_OUTPUT_MAX_PATTERNS →
  count_entry r (match_key (stream_text st) i, count) = Some m →
  (0 < count)%Z ∧ m = {| om_stream := stream_text st; om_pattern := p; om_count := count;
                         om_excerpt := None; om_log_offset := None |}.
Proof.
  intros Hps Hi Hl. unfold count_entry.
  assert (split_once ":" (match_key (stream_text st) i) = Some (stream_text st, dec (Z.of_nat i))) as ->.
  { apply split_once_some. split; [done|by destruct st]. }
  rewrite Hps. cbn [mbind option_bind]. rewrite parse_index by (apply lookup_lt_Some in Hi; lia). cbn [mbind option_bind].
  rewrite Hi. cbn [mbind option_bind]. destruct (Z.ltb_spec 0 count); [|done]. by intros [= <-].
Qed.
Lemma count_entry_pos r key count m : count_entry r (key, count) = Some m → (0 < count)%Z.
Proof.
  unfold count_entry. intros ([stream index] & _ & H)%bind_Some. apply bind_Some in H as (ps & _ & H).
  apply bind_Some in H as (i & _ & H). apply bind_Some in H as (p & _ & H).
  by destruct (Z.ltb_spec 0 count).
Qed.
(** The matches of an event: those counted, with their excerpts. *)
Lemma pending_matches r now final r' eid ev :
  pending r now final = (r', Some (eid, ev)) →
  ∀ m, m ∈ ov_matches ev → ∃ m0, m0 ∈ counts r (m_output_matches_pending r) ∧
    (m = m0 ∨ add_excerpt r (excerpts_of r) m0 = Some m).
Proof.
  unfold pending. intros H m Hm. case_match; [done|]. case_match eqn:Ematches; [|done].
  destruct (spend _ _ _ _) as [[[budget suppress] notice] newly_paused].
  case_match; [done|]. case_match; [done|]. injection H as _ _ <-. cbn [ov_matches] in Hm.
  unfold excerpts_of. destruct (m_output_match_excerpts r) as [excerpts|]; cbn [from_option id] in *.
  - apply mapM_Some in Ematches. destruct (list_elem_of_lookup_1 _ _ Hm) as [k Hk].
    destruct (Forall2_lookup_r _ _ _ _ _ Ematches Hk) as (m0 & Hm0 & Ha).
    exists m0. split; [by eapply list_elem_of_lookup_2|by right].
  - injection Ematches as <-. exists m. split; [done|by left].
Qed.

(** What a record knows that an event can report. *)
Record reportable (ps : list string) (trace : list entry) (r : MonitorRecord) : Prop := {
  rp_patterns : m_output_patterns r = Some ps;
  rp_length : length ps ≤ MONITOR_OUTPUT_MAX_PATTERNS;
  rp_total st i p : ps !! i = Some p →
    (count_of (m_output_matches_total r) (match_key (stream_text st) i) <= Z.of_nat (occurrences p (searched st trace)))%Z;
  rp_pending key : (0 < count_of (m_output_matches_pending r) key)%Z →
    counted_before ps (m_output_matches_total r) key (count_of (m_output_matches_pending r) key);
  rp_excerpts key e : excerpts_of r !! key = Some e →
    ∃ st i p, ps !! i = Some p ∧ key = match_key (stream_text st) i ∧
      (utf8_valid p = true → contains_str p (oe_excerpt e) = true) }.
Lemma counts_reportable `{HE : Encodings} ps trace r : counts_of ps trace r → reportable ps trace r.
Proof.
  intros [H1 H2 _ _ _ H6 H7 _ H8]. split; try done.
  - pose proof (ok_patterns_length _ H1) as Hl. by rewrite H2 in Hl.
  - intros st i p Hi. rewrite (H6 st i p Hi). unfold capped. lia.
Qed.
Lemma reportable_same ps trace r r' :
  reportable ps trace r → m_output_patterns r' = m_output_patterns r →
  m_output_matches_total r' = m_output_matches_total r → m_output_matches_pending r' = m_output_matches_pending r →
  m_output_match_excerpts r' = m_output_match_excerpts r → reportable ps trace r'.
Proof.
  intros [H1 H2 H3 H4 H5] E1 E2 E3 E4. split; unfold excerpts_of; rewrite ?E1, ?E2, ?E3, ?E4; try done.
Qed.
Lemma add_excerpt_inv r ps excerpts m0 m :
  m_output_patterns r = Some ps → add_excerpt r excerpts m0 = Some m →
  om_stream m = om_stream m0 ∧ om_pattern m = om_pattern m0 ∧ om_count m = om_count m0 ∧
  ∀ x, om_excerpt m = Some x → om_excerpt m0 = Some x ∨
    ∃ i e, ps !! i = Some (om_pattern m0) ∧ excerpts !! match_key (om_stream m0) i = Some e ∧ x = oe_excerpt e.
Proof.
  intros Hps. unfold add_excerpt. rewrite Hps. cbn [mbind option_bind].
  destruct (position _ ps) as [i|] eqn:Ei; [|done]. cbn [mbind option_bind].
  apply position_some in Ei as (p & Hp & ->%eqb_eq). intros [= <-].
  destruct (excerpts !! match_key (om_stream m0) i) as [e|] eqn:Ee; cbn; split_and!; try done; [|by auto].
  intros x [= <-]. right. eauto.
Qed.
Lemma pending_true ps trace r now final r' eid ev :
  reportable ps trace r → pending r now final = (r', Some (eid, ev)) → event_true ps trace ev.
Proof.
  intros [H1 H2 H3 H4 H5] Hp. apply Forall_forall. intros m Hm.
  destruct (pending_matches _ _ _ _ _ _ Hp m Hm) as (m0 & Hm0 & Hsame).
  unfold counts in Hm0. apply list_elem_of_omap in Hm0 as ([key count] & Hkey & Hentry).
  destruct (m_output_matches_pending r) as [v|] eqn:Ev; [|by apply not_elem_of_nil in Hkey].
  apply elem_of_entries in Hkey. assert (count_of (Some v) key = count) as Hcount.
  { unfold count_of. cbn [from_option id]. by rewrite Hkey. }
  pose proof (count_entry_pos _ _ _ _ Hentry) as Hpos.
  destruct (H4 key) as (st & i & p & Hi & -> & Hle); [by rewrite Hcount|]. rewrite Hcount in Hle.
  destruct (count_entry_key r ps st i p count m0 H1 Hi H2 Hentry) as [_ ->].
  specialize (H3 st i p Hi).
  exists st, p. split; [by eapply list_elem_of_lookup_2|].
  destruct Hsame as [->|Ha]; [cbn; split_and!; try done; lia|].
  destruct (add_excerpt_inv _ _ _ _ _ H1 Ha) as (E1 & E2 & E3 & Hx). rewrite E1, E2, E3. cbn.
  split_and!; try done; [lia|]. intros x Hmx Hv. destruct (Hx x Hmx) as [?|(j & e & Hj & He & ->)]; [done|].
  cbn in Hj, He. destruct (H5 _ e He) as (st' & i' & p' & Hi' & [-> ->]%match_key_inj & Hc). rewrite Hj in Hi'. injection Hi' as <-.
  by apply Hc.
Qed.
Lemma output_effect_true ps trace s r now final r' es :
  reportable ps trace r → output_effect s r now final = (r', es) → events_true ps trace es.
Proof.
  intros Hr. unfold output_effect. case_match; [|intros [= _ <-] ? ? []%not_elem_of_nil].
  destruct (pending r now final) as [r1 [[eid ev]|]] eqn:E; intros [= _ <-] id' ev' Hin; [|by apply not_elem_of_nil in Hin].
  apply list_elem_of_singleton in Hin as [= -> ->]. by eapply pending_true.
Qed.

Definition output_free (es : list Effect) : Prop :=
  Forall (λ e, match e with EOutputEvent _ _ => False | _ => True end) es.
Lemma events_true_app ps trace es es' : events_true ps trace es → output_free es' → events_true ps trace (es ++ es').
Proof.
  intros H1 H2 id ev [Hin|Hin]%elem_of_app; [by eapply H1|].
  by pose proof (proj1 (Forall_forall _ _) H2 _ Hin).
Qed.
Lemma output_free_true ps trace es : output_free es → events_true ps trace es.
Proof. intros H. apply (events_true_app ps trace [] es); [|done]. by intros ? ? ?%not_elem_of_nil. Qed.
Lemma finished_effect_free r : output_free [finished_effect r].
Proof. unfold finished_effect. case_match; by repeat constructor. Qed.

Section events.
Context `{HE : Encodings, !EncodingsSpec HE} `{HS : Schemas}.

Ltac free := cbn; first [by repeat constructor | unfold finished_effect; destruct (has_rule _); by repeat constructor].
Lemma handle_free s actor q now d :
  handle s actor q now = Ok d → outputs_request q = false → output_free (d_effects d).
Proof.
  destruct q; cbn [handle outputs_request]; intros H Hq; try discriminate Hq.
  - unfold answer_approval in H. inv_ok. destruct accepted; inv_ok; free.
  - unfold start in H. inv_ok. free.
  - unfold probe_result in H. match type of H with (if ?b then _ else _) = _ => destruct b end; inv_ok; free.
  - unfold cancel in H. inv_ok. repeat (case_match; inv_ok; try free).
  - unfold reserve_input, begin_input in H. inv_ok. repeat (case_match; inv_ok; try free).
  - unfold settle_input in H. inv_ok. repeat (case_match; inv_ok; try free).
  - unfold recover_active_monitor in H. case_match; inv_ok; [free|].
    apply restart_recovery_inv in H as (_ & -> & _). free.
  - unfold reconcile_unknown in H. case_match; inv_ok; [free|].
    apply restart_recovery_inv in H as (_ & -> & _). free.
  - unfold reconcile_orphan in H. match type of H with (if ?b then _ else _) = _ => destruct b end; inv_ok; [free|].
    apply restart_recovery_inv in H as (_ & -> & _). free.
  - unfold settle_unanswered in H. inv_ok. case_match; inv_ok; [free|].
    match goal with H : restart_lost _ _ _ = Ok _ |- _ =>
      apply restart_lost_inv in H as [->|(_ & [-> | ->] & _)] end; free.
  - apply restart_lost_inv in H as [->|(_ & [-> | ->] & _)]; free.
  - unfold reattach_transaction, reattach in H.
    match type of H with (if ?b then _ else _) = _ => destruct b end; inv_ok; [free|].
    destruct (active_owner s); inv_ok; free.
  - unfold quarantine_delivery in H. inv_ok. free.
  - unfold bind_rule in H. inv_ok. free.
  - apply reserve_cancel_inv in H as (d0 & H & _ & He).
    assert (output_free (d_effects d0)) as H0 by (unfold cancel in H; inv_ok; repeat (case_match; inv_ok; try free)).
    destruct He as [-> | ->]; [done|]. apply Forall_app. split; [done|free].
  - apply maintain_inv in H as (-> & _). free.
Qed.
Lemma flush_reportable ps trace f r1 (f0 := f <| m_reattach_recovery := None |>) :
  output_ok f → reportable ps trace f → flush f0 = Ok r1 → reportable ps trace r1.
Proof.
  intros Hf Hr Hfl. assert (output_ok f0) as Hf0 by (eapply output_ok_same; [exact Hf|same_fields]).
  destruct (flush_ok f0 Hf0) as (r1' & so & se & Hfl' & _ & _ & _ & _ & _ & _ & _ & Htot & _ & _ & Hx & Hp).
  rewrite Hfl in Hfl'. injection Hfl' as <-. apply flush_core in Hfl.
  pose proof (keeps_field m_output_patterns _ _ (λ _, eq_refl) Hfl) as Hps. by apply (reportable_same ps trace f).
Qed.
Lemma finish_events ps trace s operation code error now d :
  output_ok (sn_record s) → reportable ps trace (sn_record s) → finish s operation code error now = Ok d →
  events_true ps trace (d_effects d).
Proof.
  intros Hok Hr [_ [(_ & -> & _)|(_ & r1 & r2 & es & Hfl & Ho & _ & _ & ->)]]%finish_inv;
    [apply output_free_true, finished_effect_free|].
  apply events_true_app; [|apply finished_effect_free]. eapply output_effect_true; [|exact Ho].
  by eapply flush_reportable.
Qed.
Lemma events_step ps trace r e r' :
  counts_of ps trace r → step r e r' → events_true ps (trace ++ [e]) (e_effects e).
Proof.
  intros Hc (Hr & _ & actor & d & _ & Hh & _ & <- & He)%step_inv. destruct e as [s q now es]. cbn in *. subst r es.
  set (e := {| e_snapshot := s; e_request := q; e_now := now; e_effects := d_effects d |}).
  destruct (outputs_request q) eqn:Eq; [|by eapply output_free_true, handle_free].
  destruct q as [| |operation stream chunk| | | |operation code error| | | | | | | | | | | |operation receipt allowed|]; try done; cbn [handle] in Hh.
  - pose proof Hh as [_ [[-> _]|(Hrun & _ & r1 & r2 & es & Ha & Ho & _ & -> & _)]]%output_stream_inv;
      [by apply output_free_true; constructor|].
    destruct (output_step _ _ _ _ _ _ (co_ok _ _ _ Hc) Hh Hrun) as (st & r1' & -> & Ha' & _ & Hcount & Hx & _ & Hok & Hps).
    rewrite Ha in Ha'. injection Ha' as <-. eapply output_effect_true; [|exact Ho].
    eapply reportable_same; [eapply counts_reportable; by eapply counts_append|done..].
  - assert (reportable ps (trace ++ [e]) (sn_record s)) as Hr.
    { apply counts_reportable, counts_idle; [done|]. intros st. by apply chunk_of_other. }
    apply tick_inv in Hh as [->|(_ & r1 & es & Hout & Hd)]; [by apply output_free_true; constructor|].
    assert (events_true ps (trace ++ [e]) es) as Hes.
    { destruct Hout as [[_ Ho]|(_ & _ & ->)]; [by eapply output_effect_true|by apply output_free_true; constructor]. }
    destruct Hd as [[_ ->]|[(_ & _ & payload & _ & ->)|(_ & _ & _ & ->)]]; [done|..]; (apply events_true_app; [done|free]).
  - assert (reportable ps (trace ++ [e]) (sn_record s)) as Hr.
    { apply counts_reportable, counts_idle; [done|]. intros st. by apply chunk_of_other. }
    by eapply finish_events; [apply Hc|exact Hr|].
  - assert (reportable ps (trace ++ [e]) (sn_record s)) as Hr.
    { apply counts_reportable, counts_idle; [done|]. intros st. by apply chunk_of_other. }
    apply settle_cancel_inv in Hh as [->|(_ & d0 & Hd0 & _ & ->)]; [by apply output_free_true; constructor|].
    destruct Hd0 as [->|[error Hf]]; [by apply output_free_true; constructor|].
    by eapply finish_events; [apply Hc|exact Hr|].
Qed.
Lemma events_run ps r0 trace r before e after :
  counts_of ps [] r0 → run r0 trace r → trace = before ++ e :: after → events_true ps (before ++ [e]) (e_effects e).
Proof.
  intros H0 Hr. revert before after. induction Hr as [|trace r x r' Hrun IH Hstep|trace r r' Hrun IH Hw]; intros before after E.
  - by destruct before.
  - induction after as [|y after _] using rev_ind.
    + apply app_inj_tail in E as [-> ->]. by eapply events_step; [eapply counts_run|].
    + rewrite app_comm_cons, app_assoc in E. apply app_inj_tail in E as [E _]. by eapply IH.
  - by eapply IH.
Qed.
End events.

(** ** What transactions leave alone *)

Definition is_output_request (q : request) : bool := match q with ROutput _ _ _ => true | _ => false end.
Definition is_start_request (q : request) : bool := match q with RStart _ _ => true | _ => false end.
Definition queue_state (r : MonitorRecord) := (m_stream_queue r, m_stream_ack_cursor r).
(** What the command was created for. *)
Definition identity (r : MonitorRecord) :=
  (m_id r, m_agent r, m_command r, m_timeout_ms r, m_interactive r, m_wake_on r, m_success_exit_codes r,
   m_stall_timeout_seconds r, m_liveness_command r, m_output_patterns r, m_restart_after r).
Definition standing (r : MonitorRecord) := (queue_state r, identity r, m_operation r).
Lemma standing_fields r r' :
  standing r' = standing r → queue_state r' = queue_state r ∧ identity r' = identity r ∧ m_operation r' = m_operation r.
Proof.
  intros H. split; [exact (f_equal (λ x, x.1.1) H)|]. split; [exact (f_equal (λ x, x.1.2) H)|exact (f_equal snd H)].
Qed.

Section standing.
Context `{HE : Encodings} `{HS : Schemas}.

Lemma finish_standing s operation code error now d :
  finish s operation code error now = Ok d →
  standing (d_record d) = standing (sn_record s) ∧ m_bytes (d_record d) = m_bytes (sn_record s).
Proof.
  intros [_ [(-> & _)|(_ & r1 & r2 & es & Hf & Ho & _ & -> & _)]]%finish_inv; [done|].
  apply flush_core in Hf. apply output_effect_spec in Ho as [Ho _].
  pose proof (keeps_field standing _ _ (λ _, eq_refl) Hf) as E1. pose proof (holds_field standing _ _ (λ _, eq_refl) Ho) as E2.
  pose proof (keeps_field m_bytes _ _ (λ _, eq_refl) Hf) as E3. pose proof (holds_field m_bytes _ _ (λ _, eq_refl) Ho) as E4.
  rewrite <-(E3 : m_bytes r1 = m_bytes (sn_record s)), <-E4, <-(E1 : standing r1 = standing (sn_record s)), <-E2.
  unfold finished_record. by repeat case_match.
Qed.
Lemma tick_standing s now d :
  tick s now = Ok d → standing (d_record d) = standing (sn_record s) ∧ m_bytes (d_record d) = m_bytes (sn_record s).
Proof.
  intros [->|(_ & r1 & es & Hout & Hd)]%tick_inv; [done|].
  assert (standing r1 = standing (sn_record s) ∧ m_bytes r1 = m_bytes (sn_record s)) as [E1 E2].
  { destruct Hout as [[_ Ho]|(_ & -> & _)]; [|done]. apply output_effect_spec in Ho as [Ho _].
    split; by apply (λ Hf, holds_field _ _ _ Hf Ho). }
  destruct Hd as [[-> _]|[(_ & _ & payload & -> & _)|(_ & _ & -> & _)]]; by rewrite <-E1, <-E2.
Qed.
Lemma recovery_standing s now d : restart_recovery s now = Ok d → standing (d_record d) = standing (sn_record s).
Proof. by intros (_ & _ & [->|(recovery & _ & _ & ->)])%restart_recovery_inv. Qed.
Lemma lost_standing s reason now d : restart_lost s reason now = Ok d → standing (d_record d) = standing (sn_record s).
Proof. by intros [->|(_ & _ & recovery & error & _ & _ & ->)]%restart_lost_inv. Qed.
Lemma cancel_standing s owner now d : cancel s owner now = Ok d → standing (d_record d) = standing (sn_record s).
Proof. unfold cancel. intros H. inv_ok. repeat (case_match; inv_ok; try done). Qed.
Lemma handle_standing s actor q now d :
  handle s actor q now = Ok d → is_output_request q = false → is_start_request q = false →
  standing (d_record d) = standing (sn_record s).
Proof.
  destruct q; cbn [handle is_output_request is_start_request]; intros H Hq Hst; try discriminate Hq; try discriminate Hst.
  - unfold answer_approval in H. inv_ok. by destruct accepted; inv_ok.
  - by apply tick_standing in H as [-> _].
  - unfold probe_result in H. match type of H with (if ?b then _ else _) = _ => destruct b end; by inv_ok.
  - by eapply cancel_standing.
  - by apply finish_standing in H as [-> _].
  - unfold reserve_input, begin_input in H. inv_ok. repeat (case_match; inv_ok; try done).
  - unfold settle_input in H. inv_ok. repeat (case_match; inv_ok; try done).
  - unfold recover_active_monitor in H. case_match; inv_ok; [done|by eapply recovery_standing].
  - unfold reconcile_unknown in H. case_match; inv_ok; [done|by eapply recovery_standing].
  - unfold reconcile_orphan in H. match type of H with (if ?b then _ else _) = _ => destruct b end; inv_ok;
      [done|by eapply recovery_standing].
  - unfold settle_unanswered in H. inv_ok. case_match; inv_ok; [done|].
    match goal with H : restart_recovery _ _ = Ok _ |- _ => apply recovery_standing in H as Hr end.
    match goal with H : checked_stored _ _ = Ok _ |- _ => apply checked_stored_inv in H as (Hs & _) end.
    match goal with H : restart_lost _ _ _ = Ok _ |- _ => apply lost_standing in H as Hl end. by rewrite Hl, Hs.
  - by eapply lost_standing.
  - unfold reattach_transaction, reattach in H.
    match type of H with (if ?b then _ else _) = _ => destruct b end; inv_ok; [done|].
    by destruct (active_owner s); inv_ok.
  - unfold quarantine_delivery in H. by inv_ok.
  - unfold bind_rule in H. by inv_ok.
  - apply reserve_cancel_inv in H as (d0 & H%cancel_standing & Hs & _).
    by rewrite (stopping_field standing _ _ (λ _, eq_refl) Hs).
  - apply settle_cancel_inv in H as [->|(_ & d0 & Hd0 & Hs & _)]; [done|].
    rewrite (stopping_field standing _ _ (λ _, eq_refl) Hs). destruct Hd0 as [->|[error H]]; [done|].
    by apply finish_standing in H as [-> _].
  - apply maintain_inv in H as (_ & [->|(_ & _ & Hs)]); [done|].
    by rewrite (stopping_field standing _ _ (λ _, eq_refl) Hs).
Qed.
Lemma start_standing s operation params now d :
  start s operation params now = Ok d →
  queue_state (d_record d) = queue_state (sn_record s) ∧ identity (d_record d) = identity (sn_record s) ∧
  m_status (sn_record s) = Starting.
Proof. unfold start. intros H. by inv_ok. Qed.
Lemma handle_kept s actor q now d :
  handle s actor q now = Ok d → is_output_request q = false →
  queue_state (d_record d) = queue_state (sn_record s) ∧ identity (d_record d) = identity (sn_record s).
Proof.
  intros H Hq. destruct (is_start_request q) eqn:Es.
  - destruct q; try done. by apply start_standing in H as (-> & -> & _).
  - apply handle_standing in H; [|done..]. by apply standing_fields in H as (-> & -> & _).
Qed.
Lemma handle_bytes s actor q now d :
  handle s actor q now = Ok d → is_output_request q = false → m_bytes (d_record d) = m_bytes (sn_record s).
Proof.
  intros H Hq. destruct (outputs_request q) eqn:Eo; [|by apply handle_frame in H as [-> _]].
  destruct q; try done; cbn [handle] in H.
  - by apply tick_standing in H as [_ ->].
  - by apply finish_standing in H as [_ ->].
  - apply settle_cancel_inv in H as [->|(_ & d0 & Hd0 & Hs & _)]; [done|].
    rewrite (stopping_field m_bytes _ _ (λ _, eq_refl) Hs). destruct Hd0 as [->|[error H]]; [done|].
    by apply finish_standing in H as [_ ->].
Qed.
(** A chunk: the running command's byte count grows by its length, on one stream. *)
Lemma output_standing s operation stream chunk now d (f := sn_record s) :
  output_stream s operation stream chunk now = Ok d → m_status f = Running →
  (∃ st, stream = stream_text st) ∧ standing (d_record d) = standing f ∧
  m_bytes (d_record d) = (m_bytes f + Z.of_nat (String.length chunk))%Z ∧ (m_bytes (d_record d) <= max_safe_integer)%Z.
Proof.
  intros [_ [[_ ?]|(_ & _ & r1 & r2 & es & Ha & Ho & Hb & _ & Hd)]]%output_stream_inv Hrun; [done|]. split.
  { unfold append in Ha. apply bind_ok in Ha as (st & Hst & _). exists st. by apply stream_kind_inv. }
  apply append_core in Ha. apply output_effect_spec in Ho as [Ho _].
  pose proof (keeps_field standing _ _ (λ _, eq_refl) Ha) as E1. pose proof (holds_field standing _ _ (λ _, eq_refl) Ho) as E2.
  fold f in E1. rewrite <-E1, <-E2. destruct Hd as [[_ ->]|(_ & _ & ->)]; split_and!; try done; apply Hb.
Qed.
End standing.
