(* ===== verification/Monitor.v ===== *)
(** What the owner of a monitored command can rely on, over any sequence of transactions from the
    creation of its record on: the command is run once, its notices are sent once and in order, its
    output is taken, counted and shown as it was delivered. *)

From S2P Require Import Prelude Strs Json F64 Canonical Extern Utf8 MonitorTypes MonitorMatches.
From S2P Require Import MonitorOutput MonitorPolicy MonitorSteps MonitorHistory.

Section monitor.
Context `{HE : Encodings, !EncodingsSpec HE} `{HS : Schemas} `{HU : UuidV5}.

Definition reports_of (trace : list entry) : list report := (λ e, report_of (e_effects e)) <$> trace.
(** [r] is the record of a command created for [input], after the transactions of [trace]. *)
Definition history (input : MonitorCreateInput) (trace : list entry) (r : MonitorRecord) : Prop :=
  ∃ actor request_id log_root now r0,
    create_record actor input request_id log_root now = Ok r0 ∧ run r0 trace r.
Definition patterns_of (input : MonitorCreateInput) : list string := default [] (ci_output_patterns input).

Lemma history_counts input trace r : history input trace r → counts_of (patterns_of input) trace r.
Proof. intros (actor & id & root & now & r0 & Hc%create_counts & Hr). by eapply counts_run. Qed.
Lemma history_protocol input trace r : history input trace r → protocol_inv (reports_of trace) (control_of r).
Proof.
  intros (actor & id & root & now & r0 & Hc%create_fresh & Hr%run_protocol). by eapply protocol_run_inv.
Qed.
Lemma searched_active st trace :
  Forall (λ e, active_owner (e_snapshot e) = true) trace → searched st trace = written st trace.
Proof.
  intros H. unfold searched, written. f_equal. apply list_fmap_ext. intros i e He.
  unfold searched_of. by rewrite (Forall_lookup_1 _ _ _ _ H He).
Qed.

Lemma monitor_integer_in min max v : (min <= v <= max)%Z → monitor_integer min max v = Ok v.
Proof.
  intros [H1 H2]. unfold monitor_integer, BoundedInteger_try_from.
  by rewrite (proj2 (Z.leb_le _ _) H1), (proj2 (Z.leb_le _ _) H2).
Qed.

(** Transactions one after the other, each with the owner and the time it sees. *)
Definition transact (state : list entry * MonitorRecord) (item : json * request * f64)
  : result (list entry * MonitorRecord) :=
  let '(trace, r) := state in
  let '(actor, q, now) := item in
  ensure (allowed r q) "not a transaction of this record";;
  '(s, d) ← commit r actor q now;
  Ok (trace ++ [{| e_snapshot := s; e_request := q; e_now := now; e_effects := d_effects d |}], d_record d).
Definition execute (r0 : MonitorRecord) (items : list (json * request * f64)) : result (list entry * MonitorRecord) :=
  foldM transact ([], r0) items.
Lemma execute_run r0 items trace r : execute r0 items = Ok (trace, r) → run r0 trace r.
Proof.
  unfold execute. assert (∀ items trace0 r1, run r0 trace0 r1 → foldM transact (trace0, r1) items = Ok (trace, r) → run r0 trace r)
    as H; [|by apply H, run_nil]. clear items.
  induction items as [|[[actor q] now] items IH]; intros trace0 r1 Hr H; cbn [foldM] in H; [by simplify_eq|].
  apply bind_ok in H as ([trace1 r2] & Ht & H). apply (IH trace1 r2); [|done].
  unfold transact in Ht. inv_pair. eapply run_snoc; [done|]. by econstructor.
Qed.

(** C4. A command is run at most once, whatever the order of approvals, starts, recoveries,
    reattachments, cancellations and answers: the effects of its transactions ask for its execution
    exactly once when the record has an operation, and never when it has none. *)
Theorem command_runs_once input trace r :
  history input trace r →
  execs (reports_of trace) = (if is_some (m_operation r) then 1 else 0) ∧
  (m_status r = Approval ∨ m_status r = Starting → execs (reports_of trace) = 0) ∧
  (m_status r = Running → execs (reports_of trace) = 1).
Proof.
  intros [H1 H2 H3 _ _ _ _ _]%history_protocol. cbn in *. rewrite H1. split_and!; [done|..].
  - by intros ->%H2.
  - intros Hs%H3. by destruct (m_operation r).
Qed.

(** C17. Notices are not repeated: the stall notices of a command are of strictly increasing
    generations of its activity, and its output events carry the numbers 1, 2, 3 and so on, up to
    the number its record has reached. *)
Theorem notices_once input trace r :
  history input trace r →
  StronglySorted Z.lt (stalls (reports_of trace)) ∧
  outputs (reports_of trace) = seqZ 1 (event_sequence r).
Proof. intros [_ _ _ _ [H5 _] _ _ H8]%history_protocol. done. Qed.

(** C7. The counts are exact. After any sequence of transactions the byte count is that of all bytes
    that the two streams have delivered to the running command. The total of every pattern on every
    stream is the number of its occurrences, overlapping ones and those across chunks included, up to
    the cap, in [searched]: the bytes that arrived while the owner was active, put one after the other,
    whatever was left out between them ([unsearched_gap_matches] below). If the owner was active
    throughout, these are all bytes of the stream. *)
Theorem output_counts_exact input trace r :
  history input trace r →
  m_bytes r = Z.of_nat (String.length (written Stdout trace) + String.length (written Stderr trace)) ∧
  (∀ st i p, patterns_of input !! i = Some p →
     count_of (m_output_matches_total r) (match_key (stream_text st) i) =
     capped (Z.of_nat (occurrences p (searched st trace)))) ∧
  (Forall (λ e, active_owner (e_snapshot e) = true) trace → ∀ st, searched st trace = written st trace).
Proof.
  intros [_ _ H3 _ _ H6 _ _ _]%history_counts. split; [done|]. split; [done|]. intros Ha st. by apply searched_active.
Qed.

(** C11. Output events are true to what was searched. Each match that an event reports is of a
    pattern of the command; its count is positive, and the pattern occurs at least that often in the
    bytes searched of its stream by then: those that arrived while the owner was active, put one after
    the other. If the owner was active throughout, these are all bytes the stream had delivered by
    then. The excerpt of a match, if it has one, contains the pattern, provided that the pattern is
    valid UTF-8 (which a Rust string always is). *)
Theorem output_events_true input trace r before e after id ev :
  history input trace r → trace = before ++ e :: after → EOutputEvent id ev ∈ e_effects e →
  event_true (patterns_of input) (before ++ [e]) ev ∧
  (Forall (λ e, active_owner (e_snapshot e) = true) (before ++ [e]) →
   ∀ st, searched st (before ++ [e]) = written st (before ++ [e])).
Proof.
  intros (actor & rid & root & now & r0 & Hc%create_counts & Hr) He Hev. split; [|intros Ha st; by apply searched_active].
  by eapply (events_run _ _ _ _ before e after Hc Hr He).
Qed.

(** C13. The tail is the end of the text: it is the last 12000 characters of pieces that are the
    text of the chunks in the order they arrived, and on each stream the pieces and the up to three
    bytes kept of an unfinished character are the lossy text of all the bytes of the stream, however
    the chunks cut its characters. Nothing is kept once the command has completed. *)
Theorem output_tail_exact input trace r :
  history input trace r →
  ∃ pieces rest (ended : bool),
    m_tail r = last_chars MONITOR_OUTPUT_TAIL_CODEPOINTS (all_text pieces) ∧
    pieces.*1 = omap arrival trace ++ (if ended then [Stdout; Stderr] else []) ∧
    (∀ st, bytes (m_output_utf8_pending r) st = Ok (rest st) ∧ String.length (rest st) ≤ 3 ∧
           from_utf8_lossy (written st trace) = text_of st pieces +:+ from_utf8_lossy (rest st)) ∧
    (m_status r = Completed → ∀ st, rest st = "").
Proof.
  intros (actor & id & root & now & r0 & Hc%create_text & Hr).
  destruct (text_run r0 trace r Hr) as (pieces & rest & ended & [_ _ H3 H4 H5 H6 H7]); [eauto|].
  exists pieces, rest, ended. split; [done|]. split; [done|]. split.
  - intros st. destruct (H4 st) as [Hb Hl]. split; [done|]. split; [done|]. specialize (H7 st). destruct ended.
    + destruct H7 as (-> & -> & _). cbn. by rewrite str_app_nil_r.
    + specialize (H7 ""). by rewrite !str_app_nil_r in H7.
  - intros Hs st. rewrite (H6 Hs) in H7. by destruct (H7 st).
Qed.

(** C24. Output is always taken: a chunk of the command that is running, of at most 64 KiB, is
    not refused for what the record has saved of earlier output, as long as the byte and activity
    counters stay in range. The record that results counts its bytes, and passes the check of
    stored records if its wake budget does. *)
Theorem output_taken input trace r s operation st chunk now :
  history input trace r → sn_record s = r → m_status r = Running → check_operation s operation = Ok tt →
  String.length chunk ≤ CHUNK_BYTES → (m_bytes r + Z.of_nat (String.length chunk) <= max_safe_integer)%Z →
  (0 <= m_activity_generation r < max_safe_integer)%Z → MonitorTime_try_from now = Some now →
  ∃ d, output_stream s operation (stream_text st) chunk now = Ok d ∧
    m_bytes (d_record d) = (m_bytes r + Z.of_nat (String.length chunk))%Z ∧
    (budget_ok (d_record d) → validate (d_record d) = Ok tt).
Proof.
  intros Hc%history_counts%co_ok <- Hrun Hop Hchunk Hbytes Hgen Hnow. set (f := sn_record s) in *.
  destruct (append_ok f st chunk (active_owner s) Hc) as (r1 & Ha & _ & _ & _ & Hok).
  unfold output_stream. rewrite Hop. fold f. rewrite Hrun. change (Running == Running) with true.
  destruct (output_effect s r1 now false) as [r2 es] eqn:Eo. apply output_effect_reports in Eo as Hrep.
  pose proof (reports_ok _ _ Hok (reports_bytes _ _ (m_bytes f + Z.of_nat (String.length chunk)) Hrep)) as Hok2.
  pose proof (ok_bytes _ Hc) as H0. unfold monitor_time. rewrite Hnow. set (total := (m_bytes f + _)%Z) in *.
  assert (max_safe_integer < i64_max < u64_max)%Z as [Hi Hu] by done.
  rewrite (proj2 (Nat.ltb_ge _ _) Hchunk), !(monitor_integer_in _ _ _), !(proj2 (Z.ltb_ge _ _)) by lia.
  cbn [negb bail_if]. rsimpl. rewrite Ha. rsimpl. rewrite Eo. rsimpl.
  assert (∀ r3, same_output (r2 <| m_bytes := total |>) r3 → budget_ok r3 → validate r3 = Ok tt) as Hv.
  { intros r3 H3. apply output_ok_validate. by eapply output_ok_same. }
  destruct (is_empty chunk); eexists; (split; [reflexivity|]); (split; [done|]); apply Hv; cbn [d_record]; same_fields.
Qed.
End monitor.

(** ** An example *)

Definition any_schema : Schemas := λ _ _, Ok true.
Definition name_uuid : UuidV5 := λ name, name.
Definition sample_owner : json :=
  JObject [("autoWake", JBool true); ("cwd", JString "/w"); ("epoch", JInt 3); ("id", JString "a1")].
Definition sample_input : MonitorCreateInput := {|
  ci_command := "make"; ci_timeout_ms := None; ci_stall_timeout_seconds := None; ci_liveness_command := None;
  ci_wake_on := None; ci_success_exit_codes := None; ci_interactive := None;
  ci_output_patterns := Some ["err"; "ok"] |}.
Definition sample_operation : MonitorOperationRecord := {|
  op_account_key := "default"; op_agent := "a1"; op_connection_id := "c1"; op_epoch := 3;
  op_evidence := {| ev_thread_id := None; ev_root_request_id := None; ev_provider_generation := None;
                    ev_provider_request := None |} |}.
Definition sample_params : json :=
  JObject [("cwd", JString "/w"); ("processId", JString "m1"); ("sandboxPolicy", JObject []); ("timeoutMs", JInt 3600000)].
Definition at_time (n : Z) (q : request) : json * request * f64 := (sample_owner, q, f64_of_Z n).
Definition bytes_text (l : list Z) : string := join "" ((λ z, String (byte_of z) "") <$> l).
(** A character is cut between two chunks, and so is a match. *)
Definition sample_requests : list (json * request * f64) := [
  at_time 1 (RAnswer true);
  at_time 2 (RStart sample_operation sample_params);
  at_time 3 (ROutput sample_operation "stdout" "an er");
  at_time 4 (ROutput sample_operation "stdout" ("ror ok" +:+ bytes_text [195%Z]));
  at_time 5 (ROutput sample_operation "stderr" "err");
  at_time 2000 RTick;
  at_time 2001 (ROutput sample_operation "stdout" (bytes_text [169%Z; 10%Z]))].
Definition sample_answer : json * request * f64 := at_time 2002 (RFinish (Some sample_operation) (Some 0%Z) None).

Definition sample_created : result MonitorRecord :=
  @create_record encodings_hex any_schema name_uuid sample_owner sample_input "m1" "/logs" (f64_of_Z 0).
Definition sample_execution (items : list (json * request * f64)) : result (list entry * MonitorRecord) :=
  r0 ← sample_created; @execute encodings_hex any_schema r0 items.
Definition sample_history : list entry → MonitorRecord → Prop :=
  @history encodings_hex any_schema name_uuid sample_input.
Definition sample_run (trace : list entry) (r : MonitorRecord) : Prop :=
  ∃ r0, sample_created = Ok r0 ∧ @run encodings_hex any_schema r0 trace r.
Lemma sample_execution_run items trace r : sample_execution items = Ok (trace, r) → sample_run trace r.
Proof. unfold sample_execution. intros (r0 & Hc & He)%bind_ok. exists r0. split; [exact Hc|]. by eapply execute_run. Qed.
Lemma sample_run_history trace r : sample_run trace r → sample_history trace r.
Proof. intros (r0 & Hc & Hr). by exists sample_owner, "m1", "/logs", (f64_of_Z 0), r0. Qed.
(** The record before and after the command's answer, with what led to it. *)
Definition running_trace : list entry :=
  match sample_execution sample_requests with Ok (trace, _) => trace | Err _ => [] end.
Definition completed_trace : list entry :=
  match sample_execution (sample_requests ++ [sample_answer]) with Ok (trace, _) => trace | Err _ => [] end.
Definition sample_record (items : list (json * request * f64)) (H : is_ok (sample_execution items) = true) : MonitorRecord :=
  match sample_execution items as x return is_ok x = true → MonitorRecord with
  | Ok (_, r) => λ _, r
  | Err _ => λ H, False_rect _ (diff_false_true H)
  end H.
Definition running_record : MonitorRecord := sample_record sample_requests ltac:(vm_compute; reflexivity).
Definition completed_record : MonitorRecord :=
  sample_record (sample_requests ++ [sample_answer]) ltac:(vm_compute; reflexivity).
Lemma running_run : sample_run running_trace running_record.
Proof. apply (sample_execution_run sample_requests). vm_compute. reflexivity. Qed.
Lemma completed_run : sample_run completed_trace completed_record.
Proof. apply (sample_execution_run (sample_requests ++ [sample_answer])). vm_compute. reflexivity. Qed.
Definition running_history : sample_history running_trace running_record := sample_run_history _ _ running_run.
Definition completed_history : sample_history completed_trace completed_record := sample_run_history _ _ completed_run.

Lemma command_runs_once_witness :
  m_status completed_record = Completed ∧ execs (reports_of completed_trace) = 1.
Proof.
  split; [vm_compute; reflexivity|].
  exact (proj1 (@command_runs_once encodings_hex any_schema name_uuid _ _ _ completed_history)).
Defined.
Lemma notices_once_witness :
  stalls (reports_of completed_trace) = [3%Z] ∧ outputs (reports_of completed_trace) = [1%Z; 2%Z].
Proof.
  split; [vm_compute; reflexivity|].
  exact (proj2 (@notices_once encodings_hex any_schema name_uuid _ _ _ completed_history)).
Defined.
Lemma output_counts_exact_witness :
  count_of (m_output_matches_total completed_record) "stdout:0" = 1%Z.
Proof.
  exact (proj1 (proj2 (@output_counts_exact encodings_hex _ any_schema name_uuid _ _ _ completed_history)) Stdout 0 "err" eq_refl).
Defined.
Lemma output_events_true_witness :
  ∃ e id ev, completed_trace !! 3 = Some e ∧ EOutputEvent id ev ∈ e_effects e ∧
    event_true ["err"; "ok"] (take 3 completed_trace ++ [e]) ev.
Proof.
  destruct (completed_trace !! 3) as [e|] eqn:E; [|by vm_compute in E].
  destruct (e_effects e) as [|[id ev| | | | | | |] es] eqn:Ee; try (vm_compute in E; injection E as <-; done).
  assert (EOutputEvent id ev ∈ e_effects e) as Hev by (rewrite Ee; left).
  exists e, id, ev. split; [done|]. split; [exact Hev|].
  exact (proj1 (@output_events_true encodings_hex _ any_schema name_uuid _ _ _ (take 3 completed_trace) e (drop 4 completed_trace)
    id ev completed_history (eq_sym (take_drop_middle _ _ _ E)) Hev)).
Defined.
Lemma output_tail_exact_witness :
  ∃ pieces : list (MonitorStream * string),
    m_tail completed_record = last_chars MONITOR_OUTPUT_TAIL_CODEPOINTS (all_text pieces) ∧
    from_utf8_lossy (written Stderr completed_trace) = text_of Stderr pieces.
Proof.
  destruct (@output_tail_exact encodings_hex _ any_schema name_uuid _ _ _ completed_history)
    as (pieces & rest & ended & H1 & _ & H2 & H3).
  exists pieces. split; [exact H1|]. destruct (H2 Stderr) as (_ & _ & H). rewrite H3 in H by (vm_compute; reflexivity).
  by rewrite str_app_nil_r in H.
Defined.
Lemma output_taken_witness :
  ∃ d, @output_stream encodings_hex {| sn_record := running_record;
         sn_actor := {| ac_id := "a1"; ac_epoch := 3; ac_auto_wake := true; ac_deleted_at := None; ac_account_key := "default" |} |}
         sample_operation "stderr" "bye" (f64_of_Z 2002) = Ok d ∧ m_bytes (d_record d) = 20%Z.
Proof.
  destruct (@output_taken encodings_hex _ any_schema name_uuid sample_input running_trace running_record
    {| sn_record := running_record;
       sn_actor := {| ac_id := "a1"; ac_epoch := 3; ac_auto_wake := true; ac_deleted_at := None; ac_account_key := "default" |} |}
    sample_operation Stderr "bye" (f64_of_Z 2002)) as (d & Hd & Hb & _);
    [exact running_history|reflexivity|vm_compute; reflexivity|vm_compute; reflexivity
    |apply Nat.leb_le; vm_compute; reflexivity|vm_compute; discriminate|vm_compute; split; [discriminate|reflexivity]|vm_compute; reflexivity|].
  exists d. split; [exact Hd|exact Hb].
Defined.

(** Bytes that arrive while the owner is inactive are not searched, and the bytes saved before them
    stay: what comes before and after them counts as a match that the stream never contained. *)
Definition paused_owner : json :=
  JObject [("autoWake", JBool false); ("cwd", JString "/w"); ("epoch", JInt 3); ("id", JString "a1")].
Definition gap_requests : list (json * request * f64) := [
  at_time 1 (RAnswer true);
  at_time 2 (RStart sample_operation sample_params);
  at_time 3 (ROutput sample_operation "stdout" "er");
  (paused_owner, ROutput sample_operation "stdout" "ase", f64_of_Z 4);
  at_time 5 (ROutput sample_operation "stdout" "red")].
Definition gap_trace : list entry :=
  match sample_execution gap_requests with Ok (trace, _) => trace | Err _ => [] end.
Definition gap_record : MonitorRecord := sample_record gap_requests ltac:(vm_compute; reflexivity).
Example unsearched_gap_matches :
  sample_execution gap_requests = Ok (gap_trace, gap_record) ∧
  written Stdout gap_trace = "erasered" ∧ occurrences "err" (written Stdout gap_trace) = 0 ∧
  count_of (m_output_matches_total gap_record) (match_key "stdout" 0) = 1%Z.
Proof. split; [vm_compute; reflexivity|]. split; [vm_compute; reflexivity|]. split; vm_compute; reflexivity. Qed.

(** The shell policy marks the output generation as reported, but a liveness check that is under way
    reports the same generation when its answer comes. *)
Definition quiet_shell : Shell := {|
  sh_eligible := true; sh_critical := false; sh_pressure_cleanup := false; sh_quiet_threshold_ms := 60000;
  sh_last_active := None; sh_last_reap := None |}.
Definition checked_input : MonitorCreateInput := sample_input <| ci_liveness_command := Some "ping" |>.
Definition quiet_requests : list (json * request * f64) := [
  at_time 1 (RAnswer true);
  at_time 2 (RStart sample_operation sample_params);
  at_time 3 (ROutput sample_operation "stdout" "up");
  at_time 2000 RTick;
  at_time 2001 (RMaintain quiet_shell)].
Definition quiet_execution (items : list (json * request * f64)) : result (list entry * MonitorRecord) :=
  r0 ← @create_record encodings_hex any_schema name_uuid sample_owner checked_input "m1" "/logs" (f64_of_Z 0);
  @execute encodings_hex any_schema r0 items.
Example quiet_notice_repeated :
  ((λ '(_, r), (m_activity_generation r, m_stall_wake_generation r)) <$> quiet_execution quiet_requests = Ok (1, 1)%Z) ∧
  ((λ '(trace, _), stalls (reports_of trace)) <$> quiet_execution (quiet_requests ++
     [at_time 2002 (RProbe 1 (ProbeCompleted 0 "pong"))]) = Ok [1%Z]).
Proof. split; vm_compute; reflexivity. Qed.
