(* ===== verification/MonitorStore.v ===== *)
(** The monitored commands of a server as one store ([runtime-services/src/monitor_runtime.rs] and
    the table of [runtime-store/src/repositories/monitor_runtime.rs]): commands are created, at most
    64 of them active, and a command can be restarted, as a replacement that waits for the outcome
    of the one it replaces.

    The owner's row and whether its workspace admits the command are what the transaction reads;
    [store_step] is one transaction on the store. *)

From S2P Require Import Prelude Strs Json F64 Canonical Extern Utf8 MonitorTypes MonitorMatches.
From S2P Require Import MonitorOutput MonitorPolicy MonitorSteps MonitorHistory Monitor.

Notation store := (gmap string MonitorRecord).
Definition active_ids (st : store) : gset string :=
  dom (filter (λ kr : string * MonitorRecord, active_status (m_status kr.2) = true) st).
Definition active_count (st : store) : nat := size (active_ids st).
Definition MAX_ACTIVE : nat := 64.

Definition truthy (value : option json) : bool :=
  match value with
  | None | Some JNull | Some (JBool false) => false
  | Some (JBool true) => true
  | Some (JString s) => negb (is_empty s)
  | Some (JArray l) => negb (length l =? 0)
  | Some (JObject l) => negb (length l =? 0)
  | Some v => is_some_and (as_f64 v) (λ number, negb (f64_eq number f64_zero))
  end.
Definition refuse_remote (actor : json) : result () :=
  bail_if (truthy (get actor "remoteWorker") || truthy (get actor "remoteAnchor")) "remote events unavailable".

Record MonitorAdmission := {
  ad_actor_id : string;
  ad_epoch : Z;
  ad_request_id : string;
  ad_request : MonitorCreateInput;
  ad_log_root : string }.
Record RestartRequest := {
  rt_id : string;
  rt_agent : string;
  rt_epoch : Z;
  rt_request_id : string;
  rt_account_key : string;
  rt_output_patterns : list string;
  rt_signature : string }.
Record PreparedStart := {
  ps_monitor : MonitorRecord;
  ps_actor : json;
  ps_operation : MonitorOperationRecord;
  ps_params : json }.

Section store.
Context `{HE : Encodings} `{HS : Schemas} `{HU : UuidV5}.

(** [checked_agent], for the row of the agent. *)
Definition checked_agent (actor : json) (id : string) : result Actor :=
  agent ← Actor_from_value actor;
  bail_if (is_some_and (ac_deleted_at agent) (λ at_, negb (f64_eq at_ f64_zero))) "This agent was deleted";;
  bail_if (negb (ac_id agent == id)) "invalid stored agent";;
  Ok agent.
Definition create_in_transaction (st : store) (actor : json) (workspace : result ())
    (admission : MonitorAdmission) (now : f64) : result (store * MonitorRecord) :=
  owner ← checked_agent actor (ad_actor_id admission);
  refuse_remote actor;;
  record ← create_record actor (ad_request admission) (ad_request_id admission) (ad_log_root admission) now;
  match st !! m_id record with
  | Some previous =>
      bail_if (negb (same_request previous record)) "This monitor request id has different content";;
      Ok (st, previous)
  | None =>
      bail_if (negb (ac_epoch owner =? ad_epoch admission)%Z || negb (ac_auto_wake owner))
        "The agent turn was stopped";;
      workspace;;
      bail_if (MAX_ACTIVE <=? active_count st) "Maximum 64 active command watches";;
      Ok (<[m_id record := record]> st, record)
  end.
(** [stored_create_result]. *)
Definition stored_create_result (st : store) (actor : json) (admission : MonitorAdmission) (now : f64)
  : result (option MonitorRecord) :=
  checked_agent actor (ad_actor_id admission);;
  record ← create_record actor (ad_request admission) (ad_request_id admission) (ad_log_root admission) now;
  match st !! m_id record with
  | Some previous =>
      bail_if (negb (same_request previous record)) "This monitor request id has different content";;
      Ok (Some previous)
  | None => Ok None
  end.
Definition restart_in_transaction (st : store) (actor : json) (body : RestartRequest) (workspace : result ())
    (log_root : string) (now : f64) : result (store * MonitorRecord) :=
  let request_id := "monitor-restart:" +:+ rt_agent body +:+ ":" +:+ rt_request_id body in
  let replacement_id := uuid_v5_url request_id in
  owner ← checked_agent actor (rt_agent body);
  bail_if (negb (ac_epoch owner =? rt_epoch body)%Z || negb (ac_account_key owner == rt_account_key body))
    "The monitor owner changed";;
  match st !! replacement_id with
  | Some previous =>
      bail_if (negb (m_restart_signature previous == Some (rt_signature body)))
        "This restart request has different content";;
      Ok (st, previous)
  | None =>
      row ← ctx "Unknown command watch" (st !! rt_id body);
      source ← checked_stored row actor;
      let old := sn_record source in
      bail_if (negb (m_agent old == rt_agent body) || negb (m_epoch old =? rt_epoch body)%Z ||
               (m_cancel_requested old == Some true) || negb (active_status (m_status old)))
        "The monitor changed or finished. Refresh its details";;
      patterns ← patterns (Some (rt_output_patterns body));
      bail_if (m_output_patterns old == Some patterns) "Use narrower output patterns before restarting";;
      let request := {|
        ci_command := m_command old; ci_output_patterns := Some patterns; ci_timeout_ms := Some (m_timeout_ms old);
        ci_interactive := Some (m_interactive old); ci_wake_on := Some (m_wake_on old);
        ci_success_exit_codes := Some (m_success_exit_codes old);
        ci_stall_timeout_seconds := Some (m_stall_timeout_seconds old);
        ci_liveness_command := Some (m_liveness_command old) |} in
      '(st, replacement) ← create_in_transaction st actor workspace
        {| ad_actor_id := rt_agent body; ad_epoch := rt_epoch body; ad_request_id := request_id; ad_request := request; ad_log_root := log_root |} now;
      let replacement := replacement <| m_restart_after := Some (rt_id body) |>
                                     <| m_restart_signature := Some (rt_signature body) |> in
      let st := <[m_id replacement := replacement]> st in
      row ← ctx "Unknown command watch" (st !! rt_id body);
      '(_, d) ← commit row actor (RCancel (Some (rt_agent body))) now;
      Ok (<[m_id (d_record d) := d_record d]> st, replacement)
  end.
Definition settled_status (s : MonitorStatus) : bool :=
  match s with Completed | Failed | Cancelled => true | _ => false end.
Definition restart_ready (st : store) (record : MonitorRecord) : bool :=
  match m_restart_after record with
  | None => true
  | Some id => is_some_and (st !! id) (λ source, settled_status (m_status source))
  end.

(** [value.pointer(path)] for a path of object keys. *)
Definition pointer (path : list string) (value : json) : option json :=
  foldl (λ v key, v ≫= λ v, get v key) (Some value) path.
Definition MONITOR_START_ACTOR_INPUTS : list (list string) := [
  ["threadId"]; ["cwd"]; ["provider"]; ["executionMode"]; ["yoloMode"]; ["approvalPolicy"]; ["sandbox"];
  ["profile"; "id"]; ["role"]; ["isLead"]; ["workspaceMode"]; ["layrScratch"]].
Definition is_legacy (record : json) : bool :=
  (get record "workspaceMode" == Some (JString "image")) || (get record "imageWorkspace" == Some (JBool true)).
Definition reserve_start (st : store) (id : string) (actor : json) (prepared : PreparedStart) (now : f64)
  : result (entry * store) :=
  row ← ctx "Unknown command watch" (st !! id);
  s ← checked_stored row actor;
  ensure (restart_ready st row) "Wait for the previous command to exit before restarting";;
  bail_if (negb (bool_decide (row = ps_monitor prepared)) ||
           negb (Bool.eqb (is_legacy actor) (is_legacy (ps_actor prepared))) ||
           existsb (λ path, negb (pointer path actor == pointer path (ps_actor prepared))) MONITOR_START_ACTOR_INPUTS)
    "Monitor changed during preparation";;
  let q := RStart (ps_operation prepared) (ps_params prepared) in
  '(s, d) ← commit row actor q now;
  Ok ({| e_snapshot := s; e_request := q; e_now := now; e_effects := d_effects d |}, <[m_id (d_record d) := d_record d]> st).

(** One transaction. A command is started by [reserve_start] only. *)
Inductive store_step (st : store) : store → Prop :=
| S_create actor workspace admission now st' r :
    create_in_transaction st actor workspace admission now = Ok (st', r) → store_step st st'
| S_restart actor body workspace log_root now st' r :
    restart_in_transaction st actor body workspace log_root now = Ok (st', r) → store_step st st'
| S_start id actor prepared now e st' :
    reserve_start st id actor prepared now = Ok (e, st') → store_step st st'
| S_transaction id r e r' :
    st !! id = Some r → step r e r' → is_start_request (e_request e) = false → store_step st (<[id := r']> st)
| S_write id r r' :
    st !! id = Some r → side_write r r' → m_restart_after r' = m_restart_after r → store_step st (<[id := r']> st).
Inductive store_run (st0 : store) : store → Prop :=
| store_nil : store_run st0 st0
| store_snoc st st' : store_run st0 st → store_step st st' → store_run st0 st'.
End store.

(** ** The invariant of the store *)

(** What a transaction does to a record. *)
Section changes.
Context `{HE : Encodings} `{HS : Schemas}.

Lemma step_kept r e r' : step r e r' → identity r' = identity r.
Proof.
  intros (<- & _ & actor & d & _ & Hh & _ & <- & _)%step_inv. destruct (is_output_request (e_request e)) eqn:Eo.
  - destruct (e_request e); try done. cbn [handle] in Hh. destruct (decide (m_status (sn_record (e_snapshot e)) = Running)).
    + apply output_standing in Hh as (_ & (_ & -> & _)%standing_fields & _); done.
    + by apply output_stream_inv in Hh as [_ [[-> _]|[? _]]].
  - by eapply handle_kept.
Qed.
Lemma step_operation r e r' : step r e r' → is_start_request (e_request e) = false → m_operation r' = m_operation r.
Proof.
  intros (<- & _ & actor & d & _ & Hh & _ & <- & _)%step_inv Hs. destruct (is_output_request (e_request e)) eqn:Eo.
  - destruct (e_request e); try done. cbn [handle] in Hh. destruct (decide (m_status (sn_record (e_snapshot e)) = Running)).
    + apply output_standing in Hh as (_ & (_ & _ & ->)%standing_fields & _); done.
    + by apply output_stream_inv in Hh as [_ [[-> _]|[? _]]].
  - apply handle_standing in Hh; [|done..]. by apply standing_fields in Hh as (_ & _ & ->).
Qed.
Lemma step_settled r e r' : step r e r' → settled_status (m_status r) = true → settled_status (m_status r') = true.
Proof.
  intros Hs Ht. assert (terminal (m_status r) = true) as Hterm by by destruct (m_status r).
  destruct (terminal_step _ _ _ Hs Hterm) as [->|[[_ ->]|[(_ & _ & [-> | [-> | ->]] & _)|(? & ? & _ & ->)]]]; done.
Qed.
Lemma protocol_active k p k' : protocol k p k' → active_status (c_status k') = true → active_status (c_status k) = true.
Proof. destruct 1 as [| |? Hs| | | | |? ? ? [-> | [-> | ->]]| | | |]; try done. by rewrite Hs. Qed.
Lemma step_transition r e r' : step r e r' → protocol (control_of r) (report_of (e_effects e)) (control_of r').
Proof.
  intros (Hr & Ha & actor & d & _ & Hh & _ & <- & <-)%step_inv. rewrite <-Hr in Ha |- *. by eapply handle_protocol.
Qed.
Lemma checked_stored_actor r actor s : checked_stored r actor = Ok s → Actor_from_value actor = Ok (sn_actor s).
Proof. unfold checked_stored. destruct (Actor_from_value actor); intros H; by inv_ok. Qed.
Lemma commit_is_step r actor q now s d :
  allowed r q = true → commit r actor q now = Ok (s, d) →
  step r {| e_snapshot := s; e_request := q; e_now := now; e_effects := d_effects d |} (d_record d).
Proof. intros Ha Hc. by econstructor. Qed.
End changes.

Section invariant.
Context `{HE : Encodings} `{HS : Schemas} `{HU : UuidV5}.

Record store_inv (st : store) : Prop := {
  si_id id r : st !! id = Some r → m_id r = id;
  si_history id r : st !! id = Some r → ∃ input trace, history input trace r;
  si_restart id r source : st !! id = Some r → m_restart_after r = Some source → m_operation r ≠ None →
    ∃ old, st !! source = Some old ∧ settled_status (m_status old) = true;
  si_active : active_count st ≤ MAX_ACTIVE }.

Lemma history_snoc input trace r e r' : history input trace r → step r e r' → history input (trace ++ [e]) r'.
Proof. intros (actor & id & root & now & r0 & Hc & Hr) Hs. exists actor, id, root, now, r0. split; [done|by econstructor]. Qed.
Lemma history_write input trace r r' : history input trace r → side_write r r' → history input trace r'.
Proof. intros (actor & id & root & now & r0 & Hc & Hr) Hw. exists actor, id, root, now, r0. split; [done|by eapply run_write]. Qed.
Lemma elem_of_active st id : id ∈ active_ids st ↔ ∃ r, st !! id = Some r ∧ active_status (m_status r) = true.
Proof.
  unfold active_ids. rewrite elem_of_dom. split.
  - intros [r [Hr Ha]%map_lookup_filter_Some]. eauto.
  - intros (r & Hr & Ha). exists r. by apply map_lookup_filter_Some.
Qed.
(** One record changes. *)
Lemma update_inv st id r r' :
  store_inv st → st !! id = Some r → m_id r' = m_id r → m_restart_after r' = m_restart_after r →
  (∃ input trace, history input trace r') →
  (m_operation r' ≠ None → m_operation r ≠ None ∨ restart_ready st r = true) →
  (settled_status (m_status r) = true → settled_status (m_status r') = true) →
  (active_status (m_status r') = true → active_status (m_status r) = true) →
  store_inv (<[id := r']> st).
Proof.
  intros [H1 H2 H3 H4] Hr Hid Hafter Hp Hop Hset Hact.
  assert (∀ source old, st !! source = Some old → settled_status (m_status old) = true →
    ∃ old', <[id := r']> st !! source = Some old' ∧ settled_status (m_status old') = true) as Hkeep.
  { intros source old Ho Hs. destruct (decide (source = id)) as [->|Hn].
    - exists r'. rewrite lookup_insert_eq. rewrite Hr in Ho. injection Ho as <-. auto.
    - exists old. by rewrite lookup_insert_ne. }
  split.
  - intros id' r0 [[<- <-]|[_ H0]]%lookup_insert_Some; [by rewrite Hid; apply H1|by apply H1].
  - intros id' r0 [[<- <-]|[_ H0]]%lookup_insert_Some; [done|by eapply H2].
  - intros id' r0 source [[<- <-]|[_ H0]]%lookup_insert_Some Ha Ho.
    + rewrite Hafter in Ha. destruct (Hop Ho) as [Hop'|Hready].
      * destruct (H3 id r source Hr Ha Hop') as (old & Hold & Hs). by eapply Hkeep.
      * unfold restart_ready in Hready. rewrite Ha in Hready. destruct (st !! source) as [old|] eqn:Eold; [|done]. by eapply Hkeep.
    + destruct (H3 id' r0 source H0 Ha Ho) as (old & Hold & Hs). by eapply Hkeep.
  - assert (active_ids (<[id := r']> st) ⊆ active_ids st) as Hsub%subseteq_size.
    { intros id' (r0 & Hr0 & Ha)%elem_of_active. apply elem_of_active.
      apply lookup_insert_Some in Hr0 as [[<- <-]|[_ Hr0]]; eauto. }
    unfold active_count in *. lia.
Qed.
Lemma step_update st id r e r' :
  store_inv st → st !! id = Some r → step r e r' →
  is_start_request (e_request e) = false ∨ restart_ready st r = true → store_inv (<[id := r']> st).
Proof.
  intros Hi Hr Hs Hstart. pose proof (step_kept _ _ _ Hs) as Hid. pose proof (step_transition _ _ _ Hs) as Hp.
  apply (update_inv st id r); try done.
  - exact (f_equal (λ x, x.1.1.1.1.1.1.1.1.1.1) Hid).
  - exact (f_equal snd Hid).
  - destruct (si_history _ Hi _ _ Hr) as (input & trace & Hh). eexists _, _. by eapply history_snoc.
  - intros Ho. destruct Hstart as [Hq|Hq]; [left|by right]. by rewrite <-(step_operation _ _ _ Hs Hq).
  - by eapply step_settled.
  - exact (protocol_active _ _ _ Hp).
Qed.
Lemma side_update st id r r' :
  store_inv st → st !! id = Some r → side_write r r' → m_restart_after r' = m_restart_after r → store_inv (<[id := r']> st).
Proof.
  intros Hi Hr Hw Ha.
  assert (m_status r' = m_status r ∧ m_operation r' = m_operation r ∧ m_id r' = m_id r) as (E1 & E2 & E3) by (by rewrite Hw).
  apply (update_inv st id r); try done; rewrite ?E1, ?E2; try done; [|by auto].
  destruct (si_history _ Hi _ _ Hr) as (input & trace & Hh). eexists _, _. by eapply history_write.
Qed.
(** A record is added. *)
Lemma insert_inv st r :
  store_inv st → st !! m_id r = None → (∃ input trace, history input trace r) → m_operation r = None →
  active_count st < MAX_ACTIVE → store_inv (<[m_id r := r]> st).
Proof.
  intros [H1 H2 H3 H4] Hn Hp Ho Hc. split.
  - by intros id r0 [[<- <-]|[_ H0]]%lookup_insert_Some; [|apply H1].
  - intros id r0 [[<- <-]|[_ H0]]%lookup_insert_Some; [done|by eapply H2].
  - intros id r0 source [[<- <-]|[_ H0]]%lookup_insert_Some Ha Hop; [done|].
    destruct (H3 id r0 source H0 Ha Hop) as (old & Hold & Hs). exists old. rewrite lookup_insert_ne by congruence. done.
  - assert (active_ids (<[m_id r := r]> st) ⊆ {[m_id r]} ∪ active_ids st) as Hsub%subseteq_size.
    { intros id (r0 & [[<- <-]|[_ H0]]%lookup_insert_Some & Ha)%elem_of_active; [set_solver|].
      apply elem_of_union_r, elem_of_active. eauto. }
    unfold active_count in *. rewrite size_union_alt, size_singleton in Hsub.
    assert (active_ids st ∖ {[m_id r]} ⊆ active_ids st) as Hrest%subseteq_size by set_solver. lia.
Qed.

(** The parts of a request that its record keeps. *)
Definition request_of (r : MonitorRecord) :=
  (m_agent r, m_command r, m_timeout_ms r, m_interactive r, m_wake_on r, m_success_exit_codes r,
   m_stall_timeout_seconds r, m_liveness_command r, default [] (m_output_patterns r)).
Lemma same_request_iff a b : same_request a b = true ↔ request_of a = request_of b.
Proof.
  unfold same_request, request_of. split.
  - intros H. inv_ok. repeat match goal with H : (_ =? _)%Z = true |- _ => apply Z.eqb_eq in H end.
    match goal with H : Bool.eqb _ _ = true |- _ => apply Bool.eqb_prop in H end. congruence.
  - intros [= -> -> -> -> -> -> -> -> ->]. by rewrite !eqb_refl, !Z.eqb_refl, Bool.eqb_reflx.
Qed.
Lemma identity_request r r' : identity r' = identity r → request_of r' = request_of r.
Proof.
  unfold identity, request_of. intros [= _ -> -> -> -> -> -> -> -> -> _]. done.
Qed.
Lemma create_facts actor input request_id log_root now r :
  create_record actor input request_id log_root now = Ok r →
  m_id r = uuid_v5_url request_id ∧ m_operation r = None ∧
  (∃ input trace, history input trace r) ∧
  ∀ agent id, checked_agent actor id = Ok agent → m_agent r = id.
Proof.
  intros H. pose proof (create_fresh _ _ _ _ _ _ H) as Hf. split; [|split; [apply Hf|split]].
  - unfold create_record in H. by inv_ok.
  - exists input, [], actor, request_id, log_root, now, r. split; [done|constructor].
  - intros agent id Hc. assert (∃ s, checked_stored r actor = Ok s) as [s Hs].
    { unfold create_record in H. inv_ok. by eexists. }
    apply checked_stored_actor in Hs as Hact. apply checked_stored_inv in Hs as (_ & _ & -> & _).
    unfold checked_agent in Hc. rewrite Hact in Hc. by inv_ok.
Qed.
(** Two records for the same request have the same parts. *)
Lemma create_request actor actor' input request_id log_root log_root' now now' r r' :
  create_record actor input request_id log_root now = Ok r →
  create_record actor' input request_id log_root' now' = Ok r' →
  m_agent r = m_agent r' → request_of r = request_of r'.
Proof.
  intros H H' Ha. unfold create_record in *. inv_ok. unfold request_of. msimpl in Ha. msimpl. congruence.
Qed.

(** Every record of the store stays, for the same request. *)
Definition follows (st st' : store) : Prop :=
  ∀ id r, st !! id = Some r → ∃ r', st' !! id = Some r' ∧ request_of r' = request_of r.
Lemma follows_refl st : follows st st.
Proof. intros id r Hr. eauto. Qed.
Lemma follows_trans st1 st2 st3 : follows st1 st2 → follows st2 st3 → follows st1 st3.
Proof. intros H1 H2 id r (r1 & Hr1 & E1)%H1. apply H2 in Hr1 as (r2 & Hr2 & E2). exists r2. split; [done|congruence]. Qed.
Lemma follows_insert st id r' :
  (∀ r, st !! id = Some r → request_of r' = request_of r) → follows st (<[id := r']> st).
Proof.
  intros H id' r Hr. destruct (decide (id' = id)) as [->|Hn].
  - exists r'. rewrite lookup_insert_eq. auto.
  - exists r. by rewrite lookup_insert_ne.
Qed.

Lemma create_inv st actor workspace admission now st' r :
  create_in_transaction st actor workspace admission now = Ok (st', r) →
  ∃ record owner, checked_agent actor (ad_actor_id admission) = Ok owner ∧
    create_record actor (ad_request admission) (ad_request_id admission) (ad_log_root admission) now = Ok record ∧
    (st !! m_id record = Some r ∧ st' = st ∧ same_request r record = true ∨
     st !! m_id record = None ∧ r = record ∧ st' = <[m_id record := record]> st ∧ active_count st < MAX_ACTIVE).
Proof.
  unfold create_in_transaction. intros H. apply bind_ok in H as (owner & Ho & H). apply bind_ok in H as ([] & _ & H).
  apply bind_ok in H as (record & Hr & H). exists record, owner. split; [done|]. split; [done|].
  destruct (st !! m_id record) as [previous|] eqn:E; inv_ok; [by left|right].
  match goal with H : (MAX_ACTIVE <=? _) = false |- _ => apply Nat.leb_gt in H end. done.
Qed.
Lemma create_step st actor workspace admission now st' r :
  store_inv st → create_in_transaction st actor workspace admission now = Ok (st', r) → store_inv st' ∧ follows st st'.
Proof.
  intros Hi (record & owner & _ & Hr & [(_ & -> & _)|(Hn & -> & -> & Ha)])%create_inv; [split; [done|apply follows_refl]|].
  destruct (create_facts _ _ _ _ _ _ Hr) as (_ & Hop & Hp & _). split; [by apply insert_inv|].
  apply follows_insert. by rewrite Hn.
Qed.
Lemma commit_update st id row actor q now s d :
  store_inv st → st !! id = Some row → allowed row q = true → commit row actor q now = Ok (s, d) →
  is_start_request q = false ∨ restart_ready st row = true →
  m_id (d_record d) = id ∧ store_inv (<[id := d_record d]> st) ∧ follows st (<[id := d_record d]> st).
Proof.
  intros Hi Hr Ha Hc Hq. pose proof (commit_is_step _ _ _ _ _ _ Ha Hc) as Hs. pose proof (step_kept _ _ _ Hs) as Hk. split_and!.
  - rewrite <-(si_id _ Hi _ _ Hr). exact (f_equal (λ x, x.1.1.1.1.1.1.1.1.1.1) Hk).
  - by eapply step_update.
  - apply follows_insert. intros r0 Hr0. rewrite Hr in Hr0. injection Hr0 as <-. by apply identity_request.
Qed.
Lemma restart_step st actor body workspace log_root now st' r :
  store_inv st → restart_in_transaction st actor body workspace log_root now = Ok (st', r) → store_inv st' ∧ follows st st'.
Proof.
  intros Hi H. unfold restart_in_transaction in H. apply bind_ok in H as (owner & _ & H). apply bind_ok in H as ([] & _ & H).
  destruct (st !! uuid_v5_url _) as [previous|] eqn:En; [inv_ok; split; [done|apply follows_refl]|].
  apply bind_ok in H as (row & _ & H). apply bind_ok in H as (source & _ & H). apply bind_ok in H as ([] & _ & H).
  apply bind_ok in H as (ps & _ & H). apply bind_ok in H as ([] & _ & H). apply bind_ok in H as ([st1 replacement] & Hc & H).
  apply create_inv in Hc as (record & owner' & _ & Hr & Hcase). cbn [ad_request_id] in Hr.
  destruct (create_facts _ _ _ _ _ _ Hr) as (Hid & Hop & Hp & _). rewrite Hid in Hcase.
  destruct Hcase as [[Hs _]|(Hn & -> & -> & Ha)]; [by rewrite En in Hs|]. rewrite <-Hid in Hn.
  set (replacement := record <| m_restart_after := Some (rt_id body) |> <| m_restart_signature := Some (rt_signature body) |>) in *.
  change (m_id replacement) with (m_id record) in H. rewrite <-Hid, insert_insert_eq in H.
  assert (store_inv (<[m_id record := replacement]> st)) as Hi2.
  { apply (insert_inv st replacement); try done. destruct Hp as (input & trace & Hh). eexists _, _. by eapply history_write. }
  assert (follows st (<[m_id record := replacement]> st)) as Hf by (apply follows_insert; by rewrite Hn).
  apply bind_ok in H as (row2 & Hrow2%ctx_ok & H). apply bind_ok in H as ([s d] & Hcm & H). injection H as <- <-.
  destruct (commit_update _ _ _ _ (RCancel _) _ _ _ Hi2 Hrow2 eq_refl Hcm (or_introl eq_refl)) as (-> & Hi3 & Hf3).
  split; [done|by eapply follows_trans].
Qed.
Lemma start_step st id actor prepared now e st' :
  store_inv st → reserve_start st id actor prepared now = Ok (e, st') → store_inv st' ∧ follows st st'.
Proof.
  intros Hi H. unfold reserve_start in H. apply bind_ok in H as (row & Hrow%ctx_ok & H). apply bind_ok in H as (s0 & _ & H).
  apply bind_ok in H as ([] & Hready%ensure_ok & H). apply bind_ok in H as ([] & _ & H). apply bind_ok in H as ([s d] & Hc & H).
  injection H as _ <-.
  destruct (commit_update _ _ _ _ (RStart _ _) _ _ _ Hi Hrow eq_refl Hc (or_intror Hready)) as (-> & Hi3 & Hf3). done.
Qed.
Lemma store_step_inv st st' : store_inv st → store_step st st' → store_inv st' ∧ follows st st'.
Proof.
  intros Hi Hs. destruct Hs as [actor workspace admission now st' r H|actor body workspace log_root now st' r H
    |id actor prepared now e st' H|id r e r' Hr Hs Hq|id r r' Hr Hw Ha].
  - by eapply create_step.
  - by eapply restart_step.
  - by eapply start_step.
  - split; [by eapply step_update; eauto|]. apply follows_insert. intros r0 Hr0. rewrite Hr in Hr0. injection Hr0 as <-.
    by eapply identity_request, step_kept.
  - split; [by eapply side_update|]. apply follows_insert. intros r0 Hr0. rewrite Hr in Hr0. injection Hr0 as <-. by rewrite Hw.
Qed.
Lemma store_run_inv st st' : store_inv st → store_run st st' → store_inv st' ∧ follows st st'.
Proof.
  intros Hi. induction 1 as [|st1 st2 _ [IH1 IH2] Hs]; [split; [done|apply follows_refl]|].
  destruct (store_step_inv _ _ IH1 Hs) as [H1 H2]. split; [done|by eapply follows_trans].
Qed.
Lemma store_empty_inv : store_inv ∅.
Proof.
  split; try (by intros * H; rewrite lookup_empty in H). unfold active_count, active_ids.
  rewrite map_filter_empty, dom_empty_L, size_empty. lia.
Qed.

(** C10. A restarted command never runs beside the one it replaces: when the replacement has been
    started, the command it replaces is there and has completed, failed or been cancelled, whatever
    other transactions have happened to both. Every record of the store, replacements included, is
    the history of a command, so all that is known of histories holds of it. *)
Theorem restart_waits st id r :
  store_run ∅ st → st !! id = Some r →
  (∃ input trace, history input trace r) ∧
  ∀ source, m_restart_after r = Some source → m_operation r ≠ None →
    ∃ old, st !! source = Some old ∧ settled_status (m_status old) = true.
Proof.
  intros [Hi _]%(store_run_inv _ _ store_empty_inv) Hr. split; [by eapply si_history|]. intros source Ha Ho. by eapply si_restart.
Qed.

(** C19. A request creates one command: as long as the owner's row admits the request, repeating it
    after any other transactions, for whatever epoch, workspace and time, is answered with the
    record as it is by then and changes nothing, even when its owner was stopped or 64 commands are
    active. There are never more than 64 active commands. *)
Theorem creation_once st actor workspace admission now st1 r1 st2 :
  store_run ∅ st → create_in_transaction st actor workspace admission now = Ok (st1, r1) → store_run st1 st2 →
  active_count st2 ≤ MAX_ACTIVE ∧
  ∃ r2, st2 !! m_id r1 = Some r2 ∧
    ∀ actor' workspace' admission' now',
      ad_actor_id admission' = ad_actor_id admission → ad_request admission' = ad_request admission →
      ad_request_id admission' = ad_request_id admission →
      is_ok (checked_agent actor' (ad_actor_id admission)) = true → refuse_remote actor' = Ok tt →
      is_ok (create_record actor' (ad_request admission) (ad_request_id admission) (ad_log_root admission') now') = true →
      create_in_transaction st2 actor' workspace' admission' now' = Ok (st2, r2).
Proof.
  intros [Hi _]%(store_run_inv _ _ store_empty_inv) Hc H12.
  destruct (create_step _ _ _ _ _ _ _ Hi Hc) as [Hi1 _]. destruct (store_run_inv _ _ Hi1 H12) as [Hi2 Hf]. split; [apply Hi2|].
  destruct (create_inv _ _ _ _ _ _ _ Hc) as (record & owner & Ho & Hr & Hcase).
  destruct (create_facts _ _ _ _ _ _ Hr) as (Hid & _ & _ & Hag). specialize (Hag _ _ Ho).
  assert (st1 !! m_id record = Some r1 ∧ request_of r1 = request_of record) as [H1 Hreq].
  { destruct Hcase as [(H1 & -> & Hs)|(_ & -> & -> & _)]; [by apply same_request_iff in Hs|by rewrite lookup_insert_eq]. }
  pose proof (si_id _ Hi1 _ _ H1) as Hid1. apply Hf in H1 as (r2 & H2 & Hreq2). rewrite <-Hid1 in H2.
  exists r2. split; [done|]. intros actor' workspace' admission' now' Ea Eq Ei Hch Hrem Hcr.
  unfold create_in_transaction. rewrite Ea, Eq, Ei.
  destruct (checked_agent actor' (ad_actor_id admission)) as [owner'|] eqn:Eo; [|done]. rsimpl. rewrite Hrem. rsimpl.
  destruct (create_record actor' _ _ _ now') as [record'|] eqn:Er; [|done]. rsimpl.
  destruct (create_facts _ _ _ _ _ _ Er) as (Hid' & _ & _ & Hag'). specialize (Hag' _ _ Eo).
  pose proof (create_request _ _ _ _ _ _ _ _ _ _ Hr Er ltac:(congruence)) as Hsame.
  rewrite Hid', <-Hid, <-Hid1, H2, (proj2 (same_request_iff r2 record')) by congruence. done.
Qed.
End invariant.

(** ** An example *)

(** Transactions that can be computed. *)
Inductive store_command :=
| DCreate (actor : json) (admission : MonitorAdmission) (now : f64)
| DRestart (actor : json) (body : RestartRequest) (now : f64)
| DStart (id : string) (actor : json) (operation : MonitorOperationRecord) (params : json) (now : f64)
| DTransact (id : string) (item : json * request * f64).

Section perform.
Context `{HE : Encodings} `{HS : Schemas} `{HU : UuidV5}.

Definition perform_store (st : store) (c : store_command) : result store :=
  match c with
  | DCreate actor admission now => fst <$> create_in_transaction st actor (Ok tt) admission now
  | DRestart actor body now => fst <$> restart_in_transaction st actor body (Ok tt) "/logs" now
  | DStart id actor operation params now =>
      row ← ctx "Unknown command watch" (st !! id);
      snd <$> reserve_start st id actor
        {| ps_monitor := row; ps_actor := actor; ps_operation := operation; ps_params := params |} now
  | DTransact id (actor, q, now) =>
      row ← ctx "Unknown command watch" (st !! id);
      ensure (allowed row q && negb (is_start_request q)) "not a transaction of its own";;
      '(_, d) ← commit row actor q now;
      Ok (<[id := d_record d]> st)
  end.
Lemma perform_store_step st c st' : perform_store st c = Ok st' → store_step st st'.
Proof.
  destruct c as [actor admission now|actor body now|id actor operation params now|id [[actor q] now]]; cbn [perform_store]; intros H.
  - destruct (create_in_transaction _ _ _ _ _) as [[st1 r]|] eqn:E; [|done]. injection H as <-. by eapply S_create.
  - destruct (restart_in_transaction _ _ _ _ _ _) as [[st1 r]|] eqn:E; [|done]. injection H as <-. by eapply S_restart.
  - apply bind_ok in H as (row & _ & H). destruct (reserve_start _ _ _ _ _) as [[e st1]|] eqn:E; [|done]. injection H as <-.
    by eapply S_start.
  - inv_pair. eapply S_transaction; [done|by eapply commit_is_step|]. cbn. by destruct (is_start_request q).
Qed.
Lemma perform_store_run st cs st' : foldM perform_store st cs = Ok st' → store_run st st'.
Proof.
  intros H. assert (∀ cs st1, store_run st st1 → foldM perform_store st1 cs = Ok st' → store_run st st') as Hg;
    [|by eapply Hg, H; apply store_nil]. clear H cs.
  induction cs as [|c cs IH]; intros st1 Hr H; cbn [foldM] in H; [by injection H as <-|].
  apply bind_ok in H as (st2 & Hc & H). apply (IH st2); [|done]. eapply store_snoc; [done|]. by eapply perform_store_step.
Qed.
End perform.

(** A command is created, started, restarted with other patterns and stopped; its replacement then
    starts. *)
Definition sample_admission : MonitorAdmission := {|
  ad_actor_id := "a1"; ad_epoch := 3; ad_request_id := "m1"; ad_request := sample_input; ad_log_root := "/logs" |}.
Definition sample_restart : RestartRequest := {|
  rt_id := "m1"; rt_agent := "a1"; rt_epoch := 3; rt_request_id := "x"; rt_account_key := "default";
  rt_output_patterns := ["error"]; rt_signature := "s" |}.
Definition replacement_id : string := "monitor-restart:a1:x".
Definition start_params (id : string) : json :=
  JObject [("cwd", JString "/w"); ("processId", JString id); ("sandboxPolicy", JObject []); ("timeoutMs", JInt 3600000)].
Definition sample_create : store_command := DCreate sample_owner sample_admission (f64_of_Z 0).
Definition sample_commands : list store_command := [
  DTransact "m1" (at_time 1 (RAnswer true));
  DStart "m1" sample_owner sample_operation (start_params "m1") (f64_of_Z 2);
  DRestart sample_owner sample_restart (f64_of_Z 3);
  DTransact replacement_id (at_time 4 (RAnswer true));
  DTransact "m1" (at_time 5 (RFinish (Some sample_operation) (Some 143%Z) None));
  DStart replacement_id sample_owner sample_operation (start_params replacement_id) (f64_of_Z 6)].
Definition sample_store (st : store) (cs : list store_command) : result store :=
  @foldM _ _ (@perform_store encodings_hex any_schema name_uuid) st cs.
Definition stored (cs : list store_command) (H : is_ok (sample_store ∅ cs) = true) : store :=
  match sample_store ∅ cs as x return is_ok x = true → store with
  | Ok st => λ _, st
  | Err _ => λ H, False_rect _ (diff_false_true H)
  end H.
Definition created_store : store := stored [sample_create] ltac:(vm_compute; reflexivity).
Definition restarted_store : store := stored (sample_create :: sample_commands) ltac:(vm_compute; reflexivity).
Lemma created_run : @store_run encodings_hex any_schema name_uuid ∅ created_store.
Proof. apply (perform_store_run ∅ [sample_create]). vm_compute. reflexivity. Qed.
Lemma restarted_run : @store_run encodings_hex any_schema name_uuid ∅ restarted_store.
Proof. apply (perform_store_run ∅ (sample_create :: sample_commands)). vm_compute. reflexivity. Qed.
Lemma restarted_later : @store_run encodings_hex any_schema name_uuid created_store restarted_store.
Proof. apply (perform_store_run created_store sample_commands). vm_compute. reflexivity. Qed.
Definition stored_record (st : store) (id : string) (H : is_some (st !! id) = true) : MonitorRecord :=
  match st !! id as x return is_some x = true → MonitorRecord with
  | Some r => λ _, r
  | None => λ H, False_rect _ (diff_false_true H)
  end H.
Definition created_record : MonitorRecord := stored_record created_store "m1" ltac:(vm_compute; reflexivity).
Definition replacement_record : MonitorRecord := stored_record restarted_store replacement_id ltac:(vm_compute; reflexivity).

Lemma restart_waits_witness :
  m_status replacement_record = Running ∧
  ∃ old, restarted_store !! "m1" = Some old ∧ settled_status (m_status old) = true.
Proof.
  split; [vm_compute; reflexivity|].
  refine (proj2 (@restart_waits encodings_hex any_schema name_uuid restarted_store replacement_id replacement_record
    restarted_run _) "m1" _ _); [vm_compute; reflexivity|vm_compute; reflexivity|vm_compute; discriminate].
Defined.
Lemma creation_once_witness :
  ∃ r, restarted_store !! "m1" = Some r ∧
    @create_in_transaction encodings_hex any_schema name_uuid restarted_store sample_owner (Err "no workspace")
      (sample_admission <| ad_epoch := 9%Z |>) (f64_of_Z 100) = Ok (restarted_store, r).
Proof.
  destruct (@creation_once encodings_hex any_schema name_uuid ∅ sample_owner (Ok tt) sample_admission (f64_of_Z 0)
    created_store created_record restarted_store) as (_ & r & Hr & Hretry);
    [apply store_nil|vm_compute; reflexivity|exact restarted_later|].
  exists r. split; [exact Hr|]. apply Hretry; vm_compute; reflexivity.
Defined.
