(* ===== verification/MonitorDelivery.v ===== *)
(** The delivery of what a monitored command sends, from the durable queue to the log and the
    record ([runtime-services/src/monitor_event_queue.rs], [monitor_output.rs] and the loop of
    [tick_inner] in [monitor_runtime_wiring.rs]).

    [machine] is a record with its log and the state of the one consumer; [move] is one thing that
    happens: an event is queued, a transaction commits, the consumer takes its next action, or the
    process stops, at any point, a write of the log included. The queued bytes are tagged with
    their stream, so that one list tells what was sent and in which order. *)

From S2P Require Import Prelude Strs Json F64 Canonical Extern Utf8 MonitorTypes MonitorMatches.
From S2P Require Import MonitorOutput MonitorPolicy MonitorQueue MonitorSteps MonitorHistory.

(** ** The machine *)

Inductive consumer :=
| Idle
| Delivering (d : Delivery) (index : nat)
| Writing (d : Delivery) (index : nat) (before : MonitorRecord)
| Delivered (d : Delivery).
Record machine := {
  mc_record : MonitorRecord;
  mc_log : string;
  mc_consumer : consumer }.

(** What a move shows: an output that is queued, behind the events already there; a transaction. *)
Inductive act :=
| AQueued (behind : list MonitorQueueEvent) (st : MonitorStream) (bytes : string)
| AStep (e : entry)
| ASilent.

Section machine.
Context `{HE : Encodings} `{HJ : JsonText} `{HS : Schemas}.

(** The chunk a delivery is at: its log offset, stream and bytes. *)
Definition chunk_at (d : Delivery) (index : nat) : option (result Z * string * string) :=
  match dl_event d with
  | EvOutput offset stream bytes =>
      chunk ← stream_chunks bytes !! index; Some (chunk_offset offset index, stream, chunk)
  | _ => None
  end.
(** [append_chunk] up to the write of the file. *)
Definition chunk_check (m : machine) (d : Delivery) (offset : result Z) (chunk : string)
  : result (option (nat * string)) :=
  offset ← offset; append_check (mc_record m) (mc_log m) (dl_operation d) offset chunk.
Definition is_output_event (e : MonitorEvent) : bool := match e with EvOutput _ _ _ => true | _ => false end.

Inductive move (m : machine) : act → machine → Prop :=
| M_output owner original scope params bytes r' :
    enqueue_output (Some (mc_record m)) owner original scope params = Ok (Some r', true) →
    base64_decode (od_delta_base64 params) = Some bytes →
    move m (AQueued (queue_of (mc_record m)) (default Stdout (od_stream params)) bytes)
      {| mc_record := r'; mc_log := mc_log m; mc_consumer := mc_consumer m |}
| M_probe operation generation result r' :
    enqueue_probe (mc_record m) operation generation result = Ok (Some r') →
    move m ASilent {| mc_record := r'; mc_log := mc_log m; mc_consumer := mc_consumer m |}
| M_exit operation cursor code error finished r' :
    enqueue_exit (mc_record m) operation cursor code error finished = Ok (Some r', true) →
    move m ASilent {| mc_record := r'; mc_log := mc_log m; mc_consumer := mc_consumer m |}
| M_identity r' :
    side_write (mc_record m) r' → m_stream_queue r' = m_stream_queue (mc_record m) →
    m_stream_ack_cursor r' = m_stream_ack_cursor (mc_record m) →
    move m ASilent {| mc_record := r'; mc_log := mc_log m; mc_consumer := mc_consumer m |}
| M_transaction e r' :
    step (mc_record m) e r' → is_output_request (e_request e) = false →
    move m (AStep e) {| mc_record := r'; mc_log := mc_log m; mc_consumer := mc_consumer m |}
| M_next d :
    mc_consumer m = Idle → next (mc_record m) = Ok d →
    move m ASilent {| mc_record := mc_record m; mc_log := mc_log m; mc_consumer := Delivering d 0 |}
| M_skip d index offset stream chunk :
    mc_consumer m = Delivering d index → chunk_at d index = Some (offset, stream, chunk) →
    chunk_check m d offset chunk = Ok None →
    move m ASilent {| mc_record := mc_record m; mc_log := mc_log m; mc_consumer := Delivering d (S index) |}
| M_write d index offset stream chunk position rest :
    mc_consumer m = Delivering d index → chunk_at d index = Some (offset, stream, chunk) →
    chunk_check m d offset chunk = Ok (Some (position, rest)) →
    move m ASilent {| mc_record := mc_record m; mc_log := write_at (mc_log m) position rest;
                      mc_consumer := Writing d index (mc_record m) |}
| M_torn d index offset stream chunk position rest n :
    mc_consumer m = Delivering d index → chunk_at d index = Some (offset, stream, chunk) →
    chunk_check m d offset chunk = Ok (Some (position, rest)) →
    move m ASilent {| mc_record := mc_record m; mc_log := write_at (mc_log m) position (str_take n rest);
                      mc_consumer := Idle |}
| M_commit d index before offset stream chunk e r' :
    mc_consumer m = Writing d index before → mc_record m = before →
    chunk_at d index = Some (offset, stream, chunk) →
    step (mc_record m) e r' → e_request e = ROutput (dl_operation d) stream chunk →
    move m (AStep e) {| mc_record := r'; mc_log := mc_log m; mc_consumer := Delivering d (S index) |}
| M_applied d index :
    mc_consumer m = Delivering d index → is_output_event (dl_event d) = true → chunk_at d index = None →
    move m ASilent {| mc_record := mc_record m; mc_log := mc_log m; mc_consumer := Delivered d |}
(** A probe or an exit: its transaction is a move of its own. *)
| M_handled d index :
    mc_consumer m = Delivering d index → is_output_event (dl_event d) = false →
    move m ASilent {| mc_record := mc_record m; mc_log := mc_log m; mc_consumer := Delivered d |}
| M_refused d index offset stream chunk error e r' :
    mc_consumer m = Delivering d index → chunk_at d index = Some (offset, stream, chunk) →
    chunk_check m d offset chunk = Err error →
    step (mc_record m) e r' → e_request e = RQuarantine (dl_cursor d) error →
    move m (AStep e) {| mc_record := r'; mc_log := mc_log m; mc_consumer := Delivered d |}
| M_ack d r' :
    mc_consumer m = Delivered d → acknowledge (mc_record m) d = Ok r' →
    move m ASilent {| mc_record := default (mc_record m) r'; mc_log := mc_log m; mc_consumer := Idle |}
(** An error that ends the tick, or the end of the process: bytes that are not committed may be lost. *)
| M_stop n :
    Z.to_nat (m_bytes (mc_record m)) ≤ n →
    move m ASilent {| mc_record := mc_record m; mc_log := str_take n (mc_log m); mc_consumer := Idle |}.
Inductive moves (m0 : machine) : list act → machine → Prop :=
| moves_nil : moves m0 [] m0
| moves_snoc acts m a m' : moves m0 acts m → move m a m' → moves m0 (acts ++ [a]) m'.
End machine.

(** ** What was sent and what was taken *)

Definition tag : Type := MonitorStream * ascii.
Definition byte_list (s : string) : list ascii := String.list_ascii_of_string s.
Definition tagged (st : MonitorStream) (s : string) : list tag := pair st <$> byte_list s.
Definition sent_of (a : act) : list tag := match a with AQueued _ st bytes => tagged st bytes | _ => [] end.
Definition taken_of (a : act) : list tag :=
  match a with AStep e => tagged Stdout (chunk_of Stdout e) ++ tagged Stderr (chunk_of Stderr e) | _ => [] end.
Definition sent (acts : list act) : list tag := mjoin (sent_of <$> acts).
Definition taken (acts : list act) : list tag := mjoin (taken_of <$> acts).
Definition trace_of (acts : list act) : list entry := omap (λ a, match a with AStep e => Some e | _ => None end) acts.
(** The output was not queued behind a probe or an exit. *)
Definition in_order (a : act) : bool :=
  match a with AQueued behind _ _ => from_option is_output true (last behind) | _ => true end.

(** ** Bytes and chunks *)

Lemma byte_list_app a b : byte_list (a +:+ b) = byte_list a ++ byte_list b.
Proof. unfold byte_list. induction a as [|c a IH]; [done|]. rewrite str_app_cons. cbn [String.list_ascii_of_string app]. by rewrite IH. Qed.
Lemma byte_list_length s : length (byte_list s) = String.length s.
Proof. unfold byte_list. induction s as [|c s IH]; [done|]. cbn. by rewrite IH. Qed.
Lemma byte_list_take n s : byte_list (str_take n s) = take n (byte_list s).
Proof. unfold byte_list. revert n. induction s as [|c s IH]; intros [|n]; [done..|]. cbn. by rewrite IH. Qed.
Lemma byte_list_drop n s : byte_list (str_drop n s) = drop n (byte_list s).
Proof. unfold byte_list. revert n. induction s as [|c s IH]; intros [|n]; [done..|]. cbn. by rewrite IH. Qed.
Lemma byte_list_inj a b : byte_list a = byte_list b → a = b.
Proof. intros H. rewrite <-(String.string_of_list_ascii_of_string a), <-(String.string_of_list_ascii_of_string b). by f_equal. Qed.
Lemma tagged_length st s : length (tagged st s) = String.length s.
Proof. unfold tagged. by rewrite length_fmap, byte_list_length. Qed.
Lemma tagged_bytes st s : (tagged st s).*2 = byte_list s.
Proof. unfold tagged. rewrite <-list_fmap_compose. apply list_fmap_id. Qed.
Lemma tagged_take st n s : tagged st (str_take n s) = take n (tagged st s).
Proof. unfold tagged. by rewrite byte_list_take, fmap_take. Qed.
Lemma tagged_drop st n s : tagged st (str_drop n s) = drop n (tagged st s).
Proof. unfold tagged. by rewrite byte_list_drop, fmap_drop. Qed.
Lemma prefix_take {A} (l k : list A) : l `prefix_of` k → l = take (length l) k.
Proof. intros [t ->]. by rewrite take_app_length. Qed.
Lemma prefix_extend {A} (l k : list A) n : l `prefix_of` k → l ++ take n (drop (length l) k) `prefix_of` k.
Proof. intros [t ->]. rewrite drop_app_length. apply prefix_app. exists (drop n t). by rewrite take_drop. Qed.

Lemma take_min {A} n (l : list A) : take n l = take (n `min` length l) l.
Proof. by rewrite <-take_take, firstn_all. Qed.

#[local] Opaque CHUNK_BYTES.
Lemma str_chunks_lookup n : 0 < n → ∀ fuel s i, String.length s ≤ fuel →
  str_chunks fuel n s !! i = if decide (i * n < String.length s) then Some (str_take n (str_drop (i * n) s)) else None.
Proof.
  intros Hn. induction fuel as [|fuel IH]; intros s i Hf; cbn [str_chunks].
  { rewrite decide_False by lia. done. }
  destruct (is_empty s) eqn:Es.
  { unfold is_empty in Es. apply eqb_eq in Es as ->. rewrite decide_False by (cbn; lia). done. }
  assert (0 < String.length s) as Hl. { destruct s; [done|]. cbn. lia. }
  destruct i as [|i]; cbn [lookup list_lookup].
  { rewrite decide_True by lia. by destruct s. }
  rewrite IH by (rewrite str_drop_length; lia). rewrite str_drop_length, str_drop_drop.
  replace (n + i * n) with (S i * n) by lia.
  destruct (decide (i * n < String.length s - n)); [rewrite decide_True by lia|rewrite decide_False by lia]; done.
Qed.
Lemma CHUNK_BYTES_pos : 0 < CHUNK_BYTES.
Proof. apply Nat.ltb_lt. vm_compute. reflexivity. Qed.
Lemma stream_chunks_lookup s i :
  stream_chunks s !! i = if decide (i * CHUNK_BYTES < String.length s ∨ s = "" ∧ i = 0)
                         then Some (str_take CHUNK_BYTES (str_drop (i * CHUNK_BYTES) s)) else None.
Proof.
  unfold stream_chunks. destruct (is_empty s) eqn:Es; unfold is_empty in Es.
  - apply eqb_eq in Es as ->. destruct i as [|i]; [by rewrite decide_True by auto|].
    rewrite decide_False by (cbn [String.length]; lia). done.
  - rewrite str_chunks_lookup by (apply CHUNK_BYTES_pos || done). apply eqb_ne in Es.
    destruct (decide (i * CHUNK_BYTES < String.length s)); [by rewrite decide_True by auto|by rewrite decide_False by tauto].
Qed.

(** ** The log *)

(** [bytes] is what is at [o] in [all], and the log is a beginning of it. *)
Section log.
Context (all : list ascii) (log bytes : string) (o : nat).
Hypothesis Hlog : byte_list log `prefix_of` all.
Hypothesis Hbytes : byte_list bytes = take (String.length bytes) (drop o all).
Hypothesis Hlong : o ≤ String.length log.
Let existing := (String.length log - o) `min` String.length bytes.

Lemma log_agrees : str_take existing (str_drop o log) = str_take existing bytes.
Proof.
  apply byte_list_inj. rewrite !byte_list_take, byte_list_drop, Hbytes, take_take.
  rewrite (prefix_take _ _ Hlog), byte_list_length, skipn_firstn_comm, take_take. f_equal. subst existing. lia.
Qed.
(** Writing the rest of [bytes], or a part of it, keeps the log a beginning of [all]. *)
Lemma log_written n (log' := write_at log (o + existing) (str_take n (str_drop existing bytes))) :
  byte_list log' `prefix_of` all ∧ String.length log ≤ String.length log' ∧
  (String.length bytes ≤ n → o + String.length bytes ≤ String.length log').
Proof.
  subst log'. unfold write_at.
  destruct (decide (o + String.length bytes ≤ String.length log)) as [Hle|Hgt].
  - assert (existing = String.length bytes) as -> by (subst existing; lia).
    rewrite (str_drop_ge _ bytes) by done. assert (str_take n "" = "") as -> by by destruct n.
    cbn [String.length]. rewrite Nat.add_0_r, str_app_nil_l, str_take_drop. done.
  - assert (existing = String.length log - o) as -> by (subst existing; lia).
    replace (o + (String.length log - o)) with (String.length log) by lia.
    rewrite str_take_ge, (str_drop_ge _ log), str_app_nil_r by lia.
    rewrite byte_list_app, byte_list_take, byte_list_drop, Hbytes, skipn_firstn_comm, drop_drop, take_take.
    replace (o + (String.length log - o)) with (String.length log) by lia.
    split; [|rewrite str_length_app, str_take_length, str_drop_length; lia].
    rewrite <-(byte_list_length log). by apply prefix_extend.
Qed.

Lemma append_check_ok before operation count :
  is_none_or (m_operation before) (λ current, negb (same_identity current operation)) = false →
  m_status before = Running → m_bytes before = Z.of_nat count → o ≤ count →
  (o < count → o + String.length bytes ≤ count) →
  append_check before log operation (Z.of_nat o) bytes =
  Ok (if decide (o < count) then None else Some (o + existing, str_drop existing bytes)).
Proof.
  intros Hop Hrun Hcount Hle Hover. unfold append_check. rewrite Hop, Hrun, Hcount, Nat2Z.id.
  change (Running == Running) with true. cbn [negb]. rsimpl.
  rewrite (proj2 (Z.ltb_ge (Z.of_nat count) (Z.of_nat o))), (proj2 (Nat.ltb_ge (String.length log) o)) by lia. rsimpl.
  fold existing. rewrite log_agrees, eqb_refl. cbn [negb]. rsimpl. case_decide as Hd.
  - rewrite (proj2 (Z.ltb_lt (Z.of_nat o) (Z.of_nat count))), (proj2 (Z.ltb_ge (Z.of_nat count) _)) by lia. done.
  - rewrite (proj2 (Z.ltb_ge (Z.of_nat o) (Z.of_nat count))) by lia. done.
Qed.
End log.

(** ** The queue *)

Section queue.
Context `{HE : Encodings} `{HJ : JsonText} `{HS : Schemas}.

Definition cursors (r : MonitorRecord) : list string := queue_cursor <$> queue_of r.
(** A queued output decodes to the bytes it counts, and belongs to the record's operation. *)
Definition item_ok (operation : option MonitorOperationRecord) (item : MonitorQueueEvent) : Prop :=
  (0 <= queue_length item)%Z ∧
  match item with
  | QOutput cursor offset byte_length delta_base64 _ saved =>
      cursor ≠ "" ∧ operation = Some saved ∧ (0 <= offset)%Z ∧ (offset + byte_length <= u64_max)%Z ∧
      ∃ bytes, base64_decode delta_base64 = Some bytes ∧ byte_length = Z.of_nat (String.length bytes)
  | _ => True
  end.
Record queue_ok (r : MonitorRecord) : Prop := {
  qo_items : Forall (item_ok (m_operation r)) (queue_of r);
  qo_bytes : (queued_bytes (queue_of r) <= STREAM_QUEUE_MAX_BYTES)%Z;
  qo_length : length (queue_of r) ≤ MAX_EVENTS;
  qo_cursors : NoDup (cursors r);
  qo_ack cursor : m_stream_ack_cursor r = Some cursor → cursor ∉ cursors r;
  qo_none : m_operation r = None → queue_of r = [] }.
Definition queued (r : MonitorRecord) (item : MonitorQueueEvent) : MonitorRecord :=
  r <| m_stream_queue := Some (queue_of r ++ [item]) |>.
(** An event that may be queued. *)
Definition admitted (r : MonitorRecord) (item : MonitorQueueEvent) : Prop :=
  m_operation r ≠ None ∧ queue_cursor item ∉ cursors r ∧ m_stream_ack_cursor r ≠ Some (queue_cursor item) ∧
  length (queue_of r) < MAX_EVENTS ∧ (queued_bytes (queue_of r) + queue_length item <= STREAM_QUEUE_MAX_BYTES)%Z.

Lemma queued_bytes_app q q' : queued_bytes (q ++ q') = (queued_bytes q + queued_bytes q')%Z.
Proof. unfold queued_bytes. rewrite fmap_app, foldr_app. induction (queue_length <$> q) as [|x l IH]; cbn; lia. Qed.
Lemma queue_ok_queued r item :
  queue_ok r → admitted r item → item_ok (m_operation r) item → queue_ok (queued r item).
Proof.
  intros [H1 H2 H3 H4 H5 H6] (A1 & A2 & A3 & A4 & A5) Hi.
  unfold queued. split; unfold cursors; unfold queue_of; msimpl; cbn [from_option id]; fold (queue_of r).
  - apply Forall_app. split; [done|by constructor].
  - rewrite queued_bytes_app. unfold queued_bytes at 2. cbn. lia.
  - rewrite length_app. cbn [length]. lia.
  - rewrite fmap_app. apply NoDup_app. split; [done|]. split; [|apply NoDup_singleton].
    intros c Hc ->%list_elem_of_singleton. done.
  - intros c Hc. rewrite fmap_app. intros [?|Heq]%elem_of_app; [by apply (H5 c)|]. apply list_elem_of_singleton in Heq as ->. done.
  - done.
Qed.
(** A transaction or a write that leaves the queue alone. *)
Lemma queue_ok_same r r' :
  queue_ok r → queue_state r' = queue_state r → m_operation r' = m_operation r ∨ m_operation r = None → queue_ok r'.
Proof.
  intros [H1 H2 H3 H4 H5 H6] [= Eq Ea] Ho. unfold cursors in *.
  assert (queue_of r' = queue_of r) as E by (unfold queue_of; by rewrite Eq).
  split; unfold cursors; rewrite ?E, ?Ea; try done.
  - destruct Ho as [->|Ho]; [done|]. rewrite (H6 Ho). constructor.
  - destruct Ho as [->|Ho]; [done|]. intros _. by apply H6.
Qed.

Lemma find_cursor_none q cursor : find_cursor q cursor = None → cursor ∉ queue_cursor <$> q.
Proof.
  unfold find_cursor. intros H (item & -> & Hin)%list_elem_of_fmap.
  apply list_elem_of_In in Hin. pose proof (List.find_none _ _ H item Hin) as Hn. cbn in Hn. by rewrite eqb_refl in Hn.
Qed.
Lemma saturating_bound a b limit : (limit < u64_max)%Z → (limit <? saturating_add a b)%Z = false → (a + b <= limit)%Z.
Proof. unfold saturating_add. intros Hl H%Z.ltb_ge. lia. Qed.

Lemma enqueue_output_inv r owner original scope params bytes r' (st := default Stdout (od_stream params)) :
  enqueue_output (Some r) owner original scope params = Ok (Some r', true) →
  base64_decode (od_delta_base64 params) = Some bytes →
  m_status r = Running ∧ ∃ operation cursor,
    let item := QOutput cursor (next_offset (m_bytes r) (queue_of r)) (Z.of_nat (String.length bytes))
                  (od_delta_base64 params) st operation in
    m_operation r = Some operation ∧ cursor ≠ "" ∧ admitted r item ∧ r' = queued r item.
Proof.
  unfold enqueue_output. intros H Hb. destruct (m_operation r) as [operation|] eqn:Eo; [|done].
  match type of H with (if ?b then _ else _) = _ => destruct b eqn:E1 end; [done|].
  match type of H with (if ?b then _ else _) = _ => destruct b end; [done|].
  rewrite Hb in H. apply bind_ok in H as (bytes' & [= <-] & H). split; [by inv_ok|].
  set (cursor := _ +:+ _ : string) in H. exists operation, cursor.
  destruct (find_cursor (queue_of r) cursor) as [item|] eqn:Ef; [by destruct item; inv_ok|].
  destruct (m_stream_ack_cursor r == Some cursor) eqn:Ea; [done|]. apply eqb_ne in Ea. inv_ok.
  split; [done|]. split; [|split; [|done]].
  - subst cursor. intros E. apply (f_equal String.length) in E. rewrite !str_length_app in E. cbn in E. lia.
  - split; [by rewrite Eo|]. split; [by apply find_cursor_none|]. split; [done|].
    match goal with H : (_ <=? length _) = false |- _ => apply Nat.leb_gt in H end.
    match goal with H : (_ <? saturating_add _ _)%Z = false |- _ => apply saturating_bound in H; [|done] end.
    cbn [queue_length]. unfold MAX_EVENTS, RESERVED_EVENTS, STREAM_QUEUE_MAX_BYTES, TERMINAL_RECEIPT_RESERVE_BYTES in *.
    split; lia.
Qed.
Lemma enqueue_probe_inv r operation generation result r' :
  enqueue_probe r operation generation result = Ok (Some r') →
  ∃ item, is_output item = false ∧ item_ok (m_operation r) item ∧ admitted r item ∧ r' = queued r item.
Proof.
  unfold enqueue_probe. intros H. apply bind_ok in H as ([] & Ho%bail_if_ok & H).
  set (cursor := _ +:+ _ : string) in H. destruct (m_stream_ack_cursor r == Some cursor) eqn:Ea; [done|]. apply eqb_ne in Ea.
  destruct (find_cursor (queue_of r) cursor) as [item|] eqn:Ef; [by destruct item; inv_ok; case_match; inv_ok|].
  inv_ok. eexists. split; [|split; [|split; [|reflexivity]]]; [done|split; [cbn; lia|done]|].
  split; [by intros E; rewrite E in *|]. split; [by apply find_cursor_none|]. split; [done|].
  match goal with H : (_ <=? length _) = false |- _ => apply Nat.leb_gt in H end.
  match goal with H : (_ <? saturating_add _ _)%Z = false |- _ => apply saturating_bound in H; [|done] end.
  cbn [queue_length]. unfold MAX_EVENTS, STREAM_QUEUE_MAX_BYTES, TERMINAL_RECEIPT_RESERVE_BYTES in *. split; lia.
Qed.
Lemma enqueue_exit_inv r operation cursor code error finished r' :
  enqueue_exit r operation cursor code error finished = Ok (Some r', true) →
  ∃ item, is_output item = false ∧ item_ok (m_operation r) item ∧ admitted r item ∧ r' = queued r item.
Proof.
  unfold enqueue_exit. intros H. apply bind_ok in H as ([] & Ho%bail_if_ok & H).
  destruct (m_stream_ack_cursor r == Some cursor) eqn:Ea; [done|]. apply eqb_ne in Ea.
  destruct (find_cursor (queue_of r) cursor) as [item|] eqn:Ef; [by destruct item; inv_ok; case_match; inv_ok|].
  match type of H with (if ?b then _ else _) = _ => destruct b eqn:Eb end; [done|]. inv_ok.
  match goal with H : (_ <=? length _) = false |- _ => apply Nat.leb_gt in H end.
  match goal with H : (_ <? saturating_add _ _)%Z = false |- _ => apply saturating_bound in H; [|done] end.
  eexists. split; [|split; [|split; [|reflexivity]]]; [done|split; [|done]|].
  - cbn [queue_length]. destruct error; cbn; lia.
  - split; [by intros E; rewrite E in *|]. split; [by apply find_cursor_none|]. done.
Qed.
End queue.

Lemma same_identity_refl operation : same_identity operation operation = true.
Proof. unfold same_identity. rewrite !eqb_refl, Z.eqb_refl. done. Qed.

(** ** Where the queued bytes are *)

Section layout.
Context `{HE : Encodings} `{HJ : JsonText} `{HS : Schemas}.

(** The outputs of a queue are the bytes [rest], one after the other, from the log offset [o] on. *)
Fixpoint laid (o : nat) (q : list MonitorQueueEvent) (rest : list tag) : Prop :=
  match q with
  | [] => rest = []
  | QOutput _ offset _ delta_base64 st _ :: q =>
      offset = Z.of_nat o ∧ ∃ bytes rest', base64_decode delta_base64 = Some bytes ∧
        rest = tagged st bytes ++ rest' ∧ laid (o + String.length bytes) q rest'
  | _ :: q => laid o q rest
  end.
Lemma laid_output o q rest cursor byte_length delta_base64 st operation bytes :
  laid o q rest → base64_decode delta_base64 = Some bytes →
  laid o (q ++ [QOutput cursor (Z.of_nat (o + length rest)) byte_length delta_base64 st operation]) (rest ++ tagged st bytes).
Proof.
  intros H Hb. revert o rest H. induction q as [|[] q IH]; intros o rest H; cbn [laid app] in *.
  - subst rest. cbn. split; [f_equal; lia|]. exists bytes, []. by rewrite app_nil_r.
  - destruct H as [-> (b & rest' & Hd & -> & H)]. split; [done|]. exists b, (rest' ++ tagged st bytes).
    rewrite app_assoc. split_and!; [done|done|]. apply IH in H. by rewrite length_app, tagged_length, Nat.add_assoc.
  - by apply IH.
  - by apply IH.
Qed.
Lemma laid_other o q rest item : is_output item = false → laid o q rest → laid o (q ++ [item]) rest.
Proof.
  intros Hi. revert o rest. induction q as [|[] q IH]; intros o rest H; cbn [laid app] in *.
  - by destruct item.
  - destruct H as [-> (b & rest' & Hd & -> & H)]. split; [done|]. exists b, rest'. auto.
  - by apply IH.
  - by apply IH.
Qed.
(** The next output goes where the last one ends. *)
Lemma laid_last o q rest operation cursor offset byte_length delta_base64 st saved :
  laid o q rest → Forall (item_ok operation) q →
  last q = Some (QOutput cursor offset byte_length delta_base64 st saved) →
  (offset + byte_length)%Z = Z.of_nat (o + length rest).
Proof.
  revert o rest. induction q as [|item q IH]; intros o rest H Hq Hl; [done|].
  apply Forall_cons in Hq as [Hi Hq]. destruct q as [|item' q].
  - injection Hl as ->. cbn in H. destruct H as [-> (bytes & rest' & Hd & -> & ->)].
    destruct Hi as (_ & _ & _ & _ & _ & bytes' & Hd' & ->). rewrite Hd in Hd'. injection Hd' as <-.
    rewrite app_nil_r, tagged_length. lia.
  - rewrite last_cons_cons in Hl. destruct item; cbn [laid] in H; [|by eapply IH..].
    destruct H as [-> (bytes & rest' & Hd & -> & H)]. rewrite (IH _ _ H Hq Hl), length_app, tagged_length. lia.
Qed.
Lemma laid_bytes o q rest operation :
  laid o q rest → Forall (item_ok operation) q → (Z.of_nat (length rest) <= queued_bytes q)%Z.
Proof.
  revert o rest. induction q as [|item q IH]; intros o rest H Hq; [by rewrite H|].
  apply Forall_cons in Hq as [Hi Hq]. unfold queued_bytes in *. cbn [fmap list_fmap foldr].
  destruct item; cbn [laid queue_length] in *; destruct Hi as [Hi Hi'].
  - destruct H as [-> (bytes & rest' & Hd & -> & H)]. destruct Hi' as (_ & _ & _ & _ & bytes' & Hd' & ->).
    rewrite Hd in Hd'. injection Hd' as <-. rewrite length_app, tagged_length. specialize (IH _ _ H Hq). lia.
  - specialize (IH _ _ H Hq). cbn in Hi. lia.
  - specialize (IH _ _ H Hq). cbn in Hi. lia.
Qed.

(** [n] bytes have been taken: those before the head of the queue, and some chunks of the head. *)
Definition reached (start : nat) (item : option MonitorQueueEvent) (n : nat) : Prop :=
  match item with
  | Some (QOutput _ _ byte_length _ _ _) => ∃ k, n = start + (k * CHUNK_BYTES) `min` Z.to_nat byte_length
  | _ => n = start
  end.
Definition placed (snt tkn : list tag) (r : MonitorRecord) : Prop :=
  ∃ past rest, snt = past ++ rest ∧ laid (length past) (queue_of r) rest ∧
    reached (length past) (head (queue_of r)) (length tkn).

(** The delivery is of the head of the queue. *)
Definition at_head (r : MonitorRecord) (d : Delivery) : Prop :=
  ∃ item, head (queue_of r) = Some item ∧ queue_cursor item = dl_cursor d ∧
    queue_operation item = dl_operation d ∧ event_of item = Ok (dl_event d).
(** The first [index] chunks of the delivery have been taken. *)
Definition progressed (d : Delivery) (index n : nat) : Prop :=
  match dl_event d with
  | EvOutput offset _ bytes => Z.to_nat offset + (index * CHUNK_BYTES) `min` String.length bytes ≤ n
  | _ => True
  end.
Definition completed (d : Delivery) (n : nat) : Prop :=
  match dl_event d with EvOutput offset _ bytes => Z.to_nat offset + String.length bytes ≤ n | _ => True end.
Definition consumer_ok (tkn : list tag) (m : machine) : Prop :=
  match mc_consumer m with
  | Idle => True
  | Delivering d index =>
      at_head (mc_record m) d ∧ (m_status (mc_record m) = Running → progressed d index (length tkn))
  | Writing d index before =>
      at_head (mc_record m) d ∧ m_status before = Running ∧
      ∃ offset stream chunk, chunk_at d index = Some (Ok (m_bytes before), stream, chunk) ∧
        m_bytes before = Z.of_nat offset ∧ offset + String.length chunk ≤ String.length (mc_log m)
  | Delivered d =>
      at_head (mc_record m) d ∧ (m_status (mc_record m) = Running → completed d (length tkn))
  end.
Record delivery_inv (acts : list act) (m : machine) : Prop := {
  di_protocol : ∃ reports, protocol_inv reports (control_of (mc_record m));
  di_queue : queue_ok (mc_record m);
  di_bytes : m_bytes (mc_record m) = Z.of_nat (length (taken acts));
  di_bound : (m_bytes (mc_record m) <= max_safe_integer)%Z;
  di_taken : taken acts `prefix_of` sent acts;
  di_log : byte_list (mc_log m) `prefix_of` (sent acts).*2;
  di_logged : length (taken acts) ≤ String.length (mc_log m);
  di_none : m_operation (mc_record m) = None → sent acts = [];
  di_placed : m_status (mc_record m) = Running → placed (sent acts) (taken acts) (mc_record m);
  di_consumer : consumer_ok (taken acts) m }.

Lemma sent_snoc acts a : sent (acts ++ [a]) = sent acts ++ sent_of a.
Proof. unfold sent. rewrite fmap_app, join_app. cbn. by rewrite app_nil_r. Qed.
Lemma taken_snoc acts a : taken (acts ++ [a]) = taken acts ++ taken_of a.
Proof. unfold taken. rewrite fmap_app, join_app. cbn. by rewrite app_nil_r. Qed.
End layout.

(** ** Moves keep the invariant *)

Section moves.
Context `{HE : Encodings} `{HJ : JsonText} `{HS : Schemas}.

Lemma protocol_kept reports k p k' :
  protocol_inv reports k → protocol k p k' →
  (c_status k' = Running → c_status k = Running ∨ c_operation k = None) ∧
  (c_operation k' = c_operation k ∨ c_operation k = None).
Proof.
  intros [_ H2 _ _ _ _ _ _ _] Hp. destruct Hp as [|status Ha Hst|operation Hs| | | | |status outs seq Hset| | | |]; cbn;
    unfold RecordSettersUsingExistingGetters.const; try (split; [by auto|by auto]).
  - split; [|by auto]. intros ->. destruct Hst as [[_ ?]|[[_ ?]|[?|[_ Hop]]]]; try done.
    destruct (c_status k) eqn:E; try done; [destruct Hop; by auto..|by left].
  - split; [|by auto]. intros ->. by destruct Hset as [|[|]].
Qed.

(** The record changes, but not its queue and its byte count. *)
Lemma inv_record acts m a r' :
  delivery_inv acts m → queue_state r' = queue_state (mc_record m) → m_bytes r' = m_bytes (mc_record m) →
  (∃ reports p, protocol_inv reports (control_of (mc_record m)) ∧ protocol (control_of (mc_record m)) p (control_of r')) →
  sent_of a = [] → taken_of a = [] →
  delivery_inv (acts ++ [a]) {| mc_record := r'; mc_log := mc_log m; mc_consumer := mc_consumer m |}.
Proof.
  intros [_ H2 H3 H3' H4 H5 H6 H7 H8 H9] Eq Eb (reports & p & Hi & Hp) Hs Ht.
  destruct (protocol_kept _ _ _ _ Hi Hp) as [Hrun Hop]. cbn in Hrun, Hop.
  assert (queue_of r' = queue_of (mc_record m)) as E by (unfold queue_of; by injection Eq as -> _).
  assert (at_head r' = at_head (mc_record m)) as Eh by (unfold at_head; by rewrite E).
  assert (m_operation (mc_record m) = None → ∀ d, ¬ at_head (mc_record m) d) as Hnone.
  { intros Hn d (item & Hh & _). by rewrite (qo_none _ H2 Hn) in Hh. }
  split; cbn [mc_record mc_log mc_consumer]; rewrite ?sent_snoc, ?taken_snoc, ?Hs, ?Ht, ?app_nil_r; try done.
  - eexists. by eapply protocol_inv_step.
  - by eapply queue_ok_same.
  - by rewrite Eb.
  - by rewrite Eb.
  - destruct Hop as [->|Hop]; [done|]. intros _. by apply H7.
  - intros [Hr|Hr]%Hrun.
    + destruct (H8 Hr) as (past & rest & -> & Hl & Hre). exists past, rest. by rewrite E.
    + pose proof (H7 Hr) as Hz. rewrite Hz in H4 |- *. apply prefix_nil_inv in H4 as ->.
      exists [], []. by rewrite E, (qo_none _ H2 Hr).
  - unfold consumer_ok in *. cbn [mc_record mc_log mc_consumer]. rewrite Eh.
    destruct (mc_consumer m) as [|d index|d index before|d]; try done.
    + destruct H9 as [Hh H9]. split; [done|]. intros [?|Hn]%Hrun; [by apply H9|by destruct (Hnone Hn d)].
    + destruct H9 as [Hh H9]. split; [done|]. intros [?|Hn]%Hrun; [by apply H9|by destruct (Hnone Hn d)].
Qed.
(** Only the consumer moves. *)
Lemma inv_consumer acts m log' c :
  delivery_inv acts m → byte_list log' `prefix_of` (sent acts).*2 → length (taken acts) ≤ String.length log' →
  consumer_ok (taken acts) {| mc_record := mc_record m; mc_log := log'; mc_consumer := c |} →
  delivery_inv (acts ++ [ASilent]) {| mc_record := mc_record m; mc_log := log'; mc_consumer := c |}.
Proof.
  intros [H1 H2 H3 H3' H4 H5 H6 H7 H8 H9] Hlog Hlen Hc.
  split; rewrite ?sent_snoc, ?taken_snoc, ?app_nil_r; done.
Qed.
(** An event is queued. *)
Lemma at_head_queued r item d : at_head r d → at_head (queued r item) d.
Proof.
  unfold at_head. change (queue_of (queued r item)) with (queue_of r ++ [item]).
  intros (i & Hh & H). exists i. split; [|done]. by destruct (queue_of r).
Qed.
Lemma reached_start start item : reached start item start.
Proof. destruct item as [[]|]; cbn; [exists 0; cbn; lia|done..]. Qed.
Lemma reached_queued start q item n :
  reached start (head q) n → reached start (head (q ++ [item])) n.
Proof.
  destruct q as [|i q]; [|done]. intros ->. apply reached_start.
Qed.
Lemma inv_queued acts m a item :
  delivery_inv acts m → admitted (mc_record m) item → item_ok (m_operation (mc_record m)) item →
  taken_of a = [] →
  (∀ past rest, sent acts = past ++ rest → m_status (mc_record m) = Running →
     laid (length past) (queue_of (mc_record m)) rest →
     laid (length past) (queue_of (mc_record m) ++ [item]) (rest ++ sent_of a)) →
  delivery_inv (acts ++ [a]) {| mc_record := queued (mc_record m) item; mc_log := mc_log m; mc_consumer := mc_consumer m |}.
Proof.
  intros [H1 H2 H3 H3' H4 H5 H6 H7 H8 H9] Ha Hi Ht Hl.
  pose proof (queue_ok_queued _ _ H2 Ha Hi) as Hq. pose proof (proj1 Ha) as Hop.
  split; cbn [mc_record mc_log mc_consumer]; rewrite ?sent_snoc, ?taken_snoc, ?Ht, ?app_nil_r; try done.
  - by apply prefix_app_r.
  - rewrite fmap_app. by apply prefix_app_r.
  - intros Hr. destruct (H8 Hr) as (past & rest & E & Hla & Hre). exists past, (rest ++ sent_of a).
    change (queue_of (queued (mc_record m) item)) with (queue_of (mc_record m) ++ [item]).
    split; [by rewrite E, app_assoc|]. split; [by apply Hl|by apply reached_queued].
  - unfold consumer_ok in *. cbn [mc_record mc_log mc_consumer].
    destruct (mc_consumer m) as [|d index|d index before|d]; try done; destruct H9 as [Hh H9];
      (split; [by apply at_head_queued|done]).
Qed.

(** The head of the queue of a running command, when it is an output: where its bytes are among
    those sent, and how many of them have been taken. *)
Record head_output (acts : list act) (m : machine) (d : Delivery) (st : MonitorStream) (bytes : string)
    (past rest : list tag) (k : nat) : Prop := {
  ho_event : dl_event d = EvOutput (Z.of_nat (length past)) (stream_text st) bytes;
  ho_sent : sent acts = past ++ tagged st bytes ++ rest;
  ho_taken : length (taken acts) = length past + (k * CHUNK_BYTES) `min` String.length bytes;
  ho_operation : m_operation (mc_record m) = Some (dl_operation d);
  ho_bound : (Z.of_nat (length past + String.length bytes) <= u64_max)%Z;
  ho_tail : laid (length past + String.length bytes) (tail (queue_of (mc_record m))) rest }.
(** The delivery of an output, running or not. *)
Lemma at_head_output r d :
  queue_ok r → at_head r d → is_output_event (dl_event d) = true →
  ∃ offset st bytes, dl_event d = EvOutput offset (stream_text st) bytes ∧ m_operation r = Some (dl_operation d) ∧
    (0 <= offset)%Z ∧ (offset + Z.of_nat (String.length bytes) <= u64_max)%Z ∧
    ∃ cursor delta_base64, head (queue_of r) = Some (QOutput cursor offset (Z.of_nat (String.length bytes)) delta_base64 st (dl_operation d)) ∧
      base64_decode delta_base64 = Some bytes.
Proof.
  intros Hq (item & Hh & Hc & Hop & He) Ho. destruct (queue_of r) as [|i q] eqn:Eq; [done|]. injection Hh as ->.
  pose proof (qo_items _ Hq) as Hi. rewrite Eq in Hi. apply Forall_cons in Hi as [Hi _].
  destruct item as [cursor offset len delta st op| |]; cbn in He; [|injection He as E; by rewrite <-E in Ho..].
  destruct Hi as (_ & _ & Hs & H0 & Hb & bytes & Hd & ->). rewrite Hd in He.
  cbn in He. rewrite Z.eqb_refl in He. cbn in He. injection He as E. cbn in Hop. subst op.
  exists offset, st, bytes. split_and!; try done. by exists cursor, delta.
Qed.
Lemma head_output_exists acts m d :
  delivery_inv acts m → m_status (mc_record m) = Running → at_head (mc_record m) d →
  is_output_event (dl_event d) = true → ∃ st bytes past rest k, head_output acts m d st bytes past rest k.
Proof.
  intros Hi Hrun Hh Ho. destruct (at_head_output _ _ (di_queue _ _ Hi) Hh Ho) as
    (offset & st & bytes & He & Hop & H0 & Hb & cursor & delta & Hhead & Hd).
  destruct (di_placed _ _ Hi Hrun) as (past & rest & Hs & Hl & Hr). rewrite Hhead in Hr. destruct Hr as [k Hk].
  destruct (queue_of (mc_record m)) as [|i q] eqn:Eq; [done|]. injection Hhead as ->. cbn [laid] in Hl.
  destruct Hl as [-> (bytes' & rest' & Hd' & -> & Hl)]. rewrite Hd in Hd'. injection Hd' as <-. rewrite Nat2Z.id in Hk.
  exists st, bytes, past, rest', k. split; [done|done|done|done|lia|by rewrite Eq].
Qed.

(** The chunk a delivery is at. *)
Section chunk.
Context (acts : list act) (m : machine) (d : Delivery) (st : MonitorStream) (bytes : string) (past rest : list tag) (k : nat).
Context (index : nat) (offset : result Z) (stream chunk : string).
Hypothesis Hhead : head_output acts m d st bytes past rest k.
Hypothesis Hchunk : chunk_at d index = Some (offset, stream, chunk).
Let o := length past + index * CHUNK_BYTES.

Lemma chunk_parts :
  offset = Ok (Z.of_nat o) ∧ stream = stream_text st ∧ chunk = str_take CHUNK_BYTES (str_drop (index * CHUNK_BYTES) bytes) ∧
  index * CHUNK_BYTES ≤ String.length bytes ∧
  String.length chunk = CHUNK_BYTES `min` (String.length bytes - index * CHUNK_BYTES).
Proof.
  pose proof Hchunk as H. unfold chunk_at in H. rewrite (ho_event _ _ _ _ _ _ _ _ Hhead), stream_chunks_lookup in H.
  case_decide as Hd; [|done]. cbn in H. injection H as <- <- <-.
  assert (index * CHUNK_BYTES ≤ String.length bytes) as Hi by (destruct Hd as [?|[-> ->]]; cbn [String.length]; lia).
  split; [|split; [done|split; [done|split; [done|by rewrite str_take_length, str_drop_length]]]].
  unfold chunk_offset. pose proof (ho_bound _ _ _ _ _ _ _ _ Hhead) as Hb. rewrite (proj2 (Z.ltb_ge _ _)) by lia.
  cbn. f_equal. subst o. lia.
Qed.
Lemma chunk_tags : tagged st chunk = take (String.length chunk) (drop o (sent acts)).
Proof.
  destruct chunk_parts as (_ & _ & Ec & Hi & Hl).
  rewrite (ho_sent _ _ _ _ _ _ _ _ Hhead). subst o. rewrite <-drop_drop, drop_app_length, drop_app_le by (rewrite tagged_length; lia).
  rewrite Hl, Ec, tagged_take, tagged_drop, take_app_le by (rewrite length_drop, tagged_length; lia).
  rewrite (take_min CHUNK_BYTES). by rewrite length_drop, tagged_length.
Qed.
Lemma chunk_bytes : byte_list chunk = take (String.length chunk) (drop o (sent acts).*2).
Proof. by rewrite <-(tagged_bytes st), chunk_tags, fmap_take, fmap_drop. Qed.
Lemma chunk_end : length past + (S index * CHUNK_BYTES) `min` String.length bytes = o + String.length chunk.
Proof. destruct chunk_parts as (_ & _ & _ & Hi & ->). subst o. lia. Qed.

Hypothesis Hinv : delivery_inv acts m.
Hypothesis Hrun : m_status (mc_record m) = Running.
Hypothesis Hprog : progressed d index (length (taken acts)).
Let existing := (String.length (mc_log m) - o) `min` String.length chunk.

Lemma chunk_reached : o ≤ length (taken acts) ∧ o ≤ String.length (mc_log m).
Proof.
  destruct chunk_parts as (_ & _ & _ & Hi & _). pose proof (di_logged _ _ Hinv). unfold progressed in Hprog.
  rewrite (ho_event _ _ _ _ _ _ _ _ Hhead), Nat2Z.id in Hprog. subst o. lia.
Qed.
Lemma chunk_checked :
  chunk_check m d offset chunk =
  Ok (if decide (o < length (taken acts)) then None else Some (o + existing, str_drop existing chunk)).
Proof.
  destruct chunk_reached as [Hle Hlog]. pose proof chunk_end as Hend.
  unfold chunk_check. rewrite (proj1 chunk_parts). cbn [mbind result_bind].
  apply (append_check_ok (sent acts).*2); try done.
  - apply (di_log _ _ Hinv).
  - apply chunk_bytes.
  - rewrite (ho_operation _ _ _ _ _ _ _ _ Hhead). cbn. by rewrite same_identity_refl.
  - apply (di_bytes _ _ Hinv).
  - intros Hlt. rewrite <-Hend, (ho_taken _ _ _ _ _ _ _ _ Hhead) in *. subst o.
    assert (index < k) as Hk.
    { destruct (decide (index < k)); [done|]. pose proof (Nat.mul_le_mono_r k index CHUNK_BYTES). lia. }
    pose proof (Nat.mul_le_mono_r (S index) k CHUNK_BYTES). lia.
Qed.
End chunk.

(** An output that is queued goes to the end of what was sent. *)
Lemma next_offset_end acts m :
  delivery_inv acts m → m_status (mc_record m) = Running → from_option is_output true (last (queue_of (mc_record m))) = true →
  next_offset (m_bytes (mc_record m)) (queue_of (mc_record m)) = Z.of_nat (length (sent acts)) ∧
  (Z.of_nat (length (sent acts)) <= max_safe_integer + STREAM_QUEUE_MAX_BYTES)%Z.
Proof.
  intros Hi Hrun Hlast. pose proof (di_queue _ _ Hi) as Hq. pose proof (qo_items _ Hq) as Hitems.
  destruct (di_placed _ _ Hi Hrun) as (past & rest & -> & Hl & Hr). rewrite (di_bytes _ _ Hi).
  pose proof (laid_bytes _ _ _ _ Hl Hitems) as Hb. pose proof (qo_bytes _ Hq). pose proof (di_bound _ _ Hi) as Hm.
  rewrite (di_bytes _ _ Hi) in Hm. rewrite length_app. split.
  - unfold next_offset. destruct (last (queue_of (mc_record m))) as [item|] eqn:El.
    + destruct item as [cursor offset len delta st op| |]; try done. cbn [queue_length].
      rewrite <-(laid_last _ _ _ _ _ _ _ _ _ _ Hl Hitems El). unfold saturating_add.
      assert (QOutput cursor offset len delta st op ∈ queue_of (mc_record m)) as Hin by by apply last_Some_elem_of.
      destruct (proj1 (Forall_forall _ _) Hitems _ Hin) as (_ & _ & _ & _ & Hu & _). lia.
    + apply last_None in El. rewrite El in Hl, Hr. cbn in Hl, Hr. subst rest. cbn. lia.
  - assert (length past ≤ length (taken acts)) by (destruct (head (queue_of (mc_record m))) as [[]|]; cbn in Hr;
      [destruct Hr as [? ->]|..]; lia). lia.
Qed.
Lemma move_output acts m owner original scope params bytes r' :
  let a := AQueued (queue_of (mc_record m)) (default Stdout (od_stream params)) bytes in
  delivery_inv acts m → in_order a = true →
  enqueue_output (Some (mc_record m)) owner original scope params = Ok (Some r', true) →
  base64_decode (od_delta_base64 params) = Some bytes →
  delivery_inv (acts ++ [a]) {| mc_record := r'; mc_log := mc_log m; mc_consumer := mc_consumer m |}.
Proof.
  intros a Hi Ho He Hb. destruct (enqueue_output_inv _ _ _ _ _ _ _ He Hb) as (Hrun & operation & cursor & Hop & Hc & Ha & ->).
  destruct (next_offset_end _ _ Hi Hrun Ho) as [Hoff Hsent]. rewrite Hoff in *.
  pose proof (proj2 (proj2 (proj2 (proj2 Ha)))) as Hsize. cbn [queue_length] in Hsize.
  apply inv_queued; try done.
  - split; [cbn; lia|]. assert (0 <= queued_bytes (queue_of (mc_record m)))%Z.
    { destruct (di_placed _ _ Hi Hrun) as (past & rest & _ & Hl & _).
      pose proof (laid_bytes _ _ _ _ Hl (qo_items _ (di_queue _ _ Hi))). lia. }
    assert (max_safe_integer + STREAM_QUEUE_MAX_BYTES + STREAM_QUEUE_MAX_BYTES < u64_max)%Z by done.
    split_and!; [done|done|lia|lia|eauto].
  - intros past rest Hs _ Hl. rewrite Hs, length_app. by apply laid_output.
Qed.
Lemma move_other acts m item :
  delivery_inv acts m → is_output item = false → item_ok (m_operation (mc_record m)) item → admitted (mc_record m) item →
  delivery_inv (acts ++ [ASilent]) {| mc_record := queued (mc_record m) item; mc_log := mc_log m; mc_consumer := mc_consumer m |}.
Proof.
  intros Hi Ho Hok Ha. apply inv_queued; try done. intros past rest _ _ Hl. rewrite app_nil_r. by apply laid_other.
Qed.
Lemma taken_of_other e : is_output_request (e_request e) = false → taken_of (AStep e) = [].
Proof. intros H. unfold taken_of. rewrite !chunk_of_other; [done|..]; by intros * E; rewrite E in H. Qed.
Lemma step_protocol r e r' : step r e r' → protocol (control_of r) (report_of (e_effects e)) (control_of r').
Proof.
  intros (Hr & Ha & actor & d & _ & Hh & _ & <- & <-)%step_inv. rewrite <-Hr in Ha |- *. by eapply handle_protocol.
Qed.
Lemma move_transaction acts m e r' :
  delivery_inv acts m → step (mc_record m) e r' → is_output_request (e_request e) = false →
  delivery_inv (acts ++ [AStep e]) {| mc_record := r'; mc_log := mc_log m; mc_consumer := mc_consumer m |}.
Proof.
  intros Hi Hs Ho. apply inv_record; try done; [..|by apply taken_of_other].
  - apply step_inv in Hs as (<- & _ & actor & d & _ & Hh & _ & <- & _). by eapply handle_kept.
  - apply step_inv in Hs as (<- & _ & actor & d & _ & Hh & _ & <- & _). by eapply handle_bytes.
  - destruct (di_protocol _ _ Hi) as [reports Hp]. exists reports, (report_of (e_effects e)). split; [done|by apply step_protocol].
Qed.
Lemma move_identity acts m r' :
  delivery_inv acts m → side_write (mc_record m) r' → m_stream_queue r' = m_stream_queue (mc_record m) →
  m_stream_ack_cursor r' = m_stream_ack_cursor (mc_record m) →
  delivery_inv (acts ++ [ASilent]) {| mc_record := r'; mc_log := mc_log m; mc_consumer := mc_consumer m |}.
Proof.
  intros Hi Hw Hq Ha. apply inv_record; try done.
  - unfold queue_state. by rewrite Hq, Ha.
  - by rewrite Hw.
  - destruct (di_protocol _ _ Hi) as [reports Hp]. exists reports, silent. split; [done|]. rewrite (control_side _ _ Hw). constructor.
Qed.

(** The consumer. *)
Lemma next_head r d : next r = Ok d → at_head r d.
Proof.
  unfold next. intros H. inv_ok. match goal with H : head _ = Some ?i |- _ => exists i end. done.
Qed.
Lemma move_next acts m d :
  delivery_inv acts m → next (mc_record m) = Ok d →
  delivery_inv (acts ++ [ASilent]) {| mc_record := mc_record m; mc_log := mc_log m; mc_consumer := Delivering d 0 |}.
Proof.
  intros Hi Hn%next_head. apply inv_consumer; [done|apply Hi|apply Hi|]. split; [done|]. intros Hrun.
  destruct (is_output_event (dl_event d)) eqn:Eo; [|by unfold progressed; destruct (dl_event d)].
  destruct (head_output_exists _ _ _ Hi Hrun Hn Eo) as (st & bytes & past & rest & k & [He _ Ht _ _ _]).
  unfold progressed. rewrite He, Nat2Z.id. lia.
Qed.
Lemma chunk_at_output d index x : chunk_at d index = Some x → is_output_event (dl_event d) = true.
Proof. unfold chunk_at. by destruct (dl_event d). Qed.
Lemma move_skip acts m d index offset stream chunk :
  delivery_inv acts m → mc_consumer m = Delivering d index → chunk_at d index = Some (offset, stream, chunk) →
  chunk_check m d offset chunk = Ok None →
  delivery_inv (acts ++ [ASilent]) {| mc_record := mc_record m; mc_log := mc_log m; mc_consumer := Delivering d (S index) |}.
Proof.
  intros Hi Hc Hat Hck. pose proof (di_consumer _ _ Hi) as Hok. unfold consumer_ok in Hok. rewrite Hc in Hok.
  destruct Hok as [Hh Hp]. apply inv_consumer; [done|apply Hi|apply Hi|]. split; [done|]. intros Hrun. cbn in Hrun.
  destruct (head_output_exists _ _ _ Hi Hrun Hh (chunk_at_output _ _ _ Hat)) as (st & bytes & past & rest & k & Hho).
  rewrite (chunk_checked _ _ _ _ _ _ _ _ _ _ _ _ Hho Hat Hi Hrun (Hp Hrun)) in Hck. case_decide as Hlt; [|done].
  pose proof (chunk_end _ _ _ _ _ _ _ _ _ _ _ _ Hho Hat) as Hend. unfold progressed.
  rewrite (ho_event _ _ _ _ _ _ _ _ Hho), Nat2Z.id, Hend. rewrite (ho_taken _ _ _ _ _ _ _ _ Hho) in *.
  assert (index < k) as Hk.
  { destruct (decide (index < k)); [done|]. pose proof (Nat.mul_le_mono_r k index CHUNK_BYTES). lia. }
  pose proof (Nat.mul_le_mono_r (S index) k CHUNK_BYTES). lia.
Qed.
Lemma check_running m d offset chunk x :
  chunk_check m d offset chunk = Ok (Some x) → m_status (mc_record m) = Running.
Proof.
  unfold chunk_check, append_check. intros H. apply bind_ok in H as (o & _ & H). apply bind_ok in H as ([] & _ & H).
  destruct (m_status (mc_record m) == Running) eqn:E; [by apply eqb_eq|done].
Qed.
(** The write of a chunk, or of a part of it. *)
Lemma move_write acts m d index offset stream chunk position rest n c :
  delivery_inv acts m → mc_consumer m = Delivering d index → chunk_at d index = Some (offset, stream, chunk) →
  chunk_check m d offset chunk = Ok (Some (position, rest)) →
  c = Idle ∨ c = Writing d index (mc_record m) ∧ String.length rest ≤ n →
  delivery_inv (acts ++ [ASilent]) {| mc_record := mc_record m; mc_log := write_at (mc_log m) position (str_take n rest);
                                      mc_consumer := c |}.
Proof.
  intros Hi Hc Hat Hck Hcase. pose proof (di_consumer _ _ Hi) as Hok. unfold consumer_ok in Hok. rewrite Hc in Hok.
  destruct Hok as [Hh Hp]. pose proof (check_running _ _ _ _ _ Hck) as Hrun.
  destruct (head_output_exists _ _ _ Hi Hrun Hh (chunk_at_output _ _ _ Hat)) as (st & bytes & past & rest0 & k & Hho).
  rewrite (chunk_checked _ _ _ _ _ _ _ _ _ _ _ _ Hho Hat Hi Hrun (Hp Hrun)) in Hck. case_decide as Hlt; [done|].
  destruct (chunk_reached _ _ _ _ _ _ _ _ _ _ _ _ Hho Hat Hi (Hp Hrun)) as [Hle Hll].
  injection Hck as <- <-. set (o := length past + index * CHUNK_BYTES) in *.
  destruct (log_written (sent acts).*2 (mc_log m) chunk o (di_log _ _ Hi)
    (chunk_bytes _ _ _ _ _ _ _ _ _ _ _ _ Hho Hat) Hll n) as (Hpre & Hlong & Hall).
  apply inv_consumer; [done|done|pose proof (di_logged _ _ Hi); lia|]. destruct Hcase as [->|[-> Hn]]; [done|].
  split; [done|]. split; [done|]. exists o, stream, chunk. cbn [mc_log]. rewrite (di_bytes _ _ Hi).
  assert (length (taken acts) = o) as E by lia. rewrite E.
  destruct (chunk_parts _ _ _ _ _ _ _ _ _ _ _ _ Hho Hat) as [Eo _]. split; [by rewrite Hat, Eo|]. split; [done|].
  rewrite str_drop_length in Hn.
  destruct (decide (String.length chunk ≤ n)) as [?|Hgt]; [by apply Hall|].
  (* the part that is written is all of the rest *)
  revert Hlong. unfold write_at. rewrite !str_length_app, !str_take_length, !str_drop_length. lia.
Qed.
(** The chunk is committed. *)
Lemma taken_output s operation st chunk now es :
  m_status (sn_record s) = Running →
  taken_of (AStep {| e_snapshot := s; e_request := ROutput operation (stream_text st) chunk; e_now := now; e_effects := es |})
  = tagged st chunk.
Proof. intros Hs. unfold taken_of. rewrite !chunk_of_output by done. destruct st; cbn; by rewrite ?app_nil_r. Qed.
Lemma move_commit acts m d index offset stream chunk e r' :
  delivery_inv acts m → mc_consumer m = Writing d index (mc_record m) → chunk_at d index = Some (offset, stream, chunk) →
  step (mc_record m) e r' → e_request e = ROutput (dl_operation d) stream chunk →
  delivery_inv (acts ++ [AStep e]) {| mc_record := r'; mc_log := mc_log m; mc_consumer := Delivering d (S index) |}.
Proof.
  intros Hi Hc Hat Hs Hq. pose proof (di_consumer _ _ Hi) as Hok. unfold consumer_ok in Hok. rewrite Hc in Hok.
  destruct Hok as (Hh & Hrun & o & stream' & chunk' & Hat' & Hb & Hlog). rewrite Hat in Hat'. injection Hat' as Eoff <- <-.
  destruct (head_output_exists _ _ _ Hi Hrun Hh (chunk_at_output _ _ _ Hat)) as (st & bytes & past & rest & k & Hho).
  destruct (chunk_parts _ _ _ _ _ _ _ _ _ _ _ _ Hho Hat) as (Eo & -> & Ech & Hle & Hlen).
  rewrite Eo in Eoff. injection Eoff as Eoff. pose proof (di_bytes _ _ Hi) as Hby.
  assert (o = length past + index * CHUNK_BYTES ∧ length (taken acts) = o) as [Eo' Et] by lia.
  pose proof (step_protocol _ _ _ Hs) as Hp. destruct (di_protocol _ _ Hi) as [reports Hpi].
  destruct (protocol_kept _ _ _ _ Hpi Hp) as [_ Hop]. cbn in Hop. rewrite (ho_operation _ _ _ _ _ _ _ _ Hho) in Hop.
  destruct Hop as [Hop|]; [|done].
  apply step_inv in Hs as (Hr & _ & actor & d0 & _ & Hh0 & _ & <- & Hes). destruct e as [s q now es].
  cbn [e_snapshot e_request e_now e_effects] in *. subst q es. cbn [handle] in Hh0. rewrite <-Hr in Hrun.
  destruct (output_standing _ _ _ _ _ _ Hh0 Hrun) as (_ & Hst & Hbytes & Hbound).
  apply standing_fields in Hst as (Hqs & _).
  pose proof (taken_output s (dl_operation d) st chunk now (d_effects d0) Hrun) as Htk.
  rewrite Hr in *. assert (queue_of (d_record d0) = queue_of (mc_record m)) as Eq by (unfold queue_of; by injection Hqs as -> _).
  pose proof (chunk_end _ _ _ _ _ _ _ _ _ _ _ _ Hho Hat) as Hend.
  destruct Hi as [_ H2 H3 H3' H4 H5 H6 H7 H8 H9].
  split; cbn [mc_record mc_log mc_consumer]; rewrite ?sent_snoc, ?app_nil_r, ?taken_snoc, ?Htk, ?length_app, ?tagged_length;
    cbn [sent_of]; rewrite ?app_nil_r; try done.
  - eexists. by eapply protocol_inv_step.
  - eapply queue_ok_same; [done|done|]. left. by rewrite Hop, (ho_operation _ _ _ _ _ _ _ _ Hho).
  - lia.
  - rewrite (chunk_tags _ _ _ _ _ _ _ _ _ _ _ _ Hho Hat), <-Eo', <-Et. by apply prefix_extend.
  - lia.
  - by rewrite Hop.
  - intros _. destruct (H8 Hrun) as (past' & rest' & Hs & Hl & Hre). exists past', rest'. split; [done|].
    rewrite Eq. split; [done|]. destruct Hh as (item & Hh & _ & _ & He). rewrite Hh in *.
    destruct (queue_of (mc_record m)) as [|i q]; [done|]. injection Hh as ->.
    destruct item as [cursor off len delta st' op| |]; cbn in He; rewrite (ho_event _ _ _ _ _ _ _ _ Hho) in He; [|done..].
    inv_ok. cbn in Hl, Hre |- *. match goal with H : (len =? _)%Z = true |- _ => apply Z.eqb_eq in H as -> end.
    destruct Hl as [?%Nat2Z.inj _]. rewrite Nat2Z.id, length_app, tagged_length. exists (S index). lia.
  - unfold consumer_ok. cbn [mc_record mc_log mc_consumer]. split; [unfold at_head in *; by rewrite Eq|]. intros _.
    unfold progressed. rewrite (ho_event _ _ _ _ _ _ _ _ Hho), Nat2Z.id, Hend. rewrite length_app, tagged_length. lia.
Qed.
Lemma move_applied acts m d index :
  delivery_inv acts m → mc_consumer m = Delivering d index →
  is_output_event (dl_event d) = false ∨ chunk_at d index = None →
  delivery_inv (acts ++ [ASilent]) {| mc_record := mc_record m; mc_log := mc_log m; mc_consumer := Delivered d |}.
Proof.
  intros Hi Hc Hat. pose proof (di_consumer _ _ Hi) as Hok. unfold consumer_ok in Hok. rewrite Hc in Hok.
  destruct Hok as [Hh Hp]. apply inv_consumer; [done|apply Hi|apply Hi|]. split; [done|]. intros Hrun. specialize (Hp Hrun).
  unfold progressed, completed, chunk_at in *. destruct (dl_event d) as [offset stream bytes| |]; try done.
  destruct Hat as [?|Hat]; [done|]. rewrite stream_chunks_lookup in Hat. case_decide as Hd; [done|].
  assert (String.length bytes ≤ index * CHUNK_BYTES) as Hl.
  { destruct (decide (index * CHUNK_BYTES < String.length bytes)); [by destruct Hd; left|lia]. }
  lia.
Qed.
Lemma acknowledge_inv r d r' :
  queue_ok r → at_head r d → acknowledge r d = Ok r' →
  r' = Some (r <| m_stream_queue := Some (tail (queue_of r)) |> <| m_stream_ack_cursor := Some (dl_cursor d) |>) ∧
  m_operation r = Some (dl_operation d).
Proof.
  intros Hq (item & Hh & Hc & _) H. unfold acknowledge in H.
  destruct (m_stream_ack_cursor r == Some (dl_cursor d)) eqn:Ea.
  - apply eqb_eq in Ea. exfalso. apply (qo_ack _ Hq _ Ea). rewrite <-Hc. apply list_elem_of_fmap_2.
    destruct (queue_of r); [done|]. injection Hh as ->. left.
  - apply bind_ok in H as ([] & Ho%bail_if_ok & H). apply bind_ok in H as (q & Hqu%ctx_ok & H). inv_ok.
    unfold queue_of. by rewrite Hqu.
Qed.
Lemma queue_ok_ack r cursor q :
  queue_ok r → queue_of r = q → (∀ item, head q = Some item → queue_cursor item = cursor) → q ≠ [] →
  queue_ok (r <| m_stream_queue := Some (tail q) |> <| m_stream_ack_cursor := Some cursor |>).
Proof.
  intros [H1 H2 H3 H4 H5 H6] Eq Hh Hne. destruct q as [|item q]; [done|]. unfold cursors in *. rewrite Eq in *.
  cbn [fmap list_fmap] in *. apply Forall_cons in H1 as [Hi H1]. apply NoDup_cons in H4 as [Hn H4].
  rewrite (Hh item eq_refl) in Hn. split; unfold cursors, queue_of; msimpl; cbn [from_option id tail]; try done.
  - unfold queued_bytes in *. cbn in H2. destruct Hi as [Hi _]. lia.
  - cbn in H3. lia.
  - by intros c [= <-].
  - by intros ?%H6.
Qed.
Lemma move_ack acts m d r' :
  delivery_inv acts m → mc_consumer m = Delivered d → acknowledge (mc_record m) d = Ok r' →
  delivery_inv (acts ++ [ASilent]) {| mc_record := default (mc_record m) r'; mc_log := mc_log m; mc_consumer := Idle |}.
Proof.
  intros Hi Hc Hack. pose proof (di_consumer _ _ Hi) as Hok. unfold consumer_ok in Hok. rewrite Hc in Hok.
  destruct Hok as [Hh Hdone]. destruct (acknowledge_inv _ _ _ (di_queue _ _ Hi) Hh Hack) as [-> Hop]. cbn [from_option id].
  pose proof Hi as [H1 H2 H3 H3' H4 H5 H6 H7 H8 _].
  split; cbn [mc_record mc_log mc_consumer]; rewrite ?sent_snoc, ?taken_snoc; cbn [sent_of taken_of]; rewrite ?app_nil_r; try done.
  - destruct Hh as (item & Hh & Hcur & _). apply queue_ok_ack; [done|done| |by intros E; rewrite E in Hh].
    intros item' Hh'. rewrite Hh in Hh'. by injection Hh' as <-.
  - intros Hrun. msimpl in Hrun. specialize (Hdone Hrun). unfold placed, queue_of. msimpl. cbn [from_option id].
    destruct (is_output_event (dl_event d)) eqn:Eo.
    + destruct (head_output_exists _ _ _ Hi Hrun Hh Eo) as (st & bytes & past & rest & k & [He Hs Ht _ _ Hl]).
      unfold completed in Hdone. rewrite He, Nat2Z.id in Hdone. exists (past ++ tagged st bytes), rest.
      rewrite length_app, tagged_length. split; [by rewrite Hs, app_assoc|]. split; [exact Hl|].
      replace (length (taken acts)) with (length past + String.length bytes) by lia. apply reached_start.
    + destruct (H8 Hrun) as (past & rest & Hs & Hl & Hr). exists past, rest. split; [done|].
      destruct Hh as (item & Hh & _ & _ & He). rewrite Hh in Hr. unfold queue_of in Hh, Hl |- *.
      destruct (default [] (m_stream_queue (mc_record m))) as [|i q]; [done|]. injection Hh as ->.
      destruct item as [? offset len delta ? ?| |]; cbn in He; [exfalso|..].
      * destruct (dl_event d); [done|by inv_ok..].
      * split; [exact Hl|]. cbn in Hr. rewrite Hr. apply reached_start.
      * split; [exact Hl|]. cbn in Hr. rewrite Hr. apply reached_start.
Qed.
Lemma move_stop acts m n :
  delivery_inv acts m → Z.to_nat (m_bytes (mc_record m)) ≤ n →
  delivery_inv (acts ++ [ASilent]) {| mc_record := mc_record m; mc_log := str_take n (mc_log m); mc_consumer := Idle |}.
Proof.
  intros Hi Hn. rewrite (di_bytes _ _ Hi), Nat2Z.id in Hn. pose proof (di_logged _ _ Hi).
  apply inv_consumer; [done|..|done].
  - rewrite byte_list_take. etrans; [|apply (di_log _ _ Hi)]. exists (drop n (byte_list (mc_log m))). by rewrite take_drop.
  - rewrite str_take_length. lia.
Qed.
Lemma move_refused acts m d index offset stream chunk error e r' :
  delivery_inv acts m → mc_consumer m = Delivering d index → chunk_at d index = Some (offset, stream, chunk) →
  step (mc_record m) e r' → e_request e = RQuarantine (dl_cursor d) error →
  delivery_inv (acts ++ [AStep e]) {| mc_record := r'; mc_log := mc_log m; mc_consumer := Delivered d |}.
Proof.
  intros Hi Hc Hat Hs Hq.
  assert (m_status r' = Failed) as Hf.
  { pose proof (step_inv _ _ _ Hs) as (_ & _ & actor & d0 & _ & Hh & _ & <- & _). rewrite Hq in Hh. cbn [handle] in Hh.
    unfold quarantine_delivery in Hh. by inv_ok. }
  destruct (move_transaction acts m e r' Hi Hs) as [H1 H2 H3 H3' H4 H5 H6 H7 H8 H9]; [by rewrite Hq|].
  split; try done. unfold consumer_ok in *. cbn [mc_record mc_consumer] in *. rewrite Hc in H9. split; [apply H9|]. by rewrite Hf.
Qed.

Lemma move_inv acts m a m' : delivery_inv acts m → in_order a = true → move m a m' → delivery_inv (acts ++ [a]) m'.
Proof.
  intros Hi Ho Hm. destruct Hm.
  - by eapply move_output.
  - match goal with H : enqueue_probe _ _ _ _ = _ |- _ => apply enqueue_probe_inv in H as (item & ? & ? & ? & ->) end. by apply move_other.
  - match goal with H : enqueue_exit _ _ _ _ _ _ = _ |- _ => apply enqueue_exit_inv in H as (item & ? & ? & ? & ->) end. by apply move_other.
  - by apply move_identity.
  - by apply move_transaction.
  - by apply move_next.
  - by eapply move_skip.
  - rewrite <-(str_take_ge (String.length rest) rest) by done. eapply move_write; eauto.
  - eapply move_write; eauto.
  - subst before. by eapply move_commit.
  - eapply move_applied; eauto.
  - eapply move_applied; eauto.
  - by eapply move_refused.
  - by eapply move_ack.
  - by apply move_stop.
Qed.
Lemma moves_inv m0 acts m :
  delivery_inv [] m0 → moves m0 acts m → Forall (λ a, in_order a = true) acts → delivery_inv acts m.
Proof.
  intros H0. induction 1 as [|acts m a m' _ IH Hm]; [done|]. intros [Ha Hl]%Forall_app. apply Forall_cons in Hl as [Hl _].
  by eapply move_inv; [apply IH| |].
Qed.
(** A machine that starts with a command that was just created. *)
Definition created `{HU : UuidV5} (input : MonitorCreateInput) (m : machine) : Prop :=
  ∃ actor request_id log_root now, create_record actor input request_id log_root now = Ok (mc_record m) ∧
    mc_log m = "" ∧ mc_consumer m = Idle.
Lemma created_inv `{HU : UuidV5} input m : created input m → delivery_inv [] m.
Proof.
  intros (actor & id & root & now & Hc & Hl & Hi). pose proof (create_fresh _ _ _ _ _ _ Hc) as Hf.
  pose proof (co_bytes _ _ _ (create_counts _ _ _ _ _ _ Hc)) as Hb. cbn in Hb.
  assert (m_operation (mc_record m) = None) as Hop by apply Hf.
  assert (m_stream_queue (mc_record m) = None ∧ m_stream_ack_cursor (mc_record m) = None) as [Hq Ha].
  { unfold create_record in Hc. inv_ok. match goal with H : _ = mc_record m |- _ => by rewrite <-H end. }
  assert (queue_of (mc_record m) = []) as Eq by (unfold queue_of; by rewrite Hq).
  assert (m_status (mc_record m) ≠ Running) as Hs by (intros Hs; destruct Hf as [[E|E] _]; cbn in E; congruence).
  split; try done.
  - exists []. eapply protocol_run_inv; [exact Hf|constructor].
  - split; unfold cursors; rewrite ?Eq; try done; [cbn; lia|constructor|by rewrite Ha].
  - by rewrite Hb.
  - rewrite Hl. apply prefix_nil.
  - cbn. lia.
  - unfold consumer_ok. by rewrite Hi.
Qed.
End moves.
