(* ===== verification/Deliveries.v ===== *)
(** What the delivery of a monitored command's output guarantees, whatever stops in between: the
    record takes every byte once, in the order and on the stream it was sent, the log agrees with
    the record, and nothing that was queued is refused. The exception is an output that was queued
    behind a probe or an exit, which gets a wrong log offset. A command that has ended stays as it
    is, whatever is still delivered, acknowledged or asked for. *)

From S2P Require Import Prelude Strs Json F64 Canonical Extern Utf8 MonitorTypes MonitorMatches.
From S2P Require Import MonitorOutput MonitorPolicy MonitorQueue MonitorSteps MonitorHistory Monitor.
From S2P Require Import MonitorDelivery.

#[local] Opaque CHUNK_BYTES.

Section deliveries.
Context `{HE : Encodings} `{HJ : JsonText} `{HS : Schemas} `{HU : UuidV5}.

(** [m] is what has become of a command created for [input], after [acts]; every output was queued
    behind outputs only. *)
Definition reachable (input : MonitorCreateInput) (acts : list act) (m : machine) : Prop :=
  ∃ m0, created input m0 ∧ moves m0 acts m ∧ Forall (λ a, in_order a = true) acts.
(** The bytes of one stream. *)
Definition only (st : MonitorStream) (l : list tag) : list ascii := (filterb (λ t, t.1 == st) l).*2.

Lemma only_app st l k : only st (l ++ k) = only st l ++ only st k.
Proof. unfold only, filterb. by rewrite List.filter_app, fmap_app. Qed.
Lemma only_cons st t l : only st (t :: l) = (if t.1 == st then [t.2] else []) ++ only st l.
Proof. unfold only, filterb. cbn [List.filter]. by destruct (t.1 == st). Qed.
Lemma only_tagged st st' s : only st (tagged st' s) = if decide (st = st') then byte_list s else [].
Proof.
  unfold tagged. induction (byte_list s) as [|c l IH]; [by case_decide|].
  rewrite fmap_cons, only_cons, IH. cbn [fst snd]. destruct (decide (st = st')) as [->|Hn].
  - by rewrite eqb_refl.
  - assert ((st' == st) = false) as -> by (apply eqb_false; congruence). done.
Qed.
Lemma only_prefix st l k : l `prefix_of` k → only st l `prefix_of` only st k.
Proof. intros [t ->]. rewrite only_app. by exists (only st t). Qed.
(** What the transactions write is what the record has taken. *)
Lemma taken_written st acts : only st (taken acts) = byte_list (written st (trace_of acts)).
Proof.
  induction acts as [|a acts IH]; [done|]. change (taken (a :: acts)) with (taken_of a ++ taken acts). rewrite only_app, IH.
  destruct a as [behind st' bytes|e|]; [done| |done].
  change (trace_of (AStep e :: acts)) with (e :: trace_of acts). unfold written. cbn [fmap list_fmap taken_of].
  rewrite join_nil_cons, byte_list_app, only_app, !only_tagged. f_equal. destruct st; cbn; by rewrite ?app_nil_r.
Qed.
(** The record's history. *)
Lemma move_run r0 trace m a m' :
  run r0 trace (mc_record m) → move m a m' →
  run r0 (trace ++ match a with AStep e => [e] | _ => [] end) (mc_record m').
Proof.
  intros Hr Hm. destruct Hm; rewrite ?app_nil_r; cbn [mc_record]; try done; try (by eapply run_snoc); (eapply run_write; [exact Hr|]).
  - match goal with H : enqueue_output _ _ _ _ _ = _ |- _ => eapply enqueue_output_inv in H as (_ & ? & ? & _ & _ & _ & ->) end;
      [reflexivity|done].
  - match goal with H : enqueue_probe _ _ _ _ = _ |- _ => apply enqueue_probe_inv in H as (? & _ & _ & _ & ->) end. reflexivity.
  - match goal with H : enqueue_exit _ _ _ _ _ _ = _ |- _ => apply enqueue_exit_inv in H as (? & _ & _ & _ & ->) end. reflexivity.
  - done.
  - match goal with H : acknowledge _ _ = Ok _ |- _ => rename H into Hack end. unfold acknowledge in Hack.
    case_match; [by injection Hack as <-; destruct (mc_record m)|]. inv_ok. reflexivity.
Qed.
Lemma moves_run m0 acts m : moves m0 acts m → run (mc_record m0) (trace_of acts) (mc_record m).
Proof.
  induction 1 as [|acts m a m' _ IH Hm]; [constructor|]. apply (move_run _ _ _ _ _ IH) in Hm.
  unfold trace_of in *. rewrite omap_app. by destruct a.
Qed.
Lemma reachable_history input acts m : reachable input acts m → history input (trace_of acts) (mc_record m).
Proof.
  intros (m0 & (actor & id & root & now & Hc & _) & Hm%moves_run & _). by exists actor, id, root, now, (mc_record m0).
Qed.
Lemma reachable_inv input acts m : reachable input acts m → delivery_inv acts m.
Proof. intros (m0 & Hc%created_inv & Hm & Ho). by eapply moves_inv. Qed.

(** C3. Every byte that a command sends is delivered once, in order and on its stream, however often
    the process stops and delivers again: what the record has taken is a beginning of what was queued,
    its byte count is that length, and the log holds at least these bytes and nothing that was not
    queued. All of it has been taken when the command is running and its queue is empty. The
    transactions that take it are a history of the command, so all that is known of histories holds
    of the bytes that were sent. Outputs are queued behind outputs only ([reachable]). *)
Theorem delivery_exact input acts m :
  reachable input acts m →
  taken acts `prefix_of` sent acts ∧ m_bytes (mc_record m) = Z.of_nat (length (taken acts)) ∧
  (taken acts).*2 `prefix_of` byte_list (mc_log m) ∧ byte_list (mc_log m) `prefix_of` (sent acts).*2 ∧
  (m_status (mc_record m) = Running → queue_of (mc_record m) = [] → taken acts = sent acts) ∧
  history input (trace_of acts) (mc_record m) ∧
  ∀ st, byte_list (written st (trace_of acts)) = only st (taken acts).
Proof.
  intros Hr. pose proof (reachable_inv _ _ _ Hr) as [_ _ H3 _ H4 H5 H6 _ H8 _]. split; [done|]. split; [done|]. split.
  { assert ((taken acts).*2 `prefix_of` (sent acts).*2) as Hp by (destruct H4 as [t ->]; rewrite fmap_app; by eexists).
    destruct (prefix_weak_total _ _ _ Hp H5) as [?|Hle]; [done|].
    apply prefix_length_eq in Hle; [by rewrite Hle|]. by rewrite length_fmap, byte_list_length. }
  split; [done|]. split; [|split; [by apply reachable_history|intros st; by rewrite taken_written]].
  intros Hrun Hq. destruct (H8 Hrun) as (past & rest & Hs & Hl & Hre). rewrite Hq in Hl, Hre. cbn in Hl, Hre. subst rest.
  apply prefix_length_eq; [done|]. rewrite Hs, app_nil_r. lia.
Qed.

(** C14. Nothing that was queued is refused: an output at the head of the queue can be fetched, each
    chunk of it agrees with the log and the byte count at whatever point an earlier attempt has
    stopped, so that its delivery never fails the command, and it can be acknowledged. The queue
    holds at most 128 events and a mebibyte. Outputs are queued behind outputs only ([reachable]). *)
Theorem delivery_accepted input acts m :
  reachable input acts m →
  length (queue_of (mc_record m)) ≤ MAX_EVENTS ∧ (queued_bytes (queue_of (mc_record m)) <= STREAM_QUEUE_MAX_BYTES)%Z ∧
  (from_option is_output false (head (queue_of (mc_record m))) = true → is_ok (next (mc_record m)) = true) ∧
  (∀ d index offset stream chunk, mc_consumer m = Delivering d index →
     chunk_at d index = Some (offset, stream, chunk) → is_ok (chunk_check m d offset chunk) = true) ∧
  (∀ d, mc_consumer m = Delivered d → is_output_event (dl_event d) = true →
     is_ok (acknowledge (mc_record m) d) = true).
Proof.
  intros Hi%reachable_inv. pose proof (di_queue _ _ Hi) as Hq. pose proof (di_consumer _ _ Hi) as Hc. unfold consumer_ok in Hc.
  split; [apply Hq|]. split; [apply Hq|]. split; [|split].
  - intros Hh. unfold next. destruct (queue_of (mc_record m)) as [|[cursor offset len delta st op| |] q] eqn:Eq; try done.
    pose proof (qo_items _ Hq) as Hit. rewrite Eq in Hit. apply Forall_cons in Hit as [(_ & Hcur & _ & _ & _ & bytes & Hd & ->) _].
    cbn. unfold is_empty. assert ((cursor == "") = false) as -> by by apply eqb_false. cbn. rewrite Hd. cbn. by rewrite Z.eqb_refl.
  - intros d index offset stream chunk Hcon Hat. rewrite Hcon in Hc. destruct Hc as [Hh Hp].
    destruct (decide (m_status (mc_record m) = Running)) as [Hrun|Hrun].
    + destruct (head_output_exists _ _ _ Hi Hrun Hh (chunk_at_output _ _ _ Hat)) as (st & bytes & past & rest & k & Hho).
      by rewrite (chunk_checked _ _ _ _ _ _ _ _ _ _ _ _ Hho Hat Hi Hrun (Hp Hrun)).
    + destruct (at_head_output _ _ Hq Hh (chunk_at_output _ _ _ Hat)) as (o & st & bytes & He & Hop & H0 & Hb & _).
      unfold chunk_at in Hat. rewrite He, stream_chunks_lookup in Hat. case_decide as Hd; [|done]. cbn in Hat. injection Hat as <- <- <-.
      unfold chunk_check, chunk_offset. rewrite (proj2 (Z.ltb_ge _ _)) by (destruct Hd as [?|[-> ->]]; cbn [String.length] in *; lia).
      cbn [bail_if mbind result_bind]. unfold append_check. rewrite Hop. cbn. rewrite same_identity_refl. cbn.
      assert ((m_status (mc_record m) == Running) = false) as -> by by apply eqb_false. done.
  - intros d Hcon Ho. rewrite Hcon in Hc. destruct Hc as [Hh _].
    destruct (at_head_output _ _ Hq Hh Ho) as (_ & _ & _ & _ & Hop & _ & _ & _).
    destruct Hh as (item & Hh & Hcur & _). unfold acknowledge. case_match; [done|]. rewrite Hop, eqb_refl. cbn.
    unfold queue_of in Hh. destruct (m_stream_queue (mc_record m)) as [q|]; [|done]. cbn in *. rewrite Hh. cbn. by rewrite Hcur, eqb_refl.
Qed.
(** A stop by the owner, which drops the marker of an automatic stop; the real answer of a command
    that was lost at its deadline; a delivery that could not be handled. *)
Definition owner_stop (r : MonitorRecord) (e : entry) (r' : MonitorRecord) : Prop :=
  (∃ owner root, e_request e = RReserveCancel (Some owner) root) ∧ r' = r <| m_shell_pressure_cleanup := None |>.
Definition late_answer (r : MonitorRecord) (e : entry) (r' : MonitorRecord) : Prop :=
  m_status r = Lost ∧ deadline_lost (e_snapshot e) = true ∧
  (∃ operation code error, e_request e = RFinish operation code error) ∧
  settled (m_status r') ∧ m_late_answer_at r' = Some (e_now e) ∧ standing r' = standing r ∧ m_bytes r' = m_bytes r.
Definition delivery_failed (r : MonitorRecord) (e : entry) (r' : MonitorRecord) : Prop :=
  ∃ cursor error text finished, e_request e = RQuarantine cursor error ∧
    r' = r <| m_status := Failed |> <| m_error := Some text |> <| m_finished := Some finished |>
           <| m_configuration_pending := Some false |>
           <| m_delivery_failure := Some {| df_cursor := cursor; df_error := error |} |>.
(** The requests that can do so. *)
Definition exceptional (e : entry) : bool :=
  match e_request e with
  | RReserveCancel (Some _) _ | RQuarantine _ _ => true
  | RFinish _ _ _ => deadline_lost (e_snapshot e)
  | _ => false
  end.
(** What else may happen to the record of a command that has ended: a probe or an exit is queued, the
    head of the queue is acknowledged, or an identity is written. *)
Definition event_queued (r r' : MonitorRecord) : Prop :=
  ∃ item, is_output item = false ∧ r' = r <| m_stream_queue := Some (queue_of r ++ [item]) |>.
Definition event_acknowledged (r r' : MonitorRecord) : Prop :=
  ∃ item rest, m_stream_queue r = Some (item :: rest) ∧
    r' = r <| m_stream_queue := Some rest |> <| m_stream_ack_cursor := Some (queue_cursor item) |>.
Definition identity_written (r r' : MonitorRecord) : Prop :=
  side_write r r' ∧ m_stream_queue r' = m_stream_queue r ∧ m_stream_ack_cursor r' = m_stream_ack_cursor r.
Definition ended_change (r : MonitorRecord) (a : act) (r' : MonitorRecord) : Prop :=
  match a with
  | AQueued _ _ _ => False
  | AStep e => r' = r ∨ owner_stop r e r' ∨ late_answer r e r' ∨ delivery_failed r e r'
  | ASilent => r' = r ∨ event_queued r r' ∨ event_acknowledged r r' ∨ identity_written r r'
  end.

Lemma ended_step r e r' :
  step r e r' → terminal (m_status r) = true →
  (r' = r ∨ owner_stop r e r' ∨ late_answer r e r' ∨ delivery_failed r e r') ∧ (exceptional e = false → r' = r).
Proof.
  intros Hs Ht. pose proof Hs as (Hr & _ & actor & d & _ & Hh & _ & Hd & _)%step_inv. subst r r'.
  destruct (terminal_step _ _ _ Hs Ht) as [E|[E|[(Hl & (operation & code & error & Eq) & Hset & Hat)|(cursor & error & Eq & _)]]].
  - split; [by left|done].
  - split; [by right; left|]. destruct E as [(owner & root & Eq) _]. unfold exceptional. by rewrite Eq.
  - split; [right; right; left|unfold exceptional; by rewrite Eq, Hl]. rewrite Eq in Hh. cbn [handle] in Hh.
    apply finish_standing in Hh as [Hst Hb]. split_and!; try done; [|by eauto].
    unfold deadline_lost in Hl. apply andb_true_iff in Hl as [[Hl _]%andb_true_iff _]. by apply eqb_eq in Hl.
  - split; [right; right; right|unfold exceptional; by rewrite Eq]. rewrite Eq in Hh. cbn [handle] in Hh.
    unfold quarantine_delivery in Hh. inv_ok. by eexists _, _, _, _.
Qed.
Lemma ended_acknowledged r d r' : acknowledge r d = Ok (Some r') → event_acknowledged r r'.
Proof.
  unfold acknowledge, event_acknowledged. case_match; [done|]. intros Hack. inv_ok.
  match goal with H : queue_cursor <$> head ?q = _ |- _ => destruct q as [|item rest]; [done|]; injection H as <- end.
  by exists item, rest.
Qed.
(** The chunks of an ended command are not written. *)
Lemma ended_chunk m d offset chunk : terminal (m_status (mc_record m)) = true →
  ∀ x, chunk_check m d offset chunk ≠ Ok (Some x).
Proof.
  intros Ht x. unfold chunk_check, append_check. intros H. inv_ok.
  assert ((m_status (mc_record m) == Running) = false) as E by (apply eqb_false; intros E; by rewrite E in Ht).
  rewrite E in *. by inv_ok.
Qed.
Lemma ended_move m a m' :
  move m a m' → terminal (m_status (mc_record m)) = true →
  ended_change (mc_record m) a (mc_record m') ∧ ∃ n, mc_log m' = str_take n (mc_log m).
Proof.
  assert (∀ log, ∃ n, log = str_take n log) as Hlog by (intros log; exists (String.length log); by rewrite str_take_ge).
  intros Hm Ht. destruct Hm; cbn [mc_record mc_log ended_change]; try (split; [|by apply Hlog]); try (by left).
  - match goal with H : enqueue_output _ _ _ _ _ = _ |- _ => eapply enqueue_output_inv in H as (E & _) end; [|done].
    by rewrite E in Ht.
  - match goal with H : enqueue_probe _ _ _ _ = _ |- _ => apply enqueue_probe_inv in H as (item & ? & _ & _ & ->) end.
    right; left. by exists item.
  - match goal with H : enqueue_exit _ _ _ _ _ _ = _ |- _ => apply enqueue_exit_inv in H as (item & ? & _ & _ & ->) end.
    right; left. by exists item.
  - by right; right; right.
  - by apply ended_step.
  - exfalso. by eapply ended_chunk.
  - exfalso. by eapply ended_chunk.
  - by apply ended_step.
  - by apply ended_step.
  - destruct r' as [r'|]; [|by left]. right; right; left. by eapply ended_acknowledged.
  - split; [by left|by eexists].
Qed.
Lemma str_take_take k n s : str_take k (str_take n s) = str_take (k `min` n) s.
Proof. revert k n. induction s as [|c s IH]; intros [|k] [|n]; try done. cbn. by rewrite IH. Qed.
Lemma moved_step m e m' : move m (AStep e) m' → step (mc_record m) e (mc_record m').
Proof. by inversion 1. Qed.
Lemma ended_terminal r a r' : ended_change r a r' → terminal (m_status r) = true → terminal (m_status r') = true.
Proof.
  destruct a as [behind st bytes|e|]; cbn [ended_change]; [done|..].
  - intros [->|[[_ ->]|[(_ & _ & _ & Hs & _)|(? & ? & ? & ? & _ & ->)]]] Ht; try done. by destruct Hs as [-> | [-> | ->]].
  - intros [->|[(? & _ & ->)|[(? & ? & _ & ->)|[-> _]]]] Ht; done.
Qed.
Lemma ended_side r r' :
  r' = r ∨ event_queued r r' ∨ event_acknowledged r r' ∨ identity_written r r' → side_write r r'.
Proof.
  intros [->|[(? & _ & ->)|[(? & ? & _ & ->)|[H _]]]]; [apply side_refl|reflexivity|reflexivity|done].
Qed.
Lemma ended_moves m0 acts m :
  moves m0 acts m → terminal (m_status (mc_record m0)) = true →
  terminal (m_status (mc_record m)) = true ∧ (∃ n, mc_log m = str_take n (mc_log m0)) ∧
  (Forall (λ e, exceptional e = false) (trace_of acts) → side_write (mc_record m0) (mc_record m)).
Proof.
  induction 1 as [|acts m a m' Hms IH Hm]; intros Ht.
  { split; [done|]. split; [exists (String.length (mc_log m0)); by rewrite str_take_ge|intros _; apply side_refl]. }
  destruct (IH Ht) as (Hterm & [n Hn] & Hside). destruct (ended_move _ _ _ Hm Hterm) as [Hc [k Hk]].
  split; [by eapply ended_terminal|]. split; [exists (k `min` n); by rewrite Hk, Hn, str_take_take|].
  unfold trace_of. rewrite omap_app. intros [Hf Hl]%Forall_app. eapply side_trans; [by apply Hside|].
  destruct a as [behind st bytes|e|]; cbn [ended_change omap list_omap] in *; [done| |by apply ended_side].
  apply Forall_cons in Hl as [Hl _]. apply (moved_step m e m') in Hm.
  rewrite (proj2 (ended_step _ _ _ Hm Hterm) Hl). apply side_refl.
Qed.

(** C28. A command that has ended stays as it is, whatever still happens to it: events that are
    queued and delivered, transactions, acknowledgements, failures of the process. A transaction
    leaves its record alone, except a stop by its owner, which drops the marker of an automatic stop,
    the real answer of a command that was lost at its deadline, which settles it, and a delivery that
    cannot be handled, which fails it. Besides transactions, a probe or an exit may still be queued,
    the head of the queue be acknowledged and the identity of a provider's request be written; no
    output is queued and nothing is added to the log. So the command stays ended, and as long as none
    of the three exceptions occurs, its record keeps all but its queue with the acknowledgement, the
    identities and the marks of restarts and gates ([side_write]). *)
Theorem terminal_final :
  (∀ m a m', move m a m' → terminal (m_status (mc_record m)) = true → ended_change (mc_record m) a (mc_record m')) ∧
  (∀ m0 acts m, moves m0 acts m → terminal (m_status (mc_record m0)) = true →
     terminal (m_status (mc_record m)) = true ∧ (∃ n, mc_log m = str_take n (mc_log m0)) ∧
     (Forall (λ e, exceptional e = false) (trace_of acts) → side_write (mc_record m0) (mc_record m))).
Proof. split; [intros m a m' Hm Ht; by apply ended_move|apply ended_moves]. Qed.
End deliveries.

(** ** An example *)

(** Moves that can be computed: each with the owner and the time it sees. *)
Inductive command :=
| CQueue (scope : JournalEventScope) (params : OutputDelta)
| CProbe (operation : MonitorOperationRecord) (generation : Z) (result : MonitorProbeResult)
| CExit (operation : MonitorOperationRecord) (cursor : string) (code : option Z) (finished : f64)
| CTransact (item : json * request * f64)
| CNext
| CChunk
| CTorn (n : nat)
| CCommit (actor : json) (now : f64)
| CAck.

Section perform.
Context `{HE : Encodings} `{HJ : JsonText} `{HS : Schemas}.

Definition transacted (m : machine) (item : json * request * f64) (c : consumer) : result (act * machine) :=
  let '(actor, q, now) := item in
  ensure (allowed (mc_record m) q) "not a transaction of this record";;
  '(s, d) ← commit (mc_record m) actor q now;
  Ok (AStep {| e_snapshot := s; e_request := q; e_now := now; e_effects := d_effects d |},
      {| mc_record := d_record d; mc_log := mc_log m; mc_consumer := c |}).
Definition perform (m : machine) (c : command) : result (act * machine) :=
  let silent r log c := Ok (ASilent, {| mc_record := r; mc_log := log; mc_consumer := c |}) in
  match c, mc_consumer m with
  | CQueue scope params, _ =>
      bytes ← ctx "not base64" (base64_decode (od_delta_base64 params));
      match enqueue_output (Some (mc_record m)) None None scope params with
      | Ok (Some r', true) =>
          Ok (AQueued (queue_of (mc_record m)) (default Stdout (od_stream params)) bytes,
              {| mc_record := r'; mc_log := mc_log m; mc_consumer := mc_consumer m |})
      | _ => Err "not queued"
      end
  | CProbe operation generation result, _ =>
      match enqueue_probe (mc_record m) operation generation result with
      | Ok (Some r') => silent r' (mc_log m) (mc_consumer m)
      | _ => Err "not queued"
      end
  | CExit operation cursor code finished, _ =>
      match enqueue_exit (mc_record m) operation cursor code None finished with
      | Ok (Some r', true) => silent r' (mc_log m) (mc_consumer m)
      | _ => Err "not queued"
      end
  | CTransact item, _ =>
      bail_if (is_output_request item.1.2) "not a transaction of its own";;
      transacted m item (mc_consumer m)
  | CNext, Idle => d ← next (mc_record m); silent (mc_record m) (mc_log m) (Delivering d 0)
  | CChunk, Delivering d index =>
      match chunk_at d index with
      | None => silent (mc_record m) (mc_log m) (Delivered d)
      | Some (offset, stream, chunk) =>
          x ← chunk_check m d offset chunk;
          match x with
          | None => silent (mc_record m) (mc_log m) (Delivering d (S index))
          | Some (position, rest) =>
              silent (mc_record m) (write_at (mc_log m) position rest) (Writing d index (mc_record m))
          end
      end
  | CTorn n, Delivering d index =>
      '(offset, stream, chunk) ← ctx "no chunk" (chunk_at d index);
      x ← chunk_check m d offset chunk;
      '(position, rest) ← ctx "nothing to write" x;
      silent (mc_record m) (write_at (mc_log m) position (str_take n rest)) Idle
  | CCommit actor now, Writing d index before =>
      ensure (bool_decide (mc_record m = before)) "Monitor changed during log delivery";;
      '(offset, stream, chunk) ← ctx "no chunk" (chunk_at d index);
      transacted m (actor, ROutput (dl_operation d) stream chunk, now) (Delivering d (S index))
  | CAck, Delivered d => r' ← acknowledge (mc_record m) d; silent (default (mc_record m) r') (mc_log m) Idle
  | _, _ => Err "not possible"
  end.
Lemma transacted_step m item c a m' :
  transacted m item c = Ok (a, m') →
  ∃ e r', a = AStep e ∧ m' = {| mc_record := r'; mc_log := mc_log m; mc_consumer := c |} ∧
    e_request e = item.1.2 ∧ step (mc_record m) e r'.
Proof.
  unfold transacted. destruct item as [[actor q] now]. intros H. inv_pair. eexists _, _. split_and!; try done. by econstructor.
Qed.
Lemma perform_move m c a m' : perform m c = Ok (a, m') → move m a m'.
Proof.
  unfold perform. intros H. destruct c as [scope params|operation generation result|operation cursor code finished|item| | |n|actor now|].
  - inv_ok. destruct (enqueue_output _ _ _ _ _) as [[[r'|] []]|] eqn:E; inv_ok. by econstructor.
  - destruct (enqueue_probe _ _ _ _) as [[r'|]|] eqn:E; inv_ok. by econstructor.
  - destruct (enqueue_exit _ _ _ _ _ _) as [[[r'|] []]|] eqn:E; inv_ok. by eapply M_exit.
  - inv_ok. match goal with H : transacted _ _ _ = _ |- _ => apply transacted_step in H as (e & r' & -> & -> & He & Hs) end.
    apply M_transaction; [done|by rewrite He].
  - destruct (mc_consumer m) eqn:Ec; inv_ok. by apply M_next.
  - destruct (mc_consumer m) eqn:Ec; inv_ok. destruct (chunk_at d index) as [[[offset stream] chunk]|] eqn:Ea.
    + apply bind_ok in H as ([[position rest]|] & Hc & H); inv_ok; [by eapply M_write|by eapply M_skip].
    + inv_ok. destruct (is_output_event (dl_event d)) eqn:Eo; [by eapply M_applied|by eapply M_handled].
  - destruct (mc_consumer m) eqn:Ec; inv_ok. inv_pair. by eapply M_torn.
  - destruct (mc_consumer m) eqn:Ec; inv_ok.
    match goal with H : bool_decide _ = true |- _ => apply bool_decide_eq_true in H end. inv_pair.
    match goal with H : transacted _ _ _ = _ |- _ => apply transacted_step in H as (e & r' & -> & -> & He & Hs) end.
    by eapply M_commit.
  - destruct (mc_consumer m) eqn:Ec; inv_ok. by eapply M_ack.
Qed.
Definition performed (state : list act * machine) (c : command) : result (list act * machine) :=
  '(a, m) ← perform state.2 c; Ok (state.1 ++ [a], m).
Lemma performed_moves m0 cs acts m : foldM performed ([], m0) cs = Ok (acts, m) → moves m0 acts m.
Proof.
  assert (∀ cs acts0 m1, moves m0 acts0 m1 → foldM performed (acts0, m1) cs = Ok (acts, m) → moves m0 acts m)
    as H; [|by apply H, moves_nil]. clear cs.
  induction cs as [|c cs IH]; intros acts0 m1 Hm H; cbn [foldM] in H; [by simplify_eq|].
  apply bind_ok in H as ([acts1 m2] & Hp & H). apply (IH acts1 m2); [|done].
  unfold performed in Hp. inv_pair. eapply moves_snoc; [done|]. by eapply perform_move.
Qed.
End perform.

Definition plain_text : JsonText := text_table [] [] (λ _, "result").
Definition sample_scope (cursor : Z) : JournalEventScope := {|
  js_account := "default"; js_cursor_scope := "default"; js_generation := 1; js_cursor := cursor;
  js_expected_agent := None |}.
Definition sample_delta (bytes : string) (st : MonitorStream) : OutputDelta := {|
  od_delta_base64 := @base64_encode encodings_hex bytes; od_stream := Some st |}.
(** Two outputs are queued; the delivery of the first stops while the log is written, and again
    after its chunk is committed, before it is acknowledged. *)
Definition sample_start : list command := [
  CTransact (at_time 1 (RAnswer true));
  CTransact (at_time 2 (RStart sample_operation sample_params))].
Definition sample_deliver : list command := [
  CQueue (sample_scope 1) (sample_delta "out" Stdout);
  CQueue (sample_scope 2) (sample_delta "err" Stderr);
  CNext; CTorn 2;
  CNext; CChunk; CCommit sample_owner (f64_of_Z 3); CChunk; CAck;
  CNext; CChunk; CCommit sample_owner (f64_of_Z 4); CChunk].
Definition sample_machine : result machine :=
  r0 ← sample_created; Ok {| mc_record := r0; mc_log := ""; mc_consumer := Idle |}.
Definition sample_moves (cs : list command) : result (list act * machine) :=
  m0 ← sample_machine; foldM (@performed encodings_hex plain_text any_schema) ([], m0) cs.
Definition sample_reachable : list act → machine → Prop :=
  @reachable encodings_hex plain_text any_schema name_uuid sample_input.
Lemma sample_moves_reachable cs acts m :
  sample_moves cs = Ok (acts, m) → Forall (λ a, in_order a = true) acts → sample_reachable acts m.
Proof.
  unfold sample_moves, sample_machine. intros (m0 & (r0 & Hc & Hm)%bind_ok & Hp)%bind_ok Ho. injection Hm as <-.
  eexists. split; [|split; [by eapply performed_moves|done]]. by exists sample_owner, "m1", "/logs", (f64_of_Z 0).
Qed.
Definition sample_result (cs : list command) (H : is_ok (sample_moves cs) = true) : list act * machine :=
  match sample_moves cs as x return is_ok x = true → list act * machine with
  | Ok x => λ _, x
  | Err _ => λ H, False_rect _ (diff_false_true H)
  end H.
Definition before_ack : list act * machine := sample_result (sample_start ++ sample_deliver) ltac:(vm_compute; reflexivity).
Definition after_ack : list act * machine :=
  sample_result (sample_start ++ sample_deliver ++ [CAck]) ltac:(vm_compute; reflexivity).
Lemma before_reachable : sample_reachable before_ack.1 before_ack.2.
Proof.
  apply (sample_moves_reachable (sample_start ++ sample_deliver)); [vm_compute; reflexivity|].
  apply Forall_forall, forallb_elem. vm_compute. reflexivity.
Qed.
Lemma after_reachable : sample_reachable after_ack.1 after_ack.2.
Proof.
  apply (sample_moves_reachable (sample_start ++ sample_deliver ++ [CAck])); [vm_compute; reflexivity|].
  apply Forall_forall, forallb_elem. vm_compute. reflexivity.
Qed.
Lemma delivery_exact_witness :
  taken after_ack.1 = sent after_ack.1 ∧ byte_list (mc_log after_ack.2) = byte_list "outerr".
Proof.
  destruct (@delivery_exact encodings_hex plain_text any_schema name_uuid _ _ _ after_reachable) as (_ & _ & _ & _ & H & _).
  split; [|vm_compute; reflexivity]. apply H; vm_compute; reflexivity.
Defined.
Lemma delivery_accepted_witness :
  ∃ d, mc_consumer before_ack.2 = Delivered d ∧ is_ok (acknowledge (mc_record before_ack.2) d) = true.
Proof.
  destruct (@delivery_accepted encodings_hex plain_text any_schema name_uuid _ _ _ before_reachable) as (_ & _ & _ & _ & H).
  eexists. split; [vm_compute; reflexivity|]. apply H; vm_compute; reflexivity.
Defined.

(** The answer of the command is queued and delivered, which ends it, and then acknowledged. *)
Definition exit_delivered : list command := [
  CExit sample_operation "exit:m1" (Some 0%Z) (f64_of_Z 5); CNext;
  CTransact (at_time 6 (RFinish (Some sample_operation) (Some 0%Z) None)); CChunk].
Definition ended_machine : machine := (sample_result (sample_start ++ exit_delivered) ltac:(vm_compute; reflexivity)).2.
Definition acknowledged : list act * machine :=
  match foldM (@performed encodings_hex plain_text any_schema) ([], ended_machine) [CAck] as x
    return is_ok x = true → list act * machine with
  | Ok x => λ _, x
  | Err _ => λ H, False_rect _ (diff_false_true H)
  end ltac:(vm_compute; reflexivity).
Lemma acknowledged_moves : @moves encodings_hex plain_text any_schema ended_machine acknowledged.1 acknowledged.2.
Proof. apply (performed_moves _ [CAck]). vm_compute. reflexivity. Qed.
Lemma terminal_final_witness :
  queue_of (mc_record ended_machine) ≠ [] ∧ queue_of (mc_record acknowledged.2) = [] ∧
  m_status (mc_record acknowledged.2) = Completed ∧ side_write (mc_record ended_machine) (mc_record acknowledged.2).
Proof.
  split; [vm_compute; discriminate|]. split; [vm_compute; reflexivity|]. split; [vm_compute; reflexivity|].
  apply (proj2 (@terminal_final encodings_hex plain_text any_schema) _ _ _ acknowledged_moves);
    [vm_compute; reflexivity|]. vm_compute. constructor.
Defined.

(** An output that is queued behind a probe gets the probe's bytes added to its log offset. When the
    probe has been delivered, the output is refused, which fails a command that is running. *)
Definition behind_probe : list command := [
  CProbe sample_operation 0 (ProbeFailed "no answer");
  CQueue (sample_scope 1) (sample_delta "out" Stdout);
  CNext; CChunk; CAck; CNext].
Example output_behind_probe_refused :
  (λ '(_, m), (m_status (mc_record m), m_bytes (mc_record m),
               match mc_consumer m with
               | Delivering d index =>
                   (λ '(offset, _, chunk), (offset, chunk_check m d offset chunk)) <$> chunk_at d index
               | _ => None
               end)) <$> sample_moves (sample_start ++ behind_probe) =
  Ok (Running, 0%Z, Some (Ok 6%Z, Err "cursor has a gap")).
Proof. vm_compute. reflexivity. Qed.
